(* ===== verification/_CoqProject ===== *)
-Q . S2P
Prelude.v
GoLib.v
FloatLib.v
GoTime.v
Api.v
Scheme.v
GoHeap.v
DeepCopy.v
ActionTypes.v
Metrics.v
Effects.v
Logic.v
Evaluator.v
Limiter.v
Registry.v
Executor.v
AuditWriter.v
PolicyController.v
AuditController.v
PolicyWebhook.v
AuditWebhook.v
Cli.v
Sink.v
PluginBase.v
MeshShift.v
Annotate.v
NetworkIsolate.v
Fake.v
EvaluatorTheorems.v
RegistryTheorems.v
Wiring.v
ExecutorTheorems.v
ExecutorStore.v
WebhookTheorems.v
PolicySpec.v
RateCap.v
PolicyTheorems.v
AuditSpec.v
AuditTheorems.v
Progress.v
Records.v
Deadlines.v
Schema.v
GateLife.v
RevertLife.v
Telemetry.v
CliTheorems.v
CliCommands.v
TestSupport.v
SinkTheorems.v
SinkRows.v
PluginTheorems.v
ArgocdTheorems.v
Access.v
DeepCopyTheorems.v
