(* ===== verification/Prelude.v ===== *)
(** * reactive-policy: the verification library

    reactive-policy is a Kubernetes operator.  A [ReactivePolicy] names a
    metric, a threshold and a pipeline of plugin actions; the operator polls
    the metric and, once the threshold has been crossed for long enough, runs
    the pipeline on the matching resources and records the run as an
    [ActionAudit].  A pipeline may stop at an action that needs a human
    decision; two admission webhooks guard policies and decisions, a second
    reconciler releases or closes the gates, reverts runs on request and
    sweeps old records.  This library models that program from its Go source
    and proves what makes it correct.

    ** The parts and how they interact

    - [Prelude] (this file): notations, outcomes (a Go call returns or
      panics), tactics, counting on lists.
    - [GoLib], [FloatLib], [GoTime]: what the program uses of Go and its
      standard library, executable: integers at their width, errors with their
      [Is] chains, [fmt], [strings], sorting, float64 with [ParseFloat] and
      [FormatFloat], [time] with [ParseDuration] and [Duration.String].
    - [Api] (api/v1alpha1): the two custom resources, field by field, and the
      status and spec assignments the code makes.
    - [Scheme] (api/v1alpha1/groupversion_info.go): what the package registers
      under which group, version and kind, and the schemes made from it.
    - [GoHeap]: pointers, slices and maps as references into a heap, and what
      it is for a copy to share nothing with its original.  [DeepCopy]
      (api/v1alpha1/zz_generated.deepcopy.go): every generated [DeepCopyInto]
      and [DeepCopy] as the assignments it makes on that heap.
    - [ActionTypes] (internal/action/interface.go, clientctx.go, params.go,
      internal/audit/sink/sink.go): plugins as records of operations over a
      world [W], their inputs and results, the sink interface.
    - [Effects], [Logic]: handlers run in a state monad [M W] over the world
      outside (class [Cluster]: API server, clock), the process's memory
      (crossing times, rate-limit cache, metrics) and a log of every call with
      its answer.  [wp m st Q] speaks of the outcome, the log and the state of
      one run, [Emits] and [Keeps] are effect typings.  Theorems hold for every
      instance of [Cluster], hence for every answer and failure of the outside
      and everything other actors do between two calls.
    - [Metrics] (internal/metrics), [Evaluator] (internal/prometheus),
      [Limiter] (internal/controller/ratelimit.go), [Registry]
      (internal/action/registry.go, rbac.go), [Executor]
      (internal/action/executor.go), [AuditWriter]
      (internal/controller/auditwriter.go): the components the reconcilers
      call, one Definition per function.  [ExecutorStore] repeats the executor
      with its results as memory that the code updates in place.
    - [PolicyController], [AuditController] (internal/controller): the two
      [Reconcile]s with every function they call.  [Reconcile] of policies is
      split where the Go function returns early: [gate0] (open approval),
      [gate1] (cooldown), [gate2] (rate limit), [evaluate], [trigger].
    - [PolicyWebhook], [AuditWebhook] (internal/webhook/v1alpha1).
    - [Cli] (pkg/cli): the [rp] commands, with the rows or objects they print;
      [CliCommands] (pkg/cli/root.go): the command tree, its names, flags and
      argument rules, the client a command gets, and its [main]
      (cmd/cli/main.go).
    - [Sink] (internal/audit/sink/postgres, cmd/auditsink.go): the bounded
      queue, its worker and [Close] as a transition system; connecting and
      the batch writer.
    - [PluginBase] (internal/action/params.go, template.go), [MeshShift],
      [Annotate] (k8s.annotate, argocd.suspend), [NetworkIsolate]
      (network.isolate, notify.slack): the built-in plugins as values of the
      [Action] interface over a client of unstructured objects.
    - [Wiring] (cmd/main.go): [main] as the set-up steps it asks of the manager,
      the reconcilers' set-up, the registration of the built-in plugins and the
      role their markers generate.
    - [Access]: the permission markers of the two reconcilers, the API requests
      a logged call stands for, and a client that records what a plugin sends
      beside running it on the world beneath.
    - [TestSupport] (internal/action/testing, internal/audit/sink/sinktest):
      the test doubles the repository offers to plugin authors, the no-op
      plugin and the recording sink.
    - [Fake]: a concrete, executable world that instantiates every class; the
      witnesses of the theorems run on it.

    ** What is proved

    - [PolicySpec] states the contract of the policy reconciler as layered
      relations from the answers of the outside to a verdict ([Evaluated],
      [Counted], [Limited], [CooledDown], [Gated]) and from the verdict to the
      status, requeue and memory ([Settled], [Recorded], [Triggered]);
      [policy_Reconcile_wp] is the refinement, [PolicyTheorems] draws from it
      that plugins run only when due and only below the gate, what a trigger
      records and leaves behind, that open gates and cooldowns are quiet, that
      every pass returns, and what a deletion forgets.
    - [AuditSpec] and [AuditTheorems] do the same for the audit reconciler:
      releases need an approval and are recorded, refusals run nothing,
      reverts are exact, retention, and exactly when it panics; [Progress]:
      an open gate gets resolved when no call fails.
    - [ExecutorTheorems]: a pipeline runs an ordered prefix, rollback reverses
      what succeeded, last first.  [EvaluatorTheorems]: the window measures
      the time since the first crossing, comparison is the order of numbers.
      [RegistryTheorems]: the registry and the union of permissions.
    - [ExecutorStore]: computing with results in shared memory, updated in
      place, gives what the by-value pipeline of [Executor] gives, provided
      plugins hand over [Details] maps nobody else holds.
    - [DeepCopyTheorems]: a deep copy equals its original and shares no memory
      with it, so the writes the webhook makes through its copy are the value
      update [AuditWebhook] models and leave the request's object alone.
    - [RateCap]: over every interleaving of reconciliations, waiting,
      deletions, restarts and work on other objects the records of the trailing
      hour never exceed the cap, provided the phase of every opened gate gets
      written (a failed phase write leaves a record that is not counted).
    - [GateLife]: the life of one gate while any number of reconciliations,
      webhook calls, client writes and crashes interleave: it moves from
      Pending to one final phase, is decided at most once and by the
      authenticated requester, and its held actions run only once approved.
    - [RevertLife]: the same system seen for reverts: the mark and its outcomes
      are never taken back, it stands for a version on which a revert was asked
      for, and only what such a version lists as undoable is reversed.
    - [Records]: from a plugin's result through the record and the store to a
      revert and back, unchanged; what a rollback already reversed is not
      remembered by the record, and a revert reverses it again.  [Schema]: what
      the reconcilers write fits the custom resources' schema.  [Deadlines]:
      when each reconciler asks to be called again, and what retention strings
      mean up to their overflow.
    - [WebhookTheorems]: exactly the admissible policies are admitted; a
      decision is made once, in time, under the authenticated name.
    - [CliTheorems]: what the client sends fits the approval webhook, a dry
      run predicts the operator, the pending listing is exact.
      [CliCommands]: which commands may change what.
    - [Wiring]: the manager starts only fully wired, and the operator's role
      covers what the plugins declare.  [Access]: every request of a plugin is
      one it declares a permission for, every call of a reconciler is served
      by the operator's role, and which typed reads that role cannot serve.
    - [SinkTheorems]: nothing accepted is lost, reordered or written twice;
      [Close] drains.  [SinkRows]: the rows of the Postgres tables are the
      record's actions, whatever is delivered again.  [Telemetry]: the metrics
      count what happened.  [PluginTheorems], [ArgocdTheorems]: what each
      reversible plugin's [Reverse] puts back.

    Several theorems show behaviour a reader of the code may not expect: a
    failed action ahead of a gate still opens it, a conflict while recording a
    release runs the held actions again, an edited policy's new actions run on
    an old approval, a shrunk policy makes the release panic, the expiry of an
    undecided gate can be moved, a revert reverses again what a rollback
    reversed, a record whose phase write failed is not
    counted against the cap, a retention of 106752 days or more deletes
    records at once, the pending gauge forgets open gates over a restart, and
    an expired gate may be asked for again after a
    non-positive delay.  A retention below an hour lifts the hourly cap, and
    one below the approval timeout deletes the record of an open gate.  Secrets
    and NetworkPolicies are read through a cache that the role cannot fill.

    ** Bounds and fuel

    [run_loop] is given the length of the slice it runs as fuel, the number of
    iterations of the Go loop, and [pipeline_runs_prefix] shows it always
    returns.  [parse_units], [trim_left] and [keep_loop] get the length of
    their input, of which every round consumes at least one element; the
    float printer searches the 17 digit counts that suffice for float64.
    Durations, trigger counts and gate indices wrap at their width ([int64],
    [int32]); [time.Sub] saturates.

    ** Parameters

    Code outside the repository is a class or an argument: the API server and
    clock ([Cluster]), plugins in the executor ([Action] values), the
    Prometheus API ([PromAPI]), JSON of details and records ([DetailsCodec],
    [AuditCodec]), the local time zone ([LocalZone]), apimachinery's
    unstructured accessors ([Unstructured]), the deep copies of embedded
    third-party types ([ExtTypes], [ExtOps], with the laws [ExtLaws]),
    apimachinery's scheme ([RuntimeScheme]), pgx ([PgxPool]), [text/template]
    and JSON of plugin parameters ([TextTemplate], [ParamsJSON]), the REST
    mapping of kinds to resources ([RESTMapper]).  Laws are
    separate classes and state documented behaviour only.

    ** Not modelled

    Flag and argument parsing (the flag package, cobra), logging (zap), the
    loading of kubeconfigs (client-go, a parameter), the manager's own work
    (watches, queues, leader election), tab alignment of tables, terminal
    detection (an ioctl) and the helpers of the end-to-end tests (shell
    commands).  Kinds and versions of objects (TypeMeta) are not part of
    [Api]; the client's [ensureGVK] gives the kind an encoded object is stamped
    with.  A reconciler has one worker and its maps are behind a mutex, so two
    calls of one reconciler never interleave; interleavings between
    reconcilers, webhooks, clients and restarts are in [RateCap] and
    [GateLife].

    ** Plan

    All of the program's own code but the above is modelled.  Further theorems
    could follow a record's retention through the transition system of
    [GateLife], and the delivery to the sink through the crashes of [RateCap]. *)

From stdpp Require Export base tactics gmap strings list fin_maps option pretty.
From Stdlib Require Export ZArith Lia.

#[export] Set Default Goal Selector "!".
#[export] Set Warnings "-clear-no-such-hyp".
Open Scope Z_scope.

(** ** Notations *)

Declare Scope go_scope.
Delimit Scope go_scope with go.
Open Scope go_scope.

(** Go's string concatenation. *)
Notation "s ++s t" := (String.append s t) (at level 60, right associativity) : go_scope.

(** ** Outcomes: a Go function returns a value or panics *)

Inductive outcome (A : Type) : Type :=
| Val (a : A)
| Panic (msg : string).
Arguments Val {A} a.
Arguments Panic {A} msg.

(** ** Tactics *)

(** Case analysis on every [decide] and [match] that blocks a goal. *)
Ltac split_cases := repeat (first [case_decide | case_match]; simplify_eq/=).

(** Close a goal that is an equation between two computed values. *)
Ltac by_compute := vm_compute; reflexivity.

Create HintDb go discriminated.

(** ** Lists *)

Section ListFacts.
Context {A : Type}.

(** Number of elements that satisfy a decidable predicate. *)
Definition count (P : A → Prop) `{∀ x, Decision (P x)} (l : list A) : Z :=
  Z.of_nat (length (filter P l)).

Lemma count_nil (P : A → Prop) `{∀ x, Decision (P x)} : count P [] = 0.
Proof. reflexivity. Qed.

Lemma count_cons (P : A → Prop) `{∀ x, Decision (P x)} x l :
  count P (x :: l) = (if decide (P x) then 1 else 0) + count P l.
Proof. unfold count. rewrite filter_cons. case_decide; simpl; lia. Qed.

Lemma count_nonneg (P : A → Prop) `{∀ x, Decision (P x)} l : 0 <= count P l.
Proof. unfold count. lia. Qed.

Lemma count_app (P : A → Prop) `{∀ x, Decision (P x)} l k :
  count P (l ++ k) = count P l + count P k.
Proof. unfold count. rewrite filter_app, length_app. lia. Qed.

Lemma count_mono (P Q : A → Prop) `{∀ x, Decision (P x), ∀ x, Decision (Q x)} l :
  (∀ x, x ∈ l → P x → Q x) → count P l <= count Q l.
Proof.
  intros HPQ. induction l as [|x l IH]; [done|].
  rewrite !count_cons.
  assert (count P l <= count Q l) by (apply IH; intros; apply HPQ; [by right|done]).
  assert (P x → Q x) by (apply HPQ; left).
  repeat case_decide; try lia; tauto.
Qed.

End ListFacts.
