(* ===== verification/GoLib.v ===== *)
(** * The parts of the Go language and standard library the program uses

    Machine integers at their width, [errors] with [Is] chains, [fmt]'s
    verbs, [strings], [strconv.Atoi], [time.Time] and [time.Duration] with
    [time.ParseDuration], float64 comparisons and conversions, and the string
    sort.  Everything is executable. *)

From S2P Require Import Prelude.
From Stdlib Require Import Floats.SpecFloat Sorting.Sorted.

(** ** Integers at their width *)

(** Two's complement reduction to [w] bits, as Go's conversions do. *)
Definition wrap (w z : Z) : Z := (z + 2 ^ (w - 1)) mod 2 ^ w - 2 ^ (w - 1).
Definition int32 (z : Z) : Z := wrap 32 z.
Definition int64 (z : Z) : Z := wrap 64 z.

Definition in_range (w z : Z) : Prop := - 2 ^ (w - 1) <= z < 2 ^ (w - 1).

#[export] Instance in_range_dec w z : Decision (in_range w z).
Proof. unfold in_range. apply _. Defined.

Lemma wrap_in_range w z : 0 < w → in_range w (wrap w z).
Proof.
  intros Hw. unfold in_range, wrap.
  replace (2 ^ w) with (2 * 2 ^ (w - 1)) by (rewrite <- Z.pow_succ_r by lia; f_equal; lia).
  pose proof (Z.pow_pos_nonneg 2 (w - 1) ltac:(lia) ltac:(lia)).
  pose proof (Z.mod_pos_bound (z + 2 ^ (w - 1)) (2 * 2 ^ (w - 1)) ltac:(lia)). lia.
Qed.

Lemma wrap_id w z : 0 < w → in_range w z → wrap w z = z.
Proof.
  intros Hw. unfold in_range, wrap.
  replace (2 ^ w) with (2 * 2 ^ (w - 1)) by (rewrite <- Z.pow_succ_r by lia; f_equal; lia).
  intros ?. rewrite Z.mod_small by lia. lia.
Qed.

(** ** Errors

    An error value carries its message and what [errors.Is] (and
    [apierrors.IsNotFound]/[IsConflict], which unwrap the same way) find in
    its chain. *)

Inductive sentinel : Type :=
| NotFound | Conflict
| ErrNotReversible | ErrTargetNotFound | ErrInvalidParams | ErrPermanent
| ErrNoData | ErrBackpressure.

#[export] Instance sentinel_eq_dec : EqDecision sentinel.
Proof. solve_decision. Defined.

Record error : Type := Err { err_is : list sentinel; err_msg : string }.

#[export] Instance error_eq_dec : EqDecision error.
Proof. solve_decision. Defined.

Definition Is (e : error) (s : sentinel) : Prop := s ∈ err_is e.
#[export] Instance Is_dec e s : Decision (Is e s).
Proof. unfold Is. apply _. Defined.

(** [fmt.Errorf] with one trailing [%w]: the chain is kept, text is put in front. *)
Definition wrapf (pre : string) (e : error) : error := Err (err_is e) (pre ++s err_msg e).

(** [fmt.Errorf] with no [%w]. *)
Definition errorf (msg : string) : error := Err [] msg.

(** ** fmt *)

Definition dquote : string := String (Ascii.ascii_of_nat 34) EmptyString.

Definition hex_digit (n : nat) : string :=
  String (Ascii.ascii_of_nat (if decide (n < 10)%nat then 48 + n else 87 + n)) EmptyString.

(** One byte of [strconv.Quote].  Bytes from 128 on are kept: a printable
    multi-byte rune is quoted as itself. *)
Definition quote_byte (c : Ascii.ascii) : string :=
  let n := Ascii.nat_of_ascii c in
  if decide (n = 34%nat) then "\" ++s dquote else
  if decide (n = 92%nat) then "\\" else
  if decide (n = 7%nat) then "\a" else if decide (n = 8%nat) then "\b" else
  if decide (n = 9%nat) then "\t" else if decide (n = 10%nat) then "\n" else
  if decide (n = 11%nat) then "\v" else if decide (n = 12%nat) then "\f" else
  if decide (n = 13%nat) then "\r" else
  if decide ((n < 32)%nat ∨ n = 127%nat) then
    "\x" ++s hex_digit (n / 16) ++s hex_digit (n mod 16)
  else String c EmptyString.

Fixpoint quote_body (s : string) : string :=
  match s with
  | EmptyString => EmptyString
  | String c s' => quote_byte c ++s quote_body s'
  end.

(** The verbs [%q] and [%d]. *)
Definition fmt_q (s : string) : string := dquote ++s quote_body s ++s dquote.
Definition fmt_d (z : Z) : string := pretty z.

(** ** strings *)

Definition HasSuffix (s suf : string) : Prop :=
  (String.length suf <= String.length s)%nat ∧
  String.substring (String.length s - String.length suf) (String.length suf) s = suf.
#[export] Instance HasSuffix_dec s suf : Decision (HasSuffix s suf).
Proof. unfold HasSuffix. apply _. Defined.

Definition TrimSuffix (s suf : string) : string :=
  if decide (HasSuffix s suf) then String.substring 0 (String.length s - String.length suf) s else s.

Fixpoint Join (l : list string) (sep : string) : string :=
  match l with
  | [] => EmptyString
  | [x] => x
  | x :: l' => x ++s sep ++s Join l' sep
  end.

(** The UTF-8 encodings of the runes [unicode.IsSpace] holds of. *)
Definition space_runes : list (list nat) :=
  [[9]; [10]; [11]; [12]; [13]; [32]; [194; 133]; [194; 160]; [225; 154; 128];
   [226; 128; 128]; [226; 128; 129]; [226; 128; 130]; [226; 128; 131]; [226; 128; 132];
   [226; 128; 133]; [226; 128; 134]; [226; 128; 135]; [226; 128; 136]; [226; 128; 137];
   [226; 128; 138]; [226; 128; 168]; [226; 128; 169]; [226; 128; 175]; [226; 129; 159];
   [227; 128; 128]]%nat.

Definition bytes (s : string) : list nat := Ascii.nat_of_ascii <$> String.list_ascii_of_string s.
Definition of_bytes (l : list nat) : string :=
  String.string_of_list_ascii (Ascii.ascii_of_nat <$> l).

Fixpoint strip_prefix (p l : list nat) : option (list nat) :=
  match p, l with
  | [], _ => Some l
  | x :: p', y :: l' => if decide (x = y) then strip_prefix p' l' else None
  | _ :: _, [] => None
  end.

Fixpoint strip_one (ps : list (list nat)) (l : list nat) : option (list nat) :=
  match ps with
  | [] => None
  | p :: ps' => match strip_prefix p l with Some l' => Some l' | None => strip_one ps' l end
  end.

(** Every strip shortens the list, so its length is fuel enough. *)
Fixpoint trim_left (fuel : nat) (ps : list (list nat)) (l : list nat) : list nat :=
  match fuel with
  | O => l
  | S fuel' => match strip_one ps l with Some l' => trim_left fuel' ps l' | None => l end
  end.

Definition TrimSpace (s : string) : string :=
  let l := trim_left (String.length s) space_runes (bytes s) in
  of_bytes (reverse (trim_left (String.length s) (reverse <$> space_runes) (reverse l))).

(** ** strconv.Atoi *)

Definition is_digit (n : nat) : Prop := (48 <= n <= 57)%nat.
#[export] Instance is_digit_dec n : Decision (is_digit n).
Proof. unfold is_digit. apply _. Defined.

Fixpoint digits (acc : Z) (l : list nat) : option Z :=
  match l with
  | [] => Some acc
  | n :: l' => if decide (is_digit n) then digits (acc * 10 + (Z.of_nat n - 48)) l' else None
  end.

(** Base-10 [Atoi] on a 64-bit int: an optional sign, at least one digit,
    nothing else, and a value in range. *)
Definition Atoi (s : string) : error + Z :=
  let syntax := inl (errorf ("strconv.Atoi: parsing " ++s fmt_q s ++s ": invalid syntax")) in
  let range := inl (errorf ("strconv.Atoi: parsing " ++s fmt_q s ++s ": value out of range")) in
  let body neg l :=
    match l with
    | [] => syntax
    | _ => match digits 0 l with
           | None => syntax
           | Some z => let v := if (neg : bool) then - z else z in
                       if decide (in_range 64 v) then inr v else range
           end
    end in
  match bytes s with
  | 45%nat :: l => body true l
  | 43%nat :: l => body false l
  | l => body false l
  end.

(** ** Sorting: [sort.Strings] and [sort.Slice]

    Both are modelled by insertion sort.  On a total order every sort gives
    the same list; on ties [sort.Slice] promises no order, and up to 12
    elements it is this stable insertion sort. *)

Section InsertionSort.
Context {A : Type} (less : A → A → bool).

Fixpoint sort_insert (x : A) (l : list A) : list A :=
  match l with
  | [] => [x]
  | y :: l' => if less y x then y :: sort_insert x l' else x :: y :: l'
  end.

Fixpoint sort_Slice (l : list A) : list A :=
  match l with
  | [] => []
  | x :: l' => sort_insert x (sort_Slice l')
  end.

Lemma sort_insert_perm x l : sort_insert x l ≡ₚ x :: l.
Proof.
  induction l as [|y l IH]; simpl; [done|].
  destruct (less y x); [|done]. rewrite IH. apply Permutation_swap.
Qed.

Lemma sort_Slice_perm l : sort_Slice l ≡ₚ l.
Proof. induction l as [|x l IH]; simpl; [done|]. by rewrite sort_insert_perm, IH. Qed.

(** Neighbours end up in order, for an asymmetric [less]. *)
Hypothesis less_asym : ∀ x y, less x y = true → less y x = false.

Definition in_order (x y : A) : Prop := less y x = false.

Lemma sort_insert_sorted x l : Sorted in_order l → Sorted in_order (sort_insert x l).
Proof.
  induction 1 as [|y l Hl IH Hy]; simpl; [by repeat constructor|].
  destruct (less y x) eqn:Hyx; [|by repeat constructor].
  constructor; [done|]. destruct Hy as [|z l Hyz]; simpl.
  - constructor. by apply less_asym.
  - destruct (less z x); constructor; [done|by apply less_asym].
Qed.

Lemma sort_Slice_sorted l : Sorted in_order (sort_Slice l).
Proof. induction l; simpl; [constructor|by apply sort_insert_sorted]. Qed.

End InsertionSort.

(** Byte-wise order on strings, Go's [<]. *)
Definition string_less (s t : string) : bool :=
  match String.compare s t with Lt => true | _ => false end.

Definition sort_Strings : list string → list string := sort_Slice string_less.

(** ** float64 *)

Definition float64 : Type := spec_float.
Definition fprec : Z := 53.
Definition femax : Z := 1024.

Definition float_of_Z (z : Z) : float64 := binary_normalize fprec femax z 0 false.
Definition float_add : float64 → float64 → float64 := SFadd fprec femax.
Definition float_mul : float64 → float64 → float64 := SFmul fprec femax.
Definition float_div : float64 → float64 → float64 := SFdiv fprec femax.

(** Go's conversion of a non-negative finite float64 to an integer: truncation. *)
Definition float_trunc (f : float64) : Z :=
  match f with
  | S754_finite s m e =>
      let a := if decide (0 <= e) then Z.pos m * 2 ^ e else Z.pos m / 2 ^ (- e) in
      if s then - a else a
  | _ => 0
  end.

(** The six comparison operators of Go on float64. *)
Definition float_lt (a b : float64) : bool := SFltb a b.
Definition float_le (a b : float64) : bool := SFleb a b.
Definition float_gt (a b : float64) : bool := SFltb b a.
Definition float_ge (a b : float64) : bool := SFleb b a.
Definition float_eq (a b : float64) : bool := SFeqb a b.
Definition float_ne (a b : float64) : bool := negb (SFeqb a b).

Definition is_NaN (f : float64) : Prop := f = S754_nan.
