(* ===== verification/FloatLib.v ===== *)
(** * strconv's float text: [ParseFloat(s, 64)] and [FormatFloat(v, 'g', -1, 64)]

    Decimal and hexadecimal literals with correct rounding (exact integers
    and one sticky bit), infinities and NaN, the range error; and the shortest
    text that reads back as the value. *)

From S2P Require Import Prelude GoLib.
From Stdlib Require Import Floats.SpecFloat.

(** ** Rounding [mant * 10^exp] to float64 *)

Definition bitlen (z : Z) : Z := if decide (z <= 0) then 0 else Z.log2 z + 1.

Definition round_dec (neg : bool) (mant exp : Z) : float64 :=
  let s := if neg then -1 else 1 in
  if decide (mant = 0) then S754_zero neg else
  if decide (0 <= exp) then binary_normalize fprec femax (s * (mant * 10 ^ exp)) 0 neg else
  let den := 10 ^ (- exp) in
  let shift := Z.max 0 (66 + bitlen den - bitlen mant) in
  let num := mant * 2 ^ shift in
  let q := 2 * (num / den) + (if decide (num mod den = 0) then 0 else 1) in
  binary_normalize fprec femax (s * q) (- (shift + 1)) neg.

Definition round_hex (neg : bool) (mant exp : Z) : float64 :=
  if decide (mant = 0) then S754_zero neg
  else binary_normalize fprec femax ((if neg then -1 else 1) * mant) exp neg.

(** ** Reading *)

Definition lower (c : nat) : nat := if decide (65 <= c <= 90)%nat then c + 32 else c.

Definition digit_val (base : Z) (c : nat) : option Z :=
  if decide (is_digit c) then Some (Z.of_nat c - 48)
  else if decide (base = 16 ∧ (97 <= lower c <= 102)%nat) then Some (Z.of_nat (lower c) - 87)
  else None.

(** The mantissa: digits, at most one point, underscores.  Returns the value,
    the digits after the point, whether a digit was seen, and the rest. *)
Fixpoint read_mant (base : Z) (sawdot : bool) (mant frac : Z) (sawdigits : bool) (l : list nat)
  : Z * Z * bool * list nat :=
  match l with
  | c :: l' =>
      if decide (c = 95%nat) then read_mant base sawdot mant frac sawdigits l' else
      if decide (c = 46%nat) then
        if sawdot then (mant, frac, sawdigits, l) else read_mant base true mant frac sawdigits l'
      else match digit_val base c with
           | Some d => read_mant base sawdot (mant * base + d) (if sawdot then frac + 1 else frac) true l'
           | None => (mant, frac, sawdigits, l)
           end
  | [] => (mant, frac, sawdigits, [])
  end.

Fixpoint read_exp (e : Z) (l : list nat) : Z * list nat :=
  match l with
  | c :: l' =>
      if decide (c = 95%nat) then read_exp e l' else
      if decide (is_digit c) then
        read_exp (if decide (e < 10000) then e * 10 + (Z.of_nat c - 48) else e) l'
      else (e, l)
  | [] => (e, [])
  end.

(** [underscoreOK] after the sign and base prefix: [prev] is the class of the
    byte before: a digit (or the prefix), an underscore, anything else. *)
Inductive usClass : Type := UDigit | UUnder | UOther.
#[export] Instance usClass_eq_dec : EqDecision usClass.
Proof. solve_decision. Defined.

Fixpoint underscores_ok (hex : bool) (prev : usClass) (l : list nat) : bool :=
  match l with
  | [] => bool_decide (prev ≠ UUnder)
  | c :: l' =>
      if decide (is_digit c ∨ hex = true ∧ (97 <= lower c <= 102)%nat) then underscores_ok hex UDigit l'
      else if decide (c = 95%nat) then bool_decide (prev = UDigit) && underscores_ok hex UUnder l'
      else bool_decide (prev ≠ UUnder) && underscores_ok hex UOther l'
  end.

Definition word (s : string) : list nat := bytes s.

(** Infinities and NaN, in any case; NaN takes no sign. *)
Definition special (signed neg : bool) (l : list nat) : option float64 :=
  let l := lower <$> l in
  if decide (l = word "inf" ∨ l = word "infinity") then Some (S754_infinity neg)
  else if decide (l = word "nan" ∧ signed = false) then Some S754_nan
  else None.

Definition ParseFloat (s : string) : error + float64 :=
  let syntax := inl (errorf ("strconv.ParseFloat: parsing " ++s fmt_q s ++s ": invalid syntax")) in
  let '(signed, neg, l) := match bytes s with
                           | 45%nat :: l => (true, true, l)
                           | 43%nat :: l => (true, false, l)
                           | l => (false, false, l)
                           end in
  match special signed neg l with
  | Some f => inr f
  | None =>
      let '(base, l0) := match l with
                         | 48%nat :: c :: (_ :: _) as l' =>
                             if decide (lower c = 120%nat) then (16, drop 2 l) else (10, l)
                         | _ => (10, l)
                         end in
      let '(mant, frac, sawdigits, l1) := read_mant base false 0 0 false l0 in
      if negb sawdigits then syntax else
      let has_exp := match l1 with c :: _ => bool_decide (lower c = if decide (base = 16) then 112%nat else 101%nat)
                                 | [] => false end in
      let exp_part :=
        if has_exp then
          let '(esign, l2) := match drop 1 l1 with
                              | 43%nat :: l2 => (1, l2)
                              | 45%nat :: l2 => (-1, l2)
                              | l2 => (1, l2)
                              end in
          match l2 with
          | c :: _ => if decide (is_digit c) then let '(e, l3) := read_exp 0 l2 in Some (esign * e, l3) else None
          | [] => None
          end
        else if decide (base = 16) then None else Some (0, l1) in
      match exp_part with
      | Some (e, []) =>
          if negb (underscores_ok (bool_decide (base = 16)) (if decide (base = 16) then UDigit else UOther) l0)
          then syntax else
          let f := if decide (base = 16) then round_hex neg mant (e - 4 * frac)
                   else round_dec neg mant (e - frac) in
          match f with
          | S754_infinity _ =>
              inl (errorf ("strconv.ParseFloat: parsing " ++s fmt_q s ++s ": value out of range"))
          | _ => inr f
          end
      | _ => syntax
      end
  end.

(** ** Writing the shortest text *)

(** [num/den < 10^k]. *)
Definition below_pow10 (num den k : Z) : bool :=
  if decide (0 <= k) then num <? den * 10 ^ k else num * 10 ^ (- k) <? den.

(** The decimal point position: the least [k] with [num/den < 10^k], from an
    estimate at most a few below it. *)
Fixpoint dec_point (fuel : nat) (num den k : Z) : Z :=
  match fuel with
  | O => k
  | S fuel' => if below_pow10 num den k then k else dec_point fuel' num den (k + 1)
  end.

(** [floor (num/den * 10^k)]. *)
Definition scaled_floor (num den k : Z) : Z :=
  if decide (0 <= k) then num * 10 ^ k / den else num / (den * 10 ^ (- k)).

(** Twice the distance of [c * 10^-k] from [num/den], times a common factor. *)
Definition dist (num den k c : Z) : Z :=
  if decide (0 <= k) then Z.abs (c * den - num * 10 ^ k) else Z.abs (c * 10 ^ (- k) * den - num).

Fixpoint shortest_digits (fuel : nat) (n num den dp : Z) (f : float64) : Z * Z :=
  let k := n - dp in
  let c := scaled_floor num den k in
  let reads c := bool_decide (0 < c) && SFeqb (round_dec false c (- k)) f in
  match fuel with
  | O => (c, k)
  | S fuel' =>
      match reads c, reads (c + 1) with
      | true, true => (if decide (dist num den k (c + 1) < dist num den k c) then c + 1 else c, k)
      | true, false => (c, k)
      | false, true => (c + 1, k)
      | false, false => shortest_digits fuel' (n + 1) num den dp f
      end
  end.

Fixpoint trim_zeros (fuel : nat) (c k : Z) : Z * Z :=
  match fuel with
  | O => (c, k)
  | S fuel' => if decide (c mod 10 = 0) then trim_zeros fuel' (c / 10) (k - 1) else (c, k)
  end.

Fixpoint zeros (n : nat) : string := match n with O => EmptyString | S n' => "0" ++s zeros n' end.

(** Digits [ds] (as text) with the decimal point at [dp]: [%e] or [%f]. *)
Definition layout (ds : string) (dp : Z) : string :=
  let nd := Z.of_nat (String.length ds) in
  let exp := dp - 1 in
  if decide (exp < -4 ∨ exp >= 6) then
    let e := Z.abs exp in
    String.substring 0 1 ds ++s
    (if decide (nd > 1) then "." ++s String.substring 1 (String.length ds - 1) ds else EmptyString) ++s
    "e" ++s (if decide (exp < 0) then "-" else "+") ++s (if decide (e < 10) then "0" else EmptyString) ++s fmt_d e
  else if decide (dp <= 0) then "0." ++s zeros (Z.to_nat (- dp)) ++s ds
  else if decide (nd <= dp) then ds ++s zeros (Z.to_nat (dp - nd))
  else String.substring 0 (Z.to_nat dp) ds ++s "." ++s
       String.substring (Z.to_nat dp) (String.length ds - Z.to_nat dp) ds.

Definition FormatFloat (v : float64) : string :=
  match v with
  | S754_nan => "NaN"
  | S754_infinity s => if s then "-Inf" else "+Inf"
  | S754_zero s => if s then "-0" else "0"
  | S754_finite s m e =>
      let num := if decide (0 <= e) then Z.pos m * 2 ^ e else Z.pos m in
      let den := if decide (0 <= e) then 1 else 2 ^ (- e) in
      let est := (Z.log2 num - Z.log2 den - 1) * 30102 / 100000 in
      let dp := dec_point 8 num den est in
      let '(c, k) := shortest_digits 17 1 num den dp (S754_finite false m e) in
      let '(c, k) := trim_zeros 20 c k in
      let ds := fmt_d c in
      (if s then "-" else EmptyString) ++s layout ds (Z.of_nat (String.length ds) - k)
  end.

Arguments ParseFloat : simpl never.
Arguments FormatFloat : simpl never.

(** ** The two functions on concrete texts *)

Definition reformat (s : string) : option string :=
  match ParseFloat s with inr f => Some (FormatFloat f) | inl _ => None end.

Example reformat_table :
  (reformat <$> ["0.8"; "1e23"; "100000"; "1000000"; "-0.000123"; "0x1p-2"; "5e-324"; ".5"; "1_000"; "+Inf"; "nan"])
  = [Some "0.8"; Some "1e+23"; Some "100000"; Some "1e+06"; Some "-0.000123"; Some "0.25"; Some "5e-324";
     Some "0.5"; Some "1000"; Some "+Inf"; Some "NaN"].
Proof. by_compute. Qed.

Example ParseFloat_rejects :
  (reformat <$> [EmptyString; "abc"; "1.2.3"; "1e"; "1e999"; "0x1"; "1__0"; "-nan"; " 1"]) = replicate 9 None.
Proof. by_compute. Qed.
