(* ===== verification/GoTime.v ===== *)
(** * The [time] package: instants, durations, and [ParseDuration] *)

From S2P Require Import Prelude GoLib.

(** [time.Duration] is a signed 64-bit count of nanoseconds. *)
Definition Duration : Type := Z.
(** [time.Time] without its monotonic reading: nanoseconds since the Unix epoch. *)
Definition Time : Type := Z.

Definition Nanosecond : Duration := 1.
Definition Microsecond : Duration := 1000.
Definition Millisecond : Duration := 1000000.
Definition Second : Duration := 1000000000.
Definition Minute : Duration := 60000000000.
Definition Hour : Duration := 3600000000000.

Definition maxDuration : Duration := 2 ^ 63 - 1.
Definition minDuration : Duration := - 2 ^ 63.

(** The zero [time.Time], 1 January of year 1. *)
Definition zero_Time : Time := -62135596800 * Second.
Definition IsZero (t : Time) : Prop := t = zero_Time.
#[export] Instance IsZero_dec t : Decision (IsZero t).
Proof. unfold IsZero. apply _. Defined.

Definition time_Add (t : Time) (d : Duration) : Time := t + d.
(** [Sub] saturates at the ends of [Duration]. *)
Definition time_Sub (t u : Time) : Duration := Z.max minDuration (Z.min maxDuration (t - u)).
Definition time_Before (t u : Time) : Prop := t < u.
Definition time_After (t u : Time) : Prop := u < t.
#[export] Instance time_Before_dec t u : Decision (time_Before t u).
Proof. unfold time_Before. apply _. Defined.
#[export] Instance time_After_dec t u : Decision (time_After t u).
Proof. unfold time_After. apply _. Defined.

(** [Duration.Seconds]: whole seconds plus the fraction, both as float64. *)
Definition Seconds (d : Duration) : float64 :=
  float_add (float_of_Z (Z.quot d Second)) (float_div (float_of_Z (Z.rem d Second)) (float_of_Z Second)).

(** Lemmas on saturation. *)
Lemma time_Sub_lt t u d : minDuration < d <= maxDuration → time_Sub t u < d ↔ t - u < d.
Proof. unfold time_Sub, minDuration, maxDuration. lia. Qed.

Lemma time_Sub_ge t u d : minDuration < d <= maxDuration → d <= time_Sub t u ↔ d <= t - u.
Proof. unfold time_Sub, minDuration, maxDuration. lia. Qed.

Lemma time_Sub_pos t u : 0 < time_Sub t u ↔ u < t.
Proof. unfold time_Sub, minDuration, maxDuration. lia. Qed.

Lemma time_Sub_self t : time_Sub t t = 0.
Proof. unfold time_Sub, minDuration, maxDuration. lia. Qed.

(** ** ParseDuration *)

Definition is_unit_stop (n : nat) : Prop := n = 46%nat ∨ is_digit n.
#[export] Instance is_unit_stop_dec n : Decision (is_unit_stop n).
Proof. unfold is_unit_stop. apply _. Defined.

(** [leadingInt]: the leading digits, [None] on overflow past 2^63. *)
Fixpoint leadingInt (x : Z) (l : list nat) : option (Z * list nat) :=
  match l with
  | n :: l' =>
      if decide (is_digit n) then
        if decide (x > 2 ^ 63 / 10) then None else
        let y := x * 10 + (Z.of_nat n - 48) in
        if decide (y > 2 ^ 63) then None else leadingInt y l'
      else Some (x, l)
  | [] => Some (x, [])
  end.

(** [leadingFraction]: digits after the point; once the value would overflow
    the remaining digits are dropped.  Returns (f, scale, rest). *)
Fixpoint leadingFraction (x : Z) (scale : float64) (overflow : bool) (l : list nat)
  : Z * float64 * list nat :=
  match l with
  | n :: l' =>
      if decide (is_digit n) then
        if overflow then leadingFraction x scale true l' else
        if decide (x > (2 ^ 63 - 1) / 10) then leadingFraction x scale true l' else
        let y := x * 10 + (Z.of_nat n - 48) in
        if decide (y > 2 ^ 63) then leadingFraction x scale true l'
        else leadingFraction y (float_mul scale (float_of_Z 10)) false l'
      else (x, scale, l)
  | [] => (x, scale, [])
  end.

Fixpoint span_unit (l : list nat) : list nat * list nat :=
  match l with
  | n :: l' => if decide (is_unit_stop n) then ([], l)
               else let '(u, r) := span_unit l' in (n :: u, r)
  | [] => ([], [])
  end.

Definition unitMap (u : string) : option Z :=
  if decide (u = "ns") then Some Nanosecond else
  if decide (u = "us") then Some Microsecond else
  if decide (u = of_bytes [194; 181; 115]%nat) then Some Microsecond else
  if decide (u = of_bytes [206; 188; 115]%nat) then Some Microsecond else
  if decide (u = "ms") then Some Millisecond else
  if decide (u = "s") then Some Second else
  if decide (u = "m") then Some Minute else
  if decide (u = "h") then Some Hour else None.

Section ParseDuration.
Variable orig : string.

Definition invalid_duration : error := errorf ("time: invalid duration " ++s fmt_q orig).

(** The loop over [number unit] groups.  Every round consumes at least one
    byte, so the length of the string is fuel enough. *)
Fixpoint parse_units (fuel : nat) (d : Z) (l : list nat) : error + Z :=
  match l, fuel with
  | [], _ => inr d
  | _, O => inl invalid_duration
  | n :: _, S fuel' =>
      if decide (¬ is_unit_stop n) then inl invalid_duration else
      match leadingInt 0 l with
      | None => inl invalid_duration
      | Some (v, l1) =>
          let pre := bool_decide (length l1 ≠ length l) in
          let '(f, scale, l2, post) :=
            match l1 with
            | 46%nat :: l1' =>
                let '(f, scale, l2) := leadingFraction 0 (float_of_Z 1) false l1' in
                (f, scale, l2, bool_decide (length l2 ≠ length l1'))
            | _ => (0, float_of_Z 1, l1, false)
            end in
          if decide (pre = false ∧ post = false)
          then inl invalid_duration else
          let '(u, l3) := span_unit l2 in
          match u with
          | [] => inl (errorf ("time: missing unit in duration " ++s fmt_q orig))
          | _ =>
              match unitMap (of_bytes u) with
              | None => inl (errorf ("time: unknown unit " ++s fmt_q (of_bytes u) ++s
                                     " in duration " ++s fmt_q orig))
              | Some unit =>
                  if decide (v > 2 ^ 63 / unit) then inl invalid_duration else
                  let v := v * unit in
                  let v' := if decide (f > 0)
                            then v + float_trunc (float_mul (float_of_Z f)
                                                    (float_div (float_of_Z unit) scale))
                            else v in
                  if decide (v' > 2 ^ 63) then inl invalid_duration else
                  let d' := d + v' in
                  if decide (d' > 2 ^ 63) then inl invalid_duration else
                  parse_units fuel' d' l3
              end
          end
      end
  end.

End ParseDuration.

Definition ParseDuration (s : string) : error + Duration :=
  let '(neg, l) := match bytes s with
                   | 45%nat :: l => (true, l)
                   | 43%nat :: l => (false, l)
                   | l => (false, l)
                   end in
  match l with
  | [48%nat] => inr 0
  | [] => inl (invalid_duration s)
  | _ =>
      match parse_units s (length l) 0 l with
      | inl e => inl e
      | inr d =>
          if (neg : bool) then inr (- d)
          else if decide (d > 2 ^ 63 - 1) then inl (invalid_duration s) else inr d
      end
  end.

Example ParseDuration_1h30m : ParseDuration "1h30m" = inr (90 * Minute).
Proof. by_compute. Qed.

Example ParseDuration_fraction : ParseDuration "-1.5h" = inr (- 90 * Minute).
Proof. by_compute. Qed.

Example ParseDuration_missing_unit :
  ParseDuration "30" = inl (errorf ("time: missing unit in duration " ++s fmt_q "30")).
Proof. by_compute. Qed.

(** ** [Duration.String] and [Duration.Round] *)

(** [fmtFrac]: [prec] decimal digits of [v] without trailing zeros, preceded
    by the point if any digit was printed; and what is left of [v]. *)
Fixpoint fmtFrac (prec : nat) (v : Z) (print : bool) (acc : string) : string * Z :=
  match prec with
  | O => ((if print then "." ++s acc else acc), v)
  | S prec' =>
      let digit := v mod 10 in
      let print := print || bool_decide (digit ≠ 0) in
      fmtFrac prec' (v / 10) print (if print then fmt_d digit ++s acc else acc)
  end.

Definition micro_sign : string := of_bytes [194; 181]%nat.

Definition duration_String (d : Duration) : string :=
  let u := Z.abs d in
  let text :=
    if decide (u < Second) then
      if decide (u = 0) then "0s" else
      let '(prec, unit) := if decide (u < Microsecond) then (0%nat, "ns")
                           else if decide (u < Millisecond) then (3%nat, micro_sign ++s "s")
                           else (6%nat, "ms") in
      let '(frac, whole) := fmtFrac prec u false EmptyString in
      fmt_d whole ++s frac ++s unit
    else
      let '(frac, secs) := fmtFrac 9 u false EmptyString in
      let s := fmt_d (secs mod 60) ++s frac ++s "s" in
      let mins := secs / 60 in
      if decide (mins > 0) then
        let s := fmt_d (mins mod 60) ++s "m" ++s s in
        let hours := mins / 60 in
        if decide (hours > 0) then fmt_d hours ++s "h" ++s s else s
      else s in
  if decide (d < 0) then "-" ++s text else text.

(** Half away from zero, saturating. *)
Definition duration_Round (d m : Duration) : Duration :=
  if decide (m <= 0) then d else
  let r := Z.rem d m in
  if decide (d < 0) then
    let r := - r in
    if decide (r + r < m) then d + r
    else let d1 := int64 (d - m + r) in if decide (d1 < d) then d1 else minDuration
  else if decide (r + r < m) then d - r
  else let d1 := int64 (d + m - r) in if decide (d1 > d) then d1 else maxDuration.

Example duration_String_values :
  duration_String <$> [90 * Minute; 1500 * Millisecond; 0; 1500; -(2 * Second); 72 * Hour + 3 * Minute + 500 * Millisecond]
  = ["1h30m0s"; "1.5s"; "0s"; "1.5" ++s micro_sign ++s "s"; "-2s"; "72h3m0.5s"].
Proof. by_compute. Qed.

Example duration_Round_values :
  (λ d, duration_Round d Second) <$> [1499 * Millisecond; 1500 * Millisecond; -(1500 * Millisecond); maxDuration]
  = [Second; 2 * Second; -(2 * Second); maxDuration].
Proof. by_compute. Qed.
