(* ===== verification/Api.v ===== *)
(** * The API types: api/v1alpha1

    [ReactivePolicy] and [ActionAudit] as the Go structs have them, with the
    Kubernetes metadata the program reads.  String-valued enums stay strings
    with named constants, because the code switches on them with a default
    branch.  A pointer field is an [option]. *)

From S2P Require Import Prelude GoLib GoTime.

(** ** Kubernetes data the program reads (metav1, corev1, apiextensionsv1) *)

Record NamespacedName : Type := mkNN { nn_Namespace : string; nn_Name : string }.

(** [NamespacedName.String()]. *)
Definition nn_String (n : NamespacedName) : string := nn_Namespace n ++s "/" ++s nn_Name n.

Record ObjectMeta : Type := mkMeta {
  Name : string;
  GenerateName : string;
  Namespace : string;
  UID : string;
  ResourceVersion : string;
  Generation : Z;
  CreationTimestamp : Time;
  Labels : gmap string string }.

Record Condition : Type := mkCondition {
  c_Type : string;
  c_Status : string;
  c_Reason : string;
  c_Message : string;
  c_ObservedGeneration : Z;
  c_LastTransitionTime : Time }.

Definition ConditionTrue : string := "True".
Definition ConditionFalse : string := "False".

Record LabelSelectorRequirement : Type := mkRequirement {
  req_Key : string; req_Operator : string; req_Values : list string }.
Record LabelSelector : Type := mkSelector {
  MatchLabels : gmap string string;
  MatchExpressions : list LabelSelectorRequirement }.

Record SecretKeySelector : Type := mkSecretKey { sk_Name : string; sk_Key : string }.

(** [apiextensionsv1.JSON] and [runtime.RawExtension]: raw bytes. *)
Definition RawJSON : Type := string.

(** ** reactivepolicy_types.go *)

Definition MetricSource : Type := string.
Definition SourcePrometheus : MetricSource := "prometheus".

Definition ComparisonOperator : Type := string.
Definition OpGreaterThan : ComparisonOperator := "GreaterThan".
Definition OpGreaterThanOrEqual : ComparisonOperator := "GreaterThanOrEqual".
Definition OpLessThan : ComparisonOperator := "LessThan".
Definition OpLessThanOrEqual : ComparisonOperator := "LessThanOrEqual".
Definition OpEqual : ComparisonOperator := "Equal".
Definition OpNotEqual : ComparisonOperator := "NotEqual".

Definition FailurePolicy : Type := string.
Definition FailureContinue : FailurePolicy := "continue".
Definition FailureStop : FailurePolicy := "stop".
Definition FailureRollback : FailurePolicy := "rollback".

Definition PolicyState : Type := string.
Definition StateWatching : PolicyState := "Watching".
Definition StateTriggering : PolicyState := "Triggering".
Definition StateAwaitingApproval : PolicyState := "AwaitingApproval".
Definition StateCooldown : PolicyState := "Cooldown".
Definition StateRateLimited : PolicyState := "RateLimited".
Definition StateInvalid : PolicyState := "Invalid".

Record TargetKind : Type := mkTargetKind { tk_APIVersion : string; tk_Kind : string }.

Record TargetSpec : Type := mkTargetSpec {
  Selector : LabelSelector;
  Kinds : list TargetKind;
  MaxResources : option Z }.

Record Observe : Type := mkObserve {
  Source : MetricSource;
  Endpoint : string;
  Query : string;
  Threshold : string;
  Operator : ComparisonOperator;
  ObsDuration : Duration;
  PollInterval : Duration;
  AuthSecretRef : option SecretKeySelector }.

(** One plugin invocation of a pipeline ([v1alpha1.Action]).  [params] is a
    nil-able map. *)
Record ActionSpec : Type := mkActionSpec {
  Plugin : string;
  ActParams : option (gmap string RawJSON);
  OnFailure : FailurePolicy;
  RequiresApproval : bool }.

Record AuditSpec : Type := mkAuditSpec { Retention : string }.

Record ReactivePolicySpec : Type := mkPolicySpec {
  SpecTarget : TargetSpec;
  ObserveSpec : Observe;
  Actions : list ActionSpec;
  Cooldown : Duration;
  MaxTriggersPerHour : option Z;
  AllowIrreversible : bool;
  ApprovalTimeout : Duration;
  Audit : option AuditSpec }.

Record ReactivePolicyStatus : Type := mkPolicyStatus {
  State : PolicyState;
  LastEvaluatedAt : option Time;
  LastTriggeredAt : option Time;
  TriggerCount : Z;
  CurrentMetricValue : string;
  PendingGateRef : string;
  Conditions : list Condition }.

Record ReactivePolicy : Type := mkPolicy {
  p_Meta : ObjectMeta;
  p_Spec : ReactivePolicySpec;
  p_Status : ReactivePolicyStatus }.

(** Field assignments [policy.Status.F = v]. *)
Section PolicyUpdates.
Variable p : ReactivePolicy.
Let s := p_Status p.
Definition with_status (s' : ReactivePolicyStatus) : ReactivePolicy := mkPolicy (p_Meta p) (p_Spec p) s'.
Definition set_State (x : PolicyState) : ReactivePolicy :=
  with_status (mkPolicyStatus x (LastEvaluatedAt s) (LastTriggeredAt s) (TriggerCount s)
                 (CurrentMetricValue s) (PendingGateRef s) (Conditions s)).
Definition set_LastEvaluatedAt (x : option Time) : ReactivePolicy :=
  with_status (mkPolicyStatus (State s) x (LastTriggeredAt s) (TriggerCount s)
                 (CurrentMetricValue s) (PendingGateRef s) (Conditions s)).
Definition set_LastTriggeredAt (x : option Time) : ReactivePolicy :=
  with_status (mkPolicyStatus (State s) (LastEvaluatedAt s) x (TriggerCount s)
                 (CurrentMetricValue s) (PendingGateRef s) (Conditions s)).
Definition set_TriggerCount (x : Z) : ReactivePolicy :=
  with_status (mkPolicyStatus (State s) (LastEvaluatedAt s) (LastTriggeredAt s) x
                 (CurrentMetricValue s) (PendingGateRef s) (Conditions s)).
Definition set_CurrentMetricValue (x : string) : ReactivePolicy :=
  with_status (mkPolicyStatus (State s) (LastEvaluatedAt s) (LastTriggeredAt s) (TriggerCount s)
                 x (PendingGateRef s) (Conditions s)).
Definition set_PendingGateRef (x : string) : ReactivePolicy :=
  with_status (mkPolicyStatus (State s) (LastEvaluatedAt s) (LastTriggeredAt s) (TriggerCount s)
                 (CurrentMetricValue s) x (Conditions s)).
Definition set_Conditions (x : list Condition) : ReactivePolicy :=
  with_status (mkPolicyStatus (State s) (LastEvaluatedAt s) (LastTriggeredAt s) (TriggerCount s)
                 (CurrentMetricValue s) (PendingGateRef s) x).
End PolicyUpdates.

(** ** actionaudit_types.go *)

Definition LabelPolicy : string := "reactive-policy.io/policy".

Definition ApprovalDecision : Type := string.
Definition DecisionApproved : ApprovalDecision := "Approved".
Definition DecisionDenied : ApprovalDecision := "Denied".

Definition ApprovalPhaseT : Type := string.
Definition PhasePending : ApprovalPhaseT := "Pending".
Definition PhaseApproved : ApprovalPhaseT := "Approved".
Definition PhaseDenied : ApprovalPhaseT := "Denied".
Definition PhaseExpired : ApprovalPhaseT := "Expired".

Record AuditTarget : Type := mkAuditTarget {
  at_APIVersion : string; at_Kind : string; at_Name : string; at_Namespace : string }.

Record ApprovalGate : Type := mkGate {
  ActionIndex : Z;
  PendingPlugins : list string;
  GateTargets : list AuditTarget;
  ExpiresAt : Time;
  Decision_ : ApprovalDecision;
  DecidedBy : string;
  DecidedAt : option Time;
  GateReason : string }.

Record ActionRecord : Type := mkRecord {
  rec_Index : Z;
  rec_ActionID : string;
  rec_Plugin : string;
  rec_Target : AuditTarget;
  rec_Status : string;
  rec_Message : string;
  rec_Reversible : bool;
  rec_Details : option RawJSON }.

Record ActionAuditSpec : Type := mkAuditRecordSpec {
  PolicyRef : string;
  PolicyUID : string;
  TriggeredAt : Time;
  MetricValue : string;
  AuditActions : list ActionRecord;
  RevertRequested : bool;
  Gate : option ApprovalGate }.

Record RevertResult : Type := mkRevertResult {
  rr_Index : Z; rr_Plugin : string; rr_Status : string; rr_Message : string }.

Record ActionAuditStatus : Type := mkAuditStatus {
  Reverted : bool;
  RevertedAt : option Time;
  RevertResults : list RevertResult;
  ApprovalPhase : ApprovalPhaseT;
  ResumedAt : option Time;
  AuditConditions : list Condition }.

Record ActionAudit : Type := mkAudit {
  a_Meta : ObjectMeta;
  a_Spec : ActionAuditSpec;
  a_Status : ActionAuditStatus }.

Definition empty_audit_status : ActionAuditStatus :=
  mkAuditStatus false None [] EmptyString None [].

(** Field assignments on an audit record. *)
Section AuditUpdates.
Variable a : ActionAudit.
Let sp := a_Spec a.
Let st := a_Status a.
Definition with_audit_spec (x : ActionAuditSpec) : ActionAudit := mkAudit (a_Meta a) x (a_Status a).
Definition with_audit_status (x : ActionAuditStatus) : ActionAudit := mkAudit (a_Meta a) (a_Spec a) x.
Definition set_AuditActions (x : list ActionRecord) : ActionAudit :=
  with_audit_spec (mkAuditRecordSpec (PolicyRef sp) (PolicyUID sp) (TriggeredAt sp) (MetricValue sp)
                     x (RevertRequested sp) (Gate sp)).
Definition set_RevertRequested (x : bool) : ActionAudit :=
  with_audit_spec (mkAuditRecordSpec (PolicyRef sp) (PolicyUID sp) (TriggeredAt sp) (MetricValue sp)
                     (AuditActions sp) x (Gate sp)).
Definition set_Gate (x : option ApprovalGate) : ActionAudit :=
  with_audit_spec (mkAuditRecordSpec (PolicyRef sp) (PolicyUID sp) (TriggeredAt sp) (MetricValue sp)
                     (AuditActions sp) (RevertRequested sp) x).
Definition set_ApprovalPhase (x : ApprovalPhaseT) : ActionAudit :=
  with_audit_status (mkAuditStatus (Reverted st) (RevertedAt st) (RevertResults st) x
                       (ResumedAt st) (AuditConditions st)).
Definition set_ResumedAt (x : option Time) : ActionAudit :=
  with_audit_status (mkAuditStatus (Reverted st) (RevertedAt st) (RevertResults st)
                       (ApprovalPhase st) x (AuditConditions st)).
Definition set_AuditConditions (x : list Condition) : ActionAudit :=
  with_audit_status (mkAuditStatus (Reverted st) (RevertedAt st) (RevertResults st)
                       (ApprovalPhase st) (ResumedAt st) x).
Definition set_Reverted (x : bool) (at_ : option Time) (rs : list RevertResult) : ActionAudit :=
  with_audit_status (mkAuditStatus x at_ rs (ApprovalPhase st) (ResumedAt st) (AuditConditions st)).
End AuditUpdates.

(** Field assignments on a gate. *)
Definition set_Decision (g : ApprovalGate) (d : ApprovalDecision) (reason : string) : ApprovalGate :=
  mkGate (ActionIndex g) (PendingPlugins g) (GateTargets g) (ExpiresAt g) d
    (DecidedBy g) (DecidedAt g) reason.
Definition set_Decided (g : ApprovalGate) (who : string) (at_ : option Time) : ApprovalGate :=
  mkGate (ActionIndex g) (PendingPlugins g) (GateTargets g) (ExpiresAt g) (Decision_ g)
    who at_ (GateReason g).

(** Decidable equality on the data the components compare. *)
#[export] Instance NamespacedName_eq_dec : EqDecision NamespacedName.
Proof. solve_decision. Defined.
#[export] Instance AuditTarget_eq_dec : EqDecision AuditTarget.
Proof. solve_decision. Defined.
#[export] Instance ApprovalGate_eq_dec : EqDecision ApprovalGate.
Proof. solve_decision. Defined.
#[export] Instance ActionRecord_eq_dec : EqDecision ActionRecord.
Proof. solve_decision. Defined.
#[export] Instance RevertResult_eq_dec : EqDecision RevertResult.
Proof. solve_decision. Defined.
#[export] Instance ActionSpec_eq_dec : EqDecision ActionSpec.
Proof. solve_decision. Defined.
#[export] Instance ObjectMeta_eq_dec : EqDecision ObjectMeta.
Proof. solve_decision. Defined.
#[export] Instance Condition_eq_dec : EqDecision Condition.
Proof. solve_decision. Defined.
#[export] Instance ActionAuditSpec_eq_dec : EqDecision ActionAuditSpec.
Proof. solve_decision. Defined.
#[export] Instance ActionAuditStatus_eq_dec : EqDecision ActionAuditStatus.
Proof. solve_decision. Defined.
#[export] Instance ActionAudit_eq_dec : EqDecision ActionAudit.
Proof. solve_decision. Defined.
