(* ===== verification/Scheme.v ===== *)
(** * Kinds of objects: api/v1alpha1/groupversion_info.go and the schemes

    What the package registers with apimachinery's scheme, the schemes the
    operator (cmd/main.go) and the client (pkg/cli/root.go) build from it, and
    that each of the four types is known under its group, version and kind. *)

From S2P Require Import Prelude GoLib.

Record SchemaGV : Type := mkGV { gv_Group : string; gv_Version : string }.
Record GroupVersionKind : Type := mkGVK { gvk_Group : string; gvk_Version : string; gvk_Kind : string }.

(** The Go types the package registers, by the name reflection gives them. *)
Inductive GoType : Type := GoReactivePolicy | GoReactivePolicyList | GoActionAudit | GoActionAuditList.

#[export] Instance GoType_eq_dec : EqDecision GoType.
Proof. solve_decision. Defined.

Definition type_Name (t : GoType) : string :=
  match t with
  | GoReactivePolicy => "ReactivePolicy"
  | GoReactivePolicyList => "ReactivePolicyList"
  | GoActionAudit => "ActionAudit"
  | GoActionAuditList => "ActionAuditList"
  end.

Definition WithKind (gv : SchemaGV) (kind : string) : GroupVersionKind := mkGVK (gv_Group gv) (gv_Version gv) kind.

(** apimachinery's scheme, controller-runtime's builder and client-go's own
    registration. *)
Class RuntimeScheme : Type := {
  runtime_Scheme : Type;
  NewScheme : runtime_Scheme;
  Builder : Type;
  NewBuilder : SchemaGV → Builder;
  builder_Register : Builder → list GoType → Builder;
  builder_AddToScheme : Builder → runtime_Scheme → option error * runtime_Scheme;
  clientgo_AddToScheme : runtime_Scheme → option error * runtime_Scheme;
  ObjectKinds : runtime_Scheme → GoType → error + list GroupVersionKind }.

(** Documented: client-go registers none of these types, and a builder adds
    the types it was given under its group and version, so that a type not
    known before has that one kind. *)
Class SchemeLaws `{RuntimeScheme} : Prop := {
  clientgo_kinds : ∀ s t, clientgo_AddToScheme NewScheme = (None, s) → ∃ e, ObjectKinds s t = inl e;
  builder_kinds : ∀ gv regs s s' t e,
    builder_AddToScheme (foldl builder_Register (NewBuilder gv) regs) s = (None, s') →
    t ∈ concat regs → ObjectKinds s t = inl e → ObjectKinds s' t = inr [WithKind gv (type_Name t)] }.

(** ** The package's variables *)

Definition GroupVersion : SchemaGV := mkGV "reactive-policy.io" "v1alpha1".

(** The [init] of each file of types. *)
Definition actionaudit_types : list GoType := [GoActionAudit; GoActionAuditList].
Definition reactivepolicy_types : list GoType := [GoReactivePolicy; GoReactivePolicyList].

Section Registration.
Context `{RuntimeScheme}.

(** [SchemeBuilder] once the [init]s ran, in the order of the files. *)
Definition SchemeBuilder : Builder :=
  foldl builder_Register (NewBuilder GroupVersion) [actionaudit_types; reactivepolicy_types].

Definition AddToScheme : runtime_Scheme → option error * runtime_Scheme := builder_AddToScheme SchemeBuilder.

(** [utilruntime.Must(add(s))]. *)
Definition Must (add : runtime_Scheme → option error * runtime_Scheme) (s : runtime_Scheme) : outcome runtime_Scheme :=
  match add s with
  | (None, s) => Val s
  | (Some err, _) => Panic (err_msg err)
  end.

Definition both (s : runtime_Scheme) : outcome runtime_Scheme :=
  match Must clientgo_AddToScheme s with
  | Val s => Must AddToScheme s
  | Panic msg => Panic msg
  end.

(** The client's [scheme()], and the operator's [scheme] after its [init]. *)
Definition scheme : outcome runtime_Scheme := both NewScheme.
Definition main_scheme : outcome runtime_Scheme := both NewScheme.

(** Unless building it panics, a scheme knows every type of the API under the
    group and version of the package and its own name. *)
Lemma scheme_kinds `{!SchemeLaws} s t : scheme = Val s → ObjectKinds s t = inr [WithKind GroupVersion (type_Name t)].
Proof.
  unfold scheme, both, Must. destruct (clientgo_AddToScheme NewScheme) as [[e|] s1] eqn:Hc; [done|].
  destruct (AddToScheme s1) as [[e|] s2] eqn:Ha; [done|]. intros [= <-].
  destruct (clientgo_kinds s1 t Hc) as [e He]. eapply builder_kinds; [exact Ha| |exact He].
  destruct t; simpl; set_solver.
Qed.

End Registration.
