(* ===== verification/GoHeap.v ===== *)
(** * A Go heap: pointers, slices and maps as references to cells

    The components that only pass values along model a Go struct as a value.
    Where the code's point is which memory two values share (the generated deep
    copies), the references are explicit: a heap is a finite map from locations
    to cells, a pointer addresses one element of an array cell, a slice is a
    window of one.  [Mem] is the state-and-fault monad of code over the heap.
    [Rd] reads a whole value through its references, together with the list of
    the cells it went through, which is how sharing is stated: a location that
    occurs twice in the list is shared. *)

From S2P Require Import Prelude.

Definition loc : Type := positive.

(** [&a[i]], and [&x] for a variable or [new(T)], an array of one element. *)
Record pointer : Type := mkPtr { p_loc : loc; p_idx : nat }.

(** A slice header.  The capacity is left out: nothing modelled over this heap
    appends in place. *)
Record slice : Type := mkSlice { s_loc : loc; s_off : nat; s_len : nat }.

Abbreviation heap C := (gmap loc C).

Section Heap.
Context {Cell : Type}.

(** Contents a cell can hold: [list A] for an array of [A], a [gmap] for a map. *)
Class Stored (C : Type) : Type := {
  inj_cell : C → Cell;
  prj_cell : Cell → option C;
  prj_inj : ∀ c, prj_cell (inj_cell c) = Some c }.

(** ** Code over the heap *)

Definition Mem (A : Type) : Type := heap Cell → option (heap Cell * A).
#[export] Instance Mem_ret : MRet Mem := λ A a h, Some (h, a).
#[export] Instance Mem_bind : MBind Mem := λ A B f m h,
  match m h with Some (h', a) => f a h' | None => None end.
(** A nil dereference, an index out of range. *)
Definition fault {A : Type} : Mem A := λ _, None.

(** Allocation: a location above every one in use. *)
Definition fresh_loc (h : heap Cell) : loc := Pos.succ (map_fold (λ l _ m, Pos.max l m) 1%positive h).

Section Access.
Context {C : Type} `{Stored C}.
Definition new_cell (c : C) : Mem loc := λ h,
  let l := fresh_loc h in Some (<[l := inj_cell c]> h, l).
Definition load_cell (l : loc) : Mem C := λ h,
  match h !! l ≫= prj_cell with Some c => Some (h, c) | None => None end.
Definition store_cell (l : loc) (c : C) : Mem unit := λ h,
  match h !! l ≫= prj_cell with Some _ => Some (<[l := inj_cell c]> h, tt) | None => None end.
End Access.

Section Arrays.
Context {A : Type} `{Stored (list A)}.
(** [*p], [*p = a], [p := new(T)] with its first assignment. *)
Definition load (p : pointer) : Mem A :=
  xs ← load_cell (p_loc p); match xs !! p_idx p with Some a => mret a | None => fault end.
Definition store (p : pointer) (a : A) : Mem unit :=
  xs ← load_cell (p_loc p);
  if decide (p_idx p < length xs)%nat then store_cell (p_loc p) (<[p_idx p := a]> xs) else fault.
Definition new_ptr (a : A) : Mem pointer := l ← new_cell [a]; mret (mkPtr l 0).

(** The elements of a slice within its array. *)
Definition window (s : slice) (xs : list A) : option (list A) :=
  if decide (s_off s + s_len s <= length xs)%nat then Some (take (s_len s) (drop (s_off s) xs)) else None.
Definition load_slice (s : slice) : Mem (list A) :=
  xs ← load_cell (s_loc s); match window s xs with Some w => mret w | None => fault end.
Definition new_slice (xs : list A) : Mem slice := l ← new_cell xs; mret (mkSlice l 0 (length xs)).
End Arrays.

(** ** Reading a value through its references *)

Definition Rd (V : Type) : Type := heap Cell → option (V * list loc).
#[export] Instance Rd_ret : MRet Rd := λ V v h, Some (v, []).
#[export] Instance Rd_bind : MBind Rd := λ V W f m h,
  match m h with
  | Some (v, L) => match f v h with Some (w, L') => Some (w, L ++ L') | None => None end
  | None => None
  end.

Definition rd_fault {V : Type} : Rd V := λ _, None.
Definition rd_cell {C : Type} `{Stored C} (l : loc) : Rd C := λ h,
  match h !! l ≫= prj_cell with Some c => Some (c, [l]) | None => None end.

Section Views.
Context {A V : Type} `{Stored (list A)} (view : A → Rd V).
Definition view_ptr (p : pointer) : Rd V :=
  xs ← rd_cell (p_loc p); match xs !! p_idx p with Some a => view a | None => rd_fault end.
Definition view_slice (s : slice) : Rd (list V) :=
  xs ← rd_cell (s_loc s); match window s xs with Some w => mapM view w | None => rd_fault end.
End Views.

(** A value without references. *)
Definition view_flat {V : Type} (v : V) : Rd V := mret v.

(** A reference that may be nil. *)
Definition view_nilable {R V : Type} (view : R → Rd V) (o : option R) : Rd (option V) :=
  match o with None => mret None | Some r => v ← view r; mret (Some v) end.

(** ** What a read depends on *)

(** A read looks at the cells of its list only, and they are allocated. *)
Class Local {V : Type} (m : Rd V) : Prop := local : ∀ h v L, m h = Some (v, L) →
  (∀ l, l ∈ L → is_Some (h !! l)) ∧
  (∀ h', (∀ l, l ∈ L → h' !! l = h !! l) → m h' = Some (v, L)).

Lemma rd_bind_Some {V W : Type} (m : Rd V) (f : V → Rd W) h w L :
  (m ≫= f) h = Some (w, L) ↔
  ∃ v L1 L2, m h = Some (v, L1) ∧ f v h = Some (w, L2) ∧ L = L1 ++ L2.
Proof.
  unfold mbind, Rd_bind. split.
  - intros E. case_match; [|done]. destruct p as [v L1]. case_match; [|done].
    destruct p as [w' L2]. simplify_eq. eauto 7.
  - intros (v & L1 & L2 & -> & -> & ->). done.
Qed.

Lemma rd_bind_intro {V W : Type} (m : Rd V) (f : V → Rd W) h v L1 w L2 :
  m h = Some (v, L1) → f v h = Some (w, L2) → (m ≫= f) h = Some (w, L1 ++ L2).
Proof. intros H1 H2. apply rd_bind_Some. eauto 7. Qed.

#[export] Instance local_ret {V : Type} (v : V) : Local (mret v).
Proof. intros h w L E. injection E as <- <-. split; [by intros l ?%elem_of_nil|done]. Qed.

#[export] Instance local_fault {V : Type} : Local (@rd_fault V).
Proof. by intros h w L E. Qed.

#[export] Instance local_bind {V W : Type} (m : Rd V) (f : V → Rd W) :
  Local m → (∀ v, Local (f v)) → Local (m ≫= f).
Proof.
  intros Hm Hf h w L (v & L1 & L2 & E1 & E2 & ->)%rd_bind_Some.
  destruct (Hm _ _ _ E1) as [D1 F1], (Hf _ _ _ _ E2) as [D2 F2]. split.
  - intros l [?|?]%elem_of_app; auto.
  - intros h' Hh'. eapply rd_bind_intro; [apply F1|apply F2]; intros l Hl; apply Hh', elem_of_app; auto.
Qed.

#[export] Instance local_cell {C : Type} `{Stored C} l : Local (rd_cell l).
Proof.
  intros h c L E. unfold rd_cell in *. case_match eqn:Ec; [|done]. injection E as -> <-.
  split.
  - intros l' ->%list_elem_of_singleton. destruct (h !! l) eqn:El; [eauto|done].
  - intros h' Hh'. rewrite (Hh' l) by by apply list_elem_of_singleton. by rewrite Ec.
Qed.

#[export] Instance local_mapM {A V : Type} (view : A → Rd V) xs :
  (∀ a, Local (view a)) → Local (mapM view xs).
Proof. intros Hv. induction xs as [|x xs IH]; simpl; apply _. Qed.

#[export] Instance local_ptr {A V : Type} `{Stored (list A)} (view : A → Rd V) p :
  (∀ a, Local (view a)) → Local (view_ptr view p).
Proof. intros Hv. unfold view_ptr. apply local_bind; [apply _|]. intros xs. case_match; apply _. Qed.

#[export] Instance local_slice {A V : Type} `{Stored (list A)} (view : A → Rd V) s :
  (∀ a, Local (view a)) → Local (view_slice view s).
Proof. intros Hv. unfold view_slice. apply local_bind; [apply _|]. intros xs. case_match; apply _. Qed.

#[export] Instance local_nilable {R V : Type} (view : R → Rd V) o :
  (∀ r, Local (view r)) → Local (view_nilable view o).
Proof. intros Hv. destruct o; simpl; apply _. Qed.

#[export] Instance local_flat {V : Type} (v : V) : Local (view_flat v).
Proof. apply local_ret. Qed.

(** A read survives an extension of the heap. *)
Lemma local_mono {V : Type} (m : Rd V) `{!Local m} h h' v L :
  m h = Some (v, L) → h ⊆ h' → m h' = Some (v, L).
Proof.
  intros E Hs. destruct (local _ _ _ E) as [D F]. apply F. intros l Hl.
  destruct (D l Hl) as [c Hc]. rewrite Hc. by apply (lookup_weaken h).
Qed.

(** Writes outside a value's cells leave it as it was. *)
Lemma local_frame {V : Type} (m : Rd V) `{!Local m} h h' v L :
  m h = Some (v, L) → (∀ l, l ∈ L → h' !! l = h !! l) → m h' = Some (v, L).
Proof. intros E. exact (proj2 (local _ _ _ E) h'). Qed.

Lemma local_alloc {V : Type} (m : Rd V) `{!Local m} h v L l :
  m h = Some (v, L) → l ∈ L → is_Some (h !! l).
Proof. intros E. exact (proj1 (local _ _ _ E) l). Qed.

(** ** Deep copies *)

(** [w] is read in [h'] as [v] through cells that [h] did not have and that
    nothing shares. *)
Definition fresh_view {V : Type} (m : Rd V) (v : V) (h h' : heap Cell) : Prop :=
  h ⊆ h' ∧ ∃ L, m h' = Some (v, L) ∧ NoDup L ∧ ∀ l, l ∈ L → h !! l = None.

(** The contract of a [DeepCopyInto]: from a readable value, code that does not
    fault, keeps every cell there was, and gives the same value in new cells. *)
Class Copies {R R' V : Type} (view : R → Rd V) (view' : R' → Rd V) (c : R → Mem R') : Prop :=
  copies : ∀ h r v L, view r h = Some (v, L) → ∃ h' r', c r h = Some (h', r') ∧ fresh_view (view' r') v h h'.

Lemma fresh_view_mono {V : Type} (m : Rd V) `{!Local m} v h h1 h2 :
  fresh_view m v h h1 → h1 ⊆ h2 → fresh_view m v h h2.
Proof.
  intros (Hs & L & E & ND & HL) Hs2. split; [by etrans|]. exists L. split; [|done].
  by apply (local_mono _ h1).
Qed.

(** Two parts copied one after the other share nothing. *)
Lemma fresh_view_bind {V W : Type} (m : Rd V) (f : V → Rd W) `{!Local m, !∀ v, Local (f v)} v w h h1 h2 :
  fresh_view m v h h1 → fresh_view (f v) w h1 h2 → fresh_view (m ≫= f) w h h2.
Proof.
  intros (Hs1 & L1 & E1 & ND1 & HL1) (Hs2 & L2 & E2 & ND2 & HL2).
  split; [by etrans|]. exists (L1 ++ L2). split_and!.
  - eapply rd_bind_intro; [by apply (local_mono _ h1)|done].
  - apply NoDup_app. split_and!; [done| |done]. intros l Hl1 Hl2.
    destruct (local_alloc _ _ _ _ l E1 Hl1) as [c Hc]. specialize (HL2 l Hl2). congruence.
  - intros l [Hl|Hl]%elem_of_app; [by apply HL1|].
    specialize (HL2 l Hl). destruct (h !! l) as [c|] eqn:E; [|done].
    pose proof (lookup_weaken _ _ _ _ E Hs1). congruence.
Qed.

Lemma fresh_view_ret {V : Type} (v : V) h : fresh_view (mret v) v h h.
Proof. split; [done|]. exists []. split_and!; [done|constructor|by intros l ?%elem_of_nil]. Qed.

(** ** The copying code *)

(** [if in.F != nil { ... }]: a nil reference stays nil. *)
Definition copy_nilable {R R' : Type} (c : R → Mem R') (o : option R) : Mem (option R') :=
  match o with None => mret None | Some r => r' ← c r; mret (Some r') end.

(** [**out = **in] and [copy( *out, *in)]: assignment of values without references. *)
Definition copy_flat {V : Type} (v : V) : Mem V := mret v.

(** [*out = new(T); ( *in).DeepCopyInto( *out)].  The new object is given its
    final contents when it is allocated: nobody reads it before. *)
Definition copy_ptr {A : Type} `{Stored (list A)} (c : A → Mem A) (p : pointer) : Mem pointer :=
  a ← load p; a' ← c a; new_ptr a'.

(** [*out = make([]T, len( *in)); for i := range *in { ( *in)[i].DeepCopyInto(&( *out)[i]) }];
    with [copy_flat], [copy( *out, *in)]. *)
Definition copy_slice {A : Type} `{Stored (list A)} (c : A → Mem A) (s : slice) : Mem slice :=
  xs ← load_slice s; ys ← mapM c xs; new_slice ys.

(** A [DeepCopy] method: nil for a nil receiver, otherwise a new object. *)
Definition deep_copy {A : Type} `{Stored (list A)} (DeepCopyInto : A → Mem A) (in_ : option pointer)
  : Mem (option pointer) :=
  match in_ with
  | None => mret None
  | Some p => a ← load p; a' ← DeepCopyInto a; q ← new_ptr a'; mret (Some q)
  end.

(** ** Their contracts *)

Lemma fresh_loc_above (h : heap Cell) l c : h !! l = Some c → (l < fresh_loc h)%positive.
Proof.
  unfold fresh_loc. revert l c.
  apply (map_fold_weak_ind (λ m h, ∀ l c, h !! l = Some c → (l < Pos.succ m)%positive)).
  - intros l c. by rewrite lookup_empty.
  - intros i x m r _ IH l c [[<- _]|[_ E]]%lookup_insert_Some; [lia|].
    specialize (IH l c E). lia.
Qed.

Lemma fresh_loc_fresh (h : heap Cell) : h !! fresh_loc h = None.
Proof.
  destruct (h !! fresh_loc h) as [c|] eqn:E; [|done].
  pose proof (fresh_loc_above h _ c E). lia.
Qed.

Lemma rd_cell_load {C : Type} `{Stored C} l (h : heap Cell) c L :
  rd_cell l h = Some (c, L) → load_cell l h = Some (h, c).
Proof. unfold rd_cell, load_cell. case_match; intros E; by simplify_eq. Qed.

Lemma mem_bind_intro {A B : Type} (m : Mem A) (f : A → Mem B) h h1 a r :
  m h = Some (h1, a) → f a h1 = r → (m ≫= f) h = r.
Proof. intros E1 E2. unfold mbind, Mem_bind. by rewrite E1. Qed.

(** Putting a copied value in a new cell. *)
Lemma fresh_view_cell {C V : Type} `{Stored C} (f : C → Rd V) `{!∀ c, Local (f c)} c v (h h1 : heap Cell) :
  fresh_view (f c) v h h1 →
  fresh_view (rd_cell (fresh_loc h1) ≫= f) v h (<[fresh_loc h1 := inj_cell c]> h1).
Proof.
  intros (Hs & L & E & ND & HL).
  assert (Hs1 : h1 ⊆ <[fresh_loc h1 := inj_cell c]> h1) by apply insert_subseteq, fresh_loc_fresh.
  split; [by etrans|]. exists (fresh_loc h1 :: L). split; [|split].
  - apply (rd_bind_intro _ f _ c [fresh_loc h1]); [|by apply (local_mono _ h1)].
    unfold rd_cell. by rewrite lookup_insert_eq; simpl; rewrite prj_inj.
  - constructor; [|done]. intros Hin. destruct (local_alloc _ _ _ _ _ E Hin) as [x Hx].
    by rewrite fresh_loc_fresh in Hx.
  - intros l [->|Hl]%elem_of_cons; [|by apply HL].
    destruct (h !! fresh_loc h1) as [x|] eqn:Ex; [|done].
    pose proof (lookup_weaken _ _ _ _ Ex Hs) as Hx. by rewrite fresh_loc_fresh in Hx.
Qed.

(** One field of a struct, copied in a heap that extends the one it was read in. *)
Lemma copy_bind {R R' V B : Type} (view : R → Rd V) (view' : R' → Rd V) (c : R → Mem R')
    `{!Copies view view' c} `{!∀ r, Local (view r)} (k : R' → Mem B) (Q : heap Cell → B → Prop) h0 h r v L :
  view r h0 = Some (v, L) → h0 ⊆ h →
  (∀ h1 r1, fresh_view (view' r1) v h h1 → ∃ h2 b, k r1 h1 = Some (h2, b) ∧ Q h2 b) →
  ∃ h2 b, (c r ≫= k) h = Some (h2, b) ∧ Q h2 b.
Proof.
  intros E Hs Hk. apply (local_mono _ _ h) in E; [|done].
  destruct (copies _ _ _ _ E) as (h1 & r1 & E1 & F1). destruct (Hk h1 r1 F1) as (h2 & b & E2 & HQ).
  exists h2, b. split; [|done]. by eapply mem_bind_intro.
Qed.

#[export] Instance copies_flat {V : Type} : Copies (view_flat (V := V)) view_flat copy_flat.
Proof. intros h r v L E. injection E as -> <-. exists h, v. split; [done|apply fresh_view_ret]. Qed.

#[export] Instance copies_nilable {R R' V : Type} (view : R → Rd V) (view' : R' → Rd V) c :
  Copies view view' c → (∀ r, Local (view r)) → (∀ r, Local (view' r)) →
  Copies (view_nilable view) (view_nilable view') (copy_nilable c).
Proof.
  intros Hc Hl Hl' h [r|] v L E; simpl in *.
  - apply rd_bind_Some in E as (w & L1 & L2 & E1 & [= <- <-] & ->).
    eapply (copy_bind _ view' _ _ _ h h); [done|done|]. intros h1 r1 F1.
    eexists h1, _. split; [reflexivity|].
    refine (fresh_view_bind _ _ _ _ _ _ _ F1 _). apply fresh_view_ret.
  - injection E as <- <-. exists h, None. split; [done|apply fresh_view_ret].
Qed.

#[export] Instance copies_mapM {A B V : Type} (view : A → Rd V) (view' : B → Rd V) c :
  Copies view view' c → (∀ a, Local (view a)) → (∀ b, Local (view' b)) →
  Copies (mapM view) (mapM view') (mapM c).
Proof.
  intros Hc Hl Hl' h xs. revert h. induction xs as [|x xs IH]; intros h v L E; simpl in *.
  - injection E as <- <-. exists h, []. split; [done|apply fresh_view_ret].
  - apply rd_bind_Some in E as (v1 & L1 & L2' & E1 & E2 & ->).
    apply rd_bind_Some in E2 as (vs & L2 & L3 & E2 & [= <- <-] & ->).
    eapply (copy_bind _ view' _ _ _ h h); [done|done|]. intros h1 y F1.
    destruct (IH h1 vs L2) as (h2 & ys & E3 & F2); [apply (local_mono _ h); [done|apply F1]|].
    exists h2, (y :: ys). split; [by eapply mem_bind_intro|]. simpl.
    refine (fresh_view_bind _ _ _ _ _ _ _ F1 _). refine (fresh_view_bind _ _ _ _ _ _ _ F2 _).
    apply fresh_view_ret.
Qed.

#[export] Instance copies_slice {A V : Type} `{Stored (list A)} (view : A → Rd V) c :
  Copies view view c → (∀ a, Local (view a)) →
  Copies (view_slice view) (view_slice view) (copy_slice c).
Proof.
  intros Hc Hl h s v L E. apply rd_bind_Some in E as (xs & L1 & L2 & E1 & E2 & ->).
  destruct (window s xs) as [w|] eqn:Ew; [|done].
  destruct (copies _ _ _ _ E2) as (h1 & ys & E3 & F).
  eexists _, (mkSlice (fresh_loc h1) 0 (length ys)). split.
  - unfold copy_slice, load_slice. eapply mem_bind_intro.
    { eapply mem_bind_intro; [by eapply rd_cell_load|by rewrite Ew]. }
    by eapply mem_bind_intro.
  - unfold view_slice. simpl s_loc. apply fresh_view_cell.
    { intros zs. case_match; apply _. }
    replace (window _ ys) with (Some ys); [done|]. unfold window. simpl.
    by rewrite decide_True, drop_0, firstn_all by lia.
Qed.

#[export] Instance copies_ptr {A V : Type} `{Stored (list A)} (view : A → Rd V) c :
  Copies view view c → (∀ a, Local (view a)) → Copies (view_ptr view) (view_ptr view) (copy_ptr c).
Proof.
  intros Hc Hl h p v L E. apply rd_bind_Some in E as (xs & L1 & L2 & E1 & E2 & ->).
  destruct (xs !! p_idx p) as [a|] eqn:Ea; [|done].
  destruct (copies _ _ _ _ E2) as (h1 & a' & E3 & F).
  eexists _, (mkPtr (fresh_loc h1) 0). split.
  - unfold copy_ptr, load. eapply mem_bind_intro.
    { eapply mem_bind_intro; [by eapply rd_cell_load|by rewrite Ea]. }
    by eapply mem_bind_intro.
  - unfold view_ptr. simpl p_loc. apply fresh_view_cell; [|done].
    intros zs. case_match; apply _.
Qed.

#[export] Instance copies_deep_copy {A V : Type} `{Stored (list A)} (view : A → Rd V) c :
  Copies view view c → (∀ a, Local (view a)) →
  Copies (view_nilable (view_ptr view)) (view_nilable (view_ptr view)) (deep_copy c).
Proof.
  intros Hc Hl h o v L E. destruct (copies (c := copy_nilable (copy_ptr c)) _ _ _ _ E) as (h' & o' & E' & F).
  exists h', o'. split; [|done]. rewrite <- E'. destruct o as [p|]; [|done]. simpl.
  unfold copy_ptr, mbind, Mem_bind. destruct (load p h) as [[h1 a]|]; [|done].
  by destruct (c a h1) as [[h2 a']|].
Qed.

End Heap.
Arguments Mem : clear implicits.
Arguments Rd : clear implicits.
Arguments Stored : clear implicits.
