(* ===== verification/DeepCopy.v ===== *)
(** * Generated deep copies: api/v1alpha1/zz_generated.deepcopy.go

    The API structs as they lie in memory: a struct is a value whose pointer,
    slice and map fields are references into a heap ([GoHeap]).  Each record
    is declared once, over a [Mode] that says what such a field holds: in mode
    [raw] a reference, in mode [deep] what the reference leads to, nil kept
    apart from empty.  [view_T] reads a [T_of raw] through the heap as a
    [T_of deep]; [T_DeepCopyInto] is the generated method, from the struct the
    receiver points to, to the struct it leaves in [*out] (every caller passes
    memory of its own for [out]). *)

From S2P Require Import Prelude GoLib GoTime Api GoHeap.

(** [Time] is a [Z] in the model; their cells are told apart. *)
#[export] Typeclasses Opaque Time.

(** ** Representations *)

Record Mode : Type := mkMode {
  Ptr : Type → Type;
  Slice : Type → Type;
  JSONMap : Type;
  JSON : Type;
  ObjMeta : Type;
  ListMeta : Type;
  Selector_ : Type;
  Cond : Type;
  SecretRef : Type }.

(** [metav1.TypeMeta]. *)
Record TypeMeta : Type := mkTypeMeta { tm_Kind : string; tm_APIVersion : string }.

Record Action_of (m : Mode) : Type := mkAction {
  ac_Plugin : string;
  ac_Params : JSONMap m;
  ac_OnFailure : FailurePolicy;
  ac_RequiresApproval : bool }.

Record Observe_of (m : Mode) : Type := mkObserve_ {
  ob_Source : MetricSource;
  ob_Endpoint : string;
  ob_Query : string;
  ob_Threshold : string;
  ob_Operator : ComparisonOperator;
  ob_Duration : Duration;
  ob_PollInterval : Duration;
  ob_AuthSecretRef : Ptr m (SecretRef m) }.

Record Target_of (m : Mode) : Type := mkTarget_ {
  tg_Selector : Selector_ m;
  tg_Kinds : Slice m TargetKind;
  tg_MaxResources : Ptr m Z }.

Record PolicySpec_of (m : Mode) : Type := mkPolicySpec_ {
  ps_Target : Target_of m;
  ps_Observe : Observe_of m;
  ps_Actions : Slice m (Action_of m);
  ps_Cooldown : Duration;
  ps_MaxTriggersPerHour : Ptr m Z;
  ps_AllowIrreversible : bool;
  ps_ApprovalTimeout : Duration;
  ps_Audit : Ptr m AuditSpec }.

Record PolicyStatus_of (m : Mode) : Type := mkPolicyStatus_ {
  pt_State : PolicyState;
  pt_LastEvaluatedAt : Ptr m Time;
  pt_LastTriggeredAt : Ptr m Time;
  pt_TriggerCount : Z;
  pt_CurrentMetricValue : string;
  pt_PendingGateRef : string;
  pt_Conditions : Slice m (Cond m) }.

Record Policy_of (m : Mode) : Type := mkPolicy_ {
  po_TypeMeta : TypeMeta;
  po_ObjectMeta : ObjMeta m;
  po_Spec : PolicySpec_of m;
  po_Status : PolicyStatus_of m }.

Record PolicyList_of (m : Mode) : Type := mkPolicyList_ {
  pl_TypeMeta : TypeMeta;
  pl_ListMeta : ListMeta m;
  pl_Items : Slice m (Policy_of m) }.

Record Gate_of (m : Mode) : Type := mkGate_ {
  gt_ActionIndex : Z;
  gt_PendingPlugins : Slice m string;
  gt_Targets : Slice m AuditTarget;
  gt_ExpiresAt : Time;
  gt_Decision : ApprovalDecision;
  gt_DecidedBy : string;
  gt_DecidedAt : Ptr m Time;
  gt_Reason : string }.

Record Record_of (m : Mode) : Type := mkRecord_ {
  ar_Index : Z;
  ar_ActionID : string;
  ar_Plugin : string;
  ar_Target : AuditTarget;
  ar_Status : string;
  ar_Message : string;
  ar_Reversible : bool;
  ar_Details : Ptr m (JSON m) }.

Record AuditSpec_of (m : Mode) : Type := mkAuditSpec_ {
  as_PolicyRef : string;
  as_PolicyUID : string;
  as_TriggeredAt : Time;
  as_MetricValue : string;
  as_Actions : Slice m (Record_of m);
  as_RevertRequested : bool;
  as_Gate : Ptr m (Gate_of m) }.

Record AuditStatus_of (m : Mode) : Type := mkAuditStatus_ {
  st_Reverted : bool;
  st_RevertedAt : Ptr m Time;
  st_RevertResults : Slice m RevertResult;
  st_ApprovalPhase : ApprovalPhaseT;
  st_ResumedAt : Ptr m Time;
  st_Conditions : Slice m (Cond m) }.

Record Audit_of (m : Mode) : Type := mkAudit_ {
  au_TypeMeta : TypeMeta;
  au_ObjectMeta : ObjMeta m;
  au_Spec : AuditSpec_of m;
  au_Status : AuditStatus_of m }.

Record AuditList_of (m : Mode) : Type := mkAuditList_ {
  al_TypeMeta : TypeMeta;
  al_ListMeta : ListMeta m;
  al_Items : Slice m (Audit_of m) }.
Arguments mkAction {m}.
Arguments mkObserve_ {m}.
Arguments mkTarget_ {m}.
Arguments mkPolicySpec_ {m}.
Arguments mkPolicyStatus_ {m}.
Arguments mkPolicy_ {m}.
Arguments mkPolicyList_ {m}.
Arguments mkGate_ {m}.
Arguments mkRecord_ {m}.
Arguments mkAuditSpec_ {m}.
Arguments mkAuditStatus_ {m}.
Arguments mkAudit_ {m}.
Arguments mkAuditList_ {m}.
Arguments ac_Plugin {m}.
Arguments ac_Params {m}.
Arguments ac_OnFailure {m}.
Arguments ac_RequiresApproval {m}.
Arguments ob_Source {m}.
Arguments ob_Endpoint {m}.
Arguments ob_Query {m}.
Arguments ob_Threshold {m}.
Arguments ob_Operator {m}.
Arguments ob_Duration {m}.
Arguments ob_PollInterval {m}.
Arguments ob_AuthSecretRef {m}.
Arguments tg_Selector {m}.
Arguments tg_Kinds {m}.
Arguments tg_MaxResources {m}.
Arguments ps_Target {m}.
Arguments ps_Observe {m}.
Arguments ps_Actions {m}.
Arguments ps_Cooldown {m}.
Arguments ps_MaxTriggersPerHour {m}.
Arguments ps_AllowIrreversible {m}.
Arguments ps_ApprovalTimeout {m}.
Arguments ps_Audit {m}.
Arguments pt_State {m}.
Arguments pt_LastEvaluatedAt {m}.
Arguments pt_LastTriggeredAt {m}.
Arguments pt_TriggerCount {m}.
Arguments pt_CurrentMetricValue {m}.
Arguments pt_PendingGateRef {m}.
Arguments pt_Conditions {m}.
Arguments po_TypeMeta {m}.
Arguments po_ObjectMeta {m}.
Arguments po_Spec {m}.
Arguments po_Status {m}.
Arguments pl_TypeMeta {m}.
Arguments pl_ListMeta {m}.
Arguments pl_Items {m}.
Arguments gt_ActionIndex {m}.
Arguments gt_PendingPlugins {m}.
Arguments gt_Targets {m}.
Arguments gt_ExpiresAt {m}.
Arguments gt_Decision {m}.
Arguments gt_DecidedBy {m}.
Arguments gt_DecidedAt {m}.
Arguments gt_Reason {m}.
Arguments ar_Index {m}.
Arguments ar_ActionID {m}.
Arguments ar_Plugin {m}.
Arguments ar_Target {m}.
Arguments ar_Status {m}.
Arguments ar_Message {m}.
Arguments ar_Reversible {m}.
Arguments ar_Details {m}.
Arguments as_PolicyRef {m}.
Arguments as_PolicyUID {m}.
Arguments as_TriggeredAt {m}.
Arguments as_MetricValue {m}.
Arguments as_Actions {m}.
Arguments as_RevertRequested {m}.
Arguments as_Gate {m}.
Arguments st_Reverted {m}.
Arguments st_RevertedAt {m}.
Arguments st_RevertResults {m}.
Arguments st_ApprovalPhase {m}.
Arguments st_ResumedAt {m}.
Arguments st_Conditions {m}.
Arguments au_TypeMeta {m}.
Arguments au_ObjectMeta {m}.
Arguments au_Spec {m}.
Arguments au_Status {m}.
Arguments al_TypeMeta {m}.
Arguments al_ListMeta {m}.
Arguments al_Items {m}.

(** ** What other packages own

    metav1, corev1 and apiextensionsv1 types, and the cells only their code
    allocates.  [XListMeta] is what a reader sees of a [metav1.ListMeta]; for
    the others [Api] says it. *)
Class ExtTypes : Type := {
  xJSON : Type;
  xObjectMeta : Type;
  xListMeta : Type;
  xLabelSelector : Type;
  xCondition : Type;
  xSecretKeySelector : Type;
  XListMeta : Type;
  xCell : Type }.

Section Types.
Context `{ExtTypes}.

Definition raw : Mode := {|
  Ptr := λ _, option pointer;
  Slice := λ _, option slice;
  JSONMap := option loc;
  JSON := xJSON;
  ObjMeta := xObjectMeta;
  ListMeta := xListMeta;
  Selector_ := xLabelSelector;
  Cond := xCondition;
  SecretRef := xSecretKeySelector |}.

Definition deep : Mode := {|
  Ptr := option;
  Slice := λ A, option (list A);
  JSONMap := option (gmap string RawJSON);
  JSON := RawJSON;
  ObjMeta := ObjectMeta;
  ListMeta := XListMeta;
  Selector_ := LabelSelector;
  Cond := Condition;
  SecretRef := SecretKeySelector |}.

(** A cell: an array of some type, a map, or another package's. *)
Inductive Cell : Type :=
| CTime (xs : list Time)
| CInt32 (xs : list Z)
| CString (xs : list string)
| CJSON (xs : list xJSON)
| CCondition (xs : list xCondition)
| CSecretKeySelector (xs : list xSecretKeySelector)
| CTargetKind (xs : list TargetKind)
| CAuditTarget (xs : list AuditTarget)
| CRevertResult (xs : list RevertResult)
| CAuditSpec (xs : list AuditSpec)
| CParams (m : gmap string xJSON)
| CAction (xs : list (Action_of raw))
| CObserve (xs : list (Observe_of raw))
| CTarget (xs : list (Target_of raw))
| CPolicySpec (xs : list (PolicySpec_of raw))
| CPolicyStatus (xs : list (PolicyStatus_of raw))
| CPolicy (xs : list (Policy_of raw))
| CPolicyList (xs : list (PolicyList_of raw))
| CGate (xs : list (Gate_of raw))
| CRecord (xs : list (Record_of raw))
| CActionAuditSpec (xs : list (AuditSpec_of raw))
| CAuditStatus (xs : list (AuditStatus_of raw))
| CAudit (xs : list (Audit_of raw))
| CAuditList (xs : list (AuditList_of raw))
| CExt (x : xCell).

#[export] Program Instance stored_CTime : Stored Cell (list Time) :=
  {| inj_cell := CTime; prj_cell c := match c with CTime x => Some x | _ => None end |}.
Solve All Obligations with done.
#[export] Program Instance stored_CInt32 : Stored Cell (list Z) :=
  {| inj_cell := CInt32; prj_cell c := match c with CInt32 x => Some x | _ => None end |}.
Solve All Obligations with done.
#[export] Program Instance stored_CString : Stored Cell (list string) :=
  {| inj_cell := CString; prj_cell c := match c with CString x => Some x | _ => None end |}.
Solve All Obligations with done.
#[export] Program Instance stored_CJSON : Stored Cell (list xJSON) :=
  {| inj_cell := CJSON; prj_cell c := match c with CJSON x => Some x | _ => None end |}.
Solve All Obligations with done.
#[export] Program Instance stored_CCondition : Stored Cell (list xCondition) :=
  {| inj_cell := CCondition; prj_cell c := match c with CCondition x => Some x | _ => None end |}.
Solve All Obligations with done.
#[export] Program Instance stored_CSecretKeySelector : Stored Cell (list xSecretKeySelector) :=
  {| inj_cell := CSecretKeySelector; prj_cell c := match c with CSecretKeySelector x => Some x | _ => None end |}.
Solve All Obligations with done.
#[export] Program Instance stored_CTargetKind : Stored Cell (list TargetKind) :=
  {| inj_cell := CTargetKind; prj_cell c := match c with CTargetKind x => Some x | _ => None end |}.
Solve All Obligations with done.
#[export] Program Instance stored_CAuditTarget : Stored Cell (list AuditTarget) :=
  {| inj_cell := CAuditTarget; prj_cell c := match c with CAuditTarget x => Some x | _ => None end |}.
Solve All Obligations with done.
#[export] Program Instance stored_CRevertResult : Stored Cell (list RevertResult) :=
  {| inj_cell := CRevertResult; prj_cell c := match c with CRevertResult x => Some x | _ => None end |}.
Solve All Obligations with done.
#[export] Program Instance stored_CAuditSpec : Stored Cell (list AuditSpec) :=
  {| inj_cell := CAuditSpec; prj_cell c := match c with CAuditSpec x => Some x | _ => None end |}.
Solve All Obligations with done.
#[export] Program Instance stored_CParams : Stored Cell (gmap string xJSON) :=
  {| inj_cell := CParams; prj_cell c := match c with CParams x => Some x | _ => None end |}.
Solve All Obligations with done.
#[export] Program Instance stored_CAction : Stored Cell (list (Action_of raw)) :=
  {| inj_cell := CAction; prj_cell c := match c with CAction x => Some x | _ => None end |}.
Solve All Obligations with done.
#[export] Program Instance stored_CObserve : Stored Cell (list (Observe_of raw)) :=
  {| inj_cell := CObserve; prj_cell c := match c with CObserve x => Some x | _ => None end |}.
Solve All Obligations with done.
#[export] Program Instance stored_CTarget : Stored Cell (list (Target_of raw)) :=
  {| inj_cell := CTarget; prj_cell c := match c with CTarget x => Some x | _ => None end |}.
Solve All Obligations with done.
#[export] Program Instance stored_CPolicySpec : Stored Cell (list (PolicySpec_of raw)) :=
  {| inj_cell := CPolicySpec; prj_cell c := match c with CPolicySpec x => Some x | _ => None end |}.
Solve All Obligations with done.
#[export] Program Instance stored_CPolicyStatus : Stored Cell (list (PolicyStatus_of raw)) :=
  {| inj_cell := CPolicyStatus; prj_cell c := match c with CPolicyStatus x => Some x | _ => None end |}.
Solve All Obligations with done.
#[export] Program Instance stored_CPolicy : Stored Cell (list (Policy_of raw)) :=
  {| inj_cell := CPolicy; prj_cell c := match c with CPolicy x => Some x | _ => None end |}.
Solve All Obligations with done.
#[export] Program Instance stored_CPolicyList : Stored Cell (list (PolicyList_of raw)) :=
  {| inj_cell := CPolicyList; prj_cell c := match c with CPolicyList x => Some x | _ => None end |}.
Solve All Obligations with done.
#[export] Program Instance stored_CGate : Stored Cell (list (Gate_of raw)) :=
  {| inj_cell := CGate; prj_cell c := match c with CGate x => Some x | _ => None end |}.
Solve All Obligations with done.
#[export] Program Instance stored_CRecord : Stored Cell (list (Record_of raw)) :=
  {| inj_cell := CRecord; prj_cell c := match c with CRecord x => Some x | _ => None end |}.
Solve All Obligations with done.
#[export] Program Instance stored_CActionAuditSpec : Stored Cell (list (AuditSpec_of raw)) :=
  {| inj_cell := CActionAuditSpec; prj_cell c := match c with CActionAuditSpec x => Some x | _ => None end |}.
Solve All Obligations with done.
#[export] Program Instance stored_CAuditStatus : Stored Cell (list (AuditStatus_of raw)) :=
  {| inj_cell := CAuditStatus; prj_cell c := match c with CAuditStatus x => Some x | _ => None end |}.
Solve All Obligations with done.
#[export] Program Instance stored_CAudit : Stored Cell (list (Audit_of raw)) :=
  {| inj_cell := CAudit; prj_cell c := match c with CAudit x => Some x | _ => None end |}.
Solve All Obligations with done.
#[export] Program Instance stored_CAuditList : Stored Cell (list (AuditList_of raw)) :=
  {| inj_cell := CAuditList; prj_cell c := match c with CAuditList x => Some x | _ => None end |}.
Solve All Obligations with done.
#[export] Program Instance stored_CExt : Stored Cell xCell :=
  {| inj_cell := CExt; prj_cell c := match c with CExt x => Some x | _ => None end |}.
Solve All Obligations with done.
End Types.

(** The methods of those types that the generated code calls, with what they
    read.  [Range] is the order a [range] over a map visits it in. *)
Class ExtOps `{ExtTypes} : Type := {
  view_JSON : xJSON → Rd Cell RawJSON;
  view_ObjectMeta : xObjectMeta → Rd Cell ObjectMeta;
  view_ListMeta : xListMeta → Rd Cell XListMeta;
  view_LabelSelector : xLabelSelector → Rd Cell LabelSelector;
  view_Condition : xCondition → Rd Cell Condition;
  view_SecretKeySelector : xSecretKeySelector → Rd Cell SecretKeySelector;
  JSON_DeepCopyInto : xJSON → Mem Cell xJSON;
  JSON_DeepCopy : xJSON → Mem Cell pointer;
  ObjectMeta_DeepCopyInto : xObjectMeta → Mem Cell xObjectMeta;
  ListMeta_DeepCopyInto : xListMeta → Mem Cell xListMeta;
  LabelSelector_DeepCopyInto : xLabelSelector → Mem Cell xLabelSelector;
  Condition_DeepCopyInto : xCondition → Mem Cell xCondition;
  SecretKeySelector_DeepCopyInto : xSecretKeySelector → Mem Cell xSecretKeySelector;
  Time_DeepCopyInto : Time → Mem Cell Time;
  Time_DeepCopy : pointer → Mem Cell pointer;
  Range : gmap string xJSON → list (string * xJSON) }.

(** Their documented behaviour: each is a deep copy of its receiver.  A
    [metav1.Time] has no references, as the time package never writes behind
    one. *)
Class ExtLaws `{ExtOps} : Prop := {
  #[global] local_JSON :: ∀ x, Local (view_JSON x);
  #[global] local_ObjectMeta :: ∀ x, Local (view_ObjectMeta x);
  #[global] local_ListMeta :: ∀ x, Local (view_ListMeta x);
  #[global] local_LabelSelector :: ∀ x, Local (view_LabelSelector x);
  #[global] local_Condition :: ∀ x, Local (view_Condition x);
  #[global] local_SecretKeySelector :: ∀ x, Local (view_SecretKeySelector x);
  #[global] copies_JSON :: Copies view_JSON view_JSON JSON_DeepCopyInto;
  #[global] copies_JSON_new :: Copies view_JSON (view_ptr view_JSON) JSON_DeepCopy;
  #[global] copies_ObjectMeta :: Copies view_ObjectMeta view_ObjectMeta ObjectMeta_DeepCopyInto;
  #[global] copies_ListMeta :: Copies view_ListMeta view_ListMeta ListMeta_DeepCopyInto;
  #[global] copies_LabelSelector :: Copies view_LabelSelector view_LabelSelector LabelSelector_DeepCopyInto;
  #[global] copies_Condition :: Copies view_Condition view_Condition Condition_DeepCopyInto;
  #[global] copies_SecretKeySelector ::
    Copies view_SecretKeySelector view_SecretKeySelector SecretKeySelector_DeepCopyInto;
  #[global] copies_Time :: Copies view_flat view_flat Time_DeepCopyInto;
  #[global] copies_Time_new ::
    Copies (view_ptr (view_flat (V := Time))) (view_ptr (view_flat (V := Time))) Time_DeepCopy;
  Range_perm : ∀ m, Range m ≡ₚ map_to_list m }.

Section DeepCopy.
Context `{ExtOps}.

(** ** Reading the structs through the heap *)

Definition view_entry (kv : string * xJSON) : Rd Cell (string * RawJSON) :=
  v ← view_JSON kv.2; mret (kv.1, v).
Definition view_Params (l : loc) : Rd Cell (gmap string RawJSON) :=
  m ← rd_cell (C := gmap string xJSON) l; kvs ← mapM view_entry (map_to_list m); mret (list_to_map kvs).

Definition view_Action (a : Action_of raw) : Rd Cell (Action_of deep) :=
  ps ← view_nilable view_Params (ac_Params a);
  mret (mkAction (m := deep) (ac_Plugin a) ps (ac_OnFailure a) (ac_RequiresApproval a)).

Definition view_Observe (o : Observe_of raw) : Rd Cell (Observe_of deep) :=
  ref ← view_nilable (view_ptr view_SecretKeySelector) (ob_AuthSecretRef o);
  mret (mkObserve_ (m := deep) (ob_Source o) (ob_Endpoint o) (ob_Query o) (ob_Threshold o) (ob_Operator o)
          (ob_Duration o) (ob_PollInterval o) ref).

Definition view_Target (t : Target_of raw) : Rd Cell (Target_of deep) :=
  sel ← view_LabelSelector (tg_Selector t);
  ks ← view_nilable (view_slice (view_flat (V := TargetKind))) (tg_Kinds t);
  mx ← view_nilable (view_ptr (view_flat (V := Z))) (tg_MaxResources t);
  mret (mkTarget_ (m := deep) sel ks mx).

Definition view_PolicySpec (s : PolicySpec_of raw) : Rd Cell (PolicySpec_of deep) :=
  t ← view_Target (ps_Target s);
  o ← view_Observe (ps_Observe s);
  acts ← view_nilable (view_slice view_Action) (ps_Actions s);
  mx ← view_nilable (view_ptr (view_flat (V := Z))) (ps_MaxTriggersPerHour s);
  au ← view_nilable (view_ptr (view_flat (V := AuditSpec))) (ps_Audit s);
  mret (mkPolicySpec_ (m := deep) t o acts (ps_Cooldown s) mx (ps_AllowIrreversible s)
          (ps_ApprovalTimeout s) au).

Definition view_PolicyStatus (s : PolicyStatus_of raw) : Rd Cell (PolicyStatus_of deep) :=
  ev ← view_nilable (view_ptr (view_flat (V := Time))) (pt_LastEvaluatedAt s);
  tr ← view_nilable (view_ptr (view_flat (V := Time))) (pt_LastTriggeredAt s);
  cs ← view_nilable (view_slice view_Condition) (pt_Conditions s);
  mret (mkPolicyStatus_ (m := deep) (pt_State s) ev tr (pt_TriggerCount s) (pt_CurrentMetricValue s)
          (pt_PendingGateRef s) cs).

Definition view_Policy (p : Policy_of raw) : Rd Cell (Policy_of deep) :=
  om ← view_ObjectMeta (po_ObjectMeta p);
  sp ← view_PolicySpec (po_Spec p);
  st ← view_PolicyStatus (po_Status p);
  mret (mkPolicy_ (m := deep) (po_TypeMeta p) om sp st).

Definition view_PolicyList (l : PolicyList_of raw) : Rd Cell (PolicyList_of deep) :=
  lm ← view_ListMeta (pl_ListMeta l);
  xs ← view_nilable (view_slice view_Policy) (pl_Items l);
  mret (mkPolicyList_ (m := deep) (pl_TypeMeta l) lm xs).

Definition view_Gate (g : Gate_of raw) : Rd Cell (Gate_of deep) :=
  pp ← view_nilable (view_slice (view_flat (V := string))) (gt_PendingPlugins g);
  ts ← view_nilable (view_slice (view_flat (V := AuditTarget))) (gt_Targets g);
  ex ← view_flat (gt_ExpiresAt g);
  da ← view_nilable (view_ptr (view_flat (V := Time))) (gt_DecidedAt g);
  mret (mkGate_ (m := deep) (gt_ActionIndex g) pp ts ex (gt_Decision g) (gt_DecidedBy g) da (gt_Reason g)).

Definition view_Record (r : Record_of raw) : Rd Cell (Record_of deep) :=
  ds ← view_nilable (view_ptr view_JSON) (ar_Details r);
  mret (mkRecord_ (m := deep) (ar_Index r) (ar_ActionID r) (ar_Plugin r) (ar_Target r) (ar_Status r)
          (ar_Message r) (ar_Reversible r) ds).

Definition view_AuditSpec (s : AuditSpec_of raw) : Rd Cell (AuditSpec_of deep) :=
  t ← view_flat (as_TriggeredAt s);
  rs ← view_nilable (view_slice view_Record) (as_Actions s);
  g ← view_nilable (view_ptr view_Gate) (as_Gate s);
  mret (mkAuditSpec_ (m := deep) (as_PolicyRef s) (as_PolicyUID s) t (as_MetricValue s) rs
          (as_RevertRequested s) g).

Definition view_AuditStatus (s : AuditStatus_of raw) : Rd Cell (AuditStatus_of deep) :=
  rv ← view_nilable (view_ptr (view_flat (V := Time))) (st_RevertedAt s);
  rr ← view_nilable (view_slice (view_flat (V := RevertResult))) (st_RevertResults s);
  rs ← view_nilable (view_ptr (view_flat (V := Time))) (st_ResumedAt s);
  cs ← view_nilable (view_slice view_Condition) (st_Conditions s);
  mret (mkAuditStatus_ (m := deep) (st_Reverted s) rv rr (st_ApprovalPhase s) rs cs).

Definition view_Audit (a : Audit_of raw) : Rd Cell (Audit_of deep) :=
  om ← view_ObjectMeta (au_ObjectMeta a);
  sp ← view_AuditSpec (au_Spec a);
  st ← view_AuditStatus (au_Status a);
  mret (mkAudit_ (m := deep) (au_TypeMeta a) om sp st).

Definition view_AuditList (l : AuditList_of raw) : Rd Cell (AuditList_of deep) :=
  lm ← view_ListMeta (al_ListMeta l);
  xs ← view_nilable (view_slice view_Audit) (al_Items l);
  mret (mkAuditList_ (m := deep) (al_TypeMeta l) lm xs).
(** ** The generated methods *)

(** The block for [Params]: [for key, val := range *in { ( *out)[key] = *val.DeepCopy() }]. *)
Definition entry_copy (kv : string * xJSON) : Mem Cell (string * xJSON) :=
  q ← JSON_DeepCopy kv.2; val ← load q; mret (kv.1, val).
Definition params_copy (l : loc) : Mem Cell loc :=
  m ← load_cell (C := gmap string xJSON) l;
  kvs ← mapM entry_copy (Range m);
  new_cell (C := gmap string xJSON) (list_to_map kvs).
Definition Action_DeepCopyInto (in_ : Action_of raw) : Mem Cell (Action_of raw) :=
  params ← copy_nilable params_copy (ac_Params in_);
  mret (mkAction (m := raw) (ac_Plugin in_) params (ac_OnFailure in_) (ac_RequiresApproval in_)).
Definition Action_DeepCopy := deep_copy Action_DeepCopyInto.

Definition AuditSpec_DeepCopyInto (in_ : AuditSpec) : Mem Cell AuditSpec := mret in_.
Definition AuditSpec_DeepCopy := deep_copy AuditSpec_DeepCopyInto.

Definition AuditTarget_DeepCopyInto (in_ : AuditTarget) : Mem Cell AuditTarget := mret in_.
Definition AuditTarget_DeepCopy := deep_copy AuditTarget_DeepCopyInto.

Definition RevertResult_DeepCopyInto (in_ : RevertResult) : Mem Cell RevertResult := mret in_.
Definition RevertResult_DeepCopy := deep_copy RevertResult_DeepCopyInto.

Definition TargetKind_DeepCopyInto (in_ : TargetKind) : Mem Cell TargetKind := mret in_.
Definition TargetKind_DeepCopy := deep_copy TargetKind_DeepCopyInto.

Definition Observe_DeepCopyInto (in_ : Observe_of raw) : Mem Cell (Observe_of raw) :=
  ref ← copy_nilable (copy_ptr SecretKeySelector_DeepCopyInto) (ob_AuthSecretRef in_);
  mret (mkObserve_ (m := raw) (ob_Source in_) (ob_Endpoint in_) (ob_Query in_) (ob_Threshold in_)
          (ob_Operator in_) (ob_Duration in_) (ob_PollInterval in_) ref).
Definition Observe_DeepCopy := deep_copy Observe_DeepCopyInto.

Definition Target_DeepCopyInto (in_ : Target_of raw) : Mem Cell (Target_of raw) :=
  sel ← LabelSelector_DeepCopyInto (tg_Selector in_);
  kinds ← copy_nilable (copy_slice (copy_flat (V := TargetKind))) (tg_Kinds in_);
  maxr ← copy_nilable (copy_ptr (copy_flat (V := Z))) (tg_MaxResources in_);
  mret (mkTarget_ (m := raw) sel kinds maxr).
Definition Target_DeepCopy := deep_copy Target_DeepCopyInto.

Definition ReactivePolicySpec_DeepCopyInto (in_ : PolicySpec_of raw) : Mem Cell (PolicySpec_of raw) :=
  target ← Target_DeepCopyInto (ps_Target in_);
  observe ← Observe_DeepCopyInto (ps_Observe in_);
  actions ← copy_nilable (copy_slice Action_DeepCopyInto) (ps_Actions in_);
  maxt ← copy_nilable (copy_ptr (copy_flat (V := Z))) (ps_MaxTriggersPerHour in_);
  audit ← copy_nilable (copy_ptr (copy_flat (V := AuditSpec))) (ps_Audit in_);
  mret (mkPolicySpec_ (m := raw) target observe actions (ps_Cooldown in_) maxt (ps_AllowIrreversible in_)
          (ps_ApprovalTimeout in_) audit).
Definition ReactivePolicySpec_DeepCopy := deep_copy ReactivePolicySpec_DeepCopyInto.

Definition ReactivePolicyStatus_DeepCopyInto (in_ : PolicyStatus_of raw) : Mem Cell (PolicyStatus_of raw) :=
  evaluated ← copy_nilable Time_DeepCopy (pt_LastEvaluatedAt in_);
  triggered ← copy_nilable Time_DeepCopy (pt_LastTriggeredAt in_);
  conditions ← copy_nilable (copy_slice Condition_DeepCopyInto) (pt_Conditions in_);
  mret (mkPolicyStatus_ (m := raw) (pt_State in_) evaluated triggered (pt_TriggerCount in_)
          (pt_CurrentMetricValue in_) (pt_PendingGateRef in_) conditions).
Definition ReactivePolicyStatus_DeepCopy := deep_copy ReactivePolicyStatus_DeepCopyInto.

Definition ReactivePolicy_DeepCopyInto (in_ : Policy_of raw) : Mem Cell (Policy_of raw) :=
  meta ← ObjectMeta_DeepCopyInto (po_ObjectMeta in_);
  spec ← ReactivePolicySpec_DeepCopyInto (po_Spec in_);
  status ← ReactivePolicyStatus_DeepCopyInto (po_Status in_);
  mret (mkPolicy_ (m := raw) (po_TypeMeta in_) meta spec status).
Definition ReactivePolicy_DeepCopy := deep_copy ReactivePolicy_DeepCopyInto.

Definition ReactivePolicyList_DeepCopyInto (in_ : PolicyList_of raw) : Mem Cell (PolicyList_of raw) :=
  meta ← ListMeta_DeepCopyInto (pl_ListMeta in_);
  items ← copy_nilable (copy_slice ReactivePolicy_DeepCopyInto) (pl_Items in_);
  mret (mkPolicyList_ (m := raw) (pl_TypeMeta in_) meta items).
Definition ReactivePolicyList_DeepCopy := deep_copy ReactivePolicyList_DeepCopyInto.

Definition ApprovalGate_DeepCopyInto (in_ : Gate_of raw) : Mem Cell (Gate_of raw) :=
  plugins ← copy_nilable (copy_slice (copy_flat (V := string))) (gt_PendingPlugins in_);
  targets ← copy_nilable (copy_slice (copy_flat (V := AuditTarget))) (gt_Targets in_);
  expires ← Time_DeepCopyInto (gt_ExpiresAt in_);
  decided ← copy_nilable Time_DeepCopy (gt_DecidedAt in_);
  mret (mkGate_ (m := raw) (gt_ActionIndex in_) plugins targets expires (gt_Decision in_) (gt_DecidedBy in_)
          decided (gt_Reason in_)).
Definition ApprovalGate_DeepCopy := deep_copy ApprovalGate_DeepCopyInto.

Definition ActionRecord_DeepCopyInto (in_ : Record_of raw) : Mem Cell (Record_of raw) :=
  details ← copy_nilable (copy_ptr JSON_DeepCopyInto) (ar_Details in_);
  mret (mkRecord_ (m := raw) (ar_Index in_) (ar_ActionID in_) (ar_Plugin in_) (ar_Target in_)
          (ar_Status in_) (ar_Message in_) (ar_Reversible in_) details).
Definition ActionRecord_DeepCopy := deep_copy ActionRecord_DeepCopyInto.

Definition ActionAuditSpec_DeepCopyInto (in_ : AuditSpec_of raw) : Mem Cell (AuditSpec_of raw) :=
  triggered ← Time_DeepCopyInto (as_TriggeredAt in_);
  actions ← copy_nilable (copy_slice ActionRecord_DeepCopyInto) (as_Actions in_);
  gate ← copy_nilable (copy_ptr ApprovalGate_DeepCopyInto) (as_Gate in_);
  mret (mkAuditSpec_ (m := raw) (as_PolicyRef in_) (as_PolicyUID in_) triggered (as_MetricValue in_)
          actions (as_RevertRequested in_) gate).
Definition ActionAuditSpec_DeepCopy := deep_copy ActionAuditSpec_DeepCopyInto.

Definition ActionAuditStatus_DeepCopyInto (in_ : AuditStatus_of raw) : Mem Cell (AuditStatus_of raw) :=
  reverted ← copy_nilable Time_DeepCopy (st_RevertedAt in_);
  results ← copy_nilable (copy_slice (copy_flat (V := RevertResult))) (st_RevertResults in_);
  resumed ← copy_nilable Time_DeepCopy (st_ResumedAt in_);
  conditions ← copy_nilable (copy_slice Condition_DeepCopyInto) (st_Conditions in_);
  mret (mkAuditStatus_ (m := raw) (st_Reverted in_) reverted results (st_ApprovalPhase in_) resumed conditions).
Definition ActionAuditStatus_DeepCopy := deep_copy ActionAuditStatus_DeepCopyInto.

Definition ActionAudit_DeepCopyInto (in_ : Audit_of raw) : Mem Cell (Audit_of raw) :=
  meta ← ObjectMeta_DeepCopyInto (au_ObjectMeta in_);
  spec ← ActionAuditSpec_DeepCopyInto (au_Spec in_);
  status ← ActionAuditStatus_DeepCopyInto (au_Status in_);
  mret (mkAudit_ (m := raw) (au_TypeMeta in_) meta spec status).
Definition ActionAudit_DeepCopy := deep_copy ActionAudit_DeepCopyInto.

Definition ActionAuditList_DeepCopyInto (in_ : AuditList_of raw) : Mem Cell (AuditList_of raw) :=
  meta ← ListMeta_DeepCopyInto (al_ListMeta in_);
  items ← copy_nilable (copy_slice ActionAudit_DeepCopyInto) (al_Items in_);
  mret (mkAuditList_ (m := raw) (al_TypeMeta in_) meta items).
Definition ActionAuditList_DeepCopy := deep_copy ActionAuditList_DeepCopyInto.

(** A [runtime.Object]: nil, or a pointer with its dynamic type; the pointer in
    it may itself be nil. *)
Inductive Object : Type :=
| ObjActionAudit (p : option pointer)
| ObjActionAuditList (p : option pointer)
| ObjReactivePolicy (p : option pointer)
| ObjReactivePolicyList (p : option pointer).

(** [if c := in.DeepCopy(); c != nil { return c }; return nil]. *)
Definition as_object (mk : option pointer → Object) (m : Mem Cell (option pointer)) : Mem Cell (option Object) :=
  c ← m; mret (match c with Some p => Some (mk (Some p)) | None => None end).
Definition ActionAudit_DeepCopyObject in_ := as_object ObjActionAudit (ActionAudit_DeepCopy in_).
Definition ActionAuditList_DeepCopyObject in_ := as_object ObjActionAuditList (ActionAuditList_DeepCopy in_).
Definition ReactivePolicy_DeepCopyObject in_ := as_object ObjReactivePolicy (ReactivePolicy_DeepCopy in_).
Definition ReactivePolicyList_DeepCopyObject in_ :=
  as_object ObjReactivePolicyList (ReactivePolicyList_DeepCopy in_).

(** [runtime.Object.DeepCopyObject], dispatched on the dynamic type. *)
Definition DeepCopyObject (o : Object) : Mem Cell (option Object) :=
  match o with
  | ObjActionAudit p => ActionAudit_DeepCopyObject p
  | ObjActionAuditList p => ActionAuditList_DeepCopyObject p
  | ObjReactivePolicy p => ReactivePolicy_DeepCopyObject p
  | ObjReactivePolicyList p => ReactivePolicyList_DeepCopyObject p
  end.

(** What an object says: its content, if any. *)
Inductive Content : Type :=
| CNil
| CtActionAudit (v : Audit_of deep)
| CtActionAuditList (v : AuditList_of deep)
| CtReactivePolicy (v : Policy_of deep)
| CtReactivePolicyList (v : PolicyList_of deep).
Definition content {V : Type} (mk : V → Content) (o : option V) : Content :=
  match o with Some v => mk v | None => CNil end.
Definition view_Object (o : Object) : Rd Cell Content :=
  match o with
  | ObjActionAudit p => v ← view_nilable (view_ptr view_Audit) p; mret (content CtActionAudit v)
  | ObjActionAuditList p => v ← view_nilable (view_ptr view_AuditList) p; mret (content CtActionAuditList v)
  | ObjReactivePolicy p => v ← view_nilable (view_ptr view_Policy) p; mret (content CtReactivePolicy v)
  | ObjReactivePolicyList p => v ← view_nilable (view_ptr view_PolicyList) p; mret (content CtReactivePolicyList v)
  end.
Definition view_Interface (o : option Object) : Rd Cell Content :=
  match o with Some o => view_Object o | None => mret CNil end.

(** ** The approval webhook's copy *)

(** [patched.Spec.Gate.DecidedBy = v], [patched.Spec.Gate.DecidedAt = v]. *)
Definition with_gate (patched : pointer) (f : Gate_of raw → Gate_of raw) : Mem Cell unit :=
  a ← load (A := Audit_of raw) patched;
  match as_Gate (m := raw) (au_Spec a) with
  | None => fault
  | Some g => gate ← load (A := Gate_of raw) g; store g (f gate)
  end.
Definition put_DecidedBy (who : string) (g : Gate_of raw) : Gate_of raw :=
  mkGate_ (m := raw) (gt_ActionIndex g) (gt_PendingPlugins g) (gt_Targets g) (gt_ExpiresAt g) (gt_Decision g)
    who (gt_DecidedAt g) (gt_Reason g).
Definition put_DecidedAt (t : pointer) (g : Gate_of raw) : Gate_of raw :=
  mkGate_ (m := raw) (gt_ActionIndex g) (gt_PendingPlugins g) (gt_Targets g) (gt_ExpiresAt g) (gt_Decision g)
    (gt_DecidedBy g) (Some t) (gt_Reason g).

(** [ActionAuditApprovalHandler.Handle], from the copy of the decoded object to
    the object it marshals; [t] is the clock's reading. *)
Definition stamp (newAudit : pointer) (requester : string) (t : Time) : Mem Cell pointer :=
  patched ← ActionAudit_DeepCopy (Some newAudit);
  match patched with
  | None => fault
  | Some patched =>
      now ← new_ptr t;
      _ ← with_gate patched (put_DecidedBy requester);
      _ ← with_gate patched (put_DecidedAt now);
      mret patched
  end.
End DeepCopy.

(** ** The structs as [Api] has them: nil and empty slices are one *)

Section Values.
Context `{ExtTypes}.
Definition value_Record (r : Record_of deep) : ActionRecord :=
  mkRecord (ar_Index r) (ar_ActionID r) (ar_Plugin r) (ar_Target r) (ar_Status r) (ar_Message r)
    (ar_Reversible r) (ar_Details r).
Definition value_Gate (g : Gate_of deep) : ApprovalGate :=
  mkGate (gt_ActionIndex g) (default [] (gt_PendingPlugins g)) (default [] (gt_Targets g)) (gt_ExpiresAt g)
    (gt_Decision g) (gt_DecidedBy g) (gt_DecidedAt g) (gt_Reason g).
Definition value_AuditSpec (s : AuditSpec_of deep) : ActionAuditSpec :=
  mkAuditRecordSpec (as_PolicyRef s) (as_PolicyUID s) (as_TriggeredAt s) (as_MetricValue s)
    (value_Record <$> default [] (as_Actions s)) (as_RevertRequested s) (value_Gate <$> as_Gate s).
Definition value_AuditStatus (s : AuditStatus_of deep) : ActionAuditStatus :=
  mkAuditStatus (st_Reverted s) (st_RevertedAt s) (default [] (st_RevertResults s)) (st_ApprovalPhase s)
    (st_ResumedAt s) (default [] (st_Conditions s)).
Definition value_Audit (a : Audit_of deep) : ActionAudit :=
  mkAudit (au_ObjectMeta a) (value_AuditSpec (au_Spec a)) (value_AuditStatus (au_Status a)).
End Values.
