(* ===== verification/ActionTypes.v ===== *)
(** * The plugin contract: internal/action/interface.go, clientctx.go, params.go, sink.go

    The data a plugin exchanges with the executor, the [Action] interface as a
    record of operations over the world [W] it acts on, and the audit sink's
    events and interface. *)

From S2P Require Import Prelude GoLib GoTime Api.

(** ** action.Target, Result, ExecuteInput *)

Record Target : Type := mkTarget {
  APIVersion : string; Kind : string; TargetName : string; TargetNamespace : string }.

#[export] Instance Target_eq_dec : EqDecision Target.
Proof. solve_decision. Defined.

(** One backendRef's weight before it was overridden (plugins/mesh-shift). *)
Record backendChange : Type := mkChange {
  Rule : Z; Ref : Z; Weight : Z; Had : bool }.

(** Go values of dynamic type ([any]) that reach templates and [Details]. *)
Unset Elimination Schemes.
Inductive any : Type :=
| ANil
| ABool (b : bool)
| AString (s : string)
| AInt64 (z : Z)
| AFloat (f : float64)
| ASlice (l : list any)
| AMap (m : gmap string any)
| ATarget (t : Target)
| AChanges (l : list backendChange).
Set Elimination Schemes.

Definition ResultStatus : Type := string.
Definition StatusSucceeded : ResultStatus := "Succeeded".
Definition StatusFailed : ResultStatus := "Failed".
Definition StatusSkipped : ResultStatus := "Skipped".

(** [action.Result].  [Details] is a nil-able map. *)
Record Result : Type := mkResult {
  ActionID : string;
  PluginName : string;
  ResTarget : Target;
  Timestamp : Time;
  Status : ResultStatus;
  Message : string;
  Details : option (gmap string any) }.

Section ResultUpdates.
Variable r : Result.
Definition set_PluginName (x : string) : Result :=
  mkResult (ActionID r) x (ResTarget r) (Timestamp r) (Status r) (Message r) (Details r).
Definition set_ResTarget (x : Target) : Result :=
  mkResult (ActionID r) (PluginName r) x (Timestamp r) (Status r) (Message r) (Details r).
Definition set_Timestamp (x : Time) : Result :=
  mkResult (ActionID r) (PluginName r) (ResTarget r) x (Status r) (Message r) (Details r).
Definition set_Status (x : ResultStatus) : Result :=
  mkResult (ActionID r) (PluginName r) (ResTarget r) (Timestamp r) x (Message r) (Details r).
Definition set_Message (x : string) : Result :=
  mkResult (ActionID r) (PluginName r) (ResTarget r) (Timestamp r) (Status r) x (Details r).
Definition set_Details (x : option (gmap string any)) : Result :=
  mkResult (ActionID r) (PluginName r) (ResTarget r) (Timestamp r) (Status r) (Message r) x.
End ResultUpdates.

(** [Params map[string]runtime.RawExtension], nil-able. *)
Definition Params : Type := option (gmap string RawJSON).

(** [ParamsFromCRD]: nil stays nil, every value keeps its raw bytes. *)
Definition ParamsFromCRD (inp : option (gmap string RawJSON)) : Params :=
  match inp with
  | None => None
  | Some m => Some ((λ raw : RawJSON, raw) <$> m)
  end.

Record ExecuteInput : Type := mkInput {
  in_Target : Target;
  in_Params : Params;
  in_PolicyName : string;
  in_Namespace : string;
  in_MetricValue : string;
  in_Timestamp : Time;
  in_TemplateData : gmap string any }.

(** ** The client in the context (clientctx.go)

    A context either carries the Kubernetes client or it does not. *)
Inductive Context : Type := Background | WithValueClient.
Definition WithClient (_ : Context) : Context := WithValueClient.
(** [ClientFrom(ctx) != nil]. *)
Definition ClientFrom (ctx : Context) : bool :=
  match ctx with Background => false | WithValueClient => true end.

(** ** RBAC rules *)

Record PolicyRule : Type := mkRule {
  APIGroups : list string; Resources : list string; Verbs : list string }.

(** ** The [Action] interface

    [Execute] and [Reverse] act on the world; the metadata is pure. *)
Record Action (W : Type) : Type := mkAction {
  pl_Name : string;
  pl_Description : string;
  pl_Validate : Params → option error;
  pl_Execute : Context → ExecuteInput → W → (Result * option error) * W;
  pl_Reverse : Context → Result → W → option error * W;
  pl_IsReversible : bool;
  pl_RequiredPermissions : list PolicyRule }.
Arguments mkAction {W}.
Arguments pl_Name {W} _.
Arguments pl_Description {W} _.
Arguments pl_Validate {W} _.
Arguments pl_Execute {W} _.
Arguments pl_Reverse {W} _.
Arguments pl_IsReversible {W} _.
Arguments pl_RequiredPermissions {W} _.

(** The sentinel errors' texts. *)
Definition sentinel_msg (s : sentinel) : string :=
  match s with
  | NotFound => "not found"
  | Conflict => "conflict"
  | ErrNotReversible => "action is not reversible"
  | ErrTargetNotFound => "target not found"
  | ErrInvalidParams => "invalid params"
  | ErrPermanent => "permanent error; do not retry"
  | ErrNoData => "prometheus query returned no data"
  | ErrBackpressure => "audit sink: queue full, dropping batch"
  end.

(** The sentinel itself, and [fmt.Errorf("%w: text", sentinel)]. *)
Definition sentinel_error (s : sentinel) : error := Err [s] (sentinel_msg s).
Definition sentinelf (s : sentinel) (text : string) : error :=
  Err [s] (sentinel_msg s ++s ": " ++s text).

(** ** The audit sink (internal/audit/sink/sink.go) *)

Record Event : Type := mkEvent {
  ev_AuditUID : string; ev_AuditName : string; ev_AuditNamespace : string;
  ev_PolicyRef : string; ev_PolicyUID : string; ev_TriggeredAt : Time;
  ev_MetricValue : string; ev_ActionIndex : Z; ev_ActionID : string; ev_Plugin : string;
  ev_TargetAPIVersion : string; ev_TargetKind : string; ev_TargetNamespace : string;
  ev_TargetName : string; ev_Status : string; ev_Message : string; ev_Reversible : bool;
  ev_DetailsJSON : option RawJSON }.

Record RevertEvent : Type := mkRevertEvent {
  re_AuditUID : string; re_AuditName : string; re_AuditNamespace : string;
  re_PolicyRef : string; re_ActionIndex : Z; re_Plugin : string; re_RevertedAt : Time;
  re_Status : string; re_Message : string }.

Record Sink (W : Type) : Type := mkSink {
  RecordTrigger : list Event → W → option error * W;
  RecordRevert : list RevertEvent → W → option error * W;
  SinkClose : W → option error * W }.
Arguments mkSink {W}.
Arguments RecordTrigger {W} _.
Arguments RecordRevert {W} _.
Arguments SinkClose {W} _.

(** [Noop] accepts everything and stores nothing. *)
Definition Noop (W : Type) : Sink W :=
  mkSink (λ _ w, (None, w)) (λ _ w, (None, w)) (λ w, (None, w)).
