(* ===== verification/Metrics.v ===== *)
(** * The operator's own metrics: internal/metrics/metrics.go

    The collectors live in the Prometheus client library, so the model keeps
    the operations issued on them, in order, and the set of watched policies
    the package itself maintains.  A counter's or a gauge's value is read off
    the operations. *)

From S2P Require Import Prelude GoLib GoTime.

Inductive Collector : Type :=
| EvaluationsTotal | ActionsTotal | ActionDurationSeconds | ActivePolicies
| TriggeredPoliciesTotal | RateLimitedTotal | PrometheusQueryErrorsTotal
| PluginValidationErrorsTotal | ApprovalGatesOpenedTotal | ApprovalDecisionsTotal
| ApprovalWaitSeconds | ApprovalGatesPending.

#[export] Instance Collector_eq_dec : EqDecision Collector.
Proof. solve_decision. Defined.

(** [init]: what [MustRegister] is given; it panics on a duplicate. *)
Definition registered : list Collector :=
  [EvaluationsTotal; ActionsTotal; ActionDurationSeconds; ActivePolicies; TriggeredPoliciesTotal; RateLimitedTotal;
   PrometheusQueryErrorsTotal; PluginValidationErrorsTotal; ApprovalGatesOpenedTotal; ApprovalDecisionsTotal;
   ApprovalWaitSeconds; ApprovalGatesPending].

(** Every collector is registered, once. *)
Lemma registered_all : NoDup registered ∧ ∀ c, c ∈ registered.
Proof. split; [by apply (bool_decide_eq_true_1 (NoDup registered))|]. intros c. destruct c; unfold registered; set_solver. Qed.

Definition ResultCrossed : string := "crossed".
Definition ResultWithin : string := "within".
Definition ResultError : string := "error".
Definition targetKindNone : string := "none".

Inductive MetricOp : Type :=
| MInc (c : Collector) (labels : list string)
| MDec (c : Collector) (labels : list string)
| MSet (c : Collector) (labels : list string) (v : float64)
| MObserve (c : Collector) (labels : list string) (v : float64).

Record MetricState : Type := mkMetrics {
  tracked : gmap string (gset string);
  metric_ops : list MetricOp }.

Definition emit (ops : list MetricOp) (m : MetricState) : MetricState :=
  mkMetrics (tracked m) (metric_ops m ++ ops).

Definition RecordEvaluation (policy namespace result : string) : MetricState → MetricState :=
  emit [MInc EvaluationsTotal [policy; namespace; result]].

Definition RecordAction (plugin targetKind result : string) : MetricState → MetricState :=
  let targetKind := if decide (targetKind = EmptyString) then targetKindNone else targetKind in
  emit [MInc ActionsTotal [plugin; targetKind; result]].

Definition ObserveActionDuration (plugin : string) (seconds : float64) : MetricState → MetricState :=
  emit [MObserve ActionDurationSeconds [plugin] seconds].

Definition RecordTriggerMetric (namespace : string) : MetricState → MetricState :=
  emit [MInc TriggeredPoliciesTotal [namespace]].

Definition RecordRateLimited (namespace : string) : MetricState → MetricState :=
  emit [MInc RateLimitedTotal [namespace]].

Definition RecordQueryError : MetricState → MetricState :=
  emit [MInc PrometheusQueryErrorsTotal []].

Definition RecordGateOpened (namespace : string) : MetricState → MetricState :=
  emit [MInc ApprovalGatesOpenedTotal [namespace]; MInc ApprovalGatesPending [namespace]].

Definition RecordGateResolved (namespace outcome : string) (waited : float64)
  : MetricState → MetricState :=
  emit [MInc ApprovalDecisionsTotal [namespace; outcome];
        MObserve ApprovalWaitSeconds [outcome] waited;
        MDec ApprovalGatesPending [namespace]].

Definition RecordValidationError (plugin : string) : MetricState → MetricState :=
  emit [MInc PluginValidationErrorsTotal [plugin]].

(** A missing namespace entry is Go's nil map. *)
Definition tracked_in (m : MetricState) (namespace : string) : gset string :=
  default ∅ (tracked m !! namespace).

Definition TrackPolicy (namespace name : string) (m : MetricState) : MetricState :=
  let s := {[name]} ∪ tracked_in m namespace in
  mkMetrics (<[namespace := s]> (tracked m))
    (metric_ops m ++ [MSet ActivePolicies [namespace] (float_of_Z (Z.of_nat (size s)))]).

Definition UntrackPolicy (namespace name : string) (m : MetricState) : MetricState :=
  match tracked m !! namespace with
  | None => m
  | Some s0 =>
      let s := s0 ∖ {[name]} in
      mkMetrics (<[namespace := s]> (tracked m))
        (metric_ops m ++ [MSet ActivePolicies [namespace] (float_of_Z (Z.of_nat (size s)))])
  end.

(** ** Reading a gauge: the value set last, and how often Inc exceeds Dec since. *)

Definition op_targets (c : Collector) (ls : list string) (o : MetricOp) : Prop :=
  match o with
  | MInc c' ls' | MDec c' ls' | MSet c' ls' _ | MObserve c' ls' _ => c' = c ∧ ls' = ls
  end.
#[export] Instance op_targets_dec c ls o : Decision (op_targets c ls o).
Proof. destruct o; simpl; apply _. Defined.

(** The last [Set] of a gauge. *)
Definition last_set (c : Collector) (ls : list string) (ops : list MetricOp) : option float64 :=
  foldl (λ acc o, match o with
                  | MSet c' ls' v => if decide (c' = c ∧ ls' = ls) then Some v else acc
                  | _ => acc
                  end) None ops.

(** Increments minus decrements: the value of a gauge nobody sets, from 0. *)
Definition net_inc (c : Collector) (ls : list string) (ops : list MetricOp) : Z :=
  foldr (λ o acc, match o with
                  | MInc c' ls' => if decide (c' = c ∧ ls' = ls) then acc + 1 else acc
                  | MDec c' ls' => if decide (c' = c ∧ ls' = ls) then acc - 1 else acc
                  | _ => acc
                  end) 0 ops.

Lemma last_set_snoc c ls ops o :
  last_set c ls (ops ++ [o]) =
  match o with
  | MSet c' ls' v => if decide (c' = c ∧ ls' = ls) then Some v else last_set c ls ops
  | _ => last_set c ls ops
  end.
Proof. unfold last_set. rewrite foldl_app. by destruct o. Qed.

Lemma net_inc_app c ls l k : net_inc c ls (l ++ k) = net_inc c ls l + net_inc c ls k.
Proof.
  induction l as [|o l IH]; [done|].
  simpl. destruct o; simpl; repeat case_decide; lia.
Qed.
