(* ===== verification/Effects.v ===== *)
(** * The operator's effects: state, environment, log, monad

    A handler of the operator runs in a state monad over [St W]: the world
    [W] outside the process (API server, clock, metric source, plugins'
    targets), the process's own memory (crossing times, rate-limit cache,
    metrics) and the log of every call the handler made to the outside, with
    its answer.  What the outside does is the class [Cluster W]: theorems
    hold for every instance, so every answer, every failure and every change
    another actor makes between two calls is covered. *)

From S2P Require Import Prelude GoLib GoTime Api ActionTypes Metrics.

(** ** The environment *)

(** The controller-runtime client, the clock, and the two apimachinery
    helpers the controllers call.  A call may change the world and may fail. *)
Class Cluster (W : Type) : Type := {
  sys_Now : W → Time * W;
  cl_GetPolicy : NamespacedName → W → (error + ReactivePolicy) * W;
  cl_GetAudit : NamespacedName → W → (error + ActionAudit) * W;
  (** List of audits in a namespace with one label. *)
  cl_ListAudits : string → string → string → W → (error + list ActionAudit) * W;
  (** Unstructured list: namespace, apiVersion, list kind, selector; the items' namespaces and names. *)
  Selector_ : Type;
  LabelSelectorAsSelector : LabelSelector → error + Selector_;
  cl_ListObjects : string → string → string → Selector_ → W → (error + list (string * string)) * W;
  (** Writes return the object as the server stored it. *)
  cl_CreateAudit : ActionAudit → W → (error + ActionAudit) * W;
  cl_UpdateAudit : ActionAudit → W → (error + ActionAudit) * W;
  cl_StatusUpdateAudit : ActionAudit → W → (error + ActionAudit) * W;
  cl_StatusUpdatePolicy : ReactivePolicy → W → option error * W;
  cl_DeleteAudit : ActionAudit → W → option error * W;
  (** [meta.SetStatusCondition]: stamps the transition time, hence the world. *)
  meta_SetStatusCondition : list Condition → Condition → W → list Condition * W }.

(** What [meta.SetStatusCondition] documents: afterwards the condition of that
    type carries the given status and reason, other types are untouched. *)
Definition FindStatusCondition (ty : string) (cs : list Condition) : option Condition :=
  head (filter (λ c, c_Type c = ty) cs).

Class ClusterConditions (W : Type) `{Cluster W} : Prop := {
  set_condition_same : ∀ cs c w, ∃ c',
    FindStatusCondition (c_Type c) (meta_SetStatusCondition cs c w).1 = Some c' ∧
    c_Status c' = c_Status c ∧ c_Reason c' = c_Reason c ∧ c_Message c' = c_Message c;
  set_condition_other : ∀ cs c w ty, ty ≠ c_Type c →
    FindStatusCondition ty (meta_SetStatusCondition cs c w).1 = FindStatusCondition ty cs }.

(** ** The log *)

Inductive IOEvent : Type :=
| IoNow (t : Time)
| IoGetPolicy (nn : NamespacedName) (r : error + ReactivePolicy)
| IoGetAudit (nn : NamespacedName) (r : error + ActionAudit)
| IoListAudits (ns label value : string) (r : error + list ActionAudit)
| IoListObjects (ns apiVersion kind : string) (r : error + list (string * string))
| IoCreateAudit (a : ActionAudit) (r : error + ActionAudit)
| IoUpdateAudit (a : ActionAudit) (r : error + ActionAudit)
| IoStatusUpdateAudit (a : ActionAudit) (r : error + ActionAudit)
| IoStatusUpdatePolicy (p : ReactivePolicy) (r : option error)
| IoDeleteAudit (a : ActionAudit) (r : option error)
| IoQuery (query : string) (r : error + float64)
| IoExecute (plugin : string) (inp : ExecuteInput) (r : Result * option error)
| IoReverse (plugin : string) (prev : Result) (r : option error)
| IoSinkTrigger (evs : list Event) (r : option error)
| IoSinkRevert (evs : list RevertEvent) (r : option error).

(** ** The process's memory *)

Record limiterEntry : Type := mkEntry { queriedAt : Time; entry_count : Z }.

Record Mem : Type := mkMem {
  crossedAt : gmap string Time;
  cache : gmap string limiterEntry;
  metrics : MetricState }.

Definition empty_mem : Mem := mkMem ∅ ∅ (mkMetrics ∅ []).

Record St (W : Type) : Type := mkSt { world : W; mem : Mem; log : list IOEvent }.
Arguments mkSt {W}.
Arguments world {W} _.
Arguments mem {W} _.
Arguments log {W} _.

(** ** The monad *)

Section Monad.
Context {W : Type}.

Definition M (A : Type) : Type := St W → outcome A * St W.

#[export] Instance M_ret : MRet M := λ A a st, (Val a, st).
#[export] Instance M_bind : MBind M := λ A B f m st,
  match m st with
  | (Val a, st') => f a st'
  | (Panic msg, st') => (Panic msg, st')
  end.

Definition panic {A} (msg : string) : M A := λ st, (Panic msg, st).

(** One call to the outside: the world answers, the call is logged. *)
Definition call {A} (op : W → A * W) (ev : A → IOEvent) : M A := λ st,
  let '(a, w) := op (world st) in (Val a, mkSt w (mem st) (log st ++ [ev a])).

(** A call whose only effect of interest is its answer (not logged). *)
Definition quiet {A} (op : W → A * W) : M A := λ st,
  let '(a, w) := op (world st) in (Val a, mkSt w (mem st) (log st)).

(** Read and replace a part of the memory. *)
Definition get_mem : M Mem := λ st, (Val (mem st), st).
Definition put_mem (m : Mem) : M () := λ st, (Val tt, mkSt (world st) m (log st)).
Definition modify_crossedAt (f : gmap string Time → gmap string Time) : M () := λ st,
  (Val tt, mkSt (world st) (mkMem (f (crossedAt (mem st))) (cache (mem st)) (metrics (mem st))) (log st)).
Definition modify_cache (f : gmap string limiterEntry → gmap string limiterEntry) : M () := λ st,
  (Val tt, mkSt (world st) (mkMem (crossedAt (mem st)) (f (cache (mem st))) (metrics (mem st))) (log st)).
Definition modify_metrics (f : MetricState → MetricState) : M () := λ st,
  (Val tt, mkSt (world st) (mkMem (crossedAt (mem st)) (cache (mem st)) (f (metrics (mem st)))) (log st)).

(** [for _, x := range l] threading an accumulator. *)
Fixpoint foldM {A B} (f : B → A → M B) (b : B) (l : list A) : M B :=
  match l with
  | [] => mret b
  | x :: l' => b' ← f b x; foldM f b' l'
  end.

End Monad.
Arguments M : clear implicits.

(** Notation for running a computation whose value is not used. *)
Notation "m ;;; k" := (mbind (λ _ : (), k) m)
  (at level 100, k at level 200, right associativity, only parsing) : go_scope.

(** ** The calls, each logged *)

Section Calls.
Context {W : Type} `{Cluster W}.

Definition Now : M W Time := call sys_Now IoNow.
Definition GetPolicy (nn : NamespacedName) : M W (error + ReactivePolicy) :=
  call (cl_GetPolicy nn) (IoGetPolicy nn).
Definition GetAudit (nn : NamespacedName) : M W (error + ActionAudit) :=
  call (cl_GetAudit nn) (IoGetAudit nn).
Definition ListAudits (ns label value : string) : M W (error + list ActionAudit) :=
  call (cl_ListAudits ns label value) (IoListAudits ns label value).
Definition ListObjects (ns apiVersion kind : string) (sel : Selector_)
  : M W (error + list (string * string)) :=
  call (cl_ListObjects ns apiVersion kind sel) (IoListObjects ns apiVersion kind).
Definition CreateAudit (a : ActionAudit) : M W (error + ActionAudit) :=
  call (cl_CreateAudit a) (IoCreateAudit a).
Definition UpdateAudit (a : ActionAudit) : M W (error + ActionAudit) :=
  call (cl_UpdateAudit a) (IoUpdateAudit a).
Definition StatusUpdateAudit (a : ActionAudit) : M W (error + ActionAudit) :=
  call (cl_StatusUpdateAudit a) (IoStatusUpdateAudit a).
Definition StatusUpdatePolicy (p : ReactivePolicy) : M W (option error) :=
  call (cl_StatusUpdatePolicy p) (IoStatusUpdatePolicy p).
Definition DeleteAudit (a : ActionAudit) : M W (option error) :=
  call (cl_DeleteAudit a) (IoDeleteAudit a).
Definition SetStatusCondition (cs : list Condition) (c : Condition) : M W (list Condition) :=
  quiet (meta_SetStatusCondition cs c).

(** [time.Until(t)]. *)
Definition Until (t : Time) : M W Duration := now ← Now; mret (time_Sub t now).

End Calls.

Section PluginCalls.
Context {W : Type}.

Definition CallExecute (p : Action W) (ctx : Context) (inp : ExecuteInput)
  : M W (Result * option error) :=
  call (pl_Execute p ctx inp) (IoExecute (pl_Name p) inp).
Definition CallReverse (p : Action W) (ctx : Context) (prev : Result) : M W (option error) :=
  call (pl_Reverse p ctx prev) (IoReverse (pl_Name p) prev).
Definition CallRecordTrigger (s : Sink W) (evs : list Event) : M W (option error) :=
  call (RecordTrigger s evs) (IoSinkTrigger evs).
Definition CallRecordRevert (s : Sink W) (evs : list RevertEvent) : M W (option error) :=
  call (RecordRevert s evs) (IoSinkRevert evs).

End PluginCalls.
