(* ===== verification/Logic.v ===== *)
(** * Reasoning about handlers

    [wp m st Q]: running [m] from [st] appends some [l] to the log and ends in
    an outcome and a state for which [Q] holds together with [l].  [Emits P m]
    is the effect typing "every call [m] makes to the outside satisfies [P]",
    proved by the structural rules and the tactic [emits]. *)

From S2P Require Import Prelude GoLib GoTime Api ActionTypes Metrics Effects.

Section WP.
Context {W : Type}.
Implicit Types st : St W.

Definition wp {A} (m : M W A) (st : St W) (Q : outcome A → list IOEvent → St W → Prop) : Prop :=
  ∃ l, log (m st).2 = log st ++ l ∧ Q (m st).1 l (m st).2.

Lemma wp_mono {A} (m : M W A) st (Q Q' : outcome A → list IOEvent → St W → Prop) :
  wp m st Q → (∀ o l st', Q o l st' → Q' o l st') → wp m st Q'.
Proof. intros (l & Hl & HQ) HQQ. exists l. auto. Qed.

(** What [wp] says about the run itself. *)
Lemma wp_run {A} (m : M W A) st (Q : outcome A → list IOEvent → St W → Prop) o st' :
  wp m st Q → m st = (o, st') → ∃ l, log st' = log st ++ l ∧ Q o l st'.
Proof. intros (l & Hl & HQ) E. rewrite E in *. eauto. Qed.

Lemma wp_conj {A} (m : M W A) st (Q Q' : outcome A → list IOEvent → St W → Prop) :
  wp m st Q → wp m st Q' → wp m st (λ o l st', Q o l st' ∧ Q' o l st').
Proof.
  intros (l & Hl & HQ) (l' & Hl' & HQ'). exists l. split; [done|]. split; [done|].
  rewrite Hl in Hl'. by apply app_inv_head in Hl' as ->.
Qed.

(** A hypothesis may be used under [wp] once the run is known to be one. *)
Lemma wp_impl {A} (P : Prop) (m : M W A) st (Q0 Q : outcome A → list IOEvent → St W → Prop) :
  wp m st Q0 → (P → wp m st Q) → wp m st (λ o l st', P → Q o l st').
Proof.
  intros (l & Hl & _) HP. exists l. split; [done|]. intros HPP. destruct (HP HPP) as (l' & Hl' & HQ).
  rewrite Hl in Hl'. by apply app_inv_head in Hl' as ->.
Qed.

Lemma wp_ret {A} (a : A) st (Q : outcome A → list IOEvent → St W → Prop) :
  Q (Val a) [] st → wp (mret a) st Q.
Proof. intros HQ. exists []. by rewrite app_nil_r. Qed.

Lemma wp_panic {A} msg st (Q : outcome A → list IOEvent → St W → Prop) :
  Q (Panic msg) [] st → wp (panic msg) st Q.
Proof. intros HQ. exists []. by rewrite app_nil_r. Qed.

Lemma wp_bind {A B} (m : M W A) (f : A → M W B) st (Q : outcome B → list IOEvent → St W → Prop) :
  wp m st (λ o l st', match o with
                      | Val a => wp (f a) st' (λ o' l' st'', Q o' (l ++ l') st'')
                      | Panic msg => Q (Panic msg) l st'
                      end) →
  wp (m ≫= f) st Q.
Proof.
  intros (l & Hl & HQ). unfold wp, mbind, M_bind in *.
  destruct (m st) as [[a|msg] st']; simpl in *.
  - destruct HQ as (l' & Hl' & HQ). exists (l ++ l').
    rewrite Hl', Hl, <- app_assoc. done.
  - exists l. done.
Qed.

Lemma wp_call {A} (op : W → A * W) (ev : A → IOEvent) st (Q : outcome A → list IOEvent → St W → Prop) :
  (∀ a w, op (world st) = (a, w) → Q (Val a) [ev a] (mkSt w (mem st) (log st ++ [ev a]))) →
  wp (call op ev) st Q.
Proof.
  intros HQ. unfold wp, call. destruct (op (world st)) as [a w] eqn:E. simpl.
  exists [ev a]. auto.
Qed.

Lemma wp_quiet {A} (op : W → A * W) st (Q : outcome A → list IOEvent → St W → Prop) :
  (∀ a w, op (world st) = (a, w) → Q (Val a) [] (mkSt w (mem st) (log st))) →
  wp (quiet op) st Q.
Proof.
  intros HQ. unfold wp, quiet. destruct (op (world st)) as [a w] eqn:E. simpl.
  exists []. rewrite app_nil_r. auto.
Qed.

Lemma wp_get_mem st (Q : outcome Mem → list IOEvent → St W → Prop) :
  Q (Val (mem st)) [] st → wp get_mem st Q.
Proof. intros HQ. exists []. by rewrite app_nil_r. Qed.

Lemma wp_modify_crossedAt f st (Q : outcome () → list IOEvent → St W → Prop) :
  Q (Val tt) [] (mkSt (world st) (mkMem (f (crossedAt (mem st))) (cache (mem st)) (metrics (mem st))) (log st)) →
  wp (modify_crossedAt f) st Q.
Proof. intros HQ. exists []. by rewrite app_nil_r. Qed.

Lemma wp_modify_cache f st (Q : outcome () → list IOEvent → St W → Prop) :
  Q (Val tt) [] (mkSt (world st) (mkMem (crossedAt (mem st)) (f (cache (mem st))) (metrics (mem st))) (log st)) →
  wp (modify_cache f) st Q.
Proof. intros HQ. exists []. by rewrite app_nil_r. Qed.

Lemma wp_modify_metrics f st (Q : outcome () → list IOEvent → St W → Prop) :
  Q (Val tt) [] (mkSt (world st) (mkMem (crossedAt (mem st)) (cache (mem st)) (f (metrics (mem st)))) (log st)) →
  wp (modify_metrics f) st Q.
Proof. intros HQ. exists []. by rewrite app_nil_r. Qed.

(** A loop with an invariant over the elements already visited. *)
Lemma wp_foldM {A B} (f : B → A → M W B) (I : list A → outcome B → list IOEvent → St W → Prop) l0 l b st
    (lg : list IOEvent) :
  I l0 (Val b) lg st →
  (∀ done_ x rest b lg st, l0 ++ l = done_ ++ x :: rest → I done_ (Val b) lg st →
     wp (f b x) st (λ o lg' st', I (done_ ++ [x]) o (lg ++ lg') st' ∧
                                (∀ msg, o = Panic msg → I (l0 ++ l) o (lg ++ lg') st'))) →
  wp (foldM f b l) st (λ o lg' st', I (l0 ++ l) o (lg ++ lg') st').
Proof.
  revert l0 b st lg. induction l as [|x l IH]; intros l0 b st lg HI Hstep; simpl.
  - apply wp_ret. by rewrite !app_nil_r.
  - apply wp_bind. eapply wp_mono; [by eapply Hstep|].
    intros [b'|msg] lg' st' [HI' HP].
    + eapply wp_mono; [eapply (IH (l0 ++ [x]) b' st' (lg ++ lg')); [done|]|].
      * intros done_ y rest ?????. rewrite <- app_assoc in *. simpl in *. by eapply Hstep.
      * intros o l' st'' HI''. by rewrite <- app_assoc in HI''; simpl in HI''; rewrite app_assoc.
    + by apply (HP msg).
Qed.

(** ** Effect typing *)

Definition Emits (P : IOEvent → Prop) {A} (m : M W A) : Prop :=
  ∀ st, wp m st (λ _ l _, Forall P l).

Lemma wp_emits {A} P (m : M W A) st (Q : outcome A → list IOEvent → St W → Prop) :
  Emits P m → (∀ o l st', Forall P l → Q o l st') → wp m st Q.
Proof. intros HE HQ. eapply wp_mono; [apply HE|]. auto. Qed.

Lemma wp_emits_and {A} P (m : M W A) st (Q : outcome A → list IOEvent → St W → Prop) :
  Emits P m → wp m st Q → wp m st (λ o l st', Forall P l ∧ Q o l st').
Proof. intros HE HQ. by apply wp_conj. Qed.

Lemma Emits_mono {A} (P P' : IOEvent → Prop) (m : M W A) :
  Emits P m → (∀ e, P e → P' e) → Emits P' m.
Proof.
  intros HE HP st. eapply wp_mono; [apply HE|]. intros o l st' Hl.
  eapply Forall_impl; [exact Hl|done].
Qed.

Lemma Emits_ret {A} P (a : A) : Emits P (mret a : M W A).
Proof. intros st. by apply wp_ret. Qed.

Lemma Emits_panic {A} P msg : Emits P (panic msg : M W A).
Proof. intros st. by apply wp_panic. Qed.

Lemma Emits_bind {A B} P (m : M W A) (f : A → M W B) :
  Emits P m → (∀ a, Emits P (f a)) → Emits P (m ≫= f).
Proof.
  intros Hm Hf st. apply wp_bind. eapply wp_mono; [apply Hm|].
  intros [a|msg] l st' Hl; [|done].
  eapply wp_mono; [apply Hf|]. intros o l' st'' Hl'. by apply Forall_app.
Qed.

Lemma Emits_call {A} P (op : W → A * W) (ev : A → IOEvent) :
  (∀ a, P (ev a)) → Emits P (call op ev).
Proof. intros HP st. apply wp_call. intros a w _. constructor; auto. Qed.

Lemma Emits_quiet {A} P (op : W → A * W) : Emits P (quiet op).
Proof. intros st. apply wp_quiet. auto. Qed.

Lemma Emits_get_mem P : Emits P (get_mem (W := W)).
Proof. intros st. by apply wp_get_mem. Qed.

Lemma Emits_modify_crossedAt P f : Emits P (modify_crossedAt (W := W) f).
Proof. intros st. by apply wp_modify_crossedAt. Qed.

Lemma Emits_modify_cache P f : Emits P (modify_cache (W := W) f).
Proof. intros st. by apply wp_modify_cache. Qed.

Lemma Emits_modify_metrics P f : Emits P (modify_metrics (W := W) f).
Proof. intros st. by apply wp_modify_metrics. Qed.

Lemma Emits_foldM {A B} P (f : B → A → M W B) b l :
  (∀ b x, Emits P (f b x)) → Emits P (foldM f b l).
Proof.
  intros Hf. revert b. induction l as [|x l IH]; intros b; simpl.
  - apply Emits_ret.
  - apply Emits_bind; auto.
Qed.

(** ** Runs that respect a preorder on states *)

Definition Respects (R : St W → St W → Prop) {A} (m : M W A) : Prop := ∀ st, wp m st (λ _ _ st', R st st').

Section Respects.
Variable R : St W → St W → Prop.
Context `{!PreOrder R}.

Lemma Respects_ret {A} (a : A) : Respects R (mret a : M W A).
Proof. intros st. apply wp_ret. reflexivity. Qed.

Lemma Respects_panic {A} msg : Respects R (panic msg : M W A).
Proof. intros st. apply wp_panic. reflexivity. Qed.

Lemma Respects_bind {A B} (m : M W A) (f : A → M W B) :
  Respects R m → (∀ a, Respects R (f a)) → Respects R (m ≫= f).
Proof.
  intros Hm Hf st. apply wp_bind. eapply wp_mono; [apply Hm|].
  intros [a|msg] l st' Hl; [|done].
  eapply wp_mono; [apply Hf|]. intros o l' st'' Hl'. by etransitivity.
Qed.

Lemma Respects_foldM {A B} (f : B → A → M W B) b l :
  (∀ b x, Respects R (f b x)) → Respects R (foldM f b l).
Proof.
  intros Hf. revert b. induction l as [|x l IH]; intros b; simpl.
  - apply Respects_ret.
  - apply Respects_bind; auto.
Qed.

(** An invariant closed under [R] survives the run. *)
Lemma wp_respects {A} (m : M W A) (I : St W → Prop) st (Q : outcome A → list IOEvent → St W → Prop) :
  Respects R m → (∀ s s', R s s' → I s → I s') → I st → (∀ o l st', I st' → Q o l st') → wp m st Q.
Proof. intros Hm HI Hst HQ. eapply wp_mono; [apply Hm|]. intros o l st' HR. apply HQ. eapply HI; [exact HR|exact Hst]. Qed.

End Respects.

(** ** Memory typing: only the metrics change *)

Definition same_window (m m' : Mem) : Prop := crossedAt m' = crossedAt m ∧ cache m' = cache m.

#[export] Instance same_window_equiv : Equivalence same_window.
Proof. unfold same_window. split; red; intuition congruence. Qed.

Definition Keeps {A} (m : M W A) : Prop := ∀ st, wp m st (λ _ _ st', same_window (mem st) (mem st')).

Lemma Keeps_ret {A} (a : A) : Keeps (mret a : M W A).
Proof. intros st. by apply wp_ret. Qed.

Lemma Keeps_panic {A} msg : Keeps (panic msg : M W A).
Proof. intros st. by apply wp_panic. Qed.

Lemma Keeps_bind {A B} (m : M W A) (f : A → M W B) :
  Keeps m → (∀ a, Keeps (f a)) → Keeps (m ≫= f).
Proof.
  intros Hm Hf st. apply wp_bind. eapply wp_mono; [apply Hm|].
  intros [a|msg] l st' Hl; [|done].
  eapply wp_mono; [apply Hf|]. intros o l' st'' Hl'. by etrans.
Qed.

Lemma Keeps_call {A} (op : W → A * W) (ev : A → IOEvent) : Keeps (call op ev).
Proof. intros st. apply wp_call. by intros a w _. Qed.

Lemma Keeps_quiet {A} (op : W → A * W) : Keeps (quiet op).
Proof. intros st. apply wp_quiet. by intros a w _. Qed.

Lemma Keeps_modify_metrics f : Keeps (modify_metrics (W := W) f).
Proof. intros st. by apply wp_modify_metrics. Qed.

Lemma Keeps_foldM {A B} (f : B → A → M W B) b l :
  (∀ b x, Keeps (f b x)) → Keeps (foldM f b l).
Proof.
  intros Hf. revert b. induction l as [|x l IH]; intros b; simpl.
  - apply Keeps_ret.
  - apply Keeps_bind; auto.
Qed.

(** Keep, and something else. *)
Lemma wp_keeps {A} (m : M W A) st (Q : outcome A → list IOEvent → St W → Prop) :
  Keeps m → wp m st (λ o l st', same_window (mem st) (mem st') → Q o l st') → wp m st Q.
Proof.
  intros HK HQ. eapply wp_mono; [apply (wp_conj _ _ _ _ (HK st) HQ)|]. intros o l st' [? HQ']. by apply HQ'.
Qed.

End WP.

#[export] Hint Resolve Keeps_ret Keeps_panic Keeps_quiet Keeps_call Keeps_modify_metrics : go.

#[export] Hint Resolve Emits_ret Emits_panic Emits_quiet Emits_get_mem Emits_modify_crossedAt
  Emits_modify_cache Emits_modify_metrics : go.

(** The logged calls, down to [call] and [quiet]. *)
Ltac unfold_calls :=
  progress unfold Until, Now, GetPolicy, GetAudit, ListAudits, ListObjects, CreateAudit, UpdateAudit,
    StatusUpdateAudit, StatusUpdatePolicy, DeleteAudit, SetStatusCondition,
    CallExecute, CallReverse, CallRecordTrigger, CallRecordRevert.

(** Effect typing of a handler, by its structure; leaves the calls' obligations. *)
Ltac emits_step :=
  match goal with
  | |- Emits _ (mbind _ _) => apply Emits_bind; [|intros ?]
  | |- Emits _ (foldM _ _ _) => apply Emits_foldM; intros ? ?
  | |- Emits _ (call _ _) => apply Emits_call; intros ?
  | |- Emits _ (if decide _ then _ else _) => case_decide
  | |- Emits _ (match ?x with _ => _ end) => destruct x
  | |- Emits _ ((match ?x with _ => _ end) _) => destruct x
  | |- Emits _ _ => solve [eauto with go]
  | |- Emits _ _ => unfold_calls
  end.
Ltac emits := repeat (emits_step; simpl).

(** Memory typing, likewise. *)
Ltac keeps_step :=
  match goal with
  | |- Keeps (mbind _ _) => apply Keeps_bind; [|intros ?]
  | |- Keeps (foldM _ _ _) => apply Keeps_foldM; intros ? ?
  | |- Keeps (if decide _ then _ else _) => case_decide
  | |- Keeps (match ?x with _ => _ end) => destruct x
  | |- Keeps ((match ?x with _ => _ end) _) => destruct x
  | |- Keeps _ => solve [eauto with go]
  | |- Keeps _ => unfold_calls
  end.
Ltac keeps := repeat (keeps_step; simpl).

(** Symbolic execution of the primitives under [wp]. *)
Ltac wp_step :=
  match goal with
  | |- wp (mbind _ _) _ _ => apply wp_bind
  | |- wp (mret _) _ _ => apply wp_ret
  | |- wp (panic _) _ _ => apply wp_panic
  | |- wp (call _ _) _ _ => apply wp_call; intros ? ? ?
  | |- wp (quiet _) _ _ => apply wp_quiet; intros ? ? ?
  | |- wp get_mem _ _ => apply wp_get_mem
  | |- wp (modify_crossedAt _) _ _ => apply wp_modify_crossedAt
  | |- wp (modify_cache _) _ _ => apply wp_modify_cache
  | |- wp (modify_metrics _) _ _ => apply wp_modify_metrics
  | |- wp _ _ _ => unfold_calls
  end.
