(* ===== verification/Evaluator.v ===== *)
(** * Threshold evaluation: internal/prometheus/evaluator.go and client.go

    [Compare] on float64 with NaN, the sliding window that measures how long a
    threshold has stayed crossed, and the metric client. *)

From S2P Require Import Prelude GoLib GoTime Api ActionTypes Metrics Effects Logic FloatLib.
From Stdlib Require Import Floats.SpecFloat.

(** ** ParseThreshold and Compare *)

Definition ParseThreshold (s : string) : error + float64 :=
  match ParseFloat (TrimSpace s) with
  | inl err => inl (wrapf ("parsing threshold " ++s fmt_q s ++s ": ") err)
  | inr v => inr v
  end.

Definition Compare (value threshold : float64) (op : ComparisonOperator) : bool :=
  if decide (op = OpGreaterThan) then float_gt value threshold else
  if decide (op = OpGreaterThanOrEqual) then float_ge value threshold else
  if decide (op = OpLessThan) then float_lt value threshold else
  if decide (op = OpLessThanOrEqual) then float_le value threshold else
  if decide (op = OpEqual) then float_eq value threshold else
  if decide (op = OpNotEqual) then float_ne value threshold else
  false.

(** ** SlidingWindow *)

Module SlidingWindow.

Definition NewSlidingWindow : gmap string Time := ∅.

(** [Observe]: how long [key] has been continuously crossed, and the new map. *)
Definition Observe (w : gmap string Time) (key : string) (crossed : bool) (now : Time)
  : Duration * gmap string Time :=
  if crossed then
    match w !! key with
    | None => (0, <[key := now]> w)
    | Some since => (time_Sub now since, w)
    end
  else (0, delete key w).

Definition Forget (w : gmap string Time) (key : string) : gmap string Time := delete key w.

End SlidingWindow.

(** The window's methods on the operator's memory, each atomic under its mutex. *)
Section WindowMethods.
Context {W : Type}.

Definition Window_Observe (key : string) (crossed : bool) (now : Time) : M W Duration :=
  m ← get_mem;
  let '(d, w) := SlidingWindow.Observe (crossedAt m) key crossed now in
  modify_crossedAt (λ _, w);;;
  mret d.

Definition Window_Forget (key : string) : M W () :=
  modify_crossedAt (λ w, SlidingWindow.Forget w key).

End WindowMethods.

(** ** The metric client (client.go) *)

(** What the Prometheus API library answers to an instant query. *)
Inductive promValue : Type :=
| Vector (samples : list float64)
| Scalar (v : float64)
| OtherValue (type_name : string).

Record config : Type := mkConfig { bearerToken : string; timeout : Duration }.
Definition Option_ : Type := config → config.
Definition WithBearerToken (token : string) : Option_ := λ c, mkConfig token (timeout c).
Definition WithTimeout (d : Duration) : Option_ := λ c, mkConfig (bearerToken c) d.

(** The library: building an API handle (address, bearer token if any) and
    running a query under an optional deadline. *)
Class PromAPI (W : Type) : Type := {
  papi : Type;
  promapi_NewClient : string → option string → error + papi;
  promapi_Query : papi → option Duration → string → W → (error + promValue) * W }.

(** The options applied in order, on the defaults. *)
Definition config_of (opts : list Option_) : config :=
  foldl (λ c o, o c) (mkConfig EmptyString (30 * Second)) opts.

Record PromClient (W : Type) : Type := mkPromClient { pc_Query : string → W → (error + float64) * W }.
Arguments mkPromClient {W}.
Arguments pc_Query {W} _.

Definition Factory (W : Type) : Type := string → list Option_ → error + PromClient W.

Section Client.
Context {W : Type} `{PromAPI W}.

(** [client.Query]: exactly one sample or a scalar. *)
Definition client_Query (api : papi) (tmo : Duration) (query : string) (w : W)
  : (error + float64) * W :=
  let deadline := if decide (tmo > 0) then Some tmo else None in
  let '(result, w') := promapi_Query api deadline query w in
  (match result with
   | inl err => inl (wrapf "querying prometheus: " err)
   | inr (Vector v) =>
       match v with
       | [] => inl (sentinel_error ErrNoData)
       | [x] => inr x
       | _ => inl (errorf ("query returned " ++s fmt_d (Z.of_nat (length v)) ++s
                           " samples, want an instant vector with exactly 1"))
       end
   | inr (Scalar v) => inr v
   | inr (OtherValue ty) =>
       inl (errorf ("unexpected prometheus result type " ++s ty ++s
                    ", want an instant vector or scalar"))
   end, w').

Definition NewClient : Factory W := λ endpoint opts,
  let cfg := config_of opts in
  let token := if decide (bearerToken cfg ≠ EmptyString) then Some (bearerToken cfg) else None in
  match promapi_NewClient endpoint token with
  | inl err => inl (wrapf ("creating prometheus client for " ++s fmt_q endpoint ++s ": ") err)
  | inr c => inr (mkPromClient (client_Query c (timeout cfg)))
  end.

End Client.

Definition CallQuery {W} (c : PromClient W) (query : string) : M W (error + float64) :=
  call (pc_Query c query) (IoQuery query).

(** ** The bearer token *)

(** What the round tripper reads and writes of an HTTP request. *)
Record HttpRequest : Type := mkHttpRequest { req_URL : string; req_Header : gmap string (list string) }.

(** [http.Header.Set] under a canonical key. *)
Definition Header_Set (key value : string) (h : gmap string (list string)) : gmap string (list string) :=
  <[key := [value]]> h.

(** [bearerRoundTripper.RoundTrip]: the header is set on a clone, the caller's
    request is left alone. *)
Definition RoundTrip {A W} (token : string) (next : HttpRequest → W → A * W) (req : HttpRequest) : W → A * W :=
  next (mkHttpRequest (req_URL req) (Header_Set "Authorization" ("Bearer " ++s token) (req_Header req))).
