(* ===== verification/Limiter.v ===== *)
(** * The hourly rate limit: internal/controller/ratelimit.go

    [auditLimiter] counts a policy's triggers of the trailing hour from the
    persisted [ActionAudit] records and caches the count for a TTL. *)

From S2P Require Import Prelude GoLib GoTime Api ActionTypes Metrics Effects Logic.

Definition newAuditLimiter : gmap string limiterEntry := ∅.

Definition cache_key (namespace name : string) : string := namespace ++s "/" ++s name.

Section Limiter.
Context {W : Type} `{Cluster W}.

(** [time.Time.After(cutoff)] on a record. *)
Definition recent (cutoff : Time) (a : ActionAudit) : Prop := time_After (TriggeredAt (a_Spec a)) cutoff.
#[export] Instance recent_dec cutoff a : Decision (recent cutoff a).
Proof. unfold recent. apply _. Defined.

(** [count]: the cached value while it is younger than [ttl], else a LIST. *)
Definition limiter_count (namespace name : string) (now : Time) (ttl : Duration) : M W (error + Z) :=
  let key := cache_key namespace name in
  let relist : M W (error + Z) :=
    items ← ListAudits namespace LabelPolicy name;
    match items with
    | inl err => mret (inl (wrapf "listing audit records for rate limit: " err))
    | inr l =>
        let cutoff := time_Add now (- Hour) in
        let n := count (recent cutoff) l in
        modify_cache <[key := mkEntry now n]>;;;
        mret (inr n)
    end in
  m ← get_mem;
  match cache m !! key with
  | Some entry =>
      if decide (time_Sub now (queriedAt entry) < ttl) then mret (inr (entry_count entry)) else relist
  | None => relist
  end.

Definition Allowed (namespace name : string) (maxPerHour : Z) (now : Time) (ttl : Duration)
  : M W (error + bool) :=
  n ← limiter_count namespace name now ttl;
  match n with
  | inl err => mret (inl err)
  | inr n => mret (inr (bool_decide (n < maxPerHour)))
  end.

(** [Observe]: bump a cached count; with nothing cached the next LIST sees the record. *)
Definition limiter_Observe (namespace name : string) (now : Time) : M W () :=
  let key := cache_key namespace name in
  modify_cache (λ c,
    match c !! key with
    | None => c
    | Some entry => <[key := mkEntry now (entry_count entry + 1)]> c
    end).

Definition limiter_Forget (namespace name : string) : M W () :=
  modify_cache (delete (cache_key namespace name)).

End Limiter.
