(* ===== verification/Registry.v ===== *)
(** * The plugin registry and RBAC aggregation: internal/action/registry.go, rbac.go *)

From S2P Require Import Prelude GoLib GoTime Api ActionTypes.

(** ** Registry *)

(** The [plugins] map; Go's mutex makes each method one step. *)
Notation Registry W := (gmap string (Action W)).

Section Registry.
Context {W : Type}.

Definition NewRegistry : Registry W := ∅.

(** [Register] panics on a duplicate name. *)
Definition Register (r : Registry W) (a : Action W) : outcome (Registry W) :=
  let name := pl_Name a in
  match r !! name with
  | Some _ => Panic ("action plugin " ++s fmt_q name ++s " already registered")
  | None => Val (<[name := a]> r)
  end.

Definition Lookup (r : Registry W) (name : string) : option (Action W) := r !! name.

(** [All]: the plugins sorted by name. *)
Definition All (r : Registry W) : list (Action W) :=
  sort_Slice (λ a b, string_less (pl_Name a) (pl_Name b)) (map_to_list r).*2.

(** What [Register] maintains: a plugin is stored under the name it reports. *)
Definition registry_ok (r : Registry W) : Prop := ∀ name a, r !! name = Some a → pl_Name a = name.

(** [init()] of every plugin package, in order. *)
Fixpoint register_all (r : Registry W) (l : list (Action W)) : outcome (Registry W) :=
  match l with
  | [] => Val r
  | a :: l' => match Register r a with
               | Val r' => register_all r' l'
               | Panic msg => Panic msg
               end
  end.

Lemma registry_ok_empty : registry_ok NewRegistry.
Proof. intros name a Ha. unfold NewRegistry in Ha. by rewrite lookup_empty in Ha. Qed.

(** A successful [Register] added the plugin under a name that was free. *)
Lemma Register_Val r a r' :
  Register r a = Val r' ↔ r !! pl_Name a = None ∧ r' = <[pl_Name a := a]> r.
Proof. unfold Register. case_match; split; [done|by intros [? _]|by intros [= <-]|by intros [_ ->]]. Qed.

Lemma Register_ok r a r' : registry_ok r → Register r a = Val r' → registry_ok r'.
Proof.
  intros Hok [_ ->]%Register_Val name b Hb.
  apply lookup_insert_Some in Hb as [[<- <-]|[_ Hb]]; [done|by apply Hok].
Qed.

Lemma register_all_ok r l r' : registry_ok r → register_all r l = Val r' → registry_ok r'.
Proof.
  revert r. induction l as [|a l IH]; intros r Hok; simpl; [by intros [= <-]|].
  destruct (Register r a) eqn:Ha; [|done]. intros Hl. eapply IH; [|done]. by eapply Register_ok.
Qed.

End Registry.

(** ** AggregatePermissions *)

Record ruleBucket : Type := mkBucket {
  groups : list string; resources : list string; verbs : gset string }.

Fixpoint dedupe (seen : gset string) (l : list string) : list string :=
  match l with
  | [] => []
  | s :: l' => if decide (s ∈ seen) then dedupe seen l' else s :: dedupe ({[s]} ∪ seen) l'
  end.

Definition dedupeSort (l : list string) : list string := sort_Strings (dedupe ∅ l).

Definition setToSorted (s : gset string) : list string := sort_Strings (elements s).

Definition unit_separator : string := String (Ascii.ascii_of_nat 31) EmptyString.

Definition bucket_key (gs rs : list string) : string :=
  Join gs unit_separator ++s "|" ++s Join rs unit_separator.

(** One rule of one plugin: [buckets] and the insertion [order]. *)
Definition add_rule (acc : gmap string ruleBucket * list string) (rule : PolicyRule)
  : gmap string ruleBucket * list string :=
  let '(buckets, order) := acc in
  let gs := dedupeSort (APIGroups rule) in
  let rs := dedupeSort (Resources rule) in
  let k := bucket_key gs rs in
  let '(b, order') := match buckets !! k with
                      | Some b => (b, order)
                      | None => (mkBucket gs rs ∅, order ++ [k])
                      end in
  (<[k := mkBucket (groups b) (resources b) (verbs b ∪ list_to_set (Verbs rule))]> buckets, order').

Definition bucket_rule (b : ruleBucket) : PolicyRule :=
  mkRule (groups b) (resources b) (setToSorted (verbs b)).

Definition rule_less (a b : PolicyRule) : bool :=
  let ga := Join (APIGroups a) "," in
  let gb := Join (APIGroups b) "," in
  if decide (ga ≠ gb) then string_less ga gb
  else string_less (Join (Resources a) ",") (Join (Resources b) ",").

Definition AggregatePermissions {W} (plugins : list (Action W)) : list PolicyRule :=
  let '(buckets, order) := foldl add_rule (∅, []) (concat (pl_RequiredPermissions <$> plugins)) in
  sort_Slice rule_less (omap (λ k, bucket_rule <$> buckets !! k) order).
