(* ===== verification/Executor.v ===== *)
(** * The action pipeline: internal/action/executor.go

    [RunRange] executes a slice of a policy's pipeline against one target and
    applies each action's onFailure policy; [rollback] reverses what
    succeeded. *)

From S2P Require Import Prelude GoLib GoTime Api ActionTypes Metrics Effects Logic Registry.

(** [time.Time.Format(time.RFC3339)] in the process's local zone, which is
    part of the environment. *)
Class LocalZone : Type := { FormatRFC3339 : Time → string }.

(** [GateIndex]: the first action that holds for approval, or -1. *)
Fixpoint gate_index_from (i : Z) (l : list ActionSpec) : Z :=
  match l with
  | [] => -1
  | a :: l' => if RequiresApproval a then i else gate_index_from (i + 1) l'
  end.
Definition GateIndex (policy : ReactivePolicy) : Z := gate_index_from 0 (Actions (p_Spec policy)).

(** [annotate]: set a key of a result's Details, allocating the map if needed. *)
Definition annotate (r : Result) (key : string) (value : any) : Result :=
  set_Details r (Some (<[key := value]> (default ∅ (Details r)))).

Definition templateData `{LocalZone} (policy : ReactivePolicy) (target : Target)
    (metricValue : string) (ts : Time) : gmap string any :=
  <["PolicyName" := AString (Name (p_Meta policy))]>
  (<["Namespace" := AString (Namespace (p_Meta policy))]>
  (<["MetricValue" := AString metricValue]>
  (<["Timestamp" := AString (FormatRFC3339 ts)]>
  (<["Target" := ATarget target]> ∅)))).

(** The normalization [runOne] applies to what [Execute] returned. *)
Definition default_name (p : string) (r : Result) : Result :=
  if decide (PluginName r = EmptyString) then set_PluginName r p else r.

Definition normalize (target : Target) (res : Result) (err : option error) : Result :=
  let res := set_ResTarget res target in
  match err with
  | Some e =>
      let res := if decide (Status res = EmptyString) then set_Status res StatusFailed else res in
      if decide (Message res = EmptyString) then set_Message res (err_msg e) else res
  | None => if decide (Status res = EmptyString) then set_Status res StatusSucceeded else res
  end.

(** [onFailure] with its default. *)
Definition failure_policy (act : ActionSpec) : FailurePolicy :=
  if decide (OnFailure act = EmptyString) then FailureStop else OnFailure act.

(** The input [runOne] builds for a plugin. *)
Definition exec_input (policy : ReactivePolicy) (target : Target) (metricValue : string) (ts : Time)
    (tmpl : gmap string any) (act : ActionSpec) : ExecuteInput :=
  mkInput target (ParamsFromCRD (ActParams act)) (Name (p_Meta policy))
    (Namespace (p_Meta policy)) metricValue ts tmpl.

Section Executor.
Context {W : Type} `{Cluster W} `{LocalZone}.

(** The executor is its registry. *)
Variable exec : Registry W.

(** [Executor.Lookup]. *)
Definition exec_Lookup (name : string) : option (Action W) := Lookup exec name.

Definition runOne (ctx : Context) (act : ActionSpec) (target : Target) (policy : ReactivePolicy)
    (metricValue : string) (ts : Time) (tmpl : gmap string any) : M W (Result * option error) :=
  match exec_Lookup (Plugin act) with
  | None =>
      modify_metrics (RecordAction (Plugin act) (Kind target) StatusFailed);;;
      t ← Now;
      mret (mkResult EmptyString (Plugin act) target t StatusFailed "plugin not registered" None,
            Some (wrapf ("plugin " ++s fmt_q (Plugin act) ++s ": ") (sentinel_error ErrInvalidParams)))
  | Some plugin =>
      let inp := exec_input policy target metricValue ts tmpl act in
      start ← Now;
      '(res, err) ← CallExecute plugin ctx inp;
      stop ← Now;
      modify_metrics (ObserveActionDuration (pl_Name plugin) (Seconds (time_Sub stop start)));;;
      let res := default_name (pl_Name plugin) res in
      res ← (if decide (IsZero (Timestamp res)) then t ← Now; mret (set_Timestamp res t) else mret res);
      let res := normalize target res err in
      modify_metrics (RecordAction (pl_Name plugin) (Kind target) (Status res));;;
      mret (res, err)
  end.

(** One step of [rollback] on a result. *)
Definition rollback_one (ctx : Context) (r : Result) : M W Result :=
  if decide (Status r ≠ StatusSucceeded) then mret r else
  match Lookup exec (PluginName r) with
  | None => mret r
  | Some plugin =>
      err ← CallReverse plugin ctx r;
      match err with
      | Some e => mret (annotate r "rollbackError" (AString (err_msg e)))
      | None => mret (annotate r "reversed" (ABool true))
      end
  end.

(** [rollback]: from the last result to the first, in place. *)
Fixpoint rollback_rev (ctx : Context) (rs : list Result) : M W (list Result) :=
  match rs with
  | [] => mret []
  | r :: rs' => r' ← rollback_one ctx r; rs'' ← rollback_rev ctx rs'; mret (r' :: rs'')
  end.
Definition rollback (ctx : Context) (results : list Result) : M W (list Result) :=
  rs ← rollback_rev ctx (reverse results); mret (reverse rs).

(** The loop of [RunRange]: [fuel] is [to - i], so the recursion is the loop's. *)
Fixpoint run_loop (ctx : Context) (policy : ReactivePolicy) (target : Target) (metricValue : string)
    (ts : Time) (tmpl : gmap string any) (fuel : nat) (i : Z) (results : list Result)
  : M W (list Result * option error) :=
  match fuel with
  | O => mret (results, None)
  | S fuel' =>
      match Actions (p_Spec policy) !! Z.to_nat i with
      | None => panic "runtime error: index out of range"
      | Some act =>
          '(res, execErr) ← runOne ctx act target policy metricValue ts tmpl;
          let results := results ++ [res] in
          match execErr with
          | None => run_loop ctx policy target metricValue ts tmpl fuel' (i + 1) results
          | Some e =>
              let onFailure := failure_policy act in
              let what := "action " ++s fmt_d i ++s " (" ++s Plugin act ++s ") failed, " in
              if decide (onFailure = FailureContinue) then
                run_loop ctx policy target metricValue ts tmpl fuel' (i + 1) results
              else if decide (onFailure = FailureRollback) then
                results ← rollback ctx results;
                mret (results, Some (wrapf (what ++s "rolled back preceding actions: ") e))
              else mret (results, Some (wrapf (what ++s "pipeline stopped: ") e))
          end
      end
  end.

Definition RunRange (ctx : Context) (policy : ReactivePolicy) (target : Target) (metricValue : string)
    (from to : Z) : M W (list Result * option error) :=
  let n := Z.of_nat (length (Actions (p_Spec policy))) in
  let from := if decide (from < 0) then 0 else from in
  let to := if decide (to > n) then n else to in
  if decide (from >= to) then mret ([], None) else
  ts ← Now;
  let tmpl := templateData policy target metricValue ts in
  run_loop ctx policy target metricValue ts tmpl (Z.to_nat (to - from)) from [].

Definition Run (ctx : Context) (policy : ReactivePolicy) (target : Target) (metricValue : string)
  : M W (list Result * option error) :=
  RunRange ctx policy target metricValue 0 (Z.of_nat (length (Actions (p_Spec policy)))).

(** The controllers' loop over targets: all results in order, the last error. *)
Definition run_targets (ctx : Context) (policy : ReactivePolicy) (metricValue : string) (from to : Z)
    (targets : list Target) : M W (list Result * option error) :=
  foldM (λ '(results, runErr) target,
           '(res, err) ← RunRange ctx policy target metricValue from to;
           mret (results ++ res, match err with Some e => Some e | None => runErr end))
    ([], None) targets.

End Executor.

(** ** What a log says about plugins *)

(** The Execute calls, in order. *)
Definition executed (l : list IOEvent) : list (string * ExecuteInput) :=
  omap (λ e, match e with IoExecute p inp _ => Some (p, inp) | _ => None end) l.

(** The Reverse calls, in order. *)
Definition reversed (l : list IOEvent) : list (string * Result) :=
  omap (λ e, match e with IoReverse p r _ => Some (p, r) | _ => None end) l.

Lemma executed_app l k : executed (l ++ k) = executed l ++ executed k.
Proof. apply omap_app. Qed.

Lemma reversed_app l k : reversed (l ++ k) = reversed l ++ reversed k.
Proof. apply omap_app. Qed.

(** Events that run no plugin. *)
Definition no_plugin (e : IOEvent) : Prop :=
  match e with IoExecute _ _ _ | IoReverse _ _ _ => False | _ => True end.
Definition not_execute (e : IOEvent) : Prop :=
  match e with IoExecute _ _ _ => False | _ => True end.
Definition not_reverse (e : IOEvent) : Prop :=
  match e with IoReverse _ _ _ => False | _ => True end.

Lemma executed_nil l : Forall not_execute l → executed l = [].
Proof. induction 1 as [|e l He _ IH]; [done|]. destruct e; simpl in *; done. Qed.

Lemma reversed_nil l : Forall not_reverse l → reversed l = [].
Proof. induction 1 as [|e l He _ IH]; [done|]. destruct e; simpl in *; done. Qed.

(** The only events of a pipeline. *)
Definition is_run (e : IOEvent) : Prop :=
  match e with IoNow _ | IoExecute _ _ _ | IoReverse _ _ _ => True | _ => False end.

Lemma no_plugin_not_execute e : no_plugin e → not_execute e.
Proof. by destruct e. Qed.
Lemma no_plugin_not_reverse e : no_plugin e → not_reverse e.
Proof. by destruct e. Qed.

(** ** The pipeline's contract *)

(** An action lets the pipeline go on when it succeeded or failed with "continue". *)
Definition continues (act : ActionSpec) (err : option error) : Prop :=
  err = None ∨ failure_policy act = FailureContinue.
#[export] Instance continues_dec act err : Decision (continues act err).
Proof. unfold continues. apply _. Defined.

(** Rollback only annotates Details. *)
Definition same_but_details (r r' : Result) : Prop := set_Details r None = set_Details r' None.

#[export] Instance same_but_details_equiv : Equivalence same_but_details.
Proof. unfold same_but_details. split; red; congruence. Qed.

(** [outs] are the outcomes of the actions of [slice] that ran: a prefix, in
    which only the last may stop the pipeline, and does when the rest did not run. *)
Inductive ran : list ActionSpec → list (Result * option error) → Prop :=
| ran_done : ran [] []
| ran_stop act acts res e : ¬ continues act (Some e) → ran (act :: acts) [(res, Some e)]
| ran_next act acts res err outs :
    continues act err → ran acts outs → ran (act :: acts) ((res, err) :: outs).

(** The error a pipeline ends with: of the action that stopped it, if any. *)
Fixpoint stopped (acts : list ActionSpec) (outs : list (Result * option error)) : bool :=
  match acts, outs with
  | act :: acts', (_, err) :: outs' => bool_decide (¬ continues act err) || stopped acts' outs'
  | _, _ => false
  end.

(** Whether the action that stopped the pipeline asks for a rollback. *)
Fixpoint rolls_back (acts : list ActionSpec) (outs : list (Result * option error)) : bool :=
  match acts, outs with
  | act :: acts', (_, err) :: outs' =>
      if decide (continues act err) then rolls_back acts' outs'
      else bool_decide (failure_policy act = FailureRollback)
  | _, _ => false
  end.

Definition slice (policy : ReactivePolicy) (from to : Z) : list ActionSpec :=
  take (Z.to_nat to - Z.to_nat from) (drop (Z.to_nat from) (Actions (p_Spec policy))).

(** Where [GateIndex] points. *)
Definition ungated (l : list ActionSpec) : Prop := Forall (λ a, RequiresApproval a = false) l.

Lemma gate_index_from_spec i l :
  0 <= i →
  (gate_index_from i l = -1 ∧ ungated l) ∨
  (∃ k a, l !! k = Some a ∧ gate_index_from i l = i + Z.of_nat k ∧ RequiresApproval a = true ∧ ungated (take k l)).
Proof.
  revert i. induction l as [|a l IH]; intros i Hi; simpl.
  - left. split; [done|constructor].
  - destruct (RequiresApproval a) eqn:Ha.
    + right. exists 0%nat, a. split_and!; [done|lia|done|constructor].
    + destruct (IH (i + 1)) as [[-> Hl]|(k & b & Hk & -> & Hb & Hl)]; [lia| |].
      * left. split; [done|by constructor].
      * right. exists (S k), b. split_and!; [done|lia|done|by constructor].
Qed.

Lemma slice_elem policy from to act :
  act ∈ slice policy from to →
  ∃ i, Actions (p_Spec policy) !! i = Some act ∧ (Z.to_nat from <= i < Z.to_nat to)%nat.
Proof.
  unfold slice. intros (i & Hi)%list_elem_of_lookup.
  apply lookup_take_Some in Hi as [Hi Hlt]. rewrite lookup_drop in Hi.
  exists (Z.to_nat from + i)%nat. split; [done|lia].
Qed.

(** A pipeline cut at [k]: what runs now and what is held, in order. *)
Lemma slice_split policy k :
  0 <= k → slice policy 0 k ++ slice policy k (Z.of_nat (length (Actions (p_Spec policy)))) = Actions (p_Spec policy).
Proof.
  intros Hk. unfold slice. rewrite drop_0. simpl. rewrite Nat.sub_0_r, Nat2Z.id.
  rewrite (take_ge (drop _ _)) by (rewrite length_drop; lia). apply take_drop.
Qed.

Section Contract.
Context {W : Type} `{Cluster W} `{LocalZone}.
Variable exec : Registry W.
Hypothesis Hexec : registry_ok exec.

(** The Execute calls a run of [acts] makes. *)
Definition exec_calls (policy : ReactivePolicy) (target : Target) (mv : string) (ts : Time)
    (tmpl : gmap string any) (acts : list ActionSpec) : list (string * ExecuteInput) :=
  omap (λ act, match exec_Lookup exec (Plugin act) with
               | Some _ => Some (Plugin act, exec_input policy target mv ts tmpl act)
               | None => None
               end) acts.

Lemma normalize_target target res err : ResTarget (normalize target res err) = target.
Proof. unfold normalize. split_cases; done. Qed.

Lemma normalize_status target res err : Status (normalize target res err) ≠ EmptyString.
Proof. unfold normalize. split_cases; done. Qed.

Lemma runOne_spec ctx act target policy mv ts tmpl st :
  wp (runOne exec ctx act target policy mv ts tmpl) st (λ o l st',
    ∃ res err, o = Val (res, err) ∧ ResTarget res = target ∧ Status res ≠ EmptyString ∧
      (exec_Lookup exec (Plugin act) = None → err ≠ None ∧ Status res = StatusFailed) ∧
      executed l = exec_calls policy target mv ts tmpl [act] ∧ reversed l = []).
Proof using Hexec.
  unfold runOne, exec_calls. simpl. destruct (exec_Lookup exec (Plugin act)) as [plugin|] eqn:Hl.
  - repeat wp_step. simpl. case_match. case_decide; repeat wp_step; simpl;
      (eexists _, _; split_and!; [done|apply normalize_target|apply normalize_status|done| |done]);
      by rewrite (Hexec _ _ Hl).
  - repeat wp_step. simpl. eexists _, _. by split_and!.
Qed.

(** The Reverse calls [rollback] makes on results visited in the order given. *)
Definition reverse_calls (rs : list Result) : list (string * Result) :=
  omap (λ r, if decide (Status r = StatusSucceeded)
             then match Lookup exec (PluginName r) with Some _ => Some (PluginName r, r) | None => None end
             else None) rs.

Lemma reverse_calls_app rs rs' : reverse_calls (rs ++ rs') = reverse_calls rs ++ reverse_calls rs'.
Proof. apply omap_app. Qed.

Lemma rollback_one_spec ctx r st :
  wp (rollback_one exec ctx r) st (λ o l st',
    ∃ r', o = Val r' ∧ same_but_details r r' ∧ executed l = [] ∧ reversed l = reverse_calls [r]).
Proof using Hexec.
  unfold rollback_one, reverse_calls. simpl. repeat case_decide; try done.
  - wp_step. by eexists.
  - destruct (Lookup exec (PluginName r)) as [plugin|] eqn:Hl; [|wp_step; by eexists].
    repeat wp_step. simpl. case_match; wp_step; simpl; rewrite (Hexec _ _ Hl); by eexists.
Qed.

Lemma rollback_rev_spec ctx rs st :
  wp (rollback_rev exec ctx rs) st (λ o l st',
    ∃ rs', o = Val rs' ∧ Forall2 same_but_details rs rs' ∧ executed l = [] ∧ reversed l = reverse_calls rs).
Proof using Hexec.
  revert st. induction rs as [|r rs IH]; intros st; simpl.
  - wp_step. by eexists.
  - wp_step. eapply wp_mono; [apply rollback_one_spec|]. intros ? l1 st1 (r' & -> & Hr & He1 & Hv1).
    wp_step. eapply wp_mono; [apply IH|]. intros ? l2 st2 (rs' & -> & Hrs & He2 & Hv2).
    wp_step. eexists. split_and!; [done|by constructor| |].
    + by rewrite app_nil_r, executed_app, He1, He2.
    + rewrite app_nil_r, reversed_app, Hv1, Hv2. by rewrite <- reverse_calls_app.
Qed.

Lemma rollback_spec ctx rs st :
  wp (rollback exec ctx rs) st (λ o l st',
    ∃ rs', o = Val rs' ∧ Forall2 same_but_details rs rs' ∧ executed l = [] ∧
      reversed l = reverse_calls (reverse rs)).
Proof using Hexec.
  unfold rollback. wp_step. eapply wp_mono; [apply rollback_rev_spec|].
  intros ? l st' (rs' & -> & Hrs & He & Hv). wp_step. eexists. split_and!; [done| | |].
  - rewrite <- (reverse_involutive rs). by apply Forall2_reverse.
  - by rewrite app_nil_r.
  - by rewrite app_nil_r.
Qed.

(** What running [acts] leaves: outcomes [outs], returned results [rs] and error
    [err], plugin calls [ex] and reversals [rv], [results] being there before. *)
Definition pipeline_post (policy : ReactivePolicy) (target : Target) (mv : string) (ts : Time)
    (tmpl : gmap string any) (acts : list ActionSpec) (results : list Result)
    (outs : list (Result * option error)) (rs : list Result) (err : option error)
    (ex : list (string * ExecuteInput)) (rv : list (string * Result)) : Prop :=
  ran acts outs ∧
  Forall2 same_but_details (results ++ outs.*1) rs ∧
  (rolls_back acts outs = false → rs = results ++ outs.*1) ∧
  Forall (λ r, ResTarget r = target ∧ Status r ≠ EmptyString) outs.*1 ∧
  (err = None ↔ stopped acts outs = false) ∧
  ex = exec_calls policy target mv ts tmpl (take (length outs) acts) ∧
  rv = if rolls_back acts outs then reverse_calls (reverse (results ++ outs.*1)) else [].

(** One more action in front that lets the pipeline go on. *)
Lemma pipeline_post_cons policy target mv ts tmpl act acts results res err outs rs err' ex rv :
  continues act err → ResTarget res = target → Status res ≠ EmptyString →
  pipeline_post policy target mv ts tmpl acts (results ++ [res]) outs rs err' ex rv →
  pipeline_post policy target mv ts tmpl (act :: acts) results ((res, err) :: outs) rs err'
    (exec_calls policy target mv ts tmpl [act] ++ ex) rv.
Proof.
  intros Hc Ht Hs (Hran & Hsame & Heq & Hall & Herr & -> & ->). unfold pipeline_post. simpl.
  rewrite <- app_assoc in Hsame, Heq |- *. simpl in *.
  rewrite decide_True by done. rewrite (bool_decide_eq_false_2 (¬ continues act err)) by (intros Hn; by apply Hn). simpl.
  split_and!; try done.
  - by constructor.
  - by constructor.
  - unfold exec_calls. simpl. by case_match.
Qed.

(** The action in front stops the pipeline. *)
Lemma pipeline_post_stop policy target mv ts tmpl act acts results res e rs rv :
  ¬ continues act (Some e) → ResTarget res = target → Status res ≠ EmptyString →
  Forall2 same_but_details (results ++ [res]) rs →
  (failure_policy act ≠ FailureRollback → rs = results ++ [res]) →
  rv = (if decide (failure_policy act = FailureRollback) then reverse_calls (reverse (results ++ [res])) else []) →
  ∀ e', pipeline_post policy target mv ts tmpl (act :: acts) results [(res, Some e)] rs (Some e')
    (exec_calls policy target mv ts tmpl [act]) rv.
Proof.
  intros Hc Ht Hs Hsame Heq -> e'. unfold pipeline_post. simpl.
  rewrite decide_False by done. rewrite (bool_decide_eq_true_2 (¬ continues act (Some e))) by done. simpl.
  split_and!; try done.
  - by constructor.
  - intros Hb. apply Heq. by apply bool_decide_eq_false in Hb.
  - constructor; [done|constructor].
  - case_decide; [by rewrite bool_decide_eq_true_2|by rewrite bool_decide_eq_false_2].
Qed.

(** The loop from position [i] with [results] already collected. *)
Lemma run_loop_spec ctx policy target mv ts tmpl fuel i results st acts :
  0 <= i →
  drop (Z.to_nat i) (Actions (p_Spec policy)) = acts →
  (fuel <= length acts)%nat →
  wp (run_loop exec ctx policy target mv ts tmpl fuel i results) st (λ o l st',
    ∃ outs rs err, o = Val (rs, err) ∧
      pipeline_post policy target mv ts tmpl (take fuel acts) results outs rs err (executed l) (reversed l)).
Proof using Hexec.
  revert i results st acts. induction fuel as [|fuel IH]; intros i results st acts Hi Hacts Hfuel; simpl.
  { wp_step. exists [], results, None. unfold pipeline_post. simpl. rewrite app_nil_r.
    split_and!; try done; by constructor. }
  destruct acts as [|act acts']; simpl in Hfuel; [lia|]. rename acts' into acts.
  assert (Actions (p_Spec policy) !! Z.to_nat i = Some act) as ->.
  { rewrite <- (Nat.add_0_r (Z.to_nat i)), <- lookup_drop, Hacts. done. }
  wp_step. eapply wp_mono; [apply runOne_spec|].
  intros ? l1 st1 (res & err & -> & Htgt & Hstat & _ & He1 & Hv1).
  assert (drop (Z.to_nat (i + 1)) (Actions (p_Spec policy)) = acts) as Hacts'.
  { replace (Z.to_nat (i + 1)) with (Z.to_nat i + 1)%nat by lia.
    rewrite <- drop_drop, Hacts. done. }
  assert (∀ st, continues act err →
    wp (run_loop exec ctx policy target mv ts tmpl fuel (i + 1) (results ++ [res])) st (λ o l2 st',
      ∃ outs rs err, o = Val (rs, err) ∧
        pipeline_post policy target mv ts tmpl (take (S fuel) (act :: acts)) results outs rs err
          (executed (l1 ++ l2)) (reversed (l1 ++ l2)))) as Hgo.
  { intros st2 Hcont. eapply wp_mono; [apply (IH (i + 1) (results ++ [res]) st2 acts); [lia|done|lia]|].
    intros ? l2 st' (outs & rs & err' & -> & Hpost). exists ((res, err) :: outs), rs, err'.
    split; [done|]. rewrite executed_app, reversed_app, He1, Hv1. by apply pipeline_post_cons. }
  destruct err as [e|]; [|apply Hgo; by left].
  case_decide as Hc; [apply Hgo; by right|].
  assert (¬ continues act (Some e)) as Hstop by (intros [?|?]; done).
  case_decide as Hr.
  - wp_step. eapply wp_mono; [apply rollback_spec|]. intros ? l2 st2 (rs' & -> & Hsame & He2 & Hv2).
    wp_step. exists [(res, Some e)], rs'. eexists. split; [done|].
    rewrite app_nil_r, executed_app, reversed_app, He1, He2, Hv1, Hv2, app_nil_r. simpl.
    apply pipeline_post_stop; try done. by rewrite decide_True.
  - wp_step. exists [(res, Some e)], (results ++ [res]). eexists. split; [done|].
    rewrite app_nil_r, He1, Hv1. apply pipeline_post_stop; try done. by rewrite decide_False.
Qed.

(** [RunRange] returns for every range, and what it did is a run of the slice. *)
Lemma RunRange_spec ctx policy target mv from to st :
  wp (RunRange exec ctx policy target mv from to) st (λ o l st',
    ∃ ts outs rs err, o = Val (rs, err) ∧
      pipeline_post policy target mv ts (templateData policy target mv ts) (slice policy from to)
        [] outs rs err (executed l) (reversed l)).
Proof using Hexec.
  unfold RunRange, slice.
  set (n := length (Actions (p_Spec policy))).
  case_decide as Hge.
  { wp_step. exists 0, [], [], None. split; [done|].
    replace (take _ _) with (@nil ActionSpec).
    - unfold pipeline_post. simpl. split_and!; try done; by constructor.
    - symmetry. repeat case_decide.
      + rewrite drop_ge by lia. by rewrite take_nil.
      + replace (Z.to_nat to - Z.to_nat from)%nat with 0%nat by lia. by rewrite take_0.
      + rewrite drop_ge by lia. by rewrite take_nil.
      + replace (Z.to_nat to - Z.to_nat from)%nat with 0%nat by lia. by rewrite take_0. }
  wp_step. apply wp_call. intros ts w Hw.
  set (from' := if decide (from < 0) then 0 else from) in *.
  set (to' := if decide (to > Z.of_nat n) then Z.of_nat n else to) in *.
  eapply wp_mono; [eapply (run_loop_spec _ _ _ _ _ _ _ from'); [|done|]|].
  - subst from'. case_decide; lia.
  - rewrite length_drop. subst from' to' n. repeat case_decide; lia.
  - intros ? l st' (outs & rs & err & -> & Hpost). exists ts, outs, rs, err. split; [done|].
    simpl. replace (take _ (drop (Z.to_nat from) _)) with
      (take (Z.to_nat (to' - from')) (drop (Z.to_nat from') (Actions (p_Spec policy)))); [done|].
    assert (Z.to_nat from' = Z.to_nat from) as -> by (subst from'; case_decide; lia).
    subst to'. case_decide.
    + rewrite !take_ge; [done|rewrite length_drop; lia|rewrite length_drop; subst from'; case_decide; lia].
    + f_equal. subst from'. case_decide; lia.
Qed.

(** The executor leaves the window and the rate-limit cache alone. *)
Lemma Keeps_runOne ctx act target policy mv ts tmpl : Keeps (runOne exec ctx act target policy mv ts tmpl).
Proof. unfold runOne. keeps. Qed.

Lemma Keeps_rollback ctx rs : Keeps (rollback exec ctx rs).
Proof.
  unfold rollback. keeps. induction (reverse rs) as [|r l IH]; simpl; unfold rollback_one; keeps.
Qed.

Lemma Keeps_run_loop ctx policy target mv ts tmpl fuel i results :
  Keeps (run_loop exec ctx policy target mv ts tmpl fuel i results).
Proof.
  revert i results. induction fuel as [|fuel IH]; intros i results; simpl; [keeps|].
  case_match; [|keeps]. apply Keeps_bind; [apply Keeps_runOne|]. intros [res [e|]]; [|apply IH].
  case_decide; [apply IH|]. case_decide; [|keeps]. apply Keeps_bind; [apply Keeps_rollback|]. intros. keeps.
Qed.

Lemma Keeps_run_targets ctx policy mv from to targets : Keeps (run_targets exec ctx policy mv from to targets).
Proof.
  pose proof Keeps_run_loop. unfold run_targets, RunRange. keeps.
Qed.

(** It reads the clock and calls plugins, nothing else. *)
Lemma Emits_runOne ctx act target policy mv ts tmpl : Emits is_run (runOne exec ctx act target policy mv ts tmpl).
Proof. unfold runOne. emits; done. Qed.

Lemma Emits_rollback ctx rs : Emits is_run (rollback exec ctx rs).
Proof.
  unfold rollback. emits. induction (reverse rs) as [|r l IH]; simpl; unfold rollback_one; emits; done.
Qed.

Lemma Emits_run_loop ctx policy target mv ts tmpl fuel i results :
  Emits is_run (run_loop exec ctx policy target mv ts tmpl fuel i results).
Proof.
  revert i results. induction fuel as [|fuel IH]; intros i results; simpl; [emits|].
  case_match; [|emits]. apply Emits_bind; [apply Emits_runOne|]. intros [res [e|]]; [|apply IH].
  case_decide; [apply IH|]. case_decide; [|emits]. apply Emits_bind; [apply Emits_rollback|]. intros. emits.
Qed.

Lemma Emits_run_targets ctx policy mv from to targets :
  Emits is_run (run_targets exec ctx policy mv from to targets).
Proof. pose proof Emits_run_loop. unfold run_targets, RunRange. emits; done. Qed.

(** The pipeline run on each target in turn. *)
Inductive targets_ran (policy : ReactivePolicy) (mv : string) (from to : Z) :
  list Target → list Result → list (string * ExecuteInput) → list (string * Result) → Prop :=
| tr_nil : targets_ran policy mv from to [] [] [] []
| tr_cons t ts clock outs rs err ex rv rss exs rvs :
    pipeline_post policy t mv clock (templateData policy t mv clock) (slice policy from to) [] outs rs err ex rv →
    targets_ran policy mv from to ts rss exs rvs →
    targets_ran policy mv from to (t :: ts) (rs ++ rss) (ex ++ exs) (rv ++ rvs).

Lemma run_targets_spec ctx policy mv from to targets st :
  wp (run_targets exec ctx policy mv from to targets) st (λ o l st',
    ∃ results runErr, o = Val (results, runErr) ∧
      targets_ran policy mv from to targets results (executed l) (reversed l)).
Proof using Hexec.
  unfold run_targets.
  assert (∀ acc st, wp (foldM (λ '(results, runErr) target,
           '(res, err) ← RunRange exec ctx policy target mv from to;
           mret (results ++ res, match err with Some e => Some e | None => runErr end)) acc targets) st
    (λ o l st', ∃ rs runErr, o = Val (acc.1 ++ rs, runErr) ∧
      targets_ran policy mv from to targets rs (executed l) (reversed l))) as Hgo.
  { clear st. induction targets as [|t ts IH]; intros [acc e0] st; simpl.
    - wp_step. exists [], e0. rewrite app_nil_r. split; [done|constructor].
    - repeat wp_step. eapply wp_mono; [apply RunRange_spec|].
      intros ? l1 st1 (clock & outs & rs & err & -> & Hpost). repeat wp_step.
      eapply wp_mono; [apply IH|]. intros ? l2 st2 (rss & runErr & -> & Hran). simpl.
      exists (rs ++ rss), runErr. rewrite <- app_assoc. split; [done|].
      rewrite app_nil_r, executed_app, reversed_app. by econstructor. }
  eapply wp_mono; [apply Hgo|]. intros ? l st' (rs & e & -> & ?). by exists rs, e.
Qed.

(** Every call of a pipeline is one of its actions, on its target. *)
Lemma exec_calls_elem policy target mv ts tmpl acts p inp :
  (p, inp) ∈ exec_calls policy target mv ts tmpl acts →
  ∃ act, act ∈ acts ∧ p = Plugin act ∧ exec_Lookup exec p ≠ None ∧
         inp = exec_input policy target mv ts tmpl act.
Proof.
  intros Hin. unfold exec_calls in Hin. apply list_elem_of_omap in Hin as (act & Hact & Heq).
  exists act. case_match eqn:Hl; simplify_eq. split_and!; [done|done|by rewrite Hl|done].
Qed.

Lemma targets_ran_calls policy mv from to targets results ex rv p inp :
  targets_ran policy mv from to targets results ex rv → (p, inp) ∈ ex →
  ∃ act target clock, act ∈ slice policy from to ∧ target ∈ targets ∧ p = Plugin act ∧
    inp = exec_input policy target mv clock (templateData policy target mv clock) act.
Proof.
  induction 1 as [|t ts clock outs rs err ex rv rss exs rvs Hpost _ IH]; intros Hin.
  - by apply elem_of_nil in Hin.
  - apply elem_of_app in Hin as [Hin|Hin].
    + destruct Hpost as (_ & _ & _ & _ & _ & -> & _).
      apply exec_calls_elem in Hin as (act & Hact & -> & _ & ->).
      exists act, t, clock. split_and!; [|by left|done|done].
      by eapply elem_of_take in Hact as (? & ? & ?); eapply list_elem_of_lookup_2.
    + destruct (IH Hin) as (act & target & c & ? & ? & ? & ?).
      exists act, target, c. split_and!; [done|by right|done|done].
Qed.

Lemma same_but_details_target r r' : same_but_details r r' → ResTarget r = ResTarget r' ∧ Status r = Status r'.
Proof. unfold same_but_details, set_Details. intros [=]. by split. Qed.

(** Every result carries a target of the run and a status. *)
Lemma targets_ran_results policy mv from to targets results ex rv :
  targets_ran policy mv from to targets results ex rv →
  Forall (λ r, ResTarget r ∈ targets ∧ Status r ≠ EmptyString) results.
Proof.
  induction 1 as [|t ts clock outs rs err ex rv rss exs rvs Hpost _ IH]; [constructor|].
  apply Forall_app. split.
  - destruct Hpost as (_ & Hsame & _ & Hall & _). simpl in Hsame.
    clear IH. revert Hall. induction Hsame as [|r r' l l' Hr _ IH]; intros Hall; [constructor|].
    apply Forall_cons in Hall as [[Ht Hs] Hall].
    apply same_but_details_target in Hr as [Hr1 Hr2].
    constructor; [|by apply IH]. rewrite <- Hr1, <- Hr2. split; [rewrite Ht; left|done].
  - eapply Forall_impl; [exact IH|]. intros r [? ?]. split; [by right|done].
Qed.

Lemma ran_length acts outs : ran acts outs → (length outs <= length acts)%nat.
Proof. induction 1; simpl; lia. Qed.

Lemma exec_calls_registered policy target mv ts tmpl acts :
  Forall (λ act, exec_Lookup exec (Plugin act) ≠ None) acts →
  exec_calls policy target mv ts tmpl acts =
  (λ act, (Plugin act, exec_input policy target mv ts tmpl act)) <$> acts.
Proof.
  unfold exec_calls. induction 1 as [|act acts Hact _ IH]; simpl; [done|].
  destruct (exec_Lookup exec (Plugin act)); [f_equal; exact IH|done].
Qed.

(** With every plugin registered there is one result per call, on its target. *)
Lemma targets_ran_aligned policy mv from to targets results ex rv :
  Forall (λ act, exec_Lookup exec (Plugin act) ≠ None) (slice policy from to) →
  targets_ran policy mv from to targets results ex rv →
  Forall2 (λ r call, ResTarget r = in_Target call.2) results ex.
Proof.
  intros Hreg. induction 1 as [|t ts clock outs rs err ex rv rss exs rvs Hpost _ IH]; [constructor|].
  apply Forall2_app; [|done]. destruct Hpost as (Hran & Hsame & _ & Hall & _ & -> & _). simpl in Hsame.
  rewrite exec_calls_registered by (by apply Forall_take).
  apply ran_length in Hran. apply Forall2_same_length_lookup. split.
  - rewrite length_fmap, length_take. rewrite <- (Forall2_length _ _ _ Hsame), length_fmap. lia.
  - intros i r call Hr Hcall. apply list_lookup_fmap_Some in Hcall as (act & -> & _). simpl.
    destruct (Forall2_lookup_r _ _ _ _ _ Hsame Hr) as (r0 & Hr0 & Hs).
    apply same_but_details_target in Hs as [Hs _]. rewrite <- Hs.
    by apply (Forall_lookup_1 _ _ _ _ Hall Hr0).
Qed.

End Contract.
