(* ===== verification/AuditWriter.v ===== *)
(** * Writing the audit trail: internal/controller/auditwriter.go

    The mapping between executor results, persisted records and sink events,
    and the two writers of a new record. *)

From S2P Require Import Prelude GoLib GoTime Api ActionTypes Metrics Effects Logic Registry Executor.

(** [encoding/json] on a Details map: [None] is its error. *)
Class DetailsCodec : Type := {
  json_Marshal : gmap string any → option RawJSON;
  json_Unmarshal : RawJSON → option (gmap string any) }.

(** What the audit trail needs of the codec on one map: what was written is
    read back as [d']. *)
Definition codec_reads `{DetailsCodec} (d d' : gmap string any) : Prop :=
  ∃ raw, json_Marshal d = Some raw ∧ (0 < String.length raw)%nat ∧ json_Unmarshal raw = Some d'.

Definition to_AuditTarget (t : Target) : AuditTarget :=
  mkAuditTarget (APIVersion t) (Kind t) (TargetName t) (TargetNamespace t).
Definition of_AuditTarget (t : AuditTarget) : Target :=
  mkTarget (at_APIVersion t) (at_Kind t) (at_Name t) (at_Namespace t).

Definition defaultApprovalTimeout : Duration := 30 * Minute.

(** [approvalTimeoutOrDefault] (reactivepolicy_controller.go). *)
Definition approvalTimeoutOrDefault (policy : ReactivePolicy) : Duration :=
  if decide (ApprovalTimeout (p_Spec policy) > 0) then ApprovalTimeout (p_Spec policy)
  else defaultApprovalTimeout.

Section Mapping.
Context {W : Type} `{DetailsCodec}.
Variable exec : Registry W.

(** [toRecord]. *)
Definition toRecord (index : Z) (res : Result) : ActionRecord :=
  mkRecord index (ActionID res) (PluginName res) (to_AuditTarget (ResTarget res))
    (Status res) (Message res)
    (match exec_Lookup exec (PluginName res) with Some plugin => pl_IsReversible plugin | None => false end)
    (match Details res with
     | Some d => if decide (d = ∅) then None else json_Marshal d
     | None => None
     end).

(** [recordToResult]. *)
Definition recordToResult (rec : ActionRecord) : Result :=
  mkResult (rec_ActionID rec) (rec_Plugin rec) (of_AuditTarget (rec_Target rec)) zero_Time
    (rec_Status rec) (rec_Message rec)
    (match rec_Details rec with
     | Some raw => if decide (0 < String.length raw)%nat then json_Unmarshal raw else None
     | None => None
     end).

(** [buildSinkEvents]. *)
Definition sink_event (audit : ActionAudit) (rec : ActionRecord) : Event :=
  let m := a_Meta audit in
  let s := a_Spec audit in
  mkEvent (UID m) (Name m) (Namespace m) (PolicyRef s) (PolicyUID s) (TriggeredAt s) (MetricValue s)
    (rec_Index rec) (rec_ActionID rec) (rec_Plugin rec)
    (at_APIVersion (rec_Target rec)) (at_Kind (rec_Target rec)) (at_Namespace (rec_Target rec))
    (at_Name (rec_Target rec)) (rec_Status rec) (rec_Message rec) (rec_Reversible rec)
    (match rec_Details rec with
     | Some raw => if decide (0 < String.length raw)%nat then Some raw else None
     | None => None
     end).
Definition buildSinkEvents (audit : ActionAudit) : list Event :=
  sink_event audit <$> AuditActions (a_Spec audit).

(** The records of a run: [toRecord] with indices from [offset]. *)
Definition to_records (offset : Z) (results : list Result) : list ActionRecord :=
  imap (λ i res, toRecord (int32 (offset + Z.of_nat i)) res) results.

Lemma to_records_targets offset results (calls : list (string * ExecuteInput)) :
  Forall2 (λ r call, ResTarget r = in_Target call.2) results calls →
  Forall2 (λ rec call, rec_Target rec = to_AuditTarget (in_Target call.2)) (to_records offset results) calls.
Proof.
  intros Hal. unfold to_records. apply Forall2_same_length_lookup. split.
  - rewrite length_imap. by apply Forall2_length in Hal.
  - intros i rec call Hr Hc. rewrite list_lookup_imap in Hr. apply fmap_Some in Hr as (r & Hr & ->).
    simpl. by rewrite (Forall2_lookup_lr _ _ _ _ _ _ Hal Hr Hc).
Qed.

(** The object both writers create. *)
Definition new_audit (policy : ReactivePolicy) (triggeredAt : Time) (records : list ActionRecord)
    (gate : option ApprovalGate) : ActionAudit :=
  mkAudit
    (mkMeta EmptyString (Name (p_Meta policy) ++s "-") (Namespace (p_Meta policy)) EmptyString EmptyString
       0 zero_Time (<[LabelPolicy := Name (p_Meta policy)]> ∅))
    (mkAuditRecordSpec (Name (p_Meta policy)) (UID (p_Meta policy)) triggeredAt
       (CurrentMetricValue (p_Status policy)) records false gate)
    empty_audit_status.

(** The gate [writeGatedAudit] describes. *)
Definition new_gate (policy : ReactivePolicy) (triggeredAt : Time) (gateIdx : Z) (targets : list Target)
  : ApprovalGate :=
  mkGate (int32 gateIdx)
    (Plugin <$> drop (Z.to_nat gateIdx) (Actions (p_Spec policy)))
    (to_AuditTarget <$> targets)
    (time_Add triggeredAt (approvalTimeoutOrDefault policy))
    EmptyString EmptyString None EmptyString.

End Mapping.

Section Writers.
Context {W : Type} `{Cluster W} `{DetailsCodec}.
Variable exec : Registry W.
Variable sink : option (Sink W).

(** Forward to the sink if there is one; its error is only logged. *)
Definition forward_trigger (guard : bool) (audit : ActionAudit) : M W () :=
  match sink with
  | Some s => if guard then _ ← CallRecordTrigger s (buildSinkEvents audit); mret tt else mret tt
  | None => mret tt
  end.

Definition writeAudit (policy : ReactivePolicy) (triggeredAt : Time) (results : list Result)
  : M W (option error) :=
  created ← CreateAudit (new_audit policy triggeredAt (to_records exec 0 results) None);
  match created with
  | inl err => mret (Some (wrapf "creating audit record: " err))
  | inr audit => forward_trigger true audit;;; mret None
  end.

Definition writeGatedAudit (policy : ReactivePolicy) (triggeredAt : Time) (results : list Result)
    (gateIdx : Z) (targets : list Target) : M W (error + ActionAudit) :=
  let records := to_records exec 0 results in
  created ← CreateAudit (new_audit policy triggeredAt records
                           (Some (new_gate policy triggeredAt gateIdx targets)));
  match created with
  | inl err => mret (inl (wrapf "creating gated audit record: " err))
  | inr audit =>
      updated ← StatusUpdateAudit (set_ApprovalPhase audit PhasePending);
      match updated with
      | inl err => mret (inl (wrapf "marking audit record pending: " err))
      | inr audit =>
          forward_trigger (bool_decide (records ≠ [])) audit;;;
          mret (inr audit)
      end
  end.

End Writers.
