(* ===== verification/PolicyController.v ===== *)
(** * The ReactivePolicy reconciler: internal/controller/reactivepolicy_controller.go

    [Reconcile] walks a policy through its gates (open approval, cooldown,
    rate limit), evaluates the metric and runs [trigger] once the threshold
    has been sustained. *)

From S2P Require Import Prelude GoLib FloatLib GoTime Api ActionTypes Metrics Effects Logic Evaluator Limiter Registry Executor AuditWriter.

Definition ConditionReady : string := "Ready".
Definition ConditionMetricSourceReachable : string := "MetricSourceReachable".
Definition ConditionThresholdCrossed : string := "ThresholdCrossed".
Definition ConditionRateLimited : string := "RateLimited".
Definition ConditionAwaitingApproval : string := "AwaitingApproval".

Definition defaultPollInterval : Duration := 30 * Second.
Definition defaultCooldown : Duration := 5 * Minute.
Definition defaultMaxTriggersPerHour : Z := 5.
Definition defaultMaxResources : Z := 10.

(** [ctrl.Result]. *)
Record CtrlResult : Type := mkCtrlResult { Requeue : bool; RequeueAfter : Duration }.
Definition zero_result : CtrlResult := mkCtrlResult false 0.
Definition requeue_after (d : Duration) : CtrlResult := mkCtrlResult false d.
Definition requeue_now : CtrlResult := mkCtrlResult true 0.

Definition cooldownOrDefault (policy : ReactivePolicy) : Duration :=
  if decide (Cooldown (p_Spec policy) > 0) then Cooldown (p_Spec policy) else defaultCooldown.

Definition maxTriggersOrDefault (policy : ReactivePolicy) : Z :=
  match MaxTriggersPerHour (p_Spec policy) with
  | Some n => if decide (n > 0) then n else defaultMaxTriggersPerHour
  | None => defaultMaxTriggersPerHour
  end.

Definition pollIntervalOrDefault (policy : ReactivePolicy) : Duration :=
  if decide (PollInterval (ObserveSpec (p_Spec policy)) <= 0) then defaultPollInterval
  else PollInterval (ObserveSpec (p_Spec policy)).

Section PolicyController.
Context {W : Type} `{Cluster W} `{LocalZone} `{DetailsCodec}.

(** The reconciler's collaborators; its window and limiter live in [Mem]. *)
Variable prometheus : Factory W.
Variable exec : Registry W.
Variable sink : option (Sink W).

Definition setCondition (policy : ReactivePolicy) (condType status reason message : string)
  : M W ReactivePolicy :=
  cs ← SetStatusCondition (Conditions (p_Status policy))
         (mkCondition condType status reason message (Generation (p_Meta policy)) zero_Time);
  mret (set_Conditions policy cs).

Definition requeue (policy : ReactivePolicy) (after : Duration) : M W (CtrlResult * option error) :=
  updated ← StatusUpdatePolicy policy;
  match updated with
  | Some err =>
      if decide (Is err Conflict) then mret (requeue_now, None)
      else mret (zero_result, Some (wrapf "updating status: " err))
  | None => mret (requeue_after after, None)
  end.

Definition gateStillOpen (policy : ReactivePolicy) : M W (error + bool) :=
  got ← GetAudit (mkNN (Namespace (p_Meta policy)) (PendingGateRef (p_Status policy)));
  match got with
  | inl err =>
      if decide (Is err NotFound) then mret (inr false)
      else mret (inl (wrapf "fetching pending gate record: " err))
  | inr audit => mret (inr (bool_decide (ApprovalPhase (a_Status audit) = PhasePending)))
  end.

(** The targets of one kind. *)
Definition list_kind (policy : ReactivePolicy) (sel : Selector_) (acc : error + list Target) (kind : TargetKind)
  : M W (error + list Target) :=
  match acc with
  | inl err => mret (inl err)
  | inr targets =>
      items ← ListObjects (Namespace (p_Meta policy)) (tk_APIVersion kind) (tk_Kind kind ++s "List") sel;
      match items with
      | inl err => mret (inl (wrapf ("listing " ++s tk_APIVersion kind ++s " " ++s tk_Kind kind ++s ": ") err))
      | inr l =>
          mret (inr (targets ++ ((λ '(ns, name), mkTarget (tk_APIVersion kind) (tk_Kind kind) name ns) <$> l)))
      end
  end.

Definition resolveTargets (policy : ReactivePolicy) : M W (error + list Target) :=
  match LabelSelectorAsSelector (Selector (SpecTarget (p_Spec policy))) with
  | inl err => mret (inl (wrapf "invalid target selector: " err))
  | inr sel =>
      let maxResources := match MaxResources (SpecTarget (p_Spec policy)) with
                          | Some n => n
                          | None => defaultMaxResources
                          end in
      resolved ← foldM (list_kind policy sel) (inr []) (Kinds (SpecTarget (p_Spec policy)));
      match resolved with
      | inl err => mret (inl err)
      | inr targets =>
          if decide (Z.of_nat (length targets) > maxResources) then
            mret (inl (errorf ("target selector matched " ++s fmt_d (Z.of_nat (length targets)) ++s
                               " resources, exceeding maxResources " ++s fmt_d maxResources)))
          else mret (inr targets)
      end
  end.

(** The gated half of [trigger]: the record is written, the rest is held. *)
Definition trigger_gated (policy : ReactivePolicy) (key : string) (now : Time) (pollInterval : Duration)
    (gateIdx : Z) (targets : list Target) (results : list Result) : M W (CtrlResult * option error) :=
  written ← writeGatedAudit exec sink policy now results gateIdx targets;
  policy ← match written with
           | inl _ => mret (set_State policy StateTriggering)
           | inr audit =>
               let policy := set_State (set_PendingGateRef policy (Name (a_Meta audit))) StateAwaitingApproval in
               limiter_Observe (Namespace (p_Meta policy)) (Name (p_Meta policy)) now;;;
               modify_metrics (RecordGateOpened (Namespace (p_Meta policy)));;;
               setCondition policy ConditionAwaitingApproval ConditionTrue "AwaitingApproval"
                 (fmt_d (Z.of_nat (length (Actions (p_Spec policy))) - gateIdx) ++s
                  " action(s) holding for approval on " ++s fmt_q (Name (a_Meta audit)))
           end;
  Window_Forget key;;;
  requeue policy pollInterval.

(** The ungated half: cooldown starts, the record is written. *)
Definition trigger_ungated (policy : ReactivePolicy) (key : string) (now : Time) (pollInterval : Duration)
    (results : list Result) : M W (CtrlResult * option error) :=
  let policy := set_State (set_LastTriggeredAt policy (Some now)) StateTriggering in
  written ← writeAudit exec sink policy now results;
  match written with
  | Some _ => mret tt
  | None => limiter_Observe (Namespace (p_Meta policy)) (Name (p_Meta policy)) now
  end;;;
  Window_Forget key;;;
  requeue policy pollInterval.

Definition trigger (ctx : Context) (policy : ReactivePolicy) (key : string) (now : Time)
    (pollInterval : Duration) : M W (CtrlResult * option error) :=
  let ctx := WithClient ctx in
  resolved ← resolveTargets policy;
  match resolved with
  | inl resolveErr =>
      policy ← setCondition policy ConditionReady ConditionFalse "TargetResolutionFailed" (err_msg resolveErr);
      requeue policy pollInterval
  | inr targets =>
      let targets := match targets with
                     | [] => [mkTarget EmptyString EmptyString EmptyString (Namespace (p_Meta policy))]
                     | _ => targets
                     end in
      let gateIdx := GateIndex policy in
      let runTo := if decide (gateIdx >= 0) then gateIdx
                   else Z.of_nat (length (Actions (p_Spec policy))) in
      '(results, runErr) ← run_targets exec ctx policy (CurrentMetricValue (p_Status policy)) 0 runTo targets;
      let policy := set_TriggerCount policy (int32 (TriggerCount (p_Status policy) + 1)) in
      modify_metrics (RecordTriggerMetric (Namespace (p_Meta policy)));;;
      if decide (gateIdx >= 0) then trigger_gated policy key now pollInterval gateIdx targets results
      else trigger_ungated policy key now pollInterval results
  end.

(** Evaluation, after every gate let the policy through (lines 146-203). *)
Definition evaluate (ctx : Context) (policy : ReactivePolicy) (key : string) (now : Time)
    (pollInterval : Duration) : M W (CtrlResult * option error) :=
  let obs := ObserveSpec (p_Spec policy) in
  let name := Name (p_Meta policy) in
  let namespace := Namespace (p_Meta policy) in
  let policy := set_LastEvaluatedAt (set_State policy StateWatching) (Some now) in
  policy ← setCondition policy ConditionRateLimited ConditionFalse "WithinLimit"
             "policy is within its trigger rate limit";
  match prometheus (Endpoint obs) [] with
  | inl err =>
      modify_metrics (RecordEvaluation name namespace ResultError);;;
      policy ← setCondition policy ConditionMetricSourceReachable ConditionFalse "ClientError" (err_msg err);
      policy ← setCondition policy ConditionReady ConditionTrue "Evaluating" "policy is being evaluated";
      requeue policy pollInterval
  | inr promClient =>
      answer ← CallQuery promClient (Query obs);
      match answer with
      | inl queryErr =>
          modify_metrics RecordQueryError;;;
          modify_metrics (RecordEvaluation name namespace ResultError);;;
          Window_Forget key;;;
          policy ← setCondition policy ConditionMetricSourceReachable ConditionFalse "QueryFailed" (err_msg queryErr);
          policy ← setCondition policy ConditionReady ConditionTrue "Evaluating" "policy is being evaluated";
          requeue policy pollInterval
      | inr value =>
          policy ← setCondition policy ConditionMetricSourceReachable ConditionTrue "QuerySucceeded"
                     "metric query succeeded";
          let policy := set_CurrentMetricValue policy (FormatFloat value) in
          match ParseThreshold (Threshold obs) with
          | inl err =>
              modify_metrics (RecordEvaluation name namespace ResultError);;;
              let policy := set_State policy StateInvalid in
              policy ← setCondition policy ConditionReady ConditionFalse "InvalidThreshold" (err_msg err);
              requeue policy pollInterval
          | inr threshold =>
              policy ← setCondition policy ConditionReady ConditionTrue "Evaluating" "policy is being evaluated";
              let crossed := Compare value threshold (Operator obs) in
              modify_metrics (RecordEvaluation name namespace (if crossed then ResultCrossed else ResultWithin));;;
              crossedFor ← Window_Observe key crossed now;
              let sustained := crossed && bool_decide (crossedFor >= ObsDuration obs) in
              policy ← (if crossed then
                          setCondition policy ConditionThresholdCrossed ConditionTrue "ThresholdCrossed"
                            ("value " ++s CurrentMetricValue (p_Status policy) ++s " " ++s Operator obs ++s
                             " threshold " ++s Threshold obs)
                        else
                          setCondition policy ConditionThresholdCrossed ConditionFalse "WithinThreshold"
                            "metric value is within the configured threshold");
              if (sustained : bool) then trigger ctx policy key now pollInterval
              else requeue policy pollInterval
          end
      end
  end.

(** Gate 2: the hourly rate limit (lines 130-144). *)
Definition gate2 (ctx : Context) (policy : ReactivePolicy) (key : string) (now : Time)
    (pollInterval : Duration) : M W (CtrlResult * option error) :=
  allowed ← Allowed (Namespace (p_Meta policy)) (Name (p_Meta policy)) (maxTriggersOrDefault policy)
              now pollInterval;
  match allowed with
  | inl _ => requeue policy pollInterval
  | inr false =>
      let policy := set_State policy StateRateLimited in
      modify_metrics (RecordRateLimited (Namespace (p_Meta policy)));;;
      policy ← setCondition policy ConditionRateLimited ConditionTrue "RateLimited"
                 "policy hit its maxTriggersPerHour cap";
      policy ← setCondition policy ConditionReady ConditionTrue "RateLimited" "policy is valid but rate limited";
      requeue policy pollInterval
  | inr true => evaluate ctx policy key now pollInterval
  end.

(** Gate 1: cooldown (lines 118-128). *)
Definition gate1 (ctx : Context) (policy : ReactivePolicy) (key : string) (now : Time)
    (pollInterval : Duration) : M W (CtrlResult * option error) :=
  match LastTriggeredAt (p_Status policy) with
  | Some last =>
      let cooldown := cooldownOrDefault policy in
      let elapsed := time_Sub now last in
      if decide (elapsed < cooldown) then
        let policy := set_State policy StateCooldown in
        policy ← setCondition policy ConditionReady ConditionTrue "CoolingDown"
                   "policy is cooling down after a recent trigger";
        requeue policy (int64 (cooldown - elapsed))
      else gate2 ctx policy key now pollInterval
  | None => gate2 ctx policy key now pollInterval
  end.

(** Gate 0: an open approval gate (lines 94-116). *)
Definition gate0 (ctx : Context) (policy : ReactivePolicy) (key : string) (now : Time)
    (pollInterval : Duration) : M W (CtrlResult * option error) :=
  if decide (PendingGateRef (p_Status policy) ≠ EmptyString) then
    open ← gateStillOpen policy;
    match open with
    | inl _ => requeue policy pollInterval
    | inr true =>
        let policy := set_State policy StateAwaitingApproval in
        policy ← setCondition policy ConditionAwaitingApproval ConditionTrue "AwaitingApproval"
                   ("pipeline is holding for a decision on " ++s fmt_q (PendingGateRef (p_Status policy)));
        policy ← setCondition policy ConditionReady ConditionTrue "AwaitingApproval"
                   "policy is valid and waiting for an approval decision";
        requeue policy pollInterval
    | inr false =>
        let policy := set_PendingGateRef policy EmptyString in
        policy ← setCondition policy ConditionAwaitingApproval ConditionFalse "GateClosed"
                   "no approval gate is open";
        gate1 ctx policy key now pollInterval
    end
  else gate1 ctx policy key now pollInterval.

Definition Reconcile (ctx : Context) (req : NamespacedName) : M W (CtrlResult * option error) :=
  let key := nn_String req in
  got ← GetPolicy req;
  match got with
  | inl err =>
      if decide (Is err NotFound) then
        Window_Forget key;;;
        limiter_Forget (nn_Namespace req) (nn_Name req);;;
        modify_metrics (UntrackPolicy (nn_Namespace req) (nn_Name req));;;
        mret (zero_result, None)
      else mret (zero_result, Some (wrapf "fetching policy: " err))
  | inr policy =>
      modify_metrics (TrackPolicy (Namespace (p_Meta policy)) (Name (p_Meta policy)));;;
      let pollInterval := pollIntervalOrDefault policy in
      now ← Now;
      gate0 ctx policy key now pollInterval
  end.

End PolicyController.
