(* ===== verification/AuditController.v ===== *)
(** * The ActionAudit reconciler: internal/controller/actionaudit_controller.go

    Retention, resolution of an open approval gate (release, denial, expiry),
    and one-shot reverts. *)

From S2P Require Import Prelude GoLib GoTime Api ActionTypes Metrics Effects Logic Registry Executor AuditWriter PolicyController.

Definition ConditionReverted : string := "Reverted".
Definition ConditionApproved : string := "Approved".

Definition day : Duration := 24 * Hour.
Definition year : Duration := 365 * day.
Definition defaultRetention : Duration := 30 * 24 * Hour.

(** [parseRetention]: Go durations plus the day and year units.  The product
    [time.Duration(n) * day] is a 64-bit multiplication. *)
Definition parseRetention (s : string) : error + Duration :=
  let s := TrimSpace s in
  if decide (HasSuffix s "d") then
    match Atoi (TrimSuffix s "d") with
    | inl err => inl (wrapf ("invalid day retention " ++s fmt_q s ++s ": ") err)
    | inr n => inr (int64 (n * day))
    end
  else if decide (HasSuffix s "y") then
    match Atoi (TrimSuffix s "y") with
    | inl err => inl (wrapf ("invalid year retention " ++s fmt_q s ++s ": ") err)
    | inr n => inr (int64 (n * year))
    end
  else ParseDuration s.

Definition decidedByOrUnknown (gate : option ApprovalGate) : string :=
  match gate with
  | Some g => if decide (DecidedBy g ≠ EmptyString) then DecidedBy g else "unknown"
  | None => "unknown"
  end.

(** How long a gate was open, in seconds. *)
Definition gateWaited (audit : ActionAudit) (until : Time) : float64 :=
  Seconds (time_Sub until (TriggeredAt (a_Spec audit))).

(** The records [closeGate] appends for what the gate held. *)
Definition skipped_records (offset : Z) (message : string) (plugins : list string) : list ActionRecord :=
  imap (λ i plugin, mkRecord (int32 (offset + Z.of_nat i)) EmptyString plugin
                      (mkAuditTarget EmptyString EmptyString EmptyString EmptyString)
                      StatusSkipped message false None) plugins.

(** The retention a fetched policy asks for; the default when it cannot be
    fetched, asks for none, or asks for one that does not parse. *)
Definition retention_of (got : error + ReactivePolicy) : Duration :=
  match got with
  | inl _ => defaultRetention
  | inr policy =>
      match Audit (p_Spec policy) with
      | None => defaultRetention
      | Some spec =>
          if decide (Retention spec = EmptyString) then defaultRetention else
          match parseRetention (Retention spec) with
          | inl _ => defaultRetention
          | inr d => d
          end
      end
  end.

Section AuditController.
Context {W : Type} `{Cluster W} `{LocalZone} `{DetailsCodec}.
Variable exec : Registry W.
Variable sink : option (Sink W).

Definition retentionFor (audit : ActionAudit) : M W Duration :=
  got ← GetPolicy (mkNN (Namespace (a_Meta audit)) (PolicyRef (a_Spec audit)));
  mret (retention_of got).

Definition buildRevertEvents (audit : ActionAudit) (results : list RevertResult) (clock : Time)
  : list RevertEvent :=
  let revertedAt := match RevertedAt (a_Status audit) with Some t => t | None => clock end in
  (λ rr, mkRevertEvent (UID (a_Meta audit)) (Name (a_Meta audit)) (Namespace (a_Meta audit))
           (PolicyRef (a_Spec audit)) (rr_Index rr) (rr_Plugin rr) revertedAt (rr_Status rr) (rr_Message rr))
    <$> results.

Definition set_audit_condition (audit : ActionAudit) (ty status reason message : string) : M W ActionAudit :=
  cs ← SetStatusCondition (AuditConditions (a_Status audit)) (mkCondition ty status reason message 0 zero_Time);
  mret (set_AuditConditions audit cs).

(** [startCooldown]: a failed status write is only logged. *)
Definition startCooldown (policy : ReactivePolicy) (at_ : Time) : M W () :=
  let policy := set_State (set_PendingGateRef (set_LastTriggeredAt policy (Some at_)) EmptyString) StateCooldown in
  _ ← StatusUpdatePolicy policy;
  mret tt.

(** A write that failed: a conflict requeues, anything else is an error. *)
Definition write_failed (err : error) (pre : string) : CtrlResult * option error :=
  if decide (Is err Conflict) then (requeue_now, None) else (zero_result, Some (wrapf pre err)).

Definition closeGate (audit : ActionAudit) (phase : ApprovalPhaseT) (reason message : string) (expiry : Time)
  : M W (CtrlResult * option error) :=
  written ← match Gate (a_Spec audit) with
            | Some gate =>
                if decide (PendingPlugins gate ≠ []) then
                  let offset := Z.of_nat (length (AuditActions (a_Spec audit))) in
                  UpdateAudit (set_AuditActions audit
                    (AuditActions (a_Spec audit) ++ skipped_records offset message (PendingPlugins gate)))
                else mret (inr audit)
            | None => mret (inr audit)
            end;
  match written with
  | inl err => mret (write_failed err "recording skipped actions: ")
  | inr audit =>
      now ← Now;
      audit ← set_audit_condition (set_ApprovalPhase audit phase) ConditionApproved ConditionFalse reason message;
      updated ← StatusUpdateAudit audit;
      match updated with
      | inl err => mret (write_failed err "updating gate status: ")
      | inr audit =>
          let outcome := if decide (phase = PhaseExpired) then "expired" else "denied" in
          modify_metrics (RecordGateResolved (Namespace (a_Meta audit)) outcome (gateWaited audit now));;;
          got ← GetPolicy (mkNN (Namespace (a_Meta audit)) (PolicyRef (a_Spec audit)));
          match got with
          | inl _ => mret tt
          | inr policy => startCooldown policy now
          end;;;
          left ← Until expiry;
          mret (requeue_after left, None)
      end
  end.

(** [releaseGate], from the recorded targets to the end. *)
Definition releaseGate (ctx : Context) (audit : ActionAudit) (gate : ApprovalGate) (expiry : Time)
  : M W (CtrlResult * option error) :=
  got ← GetPolicy (mkNN (Namespace (a_Meta audit)) (PolicyRef (a_Spec audit)));
  match got with
  | inl err =>
      if decide (Is err NotFound) then
        closeGate audit PhaseDenied "PolicyGone"
          "the policy was deleted while the gate was open; held actions were not run" expiry
      else mret (zero_result, Some (wrapf "fetching policy for approved gate: " err))
  | inr policy =>
      if decide (PolicyUID (a_Spec audit) ≠ EmptyString ∧ UID (p_Meta policy) ≠ PolicyUID (a_Spec audit)) then
        closeGate audit PhaseDenied "PolicyReplaced"
          "the policy was replaced while the gate was open; held actions were not run" expiry
      else
        let ctx := WithClient ctx in
        let targets := of_AuditTarget <$> GateTargets gate in
        let targets := match targets with
                       | [] => [mkTarget EmptyString EmptyString EmptyString (Namespace (a_Meta audit))]
                       | _ => targets
                       end in
        let from := ActionIndex gate in
        let to := Z.of_nat (length (Actions (p_Spec policy))) in
        if decide (Z.of_nat (length targets) * (to - from) < 0) then
          panic "runtime error: makeslice: cap out of range"
        else
        '(results, runErr) ← run_targets exec ctx policy (MetricValue (a_Spec audit)) from to targets;
        let offset := Z.of_nat (length (AuditActions (a_Spec audit))) in
        written ← UpdateAudit (set_AuditActions audit
                    (AuditActions (a_Spec audit) ++ to_records exec offset results));
        match written with
        | inl err => mret (write_failed err "recording released actions: ")
        | inr audit =>
            now ← Now;
            audit ← set_audit_condition (set_ResumedAt (set_ApprovalPhase audit PhaseApproved) (Some now))
                      ConditionApproved ConditionTrue "Released"
                      ("approved by " ++s decidedByOrUnknown (Some gate) ++s "; ran " ++s
                       fmt_d (Z.of_nat (length results)) ++s " held action(s)");
            updated ← StatusUpdateAudit audit;
            match updated with
            | inl err => mret (write_failed err "updating gate status: ")
            | inr audit =>
                modify_metrics (RecordGateResolved (Namespace (a_Meta audit)) "approved" (gateWaited audit now));;;
                forward_trigger sink (bool_decide (results ≠ [])) audit;;;
                startCooldown policy now;;;
                left ← Until expiry;
                mret (requeue_after left, None)
            end
        end
  end.

Definition resolveGate (ctx : Context) (audit : ActionAudit) (expiry : Time) : M W (CtrlResult * option error) :=
  match Gate (a_Spec audit) with
  | None =>
      closeGate audit PhaseDenied "GateMissing" "record was pending with no gate description" expiry
  | Some gate =>
      if decide (Decision_ gate = DecisionApproved) then releaseGate ctx audit gate expiry
      else if decide (Decision_ gate = DecisionDenied) then
        closeGate audit PhaseDenied "Denied" ("denied by " ++s decidedByOrUnknown (Some gate)) expiry
      else
        now ← Now;
        if decide (¬ time_Before now (ExpiresAt gate)) then
          closeGate audit PhaseExpired "Expired"
            ("no decision within the approval timeout; " ++s
             fmt_d (Z.of_nat (length (PendingPlugins gate))) ++s " action(s) were not run") expiry
        else
          left ← Until (ExpiresAt gate);
          mret (requeue_after left, None)
  end.

Definition reverseOne (ctx : Context) (rec : ActionRecord) : M W RevertResult :=
  let out := mkRevertResult (rec_Index rec) (rec_Plugin rec) in
  if decide (rec_Status rec ≠ StatusSucceeded) then
    mret (out StatusSkipped "action did not succeed; nothing to reverse")
  else if negb (rec_Reversible rec) then mret (out StatusSkipped "plugin is not reversible")
  else match exec_Lookup exec (rec_Plugin rec) with
       | None => mret (out StatusFailed "plugin not registered")
       | Some plugin =>
           err ← CallReverse plugin ctx (recordToResult rec);
           match err with
           | Some e => mret (out StatusFailed (err_msg e))
           | None => mret (out StatusSucceeded "reversed")
           end
       end.

Definition revert (ctx : Context) (audit : ActionAudit) (expiry : Time) : M W (CtrlResult * option error) :=
  let ctx := WithClient ctx in
  results ← foldM (λ acc rec, rr ← reverseOne ctx rec; mret (acc ++ [rr])) []
              (reverse (AuditActions (a_Spec audit)));
  now ← Now;
  audit ← set_audit_condition (set_Reverted audit true (Some now) results) ConditionReverted ConditionTrue
            "RevertProcessed" ("processed revert of " ++s fmt_d (Z.of_nat (length results)) ++s " actions");
  updated ← StatusUpdateAudit audit;
  match updated with
  | inl err => mret (write_failed err "updating audit status: ")
  | inr audit =>
      match sink with
      | Some s =>
          clock ← Now;
          _ ← CallRecordRevert s (buildRevertEvents audit results clock);
          mret tt
      | None => mret tt
      end;;;
      left ← Until expiry;
      mret (requeue_after left, None)
  end.

Definition Reconcile (ctx : Context) (req : NamespacedName) : M W (CtrlResult * option error) :=
  got ← GetAudit req;
  match got with
  | inl err =>
      if decide (Is err NotFound) then mret (zero_result, None)
      else mret (zero_result, Some (wrapf "fetching audit record: " err))
  | inr audit =>
      retention ← retentionFor audit;
      let expiry := time_Add (CreationTimestamp (a_Meta audit)) retention in
      remaining ← Until expiry;
      if decide (remaining <= 0) then
        deleted ← DeleteAudit audit;
        match deleted with
        | Some err =>
            if decide (¬ Is err NotFound) then
              mret (zero_result, Some (wrapf "deleting expired audit record: " err))
            else mret (zero_result, None)
        | None => mret (zero_result, None)
        end
      else if decide (ApprovalPhase (a_Status audit) = PhasePending) then resolveGate ctx audit expiry
      else if RevertRequested (a_Spec audit) && negb (Reverted (a_Status audit)) then revert ctx audit expiry
      else
        left ← Until expiry;
        mret (requeue_after left, None)
  end.

End AuditController.
