(* ===== verification/PolicyWebhook.v ===== *)
(** * Admission of policies: internal/webhook/v1alpha1/reactivepolicy_webhook.go *)

From S2P Require Import Prelude GoLib GoTime Api ActionTypes Metrics Effects Logic Registry.

Definition minCooldown : Duration := 30 * Second.
Definition maxCooldown : Duration := 24 * Hour.
Definition minPollInterval : Duration := 10 * Second.
Definition maxPollInterval : Duration := 5 * Minute.
Definition minDuration_ : Duration := 30 * Second.
Definition maxDuration_ : Duration := 24 * Hour.
Definition minApprovalTimeout : Duration := Minute.
Definition maxApprovalTimeout : Duration := 24 * Hour.

(** ** field.Error: a type, a path, the bad value, a detail *)
Inductive ErrorType : Type := NotSupported | Invalid | Forbidden | FieldNotFound.
Inductive PathElem : Type := Child (name : string) | Index (i : Z).
Inductive BadValue : Type := BadString (s : string) | BadDuration (d : Duration) | NoValue.
Record FieldError : Type := mkFieldError {
  fe_Type : ErrorType; fe_Field : list PathElem; fe_BadValue : BadValue; fe_Detail : string }.

#[export] Instance ErrorType_eq_dec : EqDecision ErrorType.
Proof. solve_decision. Defined.
#[export] Instance PathElem_eq_dec : EqDecision PathElem.
Proof. solve_decision. Defined.
#[export] Instance BadValue_eq_dec : EqDecision BadValue.
Proof. solve_decision. Defined.
#[export] Instance FieldError_eq_dec : EqDecision FieldError.
Proof. solve_decision. Defined.

Definition validateObserve (path : list PathElem) (o : Observe) : list FieldError :=
  (if decide (Source o ≠ SourcePrometheus)
   then [mkFieldError NotSupported (path ++ [Child "source"]) (BadString (Source o)) SourcePrometheus] else []) ++
  (if decide (ObsDuration o < minDuration_ ∨ ObsDuration o > maxDuration_)
   then [mkFieldError Invalid (path ++ [Child "duration"]) (BadDuration (ObsDuration o))
           "must be between 30s and 24h0m0s"] else []) ++
  (if decide (PollInterval o ≠ 0 ∧ (PollInterval o < minPollInterval ∨ PollInterval o > maxPollInterval))
   then [mkFieldError Invalid (path ++ [Child "pollInterval"]) (BadDuration (PollInterval o))
           "must be between 10s and 5m0s"] else []).

Definition validateTimings (path : list PathElem) (s : ReactivePolicySpec) : list FieldError :=
  (if decide (Cooldown s ≠ 0 ∧ (Cooldown s < minCooldown ∨ Cooldown s > maxCooldown))
   then [mkFieldError Invalid (path ++ [Child "cooldown"]) (BadDuration (Cooldown s))
           "must be between 30s and 24h0m0s"] else []) ++
  (if decide (ApprovalTimeout s ≠ 0 ∧ (ApprovalTimeout s < minApprovalTimeout ∨ ApprovalTimeout s > maxApprovalTimeout))
   then [mkFieldError Invalid (path ++ [Child "approvalTimeout"]) (BadDuration (ApprovalTimeout s))
           "must be between 1m0s and 24h0m0s"] else []).

Section Validator.
Context {W : Type}.
Variable registry : Registry W.

(** One action: its errors, the new [gated] index, and whether validation
    recorded a plugin error.  The second component mirrors the variable of
    the Go loop. *)
Definition validate_action (path : list PathElem) (allowIrreversible : bool) (i : Z) (act : ActionSpec) (gated : Z)
  : M W (list FieldError * Z) :=
  let p := path ++ [Index i] in
  let '(gate_errs, gated') :=
    if RequiresApproval act then
      if decide (gated >= 0) then
        ([mkFieldError Forbidden (p ++ [Child "requiresApproval"]) NoValue
            ("a pipeline may hold for approval once; action " ++s fmt_d gated ++s " already does")], gated)
      else ([], i)
    else ([], gated) in
  match Lookup registry (Plugin act) with
  | None =>
      modify_metrics (RecordValidationError (Plugin act));;;
      mret (gate_errs ++ [mkFieldError FieldNotFound (p ++ [Child "plugin"]) (BadString (Plugin act)) EmptyString],
            gated')
  | Some plugin =>
      param_errs ← match pl_Validate plugin (ParamsFromCRD (ActParams act)) with
                   | Some err =>
                       modify_metrics (RecordValidationError (Plugin act));;;
                       mret [mkFieldError Invalid (p ++ [Child "params"]) (BadString (Plugin act)) (err_msg err)]
                   | None => mret []
                   end;
      let rev_errs :=
        if negb (pl_IsReversible plugin) && negb allowIrreversible then
          [mkFieldError Forbidden (p ++ [Child "plugin"]) NoValue
             ("plugin " ++s fmt_q (Plugin act) ++s
              " is irreversible; set spec.allowIrreversible=true to permit it")]
        else [] in
      mret (gate_errs ++ param_errs ++ rev_errs, gated')
  end.

Fixpoint validate_actions_from (path : list PathElem) (allowIrreversible : bool) (i gated : Z)
    (acts : list ActionSpec) : M W (list FieldError) :=
  match acts with
  | [] => mret []
  | act :: acts' =>
      '(errs, gated') ← validate_action path allowIrreversible i act gated;
      rest ← validate_actions_from path allowIrreversible (i + 1) gated' acts';
      mret (errs ++ rest)
  end.

Definition validateActions (path : list PathElem) (s : ReactivePolicySpec) : M W (list FieldError) :=
  validate_actions_from path (AllowIrreversible s) 0 (-1) (Actions s).

(** [validate]: [None] admits; [Some] carries [apierrors.NewInvalid]'s list. *)
Definition validate (policy : ReactivePolicy) : M W (option (list FieldError)) :=
  let spec := [Child "spec"] in
  action_errs ← validateActions (spec ++ [Child "actions"]) (p_Spec policy);
  let errs := validateObserve (spec ++ [Child "observe"]) (ObserveSpec (p_Spec policy)) ++
              validateTimings spec (p_Spec policy) ++ action_errs in
  mret (if decide (errs = []) then None else Some errs).

Definition ValidateCreate (policy : ReactivePolicy) : M W (option (list FieldError)) := validate policy.
Definition ValidateUpdate (_ newObj : ReactivePolicy) : M W (option (list FieldError)) := validate newObj.
Definition ValidateDelete (_ : ReactivePolicy) : M W (option (list FieldError)) := mret None.

End Validator.
