(* ===== verification/AuditWebhook.v ===== *)
(** * Admission of approval decisions: internal/webhook/v1alpha1/actionaudit_webhook.go *)

From S2P Require Import Prelude GoLib GoTime Api ActionTypes Metrics Effects Logic.

(** ** The admission request and response *)

Definition OpUpdate : string := "UPDATE".

Record Request : Type := mkRequest {
  Operation : string;
  Object : string;
  OldObject : string;
  Username : string }.

Inductive Response : Type :=
| ResAllowed
| ResDenied (reason : string)
| ResErrored (code : Z) (err : error)
| ResPatched (original current : string).

(** The scheme's decoder and the JSON encoder, from raw objects to audits. *)
Class AuditCodec : Type := {
  Decode : string → error + ActionAudit;
  Marshal : ActionAudit → error + string }.

(** What the handler relies on: an encoded audit decodes to itself. *)
Class AuditCodecLaws `{AuditCodec} : Prop := {
  Decode_Marshal : ∀ a raw, Marshal a = inr raw → Decode raw = inr a }.

Definition StatusBadRequest : Z := 400.
Definition StatusInternalServerError : Z := 500.

(** [requesterName]. *)
Definition requesterName (req : Request) : string :=
  if decide (Username req ≠ EmptyString) then Username req else "unknown".

(** [sameTime]: instants, not representations. *)
Definition sameTime (a b : option Time) : bool :=
  match a, b with
  | None, None => true
  | None, _ | _, None => false
  | Some t, Some u => bool_decide (t = u)
  end.

(** The copy with [Spec.Gate.DecidedBy] and [Spec.Gate.DecidedAt] assigned, as a
    value; [DeepCopy.stamp] is the same through pointers. *)
Definition stamped (newAudit : ActionAudit) (newGate : ApprovalGate) (requester : string) (now : Time)
  : ActionAudit :=
  set_Gate newAudit (Some (set_Decided newGate requester (Some now))).

Definition zero_audit : ActionAudit :=
  mkAudit (mkMeta EmptyString EmptyString EmptyString EmptyString EmptyString 0 zero_Time ∅)
    (mkAuditRecordSpec EmptyString EmptyString zero_Time EmptyString [] false None)
    empty_audit_status.

Section Handler.
Context {W : Type} `{Cluster W} `{AuditCodec}.

(** [ActionAuditApprovalHandler.Handle]. *)
Definition Handle (req : Request) : M W Response :=
  if decide (Operation req ≠ OpUpdate) then mret ResAllowed else
  match Decode (Object req) with
  | inl err => mret (ResErrored StatusBadRequest err)
  | inr newAudit =>
  match (if decide (0 < String.length (OldObject req))%nat then Decode (OldObject req) else inr zero_audit) with
  | inl err => mret (ResErrored StatusBadRequest err)
  | inr oldAudit =>
  match Gate (a_Spec newAudit), Gate (a_Spec oldAudit) with
  | None, None => mret ResAllowed
  | None, Some _ => mret (ResDenied "spec.gate cannot be removed; the approval trail is part of the record")
  | Some _, None =>
      mret (ResDenied "spec.gate is opened by the operator when a pipeline stops at a gated action; it cannot be added by a client")
  | Some newGate, Some oldGate =>
      if decide (Decision_ newGate = Decision_ oldGate) then
        if decide (DecidedBy newGate ≠ DecidedBy oldGate ∨ sameTime (DecidedAt newGate) (DecidedAt oldGate) = false)
        then mret (ResDenied "spec.gate.decidedBy and spec.gate.decidedAt are stamped from the authenticated request and cannot be written directly")
        else mret ResAllowed
      else if decide (Decision_ oldGate ≠ EmptyString) then
        mret (ResDenied ("spec.gate.decision is write-once; this gate was already " ++s Decision_ oldGate))
      else if decide (Decision_ newGate ≠ DecisionApproved ∧ Decision_ newGate ≠ DecisionDenied) then
        mret (ResDenied ("spec.gate.decision must be " ++s fmt_q DecisionApproved ++s " or " ++s fmt_q DecisionDenied))
      else if decide (ApprovalPhase (a_Status oldAudit) ≠ PhasePending) then
        mret (ResDenied ("this gate is not open for a decision; its approval phase is " ++s
                         fmt_q (ApprovalPhase (a_Status oldAudit))))
      else
        t ← Now;
        if decide (¬ time_Before t (ExpiresAt oldGate)) then
          mret (ResDenied "the approval gate has expired; the actions it held will not run")
        else
          now ← Now;
          let patched := stamped newAudit newGate (requesterName req) now in
          match Marshal patched with
          | inl err => mret (ResErrored StatusInternalServerError err)
          | inr marshaled => mret (ResPatched (Object req) marshaled)
          end
  end end end.

(** The object the API server stores after an admitted update. *)
Definition admitted (req : Request) (res : Response) : option ActionAudit :=
  match res with
  | ResAllowed => match Decode (Object req) with inr a => Some a | inl _ => None end
  | ResPatched _ current => match Decode current with inr a => Some a | inl _ => None end
  | _ => None
  end.

End Handler.
