(* ===== verification/Cli.v ===== *)
(** * The command line client: pkg/cli

    The [rp] commands over the same API server the operator uses.  A command
    runs in the monad of the handlers and returns what it wrote to stdout and
    its error.  Cobra's argument parsing and the kubeconfig loader are
    outside; a table is the sequence of rows handed to the tab writer, and a
    JSON or YAML output the object handed to the encoder. *)

From S2P Require Import Prelude GoLib FloatLib GoTime Api ActionTypes Metrics Effects Logic Evaluator Registry Executor Scheme.

(** ** Reports and output *)

Record dryRunAction : Type := mkDryRunAction {
  da_Index : Z; da_Plugin : string; da_Reversible : bool; da_OnFailure : string;
  da_Valid : bool; da_Error : string }.

Record dryRunReport : Type := mkReport {
  dr_Policy : string;
  dr_Namespace : string;
  dr_MetricValue : string;
  dr_Threshold : string;
  dr_Operator : string;
  dr_Crossed : bool;
  dr_DurationRequired : string;
  dr_QueryError : string;
  dr_Actions : list dryRunAction;
  dr_WouldTrigger : bool }.

Record pluginInfo : Type := mkPluginInfo {
  pi_Name : string; pi_Reversible : bool; pi_Permissions : Z; pi_Description : string }.

(** The objects [printObject] encodes. *)
Inductive Obj : Type :=
| ObjPolicies (l : list ReactivePolicy)
| ObjPolicy (p : ReactivePolicy)
| ObjAudits (l : list ActionAudit)
| ObjReport (r : dryRunReport)
| ObjPlugins (l : list pluginInfo).

Inductive Out : Type :=
| Line (s : string)
| Row (cells : list string)
| OutJSON (kind : option GroupVersionKind) (o : Obj)
| OutYAML (kind : option GroupVersionKind) (o : Obj).

Definition outputTable : string := "table".
Definition outputJSON : string := "json".
Definition outputYAML : string := "yaml".

(** The type of an object of the API; the reports are plain values. *)
Definition go_type (o : Obj) : option GoType :=
  match o with
  | ObjPolicies _ => Some GoReactivePolicyList
  | ObjPolicy _ => Some GoReactivePolicy
  | ObjAudits _ => Some GoActionAuditList
  | ObjReport _ | ObjPlugins _ => None
  end.

(** [ensureGVK]: the kind stamped on the object, if any.  Building the scheme
    may panic. *)
Definition ensureGVK {W} `{RuntimeScheme} (o : Obj) : M W (option GroupVersionKind) :=
  match go_type o with
  | None => mret None
  | Some t =>
      match scheme with
      | Panic msg => panic msg
      | Val s => mret (match ObjectKinds s t with inr (gvk :: _) => Some gvk | _ => None end)
      end
  end.

(** [printObject]: handled, or left to the table printer. *)
Definition printObject {W} `{RuntimeScheme} (output : string) (o : Obj) : M W (option (list Out)) :=
  gvk ← (if decide (output = outputJSON ∨ output = outputYAML) then ensureGVK o else mret None);
  mret (if decide (output = outputJSON) then Some [OutJSON gvk o]
        else if decide (output = outputYAML) then Some [OutYAML gvk o]
        else None).

Definition fmt_t (b : bool) : string := if b then "true" else "false".
Definition orNone (s : string) : string := if decide (s = EmptyString) then "<none>" else s.

(** [truncate]: byte slicing, an ellipsis (three bytes) for the last one. *)
Definition ellipsis : string := of_bytes [226; 128; 166]%nat.
Definition truncate (s : string) (max : Z) : outcome string :=
  if decide (Z.of_nat (String.length s) <= max) then Val s
  else if decide (max - 1 < 0) then Panic "runtime error: slice bounds out of range"
  else Val (String.substring 0 (Z.to_nat (max - 1)) s ++s ellipsis).

Definition ansi (code s : string) : string :=
  let esc := of_bytes [27]%nat in esc ++s "[" ++s code ++s "m" ++s s ++s esc ++s "[0m".

(** [colorize], with [colorEnabled] (stdout is a terminal) explicit. *)
Definition colorize (colorEnabled : bool) (status : string) : string :=
  if colorEnabled then
    if decide (status = "Succeeded" ∨ status = "Watching") then ansi "32" status
    else if decide (status = "Failed" ∨ status = "Invalid") then ansi "31" status
    else if decide (status = "Skipped" ∨ status = "Cooldown" ∨ status = "RateLimited") then ansi "33" status
    else status
  else status.

(** [auditOutcome]: one word for a record. *)
Definition auditOutcome (a : ActionAudit) : string :=
  if decide (ApprovalPhase (a_Status a) = PhasePending) then "AwaitingApproval" else
  let '(failed, succeeded) :=
    foldl (λ '(failed, succeeded) rec,
             if decide (rec_Status rec = "Failed") then (true, succeeded)
             else if decide (rec_Status rec = "Succeeded") then (failed, succeeded + 1)
             else (failed, succeeded)) (false, 0) (AuditActions (a_Spec a)) in
  let n := Z.of_nat (length (AuditActions (a_Spec a))) in
  if (failed : bool) then "Failed"
  else if decide (n > 0 ∧ succeeded = n) then "Succeeded" else "Skipped".

(** ** Filtering in place

    [kept := items[:0]; for i := range items { if p(items[i]) { kept =
    append(kept, items[i]) } }]: the kept elements overwrite the front of the
    array that is being read. *)
Section InPlace.
Context {A : Type} (p : A → bool).

Fixpoint keep_loop (fuel i : nat) (arr : list A) (n : nat) : list A * nat :=
  match fuel with
  | O => (arr, n)
  | S fuel' =>
      match arr !! i with
      | None => (arr, n)
      | Some x => if p x then keep_loop fuel' (S i) (<[n := x]> arr) (S n)
                  else keep_loop fuel' (S i) arr n
      end
  end.

Definition keep_in_place (items : list A) : list A :=
  let '(arr, n) := keep_loop (length items) 0 items 0 in take n arr.

End InPlace.

(** [sortAudits]: newest trigger first. *)
Definition newer (a b : ActionAudit) : bool :=
  bool_decide (time_After (TriggeredAt (a_Spec a)) (TriggeredAt (a_Spec b))).
Definition sortAudits (items : list ActionAudit) : list ActionAudit := sort_Slice newer items.

(** ** What the client uses beyond the operator's calls

    Lists across namespaces, the policy file, and the two renderings of
    times (apimachinery's [HumanDuration], [time.Time.String] in the local zone). *)
Class CliEnv (W : Type) : Type := {
  cli_ListAudits : string → option (string * string) → W → (error + list ActionAudit) * W;
  cli_ListPolicies : string → W → (error + list ReactivePolicy) * W;
  os_ReadFile : string → W → (error + string) * W;
  yaml_UnmarshalPolicy : string → error + ReactivePolicy;
  HumanDuration : Duration → string;
  TimeString : option Time → string }.

(** The factory: persistent flags and injectable dependencies. *)
Record CliFactory (W : Type) : Type := mkFactory {
  f_Namespace : string;
  f_AllNamespaces : bool;
  f_Output : string;
  f_ClientErr : option error;                (* what building the client answers *)
  f_NewProm : option (Evaluator.Factory W);
  f_Registry : option (Registry W) }.
Arguments mkFactory {W}.
Arguments f_Namespace {W} _.
Arguments f_AllNamespaces {W} _.
Arguments f_Output {W} _.
Arguments f_ClientErr {W} _.
Arguments f_NewProm {W} _.
Arguments f_Registry {W} _.

Section Cli.
Context {W : Type} `{Cluster W} `{CliEnv W} `{PromAPI W} `{LocalZone} `{RuntimeScheme}.

(** [action.Default()] and whether stdout is a terminal. *)
Variable default_registry : Registry W.
Variable colorEnabled : bool.
Variable f : CliFactory W.

Definition namespace : string :=
  if decide (f_Namespace f ≠ EmptyString) then f_Namespace f else "default".
Definition listNamespace : string := if f_AllNamespaces f then EmptyString else namespace.
Definition output : string := if decide (f_Output f = EmptyString) then outputTable else f_Output f.
Definition registry : Registry W := match f_Registry f with Some r => r | None => default_registry end.
Definition prom : Evaluator.Factory W := match f_NewProm f with Some p => p | None => NewClient end.

(** [age]: a timestamp the way kubectl renders it. *)
Definition age (t : Time) : M W string :=
  if decide (IsZero t) then mret "<unknown>"
  else now ← Now; mret (HumanDuration (time_Sub now t)).

Definition color (s : string) : string := colorize colorEnabled s.

(** A row per item, in order. *)
Definition rows_of {A} (row : A → M W (list Out)) (header : list string) (items : list A) : M W (list Out) :=
  foldM (λ acc x, rs ← row x; mret (acc ++ rs)) [Row header] items.

(** The namespace column, when all namespaces are listed. *)
Definition ns_cell (ns : string) (cells : list string) : list string :=
  if f_AllNamespaces f then ns :: cells else cells.

(** ** Audit listings *)

Definition listAudits (policyName : string) : M W (error + list ActionAudit) :=
  match f_ClientErr f with
  | Some err => mret (inl err)
  | None =>
      let label := if decide (policyName ≠ EmptyString) then Some (LabelPolicy, policyName) else None in
      listed ← quiet (cli_ListAudits listNamespace label);
      match listed with
      | inl err => mret (inl (wrapf "listing audit records: " err))
      | inr items => mret (inr items)
      end
  end.

Definition printAuditTable (items : list ActionAudit) : M W (list Out) :=
  rows_of (λ a,
    when ← age (TriggeredAt (a_Spec a));
    mret [Row (ns_cell (Namespace (a_Meta a))
      [Name (a_Meta a); PolicyRef (a_Spec a); when ++s " ago"; fmt_d (Z.of_nat (length (AuditActions (a_Spec a))));
       color (auditOutcome a); fmt_t (Reverted (a_Status a))])])
    (ns_cell "NAMESPACE" ["NAME"; "POLICY"; "TRIGGERED"; "ACTIONS"; "OUTCOME"; "REVERTED"]) items.

Definition printPendingTable (items : list ActionAudit) : M W (list Out) :=
  rows_of (λ a,
    match Gate (a_Spec a) with
    | None => mret []
    | Some gate =>
        remaining ← Until (ExpiresAt gate);
        let left := if decide (remaining > 0) then duration_String (duration_Round remaining Second)
                    else "expired" in
        mret [Row (ns_cell (Namespace (a_Meta a))
          [Name (a_Meta a); PolicyRef (a_Spec a); MetricValue (a_Spec a); Join (PendingPlugins gate) ",";
           fmt_d (Z.of_nat (length (GateTargets gate))); left])]
    end)
    (ns_cell "NAMESPACE" ["NAME"; "POLICY"; "METRIC"; "HELD"; "TARGETS"; "EXPIRES IN"]) items.

Definition history_row (when : string) (a : ActionAudit) (rec : ActionRecord) : M W (list Out) :=
  match truncate (rec_Message rec) 48 with
  | Panic msg => panic msg
  | Val message =>
      mret [Row [when; Name (a_Meta a); fmt_d (rec_Index rec) ++s "." ++s rec_Plugin rec;
                 color (rec_Status rec); fmt_t (rec_Reversible rec); message]]
  end.

Definition printHistoryTable (items : list ActionAudit) : M W (list Out) :=
  rows_of (λ a,
    when ← age (TriggeredAt (a_Spec a));
    foldM (λ acc rec, rs ← history_row (when ++s " ago") a rec; mret (acc ++ rs)) [] (AuditActions (a_Spec a)))
    ["TRIGGERED"; "AUDIT"; "ACTION"; "STATUS"; "REVERSIBLE"; "MESSAGE"] items.

(** [printObject], or else the table. *)
Definition print_or (o : Obj) (table : M W (list Out)) : M W (list Out * option error) :=
  handled ← printObject output o;
  match handled with
  | Some out => mret (out, None)
  | None => rows ← table; mret (rows, None)
  end.

Definition action_pending : M W (list Out * option error) :=
  listed ← listAudits EmptyString;
  match listed with
  | inl err => mret ([], Some err)
  | inr audits =>
      let open := sortAudits (keep_in_place (λ a, bool_decide (ApprovalPhase (a_Status a) = PhasePending)) audits) in
      print_or (ObjAudits open) (printPendingTable open)
  end.

Definition action_audit (since policyName : string) : M W (list Out * option error) :=
  match ParseDuration since with
  | inl err => mret ([], Some (wrapf ("invalid --since " ++s fmt_q since ++s ": ") err))
  | inr window =>
      listed ← listAudits policyName;
      match listed with
      | inl err => mret ([], Some err)
      | inr audits =>
          now ← Now;
          let cutoff := time_Add now (int64 (- window)) in
          let recent := sortAudits (keep_in_place (λ a, bool_decide (time_After (TriggeredAt (a_Spec a)) cutoff)) audits) in
          print_or (ObjAudits recent) (printAuditTable recent)
      end
  end.

Definition action_history (policyName : string) : M W (list Out * option error) :=
  listed ← listAudits policyName;
  match listed with
  | inl err => mret ([], Some err)
  | inr audits =>
      let sorted := sortAudits audits in
      print_or (ObjAudits sorted) (printHistoryTable sorted)
  end.

(** ** Deciding a gate, requesting a revert *)

(** [decideGate].  The client leaves [decidedBy] and [decidedAt] alone. *)
Definition decideGate (name : string) (decision : ApprovalDecision) (reason : string)
  : M W (list Out * option error) :=
  match f_ClientErr f with
  | Some err => mret ([], Some err)
  | None =>
      got ← GetAudit (mkNN namespace name);
      match got with
      | inl err => mret ([], Some (wrapf ("getting audit record " ++s fmt_q name ++s ": ") err))
      | inr audit =>
          match Gate (a_Spec audit) with
          | None => mret ([], Some (errorf ("audit " ++s fmt_q name ++s " has no approval gate; it ran straight through")))
          | Some gate =>
              let phase := ApprovalPhase (a_Status audit) in
              if decide (phase ≠ PhasePending) then
                mret ([], Some (errorf ("audit " ++s fmt_q name ++s
                  " is not waiting for a decision; its approval phase is " ++s fmt_q phase)))
              else
                now ← Now;
                if decide (¬ time_Before now (ExpiresAt gate)) then
                  mret ([], Some (errorf ("the gate on audit " ++s fmt_q name ++s " expired at " ++s
                    FormatRFC3339 (ExpiresAt gate) ++s "; its held actions will not run")))
                else
                  written ← UpdateAudit (set_Gate audit (Some (set_Decision gate decision reason)));
                  match written with
                  | inl err => mret ([], Some (wrapf ("recording " ++s decision ++s " decision: ") err))
                  | inr audit =>
                      match Gate (a_Spec audit) with
                      | None => panic "runtime error: invalid memory address or nil pointer dereference"
                      | Some gate =>
                          let held := fmt_d (Z.of_nat (length (PendingPlugins gate))) in
                          if decide (decision = DecisionApproved) then
                            mret ([Line ("approved " ++s fmt_q (Name (a_Meta audit)) ++s
                                         "; the operator will run " ++s held ++s " held action(s)")], None)
                          else
                            mret ([Line ("denied " ++s fmt_q (Name (a_Meta audit)) ++s
                                         "; its " ++s held ++s " held action(s) will not run")], None)
                      end
                  end
          end
      end
  end.

Definition action_approve (name reason : string) : M W (list Out * option error) :=
  decideGate name DecisionApproved reason.
Definition action_deny (name reason : string) : M W (list Out * option error) :=
  decideGate name DecisionDenied reason.

Definition action_revert (name : string) : M W (list Out * option error) :=
  match f_ClientErr f with
  | Some err => mret ([], Some err)
  | None =>
      got ← GetAudit (mkNN namespace name);
      match got with
      | inl err => mret ([], Some (wrapf ("getting audit record " ++s fmt_q name ++s ": ") err))
      | inr audit =>
          if Reverted (a_Status audit) then
            mret ([Line ("audit " ++s fmt_q (Name (a_Meta audit)) ++s " was already reverted at " ++s
                         TimeString (RevertedAt (a_Status audit)))], None)
          else
            written ← UpdateAudit (set_RevertRequested audit true);
            match written with
            | inl err => mret ([], Some (wrapf "requesting revert: " err))
            | inr audit =>
                mret ([Line ("requested revert of audit " ++s fmt_q (Name (a_Meta audit)) ++s
                             "; the operator will reverse its reversible actions")], None)
            end
      end
  end.

(** ** Policies *)

Definition policy_row (p : ReactivePolicy) : M W (list Out) :=
  last ← match LastTriggeredAt (p_Status p) with
         | Some t => age t
         | None => mret "<never>"
         end;
  created ← age (CreationTimestamp (p_Meta p));
  mret [Row (ns_cell (Namespace (p_Meta p))
    [Name (p_Meta p); color (State (p_Status p)); last; fmt_d (TriggerCount (p_Status p));
     orNone (CurrentMetricValue (p_Status p)); created])].

Definition printPolicyTable (items : list ReactivePolicy) : M W (list Out) :=
  rows_of policy_row
    (ns_cell "NAMESPACE" ["NAME"; "STATE"; "LAST TRIGGERED"; "COUNT"; "VALUE"; "AGE"]) items.

Definition policy_list : M W (list Out * option error) :=
  match f_ClientErr f with
  | Some err => mret ([], Some err)
  | None =>
      listed ← quiet (cli_ListPolicies listNamespace);
      match listed with
      | inl err => mret ([], Some (wrapf "listing policies: " err))
      | inr items => print_or (ObjPolicies items) (printPolicyTable items)
      end
  end.

Definition effective_onFailure (a : ActionSpec) : string :=
  if decide (OnFailure a = EmptyString) then FailureStop else OnFailure a.

Definition describe_action (i : Z) (a : ActionSpec) : Out :=
  Line ("  " ++s fmt_d i ++s ". " ++s Plugin a ++s " (onFailure=" ++s effective_onFailure a ++s ")").

Definition line_if (c : bool) (s : string) : list Out := if c then [Line s] else [].

Definition describePolicy (p : ReactivePolicy) : M W (list Out) :=
  let st := p_Status p in
  let o := ObserveSpec (p_Spec p) in
  fired ← match LastTriggeredAt st with
          | Some t => a ← age t; mret [Line ("Last fired:  " ++s a ++s " ago")]
          | None => mret []
          end;
  mret ([Line ("Name:        " ++s Name (p_Meta p));
         Line ("Namespace:   " ++s Namespace (p_Meta p));
         Line ("State:       " ++s color (State st));
         Line ("Value:       " ++s orNone (CurrentMetricValue st));
         Line ("Triggers:    " ++s fmt_d (TriggerCount st))] ++ fired ++
        [Line "Observe:";
         Line ("  Source:    " ++s Source o);
         Line ("  Endpoint:  " ++s Endpoint o);
         Line ("  Query:     " ++s Query o);
         Line ("  Condition: value " ++s Operator o ++s " " ++s Threshold o ++s " for " ++s
               duration_String (ObsDuration o))] ++
        line_if (bool_decide (PollInterval o > 0)) ("  Poll:      " ++s duration_String (PollInterval o)) ++
        [Line ("Cooldown:    " ++s duration_String (Cooldown (p_Spec p)))] ++
        match MaxTriggersPerHour (p_Spec p) with
        | Some n => [Line ("Max/hour:    " ++s fmt_d n)]
        | None => []
        end ++
        [Line "Actions:"] ++ imap (λ i a, describe_action (Z.of_nat i) a) (Actions (p_Spec p)) ++
        match Conditions st with
        | [] => []
        | cs => Line "Conditions:" :: Row ["  TYPE"; "STATUS"; "REASON"; "MESSAGE"] ::
                ((λ c, Row ["  " ++s c_Type c; c_Status c; c_Reason c; c_Message c]) <$> cs)
        end).

(** [policy get] and [policy describe] differ in the table printer only. *)
Definition with_policy (name : string) (table : ReactivePolicy → M W (list Out)) : M W (list Out * option error) :=
  match f_ClientErr f with
  | Some err => mret ([], Some err)
  | None =>
      got ← GetPolicy (mkNN namespace name);
      match got with
      | inl err => mret ([], Some (wrapf ("getting policy " ++s fmt_q name ++s ": ") err))
      | inr policy => print_or (ObjPolicy policy) (table policy)
      end
  end.

Definition policy_get (name : string) : M W (list Out * option error) :=
  with_policy name (λ policy, printPolicyTable [policy]).
Definition policy_describe (name : string) : M W (list Out * option error) :=
  with_policy name describePolicy.

(** ** Dry run *)

Definition formatFloat (v : float64) : string := FormatFloat v.

Definition dry_run_action (i : Z) (a : ActionSpec) : dryRunAction :=
  let onFailure := effective_onFailure a in
  match Lookup registry (Plugin a) with
  | None => mkDryRunAction i (Plugin a) false onFailure false "plugin not registered"
  | Some plugin =>
      match pl_Validate plugin (ParamsFromCRD (ActParams a)) with
      | Some err => mkDryRunAction i (Plugin a) (pl_IsReversible plugin) onFailure false (err_msg err)
      | None => mkDryRunAction i (Plugin a) (pl_IsReversible plugin) onFailure true EmptyString
      end
  end.

Definition dryRun (policy : ReactivePolicy) : M W dryRunReport :=
  let obs := ObserveSpec (p_Spec policy) in
  let actions := imap (λ i a, dry_run_action (Z.of_nat i) a) (Actions (p_Spec policy)) in
  let actionsValid := forallb da_Valid actions in
  let report value crossed err would :=
    mkReport (Name (p_Meta policy)) (Namespace (p_Meta policy)) value (Threshold obs) (Operator obs) crossed
      (duration_String (ObsDuration obs)) err actions would in
  match prom (Endpoint obs) [] with
  | inl err => mret (report EmptyString false (err_msg err) false)
  | inr promClient =>
      answer ← CallQuery promClient (Query obs);
      match answer with
      | inl err => mret (report EmptyString false (err_msg err) false)
      | inr value =>
          match ParseThreshold (Threshold obs) with
          | inl err => mret (report (formatFloat value) false ("invalid threshold: " ++s err_msg err) false)
          | inr threshold =>
              let crossed := Compare value threshold (Operator obs) in
              mret (report (formatFloat value) crossed EmptyString (crossed && actionsValid))
          end
      end
  end.

Definition dry_run_line (a : dryRunAction) : Out :=
  let status := if da_Valid a then "ok" else "INVALID: " ++s da_Error a in
  Line ("  " ++s fmt_d (da_Index a) ++s ". " ++s da_Plugin a ++s " (reversible=" ++s fmt_t (da_Reversible a) ++s
        ", onFailure=" ++s da_OnFailure a ++s ") [" ++s status ++s "]").

Definition printDryRun (r : dryRunReport) : list Out :=
  [Line ("Policy:    " ++s dr_Namespace r ++s "/" ++s dr_Policy r)] ++
  (if decide (dr_QueryError r ≠ EmptyString) then [Line ("Metric:    error: " ++s dr_QueryError r)]
   else [Line ("Metric:    " ++s dr_MetricValue r ++s " (threshold: " ++s dr_Operator r ++s " " ++s
               dr_Threshold r ++s ")");
         Line ("Crossed:   " ++s fmt_t (dr_Crossed r) ++s " (must hold for " ++s dr_DurationRequired r ++s
               " before a real trigger)")]) ++
  [Line "Actions that would run:"] ++ (dry_run_line <$> dr_Actions r) ++
  [Line ("Would trigger now: " ++s fmt_t (dr_WouldTrigger r))].

Definition policy_dry_run (file : string) : M W (list Out * option error) :=
  raw ← quiet (os_ReadFile file);
  match raw with
  | inl err => mret ([], Some (wrapf "reading policy file: " err))
  | inr raw =>
      match yaml_UnmarshalPolicy raw with
      | inl err => mret ([], Some (wrapf "parsing policy file: " err))
      | inr policy =>
          report ← dryRun policy;
          print_or (ObjReport report) (mret (printDryRun report))
      end
  end.

(** ** Plugins *)

Definition plugin_info (p : Action W) : pluginInfo :=
  mkPluginInfo (pl_Name p) (pl_IsReversible p) (Z.of_nat (length (pl_RequiredPermissions p))) (pl_Description p).

Definition plugin_row (p : pluginInfo) : Out :=
  Row [pi_Name p; fmt_t (pi_Reversible p); fmt_d (pi_Permissions p); pi_Description p].

Definition plugin_list : M W (list Out * option error) :=
  let infos := sort_Slice (λ a b, string_less (pi_Name a) (pi_Name b)) (plugin_info <$> All registry) in
  print_or (ObjPlugins infos)
    (mret (Row ["NAME"; "REVERSIBLE"; "PERMISSIONS"; "DESCRIPTION"] :: (plugin_row <$> infos))).

End Cli.
