(* ===== verification/Sink.v ===== *)
(** * The asynchronous audit sink: internal/audit/sink/postgres

    The bounded queue between the reconcilers and one background worker, as
    the state of a transition system whose steps are the program's atomic
    operations, and the database writer behind it. *)

From S2P Require Import Prelude GoLib GoTime Api ActionTypes.

(** ** The queue *)

Record workItem : Type := mkItem { triggers : list Event; reverts : list RevertEvent }.

(** Where the worker's loop is: waiting for an item, writing one, or returned
    ([wg.Done]). *)
Inductive worker : Type :=
| Idle
| Busy (item : workItem)
| Stopped.

#[export] Instance worker_stopped_dec (w : worker) : Decision (w = Stopped).
Proof. destruct w; [right|right|left]; done. Defined.

(** [Sink]: the channel, whether it was closed ([closeOnce]), the worker, the
    batches the writer was given so far and whether it was closed. *)
Record SinkState : Type := mkSinkState {
  capacity : nat;
  queue : list workItem;
  closed : bool;
  wk : worker;
  written : list workItem;
  writerClosed : bool }.

Definition defaultQueueSize : Z := 1024.

(** [newSink]: the queue size from the configuration, or the default. *)
Definition newSink (queueSize : Z) : SinkState :=
  let size := if decide (queueSize <= 0) then defaultQueueSize else queueSize in
  mkSinkState (Z.to_nat size) [] false Idle [] false.

Definition with_queue (s : SinkState) (q : list workItem) : SinkState :=
  mkSinkState (capacity s) q (closed s) (wk s) (written s) (writerClosed s).

(** [select { case s.queue <- item: default: }]: a send on a closed channel
    panics, even inside a select with a default. *)
Definition try_send (s : SinkState) (item : workItem) : outcome (option error) * SinkState :=
  if closed s then (Panic "send on closed channel", s)
  else if decide (length (queue s) < capacity s)%nat then (Val None, with_queue s (queue s ++ [item]))
  else (Val (Some (sentinel_error ErrBackpressure)), s).

Definition sink_RecordTrigger (s : SinkState) (events : list Event) : outcome (option error) * SinkState :=
  match events with
  | [] => (Val None, s)
  | _ => try_send s (mkItem events [])
  end.

Definition sink_RecordRevert (s : SinkState) (events : list RevertEvent) : outcome (option error) * SinkState :=
  match events with
  | [] => (Val None, s)
  | _ => try_send s (mkItem [] events)
  end.

(** The worker's next move in [run]: receive, finish a write, or leave the
    loop once the channel is closed and drained.  [None]: it blocks. *)
Definition worker_step (s : SinkState) : option SinkState :=
  match wk s with
  | Stopped => None
  | Busy item =>
      Some (mkSinkState (capacity s) (queue s) (closed s) Idle (written s ++ [item]) (writerClosed s))
  | Idle =>
      match queue s with
      | item :: q => Some (mkSinkState (capacity s) q (closed s) (Busy item) (written s) (writerClosed s))
      | [] => if closed s
              then Some (mkSinkState (capacity s) [] true Stopped (written s) (writerClosed s))
              else None
      end
  end.

(** [Close]: the channel is closed at most once; then the caller waits. *)
Definition close_queue (s : SinkState) : SinkState :=
  mkSinkState (capacity s) (queue s) true (wk s) (written s) (writerClosed s).

(** The waiting half of [Close]: it returns once the worker is gone, closing
    the writer last, or with the context's error. *)
Definition close_wait (s : SinkState) (ctx_done : option error) : option (option error * SinkState) :=
  match wk s, ctx_done with
  | Stopped, None => Some (None, mkSinkState (capacity s) (queue s) (closed s) Stopped (written s) true)
  | _, Some err => Some (Some err, s)
  | _, None => None
  end.

(** ** Steps *)

Inductive sink_label : Type :=
| LTrigger (events : list Event) (r : option error)
| LRevert (events : list RevertEvent) (r : option error)
| LWorker
| LClose
| LClosed (r : option error).

(** Calls that panic are no step: the theorems say when they do. *)
Inductive sink_step : SinkState → sink_label → SinkState → Prop :=
| step_trigger s events r s' : sink_RecordTrigger s events = (Val r, s') → sink_step s (LTrigger events r) s'
| step_revert s events r s' : sink_RecordRevert s events = (Val r, s') → sink_step s (LRevert events r) s'
| step_worker s s' : worker_step s = Some s' → sink_step s LWorker s'
| step_close s : sink_step s LClose (close_queue s)
| step_closed s ctx_done r s' : closed s = true → close_wait s ctx_done = Some (r, s') → sink_step s (LClosed r) s'.

Inductive sink_run (s0 : SinkState) : list sink_label → SinkState → Prop :=
| sink_run_nil : sink_run s0 [] s0
| sink_run_snoc ls s l s' : sink_run s0 ls s → sink_step s l s' → sink_run s0 (ls ++ [l]) s'.

(** ** The writer *)

(** [pgx]: a batch of statements, each with its arguments, answered one by one. *)
Inductive Stmt : Type :=
| InsertExecution (e : Event) (details : option RawJSON)
| InsertRevert (e : RevertEvent).

Class PgxPool (W : Type) : Type := {
  SendBatch : list Stmt → W → list (option error) * W }.

(** The first error among the answers read, in order: one [Exec] per event. *)
Fixpoint first_error (answers : list (option error)) : option error :=
  match answers with
  | [] => None
  | Some e :: _ => Some e
  | None :: rest => first_error rest
  end.

Definition execution_stmt (e : Event) : Stmt :=
  InsertExecution e (match ev_DetailsJSON e with
                     | Some d => if decide (0 < String.length d)%nat then Some d else None
                     | None => None
                     end).

Section Writer.
Context {W : Type} `{PgxPool W}.

Definition writeTriggers (events : list Event) (w : W) : option error * W :=
  let '(answers, w) := SendBatch (execution_stmt <$> events) w in
  (wrapf "postgres sink: insert executions: " <$> first_error (take (length events) answers), w).

Definition writeReverts (events : list RevertEvent) (w : W) : option error * W :=
  let '(answers, w) := SendBatch (InsertRevert <$> events) w in
  (wrapf "postgres sink: insert reverts: " <$> first_error (take (length events) answers), w).

(** One iteration of [run]: the errors logged for an item. *)
Definition write_item (item : workItem) (w : W) : list error * W :=
  let '(e1, w) := match triggers item with [] => (None, w) | _ => writeTriggers (triggers item) w end in
  let '(e2, w) := match reverts item with [] => (None, w) | _ => writeReverts (reverts item) w end in
  (option_list e1 ++ option_list e2, w).

End Writer.

(** ** Connecting *)

(** [pgxpool]: opening a pool, the calls [New] makes on it, and closing it. *)
Class PgxConnect (W : Type) : Type := {
  Pool : Type;
  pgxpool_New : string → W → (error + Pool) * W;
  pool_Ping : Pool → W → option error * W;
  pool_Exec : Pool → string → W → option error * W;
  pool_Close : Pool → W → W }.

Section Connect.
Context {W : Type} `{PgxConnect W}.
Variable schemaSQL : string.

(** [New]: a pool that cannot be used is closed again. *)
Definition New (dsn : string) (queueSize : Z) (w : W) : (error + (Pool * SinkState)) * W :=
  let '(opened, w) := pgxpool_New dsn w in
  match opened with
  | inl err => (inl (wrapf "postgres sink: connecting: " err), w)
  | inr pool =>
      let '(err, w) := pool_Ping pool w in
      match err with
      | Some err => (inl (wrapf "postgres sink: ping: " err), pool_Close pool w)
      | None =>
          let '(err, w) := pool_Exec pool schemaSQL w in
          match err with
          | Some err => (inl (wrapf "postgres sink: applying schema: " err), pool_Close pool w)
          | None => (inr (pool, newSink queueSize), w)
          end
      end
  end.

(** [pgxWriter.close]. *)
Definition pgx_close (pool : Pool) (w : W) : option error * W := (None, pool_Close pool w).

End Connect.

(** ** Choosing the sink (cmd/auditsink.go) *)

Inductive sink_choice : Type :=
| ChooseNoop
| ChoosePostgres (dsn : string) (queueSize : Z).

Definition buildAuditSink (getenv : string → string) (kind dsnEnv : string) (queueSize : Z) : error + sink_choice :=
  if decide (kind = EmptyString ∨ kind = "none") then inr ChooseNoop
  else if decide (kind = "postgres") then
    let dsn := getenv dsnEnv in
    if decide (dsn = EmptyString) then inr ChooseNoop else inr (ChoosePostgres dsn queueSize)
  else inl (errorf ("unknown audit-sink " ++s fmt_q kind ++s " (want one of: none, postgres)")).
