(* ===== verification/PluginBase.v ===== *)
(** * What the plugins share: internal/action/params.go, template.go, and their client

    A plugin's [Execute] and [Reverse] are state transformers on the world.
    Kubernetes objects whose kind the policy chooses are unstructured; reading
    and editing their fields is apimachinery's, hence a class. *)

From S2P Require Import Prelude GoLib GoTime Api ActionTypes Effects.

(** ** The clock, and a state monad for plugins *)

Class Clock (W : Type) : Type := { clock_Now : W → Time * W }.
#[export] Instance cluster_clock W `{Cluster W} : Clock W := { clock_Now := sys_Now }.


Definition Act (W A : Type) : Type := W → A * W.
#[export] Instance Act_ret W : MRet (Act W) := λ A a w, (a, w).
#[export] Instance Act_bind W : MBind (Act W) := λ A B f m w, let '(a, w) := m w in f a w.

(** ** Params (params.go) *)

(** [encoding/json] on the parameter map and into a plugin's params struct. *)
Class ParamsJSON : Type := { json_MarshalRaw : gmap string RawJSON → error + string }.
Class UnmarshalInto (T : Type) : Type := { json_UnmarshalInto : string → error + T }.

(** [Unmarshal]: parameters with no raw bytes are left out. *)
Definition Unmarshal {T} `{ParamsJSON, UnmarshalInto T} (p : Params) : error + T :=
  let raw := filter (λ kv, (0 < String.length kv.2)%nat) (default ∅ p) in
  match json_MarshalRaw raw with
  | inl err => inl (wrapf "encoding params: " err)
  | inr b =>
      match json_UnmarshalInto b with
      | inl err => inl (Err (ErrInvalidParams :: err_is err) (sentinel_msg ErrInvalidParams ++s ": " ++s err_msg err))
      | inr out => inr out
      end
  end.

(** ** Templates (template.go) *)

(** [text/template] with [missingkey=error]. *)
Class TextTemplate : Type := {
  Tmpl : Type;
  template_Parse : string → error + Tmpl;
  template_Execute : Tmpl → gmap string any → error + string }.

Definition ValidateTemplate `{TextTemplate} (tmpl : string) : option error :=
  match template_Parse tmpl with
  | inl err => Some (wrapf "parsing template: " err)
  | inr _ => None
  end.

Definition RenderTemplate `{TextTemplate} (tmpl : string) (data : gmap string any) : error + string :=
  match template_Parse tmpl with
  | inl err => inl (wrapf "parsing template: " err)
  | inr t =>
      match template_Execute t data with
      | inl err => inl (wrapf "executing template: " err)
      | inr s => inr s
      end
  end.

(** [fmt.Errorf("%w: %w", sentinel, err)]. *)
Definition sentinel_wrap (s : sentinel) (err : error) : error :=
  Err (s :: err_is err) (sentinel_msg s ++s ": " ++s err_msg err).

(** ** Unstructured objects *)

Record ObjKey : Type := mkObjKey {
  ok_APIVersion : string; ok_Kind : string; ok_Namespace : string; ok_Name : string }.
#[export] Instance ObjKey_eq_dec : EqDecision ObjKey.
Proof. solve_decision. Defined.
#[export] Instance ObjKey_countable : Countable ObjKey.
Proof.
  refine (inj_countable (λ k, [ok_APIVersion k; ok_Kind k; ok_Namespace k; ok_Name k])
            (λ l, match l with [a; k; ns; n] => Some (mkObjKey a k ns n) | _ => None end) _). by intros [].
Defined.

Definition key_of_target (t : Target) : ObjKey :=
  mkObjKey (APIVersion t) (Kind t) (TargetNamespace t) (TargetName t).

(** apimachinery's accessors.  [Unstr] is an object; reads copy. *)
Class Unstructured : Type := {
  Unstr : Type;
  u_key : Unstr → ObjKey;
  GetAnnotations : Unstr → option (gmap string string);
  SetAnnotations : Unstr → option (gmap string string) → Unstr;
  GetLabels : Unstr → option (gmap string string);
  NestedStringMap : Unstr → list string → error + option (gmap string string);
  NestedMap : Unstr → list string → error + option (gmap string any);
  NestedSlice : Unstr → list string → error + option (list any);
  NestedFieldCopy : Unstr → list string → error + option any;
  SetNestedSlice : Unstr → list any → list string → error + Unstr;
  SetNestedField : Unstr → any → list string → error + Unstr;
  RemoveNestedField : Unstr → list string → Unstr }.

(** The documented behaviour the theorems rely on: what was set is read back,
    setting what is there changes nothing, the identity stays. *)
Class UnstructuredLaws `{Unstructured} : Prop := {
  GetAnnotations_Set : ∀ o m, GetAnnotations (SetAnnotations o (Some m)) = Some m;
  SetAnnotations_key : ∀ o m, u_key (SetAnnotations o m) = u_key o;
  SetNestedSlice_key : ∀ o l p o', SetNestedSlice o l p = inr o' → u_key o' = u_key o;
  NestedSlice_Set : ∀ o l p o', SetNestedSlice o l p = inr o' → NestedSlice o' p = inr (Some l);
  SetNestedSlice_Set : ∀ o l p o' l', SetNestedSlice o l p = inr o' → SetNestedSlice o' l' p = SetNestedSlice o l' p;
  SetNestedSlice_same : ∀ o l p, NestedSlice o p = inr (Some l) → SetNestedSlice o l p = inr o }.

(** The controller-runtime client on unstructured objects. *)
Class ObjectClient (W : Type) `{Unstructured} : Type := {
  oc_Get : ObjKey → W → (error + Unstr) * W;
  oc_Update : Unstr → W → option error * W }.

(** A client over a store: what an object reads and writes do to it.  Versions
    and other fields the server owns are not part of the view. *)
Class ObjectStore (W : Type) `{ObjectClient W} : Type := {
  stored : W → gmap ObjKey Unstr;
  Get_stored : ∀ k w o w', oc_Get k w = (inr o, w') → stored w !! k = Some o;
  Get_missing : ∀ k w e w', oc_Get k w = (inl e, w') → Is e NotFound → stored w !! k = None;
  Get_error : ∀ k w e w', oc_Get k w = (inl e, w') → ¬ Is e ErrTargetNotFound;
  Get_keeps : ∀ k w, stored (oc_Get k w).2 = stored w;
  stored_key : ∀ w k o, stored w !! k = Some o → u_key o = k;
  Update_stored : ∀ o w w', oc_Update o w = (None, w') → stored w' = <[u_key o := o]> (stored w);
  Update_failed : ∀ o w e w', oc_Update o w = (Some e, w') → stored w' = stored w }.

(** A clock reading is not a write. *)
Class ClockKeeps (W : Type) `{Clock W} `{ObjectStore W} : Prop := {
  Now_keeps : ∀ w, stored (clock_Now w).2 = stored w }.

Section Common.
Context {W : Type} `{Clock W} `{ObjectClient W}.

Definition PluginNow : Act W Time := clock_Now.

(** A result that only carries the plugin, the target and the time. *)
Definition new_result (name : string) (target : Target) (ts : Time) : Result :=
  mkResult EmptyString name target ts EmptyString EmptyString None.

Definition failed (res : Result) (err : error) : Act W (Result * option error) :=
  mret (set_Status res StatusFailed, Some err).

Definition no_client : error := sentinelf ErrPermanent "no Kubernetes client available".

(** [getTarget] of k8s.annotate and network.isolate, [getApplication] with its
    own noun. *)
Definition get_object (what : string) (target : Target) : Act W (error + Unstr) :=
  got ← (oc_Get (key_of_target target) : Act W _);
  mret (match got with
        | inl err =>
            let where_ := TargetNamespace target ++s "/" ++s TargetName target in
            if decide (Is err NotFound) then inl (sentinelf ErrTargetNotFound where_)
            else inl (wrapf ("getting " ++s what ++s " " ++s where_ ++s ": ") err)
        | inr obj => inr obj
        end).

Definition getTarget : Target → Act W (error + Unstr) := get_object "target".

End Common.
