(* ===== verification/MeshShift.v ===== *)
(** * The mesh.shift plugin: plugins/mesh-shift *)

From S2P Require Import Prelude GoLib GoTime Api ActionTypes Effects PluginBase.

Definition maxWeight : Z := 1000000.
Definition defaultWeight : Z := 1.
Definition mesh_pluginName : string := "mesh.shift".
Definition routeGroup : string := "gateway.networking.k8s.io".
Definition routeVersion : string := "v1".
Definition routeKind : string := "HTTPRoute".
Definition mesh_Description : string := "Drains traffic from a backend by setting its weight on a Gateway API HTTPRoute.".
Definition mesh_RequiredPermissions : list PolicyRule :=
  [mkRule [routeGroup] ["httproutes"] ["get"; "list"; "update"; "patch"]].

Record routeRef : Type := mkRouteRef { rr_Name : string; rr_Namespace : string }.
Record mesh_params : Type := mkMeshParams {
  mp_RouteRef : routeRef; mp_Backend : string; mp_Weight : option Z }.

Definition mesh_weight (p : mesh_params) : Z := match mp_Weight p with Some w => w | None => 0 end.

(** [toInt64]: an integer, a float truncated, or nothing. *)
Definition toInt64 (v : option any) : Z * bool :=
  match v with
  | Some (AInt64 n) => (n, true)
  | Some (AFloat f) => (float_trunc f, true)
  | _ => (0, false)
  end.

(** ** [applyWeight] on the rules of a route *)

Section Apply.
Variable backend : string.
Variable weight : Z.

Definition is_backend (ref : gmap string any) : bool :=
  match ref !! "name" with Some (AString n) => bool_decide (n = backend) | _ => bool_decide (EmptyString = backend) end.

(** One backendRef: what it becomes, whether it matched, what was recorded. *)
Definition apply_ref (ri bi : Z) (v : any) : any * bool * list backendChange :=
  match v with
  | AMap ref =>
      if is_backend ref then
        let '(old, had) := toInt64 (ref !! "weight") in
        let effective := if had then old else defaultWeight in
        if decide (effective = weight) then (v, true, [])
        else (AMap (<["weight" := AInt64 weight]> ref), true, [mkChange ri bi old had])
      else (v, false, [])
  | _ => (v, false, [])
  end.

Fixpoint apply_refs (ri bi : Z) (refs : list any) : list any * bool * list backendChange :=
  match refs with
  | [] => ([], false, [])
  | v :: refs' =>
      let '(v', m, cs) := apply_ref ri bi v in
      let '(rest, m', cs') := apply_refs ri (bi + 1) refs' in
      (v' :: rest, m || m', cs ++ cs')
  end.

Definition apply_rule (ri : Z) (v : any) : any * bool * list backendChange :=
  match v with
  | AMap rule =>
      match rule !! "backendRefs" with
      | Some (ASlice refs) =>
          let '(refs', m, cs) := apply_refs ri 0 refs in
          (AMap (<["backendRefs" := ASlice refs']> rule), m, cs)
      | _ => (v, false, [])
      end
  | _ => (v, false, [])
  end.

Fixpoint apply_rules (ri : Z) (rules : list any) : list any * bool * list backendChange :=
  match rules with
  | [] => ([], false, [])
  | v :: rules' =>
      let '(v', m, cs) := apply_rule ri v in
      let '(rest, m', cs') := apply_rules (ri + 1) rules' in
      (v' :: rest, m || m', cs ++ cs')
  end.

End Apply.

(** ** [restoreWeights] on the rules of a route *)

Definition restore_ref (ch : backendChange) (v : any) : any :=
  match v with
  | AMap ref => AMap (if Had ch then <["weight" := AInt64 (Weight ch)]> ref else delete "weight" ref)
  | _ => v
  end.

(** Out-of-range indices are skipped, as is anything that is not a map. *)
Definition alter_at {A} (f : A → A) (i : Z) (l : list A) : list A :=
  if decide (i < 0) then l else alter f (Z.to_nat i) l.

Definition restore_rule (ch : backendChange) (v : any) : any :=
  match v with
  | AMap rule =>
      match rule !! "backendRefs" with
      | Some (ASlice refs) => AMap (<["backendRefs" := ASlice (alter_at (restore_ref ch) (Ref ch) refs)]> rule)
      | _ => v
      end
  | _ => v
  end.

Definition restore_change (rules : list any) (ch : backendChange) : list any :=
  alter_at (restore_rule ch) (Rule ch) rules.

Definition restore_rules (rules : list any) (changes : list backendChange) : list any :=
  foldl restore_change rules changes.

(** ** The plugin *)

Definition rules_path : list string := ["spec"; "rules"].

Section Plugin.
Context {W : Type} `{Clock W} `{ObjectClient W} `{ParamsJSON, UnmarshalInto mesh_params}.

(** [applyWeight]: the route is replaced only when something changed. *)
Definition applyWeight (route : Unstr) (backend : string) (weight : Z)
  : error + (bool * list backendChange * Unstr) :=
  match NestedSlice route rules_path with
  | inl err => inl err
  | inr None => inr (false, [], route)
  | inr (Some rules) =>
      let '(rules', matched, changes) := apply_rules backend weight 0 rules in
      if decide (changes ≠ []) then
        match SetNestedSlice route rules' rules_path with
        | inl err => inl err
        | inr route' => inr (matched, changes, route')
        end
      else inr (matched, [], route)
  end.

Definition restoreWeights (route : Unstr) (changes : list backendChange) : error + Unstr :=
  match NestedSlice route rules_path with
  | inl err => inl err
  | inr None => inr route
  | inr (Some rules) => SetNestedSlice route (restore_rules rules changes) rules_path
  end.

Definition mesh_Validate (raw : Params) : option error :=
  match Unmarshal raw with
  | inl err => Some err
  | inr p =>
      if decide (rr_Name (mp_RouteRef p) = EmptyString) then Some (sentinelf ErrInvalidParams "routeRef.name is required")
      else if decide (mp_Backend p = EmptyString) then Some (sentinelf ErrInvalidParams "backend is required")
      else if decide (mesh_weight p < 0 ∨ mesh_weight p > maxWeight) then
        Some (sentinelf ErrInvalidParams ("weight must be between 0 and " ++s fmt_d maxWeight))
      else None
  end.

Definition route_key (name namespace : string) : ObjKey :=
  mkObjKey (routeGroup ++s "/" ++s routeVersion) routeKind namespace name.

Definition getRoute (name namespace : string) : Act W (error + Unstr) :=
  got ← (oc_Get (route_key name namespace) : Act W _);
  mret (match got with
        | inl err =>
            let where_ := "HTTPRoute " ++s namespace ++s "/" ++s name in
            if decide (Is err NotFound) then inl (sentinelf ErrTargetNotFound where_)
            else inl (wrapf ("getting " ++s where_ ++s ": ") err)
        | inr route => inr route
        end).

Definition mesh_details (p : mesh_params) (namespace : string) (changes : list backendChange) : gmap string any :=
  <["routeName" := AString (rr_Name (mp_RouteRef p))]>
  (<["routeNamespace" := AString namespace]>
  (<["backend" := AString (mp_Backend p)]>
  (<["weight" := AInt64 (mesh_weight p)]>
  (<["previous" := AChanges changes]> ∅)))).

Definition route_where (namespace name : string) : string := "HTTPRoute " ++s namespace ++s "/" ++s name.

Definition mesh_Execute (ctx : Context) (inp : ExecuteInput) : Act W (Result * option error) :=
  ts ← PluginNow;
  let res := new_result mesh_pluginName (in_Target inp) ts in
  match Unmarshal (in_Params inp) with
  | inl err => failed res err
  | inr p =>
      if negb (ClientFrom ctx) then failed res no_client else
      let name := rr_Name (mp_RouteRef p) in
      let namespace := if decide (rr_Namespace (mp_RouteRef p) = EmptyString) then TargetNamespace (in_Target inp)
                       else rr_Namespace (mp_RouteRef p) in
      got ← getRoute name namespace;
      match got with
      | inl err => failed res err
      | inr route =>
          match applyWeight route (mp_Backend p) (mesh_weight p) with
          | inl err => failed res (wrapf ("adjusting " ++s route_where namespace name ++s ": ") err)
          | inr (matched, changes, route) =>
              if negb matched then
                failed res (sentinelf ErrPermanent ("backend " ++s fmt_q (mp_Backend p) ++s " not found in " ++s
                                                    route_where namespace name))
              else if decide (changes = []) then
                mret (set_Message (set_Status res StatusSkipped)
                        ("backend " ++s fmt_q (mp_Backend p) ++s " already at weight " ++s fmt_d (mesh_weight p)), None)
              else
                err ← (oc_Update route : Act W _);
                match err with
                | Some err => failed res (wrapf ("updating " ++s route_where namespace name ++s ": ") err)
                | None =>
                    mret (set_Details
                            (set_Message (set_Status res StatusSucceeded)
                               ("shifted backend " ++s fmt_q (mp_Backend p) ++s " to weight " ++s fmt_d (mesh_weight p) ++s
                                " on HTTPRoute " ++s name))
                            (Some (mesh_details p namespace changes)), None)
                end
          end
      end
  end.

(** A string entry of a result's details, empty when it is none. *)
Definition detail_string (prev : Result) (key : string) : string :=
  match Details prev with
  | Some m => match m !! key with Some (AString s) => s | _ => EmptyString end
  | None => EmptyString
  end.

(** [decodeChanges]: JSON out and in again, hence a parameter with its law. *)
Variable json_Changes : any → error + list backendChange.

Definition decodeChanges (prev : Result) : error + list backendChange :=
  match Details prev with
  | Some m => match m !! "previous" with
              | None | Some ANil => inr []
              | Some v => json_Changes v
              end
  | None => inr []
  end.

Definition mesh_Reverse (ctx : Context) (prev : Result) : Act W (option error) :=
  match decodeChanges prev with
  | inl err => mret (Some (Err (ErrInvalidParams :: err_is err)
                             (sentinel_msg ErrInvalidParams ++s ": decoding previous weights: " ++s err_msg err)))
  | inr changes =>
      if decide (changes = []) then
        mret (Some (sentinelf ErrInvalidParams "result has no previous weights to restore")) else
      let name := detail_string prev "routeName" in
      if decide (name = EmptyString) then
        mret (Some (sentinelf ErrInvalidParams "result has no HTTPRoute name to reverse")) else
      let namespace := if decide (detail_string prev "routeNamespace" = EmptyString)
                       then TargetNamespace (ResTarget prev) else detail_string prev "routeNamespace" in
      if negb (ClientFrom ctx) then mret (Some no_client) else
      got ← getRoute name namespace;
      match got with
      | inl err => mret (if decide (Is err ErrTargetNotFound) then None else Some err)
      | inr route =>
          match restoreWeights route changes with
          | inl err => mret (Some (wrapf ("restoring " ++s route_where namespace name ++s " weights: ") err))
          | inr route => oc_Update route
          end
      end
  end.

Definition mesh_shift : Action W :=
  mkAction mesh_pluginName mesh_Description mesh_Validate mesh_Execute mesh_Reverse true mesh_RequiredPermissions.

End Plugin.
