(* ===== verification/Annotate.v ===== *)
(** * The k8s.annotate and argocd.suspend plugins: plugins/k8s-annotate, plugins/argocd-suspend *)

From S2P Require Import Prelude GoLib GoTime Api ActionTypes Effects PluginBase MeshShift.

(** ** k8s.annotate *)

Definition annotate_pluginName : string := "k8s.annotate".
Definition annotate_Description : string := "Adds or updates an annotation on the target resource.".
Definition annotate_RequiredPermissions : list PolicyRule :=
  [mkRule ["*"] ["*"] ["get"; "patch"; "update"]].

Record annotate_params : Type := mkAnnotateParams {
  an_Key : string; an_Value : string; an_Overwrite : option bool }.

Definition overwrite (p : annotate_params) : bool := match an_Overwrite p with Some b => b | None => true end.

Section Annotate.
Context {W : Type} `{Clock W} `{ObjectClient W} `{ParamsJSON, UnmarshalInto annotate_params} `{TextTemplate}.

Definition annotate_Validate (raw : Params) : option error :=
  match Unmarshal raw with
  | inl err => Some err
  | inr p =>
      if decide (an_Key p = EmptyString) then Some (sentinelf ErrInvalidParams "key is required")
      else if decide (an_Value p = EmptyString) then Some (sentinelf ErrInvalidParams "value is required")
      else match ValidateTemplate (an_Value p) with
           | Some err => Some (sentinel_wrap ErrInvalidParams err)
           | None => None
           end
  end.

Definition annotate_Execute (ctx : Context) (inp : ExecuteInput) : Act W (Result * option error) :=
  let target := in_Target inp in
  ts ← PluginNow;
  let res := new_result annotate_pluginName target ts in
  match Unmarshal (in_Params inp) with
  | inl err => failed res err
  | inr p =>
      if negb (ClientFrom ctx) then failed res no_client else
      got ← getTarget target;
      match got with
      | inl err => failed res err
      | inr obj =>
          let annotations := default ∅ (GetAnnotations obj) in
          if decide (is_Some (annotations !! an_Key p) ∧ overwrite p = false) then
            mret (set_Message (set_Status res StatusSkipped)
                    ("annotation " ++s fmt_q (an_Key p) ++s " already present and overwrite is false"), None)
          else
            match RenderTemplate (an_Value p) (in_TemplateData inp) with
            | inl err => failed res err
            | inr value =>
                err ← (oc_Update (SetAnnotations obj (Some (<[an_Key p := value]> annotations))) : Act W _);
                match err with
                | Some err => failed res (wrapf ("annotating " ++s TargetNamespace target ++s "/" ++s TargetName target ++s ": ") err)
                | None =>
                    mret (set_Details
                            (set_Message (set_Status res StatusSucceeded)
                               ("annotated " ++s Kind target ++s " " ++s TargetName target ++s " with " ++s fmt_q (an_Key p)))
                            (Some (<["key" := AString (an_Key p)]> (<["value" := AString value]> ∅))), None)
                end
            end
      end
  end.

Definition annotate_Reverse (ctx : Context) (prev : Result) : Act W (option error) :=
  let key := detail_string prev "key" in
  if decide (key = EmptyString) then
    mret (Some (sentinelf ErrInvalidParams "result has no annotation key to reverse"))
  else if negb (ClientFrom ctx) then mret (Some no_client) else
  got ← getTarget (ResTarget prev);
  match got with
  | inl err => mret (if decide (Is err ErrTargetNotFound) then None else Some err)
  | inr obj =>
      match default ∅ (GetAnnotations obj) !! key with
      | None => mret None
      | Some _ =>
          err ← (oc_Update (SetAnnotations obj (Some (delete key (default ∅ (GetAnnotations obj))))) : Act W _);
          mret (wrapf ("removing annotation " ++s fmt_q key ++s ": ") <$> err)
      end
  end.

Definition k8s_annotate : Action W :=
  mkAction annotate_pluginName annotate_Description annotate_Validate annotate_Execute annotate_Reverse true annotate_RequiredPermissions.

End Annotate.

(** ** argocd.suspend *)

Definition argocd_pluginName : string := "argocd.suspend".
Definition applicationAPIVersion : string := "argoproj.io/v1alpha1".
Definition applicationKind : string := "Application".
Definition suspendReasonAnnotation : string := "reactive-policy.io/suspend-reason".
Definition defaultReason : string := "auto-suspended by reactive-policy".
Definition argocd_Description : string := "Suspends auto-sync on a target ArgoCD Application.".
Definition argocd_RequiredPermissions : list PolicyRule :=
  [mkRule ["argoproj.io"] ["applications"] ["get"; "patch"; "update"]].

Record argocd_params : Type := mkArgocdParams { ar_Reason : string }.

Section Argocd.
Context {W : Type} `{Clock W} `{ObjectClient W} `{ParamsJSON, UnmarshalInto argocd_params}.

Definition sync_path : list string := ["spec"; "syncPolicy"].
Definition automated_path : list string := ["spec"; "syncPolicy"; "automated"].

Definition getApplication : Target → Act W (error + Unstr) := get_object "application".

Definition setAnnotation (obj : Unstr) (key value : string) : Unstr :=
  SetAnnotations obj (Some (<[key := value]> (default ∅ (GetAnnotations obj)))).

Definition removeAnnotation (obj : Unstr) (key : string) : Unstr :=
  match GetAnnotations obj with
  | None => obj
  | Some ann => SetAnnotations obj (Some (delete key ann))
  end.

Definition argocd_Validate (raw : Params) : option error :=
  match Unmarshal (T := argocd_params) raw with inl err => Some err | inr _ => None end.

Definition argocd_Execute (ctx : Context) (inp : ExecuteInput) : Act W (Result * option error) :=
  let target := in_Target inp in
  ts ← PluginNow;
  let res := new_result argocd_pluginName target ts in
  if decide (APIVersion target ≠ applicationAPIVersion ∨ Kind target ≠ applicationKind) then
    failed res (sentinelf ErrInvalidParams
      ("target must be " ++s applicationAPIVersion ++s "/" ++s applicationKind ++s ", got " ++s
       APIVersion target ++s "/" ++s Kind target))
  else
  match Unmarshal (in_Params inp) with
  | inl err => failed res err
  | inr p =>
      let reason := if decide (ar_Reason p = EmptyString) then defaultReason else ar_Reason p in
      if negb (ClientFrom ctx) then failed res no_client else
      got ← getApplication target;
      match got with
      | inl err => failed res err
      | inr app =>
          match NestedMap app automated_path with
          | inl err => failed res (wrapf "reading spec.syncPolicy.automated: " err)
          | inr None => mret (set_Message (set_Status res StatusSkipped) "auto-sync is already suspended", None)
          | inr (Some _) =>
              match NestedFieldCopy app sync_path with
              | inl err => failed res (wrapf "reading spec.syncPolicy: " err)
              | inr previousSyncPolicy =>
                  let app := setAnnotation (RemoveNestedField app automated_path) suspendReasonAnnotation reason in
                  err ← (oc_Update app : Act W _);
                  match err with
                  | Some err => failed res (wrapf ("suspending application " ++s TargetNamespace target ++s "/" ++s
                                                   TargetName target ++s ": ") err)
                  | None =>
                      mret (set_Details
                              (set_Message (set_Status res StatusSucceeded)
                                 ("suspended auto-sync on Application " ++s TargetName target))
                              (Some (<["previousSyncPolicy" := default ANil previousSyncPolicy]>
                                     (<["reason" := AString reason]> ∅))), None)
                  end
              end
          end
      end
  end.

Definition argocd_Reverse (ctx : Context) (prev : Result) : Act W (option error) :=
  if negb (ClientFrom ctx) then mret (Some no_client) else
  got ← getApplication (ResTarget prev);
  match got with
  | inl err => mret (if decide (Is err ErrTargetNotFound) then None else Some err)
  | inr app =>
      let restored := match Details prev ≫= (.!! "previousSyncPolicy") with
                      | None | Some ANil => inr app
                      | Some sp => SetNestedField app sp sync_path
                      end in
      match restored with
      | inl err => mret (Some (wrapf "restoring spec.syncPolicy: " err))
      | inr app =>
          err ← (oc_Update (removeAnnotation app suspendReasonAnnotation) : Act W _);
          mret (wrapf ("restoring application " ++s TargetNamespace (ResTarget prev) ++s "/" ++s
                       TargetName (ResTarget prev) ++s ": ") <$> err)
      end
  end.

Definition argocd_suspend : Action W :=
  mkAction argocd_pluginName argocd_Description argocd_Validate argocd_Execute argocd_Reverse true argocd_RequiredPermissions.

End Argocd.
