(* ===== verification/NetworkIsolate.v ===== *)
(** * The network.isolate and notify.slack plugins: plugins/network-isolate, plugins/notify-slack *)

From S2P Require Import Prelude GoLib GoTime Api ActionTypes Effects PluginBase MeshShift.

(** ** network.isolate: parameters *)

Definition isolate_pluginName : string := "network.isolate".
Definition namePrefix : string := "rp-isolate-".
Definition dnsPort : Z := 53.
Definition isolate_Description : string := "Quarantines the target workload's pods with a restrictive NetworkPolicy.".
Definition isolate_RequiredPermissions : list PolicyRule :=
  [mkRule ["networking.k8s.io"] ["networkpolicies"] ["get"; "list"; "create"; "update"; "patch"; "delete"];
   mkRule ["*"] ["*"] ["get"]].

Definition directionIngress : string := "ingress".
Definition directionEgress : string := "egress".
Definition directionBoth : string := "both".

Record isolate_params : Type := mkIsolateParams {
  is_PodSelector : option (gmap string string);
  is_Direction : string;
  is_AllowDNS : option bool }.

Definition direction (p : isolate_params) : string :=
  if decide (is_Direction p = EmptyString) then directionBoth else is_Direction p.
Definition allowDNS (p : isolate_params) : bool := match is_AllowDNS p with Some b => b | None => true end.
Definition isolatesIngress (p : isolate_params) : Prop := direction p = directionIngress ∨ direction p = directionBoth.
Definition isolatesEgress (p : isolate_params) : Prop := direction p = directionEgress ∨ direction p = directionBoth.
#[export] Instance isolatesIngress_dec p : Decision (isolatesIngress p).
Proof. unfold isolatesIngress. apply _. Defined.
#[export] Instance isolatesEgress_dec p : Decision (isolatesEgress p).
Proof. unfold isolatesEgress. apply _. Defined.

(** ** NetworkPolicy (networking/v1), the fields the plugin sets *)

Inductive PolicyTypeT : Type := PolicyTypeIngress | PolicyTypeEgress.
#[export] Instance PolicyTypeT_eq_dec : EqDecision PolicyTypeT.
Proof. solve_decision. Defined.

Record NetworkPolicyPort : Type := mkPort { np_Protocol : string; np_Port : Z }.
#[export] Instance NetworkPolicyPort_eq_dec : EqDecision NetworkPolicyPort.
Proof. solve_decision. Defined.

(** An egress rule: no peers listed, so the ports to any peer. *)
Record EgressRule : Type := mkEgressRule { er_Ports : list NetworkPolicyPort }.

Record NetworkPolicySpec : Type := mkNPSpec {
  PodSelector : gmap string string;
  PolicyTypes : list PolicyTypeT;
  Ingress : list EgressRule;         (* the plugin never adds an ingress rule *)
  Egress : list EgressRule }.

Record NetworkPolicy : Type := mkNetworkPolicy {
  np_Name : string;
  np_Namespace : string;
  np_Labels : gmap string string;
  np_Annotations : gmap string string;
  np_Spec : NetworkPolicySpec }.

Definition dnsPorts : list NetworkPolicyPort := [mkPort "UDP" dnsPort; mkPort "TCP" dnsPort].

(** [desiredPolicy]. *)
Definition desiredPolicy (inp : ExecuteInput) (p : isolate_params) (selector : gmap string string) : NetworkPolicy :=
  mkNetworkPolicy (namePrefix ++s TargetName (in_Target inp)) (TargetNamespace (in_Target inp))
    (<["app.kubernetes.io/managed-by" := "reactive-policy"]> ∅)
    (<["reactive-policy.io/policy" := in_PolicyName inp]>
     (<["reactive-policy.io/isolated-target" := TargetName (in_Target inp)]> ∅))
    (mkNPSpec selector
       ((if decide (isolatesIngress p) then [PolicyTypeIngress] else []) ++
        (if decide (isolatesEgress p) then [PolicyTypeEgress] else []))
       []
       (if decide (isolatesEgress p) then if allowDNS p then [mkEgressRule dnsPorts] else [] else [])).

(** The client on NetworkPolicies. *)
Class PolicyClient (W : Type) : Type := {
  npc_Get : string → string → W → (error + NetworkPolicy) * W;
  npc_Create : NetworkPolicy → W → option error * W;
  npc_Update : NetworkPolicy → W → option error * W;
  npc_Delete : string → string → W → option error * W }.

(** A client over a store of policies, by namespace and name. *)
Class PolicyStore (W : Type) `{PolicyClient W} : Type := {
  np_stored : W → gmap (string * string) NetworkPolicy;
  npc_Get_stored : ∀ ns n w np w', npc_Get ns n w = (inr np, w') →
    np_stored w !! (ns, n) = Some np ∧ np_Namespace np = ns ∧ np_Name np = n;
  npc_Get_missing : ∀ ns n w e w', npc_Get ns n w = (inl e, w') → Is e NotFound → np_stored w !! (ns, n) = None;
  npc_Get_keeps : ∀ ns n w, np_stored (npc_Get ns n w).2 = np_stored w;
  npc_Create_stored : ∀ np w w', npc_Create np w = (None, w') →
    np_stored w' = <[(np_Namespace np, np_Name np) := np]> (np_stored w);
  npc_Update_stored : ∀ np w w', npc_Update np w = (None, w') →
    np_stored w' = <[(np_Namespace np, np_Name np) := np]> (np_stored w);
  npc_Delete_stored : ∀ ns n w r w', npc_Delete ns n w = (r, w') →
    match r with
    | None => np_stored w' = delete (ns, n) (np_stored w)
    | Some e => np_stored w' = np_stored w ∧ (Is e NotFound → np_stored w !! (ns, n) = None)
    end }.

(** What a policy that selects a pod lets through: a direction its types do
    not name is not restricted; otherwise some rule must list the port. *)
Definition ingress_allowed (np : NetworkPolicy) (port : NetworkPolicyPort) : Prop :=
  PolicyTypeIngress ∈ PolicyTypes (np_Spec np) → ∃ r, r ∈ Ingress (np_Spec np) ∧ (er_Ports r = [] ∨ port ∈ er_Ports r).
Definition egress_allowed (np : NetworkPolicy) (port : NetworkPolicyPort) : Prop :=
  PolicyTypeEgress ∈ PolicyTypes (np_Spec np) → ∃ r, r ∈ Egress (np_Spec np) ∧ (er_Ports r = [] ∨ port ∈ er_Ports r).

Section Isolate.
Context {W : Type} `{Clock W} `{ObjectClient W} `{PolicyClient W} `{ParamsJSON, UnmarshalInto isolate_params}.

Definition isolate_Validate (raw : Params) : option error :=
  match Unmarshal raw with
  | inl err => Some err
  | inr p =>
      if decide (direction p = directionIngress ∨ direction p = directionEgress ∨ direction p = directionBoth)
      then None
      else Some (sentinelf ErrInvalidParams "direction must be one of ingress, egress, both")
  end.

(** [applyPolicy]: create, or overwrite what is there. *)
Definition applyPolicy (np : NetworkPolicy) : Act W (option error) :=
  got ← (npc_Get (np_Namespace np) (np_Name np) : Act W _);
  match got with
  | inl err => if decide (Is err NotFound) then npc_Create np else mret (Some err)
  | inr existing =>
      npc_Update (mkNetworkPolicy (np_Name existing) (np_Namespace existing) (np_Labels np) (np_Annotations np) (np_Spec np))
  end.

(** [deriveSelector]: matchLabels, a Service's selector, the object's labels. *)
Definition found_map (r : error + option (gmap string string)) : option (gmap string string) :=
  match r with inr (Some m) => if decide (m ≠ ∅) then Some m else None | _ => None end.

Definition deriveSelector (obj : Unstr) : option (gmap string string) :=
  match found_map (NestedStringMap obj ["spec"; "selector"; "matchLabels"]) with
  | Some ml => Some ml
  | None =>
      match found_map (NestedStringMap obj ["spec"; "selector"]) with
      | Some sel => Some sel
      | None => found_map (inr (GetLabels obj))
      end
  end.

(** The selector from the parameters, or else from the target. *)
Definition isolate_selector (p : isolate_params) (target : Target) : Act W (error + option (gmap string string)) :=
  match found_map (inr (is_PodSelector p)) with
  | Some sel => mret (inr (Some sel))
  | None =>
      got ← getTarget target;
      mret (match got with inl err => inl err | inr obj => inr (deriveSelector obj) end)
  end.

Definition isolate_Execute (ctx : Context) (inp : ExecuteInput) : Act W (Result * option error) :=
  let target := in_Target inp in
  ts ← PluginNow;
  let res := new_result isolate_pluginName target ts in
  match Unmarshal (in_Params inp) with
  | inl err => failed res err
  | inr p =>
      if negb (ClientFrom ctx) then failed res no_client else
      selected ← isolate_selector p target;
      match selected with
      | inl err => failed res err
      | inr None =>
          failed res (sentinelf ErrPermanent ("cannot derive a pod selector for " ++s Kind target ++s " " ++s
                                              fmt_q (TargetName target) ++s "; set params.podSelector"))
      | inr (Some selector) =>
          let np := desiredPolicy inp p selector in
          err ← applyPolicy np;
          match err with
          | Some err => failed res (wrapf ("isolating " ++s TargetNamespace target ++s "/" ++s TargetName target ++s ": ") err)
          | None =>
              mret (set_Details
                      (set_Message (set_Status res StatusSucceeded)
                         ("isolated " ++s Kind target ++s " " ++s TargetName target ++s " with NetworkPolicy " ++s
                          np_Name np ++s " (" ++s direction p ++s ")"))
                      (Some (<["networkPolicyName" := AString (np_Name np)]>
                             (<["namespace" := AString (np_Namespace np)]>
                             (<["direction" := AString (direction p)]> ∅)))), None)
          end
      end
  end.

Definition isolate_Reverse (ctx : Context) (prev : Result) : Act W (option error) :=
  let name := detail_string prev "networkPolicyName" in
  if decide (name = EmptyString) then
    mret (Some (sentinelf ErrInvalidParams "result has no NetworkPolicy name to reverse")) else
  let namespace := if decide (detail_string prev "namespace" = EmptyString) then TargetNamespace (ResTarget prev)
                   else detail_string prev "namespace" in
  if negb (ClientFrom ctx) then mret (Some no_client) else
  err ← (npc_Delete namespace name : Act W _);
  match err with
  | None => mret None
  | Some err => if decide (Is err NotFound) then mret None
                else mret (Some (wrapf ("removing NetworkPolicy " ++s namespace ++s "/" ++s name ++s ": ") err))
  end.

Definition network_isolate : Action W :=
  mkAction isolate_pluginName isolate_Description isolate_Validate isolate_Execute isolate_Reverse true isolate_RequiredPermissions.

End Isolate.

(** ** notify.slack *)

Definition slack_pluginName : string := "notify.slack".
Definition slack_Description : string := "Sends a message to a Slack channel via an incoming webhook.".
Definition slack_RequiredPermissions : list PolicyRule :=
  [mkRule [EmptyString] ["secrets"] ["get"]].

(** The em dash of the default message is three bytes of UTF-8. *)
Definition defaultMessage : string :=
  "[reactive-policy] *{{ .PolicyName }}* in `{{ .Namespace }}` triggered (severity: {{ .Severity }}) " ++s
  of_bytes [226; 128; 148]%nat ++s " metric value `{{ .MetricValue }}` at {{ .Timestamp }}".

Record secretRef : Type := mkSecretRef { sr_Name : string; sr_Key : string }.
Record slack_params : Type := mkSlackParams {
  sl_WebhookSecretRef : secretRef; sl_Channel : string; sl_Severity : string; sl_Template : string }.

Definition validSeverities : list string := ["info"; "warning"; "critical"].

Definition mergeTemplateData (base : gmap string any) (severity : string) : gmap string any :=
  <["Severity" := AString severity]> base.

(** Secrets by namespace and name, and net/http with encoding/json: the answer
    is a transport error or a status code. *)
Class SlackEnv (W : Type) : Type := {
  secret_Get : string → string → W → (error + gmap string string) * W;
  json_MarshalPayload : gmap string string → error + string;
  http_NewRequest : string → string → error + ();
  http_Post : string → string → W → (error + Z) * W }.

Section Slack.
Context {W : Type} `{Clock W} `{SlackEnv W} `{ParamsJSON, UnmarshalInto slack_params} `{TextTemplate}.

Definition slack_Validate (raw : Params) : option error :=
  match Unmarshal raw with
  | inl err => Some err
  | inr p =>
      if decide (sr_Name (sl_WebhookSecretRef p) = EmptyString ∨ sr_Key (sl_WebhookSecretRef p) = EmptyString) then
        Some (sentinelf ErrInvalidParams "webhookSecretRef.name and webhookSecretRef.key are required")
      else if decide (sl_Severity p ≠ EmptyString ∧ sl_Severity p ∉ validSeverities) then
        Some (sentinelf ErrInvalidParams "severity must be one of info, warning, critical")
      else if decide (sl_Template p ≠ EmptyString) then
        match ValidateTemplate (sl_Template p) with
        | Some err => Some (sentinel_wrap ErrInvalidParams err)
        | None => None
        end
      else None
  end.

Definition postMessage (webhookURL text channel : string) : Act W (option error) :=
  let payload := <["text" := text]> ∅ in
  let payload := if decide (channel ≠ EmptyString) then <["channel" := channel]> payload else payload in
  match json_MarshalPayload payload with
  | inl err => mret (Some (wrapf "encoding slack payload: " err))
  | inr body =>
      match http_NewRequest webhookURL body with
      | inl err => mret (Some (wrapf "building slack request: " err))
      | inr _ =>
          answer ← (http_Post webhookURL body : Act W _);
          mret (match answer with
                | inl err => Some (wrapf "posting to slack: " err)
                | inr status => if decide (status >= 300) then
                                  Some (sentinelf ErrPermanent ("slack returned status " ++s fmt_d status))
                                else None
                end)
      end
  end.

Definition slack_Execute (ctx : Context) (inp : ExecuteInput) : Act W (Result * option error) :=
  ts ← PluginNow;
  let res := new_result slack_pluginName (in_Target inp) ts in
  match Unmarshal (in_Params inp) with
  | inl err => failed res err
  | inr p =>
      let severity := if decide (sl_Severity p = EmptyString) then "warning" else sl_Severity p in
      if negb (ClientFrom ctx) then failed res no_client else
      got ← (secret_Get (in_Namespace inp) (sr_Name (sl_WebhookSecretRef p)) : Act W _);
      match got with
      | inl err => failed res (wrapf ("reading webhook secret " ++s in_Namespace inp ++s "/" ++s sr_Name (sl_WebhookSecretRef p) ++s ": ") err)
      | inr data =>
          let webhookURL := default EmptyString (data !! sr_Key (sl_WebhookSecretRef p)) in
          if decide (webhookURL = EmptyString) then
            failed res (sentinelf ErrInvalidParams ("secret " ++s fmt_q (sr_Name (sl_WebhookSecretRef p)) ++s " has no value at key " ++s
                                                    fmt_q (sr_Key (sl_WebhookSecretRef p))))
          else
          let tmpl := if decide (sl_Template p = EmptyString) then defaultMessage else sl_Template p in
          match RenderTemplate tmpl (mergeTemplateData (in_TemplateData inp) severity) with
          | inl err => failed res err
          | inr text =>
              err ← postMessage webhookURL text (sl_Channel p);
              match err with
              | Some err => failed res err
              | None =>
                  mret (set_Details
                          (set_Message (set_Status res StatusSucceeded) ("notified slack (severity " ++s severity ++s ")"))
                          (Some (<["severity" := AString severity]> (<["channel" := AString (sl_Channel p)]> ∅))), None)
              end
          end
      end
  end.

(** A sent notification cannot be unsent. *)
Definition slack_Reverse (_ : Context) (_ : Result) : Act W (option error) :=
  mret (Some (sentinel_error ErrNotReversible)).

Definition notify_slack : Action W :=
  mkAction slack_pluginName slack_Description slack_Validate slack_Execute slack_Reverse false slack_RequiredPermissions.

End Slack.
