(* ===== verification/Fake.v ===== *)
(** * A concrete world

    An in-memory API server with a clock, a metric, objects to act on and a
    script of write failures: the instance of every interface the theorems
    are stated against, on which their witnesses run.  It models the server's
    documented behaviour: generated names, status as a subresource, optimistic
    concurrency on the resource version. *)

From S2P Require Import Prelude GoLib GoTime Api ActionTypes Metrics Effects Logic Evaluator FloatLib Limiter Registry Executor AuditWriter PolicyController AuditController AuditWebhook Scheme Cli.

Record FakeObject : Type := mkObject {
  fo_Namespace : string; fo_APIVersion : string; fo_Kind : string; fo_Name : string;
  fo_Labels : gmap string string; fo_Annotation : string }.

Record World : Type := mkWorld {
  w_now : Time;
  w_tick : Duration;                   (* how far every reading moves the clock *)
  w_serial : Z;                        (* next generated suffix and version *)
  w_policies : list ReactivePolicy;
  w_audits : list ActionAudit;
  w_objects : list FakeObject;
  w_metric : error + float64;
  w_write_errors : list (option error) (* outcomes of the next writes, then success *)
}.

Definition meta_at (nn : NamespacedName) (m : ObjectMeta) : Prop :=
  Namespace m = nn_Namespace nn ∧ Name m = nn_Name nn.
#[export] Instance meta_at_dec nn m : Decision (meta_at nn m).
Proof. unfold meta_at. apply _. Defined.

Definition same_object (m m' : ObjectMeta) : Prop := Namespace m = Namespace m' ∧ Name m = Name m'.
#[export] Instance same_object_dec m m' : Decision (same_object m m').
Proof. unfold same_object. apply _. Defined.

Definition not_found (what : string) : error := Err [NotFound] (what ++s " not found").
Definition conflict (what : string) : error :=
  Err [Conflict] (what ++s ": the object has been modified; please apply your changes to the latest version").

Section Server.
Implicit Types w : World.

Definition tick w : World :=
  mkWorld (w_now w + w_tick w) (w_tick w) (w_serial w) (w_policies w) (w_audits w) (w_objects w)
    (w_metric w) (w_write_errors w).
Definition with_policies (l : list ReactivePolicy) w : World :=
  mkWorld (w_now w) (w_tick w) (w_serial w) l (w_audits w) (w_objects w) (w_metric w) (w_write_errors w).
Definition with_audits (l : list ActionAudit) w : World :=
  mkWorld (w_now w) (w_tick w) (w_serial w) (w_policies w) l (w_objects w) (w_metric w) (w_write_errors w).
Definition with_objects (l : list FakeObject) w : World :=
  mkWorld (w_now w) (w_tick w) (w_serial w) (w_policies w) (w_audits w) l (w_metric w) (w_write_errors w).
Definition with_metric (m : error + float64) w : World :=
  mkWorld (w_now w) (w_tick w) (w_serial w) (w_policies w) (w_audits w) (w_objects w) m (w_write_errors w).
Definition with_write_errors (l : list (option error)) w : World :=
  mkWorld (w_now w) (w_tick w) (w_serial w) (w_policies w) (w_audits w) (w_objects w) (w_metric w) l.
Definition with_now (t : Time) w : World :=
  mkWorld t (w_tick w) (w_serial w) (w_policies w) (w_audits w) (w_objects w) (w_metric w) (w_write_errors w).

(** The scripted outcome of the next write, and a fresh serial number. *)
Definition next_write w : option error * World :=
  (match w_write_errors w with e :: _ => e | [] => None end,
   mkWorld (w_now w) (w_tick w) (w_serial w + 1) (w_policies w) (w_audits w) (w_objects w)
     (w_metric w) (drop 1 (w_write_errors w))).

Definition get_policy (nn : NamespacedName) w : (error + ReactivePolicy) * World :=
  (match head (filter (λ p, meta_at nn (p_Meta p)) (w_policies w)) with
   | Some p => inr p
   | None => inl (not_found (nn_String nn))
   end, w).

Definition get_audit (nn : NamespacedName) w : (error + ActionAudit) * World :=
  (match head (filter (λ a, meta_at nn (a_Meta a)) (w_audits w)) with
   | Some a => inr a
   | None => inl (not_found (nn_String nn))
   end, w).

Definition list_audits (ns label value : string) w : (error + list ActionAudit) * World :=
  (inr (filter (λ a, Namespace (a_Meta a) = ns ∧ Labels (a_Meta a) !! label = Some value) (w_audits w)), w).

(** Selectors: equality terms and the four set operators. *)
Definition requirement_ok (ls : gmap string string) (r : LabelSelectorRequirement) : bool :=
  match ls !! req_Key r with
  | Some v =>
      if decide (req_Operator r = "In") then bool_decide (v ∈ req_Values r)
      else if decide (req_Operator r = "NotIn") then bool_decide (v ∉ req_Values r)
      else bool_decide (req_Operator r = "Exists")
  | None => bool_decide (req_Operator r = "NotIn" ∨ req_Operator r = "DoesNotExist")
  end.

Definition selects (sel : LabelSelector) (ls : gmap string string) : bool :=
  bool_decide (MatchLabels sel ⊆ ls) && forallb (requirement_ok ls) (MatchExpressions sel).

Definition known_operators : list string := ["In"; "NotIn"; "Exists"; "DoesNotExist"].

Definition as_selector (sel : LabelSelector) : error + LabelSelector :=
  match filter (λ r, req_Operator r ∉ known_operators) (MatchExpressions sel) with
  | [] => inr sel
  | r :: _ => inl (errorf (fmt_q (req_Operator r) ++s " is not a valid label selector operator"))
  end.

Definition list_objects (ns apiVersion kind : string) (sel : LabelSelector) w
  : (error + list (string * string)) * World :=
  (inr ((λ o, (fo_Namespace o, fo_Name o)) <$>
        filter (λ o, fo_Namespace o = ns ∧ fo_APIVersion o = apiVersion ∧
                     fo_Kind o ++s "List" = kind ∧ selects sel (fo_Labels o) = true) (w_objects w)), w).

Definition create_audit (a : ActionAudit) w : (error + ActionAudit) * World :=
  let '(err, w) := next_write w in
  match err with
  | Some e => (inl e, w)
  | None =>
      let m := a_Meta a in
      let n := fmt_d (w_serial w) in
      let name := if decide (Name m = EmptyString) then GenerateName m ++s n else Name m in
      let stored := mkAudit (mkMeta name (GenerateName m) (Namespace m) ("uid-" ++s n) n 1 (w_now w) (Labels m))
                      (a_Spec a) empty_audit_status in
      (inr stored, with_audits (w_audits w ++ [stored]) w)
  end.

Definition set_version (v : string) (m : ObjectMeta) : ObjectMeta :=
  mkMeta (Name m) (GenerateName m) (Namespace m) (UID m) v (Generation m) (CreationTimestamp m) (Labels m).

(** A write to an existing audit: [merge stored sent] is what is kept. *)
Definition write_audit (merge : ActionAudit → ActionAudit → ActionAudit) (a : ActionAudit) w
  : (error + ActionAudit) * World :=
  let '(err, w) := next_write w in
  match err, head (filter (λ x, same_object (a_Meta x) (a_Meta a)) (w_audits w)) with
  | Some e, _ => (inl e, w)
  | None, None => (inl (not_found (Name (a_Meta a))), w)
  | None, Some x =>
      if decide (ResourceVersion (a_Meta x) ≠ ResourceVersion (a_Meta a)) then (inl (conflict (Name (a_Meta a))), w)
      else
        let kept z := mkAudit (set_version (fmt_d (w_serial w)) (a_Meta z)) (a_Spec (merge z a)) (a_Status (merge z a)) in
        (inr (kept x), with_audits ((λ z, if decide (same_object (a_Meta z) (a_Meta x)) then kept z else z) <$> w_audits w) w)
  end.

Definition update_audit : ActionAudit → World → (error + ActionAudit) * World :=
  write_audit (λ x a, mkAudit (a_Meta x) (a_Spec a) (a_Status x)).
Definition update_audit_status : ActionAudit → World → (error + ActionAudit) * World :=
  write_audit (λ x a, mkAudit (a_Meta x) (a_Spec x) (a_Status a)).

Definition update_policy_status (p : ReactivePolicy) w : option error * World :=
  let '(err, w) := next_write w in
  match err with
  | Some e => (Some e, w)
  | None =>
      if decide (Exists (λ q, same_object (p_Meta q) (p_Meta p)) (w_policies w)) then
        (None, with_policies ((λ q, if decide (same_object (p_Meta q) (p_Meta p))
                                    then mkPolicy (p_Meta q) (p_Spec q) (p_Status p) else q) <$> w_policies w) w)
      else (Some (not_found (Name (p_Meta p))), w)
  end.

Definition delete_audit (a : ActionAudit) w : option error * World :=
  let '(err, w) := next_write w in
  match err with
  | Some e => (Some e, w)
  | None =>
      if decide (Exists (λ x, same_object (a_Meta x) (a_Meta a)) (w_audits w)) then
        (None, with_audits (filter (λ x, ¬ same_object (a_Meta x) (a_Meta a)) (w_audits w)) w)
      else (Some (not_found (Name (a_Meta a))), w)
  end.

(** [meta.SetStatusCondition]: replace in place or append, and stamp the
    transition time when the status changes. *)
Definition replace_condition (now : Time) (c old : Condition) : Condition :=
  mkCondition (c_Type old) (c_Status c) (c_Reason c) (c_Message c) (c_ObservedGeneration c)
    (if decide (c_Status c = c_Status old) then c_LastTransitionTime old else now).

Fixpoint set_condition (now : Time) (cs : list Condition) (c : Condition) : list Condition :=
  match cs with
  | [] => [mkCondition (c_Type c) (c_Status c) (c_Reason c) (c_Message c) (c_ObservedGeneration c) now]
  | old :: cs' => if decide (c_Type old = c_Type c) then replace_condition now c old :: cs'
                  else old :: set_condition now cs' c
  end.

End Server.

#[export] Instance fake_cluster : Cluster World := {|
  sys_Now w := (w_now w, tick w);
  cl_GetPolicy := get_policy;
  cl_GetAudit := get_audit;
  cl_ListAudits := list_audits;
  Selector_ := LabelSelector;
  LabelSelectorAsSelector := as_selector;
  cl_ListObjects := list_objects;
  cl_CreateAudit := create_audit;
  cl_UpdateAudit := update_audit;
  cl_StatusUpdateAudit := update_audit_status;
  cl_StatusUpdatePolicy := update_policy_status;
  cl_DeleteAudit := delete_audit;
  meta_SetStatusCondition cs c w := (set_condition (w_now w) cs c, w) |}.

#[export] Instance fake_conditions : ClusterConditions World.
Proof.
  split.
  - intros cs c w. simpl. induction cs as [|old cs IH]; simpl; unfold FindStatusCondition in *.
    + rewrite filter_cons, decide_True by done. eexists. by split_and!.
    + destruct (decide (c_Type old = c_Type c)); rewrite filter_cons; simpl.
      * rewrite decide_True by done. eexists. by split_and!.
      * rewrite decide_False by done. done.
  - intros cs c w ty Hty. simpl. induction cs as [|old cs IH]; simpl; unfold FindStatusCondition in *.
    + rewrite filter_cons, decide_False by done. done.
    + destruct (decide (c_Type old = c_Type c)) as [Ho|]; rewrite !filter_cons; simpl.
      * rewrite !decide_False by congruence. done.
      * case_decide; [done|]. done.
Qed.

(** Timestamps in the templates: the seconds since the epoch stand for the
    layout of the local zone, which nothing here depends on. *)
#[export] Instance fake_zone : LocalZone := { FormatRFC3339 t := fmt_d (t / Second) }.

(** The command line client's view: lists by namespace (all when empty), no
    files, ages in seconds. *)
Definition in_namespace (ns : string) (m : ObjectMeta) : Prop := ns = EmptyString ∨ Namespace m = ns.
#[export] Instance in_namespace_dec ns m : Decision (in_namespace ns m).
Proof. unfold in_namespace. apply _. Defined.

Definition has_label (label : option (string * string)) (m : ObjectMeta) : Prop :=
  match label with Some kv => Labels m !! kv.1 = Some kv.2 | None => True end.
#[export] Instance has_label_dec label m : Decision (has_label label m).
Proof. destruct label; simpl; apply _. Defined.

#[export] Instance fake_cli : CliEnv World := {|
  cli_ListAudits ns label w :=
    (inr (filter (λ a, in_namespace ns (a_Meta a) ∧ has_label label (a_Meta a)) (w_audits w)), w);
  cli_ListPolicies ns w := (inr (filter (λ p, in_namespace ns (p_Meta p)) (w_policies w)), w);
  os_ReadFile path w := (inl (errorf ("open " ++s path ++s ": no such file or directory")), w);
  yaml_UnmarshalPolicy raw := inl (errorf "not a policy");
  HumanDuration d := fmt_d (d / Second) ++s "s";
  TimeString t := match t with Some t => fmt_d (t / Second) | None => "<nil>" end |}.

(** A scheme as the kind of each type, if it has one. *)
#[export] Instance fake_scheme : RuntimeScheme := {|
  runtime_Scheme := GoType → option GroupVersionKind;
  NewScheme _ := None;
  Builder := SchemaGV * list GoType;
  NewBuilder gv := (gv, []);
  builder_Register b types := (b.1, b.2 ++ types);
  builder_AddToScheme b s := (None, λ t, if decide (t ∈ b.2) then Some (WithKind b.1 (type_Name t)) else s t);
  clientgo_AddToScheme s := (None, s);
  ObjectKinds s t := match s t with Some gvk => inr [gvk] | None => inl (errorf "no kind is registered for the type") end |}.

#[export] Instance fake_scheme_laws : SchemeLaws.
Proof.
  split.
  - intros s t [= <-]. by eexists.
  - intros gv regs s s' t e [= <-] Ht _. simpl.
    assert (∀ b : SchemaGV * list GoType,
      foldl builder_Register b regs = (b.1, b.2 ++ concat regs)) as Hb.
    { clear. induction regs as [|l regs IH]; intros [gv l']; simpl; [by rewrite app_nil_r|].
      rewrite IH. simpl. by rewrite <- app_assoc. }
    change (foldl _ (gv, []) regs) with (foldl builder_Register ((gv, []) : SchemaGV * list GoType) regs). 
    rewrite Hb. simpl. by rewrite decide_True by done.
Qed.

Definition fake_factory (output : string) : CliFactory World :=
  mkFactory "prod" false output None (Some (λ _ _, inr (mkPromClient (λ _ w, (w_metric w, w))))) None.

(** A metric client that answers with the world's metric. *)
Definition fake_prometheus : Factory World := λ _ _, inr (mkPromClient (λ _ w, (w_metric w, w))).

(** Details maps with string values under plain keys, one "key=value;" each;
    the empty text for the empty map is "{}". *)
Definition enc_detail (kv : string * any) : option string :=
  match kv.2 with
  | AString s => Some (kv.1 ++s "=" ++s s ++s ";")
  | ABool b => Some (kv.1 ++s "?" ++s (if b then "1" else "0") ++s ";")
  | _ => None
  end.

Fixpoint split_field (key : string) (s : string) (acc : string) (seen : option bool) : list (string * any) :=
  match s with
  | EmptyString => []
  | String c s' =>
      if decide (c = Ascii.ascii_of_nat 59) then
        match seen with
        | Some true => (key, AString acc)
        | Some false => (key, ABool (bool_decide (acc = "1")))
        | None => (acc, ANil)
        end :: split_field EmptyString s' EmptyString None
      else if decide (c = Ascii.ascii_of_nat 61 ∧ seen = None) then split_field acc s' EmptyString (Some true)
      else if decide (c = Ascii.ascii_of_nat 63 ∧ seen = None) then split_field acc s' EmptyString (Some false)
      else split_field key s' (acc ++s String c EmptyString) seen
  end.

#[export] Instance fake_codec : DetailsCodec := {
  json_Marshal d :=
    match mapM enc_detail (map_to_list d) with
    | Some l => Some ("{" ++s Join l EmptyString ++s "}")
    | None => None
    end;
  json_Unmarshal s :=
    match s with
    | String _ s' => Some (list_to_map (split_field EmptyString (String.substring 0 (String.length s' - 1) s') EmptyString None))
    | EmptyString => None
    end }.

Example fake_codec_reads :
  codec_reads (<["a" := AString "x"]> (<["b" := ABool true]> ∅)) (<["a" := AString "x"]> (<["b" := ABool true]> ∅)).
Proof. unfold codec_reads. eexists. split_and!; [reflexivity|vm_compute; lia|by_compute]. Qed.

(** ** Plugins of the concrete world *)

(** Appends its name to the target's annotation; undoing removes it.  A missing
    object is [ErrTargetNotFound]; a target with no name is accepted as is. *)
Definition touch (f : string → string) (t : Target) (w : World) : option error * World :=
  if decide (TargetName t = EmptyString) then (None, w) else
  let hit o := fo_Namespace o = TargetNamespace t ∧ fo_Kind o = Kind t ∧ fo_Name o = TargetName t in
  if decide (Exists (λ o, fo_Namespace o = TargetNamespace t ∧ fo_Kind o = Kind t ∧ fo_Name o = TargetName t) (w_objects w))
  then (None, with_objects ((λ o, if decide (fo_Namespace o = TargetNamespace t ∧ fo_Kind o = Kind t ∧ fo_Name o = TargetName t)
                                  then mkObject (fo_Namespace o) (fo_APIVersion o) (fo_Kind o) (fo_Name o)
                                         (fo_Labels o) (f (fo_Annotation o)) else o) <$> w_objects w) w)
  else (Some (sentinelf ErrTargetNotFound (TargetName t)), w).

Definition fake_plugin (name : string) (reversible : bool) (fails : bool) : Action World :=
  mkAction name ("fake " ++s name)
    (λ ps, match ps with Some m => if decide (m = ∅) then None else Some (sentinelf ErrInvalidParams name) | None => None end)
    (λ ctx inp w,
       if fails then
         ((mkResult name name (in_Target inp) zero_Time EmptyString EmptyString None, Some (errorf "boom")), w)
       else
         let '(err, w') := touch (λ s, s ++s name) (in_Target inp) w in
         ((mkResult name name (in_Target inp) zero_Time EmptyString EmptyString
             (Some (<["plugin" := AString name]> ∅)), err), w'))
    (λ ctx prev w,
       if reversible then touch (λ s, TrimSuffix s name) (ResTarget prev) w
       else (Some (sentinel_error ErrNotReversible), w))
    reversible
    [mkRule [EmptyString] ["pods"] ["get"; "patch"]].

Definition fake_plugins : list (Action World) :=
  [fake_plugin "notify" false false; fake_plugin "annotate" true false; fake_plugin "broken" true true].

Definition fake_registry : Registry World :=
  match register_all NewRegistry fake_plugins with Val r => r | Panic _ => NewRegistry end.

Lemma fake_registry_ok : registry_ok fake_registry.
Proof.
  unfold fake_registry. destruct (register_all _ _) eqn:E; [|apply registry_ok_empty].
  by eapply register_all_ok; [apply registry_ok_empty|].
Qed.

(** ** Objects, policies and audits to run on *)

Definition a_meta (ns name uid : string) : ObjectMeta :=
  mkMeta name EmptyString ns uid "1" 1 0 ∅.

Definition a_pod (name : string) : FakeObject :=
  mkObject "prod" "v1" "Pod" name (<["app" := "web"]> ∅) EmptyString.

Definition act (plugin onFailure : string) (gated : bool) : ActionSpec :=
  mkActionSpec plugin None onFailure gated.

Definition a_policy (acts : list ActionSpec) (cooldown : Duration) (status : ReactivePolicyStatus) : ReactivePolicy :=
  mkPolicy (a_meta "prod" "high-cpu" "uid-p")
    (mkPolicySpec
       (mkTargetSpec (mkSelector (<["app" := "web"]> ∅) []) [mkTargetKind "v1" "Pod"] (Some 3))
       (mkObserve SourcePrometheus "http://prom" "cpu" "0.8" OpGreaterThan Minute (30 * Second) None)
       acts cooldown (Some 2) true 0 None)
    status.

Definition fresh_status : ReactivePolicyStatus :=
  mkPolicyStatus EmptyString None None 0 EmptyString EmptyString [].

Definition a_req : NamespacedName := mkNN "prod" "high-cpu".

Definition t0 : Time := 1000000 * Second.

Definition a_world (policies : list ReactivePolicy) (audits : list ActionAudit) : World :=
  mkWorld t0 Millisecond 7 policies audits [a_pod "web-0"; a_pod "web-1"]
    (match ParseFloat "0.93" with inr f => inr f | inl e => inl e end) [].

(** The threshold has been crossed for two minutes. *)
Definition crossed_mem : Mem := mkMem (<["prod/high-cpu" := t0 - 2 * Minute]> ∅) ∅ (mkMetrics ∅ []).

Definition start (w : World) : St World := mkSt w crossed_mem [].

Definition run_policy (w : World) : outcome (CtrlResult * option error) * St World :=
  PolicyController.Reconcile fake_prometheus fake_registry None Background a_req (start w).

(** The sample policy triggers: it annotates both pods and leaves one record. *)
Example run_policy_triggers :
  let '(o, st) := run_policy (a_world [a_policy [act "annotate" EmptyString false] Minute fresh_status] []) in
  o = Val (requeue_after (30 * Second), None) ∧
  (executed (log st)).*1 = ["annotate"; "annotate"] ∧
  (fo_Annotation <$> w_objects (world st)) = ["annotate"; "annotate"] ∧
  (rec_Status <$> concat ((λ a, AuditActions (a_Spec a)) <$> w_audits (world st))) = [StatusSucceeded; StatusSucceeded] ∧
  ((λ p, State (p_Status p)) <$> w_policies (world st)) = [StateTriggering].
Proof. vm_compute. split_and!; reflexivity. Qed.

(** A policy that annotates, then holds a second action for approval; due, with
    its gate open, and cooling down. *)
Definition gated_acts : list ActionSpec := [act "annotate" EmptyString false; act "notify" EmptyString true].
Definition w_due : World := a_world [a_policy gated_acts Minute fresh_status] [].
Definition gated_status (ref : string) (last : option Time) : ReactivePolicyStatus :=
  mkPolicyStatus StateAwaitingApproval None last 1 EmptyString ref [].
Definition pending_audit (decision : ApprovalDecision) : ActionAudit :=
  mkAudit (a_meta "prod" "high-cpu-1" "uid-a")
    (mkAuditRecordSpec "high-cpu" "uid-p" t0 "0.93" [] false
       (Some (mkGate 1 ["notify"] [mkAuditTarget "v1" "Pod" "web-0" "prod"] (t0 + 30 * Minute) decision "alice"
                None EmptyString)))
    (mkAuditStatus false None [] PhasePending None []).
Definition w_open (decision : ApprovalDecision) : World :=
  a_world [a_policy gated_acts Minute (gated_status "high-cpu-1" None)] [pending_audit decision].
Definition w_cooling : World :=
  a_world [a_policy gated_acts Minute (gated_status EmptyString (Some (t0 - 20 * Second)))] [].
