(* ===== verification/EvaluatorTheorems.v ===== *)
(** * Theorems about threshold evaluation

    The comparison operators on float64 with NaN, what the sliding window
    remembers of a history of observations, and the metric client's answers. *)

From S2P Require Import Prelude GoLib FloatLib GoTime Api ActionTypes Metrics Effects Logic Evaluator.
From Stdlib Require Import Floats.SpecFloat.

(** ** Compare *)

Lemma SFcompare_antisym a b : SFcompare a b = (CompOpp <$> SFcompare b a).
Proof.
  destruct a as [sa|sa| |sa ma ea], b as [sb|sb| |sb mb eb]; simpl; try (destruct sa; try destruct sb; done);
    try (destruct sb; done); try done.
  assert (Pos.compare_cont Eq mb ma = CompOpp (Pos.compare_cont Eq ma mb)) as Hm
    by (by rewrite Pos.compare_cont_antisym).
  destruct sa, sb; simpl; try done; rewrite (Z.compare_antisym eb ea), Hm;
    destruct (Z.compare eb ea); simpl; try done; by destruct (Pos.compare_cont Eq ma mb).
Qed.

Lemma SFcompare_None a b : SFcompare a b = None ↔ is_NaN a ∨ is_NaN b.
Proof.
  unfold is_NaN. split.
  - destruct a as [sa|sa| |sa ma ea], b as [sb|sb| |sb mb eb]; simpl; try (by auto); try (by destruct sa);
      try (by destruct sb).
    all: try (destruct sa, sb; simpl; try done; destruct (Z.compare ea eb); done).
  - intros [->| ->]; [by destruct b|by destruct a].
Qed.

(** The operators order float64 values: two values that are numbers are in
    exactly one of the relations less, equal, greater, each operator holds in
    the relations its name says and in no other, and when either value is NaN
    only NotEqual holds; an operator the API does not define never holds. *)
Lemma compare_trichotomy v t :
  (is_NaN v ∨ is_NaN t → ∀ op, Compare v t op = bool_decide (op = OpNotEqual)) ∧
  (¬ is_NaN v → ¬ is_NaN t →
     ∃ c, SFcompare v t = Some c ∧ SFcompare t v = Some (CompOpp c) ∧
       (Compare v t OpGreaterThan = true ↔ c = Gt) ∧
       (Compare v t OpGreaterThanOrEqual = true ↔ c ≠ Lt) ∧
       (Compare v t OpLessThan = true ↔ c = Lt) ∧
       (Compare v t OpLessThanOrEqual = true ↔ c ≠ Gt) ∧
       (Compare v t OpEqual = true ↔ c = Eq) ∧
       (Compare v t OpNotEqual = true ↔ c ≠ Eq)) ∧
  (∀ op, op ∉ [OpGreaterThan; OpGreaterThanOrEqual; OpLessThan; OpLessThanOrEqual; OpEqual; OpNotEqual] →
     Compare v t op = false).
Proof.
  assert (∀ op, Compare v t op =
    (if decide (op = OpGreaterThan) then float_gt v t else
     if decide (op = OpGreaterThanOrEqual) then float_ge v t else
     if decide (op = OpLessThan) then float_lt v t else
     if decide (op = OpLessThanOrEqual) then float_le v t else
     if decide (op = OpEqual) then float_eq v t else
     if decide (op = OpNotEqual) then float_ne v t else false)) as Hdef by done.
  unfold float_gt, float_ge, float_lt, float_le, float_eq, float_ne, SFltb, SFleb, SFeqb in Hdef.
  rewrite (SFcompare_antisym t v) in Hdef. split_and!.
  - intros Hnan op. apply SFcompare_None in Hnan. rewrite Hdef, Hnan. simpl.
    repeat (case_decide; [by subst; vm_compute|]). by rewrite bool_decide_eq_false_2.
  - intros Hv Ht. destruct (SFcompare v t) as [c|] eqn:Hc.
    + exists c. rewrite (SFcompare_antisym t v), Hc. rewrite !Hdef. simpl. destruct c; by split_and!.
    + apply SFcompare_None in Hc as [?|?]; done.
  - intros op Hop. rewrite Hdef. repeat (case_decide; [subst; exfalso; apply Hop; set_solver|]). done.
Qed.

(** ** The sliding window *)

Inductive window_event : Type :=
| WObserve (key : string) (crossed : bool) (now : Time)
| WForget (key : string).

Definition window_step (w : gmap string Time) (e : window_event) : gmap string Time :=
  match e with
  | WObserve key crossed now => (SlidingWindow.Observe w key crossed now).2
  | WForget key => SlidingWindow.Forget w key
  end.

(** The window after a history, from empty. *)
Definition window_of (evs : list window_event) : gmap string Time := foldl window_step ∅ evs.

(** What ends a crossing of [key]. *)
Definition resets (key : string) (e : window_event) : Prop :=
  match e with
  | WObserve k crossed _ => k = key ∧ crossed = false
  | WForget k => k = key
  end.
#[export] Instance resets_dec key e : Decision (resets key e).
Proof. destruct e; simpl; apply _. Defined.

Definition crossing (key : string) (e : window_event) : option Time :=
  match e with
  | WObserve k true now => if decide (k = key) then Some now else None
  | _ => None
  end.

(** The reference: the first crossing of [key] since it was last reset. *)
Definition since_reset (key : string) (evs : list window_event) : list window_event :=
  foldl (λ acc e, if decide (resets key e) then [] else acc ++ [e]) [] evs.
Definition held_since (key : string) (evs : list window_event) : option Time :=
  head (omap (crossing key) (since_reset key evs)).

Lemma since_reset_snoc key evs e :
  since_reset key (evs ++ [e]) = if decide (resets key e) then [] else since_reset key evs ++ [e].
Proof. unfold since_reset. by rewrite foldl_app. Qed.

Lemma window_held key evs : window_of evs !! key = held_since key evs.
Proof.
  unfold held_since. induction evs as [|e evs IH] using rev_ind; [done|].
  unfold window_of in *. rewrite foldl_app, since_reset_snoc. simpl.
  set (w := foldl window_step ∅ evs) in *. case_decide as Hr.
  - destruct e as [k [] now|k]; simpl in *; destruct_and? Hr; subst; try done; apply lookup_delete_eq.
  - rewrite omap_app. destruct e as [k c now|k]; simpl in Hr |- *.
    + destruct (decide (k = key)) as [->|Hk]; destruct c; simpl; try (by destruct Hr).
      * destruct (w !! key) as [t|] eqn:Hw; simpl; [rewrite Hw|rewrite lookup_insert_eq];
          rewrite IH in *; destruct (omap (crossing key) (since_reset key evs)); by simplify_eq/=.
      * rewrite app_nil_r, <- IH. destruct (w !! k) eqn:Hw; simpl; [done|by rewrite lookup_insert_ne].
      * rewrite app_nil_r, <- IH. by apply lookup_delete_ne.
    + rewrite app_nil_r, <- IH. apply lookup_delete_ne. intros ->. by apply Hr.
Qed.

Lemma since_reset_suffix key evs :
  ∃ pre, evs = pre ++ since_reset key evs ∧ Forall (λ e, ¬ resets key e) (since_reset key evs).
Proof.
  induction evs as [|e evs (pre & Hpre & Hf)] using rev_ind; [by exists []|]. rewrite since_reset_snoc. case_decide.
  - exists (evs ++ [e]). rewrite app_nil_r. by split.
  - exists pre. rewrite app_assoc, <- Hpre. split; [done|]. apply Forall_app. by split; [|constructor].
Qed.

Lemma since_reset_app key evs l :
  Forall (λ e, ¬ resets key e) l → since_reset key (evs ++ l) = since_reset key evs ++ l.
Proof.
  induction l as [|e l IH] using rev_ind; intros Hl; [by rewrite !app_nil_r|].
  apply Forall_app in Hl as [Hl He]. apply Forall_cons in He as [He _].
  rewrite app_assoc, since_reset_snoc, decide_False by done. by rewrite IH, app_assoc.
Qed.

Lemma head_omap_split {A B} (f : A → option B) l b :
  head (omap f l) = Some b →
  ∃ pre x post, l = pre ++ x :: post ∧ f x = Some b ∧ Forall (λ y, f y = None) pre.
Proof.
  induction l as [|x l IH]; simpl; [done|]. destruct (f x) as [y|] eqn:Hx; simpl.
  - intros [= ->]. exists [], x, l. by split_and!.
  - intros Hh. destruct (IH Hh) as (pre & z & post & -> & Hz & Hpre). exists (x :: pre), z, post.
    split_and!; [done|done|by constructor].
Qed.

(** C29. The window measures how long a key has stayed crossed: for every history
    of observations and forgets, of this key and of others, the duration
    reported for a new crossing at [now] is 0 when the key is not being held,
    and otherwise runs from the first crossing of the key since its last
    non-crossing observation or forget; so a reported positive duration means
    the threshold was crossed at every observation in between. *)
Theorem window_reports_held_time evs key now :
  (SlidingWindow.Observe (window_of evs) key true now).1 =
    match held_since key evs with Some t => time_Sub now t | None => 0 end ∧
  ∀ t, held_since key evs = Some t →
    ∃ pre post, evs = pre ++ WObserve key true t :: post ∧ held_since key pre = None ∧
      ∀ e, e ∈ post → ¬ resets key e.
Proof.
  rewrite <- window_held. split.
  - simpl. by destruct (window_of evs !! key).
  - intros t Ht. rewrite window_held in Ht. unfold held_since in Ht.
    destruct (head_omap_split _ _ _ Ht) as (pre & e & post & Hsplit & He & Hpre).
    destruct (since_reset_suffix key evs) as (front & Hevs & Hf). rewrite Hsplit in Hevs, Hf.
    apply Forall_app in Hf as [Hfpre Hfpost]. apply Forall_cons in Hfpost as [_ Hfpost].
    assert (e = WObserve key true t) as ->.
    { destruct e as [k [] n|]; simpl in He; try done. case_decide; by simplify_eq. }
    exists (front ++ pre), post. split_and!; [by rewrite <- app_assoc| |by apply Forall_forall].
    assert (since_reset key (front ++ pre) = pre) as Hpre'.
    { pose proof (since_reset_app key (front ++ pre) (WObserve key true t :: post)) as Happ.
      rewrite <- app_assoc, <- Hevs, Hsplit in Happ. symmetry. eapply app_inv_tail, Happ.
      constructor; [by intros [_ ?]|done]. }
    unfold held_since. rewrite Hpre'. clear -Hpre.
    induction Hpre as [|y l Hy _ IH]; simpl; [done|]. by rewrite Hy.
Qed.

(** ** The metric client *)

(** A query succeeds only on a single number: an instant vector with exactly
    one sample, or a scalar; an empty vector is the sentinel ErrNoData and no
    other answer is; the deadline given to the library is the configured
    timeout, 30 seconds by default, and the bearer token is used exactly when
    it is not empty. *)
Lemma query_single_number {W} `{PromAPI W} endpoint opts (c : PromClient W) query w :
  NewClient endpoint opts = inr c →
  let cfg := config_of opts in
  let token := if decide (bearerToken cfg = EmptyString) then None else Some (bearerToken cfg) in
  ∃ api, promapi_NewClient endpoint token = inr api ∧
    let '(answer, w') := promapi_Query api (if decide (timeout cfg > 0) then Some (timeout cfg) else None) query w in
    (pc_Query c query w).2 = w' ∧
    (∀ v, (pc_Query c query w).1 = inr v ↔ answer = inr (Vector [v]) ∨ answer = inr (Scalar v)) ∧
    (answer = inr (Vector []) → (pc_Query c query w).1 = inl (sentinel_error ErrNoData)) ∧
    (∀ e, (pc_Query c query w).1 = inl e → Is e ErrNoData →
       answer = inr (Vector []) ∨ ∃ e', answer = inl e' ∧ Is e' ErrNoData).
Proof.
  intros Hc cfg token. unfold NewClient in Hc. fold cfg in Hc.
  assert ((if decide (bearerToken cfg ≠ EmptyString) then Some (bearerToken cfg) else None) = token) as Htok.
  { subst token. by repeat case_decide. }
  rewrite Htok in Hc. destruct (promapi_NewClient endpoint token) as [e|api] eqn:Hapi; simplify_eq.
  exists api. split; [done|]. simpl. unfold client_Query.
  destruct (promapi_Query api _ query w) as [answer w'].
  destruct answer as [e0|[[|x [|y l]]|x|ty]]; simpl; split_and!; try done;
    try (intros v; split; [by (intros [= <-]; auto)|by intros [[=]|[=]]; subst]);
    intros e [= <-] He.
  - right. by exists e0.
  - by left.
  - by apply elem_of_nil in He.
  - by apply elem_of_nil in He.
Qed.

(** A library that answers every query with the same value. *)
Definition constant_api (answer : error + promValue) : PromAPI () :=
  {| papi := (); promapi_NewClient _ _ := inr tt; promapi_Query _ _ _ w := (answer, w) |}.

Lemma query_single_number_witness :
  let api := constant_api (inr (Vector [float_of_Z 3])) in
  let client := mkPromClient (@client_Query () api tt (5 * Second)) in
  (pc_Query client "up" tt).1 = inr (float_of_Z 3) ∧
  let cfg := config_of [WithTimeout (5 * Second); WithBearerToken "secret"] in
  let token := if decide (bearerToken cfg = EmptyString) then None else Some (bearerToken cfg) in
  ∃ a, @promapi_NewClient () api "http://prom" token = inr a ∧
    let '(answer, w') := @promapi_Query () api a (if decide (timeout cfg > 0) then Some (timeout cfg) else None) "up" tt in
    (pc_Query client "up" tt).2 = w' ∧
    (∀ v, (pc_Query client "up" tt).1 = inr v ↔ answer = inr (Vector [v]) ∨ answer = inr (Scalar v)) ∧
    (answer = inr (Vector []) → (pc_Query client "up" tt).1 = inl (sentinel_error ErrNoData)) ∧
    (∀ e, (pc_Query client "up" tt).1 = inl e → Is e ErrNoData →
       answer = inr (Vector []) ∨ ∃ e', answer = inl e' ∧ Is e' ErrNoData).
Proof.
  split; [by_compute|].
  apply (@query_single_number () (constant_api (inr (Vector [float_of_Z 3]))) "http://prom"
           [WithTimeout (5 * Second); WithBearerToken "secret"]).
  reflexivity.
Defined.
