(* ===== verification/RegistryTheorems.v ===== *)
(** * Theorems about the plugin registry and the RBAC aggregation *)

From S2P Require Import Prelude GoLib GoTime Api ActionTypes Registry.
From Stdlib Require Import Sorting.Sorted.

(** ** Name order *)

Lemma string_less_asym s t : string_less s t = true → string_less t s = false.
Proof.
  unfold string_less. rewrite (String.compare_antisym s t). by destruct (String.compare t s).
Qed.

(** ** The registry *)

Section Registry.
Context {W : Type}.
Implicit Types (a : Action W) (l : list (Action W)) (r : Registry W).

Definition holds r l : Prop := ∀ n a, Lookup r n = Some a ↔ a ∈ l ∧ pl_Name a = n.

Lemma register_all_holds l0 l r :
  holds r l0 → NoDup (pl_Name <$> l0) →
  (NoDup (pl_Name <$> (l0 ++ l)) ∧ ∃ r', register_all r l = Val r' ∧ holds r' (l0 ++ l)) ∨
  (¬ NoDup (pl_Name <$> (l0 ++ l)) ∧ ∃ msg, register_all r l = Panic msg).
Proof.
  revert l0 r. induction l as [|a l IH]; intros l0 r Hh Hnd; simpl.
  - left. rewrite app_nil_r. split; [done|]. by exists r.
  - unfold Register. destruct (r !! pl_Name a) as [b|] eqn:Hr.
    + right. split; [|by eexists]. apply Hh in Hr as [Hb Hn]. rewrite fmap_app. intros Hnd'.
      apply NoDup_app in Hnd' as (_ & Hdis & _). apply (Hdis (pl_Name a)).
      * apply list_elem_of_fmap. by exists b.
      * simpl. left.
    + assert (holds (<[pl_Name a := a]> r) (l0 ++ [a])) as Hh'.
      { intros n b. unfold Lookup. rewrite lookup_insert_Some, elem_of_app, list_elem_of_singleton. split.
        - intros [[<- <-]|[Hne Hb]]; [by auto|]. apply Hh in Hb as [? ?]. auto.
        - intros [[Hb| ->] Hn]; [|by left]. right. split; [|by apply Hh].
          intros Heq. rewrite Heq in Hr. assert (Lookup r n = Some b) as Hb' by by apply Hh.
          unfold Lookup in Hb'. congruence. }
      assert (NoDup (pl_Name <$> (l0 ++ [a]))) as Hnd'.
      { rewrite fmap_app. apply NoDup_app. split_and!; [done| |apply NoDup_singleton].
        intros n (b & -> & Hb)%list_elem_of_fmap Hn. simpl in Hn. apply list_elem_of_singleton in Hn.
        assert (Lookup r (pl_Name a) = Some b) as Hb' by by apply Hh.
        unfold Lookup in Hb'. congruence. }
      destruct (IH _ _ Hh' Hnd') as [H|H]; rewrite <- app_assoc in H; [by left|by right].
Qed.

(** The registry holds what was registered: registering plugins with
    distinct names succeeds, afterwards a name resolves to exactly the plugin
    registered under it, and [All] lists every plugin once, in name order;
    registering a name twice panics. *)
Lemma registry_holds_plugins l :
  (NoDup (pl_Name <$> l) → ∃ r, register_all NewRegistry l = Val r ∧
     (∀ n a, Lookup r n = Some a ↔ a ∈ l ∧ pl_Name a = n) ∧
     All r ≡ₚ l ∧ Sorted (λ a b, string_less (pl_Name b) (pl_Name a) = false) (All r)) ∧
  (¬ NoDup (pl_Name <$> l) → ∃ msg, register_all NewRegistry l = Panic msg).
Proof.
  assert (holds NewRegistry []) as Hempty.
  { intros n a. split; [unfold Lookup, NewRegistry; by rewrite lookup_empty|intros [Ha _]; by apply elem_of_nil in Ha]. }
  destruct (register_all_holds [] l NewRegistry Hempty (NoDup_nil_2)) as [[Hnd (r & Hr & Hh)]|[Hnd Hp]]; [|done].
  split; [|done]. intros _. exists r. split_and!; [done|done| |].
  - unfold All. rewrite sort_Slice_perm. apply NoDup_Permutation.
    + apply (NoDup_fmap_1 pl_Name). assert (pl_Name <$> (map_to_list r).*2 = (map_to_list r).*1) as ->.
      { rewrite <- list_fmap_compose. apply list_fmap_ext. intros i [n a] Hi. simpl.
        apply list_elem_of_lookup_2, elem_of_map_to_list in Hi. by apply Hh in Hi as [_ ?]. }
      apply NoDup_fst_map_to_list.
    + by apply NoDup_fmap_1 in Hnd.
    + intros a. rewrite list_elem_of_fmap. split.
      * intros ([n b] & -> & Hb). apply elem_of_map_to_list in Hb. by apply Hh in Hb as [? _].
      * intros Ha. exists (pl_Name a, a). split; [done|]. apply elem_of_map_to_list. by apply Hh.
  - apply sort_Slice_sorted. intros ??. apply string_less_asym.
Qed.

End Registry.

(** ** RBAC aggregation *)

(** [s] does not contain the byte [c]. *)
Definition free_of (c : Ascii.ascii) (s : string) : Prop := c ∉ String.list_ascii_of_string s.

Definition us : Ascii.ascii := Ascii.ascii_of_nat 31.
Definition bar : Ascii.ascii := Ascii.ascii_of_nat 124.

Lemma list_ascii_app s t :
  String.list_ascii_of_string (s ++s t) = String.list_ascii_of_string s ++ String.list_ascii_of_string t.
Proof. induction s as [|c s IH]; simpl; [done|]. by rewrite IH. Qed.

Lemma free_of_app c s t : free_of c (s ++s t) ↔ free_of c s ∧ free_of c t.
Proof. unfold free_of. rewrite list_ascii_app, elem_of_app. tauto. Qed.

(** A separator that occurs in neither front part splits in one way. *)
Lemma split_at_sep c s s' t t' :
  free_of c s → free_of c s' → s ++s String c t = s' ++s String c t' → s = s' ∧ t = t'.
Proof.
  unfold free_of. revert s'. induction s as [|a s IH]; intros [|a' s'] Hs Hs'; simpl in *.
  - by intros [= ->].
  - intros [= <- _]. exfalso. apply Hs'. left.
  - intros [= -> _]. exfalso. apply Hs. left.
  - intros [= <- Heq]. destruct (IH s') as [-> ->]; [|by intros ?; apply Hs'; right|done|done].
    intros ?. apply Hs. by right.
Qed.

Lemma Join_inj l l' :
  l ≠ [] → l' ≠ [] → Forall (free_of us) l → Forall (free_of us) l' →
  Join l unit_separator = Join l' unit_separator → l = l'.
Proof.
  assert (∀ s, free_of us s → ∀ t u, s = t ++s String us u → False) as Hno.
  { intros s Hs t u ->. apply free_of_app in Hs as [_ Hs]. apply Hs. left. }
  revert l'. induction l as [|x l IH]; intros [|y l'] Hl Hl' Hf Hf' Heq; try done.
  apply Forall_cons in Hf as [Hx Hf]. apply Forall_cons in Hf' as [Hy Hf'].
  destruct l as [|x2 l], l' as [|y2 l']; simpl in Heq.
  - by rewrite Heq.
  - exfalso. by eapply Hno, Heq.
  - exfalso. symmetry in Heq. by eapply Hno, Heq.
  - apply split_at_sep in Heq as [-> Heq]; [|done|done]. f_equal. by apply IH.
Qed.

Lemma free_of_Join c l sep :
  Forall (free_of c) l → free_of c sep → free_of c (Join l sep).
Proof.
  intros Hl Hs. induction Hl as [|x [|y l] Hx Hl IH]; simpl; [apply not_elem_of_nil|done|].
  apply free_of_app. split; [done|]. apply free_of_app. split; [done|exact IH].
Qed.

(** Names a rule may use: non-empty lists of names without the two separators. *)
Definition plain (s : string) : Prop := free_of us s ∧ free_of bar s.
Definition rule_ok (rule : PolicyRule) : Prop :=
  APIGroups rule ≠ [] ∧ Resources rule ≠ [] ∧ Forall plain (APIGroups rule) ∧ Forall plain (Resources rule).

Lemma dedupe_elem seen l s : s ∈ dedupe seen l ↔ s ∈ l ∧ s ∉ seen.
Proof.
  revert seen. induction l as [|x l IH]; intros seen; simpl.
  - rewrite elem_of_nil. tauto.
  - case_decide as Hx.
    + rewrite IH, elem_of_cons. split; [tauto|]. intros [[->|?] ?]; done.
    + rewrite elem_of_cons, IH, elem_of_cons, not_elem_of_union, not_elem_of_singleton. split.
      * intros [->|[? [? ?]]]; tauto.
      * intros [[->|?] ?]; [by left|]. destruct (decide (s = x)); tauto.
Qed.

Lemma dedupeSort_elem l s : s ∈ dedupeSort l ↔ s ∈ l.
Proof. unfold dedupeSort, sort_Strings. rewrite sort_Slice_perm, dedupe_elem. set_solver. Qed.

Lemma dedupeSort_nonempty l : l ≠ [] → dedupeSort l ≠ [].
Proof.
  destruct l as [|x l]; [done|]. intros _ Hnil.
  assert (x ∈ dedupeSort (x :: l)) as Hx by (apply dedupeSort_elem; left). rewrite Hnil in Hx.
  by apply elem_of_nil in Hx.
Qed.

Lemma dedupeSort_Forall (P : string → Prop) l : Forall P l → Forall P (dedupeSort l).
Proof. rewrite !Forall_forall. intros Hl x Hx. by apply Hl, dedupeSort_elem. Qed.

Lemma bucket_key_inj gs gs' rs rs' :
  gs ≠ [] → gs' ≠ [] → rs ≠ [] → rs' ≠ [] →
  Forall plain gs → Forall plain gs' → Forall plain rs → Forall plain rs' →
  bucket_key gs rs = bucket_key gs' rs' → gs = gs' ∧ rs = rs'.
Proof.
  intros ???? Hg Hg' Hr Hr' Heq. unfold bucket_key in Heq.
  assert (∀ l, Forall plain l → Forall (free_of us) l ∧ free_of bar (Join l unit_separator)) as Hp.
  { intros l Hl. split; [eapply Forall_impl; [exact Hl|by intros ? []]|].
    apply free_of_Join; [eapply Forall_impl; [exact Hl|by intros ? []]|].
    unfold free_of. simpl. set_solver. }
  destruct (Hp _ Hg), (Hp _ Hg'), (Hp _ Hr), (Hp _ Hr').
  apply (split_at_sep bar) in Heq as [Hgs Hrs]; [|done..].
  split; by apply Join_inj.
Qed.

(** What a list of rules allows: a verb on a resource of a group. *)
Definition allows (rules : list PolicyRule) (g res v : string) : Prop :=
  ∃ rule, rule ∈ rules ∧ g ∈ APIGroups rule ∧ res ∈ Resources rule ∧ v ∈ Verbs rule.

Definition key_of (rule : PolicyRule) : string :=
  bucket_key (dedupeSort (APIGroups rule)) (dedupeSort (Resources rule)).

(** The buckets after the rules [seen]. *)
Record buckets_ok (seen : list PolicyRule) (acc : gmap string ruleBucket * list string) : Prop := {
  bk_order : NoDup acc.2 ∧ ∀ k, k ∈ acc.2 ↔ acc.1 !! k ≠ None;
  bk_from : ∀ k b, acc.1 !! k = Some b →
     (∃ rule, rule ∈ seen ∧ key_of rule = k ∧
        groups b = dedupeSort (APIGroups rule) ∧ resources b = dedupeSort (Resources rule)) ∧
     ∀ v, v ∈ verbs b ↔ ∃ rule, rule ∈ seen ∧ key_of rule = k ∧ v ∈ Verbs rule;
  bk_all : ∀ rule, rule ∈ seen → acc.1 !! key_of rule ≠ None }.

(** [add_rule] in one form: the bucket of the rule's key, if need be a new one. *)
Definition bucket_for (bs : gmap string ruleBucket) (rule : PolicyRule) : ruleBucket :=
  default (mkBucket (dedupeSort (APIGroups rule)) (dedupeSort (Resources rule)) ∅) (bs !! key_of rule).

Lemma add_rule_eq bs order rule :
  add_rule (bs, order) rule =
  (<[key_of rule := mkBucket (groups (bucket_for bs rule)) (resources (bucket_for bs rule))
                      (verbs (bucket_for bs rule) ∪ list_to_set (Verbs rule))]> bs,
   if decide (bs !! key_of rule = None) then order ++ [key_of rule] else order).
Proof.
  unfold add_rule, bucket_for. fold (key_of rule). by destruct (bs !! key_of rule).
Qed.

Lemma add_rule_order (bs : gmap string ruleBucket) (order : list string) (k : string) :
  NoDup order → (∀ k', k' ∈ order ↔ bs !! k' ≠ None) →
  let order' := if decide (bs !! k = None) then order ++ [k] else order in
  NoDup order' ∧ ∀ b k', k' ∈ order' ↔ <[k := b]> bs !! k' ≠ None.
Proof.
  intros Hnd Hord. split.
  - case_decide; [|done]. apply NoDup_app. split_and!; [done| |apply NoDup_singleton].
    intros x Hx ->%list_elem_of_singleton. by apply Hord in Hx.
  - intros b k'. destruct (decide (k = k')) as [<-|Hk].
    + rewrite lookup_insert_eq. split; [done|intros _].
      case_decide; [apply elem_of_app; right; left|by apply Hord].
    + rewrite lookup_insert_ne by done. rewrite <- Hord. case_decide; [|done].
      rewrite elem_of_app, list_elem_of_singleton. split; [intros [?|?]; congruence|by left].
Qed.

Lemma in_snoc {A} (x y : A) l : x ∈ l ++ [y] ↔ x ∈ l ∨ x = y.
Proof. by rewrite elem_of_app, list_elem_of_singleton. Qed.

Lemma add_rule_ok seen acc rule : buckets_ok seen acc → buckets_ok (seen ++ [rule]) (add_rule acc rule).
Proof.
  destruct acc as [bs order]. rewrite add_rule_eq. intros [[Hnd Hord] Hfrom Hall]. simpl in *.
  assert ((∃ rl, rl ∈ seen ++ [rule] ∧ key_of rl = key_of rule ∧
             groups (bucket_for bs rule) = dedupeSort (APIGroups rl) ∧
             resources (bucket_for bs rule) = dedupeSort (Resources rl)) ∧
          ∀ v, v ∈ verbs (bucket_for bs rule) ↔ ∃ rl, rl ∈ seen ∧ key_of rl = key_of rule ∧ v ∈ Verbs rl)
    as [Hsrc Hverbs].
  { unfold bucket_for. destruct (bs !! key_of rule) as [b|] eqn:Hb; simpl.
    - destruct (Hfrom _ _ Hb) as [(rl & Hin & ?) Hv]. split; [|done]. exists rl. split; [|done].
      apply in_snoc. by left.
    - split; [exists rule; split_and!; try done; apply in_snoc; by right|]. intros v.
      split; [by intros ?%elem_of_empty|]. intros (rl & Hin & Hk & _). exfalso. apply (Hall _ Hin). by rewrite Hk. }
  split; simpl.
  - destruct (add_rule_order bs order (key_of rule) Hnd Hord) as [? Hk]. split; [done|]. intros k. apply Hk.
  - intros k b Hb. apply lookup_insert_Some in Hb as [[<- <-]|[Hk Hb]]; simpl.
    + split; [done|]. intros v. rewrite elem_of_union, Hverbs, elem_of_list_to_set. split.
      * intros [(rl & Hin & ?)|Hv]; [exists rl|exists rule]; (split; [apply in_snoc; auto|done]).
      * intros (rl & [Hin| ->]%in_snoc & Hk & Hv); [left; by exists rl|by right].
    + destruct (Hfrom _ _ Hb) as [(rl & Hin & ?) Hv]. split; [exists rl; split; [apply in_snoc; by left|done]|].
      intros v. rewrite Hv. split.
      * intros (r1 & Hin1 & ?). exists r1. split; [apply in_snoc; by left|done].
      * intros (r1 & [Hin1| ->]%in_snoc & Hk1 & ?); [by exists r1|congruence].
  - intros rl [Hin| ->]%in_snoc; [|by rewrite lookup_insert_eq].
    destruct (decide (key_of rule = key_of rl)) as [->|Hk]; [by rewrite lookup_insert_eq|].
    rewrite lookup_insert_ne by done. by apply Hall.
Qed.

Lemma add_rules_ok rules : buckets_ok rules (foldl add_rule (∅, []) rules).
Proof.
  induction rules as [|rule rules IH] using rev_ind.
  - split; simpl; [split; [constructor|]|done|].
    + intros k. rewrite lookup_empty. split; [by intros ?%elem_of_nil|done].
    + by intros rl ?%elem_of_nil.
  - rewrite foldl_app. by apply add_rule_ok.
Qed.

Lemma elem_of_concat {A} (x : A) ls : x ∈ concat ls ↔ ∃ l, l ∈ ls ∧ x ∈ l.
Proof.
  induction ls as [|l ls IH]; simpl.
  - split; [by intros ?%elem_of_nil|by intros (l & ?%elem_of_nil & _)].
  - rewrite elem_of_app, IH. split.
    + intros [?|(k & ? & ?)]; [exists l; split; [left|done]|exists k; split; [by right|done]].
    + intros (k & [->|?]%elem_of_cons & ?); [by left|right; by exists k].
Qed.

Lemma setToSorted_elem (s : gset string) v : v ∈ setToSorted s ↔ v ∈ s.
Proof. unfold setToSorted, sort_Strings. by rewrite sort_Slice_perm, elem_of_elements. Qed.

Lemma key_of_inj rule rule' :
  rule_ok rule → rule_ok rule' → key_of rule = key_of rule' →
  dedupeSort (APIGroups rule) = dedupeSort (APIGroups rule') ∧
  dedupeSort (Resources rule) = dedupeSort (Resources rule').
Proof.
  intros (Hg & Hr & Hgp & Hrp) (Hg' & Hr' & Hgp' & Hrp').
  apply bucket_key_inj; by auto using dedupeSort_nonempty, dedupeSort_Forall.
Qed.

(** Distinct keys give distinct rules. *)
Lemma NoDup_omap_keys (bs : gmap string ruleBucket) (order : list string) :
  NoDup order →
  (∀ k k' b b', bs !! k = Some b → bs !! k' = Some b' →
     (groups b, resources b) = (groups b', resources b') → k = k') →
  NoDup ((λ rule, (APIGroups rule, Resources rule)) <$> omap (λ k, bucket_rule <$> bs !! k) order).
Proof.
  intros Hnd Hinj. induction Hnd as [|k order Hk Hnd IH]; simpl; [constructor|].
  destruct (bs !! k) as [b|] eqn:Hb; simpl; [|done]. constructor; [|done].
  intros (rule & Heq & Hin)%list_elem_of_fmap. apply list_elem_of_omap in Hin as (k' & Hk' & Hr).
  apply fmap_Some in Hr as (b' & Hb' & ->). simpl in Heq. apply Hk. by rewrite (Hinj k k' b b').
Qed.

(** The aggregated role grants exactly what the plugins ask for: for rules
    with non-empty groups and resources and plain names, a verb on a resource
    of a group is allowed by the aggregated rules if and only if some plugin
    declares it; and the aggregation has one rule per distinct pair of group
    and resource lists. *)
Lemma aggregate_grants_union {W} (plugins : list (Action W)) :
  Forall (λ p, Forall rule_ok (pl_RequiredPermissions p)) plugins →
  (∀ g res v, allows (AggregatePermissions plugins) g res v ↔
              ∃ p, p ∈ plugins ∧ allows (pl_RequiredPermissions p) g res v) ∧
  NoDup ((λ rule, (APIGroups rule, Resources rule)) <$> AggregatePermissions plugins).
Proof.
  intros Hok. set (rules := concat (pl_RequiredPermissions <$> plugins)).
  assert (Forall rule_ok rules) as Hrules.
  { subst rules. clear -Hok. induction Hok; simpl; [constructor|]. by apply Forall_app. }
  assert (∀ rule, rule ∈ rules ↔ ∃ p, p ∈ plugins ∧ rule ∈ pl_RequiredPermissions p) as Hin.
  { intros rule. subst rules. rewrite elem_of_concat. split.
    - intros (l & (p & -> & Hp)%list_elem_of_fmap & Hr). by exists p.
    - intros (p & Hp & Hr). exists (pl_RequiredPermissions p). split; [apply list_elem_of_fmap; by exists p|done]. }
  unfold AggregatePermissions. fold rules.
  destruct (foldl add_rule (∅, []) rules) as [bs order] eqn:Hfold.
  pose proof (add_rules_ok rules) as [[Hnd Hord] Hfrom Hall]. rewrite Hfold in *. simpl in *.
  assert (∀ rule, rule ∈ omap (λ k, bucket_rule <$> bs !! k) order ↔
            ∃ k b, bs !! k = Some b ∧ rule = bucket_rule b) as Hout.
  { intros rule. rewrite list_elem_of_omap. split.
    - intros (k & Hk & Heq). apply fmap_Some in Heq as (b & Hb & ->). by exists k, b.
    - intros (k & b & Hb & ->). exists k. rewrite Hord, Hb. by split. }
  split.
  - intros g res v. unfold allows. setoid_rewrite sort_Slice_perm. setoid_rewrite Hout. split.
    + intros (? & (k & b & Hb & ->) & Hg & Hr & Hv). simpl in *.
      apply setToSorted_elem in Hv. destruct (Hfrom _ _ Hb) as [(rl & Hrl & Hk & Hgs & Hrs) Hvs].
      apply Hvs in Hv as (rl' & Hrl' & Hk' & Hv). rewrite Hgs in Hg. rewrite Hrs in Hr.
      destruct (key_of_inj rl rl') as [Hge Hre]; [by eapply Forall_forall..|congruence|].
      rewrite Hge in Hg. rewrite Hre in Hr. rewrite dedupeSort_elem in Hg, Hr.
      apply Hin in Hrl' as (p & Hp & Hrl'). exists p. split; [done|]. by exists rl'.
    + intros (p & Hp & rl & Hrl & Hg & Hr & Hv).
      assert (rl ∈ rules) as Hrl' by (apply Hin; by exists p).
      destruct (bs !! key_of rl) as [b|] eqn:Hb; [|by destruct (Hall _ Hrl')].
      destruct (Hfrom _ _ Hb) as [(rl0 & Hrl0 & Hk & Hgs & Hrs) Hvs].
      destruct (key_of_inj rl0 rl) as [Hge Hre]; [by eapply Forall_forall..|done|].
      exists (bucket_rule b). split; [by exists (key_of rl), b|]. simpl.
      rewrite Hgs, Hrs, Hge, Hre, !dedupeSort_elem. split_and!; [done|done|].
      apply setToSorted_elem, Hvs. by exists rl.
  - rewrite sort_Slice_perm. apply NoDup_omap_keys; [done|].
    intros k k' b b' Hb Hb' [= Hg Hr].
    destruct (Hfrom _ _ Hb) as [(rl & _ & <- & Hgs & Hrs) _]. destruct (Hfrom _ _ Hb') as [(rl' & _ & <- & Hgs' & Hrs') _].
    unfold key_of. congruence.
Qed.

(** ** A witness: two plugins that share a resource *)

Definition rbac_plugin (name : string) (rules : list PolicyRule) : Action () :=
  mkAction name name (λ _, None)
    (λ _ inp w, ((mkResult name name (in_Target inp) zero_Time EmptyString EmptyString None, None), w))
    (λ _ _ w, (None, w)) false rules.

Definition rbac_plugins : list (Action ()) :=
  [rbac_plugin "k8s-annotate" [mkRule [EmptyString] ["pods"; "services"] ["get"; "patch"]];
   rbac_plugin "mesh-shift" [mkRule ["gateway.networking.k8s.io"] ["httproutes"] ["get"; "update"];
                             mkRule [EmptyString] ["services"; "pods"] ["list"; "get"]]].

Lemma rbac_plugins_ok : Forall (λ p, Forall rule_ok (pl_RequiredPermissions p)) rbac_plugins.
Proof.
  assert (∀ s, forallb (λ c, negb (bool_decide (c = us)) && negb (bool_decide (c = bar)))
                 (String.list_ascii_of_string s) = true → plain s) as Hplain.
  { intros s Hs. rewrite forallb_forall in Hs.
    split; intros Hin%list_elem_of_In; apply Hs in Hin; by vm_compute in Hin. }
  repeat constructor; simpl; try done; apply Hplain; by vm_compute.
Qed.

Lemma aggregate_grants_union_witness :
  AggregatePermissions rbac_plugins =
    [mkRule [EmptyString] ["pods"; "services"] ["get"; "list"; "patch"];
     mkRule ["gateway.networking.k8s.io"] ["httproutes"] ["get"; "update"]] ∧
  (∀ g res v, allows (AggregatePermissions rbac_plugins) g res v ↔
              ∃ p, p ∈ rbac_plugins ∧ allows (pl_RequiredPermissions p) g res v) ∧
  NoDup ((λ rule, (APIGroups rule, Resources rule)) <$> AggregatePermissions rbac_plugins).
Proof. split; [by_compute|]. apply (aggregate_grants_union rbac_plugins rbac_plugins_ok). Defined.
