(* ===== verification/Wiring.v ===== *)
(** * Wiring: cmd/main.go, the set-up of controllers and webhooks, the built-in plugins

    [main] as the sequence of set-up steps it asks of the manager, each of
    which may fail, up to serving or to [os.Exit(1)]; the collaborators
    [SetupWithManager] fills in; the registration of the built-in plugins by
    their packages' [init] and the role the RBAC markers grant. *)

From S2P Require Import Prelude GoLib FloatLib GoTime Api ActionTypes Metrics Effects Logic Evaluator Limiter Registry RegistryTheorems Sink PluginBase MeshShift Annotate NetworkIsolate.

(** ** Flags *)

Record Flags : Type := mkFlags {
  metricsAddr : string;
  probeAddr : string;
  enableLeaderElection : bool;
  secureMetrics : bool;
  enableHTTP2 : bool;
  auditSinkKind : string;
  auditPostgresDSNEnv : string;
  auditPostgresQueueSize : Z }.

Definition default_flags : Flags :=
  mkFlags "0" ":8081" false true false "none" "RP_AUDIT_POSTGRES_DSN" 1024.

(** ** Options *)

(** A [func( *tls.Config)] by its effect on the protocols offered. *)
Definition tlsOpt : Type := list string → list string.
Definition disableHTTP2 : tlsOpt := λ _, ["http/1.1"].

Record MetricsServerOptions : Type := mkMetricsOptions {
  BindAddress : string;
  SecureServing : bool;
  MetricsTLSOpts : list tlsOpt;
  AuthFilter : bool }.

Record ManagerOptions : Type := mkManagerOptions {
  MetricsOptions : MetricsServerOptions;
  WebhookTLSOpts : list tlsOpt;
  HealthProbeBindAddress : string;
  LeaderElection : bool;
  LeaderElectionID : string }.

Definition manager_options (f : Flags) : ManagerOptions :=
  let tlsOpts := if negb (enableHTTP2 f) then [disableHTTP2] else [] in
  mkManagerOptions
    (mkMetricsOptions (metricsAddr f) (secureMetrics f) tlsOpts (secureMetrics f))
    tlsOpts (probeAddr f) (enableLeaderElection f) "b6a17773.reactive-policy.io".

(** The protocols a server offers once the options are applied to those of
    [crypto/tls]. *)
Definition offered (opts : list tlsOpt) (protos : list string) : list string := foldl (λ ps o, o ps) protos opts.

(** ** The reconcilers' collaborators *)

(** What [SetupWithManager] of the policy reconciler may find unset. *)
Record PolicyFields (W : Type) : Type := mkPolicyFields {
  pf_Prometheus : option (Factory W);
  pf_Window : option (gmap string Time);
  pf_Executor : option (Registry W);
  pf_Limiter : option (gmap string limiterEntry);
  pf_AuditSink : option sink_choice }.
Arguments mkPolicyFields {W}.
Arguments pf_Prometheus {W} _.
Arguments pf_Window {W} _.
Arguments pf_Executor {W} _.
Arguments pf_Limiter {W} _.
Arguments pf_AuditSink {W} _.

Record AuditFields (W : Type) : Type := mkAuditFields {
  af_Executor : option (Registry W); af_AuditSink : option sink_choice }.
Arguments mkAuditFields {W}.
Arguments af_Executor {W} _.
Arguments af_AuditSink {W} _.

Section Setup.
Context {W : Type} `{PromAPI W}.
Variable Default : Registry W.

(** [if r.F == nil { r.F = ... }] for every field, existing ones kept. *)
Definition policy_SetupWithManager (r : PolicyFields W) : PolicyFields W :=
  mkPolicyFields
    (match pf_Prometheus r with None => Some NewClient | x => x end)
    (match pf_Window r with None => Some SlidingWindow.NewSlidingWindow | x => x end)
    (match pf_Executor r with None => Some Default | x => x end)
    (match pf_Limiter r with None => Some newAuditLimiter | x => x end)
    (match pf_AuditSink r with None => Some ChooseNoop | x => x end).

Definition audit_SetupWithManager (r : AuditFields W) : AuditFields W :=
  mkAuditFields
    (match af_Executor r with None => Some Default | x => x end)
    (match af_AuditSink r with None => Some ChooseNoop | x => x end).

Definition ApprovalWebhookPath : string := "/mutate-reactive-policy-io-v1alpha1-actionaudit".

(** ** [main] *)

Inductive Setup : Type :=
| SNewManager (o : ManagerOptions)
| SConnect (dsn : string) (queueSize : Z)        (* postgres.New *)
| SShutdownHook (s : sink_choice)                (* mgr.Add *)
| SPolicyController (r : PolicyFields W)
| SAuditController (r : AuditFields W)
| SPolicyWebhook (registry : Registry W)
| SApprovalWebhook (path : string)                (* GetWebhookServer().Register *)
| SHealthz
| SReadyz
| SStart.

(** What a step answers. *)
Variable fails : Setup → option error.
(** Registering a handler under a path has no answer; its set-up returns nil. *)
Definition step_error (s : Setup) : option error :=
  match s with SApprovalWebhook _ => None | _ => fails s end.
Variable getenv : string → string.

(** The steps taken so far; [None] once the process exited. *)
Definition Main (A : Type) : Type := list Setup → option A * list Setup.
#[local] Instance Main_ret : MRet Main := λ A a tr, (Some a, tr).
#[local] Instance Main_bind : MBind Main := λ A B f m tr,
  match m tr with
  | (Some a, tr') => f a tr'
  | (None, tr') => (None, tr')
  end.
Definition exit {A} : Main A := λ tr, (None, tr).
(** [if err := step; err != nil { os.Exit(1) }]. *)
Definition must (s : Setup) : Main () := λ tr,
  match step_error s with None => (Some tt, tr ++ [s]) | Some _ => (None, tr ++ [s]) end.

(** The two webhooks' set-up: controller-runtime's builder for the validator
    of policies, the handler of decisions under its path. *)
Definition SetupReactivePolicyWebhookWithManager (registry : Registry W) : Main () := must (SPolicyWebhook registry).
Definition SetupActionAuditWebhookWithManager : Main () := must (SApprovalWebhook ApprovalWebhookPath).

(** The probes, then serving until the process is told to stop. *)
Definition main_serve : Main () := must SHealthz;;; must SReadyz;;; must SStart.

Definition main (f : Flags) : Main () :=
  must (SNewManager (manager_options f));;;
  auditSink ← match buildAuditSink getenv (auditSinkKind f) (auditPostgresDSNEnv f) (auditPostgresQueueSize f) with
              | inl _ => exit
              | inr (ChoosePostgres dsn size) => must (SConnect dsn size);;; mret (ChoosePostgres dsn size)
              | inr ChooseNoop => mret ChooseNoop
              end;
  must (SShutdownHook auditSink);;;
  must (SPolicyController (policy_SetupWithManager (mkPolicyFields None None None None (Some auditSink))));;;
  must (SAuditController (audit_SetupWithManager (mkAuditFields None (Some auditSink))));;;
  (if decide (getenv "ENABLE_WEBHOOKS" ≠ "false") then
     SetupReactivePolicyWebhookWithManager Default;;; SetupActionAuditWebhookWithManager
   else mret tt);;;
  main_serve.

(** ** Starting *)

(** The steps of a start that goes well, up to the sink's connection. *)
Definition wired (s : sink_choice) (webhooks : bool) : list Setup :=
  [SShutdownHook s;
   SPolicyController (mkPolicyFields (Some NewClient) (Some ∅) (Some Default) (Some ∅) (Some s));
   SAuditController (mkAuditFields (Some Default) (Some s))] ++
  (if webhooks then [SPolicyWebhook Default; SApprovalWebhook ApprovalWebhookPath] else []) ++ [SHealthz; SReadyz; SStart].

Definition connected (s : sink_choice) : list Setup :=
  match s with ChooseNoop => [] | ChoosePostgres dsn size => [SConnect dsn size] end.

Definition webhooks_on : bool := bool_decide (getenv "ENABLE_WEBHOOKS" ≠ "false").

(** Taking steps one after the other: all of them, or up to the first failure. *)
Fixpoint take_steps (l : list Setup) : Main () :=
  match l with [] => mret tt | s :: l => must s;;; take_steps l end.

Lemma take_steps_app l1 l2 tr : take_steps (l1 ++ l2) tr = (take_steps l1;;; take_steps l2) tr.
Proof.
  revert tr. induction l1 as [|s l1 IH]; intros tr; [done|]. simpl. unfold mbind, Main_bind, must in *.
  destruct (step_error s); [done|]. apply IH.
Qed.

Lemma take_steps_cases l tr :
  (Forall (λ s, step_error s = None) l ∧ take_steps l tr = (Some tt, tr ++ l)) ∨
  ∃ l1 s l2, l = l1 ++ s :: l2 ∧ Forall (λ s, step_error s = None) l1 ∧ step_error s ≠ None ∧
    take_steps l tr = (None, tr ++ l1 ++ [s]).
Proof.
  revert tr. induction l as [|s l IH]; intros tr; [left; split; [done|]; by rewrite app_nil_r|]. simpl.
  unfold mbind, Main_bind, must. destruct (step_error s) as [e|] eqn:Hs.
  - right. exists [], s, l. split_and!; [done|constructor|by rewrite Hs|done].
  - destruct (IH (tr ++ [s])) as [[Hall ->]|(l1 & s' & l2 & -> & Hall & Hf & ->)].
    + left. split; [by constructor|]. by rewrite <- app_assoc.
    + right. exists (s :: l1), s', l2. split_and!; [done|by constructor|done|by rewrite <- app_assoc].
Qed.

Lemma main_steps f sink tr :
  buildAuditSink getenv (auditSinkKind f) (auditPostgresDSNEnv f) (auditPostgresQueueSize f) = inr sink →
  main f tr = take_steps ([SNewManager (manager_options f)] ++ connected sink ++ wired sink webhooks_on) tr.
Proof.
  intros Hb. unfold main, main_serve, SetupReactivePolicyWebhookWithManager, SetupActionAuditWebhookWithManager, webhooks_on, connected, wired. rewrite Hb.
  destruct sink as [|dsn size]; destruct (decide (getenv "ENABLE_WEBHOOKS" ≠ "false")) as [Hw|Hw];
    [rewrite bool_decide_true by done|rewrite bool_decide_false by done
    |rewrite bool_decide_true by done|rewrite bool_decide_false by done];
    simpl; unfold mbind, Main_bind, must;
    repeat match goal with |- context [step_error ?s] => destruct (step_error s); [done|] end; done.
Qed.

(** [SStart] is the last step of the plan, and only that. *)
Definition before_start (s : sink_choice) (webhooks : bool) (f : Flags) : list Setup :=
  [SNewManager (manager_options f)] ++ connected s ++ take (length (wired s webhooks) - 1) (wired s webhooks).

Lemma plan_start f s webhooks :
  [SNewManager (manager_options f)] ++ connected s ++ wired s webhooks = before_start s webhooks f ++ [SStart] ∧
  SStart ∉ before_start s webhooks f.
Proof.
  unfold before_start, wired. destruct s as [|dsn size], webhooks; simpl; (split; [done|]);
    rewrite !elem_of_cons, elem_of_nil; intros Hin; by destruct_or? Hin.
Qed.

Lemma cut_at_last {A} (pre l1 l2 : list A) x s :
  pre ++ [x] = l1 ++ s :: l2 → x ∉ pre → x ∈ l1 ++ [s] → l2 = [].
Proof.
  intros Heq Hx Hin. destruct l2 as [|y l2' _] using rev_ind; [done|]. exfalso.
  rewrite app_comm_cons, app_assoc in Heq. apply app_inj_tail in Heq as [-> _]. apply Hx.
  apply elem_of_app in Hin as [Hin|Hin%list_elem_of_singleton]; apply elem_of_app; [by left|right]. subst. left.
Qed.

(** C38. Start: the manager is started only fully wired, namely after both
    controllers were set up with every collaborator and the same audit sink,
    the sink's shutdown was hooked in, both probes were added and, unless
    ENABLE_WEBHOOKS says "false", both webhooks; the process ends with an error
    exactly at the first step that fails, or on an unknown sink, and without
    the flag neither server offers HTTP/2. *)
Theorem starts_fully_wired f o tr :
  main f [] = (o, tr) →
  let built := buildAuditSink getenv (auditSinkKind f) (auditPostgresDSNEnv f) (auditPostgresQueueSize f) in
  (SStart ∈ tr → ∃ sink, built = inr sink ∧
     tr = [SNewManager (manager_options f)] ++ connected sink ++ wired sink webhooks_on) ∧
  (o = Some tt ↔ SStart ∈ tr ∧ Forall (λ s, step_error s = None) tr) ∧
  (o = None ↔ (∃ err, built = inl err ∧ step_error (SNewManager (manager_options f)) = None) ∨
              ∃ tr' s, tr = tr' ++ [s] ∧ Forall (λ s, step_error s = None) tr' ∧ step_error s ≠ None) ∧
  (enableHTTP2 f = false → ∀ protos, offered (WebhookTLSOpts (manager_options f)) protos = ["http/1.1"] ∧
     offered (MetricsTLSOpts (MetricsOptions (manager_options f))) protos = ["http/1.1"]).
Proof.
  intros Hm built.
  assert (enableHTTP2 f = false → ∀ protos, offered (WebhookTLSOpts (manager_options f)) protos = ["http/1.1"] ∧
     offered (MetricsTLSOpts (MetricsOptions (manager_options f))) protos = ["http/1.1"]) as Htls.
  { intros Hh protos. unfold manager_options. by rewrite Hh. }
  assert (∀ tr' s, Forall (λ s, step_error s = None) (tr' ++ [s]) → step_error s ≠ None → False) as Hlast.
  { intros tr' s Hq Hn. apply Forall_app in Hq as [_ Hq]. apply Forall_cons in Hq as [Hq _]. exact (Hn Hq). }
  destruct built as [err|sink] eqn:Hb; subst built.
  - unfold main in Hm. rewrite Hb in Hm. simpl in Hm. unfold mbind, Main_bind, must, exit in Hm.
    assert (tr = [SNewManager (manager_options f)] ∧ o = None) as [-> ->] by (destruct (step_error _); by simplify_eq).
    assert (SStart ∉ [SNewManager (manager_options f)]) as Hno by (intros Hin%list_elem_of_singleton; done).
    split_and!; [done|by split; [|intros [? _]]| |done]. split; [|done]. intros _.
    destruct (step_error (SNewManager _)) eqn:Hf; [right|left; by exists err].
    exists [], (SNewManager (manager_options f)). split_and!; [done|constructor|by rewrite Hf].
  - rewrite (main_steps f sink) in Hm by done. destruct (plan_start f sink webhooks_on) as [Hplan Hpre].
    destruct (take_steps_cases ([SNewManager (manager_options f)] ++ connected sink ++ wired sink webhooks_on) [])
      as [[Hall Hrun]|(l1 & s & l2 & Heq & Hall & Hf & Hrun)]; rewrite Hrun in Hm; clear Hrun; apply pair_eq in Hm as [<- <-]; rewrite app_nil_l.
    + split_and!; [by eexists|split; [|done]; intros _; split; [|done]| |done].
      * rewrite Hplan. apply elem_of_app. right. left.
      * split; [done|]. intros [(err & ? & _)|(tr' & s & Htr & _ & Hs)]; [done|]. rewrite Htr in Hall. by destruct (Hlast _ _ Hall).
    + split_and!; [|split; [done|intros [_ Hs]; by destruct (Hlast _ _ Hs)]| |done].
      * intros Hin. exists sink. split; [done|]. rewrite Heq. rewrite Hplan in Heq.
        by rewrite (cut_at_last _ _ _ _ _ Heq Hpre Hin).
      * split; [intros _; right; by eexists _, _|done].
Qed.

End Setup.

(** Witness: a default start, every step answering well. *)
Definition no_prometheus : PromAPI () := {|
  papi := (); promapi_NewClient _ _ := inr tt; promapi_Query _ _ _ w := (inl (errorf "unreachable"), w) |}.

Definition a_start : option () * list (@Setup ()) :=
  @main () no_prometheus NewRegistry (λ _, None) (λ _, EmptyString) default_flags [].

Lemma starts_fully_wired_witness :
  (SStart ∈ a_start.2 ∧ Forall (λ s, step_error (λ _, None) s = None) a_start.2) ∧
  SPolicyWebhook NewRegistry ∈ a_start.2 ∧ SApprovalWebhook ApprovalWebhookPath ∈ a_start.2.
Proof.
  split.
  - destruct (@starts_fully_wired () no_prometheus NewRegistry (λ _, None) (λ _, EmptyString) default_flags
      a_start.1 a_start.2 eq_refl) as (_ & [Hs _] & _). exact (Hs eq_refl).
  - split; cbn; repeat (left || right).
Defined.

(** ** The built-in plugins and the operator's role *)

#[export] Instance PolicyRule_eq_dec : EqDecision PolicyRule.
Proof. solve_decision. Defined.

(** The [+kubebuilder:rbac] markers of cmd/main.go, in order. *)
Definition plugin_markers : list PolicyRule :=
  [mkRule [EmptyString] ["secrets"] ["get"];
   mkRule ["*"] ["*"] ["get"; "list"; "patch"; "update"];
   mkRule ["argoproj.io"] ["applications"] ["get"; "patch"; "update"];
   mkRule ["networking.k8s.io"] ["networkpolicies"] ["get"; "list"; "create"; "update"; "patch"; "delete"];
   mkRule ["gateway.networking.k8s.io"] ["httproutes"] ["get"; "list"; "update"; "patch"]].

(** RBAC: a rule grants a verb on a resource by name or by "*". *)
Definition grants (rules : list PolicyRule) (g res v : string) : Prop :=
  ∃ rule, rule ∈ rules ∧ (g ∈ APIGroups rule ∨ "*" ∈ APIGroups rule) ∧
    (res ∈ Resources rule ∨ "*" ∈ Resources rule) ∧ (v ∈ Verbs rule ∨ "*" ∈ Verbs rule).

(** One rule's verbs are granted, on what it names, by one of [rules]. *)
Definition covered_by (rules : list PolicyRule) (rule : PolicyRule) : bool :=
  forallb (λ v, existsb (λ r,
    bool_decide ((APIGroups rule ⊆ APIGroups r ∨ "*" ∈ APIGroups r) ∧
                 (Resources rule ⊆ Resources r ∨ "*" ∈ Resources r) ∧ v ∈ Verbs r)) rules) (Verbs rule).

Lemma covered_by_sound rules rule g res v :
  covered_by rules rule = true → g ∈ APIGroups rule → res ∈ Resources rule → v ∈ Verbs rule → grants rules g res v.
Proof.
  unfold covered_by. rewrite forallb_forall. intros Hc Hg Hr Hv.
  specialize (Hc v (proj1 (list_elem_of_In _ _) Hv)). apply existsb_exists in Hc as (r & Hin & Hr').
  apply bool_decide_eq_true in Hr' as (Hgs & Hrs & Hvs). exists r.
  split_and!; [by apply list_elem_of_In|destruct Hgs; auto|destruct Hrs; auto|by left].
Qed.

Section Builtins.
Context {W : Type} `{Clock W} `{ObjectClient W} `{PolicyClient W} `{SlackEnv W} `{ParamsJSON} `{TextTemplate}.
Context `{UnmarshalInto annotate_params} `{UnmarshalInto argocd_params} `{UnmarshalInto mesh_params}
  `{UnmarshalInto isolate_params} `{UnmarshalInto slack_params}.
Variable json_Changes : any → error + list backendChange.

(** The packages main.go imports for their [init], in order. *)
Definition builtins : list (Action W) :=
  [argocd_suspend; k8s_annotate; mesh_shift json_Changes; network_isolate; notify_slack].

(** The default registry once the [init]s ran. *)
Definition Default_registry : outcome (Registry W) := register_all NewRegistry builtins.

Definition default_registry : Registry W := match Default_registry with Val r => r | Panic _ => NewRegistry end.

(** C37. The built-in plugins: their registration does not panic and each is
    found under its name; every permission the aggregation of their
    declarations grants is granted by the markers the operator's role is
    generated from, and the markers grant nothing else but "list" on
    everything. *)
Theorem builtins_fit_role :
  Default_registry = Val default_registry ∧
  (∀ p, p ∈ builtins → Lookup default_registry (pl_Name p) = Some p) ∧
  (∀ g res v, allows (AggregatePermissions (All default_registry)) g res v → grants plugin_markers g res v) ∧
  (∀ g res v, allows plugin_markers g res v →
     grants (AggregatePermissions (All default_registry)) g res v ∨ g = "*" ∧ res = "*" ∧ v = "list").
Proof.
  assert (Default_registry = Val default_registry) as Hreg by reflexivity.
  split_and!; [done|..].
  - intros p Hp. unfold builtins in Hp. rewrite !elem_of_cons, elem_of_nil in Hp. by destruct_or? Hp; subst.
  - intros g res v (rule & Hin & Hg & Hr & Hv). apply (covered_by_sound _ rule); [|done..].
    assert (forallb (covered_by plugin_markers) (AggregatePermissions (All default_registry)) = true) as Hall by by_compute.
    rewrite forallb_forall in Hall. by apply Hall, list_elem_of_In.
  - intros g res v (rule & Hin & Hg & Hr & Hv).
    destruct (decide (rule = mkRule ["*"] ["*"] ["get"; "list"; "patch"; "update"])) as [->|Hne].
    + simpl in Hg, Hr. apply list_elem_of_singleton in Hg, Hr. subst.
      destruct (decide (v = "list")) as [->|Hl]; [by right|left].
      apply (covered_by_sound _ (mkRule ["*"] ["*"] ["get"; "patch"; "update"])); [by_compute|by left..|].
      simpl in Hv |- *. set_solver.
    + left. apply (covered_by_sound _ rule); [|done..].
      assert (forallb (λ rule, bool_decide (rule = mkRule ["*"] ["*"] ["get"; "list"; "patch"; "update"]) ||
        covered_by (AggregatePermissions (All default_registry)) rule) plugin_markers = true) as Hall by by_compute.
      rewrite forallb_forall in Hall. specialize (Hall rule (proj1 (list_elem_of_In _ _) Hin)).
      apply orb_true_iff in Hall as [Hall%bool_decide_eq_true|Hall]; done.
Qed.

End Builtins.
