(* ===== verification/ExecutorTheorems.v ===== *)
(** * Theorems about the action pipeline

    What [RunRange] runs and returns for every onFailure policy, what a
    rollback reverses, and how the approval gate cuts a pipeline in two. *)

From S2P Require Import Prelude GoLib FloatLib GoTime Api ActionTypes Metrics Effects Logic Registry Executor AuditWriter PolicyController Fake.

Section Theorems.
Context {W : Type} `{Cluster W} `{LocalZone}.
Variable exec : Registry W.
Hypothesis Hexec : registry_ok exec.

(** C12. The pipeline runs an ordered prefix of its slice: [RunRange] always
    returns; the actions that ran are the first ones of the slice in order,
    each called once with its own parameters on the given target (an
    unregistered one yields a failed result and no call); all but the last let
    the pipeline go on (success, or failure with "continue"), and when the rest
    did not run the last one failed with another policy; there is one result
    per action that ran, carrying the target and a status; and an error is
    returned exactly when an action stopped the pipeline. *)
Theorem pipeline_runs_prefix ctx policy target mv from to (st : St W) :
  wp (RunRange exec ctx policy target mv from to) st (λ o l st',
    ∃ clock outs rs err, o = Val (rs, err) ∧
      ran (slice policy from to) outs ∧
      executed l = exec_calls exec policy target mv clock (templateData policy target mv clock)
                     (take (length outs) (slice policy from to)) ∧
      Forall2 same_but_details outs.*1 rs ∧
      Forall (λ r, ResTarget r = target ∧ Status r ≠ EmptyString) rs ∧
      (err = None ↔ stopped (slice policy from to) outs = false)).
Proof using Hexec.
  eapply wp_mono; [by apply RunRange_spec|].
  intros ? l st' (clock & outs & rs & err & -> & Hran & Hsame & _ & Hall & Herr & Hex & _).
  exists clock, outs, rs, err. split_and!; try done. simpl in Hsame.
  clear -Hsame Hall. revert Hall. induction Hsame as [|r r' l l' Hr _ IH]; intros Hall; [constructor|].
  apply Forall_cons in Hall as [[Ht Hs] Hall]. apply same_but_details_target in Hr as [Hr1 Hr2].
  constructor; [|by apply IH]. by rewrite <- Hr1, <- Hr2.
Qed.

(** C13. Rollback: Reverse is called only when the action that failed asked for a
    rollback, and then for every earlier (and its own) result with status
    Succeeded and a registered plugin, last first, exactly once each; without a
    rollback the results are returned untouched, with one only their Details
    differ. *)
Theorem pipeline_rollback ctx policy target mv from to (st : St W) :
  wp (RunRange exec ctx policy target mv from to) st (λ o l st',
    ∃ outs rs err, o = Val (rs, err) ∧ ran (slice policy from to) outs ∧
      reversed l = (if rolls_back (slice policy from to) outs then reverse_calls exec (reverse outs.*1) else []) ∧
      (rolls_back (slice policy from to) outs = false → rs = outs.*1) ∧
      Forall2 same_but_details outs.*1 rs).
Proof using Hexec.
  eapply wp_mono; [by apply RunRange_spec|].
  intros ? l st' (clock & outs & rs & err & -> & Hran & Hsame & Heq & _ & _ & _ & Hrv).
  exists outs, rs, err. by split_and!.
Qed.

End Theorems.

(** The gate cuts the pipeline in two: [GateIndex] is the position of the
    first action that requires approval, or -1 when there is none; the slice
    run at trigger time and the slice released later are, in order, the whole
    pipeline, and nothing in the first one requires approval. *)
Lemma gate_splits_pipeline policy :
  let acts := Actions (p_Spec policy) in
  let n := Z.of_nat (length acts) in
  let k := GateIndex policy in
  (k = -1 ∧ ungated acts) ∨
  (0 <= k < n ∧ slice policy 0 k ++ slice policy k n = acts ∧ ungated (slice policy 0 k) ∧
   ∃ a rest, slice policy k n = a :: rest ∧ RequiresApproval a = true).
Proof.
  intros acts n k. subst k. unfold GateIndex.
  destruct (gate_index_from_spec 0 acts ltac:(done)) as [Hnone|(k & a & Hk & Hg & Ha & Hun)]; [by left|].
  right. subst acts. rewrite Hg. simpl. split_and!.
  - lia.
  - subst n. apply lookup_lt_Some in Hk. lia.
  - apply slice_split. lia.
  - unfold slice. rewrite drop_0. by replace (_ - _)%nat with k by lia.
  - unfold slice. subst n. rewrite Z.add_0_l, !Nat2Z.id. rewrite (drop_S _ _ _ Hk).
    pose proof (lookup_lt_Some _ _ _ Hk). destruct (_ - k)%nat eqn:E; [lia|]. by eexists _, _.
Qed.

(** ** Witnesses *)

Definition rollback_policy : ReactivePolicy :=
  a_policy [act "annotate" EmptyString false; act "broken" FailureContinue false; act "missing" FailureRollback false;
            act "notify" EmptyString false] Minute fresh_status.
Definition web_0 : Target := mkTarget "v1" "Pod" "web-0" "prod".
Definition rollback_run :=
  RunRange fake_registry Background rollback_policy web_0 "0.93" 0 4 (start (a_world [] [])).

Lemma pipeline_runs_prefix_witness :
  (executed (log rollback_run.2)).*1 = ["annotate"; "broken"] ∧
  match rollback_run.1 with
  | Val (rs, err) => (Status <$> rs) = [StatusSucceeded; StatusFailed; StatusFailed] ∧ err ≠ None
  | Panic _ => False
  end ∧
  wp (RunRange fake_registry Background rollback_policy web_0 "0.93" 0 4) (start (a_world [] [])) (λ o l st',
    ∃ clock outs rs err, o = Val (rs, err) ∧
      ran (slice rollback_policy 0 4) outs ∧
      executed l = exec_calls fake_registry rollback_policy web_0 "0.93" clock
                     (templateData rollback_policy web_0 "0.93" clock) (take (length outs) (slice rollback_policy 0 4)) ∧
      Forall2 same_but_details outs.*1 rs ∧
      Forall (λ r, ResTarget r = web_0 ∧ Status r ≠ EmptyString) rs ∧
      (err = None ↔ stopped (slice rollback_policy 0 4) outs = false)).
Proof.
  split; [by_compute|]. split; [by vm_compute|]. apply (pipeline_runs_prefix _ fake_registry_ok).
Defined.

Lemma pipeline_rollback_witness :
  (reversed (log rollback_run.2)).*1 = ["annotate"] ∧
  (fo_Annotation <$> w_objects (world rollback_run.2)) = [EmptyString; EmptyString] ∧
  wp (RunRange fake_registry Background rollback_policy web_0 "0.93" 0 4) (start (a_world [] [])) (λ o l st',
    ∃ outs rs err, o = Val (rs, err) ∧ ran (slice rollback_policy 0 4) outs ∧
      reversed l = (if rolls_back (slice rollback_policy 0 4) outs
                    then reverse_calls fake_registry (reverse outs.*1) else []) ∧
      (rolls_back (slice rollback_policy 0 4) outs = false → rs = outs.*1) ∧
      Forall2 same_but_details outs.*1 rs).
Proof. split_and!; [by_compute..|]. apply (pipeline_rollback _ fake_registry_ok). Defined.
