(* ===== verification/ExecutorStore.v ===== *)
(** * Rollback in place: internal/action/executor.go over a store

    [Executor] passes results by value.  In the code a result's [Details] is a
    map, hence a reference, and [rollback] writes through [&results[i]].  Here
    the maps lie in a store, [annotate] allocates or writes a cell, and the
    loops index the slice.  The theorem says that this is [Executor]'s
    pipeline, because each [Execute] returns a map of its own; the example at
    the end shows what happens when a plugin returns one map twice. *)

From S2P Require Import Prelude GoLib GoTime Api ActionTypes Metrics Effects Logic Registry Executor GoHeap.

(** ** Results in memory *)

Abbreviation Store := (gmap loc (gmap string any)).

(** [Result] with the reference in place of the map. *)
Record MemResult : Type := mkMemResult {
  m_ActionID : string;
  m_PluginName : string;
  m_Target : Target;
  m_Timestamp : Time;
  m_Status : ResultStatus;
  m_Message : string;
  m_Details : option loc }.

Definition put_Details (r : MemResult) (l : option loc) : MemResult :=
  mkMemResult (m_ActionID r) (m_PluginName r) (m_Target r) (m_Timestamp r) (m_Status r) (m_Message r) l.

(** What a reader of the result sees. *)
Definition deref (σ : Store) (r : MemResult) : Result :=
  mkResult (m_ActionID r) (m_PluginName r) (m_Target r) (m_Timestamp r) (m_Status r) (m_Message r)
    (m_Details r ≫= (σ !!.)).

(** The result a call returned, as it lies in memory: a non-nil map is the
    plugin's own. *)
Definition place (σ : Store) (r : Result) : MemResult * Store :=
  let at_ := mkMemResult (ActionID r) (PluginName r) (ResTarget r) (Timestamp r) (Status r) (Message r) in
  match Details r with
  | None => (at_ None, σ)
  | Some d => let l := fresh_loc σ in (at_ (Some l), <[l := d]> σ)
  end.

(** [annotate(&results[i], key, value)]. *)
Definition annotate_at (i : nat) (key : string) (value : any) (s : list MemResult * Store) : list MemResult * Store :=
  let '(results, σ) := s in
  match results !! i with
  | None => s
  | Some res =>
      let '(res, σ) := match m_Details res with
                       | None => let l := fresh_loc σ in (put_Details res (Some l), <[l := ∅]> σ)
                       | Some _ => (res, σ)
                       end in
      match m_Details res with
      | Some l => (<[i := res]> results, <[l := <[key := value]> (default ∅ (σ !! l))]> σ)
      | None => (results, σ)
      end
  end.

Section InPlace.
Context {W : Type} `{Cluster W} `{LocalZone}.
Variable exec : Registry W.

(** The body of the loop of [rollback], at index [i]. *)
Definition rollback_at (ctx : Context) (i : nat) (s : list MemResult * Store) : M W (list MemResult * Store) :=
  match s.1 !! i with
  | None => panic "runtime error: index out of range"
  | Some r =>
      if decide (m_Status r ≠ StatusSucceeded) then mret s else
      match Lookup exec (m_PluginName r) with
      | None => mret s
      | Some plugin =>
          err ← CallReverse plugin ctx (deref s.2 r);
          match err with
          | Some e => mret (annotate_at i "rollbackError" (AString (err_msg e)) s)
          | None => mret (annotate_at i "reversed" (ABool true) s)
          end
      end
  end.

(** [for i := len(results) - 1; i >= 0; i--]. *)
Fixpoint rollback_from (ctx : Context) (n : nat) (s : list MemResult * Store) : M W (list MemResult * Store) :=
  match n with
  | O => mret s
  | S i => s ← rollback_at ctx i s; rollback_from ctx i s
  end.
Definition rollback_in_place (ctx : Context) (s : list MemResult * Store) : M W (list MemResult * Store) :=
  rollback_from ctx (length s.1) s.

(** [RunRange] with its results in memory. *)
Fixpoint run_loop_in_place (ctx : Context) (policy : ReactivePolicy) (target : Target) (metricValue : string)
    (ts : Time) (tmpl : gmap string any) (fuel : nat) (i : Z) (s : list MemResult * Store)
  : M W ((list MemResult * Store) * option error) :=
  match fuel with
  | O => mret (s, None)
  | S fuel' =>
      match Actions (p_Spec policy) !! Z.to_nat i with
      | None => panic "runtime error: index out of range"
      | Some act =>
          '(res, execErr) ← runOne exec ctx act target policy metricValue ts tmpl;
          let '(r, σ) := place s.2 res in
          let s := (s.1 ++ [r], σ) in
          match execErr with
          | None => run_loop_in_place ctx policy target metricValue ts tmpl fuel' (i + 1) s
          | Some e =>
              let onFailure := failure_policy act in
              let what := "action " ++s fmt_d i ++s " (" ++s Plugin act ++s ") failed, " in
              if decide (onFailure = FailureContinue) then
                run_loop_in_place ctx policy target metricValue ts tmpl fuel' (i + 1) s
              else if decide (onFailure = FailureRollback) then
                s ← rollback_in_place ctx s;
                mret (s, Some (wrapf (what ++s "rolled back preceding actions: ") e))
              else mret (s, Some (wrapf (what ++s "pipeline stopped: ") e))
          end
      end
  end.

Definition RunRange_in_place (ctx : Context) (policy : ReactivePolicy) (target : Target) (metricValue : string)
    (from to : Z) (σ : Store) : M W ((list MemResult * Store) * option error) :=
  let n := Z.of_nat (length (Actions (p_Spec policy))) in
  let from := if decide (from < 0) then 0 else from in
  let to := if decide (to > n) then n else to in
  if decide (from >= to) then mret (([], σ), None) else
  ts ← Now;
  let tmpl := templateData policy target metricValue ts in
  run_loop_in_place ctx policy target metricValue ts tmpl (Z.to_nat (to - from)) from ([], σ).
End InPlace.

(** ** Two runs that do the same *)

(** From the same state, the same calls, the same end state, related outcomes. *)
Definition sim {W A B : Type} (R : A → B → Prop) (m : M W A) (m' : M W B) : Prop :=
  ∀ st, (m st).2 = (m' st).2 ∧
    match (m st).1, (m' st).1 with
    | Val a, Val b => R a b
    | Panic x, Panic y => x = y
    | _, _ => False
    end.

Section Sim.
Context {W : Type}.

Lemma sim_ret {A B} (R : A → B → Prop) a b : R a b → sim (W := W) R (mret a) (mret b).
Proof. by intros ? st. Qed.

Lemma sim_panic {A B} (R : A → B → Prop) msg : sim (W := W) R (panic msg) (panic msg).
Proof. by intros st. Qed.

Lemma sim_bind {A B A' B'} (R : A → B → Prop) (R' : A' → B' → Prop) (m : M W A) (m' : M W B) f f' :
  sim R m m' → (∀ a b, R a b → sim R' (f a) (f' b)) → sim R' (m ≫= f) (m' ≫= f').
Proof.
  intros Hm Hf st. specialize (Hm st) as [Hst Ho]. unfold mbind, M_bind.
  destruct (m st) as [[a|x] st1], (m' st) as [[b|y] st2]; simpl in *; subst; try done. by apply Hf.
Qed.

Lemma sim_same {A A' B'} (R' : A' → B' → Prop) (m : M W A) f f' :
  (∀ a, sim R' (f a) (f' a)) → sim R' (m ≫= f) (m ≫= f').
Proof.
  intros Hf. apply (sim_bind (=)); [|by intros a ? <-]. intros st. split; [done|]. by destruct (m st).1.
Qed.
End Sim.

(** ** No two results share a map *)

Definition apart (s : list MemResult * Store) : Prop :=
  (∀ i r l, s.1 !! i = Some r → m_Details r = Some l → is_Some (s.2 !! l)) ∧
  (∀ i j ri rj l, s.1 !! i = Some ri → s.1 !! j = Some rj →
     m_Details ri = Some l → m_Details rj = Some l → i = j).

(** The results a state stands for. *)
Definition results_of (s : list MemResult * Store) : list Result := deref s.2 <$> s.1.

Lemma deref_frame σ σ' r : (∀ l, m_Details r = Some l → σ' !! l = σ !! l) → deref σ' r = deref σ r.
Proof. intros Hl. unfold deref. destruct (m_Details r) as [l|]; [|done]. simpl. by rewrite Hl. Qed.

(** Writing the map of result [i], which is its own, changes result [i] only. *)
Lemma write_own results σ i r l d :
  apart (results, σ) → results !! i = Some r → (m_Details r = Some l ∨ m_Details r = None ∧ σ !! l = None) →
  let s := (<[i := put_Details r (Some l)]> results, <[l := d]> σ) in
  apart s ∧ results_of s = <[i := set_Details (deref σ r) (Some d)]> (results_of (results, σ)).
Proof.
  intros [Hal Hinj] Hr Hl s. simpl in *.
  assert (Hother : ∀ j rj, results !! j = Some rj → j ≠ i → m_Details rj ≠ Some l).
  { intros j rj Hj Hne Heq. destruct Hl as [Hl|[_ Hl]]; [by apply Hne, (Hinj _ _ _ _ l Hj Hr)|].
    destruct (Hal _ _ _ Hj Heq) as [x Hx]. congruence. }
  pose proof (lookup_lt_Some _ _ _ Hr) as Hlt. split; [split|]; simpl.
  - intros j rj l' Hj Hd. apply list_lookup_insert_Some in Hj as [(-> & <- & _)|[Hne Hj]]; simpl in Hd.
    + injection Hd as ->. rewrite lookup_insert_eq. eauto.
    + destruct (decide (l = l')) as [->|Hll]; [rewrite lookup_insert_eq; eauto|].
      rewrite lookup_insert_ne by done. by eapply Hal.
  - intros j k rj rk l' Hj Hk Hdj Hdk.
    apply list_lookup_insert_Some in Hj as [(-> & <- & _)|[Hnj Hj]];
      apply list_lookup_insert_Some in Hk as [(<- & <- & _)|[Hnk Hk]]; simpl in *; simplify_eq; try done.
    + by destruct (Hother _ _ Hk).
    + by destruct (Hother _ _ Hj).
    + by eapply Hinj.
  - unfold results_of. simpl. apply list_eq. intros j. rewrite list_lookup_fmap.
    destruct (decide (j = i)) as [->|Hne].
    + rewrite !list_lookup_insert_eq by (by rewrite ?length_fmap). simpl. f_equal.
      unfold deref, put_Details, set_Details. simpl. by rewrite lookup_insert_eq.
    + rewrite !list_lookup_insert_ne, list_lookup_fmap by done. destruct (results !! j) as [rj|] eqn:Hj; [|done].
      simpl. f_equal. apply deref_frame. intros l' Hd. apply lookup_insert_ne. intros <-.
      by destruct (Hother _ _ Hj).
Qed.

Lemma annotate_at_spec i key value s r :
  apart s → s.1 !! i = Some r →
  apart (annotate_at i key value s) ∧
  results_of (annotate_at i key value s) = <[i := annotate (deref s.2 r) key value]> (results_of s).
Proof.
  destruct s as [results σ]. intros Hap Hr. simpl in *. unfold annotate_at, annotate. rewrite Hr.
  destruct (m_Details r) as [l|] eqn:Hd.
  - destruct Hap as [Hal Hinj] eqn:Hap'. destruct (Hal _ _ _ Hr Hd) as [d Hl]. rewrite Hd. simpl in *. rewrite Hl. simpl.
    destruct (write_own results σ i r l (<[key:=value]> d)) as [H1 H2]; [done|done|by left|].
    replace (put_Details r (Some l)) with r in * by (destruct r; simpl in *; by subst).
    split; [done|]. rewrite H2. f_equal. unfold deref at 2. rewrite Hd. simpl. by rewrite Hl.
  - simpl. rewrite lookup_insert_eq. simpl. rewrite insert_insert_eq.
    destruct (write_own results σ i r (fresh_loc σ) (<[key:=value]> ∅)) as [H1 H2];
      [done|done|right; split; [done|apply fresh_loc_fresh]|].
    split; [done|]. rewrite H2. f_equal. unfold deref at 2. by rewrite Hd.
Qed.

Lemma place_spec results σ r r' σ' :
  apart (results, σ) → place σ r = (r', σ') →
  apart (results ++ [r'], σ') ∧ results_of (results ++ [r'], σ') = results_of (results, σ) ++ [r].
Proof.
  intros [Hal Hinj] Hp. unfold place in Hp. simpl in *.
  assert (Hd : m_Details r' = None ∧ σ' = σ ∧ Details r = None ∨
               ∃ d, m_Details r' = Some (fresh_loc σ) ∧ σ' = <[fresh_loc σ := d]> σ ∧ Details r = Some d).
  { destruct (Details r) as [d|]; injection Hp as <- <-; [right; by exists d|by left]. }
  assert (Hall : ∀ i rj l, results !! i = Some rj → m_Details rj = Some l → σ' !! l = σ !! l ∧ m_Details r' ≠ Some l).
  { intros i rj l Hi Hl. destruct (Hal _ _ _ Hi Hl) as [x Hx].
    assert (l ≠ fresh_loc σ) by (intros ->; by rewrite fresh_loc_fresh in Hx).
    destruct Hd as [(-> & -> & _)|(d & -> & -> & _)]; [done|]. rewrite lookup_insert_ne by done. split; congruence. }
  split; [split|]; simpl.
  - intros i rj l Hi Hl. apply lookup_snoc_Some in Hi as [[_ Hi]|[_ <-]].
    + rewrite (proj1 (Hall _ _ _ Hi Hl)). by eapply Hal.
    + destruct Hd as [(Hn & _)|(d & Hs & -> & _)]; [congruence|].
      replace l with (fresh_loc σ) by congruence. rewrite lookup_insert_eq. eauto.
  - intros i j ri rj l Hi Hj Hli Hlj.
    apply lookup_snoc_Some in Hi as [[_ Hi]|[-> <-]]; apply lookup_snoc_Some in Hj as [[_ Hj]|[-> <-]]; [by eapply Hinj| | |done].
    + by destruct (proj2 (Hall _ _ _ Hi Hli)).
    + by destruct (proj2 (Hall _ _ _ Hj Hlj)).
  - unfold results_of. simpl. rewrite fmap_app. f_equal.
    + apply list_fmap_ext. intros i rj Hi. apply deref_frame. intros l Hl. by eapply Hall.
    + simpl. f_equal. destruct Hd as [(Hn & _ & Hr)|(d & Hs & -> & Hr)]; unfold deref; rewrite ?Hn, ?Hs; simpl;
        rewrite ?lookup_insert_eq, <- Hr; destruct r as [????? ? [?|]]; simpl in *; try done; by injection Hp as <- _.
Qed.

Section Refinement.
Context {W : Type} `{Cluster W} `{LocalZone}.
Variable exec : Registry W.

(** The value-passing results a state stands for, with the state well formed. *)
Definition stands_for (s : list MemResult * Store) (rs : list Result) : Prop := apart s ∧ results_of s = rs.

Lemma rollback_at_sim ctx i s rs r : stands_for s rs → rs !! i = Some r →
  sim (λ s' r', stands_for s' (<[i := r']> rs)) (rollback_at exec ctx i s) (rollback_one exec ctx r).
Proof.
  intros [Hap <-] Hr. unfold results_of in Hr. apply list_lookup_fmap_Some in Hr as (mr & -> & Hmr).
  unfold rollback_at, rollback_one. rewrite Hmr. simpl.
  assert (Hid : stands_for s (<[i := deref s.2 mr]> (results_of s))).
  { split; [done|]. symmetry. apply list_insert_id. unfold results_of. by rewrite list_lookup_fmap, Hmr. }
  case_decide; [by apply sim_ret|]. destruct (Lookup exec (m_PluginName mr)); [|by apply sim_ret].
  apply sim_same. intros [e|]; apply sim_ret; by apply annotate_at_spec.
Qed.

Lemma rollback_from_sim ctx n s rs : (n <= length rs)%nat → stands_for s rs →
  sim stands_for (rollback_from exec ctx n s)
    (rs' ← rollback_rev exec ctx (reverse (take n rs)); mret (reverse rs' ++ drop n rs)).
Proof.
  revert s rs. induction n as [|n IH]; intros s rs Hn Hs; simpl.
  - by apply sim_ret.
  - destruct (lookup_lt_is_Some_2 rs n) as [r Hr]; [lia|].
    rewrite (take_S_r _ _ _ Hr), reverse_snoc. simpl.
    assert (Hassoc : ∀ st, ((rs' ← (r' ← rollback_one exec ctx r; rs'' ← rollback_rev exec ctx (reverse (take n rs));
        mret (r' :: rs'')); mret (reverse rs' ++ drop (S n) rs)) : M W _) st =
      (r' ← rollback_one exec ctx r; rs'' ← rollback_rev exec ctx (reverse (take n rs));
        mret (reverse rs'' ++ r' :: drop (S n) rs)) st).
    { intros st. unfold mbind, M_bind. destruct (rollback_one _ _ _ st) as [[r'|] st1]; [|done].
      destruct (rollback_rev _ _ _ st1) as [[rs''|] st2]; [|done]. simpl.
      by rewrite reverse_cons, <- app_assoc. }
    intros st. rewrite Hassoc. revert st. eapply sim_bind; [by apply rollback_at_sim|].
    intros s' r' Hs'. pose proof (IH s' (<[n := r']> rs)) as IH'.
    rewrite take_insert_ge in IH' by lia.
    rewrite (drop_S (<[n := r']> rs) r' n) in IH' by (apply list_lookup_insert_eq; lia).
    rewrite drop_insert_lt in IH' by lia. apply IH'; [rewrite length_insert; lia|done].
Qed.

Lemma rollback_in_place_sim ctx s rs : stands_for s rs →
  sim stands_for (rollback_in_place exec ctx s) (rollback exec ctx rs).
Proof.
  intros Hs. assert (Hlen : length s.1 = length rs) by (destruct Hs as [_ <-]; unfold results_of; by rewrite length_fmap).
  unfold rollback_in_place, rollback. rewrite Hlen.
  pose proof (rollback_from_sim ctx (length rs) s rs (le_n _) Hs) as Hsim.
  rewrite firstn_all, drop_all in Hsim. intros st. specialize (Hsim st). unfold mbind, M_bind in *.
  destruct (rollback_rev _ _ _ st) as [[rs'|] st']; [|done]. simpl in *. by rewrite app_nil_r in Hsim.
Qed.

(** The same, with the error a run ends with. *)
Definition ends_as (a : (list MemResult * Store) * option error) (b : list Result * option error) : Prop :=
  stands_for a.1 b.1 ∧ a.2 = b.2.

Lemma run_loop_sim ctx policy target mv ts tmpl fuel i s rs : stands_for s rs →
  sim ends_as (run_loop_in_place exec ctx policy target mv ts tmpl fuel i s)
              (run_loop exec ctx policy target mv ts tmpl fuel i rs).
Proof.
  revert i s rs. induction fuel as [|fuel IH]; intros i s rs Hs; simpl; [by apply sim_ret|].
  destruct (Actions (p_Spec policy) !! Z.to_nat i) as [act|]; [|apply sim_panic].
  apply sim_same. intros [res execErr]. destruct (place s.2 res) as [r σ] eqn:Hp.
  assert (Hs' : stands_for (s.1 ++ [r], σ) (rs ++ [res])).
  { destruct s as [results σ0], Hs as [Hap <-]. by apply (place_spec results σ0). }
  destruct execErr as [e|]; [|by apply IH].
  repeat case_decide; [by apply IH| |by apply sim_ret].
  eapply sim_bind; [by apply rollback_in_place_sim|]. intros s2 rs2 Hs2. by apply sim_ret.
Qed.

End Refinement.

(** Without it: two results of a plugin that hands out one map twice.  Marking
    the second as reversed marks the first. *)
Definition one_map : list MemResult * Store :=
  let r := mkMemResult "id" "p" (mkTarget "v1" "Pod" "a" "ns") 0 StatusSucceeded "" (Some 1%positive) in
  ([r; r], {[1%positive := ∅]}).

Example shared_map_marks_both :
  Details <$> results_of (annotate_at 1 "reversed" (ABool true) one_map) =
  [Some {["reversed"%string := ABool true]}; Some {["reversed"%string := ABool true]}].
Proof. by_compute. Qed.
