(* ===== verification/WebhookTheorems.v ===== *)
(** * Theorems about the two admission webhooks

    The policy validator admits exactly the admissible policies, and the
    approval handler lets a decision through only once, only in time and only
    under the requester's name. *)

From S2P Require Import Prelude GoLib FloatLib GoTime Api ActionTypes Metrics Effects Logic Registry Executor AuditWriter PolicyController PolicyWebhook AuditWebhook Fake.

(** ** Policies *)

Definition between_or_unset (lo hi x : Duration) : Prop := x = 0 ∨ lo <= x <= hi.

Definition gated_count (acts : list ActionSpec) : nat := length (filter (λ a, RequiresApproval a = true) acts).

Section Validator.
Context {W : Type}.
Variable registry : Registry W.

(** One action may be admitted: its plugin exists, takes its parameters, and is
    reversible unless the policy allows irreversible plugins. *)
Definition action_ok (allowIrreversible : bool) (act : ActionSpec) : Prop :=
  ∃ plugin, Lookup registry (Plugin act) = Some plugin ∧
    pl_Validate plugin (ParamsFromCRD (ActParams act)) = None ∧
    (pl_IsReversible plugin = true ∨ allowIrreversible = true).

Definition admissible (spec : ReactivePolicySpec) : Prop :=
  Source (ObserveSpec spec) = SourcePrometheus ∧
  30 * Second <= ObsDuration (ObserveSpec spec) <= 24 * Hour ∧
  between_or_unset (10 * Second) (5 * Minute) (PollInterval (ObserveSpec spec)) ∧
  between_or_unset (30 * Second) (24 * Hour) (Cooldown spec) ∧
  between_or_unset Minute (24 * Hour) (ApprovalTimeout spec) ∧
  Forall (action_ok (AllowIrreversible spec)) (Actions spec) ∧
  (gated_count (Actions spec) <= 1)%nat.

Lemma validateObserve_ok path o :
  validateObserve path o = [] ↔
  Source o = SourcePrometheus ∧ 30 * Second <= ObsDuration o <= 24 * Hour ∧
  between_or_unset (10 * Second) (5 * Minute) (PollInterval o).
Proof.
  unfold validateObserve, between_or_unset, minDuration_, maxDuration_, minPollInterval, maxPollInterval.
  rewrite !app_nil. repeat case_decide; split; intros ?; destruct_and?; try done; split_and?; try done; try lia.
Qed.

Lemma validateTimings_ok path s :
  validateTimings path s = [] ↔
  between_or_unset (30 * Second) (24 * Hour) (Cooldown s) ∧
  between_or_unset Minute (24 * Hour) (ApprovalTimeout s).
Proof.
  unfold validateTimings, between_or_unset, minCooldown, maxCooldown, minApprovalTimeout, maxApprovalTimeout.
  rewrite !app_nil. repeat case_decide; split; intros ?; destruct_and?; try done; split_and?; try done; try lia.
Qed.

(** How many gates are still allowed once [gated] is known. *)
Definition gates_left (gated : Z) : nat := if decide (gated >= 0) then 0 else 1.

Lemma validate_action_ok path allow i act gated (st : St W) :
  0 <= i →
  wp (validate_action registry path allow i act gated) st (λ o l st', l = [] ∧
    ∃ errs gated', o = Val (errs, gated') ∧
      gated' = (if RequiresApproval act then (if decide (gated >= 0) then gated else i) else gated) ∧
      (errs = [] ↔ action_ok allow act ∧ (RequiresApproval act = true → gated < 0))).
Proof.
  intros Hi. unfold validate_action.
  set (gate := if RequiresApproval act then _ else _).
  assert (gate.2 = (if RequiresApproval act then (if decide (gated >= 0) then gated else i) else gated) ∧
          (gate.1 = [] ↔ (RequiresApproval act = true → gated < 0))) as [Hg2 Hg1].
  { subst gate. destruct (RequiresApproval act); [case_decide|]; simpl; (split; [done|split; [|]]); try done; lia. }
  destruct gate as [gate_errs gated']. simpl in Hg1, Hg2. unfold action_ok.
  destruct (Lookup registry (Plugin act)) as [plugin|] eqn:Hl.
  2: { repeat wp_step. split; [done|]. eexists _, _. split_and!; [done|done|].
       rewrite app_nil. split; [by intros [_ ?]|by intros [(? & ? & _) _]]. }
  wp_step. destruct (pl_Validate plugin _) as [e|] eqn:Hv.
  - repeat wp_step. split; [done|]. eexists _, _. split_and!; [done|done|].
    rewrite !app_nil. split; [by intros (_ & ? & _)|]. intros [(p & [= <-] & Hp & _) _]. congruence.
  - repeat wp_step. split; [done|]. eexists _, _. split_and!; [done|done|].
    rewrite !app_nil, Hg1. split.
    + intros (Hg & _ & Hrev). split; [|done]. exists plugin. split_and!; [done|done|].
      destruct (pl_IsReversible plugin), allow; [auto..|done].
    + intros [(p & [= <-] & _ & Hrev) Hg]. split_and!; [done|done|].
      destruct (pl_IsReversible plugin), allow; simpl; try done. by destruct Hrev.
Qed.

Lemma validate_actions_ok path allow i gated acts (st : St W) :
  0 <= i →
  wp (validate_actions_from registry path allow i gated acts) st (λ o l st', l = [] ∧
    ∃ errs, o = Val errs ∧ (errs = [] ↔ Forall (action_ok allow) acts ∧ (gated_count acts <= gates_left gated)%nat)).
Proof.
  revert i gated st. induction acts as [|act acts IH]; intros i gated st Hi; simpl.
  - wp_step. split; [done|]. exists []. split; [done|]. split; [|done]. intros _. split; [constructor|].
    unfold gated_count. simpl. lia.
  - wp_step. eapply wp_mono; [by apply validate_action_ok|].
    intros ? l1 st1 (-> & errs & gated' & -> & Hg & Herrs). simpl. wp_step.
    eapply wp_mono; [apply IH; lia|]. intros ? l2 st2 (-> & rest & -> & Hrest). repeat wp_step.
    split; [done|]. exists (errs ++ rest). split; [done|]. rewrite app_nil, Herrs, Hrest, Forall_cons.
    assert (gated_count (act :: acts) = (if RequiresApproval act then 1 else 0) + gated_count acts)%nat as Hcount.
    { unfold gated_count. rewrite filter_cons. destruct (RequiresApproval act); by case_decide. }
    rewrite Hcount, Hg. unfold gates_left.
    destruct (RequiresApproval act); repeat case_decide; split; intros ?; destruct_and?; split_and?; try done; try lia;
      intros; lia.
Qed.

(** C17. Admission: the validator admits a policy exactly when it is admissible,
    that is, when its timings are in range or unset, every action names a
    registered plugin that accepts its parameters and is reversible unless
    allowIrreversible is set, and at most one action requires approval; it
    always answers, without any side effect outside the process, and a policy
    is rejected with at least one field error. *)
Theorem validate_iff_admissible policy (st : St W) :
  wp (validate registry policy) st (λ o l st', l = [] ∧
    ((o = Val None ∧ admissible (p_Spec policy)) ∨
     (∃ e errs, o = Val (Some (e :: errs)) ∧ ¬ admissible (p_Spec policy)))).
Proof.
  unfold validate, validateActions. wp_step. eapply wp_mono; [by apply validate_actions_ok|].
  intros ? l st' (-> & errs & -> & Herrs). wp_step. split; [done|].
  set (all := validateObserve _ _ ++ _).
  assert (all = [] ↔ admissible (p_Spec policy)) as Hall.
  { subst all. rewrite !app_nil, validateObserve_ok, validateTimings_ok, Herrs. unfold admissible, gates_left.
    rewrite decide_False by lia. tauto. }
  destruct all as [|e all]; [rewrite decide_True by done; left|rewrite decide_False by done; right].
  - split; [done|]. by apply Hall.
  - exists e, all. split; [done|]. intros Hadm. by apply Hall in Hadm.
Qed.

End Validator.

(** ** Approval decisions *)

Section Handler.
Context {W : Type} `{Cluster W} `{AuditCodecLaws}.

(** How an admitted update may treat the gate: leave the decision and its stamp
    alone, or decide it once, in time, under the requester's name. *)
Definition decision_untouched (old new : ApprovalGate) : Prop :=
  Decision_ new = Decision_ old ∧ DecidedBy new = DecidedBy old ∧ DecidedAt new = DecidedAt old.

Definition decided_now (req : Request) (oldAudit : ActionAudit) (old new : ApprovalGate) (l : list IOEvent) : Prop :=
  Decision_ old = EmptyString ∧ ApprovalPhase (a_Status oldAudit) = PhasePending ∧
  (Decision_ new = DecisionApproved ∨ Decision_ new = DecisionDenied) ∧
  DecidedBy new = requesterName req ∧
  ∃ t now, l = [IoNow t; IoNow now] ∧ t < ExpiresAt old ∧ DecidedAt new = Some now.

Lemma sameTime_eq a b : sameTime a b = true ↔ a = b.
Proof.
  destruct a, b; simpl; try done. rewrite bool_decide_eq_true. split; [by intros ->|by intros [= ->]].
Qed.

(** Case analysis of an admitted update. *)
Lemma Handle_authentic req (st : St W) :
  Operation req = OpUpdate → (0 < String.length (OldObject req))%nat →
  wp (Handle req) st (λ o l st',
    ∀ res a oldAudit, o = Val res → admitted req res = Some a → Decode (OldObject req) = inr oldAudit →
      match Gate (a_Spec oldAudit), Gate (a_Spec a) with
      | None, None => True
      | Some old, Some new => decision_untouched old new ∨ decided_now req oldAudit old new l
      | _, _ => False
      end).
Proof.
  intros Hop Hlen. unfold Handle. rewrite decide_False by (intros ?; done).
  destruct (Decode (Object req)) as [e|newAudit] eqn:Hnew; [by wp_step; intros ??? [= <-]|].
  rewrite decide_True by done.
  destruct (Decode (OldObject req)) as [e|oldAudit] eqn:Hold; [by wp_step; intros ??? [= <-]|].
  destruct (Gate (a_Spec newAudit)) as [new|] eqn:Hgn, (Gate (a_Spec oldAudit)) as [old|] eqn:Hgo.
  2-3: by wp_step; intros ??? [= <-].
  2: { wp_step. intros res a oa [= <-]. simpl. rewrite Hnew. intros [= <-] [= <-]. by rewrite Hgo, Hgn. }
  case_decide as Hsame.
  { case_decide as Hstamp; wp_step; intros res a oa [= <-]; simpl; [done|]. rewrite Hnew.
    intros [= <-] [= <-]. rewrite Hgo, Hgn. left. split_and!; [done| |].
    - apply dec_stable. tauto.
    - apply sameTime_eq. destruct (sameTime _ _); [done|]. exfalso. apply Hstamp. by right. }
  case_decide as Hempty; [by wp_step; intros ??? [= <-]|].
  case_decide as Hvalue; [by wp_step; intros ??? [= <-]|].
  case_decide as Hph; [by wp_step; intros ??? [= <-]|].
  repeat wp_step. case_decide as Hexp; [by wp_step; intros ??? [= <-]|].
  repeat wp_step. destruct (Marshal _) as [e|raw] eqn:Hm; wp_step; intros res aud oa [= <-]; simpl; [done|].
  rewrite (Decode_Marshal _ _ Hm). intros [= <-] [= <-]. rewrite Hgo. simpl. right.
  split_and!; [done|done| |done|].
  - destruct (decide (Decision_ new = DecisionApproved)); [by left|right]. apply dec_stable. tauto.
  - eexists _, _. split_and!; [done| |done]. apply dec_stable in Hexp || idtac. unfold time_Before in Hexp. lia.
Qed.


(** What the handler does with a first decision on an open gate. *)
Lemma Handle_fresh req oldAudit newAudit old new :
  Operation req = OpUpdate → (0 < String.length (OldObject req))%nat →
  Decode (Object req) = inr newAudit → Decode (OldObject req) = inr oldAudit →
  Gate (a_Spec newAudit) = Some new → Gate (a_Spec oldAudit) = Some old →
  Decision_ old = EmptyString → (Decision_ new = DecisionApproved ∨ Decision_ new = DecisionDenied) →
  ApprovalPhase (a_Status oldAudit) = PhasePending →
  Handle (W := W) req =
    (t ← Now;
     if decide (¬ time_Before t (ExpiresAt old)) then
       mret (ResDenied "the approval gate has expired; the actions it held will not run")
     else
       now ← Now;
       match Marshal (set_Gate newAudit (Some (set_Decided new (requesterName req) (Some now)))) with
       | inl err => mret (ResErrored StatusInternalServerError err)
       | inr marshaled => mret (ResPatched (Object req) marshaled)
       end).
Proof.
  intros Hop Hlen Hnew Hold Hgn Hgo Hempty Hd Hph. unfold Handle.
  rewrite decide_False by (intros ?; done). rewrite Hnew. rewrite decide_True by done. rewrite Hold, Hgn, Hgo.
  rewrite decide_False by (intros Heq; rewrite Heq, Hempty in Hd; by destruct Hd).
  rewrite decide_False by (intros ?; done). rewrite decide_False by tauto. by rewrite decide_False by (intros ?; done).
Qed.

(** A legitimate decision gets through: deciding a Pending, undecided and
    unexpired gate as Approved or Denied is admitted, and what is stored is the
    submitted record with the requester's stamp, unless the patch cannot be
    encoded (an internal error, which rejects). *)
Lemma decision_gets_through req oldAudit newAudit old new (st : St W) :
  Operation req = OpUpdate → (0 < String.length (OldObject req))%nat →
  Decode (Object req) = inr newAudit → Decode (OldObject req) = inr oldAudit →
  Gate (a_Spec newAudit) = Some new → Gate (a_Spec oldAudit) = Some old →
  Decision_ old = EmptyString → (Decision_ new = DecisionApproved ∨ Decision_ new = DecisionDenied) →
  ApprovalPhase (a_Status oldAudit) = PhasePending →
  wp (Handle req) st (λ o l st',
    ∃ t, head l = Some (IoNow t) ∧
      (t < ExpiresAt old →
         ∃ now res, l = [IoNow t; IoNow now] ∧ o = Val res ∧
           let patched := set_Gate newAudit (Some (set_Decided new (requesterName req) (Some now))) in
           (admitted req res = Some patched ∨ ∃ e, Marshal patched = inl e ∧ res = ResErrored StatusInternalServerError e)) ∧
      (ExpiresAt old <= t → ∃ reason, o = Val (ResDenied reason))).
Proof.
  intros Hop Hlen Hnew Hold Hgn Hgo Hempty Hd Hph.
  rewrite (Handle_fresh _ _ _ _ _ Hop Hlen Hnew Hold Hgn Hgo Hempty Hd Hph).
  repeat wp_step. unfold time_Before. case_decide as Hexp.
  - wp_step. eexists. split; [done|]. split; [lia|]. intros _. by eexists.
  - repeat wp_step. destruct (Marshal _) as [e|raw] eqn:Hm; wp_step; eexists; (split; [done|]); (split; [|lia]); intros _;
      eexists _, _; (split; [done|split; [done|]]); simpl.
    + right. by exists e.
    + left. by rewrite (Decode_Marshal _ _ Hm).
Qed.

End Handler.

(** ** Witnesses *)

(** An encoding that knows the records it was given. *)
Definition table_codec (table : list (string * ActionAudit)) : AuditCodec := {|
  Decode raw := match head (filter (λ kv, kv.1 = raw) table) with
                | Some kv => inr kv.2
                | None => inl (errorf "cannot decode")
                end;
  Marshal a := match head (filter (λ kv, kv.2 = a) table) with
               | Some kv => inr kv.1
               | None => inl (errorf "cannot encode")
               end |}.

Lemma head_filter_Some {A} (P : A → Prop) `{∀ x, Decision (P x)} l x :
  head (filter P l) = Some x → P x ∧ x ∈ l.
Proof.
  intros Hh. apply (list_elem_of_filter P l x). destruct (filter P l); simplify_eq/=. left.
Qed.

Lemma table_codec_laws table : NoDup table.*1 → @AuditCodecLaws (table_codec table).
Proof.
  intros Hnd. split. intros a raw. simpl. intros Hm.
  destruct (head (filter (λ kv, kv.2 = a) table)) as [[k b]|] eqn:Hk; simplify_eq.
  apply head_filter_Some in Hk as [Hb Hin]. simpl in Hb. subst b. simpl.
  destruct (filter (λ kv, kv.1 = k) table) as [|[k' b] l] eqn:Hf.
  - assert ((k, a) ∈ filter (λ kv : string * ActionAudit, kv.1 = k) table) as Hin' by by apply list_elem_of_filter.
    rewrite Hf in Hin'. by apply elem_of_nil in Hin'.
  - assert ((k', b) ∈ filter (λ kv : string * ActionAudit, kv.1 = k) table) as Hin' by (rewrite Hf; left).
    apply list_elem_of_filter in Hin' as [Hk' Hin']. simpl in *. subst k'. f_equal.
    clear Hf. induction table as [|[x y] table IH]; simpl in *; [by apply elem_of_nil in Hin|].
    apply NoDup_cons in Hnd as [Hx Hnd].
    apply elem_of_cons in Hin as [?|Hin]; apply elem_of_cons in Hin' as [?|Hin']; simplify_eq; try done.
    + exfalso. apply Hx, list_elem_of_fmap. eexists. split; [|exact Hin']. done.
    + exfalso. apply Hx, list_elem_of_fmap. eexists. split; [|exact Hin]. done.
    + by apply IH.
Qed.

Definition undecided : ActionAudit := pending_audit EmptyString.
Definition decide_as (who : string) (at_ : option Time) : ActionAudit :=
  set_Gate undecided (Some (set_Decided (mkGate 1 ["notify"] [mkAuditTarget "v1" "Pod" "web-0" "prod"] (t0 + 30 * Minute)
                                           DecisionApproved EmptyString None EmptyString) who at_)).
Definition approval_table : list (string * ActionAudit) :=
  [("old", undecided); ("sent", decide_as "mallory" None); ("patched", decide_as "bob" (Some (t0 + Millisecond)))].
Definition approval_codec : AuditCodec := table_codec approval_table.

Lemma approval_codec_laws : @AuditCodecLaws approval_codec.
Proof. apply table_codec_laws. repeat constructor; set_solver. Qed.

Definition approval_request : Request := mkRequest OpUpdate "sent" "old" "bob".
Definition approval_run := @Handle World _ approval_codec approval_request (start (a_world [] [])).


Lemma decision_gets_through_witness :
  let old := match Gate (a_Spec undecided) with Some g => g | None => mkGate 0 [] [] 0 EmptyString EmptyString None EmptyString end in
  let new := match Gate (a_Spec (decide_as "mallory" None)) with Some g => g | None => old end in
  wp (@Handle World _ approval_codec approval_request) (start (a_world [] [])) (λ o l st',
    ∃ t, head l = Some (IoNow t) ∧
      (t < ExpiresAt old →
         ∃ now res, l = [IoNow t; IoNow now] ∧ o = Val res ∧
           let patched := set_Gate (decide_as "mallory" None)
                            (Some (set_Decided new (requesterName approval_request) (Some now))) in
           (@admitted approval_codec approval_request res = Some patched ∨
            ∃ e, @Marshal approval_codec patched = inl e ∧ res = ResErrored StatusInternalServerError e)) ∧
      (ExpiresAt old <= t → ∃ reason, o = Val (ResDenied reason))).
Proof.
  apply (@decision_gets_through World _ approval_codec approval_codec_laws approval_request undecided
           (decide_as "mallory" None)); try reflexivity; [simpl; lia|by left].
Defined.

(** The handler does not protect the rest of the gate: a client may first
    move the expiry and the recorded targets of an undecided gate, and then
    decide it after the expiry the operator had set. *)
Example expiry_can_be_extended :
  let g d exp targets := Some (mkGate 1 ["notify"] targets exp d EmptyString None EmptyString) in
  let moved := set_Gate undecided (g EmptyString (t0 + 48 * Hour) [mkAuditTarget "v1" "Pod" "payments" "prod"]) in
  let decided := set_Gate undecided (g DecisionApproved (t0 + 48 * Hour) [mkAuditTarget "v1" "Pod" "payments" "prod"]) in
  let undec := set_Gate undecided (g EmptyString (t0 + 30 * Minute) []) in
  let stamped := set_Gate decided (option_map (λ x, set_Decided x "bob" (Some (t0 + 24 * Hour + Millisecond)))
                                     (Gate (a_Spec decided))) in
  let codec := table_codec [("old", undec); ("moved", moved); ("decided", decided); ("stamped", stamped)] in
  (@Handle World _ codec (mkRequest OpUpdate "moved" "old" "bob") (start (a_world [] []))).1 = Val ResAllowed ∧
  (@Handle World _ codec (mkRequest OpUpdate "decided" "moved" "bob")
     (start (with_now (t0 + 24 * Hour) (a_world [] [])))).1 = Val (ResPatched "decided" "stamped").
Proof. vm_compute. split; reflexivity. Qed.
