(* ===== verification/PolicySpec.v ===== *)
(** * What the ReactivePolicy reconciler promises

    The contract of [PolicyController.Reconcile] as layered relations on the
    log, one per gate: each says which answers of the outside lead to which
    verdict.  [Reconcile_spec] is the refinement theorem: every run of the
    reconciler is a run the relations allow, ending in the write, the requeue
    and the memory that the verdict demands. *)

From S2P Require Import Prelude GoLib FloatLib GoTime Api ActionTypes Metrics Effects Logic Evaluator Limiter Registry Executor AuditWriter PolicyController.

(** ** Verdicts *)

Inductive verdict : Type :=
| GateError | GateOpen
| Cooling (left : Duration)
| LimitError | OverLimit
| ClientError | QueryError | BadThreshold
| Within | Counting
| Sustained.

Section Relations.
Context {W : Type} `{Cluster W}.
Variable prometheus : Factory W.
Variable policy : ReactivePolicy.
Variable key : string.
Variable m : Mem.
Variable now : Time.

Let spec := p_Spec policy.
Let obs := ObserveSpec spec.
Let ns := Namespace (p_Meta policy).
Let name := Name (p_Meta policy).
Let poll := pollIntervalOrDefault policy.

(** How long the threshold has been crossed, this observation included. *)
Definition crossed_for : Duration := (SlidingWindow.Observe (crossedAt m) key true now).1.

(** Evaluation of the metric, after every gate. *)
Inductive Evaluated : list IOEvent → verdict → Prop :=
| ev_client_error e : prometheus (Endpoint obs) [] = inl e → Evaluated [] ClientError
| ev_query_error c e : prometheus (Endpoint obs) [] = inr c → Evaluated [IoQuery (Query obs) (inl e)] QueryError
| ev_bad_threshold v e :
    ParseThreshold (Threshold obs) = inl e → Evaluated [IoQuery (Query obs) (inr v)] BadThreshold
| ev_within v thr :
    ParseThreshold (Threshold obs) = inr thr → Compare v thr (Operator obs) = false →
    Evaluated [IoQuery (Query obs) (inr v)] Within
| ev_counting v thr :
    ParseThreshold (Threshold obs) = inr thr → Compare v thr (Operator obs) = true →
    crossed_for < ObsDuration obs → Evaluated [IoQuery (Query obs) (inr v)] Counting
| ev_sustained v thr :
    ParseThreshold (Threshold obs) = inr thr → Compare v thr (Operator obs) = true →
    ObsDuration obs <= crossed_for → Evaluated [IoQuery (Query obs) (inr v)] Sustained.

(** The trigger count of the trailing hour: cached and younger than the poll
    interval, or counted from a LIST. *)
Inductive Counted : list IOEvent → error + Z → Prop :=
| ct_cached e :
    cache m !! cache_key ns name = Some e → time_Sub now (queriedAt e) < poll →
    Counted [] (inr (entry_count e))
| ct_listed l :
    (∀ e, cache m !! cache_key ns name = Some e → poll <= time_Sub now (queriedAt e)) →
    Counted [IoListAudits ns LabelPolicy name (inr l)] (inr (count (recent (time_Add now (- Hour))) l))
| ct_error e :
    (∀ e, cache m !! cache_key ns name = Some e → poll <= time_Sub now (queriedAt e)) →
    Counted [IoListAudits ns LabelPolicy name (inl e)]
      (inl (wrapf "listing audit records for rate limit: " e)).

Inductive Limited : list IOEvent → verdict → Prop :=
| lim_error c e : Counted c (inl e) → Limited c LimitError
| lim_over c n : Counted c (inr n) → maxTriggersOrDefault policy <= n → Limited c OverLimit
| lim_allowed c n ev v :
    Counted c (inr n) → n < maxTriggersOrDefault policy → Evaluated ev v → Limited (c ++ ev) v.

Inductive CooledDown : list IOEvent → verdict → Prop :=
| cool_cooling last :
    LastTriggeredAt (p_Status policy) = Some last → time_Sub now last < cooldownOrDefault policy →
    CooledDown [] (Cooling (int64 (cooldownOrDefault policy - time_Sub now last)))
| cool_ready l v :
    (∀ last, LastTriggeredAt (p_Status policy) = Some last → cooldownOrDefault policy <= time_Sub now last) →
    Limited l v → CooledDown l v.

Definition gate_ref : NamespacedName := mkNN ns (PendingGateRef (p_Status policy)).

(** An answer that shows the gate closed: the record is gone, or not pending. *)
Definition shows_closed (r : error + ActionAudit) : Prop :=
  match r with
  | inl e => Is e NotFound
  | inr a => ApprovalPhase (a_Status a) ≠ PhasePending
  end.

Inductive Gated : list IOEvent → verdict → Prop :=
| gate_error e :
    PendingGateRef (p_Status policy) ≠ EmptyString → ¬ Is e NotFound →
    Gated [IoGetAudit gate_ref (inl e)] GateError
| gate_open a :
    PendingGateRef (p_Status policy) ≠ EmptyString → ApprovalPhase (a_Status a) = PhasePending →
    Gated [IoGetAudit gate_ref (inr a)] GateOpen
| gate_none l v : PendingGateRef (p_Status policy) = EmptyString → CooledDown l v → Gated l v
| gate_closed r l v :
    PendingGateRef (p_Status policy) ≠ EmptyString → shows_closed r → CooledDown l v →
    Gated (IoGetAudit gate_ref r :: l) v.

(** ** What a verdict leaves *)

Definition verdict_state (v : verdict) : PolicyState :=
  match v with
  | GateError | LimitError => State (p_Status policy)
  | GateOpen => StateAwaitingApproval
  | Cooling _ => StateCooldown
  | OverLimit => StateRateLimited
  | BadThreshold => StateInvalid
  | ClientError | QueryError | Within | Counting | Sustained => StateWatching
  end.

Definition verdict_requeue (v : verdict) : Duration :=
  match v with Cooling d => d | _ => poll end.

(** The reference to the gate survives only while the gate may be open. *)
Definition verdict_gate_ref (v : verdict) : string :=
  match v with GateError | GateOpen => PendingGateRef (p_Status policy) | _ => EmptyString end.

Definition verdict_evaluated (v : verdict) : option Time :=
  match v with
  | ClientError | QueryError | BadThreshold | Within | Counting | Sustained => Some now
  | _ => LastEvaluatedAt (p_Status policy)
  end.

(** The crossing times a verdict leaves, before any trigger. *)
Definition verdict_window (v : verdict) : gmap string Time :=
  match v with
  | QueryError | Within => delete key (crossedAt m)
  | Counting | Sustained => (SlidingWindow.Observe (crossedAt m) key true now).2
  | _ => crossedAt m
  end.

Definition status_answer (r : option error) (after : Duration) : CtrlResult * option error :=
  match r with
  | None => (requeue_after after, None)
  | Some e => if decide (Is e Conflict) then (requeue_now, None)
              else (zero_result, Some (wrapf "updating status: " e))
  end.

(** The policy as written back: only its status differs. *)
Definition derived (p' : ReactivePolicy) : Prop := p_Meta p' = p_Meta policy ∧ p_Spec p' = p_Spec policy.

(** A verdict other than [Sustained] ends in one status write. *)
Definition Settled (v : verdict) (tail : list IOEvent) (o : outcome (CtrlResult * option error)) (m' : Mem) : Prop :=
  ∃ p' r, tail = [IoStatusUpdatePolicy p' r] ∧ derived p' ∧
    State (p_Status p') = verdict_state v ∧
    LastTriggeredAt (p_Status p') = LastTriggeredAt (p_Status policy) ∧
    TriggerCount (p_Status p') = TriggerCount (p_Status policy) ∧
    PendingGateRef (p_Status p') = verdict_gate_ref v ∧
    LastEvaluatedAt (p_Status p') = verdict_evaluated v ∧
    o = Val (status_answer r (verdict_requeue v)) ∧
    crossedAt m' = verdict_window v.

End Relations.

(** ** A trigger *)

Definition is_list (e : IOEvent) : Prop := match e with IoListObjects _ _ _ _ => True | _ => False end.
Definition is_sink (e : IOEvent) : Prop :=
  match e with IoSinkTrigger _ _ => True | _ => False end.

(** The cached count after [limiter_Observe]. *)
Definition bump (key : string) (now : Time) (c : gmap string limiterEntry) : gmap string limiterEntry :=
  match c !! key with
  | None => c
  | Some entry => <[key := mkEntry now (entry_count entry + 1)]> c
  end.

(** Where a trigger stops running actions: at the gate, or at the end. *)
Definition run_to (policy : ReactivePolicy) : Z :=
  if decide (GateIndex policy >= 0) then GateIndex policy else Z.of_nat (length (Actions (p_Spec policy))).

Definition max_resources (policy : ReactivePolicy) : Z :=
  match MaxResources (SpecTarget (p_Spec policy)) with Some n => n | None => defaultMaxResources end.

(** The targets a trigger acts on: what was matched, or the bare namespace. *)
Definition act_on (ns : string) (resolved : list Target) : list Target :=
  match resolved with
  | [] => [mkTarget EmptyString EmptyString EmptyString ns]
  | _ => resolved
  end.

(** One LIST per kind, every item a target. *)
Inductive listing (ns : string) : list TargetKind → list IOEvent → list Target → Prop :=
| listing_nil : listing ns [] [] []
| listing_cons k ks items l ts :
    listing ns ks l ts →
    listing ns (k :: ks) (IoListObjects ns (tk_APIVersion k) (tk_Kind k ++s "List") (inr items) :: l)
      (((λ '(o_ns, o_name), mkTarget (tk_APIVersion k) (tk_Kind k) o_name o_ns) <$> items) ++ ts).

Section Trigger.
Context {W : Type} `{Cluster W} `{DetailsCodec} `{LocalZone}.
Variable exec : Registry W.
Variable policy : ReactivePolicy.
Variable key : string.
Variable m : Mem.
Variable now : Time.

Let ns := Namespace (p_Meta policy).
Let name := Name (p_Meta policy).

(** What a trigger leaves in the policy's status, whether gated or not. *)
Record after_trigger (p' : ReactivePolicy) (st : PolicyState) (last : option Time) (ref : string) : Prop := {
  at_derived : derived policy p';
  at_state : State (p_Status p') = st;
  at_last : LastTriggeredAt (p_Status p') = last;
  at_count : TriggerCount (p_Status p') = int32 (TriggerCount (p_Status policy) + 1);
  at_ref : PendingGateRef (p_Status p') = ref }.

(** The end of a trigger: the record, then the status. *)
Inductive Recorded (targets : list Target) (results : list Result)
  : list IOEvent → outcome (CtrlResult * option error) → Mem → Prop :=
| rec_ungated r sinks p' r' m' :
    GateIndex policy < 0 → Forall is_sink sinks →
    after_trigger p' StateTriggering (Some now) EmptyString →
    crossedAt m' = delete key (crossedAt m) →
    cache m' = (match r with inr _ => bump (cache_key ns name) now (cache m) | inl _ => cache m end) →
    Recorded targets results
      (IoCreateAudit (new_audit policy now (to_records exec 0 results) None) r :: sinks ++ [IoStatusUpdatePolicy p' r'])
      (Val (status_answer r' (pollIntervalOrDefault policy))) m'
| rec_gate_failed writes p' r' m' :
    0 <= GateIndex policy →
    (∃ e, writes = [IoCreateAudit (new_audit policy now (to_records exec 0 results)
                                     (Some (new_gate policy now (GateIndex policy) targets))) (inl e)]) ∨
    (∃ a e, writes = [IoCreateAudit (new_audit policy now (to_records exec 0 results)
                                       (Some (new_gate policy now (GateIndex policy) targets))) (inr a);
                      IoStatusUpdateAudit (set_ApprovalPhase a PhasePending) (inl e)]) →
    after_trigger p' StateTriggering (LastTriggeredAt (p_Status policy)) EmptyString →
    crossedAt m' = delete key (crossedAt m) →
    cache m' = cache m →
    Recorded targets results (writes ++ [IoStatusUpdatePolicy p' r'])
      (Val (status_answer r' (pollIntervalOrDefault policy))) m'
| rec_gate_opened a a' sinks p' r' m' :
    0 <= GateIndex policy → Forall is_sink sinks →
    after_trigger p' StateAwaitingApproval (LastTriggeredAt (p_Status policy)) (Name (a_Meta a')) →
    crossedAt m' = delete key (crossedAt m) →
    cache m' = bump (cache_key ns name) now (cache m) →
    Recorded targets results
      (IoCreateAudit (new_audit policy now (to_records exec 0 results)
                        (Some (new_gate policy now (GateIndex policy) targets))) (inr a) ::
       IoStatusUpdateAudit (set_ApprovalPhase a PhasePending) (inr a') ::
       sinks ++ [IoStatusUpdatePolicy p' r'])
      (Val (status_answer r' (pollIntervalOrDefault policy))) m'.

Lemma Recorded_memory m2 targets results tail o m' :
  same_window m2 m → Recorded targets results tail o m' →
  crossedAt m' = delete key (crossedAt m2) ∧
  (cache m' = cache m2 ∨ cache m' = bump (cache_key ns name) now (cache m2)).
Proof. intros [Hw Hc] Hrec. rewrite <- Hw, <- Hc. destruct Hrec as [[?|?]| |]; auto. Qed.

Inductive Triggered : list IOEvent → outcome (CtrlResult * option error) → Mem → Prop :=
| trig_refused lists p' r m' :
    Forall is_list lists → derived policy p' → State (p_Status p') = StateWatching →
    LastTriggeredAt (p_Status p') = LastTriggeredAt (p_Status policy) →
    TriggerCount (p_Status p') = TriggerCount (p_Status policy) →
    crossedAt m' = crossedAt m →
    Triggered (lists ++ [IoStatusUpdatePolicy p' r]) (Val (status_answer r (pollIntervalOrDefault policy))) m'
| trig_ran lists resolved runs results tail o m' :
    listing ns (Kinds (SpecTarget (p_Spec policy))) lists resolved →
    Z.of_nat (length resolved) <= max_resources policy →
    Forall is_run runs →
    targets_ran exec policy (CurrentMetricValue (p_Status policy)) 0 (run_to policy) (act_on ns resolved) results
      (executed runs) (reversed runs) →
    Recorded (act_on ns resolved) results tail o m' →
    Triggered (lists ++ runs ++ tail) o m'.

End Trigger.

(** How a verdict ends: a trigger for [Sustained], one status write otherwise.
    [p1] is the policy as it enters the trigger. *)
Inductive Concluded {W} `{Cluster W} `{DetailsCodec} `{LocalZone} (exec : Registry W) (policy : ReactivePolicy)
    (key : string) (m : Mem) (now : Time) : verdict → list IOEvent → outcome (CtrlResult * option error) → Mem → Prop :=
| con_settled v tail o m' :
    v ≠ Sustained → Settled policy key m now v tail o m' → Concluded exec policy key m now v tail o m'
| con_triggered p1 m1 tail o m' :
    derived policy p1 →
    LastTriggeredAt (p_Status p1) = LastTriggeredAt (p_Status policy) →
    TriggerCount (p_Status p1) = TriggerCount (p_Status policy) →
    crossedAt m1 = verdict_window key m now Sustained →
    Triggered exec p1 key m1 now tail o m' →
    Concluded exec policy key m now Sustained tail o m'.

(** ** The whole of [Reconcile] *)

Section Reconciled.
Context {W : Type} `{Cluster W} `{LocalZone} `{DetailsCodec}.
Variable prometheus : Factory W.
Variable exec : Registry W.
Variable req : NamespacedName.

(** The policy counts as watched from here on. *)
Definition tracked_mem (policy : ReactivePolicy) (m : Mem) : Mem :=
  mkMem (crossedAt m) (cache m)
    (TrackPolicy (Namespace (p_Meta policy)) (Name (p_Meta policy)) (metrics m)).

(** From memory [m] to memory [m'] with log [l] and result [o]. *)
Inductive Reconciled (m : Mem) : list IOEvent → outcome (CtrlResult * option error) → Mem → Prop :=
| rcd_gone e m' :
    Is e NotFound →
    crossedAt m' = delete (nn_String req) (crossedAt m) →
    cache m' = delete (cache_key (nn_Namespace req) (nn_Name req)) (cache m) →
    Reconciled m [IoGetPolicy req (inl e)] (Val (zero_result, None)) m'
| rcd_error e :
    ¬ Is e NotFound →
    Reconciled m [IoGetPolicy req (inl e)] (Val (zero_result, Some (wrapf "fetching policy: " e))) m
| rcd_known policy now ev v tail o m' :
    Gated prometheus policy (nn_String req) (tracked_mem policy m) now ev v →
    Concluded exec policy (nn_String req) (tracked_mem policy m) now v tail o m' →
    Reconciled m (IoGetPolicy req (inr policy) :: IoNow now :: ev ++ tail) o m'.

End Reconciled.

(** ** The steps of the reconciler, each against its relation *)

(** Symbolic execution through the window's and the limiter's methods too. *)
Ltac wp_go := repeat (first [wp_step | progress unfold Window_Forget, Window_Observe, limiter_Forget]).

Section Steps.
Context {W : Type} `{Cluster W} `{LocalZone} `{DetailsCodec}.
Variable prometheus : Factory W.
Variable exec : Registry W.
Variable sink : option (Sink W).
Hypothesis Hexec : registry_ok exec.

Lemma setCondition_spec p ty s r msg (st : St W) (Q : outcome ReactivePolicy → list IOEvent → St W → Prop) :
  (∀ cs w, Q (Val (set_Conditions p cs)) [] (mkSt w (mem st) (log st))) →
  wp (setCondition p ty s r msg) st Q.
Proof. intros HQ. unfold setCondition. repeat wp_step. apply HQ. Qed.

Lemma requeue_spec p after (st : St W) (Q : outcome (CtrlResult * option error) → list IOEvent → St W → Prop) :
  (∀ r w l', Q (Val (status_answer r after)) [IoStatusUpdatePolicy p r] (mkSt w (mem st) l')) →
  wp (requeue p after) st Q.
Proof.
  intros HQ. unfold requeue. wp_step. wp_step. wp_step. simpl.
  specialize (HQ a). unfold status_answer in HQ.
  destruct a as [e|]; [case_decide|]; wp_step; apply HQ.
Qed.

Lemma limiter_count_spec policy now (st : St W) :
  wp (limiter_count (Namespace (p_Meta policy)) (Name (p_Meta policy)) now (pollIntervalOrDefault policy)) st
     (λ o l st', ∃ r, o = Val r ∧ Counted policy (mem st) now l r ∧ crossedAt (mem st') = crossedAt (mem st)).
Proof.
  set (relist := items ← ListAudits (Namespace (p_Meta policy)) LabelPolicy (Name (p_Meta policy));
    match items with
    | inl err => mret (inl (wrapf "listing audit records for rate limit: " err))
    | inr l =>
        modify_cache <[cache_key (Namespace (p_Meta policy)) (Name (p_Meta policy)) :=
                         mkEntry now (count (recent (time_Add now (- Hour))) l)]>;;;
        mret (inr (count (recent (time_Add now (- Hour))) l))
    end).
  assert ((∀ e, cache (mem st) !! cache_key (Namespace (p_Meta policy)) (Name (p_Meta policy)) = Some e →
             pollIntervalOrDefault policy <= time_Sub now (queriedAt e)) →
          wp relist st (λ o l st', ∃ r, o = Val r ∧ Counted policy (mem st) now l r ∧
                                        crossedAt (mem st') = crossedAt (mem st))) as Hrelist.
  { intros Hold. subst relist. wp_step. wp_step. wp_step. simpl. destruct a as [e|items]; repeat wp_step; simpl;
      eexists; split_and!; try done; by constructor. }
  unfold limiter_count. wp_step. wp_step. case_match eqn:Hc.
  - case_decide.
    + wp_step. eexists. split_and!; [done|by constructor|done].
    + apply Hrelist. intros e He. simplify_eq. lia.
  - apply Hrelist. intros e He. congruence.
Qed.

Lemma list_kinds_spec policy sel kinds acc (st : St W) :
  wp (foldM (list_kind policy sel) (inr acc) kinds) st (λ o l st',
    ∃ r, o = Val r ∧ Forall is_list l ∧ mem st' = mem st ∧
      ∀ ts, r = inr ts → ∃ ts', ts = acc ++ ts' ∧ listing (Namespace (p_Meta policy)) kinds l ts').
Proof.
  assert (∀ e kinds st, wp (foldM (list_kind policy sel) (inl e) kinds) st
            (λ o l st', o = Val (inl e) ∧ l = [] ∧ mem st' = mem st)) as Hstuck.
  { clear. intros e kinds. induction kinds as [|k ks IH]; intros st; simpl; repeat wp_step; [done|].
    eapply wp_mono; [apply IH|]. intros ? l st' (-> & -> & Hm). done. }
  revert acc st. induction kinds as [|k ks IH]; intros acc st; simpl.
  - wp_step. eexists. split_and!; [done|constructor|done|]. intros ts [= <-]. exists []. rewrite app_nil_r.
    split; [done|constructor].
  - wp_step. wp_step. wp_step. wp_step. destruct a as [e|items]; wp_step.
    + eapply wp_mono; [apply Hstuck|]. intros ? l st' (-> & -> & ->). simpl. eexists.
      split_and!; [done| |done|done]. repeat constructor.
    + eapply wp_mono; [apply IH|]. intros ? l st' (r & -> & Hl & Hm & Hts). simpl in *. eexists.
      split_and!; [done|by constructor|done|]. intros ts Hr. destruct (Hts ts Hr) as (ts' & -> & Hlist).
      eexists. rewrite <- app_assoc. split; [done|]. by constructor.
Qed.

Lemma resolveTargets_spec policy (st : St W) :
  wp (resolveTargets policy) st (λ o l st',
    ∃ r, o = Val r ∧ Forall is_list l ∧ mem st' = mem st ∧
      ∀ ts, r = inr ts → listing (Namespace (p_Meta policy)) (Kinds (SpecTarget (p_Spec policy))) l ts ∧
                         Z.of_nat (length ts) <= max_resources policy).
Proof.
  unfold resolveTargets. destruct (LabelSelectorAsSelector _) as [e|sel].
  - wp_step. eexists. split_and!; [done|constructor|done|done].
  - wp_step. eapply wp_mono; [apply list_kinds_spec|]. intros ? l st' (r & -> & Hl & Hm & Hts).
    fold (max_resources policy). destruct r as [e|ts].
    + wp_step. rewrite app_nil_r. eexists. by split_and!.
    + destruct (Hts ts) as (ts' & Heq & Hlist); [done|]. simpl in Heq. subst ts'.
      case_decide; wp_step; rewrite app_nil_r; eexists; (split_and!; [done..|]); [done|].
      intros ? [= <-]. split; [done|lia].
Qed.

Lemma forward_trigger_spec guard audit (st : St W) :
  wp (forward_trigger sink guard audit) st (λ o l st', o = Val tt ∧ Forall is_sink l ∧ mem st' = mem st).
Proof.
  unfold forward_trigger. destruct sink as [s|]; [destruct guard|]; repeat wp_step; simpl;
    split_and!; try done; by repeat constructor.
Qed.

Lemma Recorded_same policy key m m2 now targets results tail o m' :
  same_window m2 m → Recorded exec policy key m now targets results tail o m' →
  Recorded exec policy key m2 now targets results tail o m'.
Proof.
  destruct m, m2. intros [Hw Hc] Hrec. simpl in *. subst.
  destruct Hrec; [by apply rec_ungated|by apply rec_gate_failed|by eapply rec_gate_opened].
Qed.

Lemma limiter_Observe_spec ns name now (st : St W) (Q : outcome () → list IOEvent → St W → Prop) :
  Q (Val tt) [] (mkSt (world st) (mkMem (crossedAt (mem st)) (bump (cache_key ns name) now (cache (mem st)))
                                    (metrics (mem st))) (log st)) →
  wp (limiter_Observe ns name now) st Q.
Proof. intros HQ. unfold limiter_Observe. by wp_step. Qed.

(** The record depends on the policy's metadata and metric value only. *)
Ltac as_policy policy :=
  repeat match goal with
         | |- context [new_audit ?p _ _ _] => progress change (new_audit p) with (new_audit policy)
         | |- context [new_gate ?p _ _ _] => progress change (new_gate p) with (new_gate policy)
         end.

Lemma trigger_ungated_spec policy key now results targets (st : St W) :
  GateIndex policy < 0 → PendingGateRef (p_Status policy) = EmptyString →
  wp (trigger_ungated exec sink (set_TriggerCount policy (int32 (TriggerCount (p_Status policy) + 1))) key now
        (pollIntervalOrDefault policy) results) st
     (λ o l st', Recorded exec policy key (mem st) now targets results l o (mem st')).
Proof.
  intros Hg Href. unfold trigger_ungated, writeAudit. repeat wp_step. destruct a as [e|audit].
  - wp_go. apply requeue_spec. intros r ? l'. simpl.
    as_policy policy.
    change ([?a; ?b]) with (a :: [] ++ [b]). by apply rec_ungated.
  - wp_step. eapply wp_mono; [apply forward_trigger_spec|]. intros ? ls st1 (-> & Hls & Hm1). simpl.
    repeat wp_step. apply limiter_Observe_spec. wp_go. apply requeue_spec. intros r ? l'.
    simpl. rewrite !app_nil_r. rewrite Hm1. as_policy policy. by apply rec_ungated.
Qed.

Lemma trigger_gated_spec policy key now results targets (st : St W) :
  0 <= GateIndex policy → PendingGateRef (p_Status policy) = EmptyString →
  wp (trigger_gated exec sink (set_TriggerCount policy (int32 (TriggerCount (p_Status policy) + 1))) key now
        (pollIntervalOrDefault policy) (GateIndex policy) targets results) st
     (λ o l st', Recorded exec policy key (mem st) now targets results l o (mem st')).
Proof.
  intros Hg Href. unfold trigger_gated, writeGatedAudit. repeat wp_step. destruct a as [e|audit].
  - wp_go. apply requeue_spec. intros r ? l'. simpl.
    as_policy policy.
    change ([?a; ?b]) with ([a] ++ [b]). apply rec_gate_failed; try done. left. by eexists.
  - repeat wp_step. destruct a as [e|audit'].
    + wp_go. apply requeue_spec. intros r ? l'. simpl.
      as_policy policy.
      change ([?a; ?b; ?c]) with ([a; b] ++ [c]). apply rec_gate_failed; try done. right. by eexists _, _.
    + wp_step. eapply wp_mono; [apply forward_trigger_spec|]. intros ? ls st1 (-> & Hls & Hm1). simpl.
      repeat wp_step. apply limiter_Observe_spec. repeat wp_step. apply setCondition_spec. intros cs ?.
      wp_go. apply requeue_spec. intros r ? l'.
      simpl. rewrite !app_nil_r. rewrite Hm1. as_policy policy. by apply rec_gate_opened.
Qed.

Lemma trigger_spec ctx policy key now (st : St W) :
  State (p_Status policy) = StateWatching → PendingGateRef (p_Status policy) = EmptyString →
  wp (trigger exec sink ctx policy key now (pollIntervalOrDefault policy)) st
     (λ o l st', Triggered exec policy key (mem st) now l o (mem st')).
Proof.
  intros Hstate Href. unfold trigger. wp_step. eapply wp_mono; [apply resolveTargets_spec|].
  intros ? lists st1 (r & -> & Hl & Hm1 & Hts). destruct r as [e|resolved].
  - wp_step. apply setCondition_spec. intros cs ?. apply requeue_spec. intros r ? l'. simpl.
    apply trig_refused; simpl; try done. by rewrite Hm1.
  - destruct (Hts resolved eq_refl) as [Hlist Hmax].
    wp_step. fold (run_to policy). fold (act_on (Namespace (p_Meta policy)) resolved).
    apply (wp_keeps _ _ _ (Keeps_run_targets _ _ _ _ _ _ _)).
    eapply wp_mono; [apply (wp_conj _ _ _ _ (Emits_run_targets _ _ _ _ _ _ _ _) (run_targets_spec _ Hexec _ _ _ _ _ _ _))|].
    intros ? runs st2 [Hruns (results & runErr & -> & Hran)] [Hw Hc]. repeat wp_step.
    assert (∀ o tail m',
      Recorded exec policy key (mkMem (crossedAt (mem st2)) (cache (mem st2))
         (RecordTriggerMetric (Namespace (p_Meta policy)) (metrics (mem st2))))
         now (act_on (Namespace (p_Meta policy)) resolved) results tail o m' →
      Triggered exec policy key (mem st) now (lists ++ runs ++ [] ++ tail) o m') as Hdone.
    { intros o tail m' Hrec. apply trig_ran with resolved results; try done.
      eapply Recorded_same; [|done]. rewrite Hm1 in Hw, Hc. by split. }
    case_decide.
    + eapply wp_mono; [apply trigger_gated_spec; [lia|done]|]. intros o tail st' Hrec. by apply Hdone.
    + eapply wp_mono; [apply (trigger_ungated_spec _ _ _ _ (act_on (Namespace (p_Meta policy)) resolved)); [lia|done]|]. intros o tail st' Hrec. by apply Hdone.
Qed.

(** Each stage of the reconciler takes the policy [p'] the earlier stages
    left and concludes about the policy [policy] that was read. *)
Section Stages.
Variable policy : ReactivePolicy.
Variable key : string.
Variable m : Mem.
Variable now : Time.

Record same_so_far (p' : ReactivePolicy) : Prop := {
  ss_derived : derived policy p';
  ss_last : LastTriggeredAt (p_Status p') = LastTriggeredAt (p_Status policy);
  ss_count : TriggerCount (p_Status p') = TriggerCount (p_Status policy) }.

Definition stage_post (R : list IOEvent → verdict → Prop)
    (o : outcome (CtrlResult * option error)) (l : list IOEvent) (st' : St W) : Prop :=
  ∃ ev v tail, l = ev ++ tail ∧ R ev v ∧ Concluded exec policy key m now v tail o (mem st').

Lemma same_poll p' : derived policy p' → pollIntervalOrDefault p' = pollIntervalOrDefault policy.
Proof. unfold pollIntervalOrDefault. by intros [_ ->]. Qed.

Lemma stage_trigger ctx p2 (st : St W) :
  derived policy p2 → State (p_Status p2) = StateWatching → PendingGateRef (p_Status p2) = EmptyString →
  wp (trigger exec sink ctx p2 key now (pollIntervalOrDefault policy)) st
     (λ o l st', Triggered exec p2 key (mem st) now l o (mem st')).
Proof. intros Hd ? ?. rewrite <- (same_poll p2 Hd). by apply trigger_spec. Qed.

(** Ending a stage with a status write of [p']. *)
Lemma settle (R : list IOEvent → verdict → Prop) p' after ev v (st : St W) :
  v ≠ Sustained → R ev v → same_so_far p' →
  State (p_Status p') = verdict_state policy v →
  PendingGateRef (p_Status p') = verdict_gate_ref policy v →
  LastEvaluatedAt (p_Status p') = verdict_evaluated policy now v →
  after = verdict_requeue policy v →
  crossedAt (mem st) = verdict_window key m now v →
  wp (requeue p' after) st (λ o l st', stage_post R o (ev ++ l) st').
Proof.
  intros Hv HR [Hd Hl Hc] Hs Hg He -> Hw. apply requeue_spec. intros r w l'.
  exists ev, v, [IoStatusUpdatePolicy p' r]. split_and!; [done|done|]. constructor; [done|].
  exists p', r. by split_and!.
Qed.

Lemma evaluate_spec ctx p' (st : St W) :
  same_so_far p' → PendingGateRef (p_Status p') = EmptyString → crossedAt (mem st) = crossedAt m →
  wp (evaluate prometheus exec sink ctx p' key now (pollIntervalOrDefault policy)) st
     (stage_post (Evaluated prometheus policy key m now)).
Proof.
  intros Hss Href Hw. pose proof (ss_derived _ Hss) as [Hmeta Hspec].
  assert (∀ vd ev p2 (st2 : St W), vd ≠ Sustained → Evaluated prometheus policy key m now ev vd →
    verdict_requeue policy vd = pollIntervalOrDefault policy →
    same_so_far p2 → State (p_Status p2) = verdict_state policy vd → PendingGateRef (p_Status p2) = verdict_gate_ref policy vd →
    LastEvaluatedAt (p_Status p2) = verdict_evaluated policy now vd → crossedAt (mem st2) = verdict_window key m now vd →
    wp (requeue p2 (pollIntervalOrDefault policy)) st2
       (λ o l st', stage_post (Evaluated prometheus policy key m now) o (ev ++ l) st')) as Hend.
  { intros vd ev p2 st2 ? ? Hq ? ? ? ? ?. rewrite <- Hq. by apply (settle _ _ _ ev vd). }
  unfold evaluate. rewrite Hmeta, Hspec. wp_go. apply setCondition_spec. intros ? ?. simpl.
  destruct (prometheus _ _) as [e|c] eqn:Hprom.
  { wp_go. apply setCondition_spec. intros ? ?. wp_go. apply setCondition_spec. intros ? ?. simpl.
    apply (Hend ClientError []); try done; [by econstructor|by destruct Hss]. }
  wp_go. unfold CallQuery. wp_go. destruct a as [e|v].
  { wp_go. apply setCondition_spec. intros ? ?. wp_go. apply setCondition_spec. intros ? ?. simpl.
    apply (Hend QueryError [_]); try done; [by econstructor|by destruct Hss|]. simpl. by rewrite Hw. }
  wp_go. apply setCondition_spec. intros ? ?. simpl.
  destruct (ParseThreshold _) as [e|thr] eqn:Hthr.
  { wp_go. apply setCondition_spec. intros ? ?. simpl.
    apply (Hend BadThreshold [_]); try done; [by econstructor|by destruct Hss]. }
  wp_go. apply setCondition_spec. intros ? ?. wp_go. simpl.
  rewrite Hw. destruct (Compare v thr _) eqn:Hcross.
  2: { unfold SlidingWindow.Observe at 1. wp_go. apply setCondition_spec. intros ? ?. simpl.
       apply (Hend Within [_]); try done; [by econstructor|by destruct Hss]. }
  destruct (SlidingWindow.Observe (crossedAt m) key true now) as [d w'] eqn:Hobs.
  wp_go. apply setCondition_spec. intros ? ?. simpl. case_bool_decide as Hd.
  - eapply wp_mono; [apply stage_trigger; [by destruct Hss|done|done]|].
    intros o l st' Htrig. eexists [_], Sustained, l. split_and!; [done| |].
    + eapply ev_sustained; [done..|]. unfold crossed_for. rewrite Hobs. simpl. lia.
    + eapply con_triggered; [..|exact Htrig]; try by destruct Hss. unfold verdict_window. by rewrite Hobs.
  - apply (Hend Counting [_]); try done; [|by destruct Hss|unfold verdict_window; by rewrite Hobs].
    eapply ev_counting; [done..|]. unfold crossed_for. rewrite Hobs. simpl. lia.
Qed.

Lemma gate2_spec ctx p' (st : St W) :
  same_so_far p' → PendingGateRef (p_Status p') = EmptyString → mem st = m →
  State (p_Status p') = State (p_Status policy) →
  LastEvaluatedAt (p_Status p') = LastEvaluatedAt (p_Status policy) →
  wp (gate2 prometheus exec sink ctx p' key now (pollIntervalOrDefault policy)) st
     (stage_post (Limited prometheus policy key m now)).
Proof.
  intros Hss Href Hm Hstate Heval. pose proof (ss_derived _ Hss) as [Hmeta Hspec].
  unfold gate2, Allowed, maxTriggersOrDefault. rewrite Hmeta, Hspec. fold (maxTriggersOrDefault policy).
  wp_go. eapply wp_mono; [apply limiter_count_spec|].
  intros ? c st1 (n & -> & Hcount & Hw). rewrite Hm in Hcount, Hw. destruct n as [e|n].
  { wp_go. rewrite app_nil_r. apply (settle _ _ _ c LimitError); try done. by eapply lim_error. }
  wp_go. case_bool_decide as Hn.
  - wp_go. eapply wp_mono; [by apply evaluate_spec|]. intros o l st' (ev & v & tail & -> & Hev & Hcon).
    exists (c ++ ev), v, tail. rewrite app_nil_r, <- app_assoc. split_and!; [done| |done]. by eapply lim_allowed.
  - wp_go. apply setCondition_spec. intros ? ?. wp_go. apply setCondition_spec. intros ? ?. simpl.
    rewrite app_nil_r. apply (settle _ _ _ c OverLimit); try done; [|by destruct Hss].
    eapply lim_over; [done|lia].
Qed.

Lemma gate1_spec ctx p' (st : St W) :
  same_so_far p' → PendingGateRef (p_Status p') = EmptyString → mem st = m →
  State (p_Status p') = State (p_Status policy) →
  LastEvaluatedAt (p_Status p') = LastEvaluatedAt (p_Status policy) →
  wp (gate1 prometheus exec sink ctx p' key now (pollIntervalOrDefault policy)) st
     (stage_post (CooledDown prometheus policy key m now)).
Proof.
  intros Hss Href Hm Hstate Heval. pose proof (ss_derived _ Hss) as [Hmeta Hspec].
  assert (cooldownOrDefault p' = cooldownOrDefault policy) as Hcd by (unfold cooldownOrDefault; by rewrite Hspec).
  assert ((∀ last, LastTriggeredAt (p_Status policy) = Some last → cooldownOrDefault policy <= time_Sub now last) →
    wp (gate2 prometheus exec sink ctx p' key now (pollIntervalOrDefault policy)) st
       (stage_post (CooledDown prometheus policy key m now))) as Hgo.
  { intros Hcool. eapply wp_mono; [by apply gate2_spec|]. intros o l st' (ev & v & tail & -> & Hev & Hcon).
    exists ev, v, tail. split_and!; [done|by apply cool_ready|done]. }
  unfold gate1. rewrite Hcd. destruct (LastTriggeredAt (p_Status p')) as [last|] eqn:Hlast.
  - pose proof (ss_last _ Hss) as Hl. rewrite Hlast in Hl. case_decide.
    + wp_go. apply setCondition_spec. intros ? ?. simpl.
      apply (settle _ _ _ [] (Cooling (int64 (cooldownOrDefault policy - time_Sub now last)))); try done.
      * by apply cool_cooling.
      * by destruct Hss.
      * simpl. congruence.
    + apply Hgo. intros ? Hl'. rewrite <- Hl in Hl'. simplify_eq. lia.
  - apply Hgo. intros ? Hl'. pose proof (ss_last _ Hss). congruence.
Qed.
Lemma gate0_spec ctx (st : St W) :
  mem st = m →
  wp (gate0 prometheus exec sink ctx policy key now (pollIntervalOrDefault policy)) st
     (stage_post (Gated prometheus policy key m now)).
Proof.
  intros Hm. assert (same_so_far policy) as Hself by done. unfold gate0. case_decide as Href.
  - unfold gateStillOpen. wp_go. destruct a as [e|audit].
    + case_decide as Hnf.
      * wp_go. apply setCondition_spec. intros ? ?. simpl.
        eapply wp_mono; [by apply gate1_spec|]. intros o l st' (ev & v & tail & -> & Hev & Hcon).
        eexists (_ :: ev), v, tail. split_and!; [done| |done]. by eapply gate_closed.
      * wp_go. simpl. apply (settle _ _ _ [_] GateError); try done; [by eapply gate_error|by rewrite Hm].
    + wp_go. case_bool_decide as Hopen.
      * wp_go. apply setCondition_spec. intros ? ?. wp_go. apply setCondition_spec. intros ? ?. simpl.
        apply (settle _ _ _ [_] GateOpen); try done; [by eapply gate_open|by rewrite Hm].
      * wp_go. apply setCondition_spec. intros ? ?. simpl.
        eapply wp_mono; [by apply gate1_spec|]. intros o l st' (ev & v & tail & -> & Hev & Hcon).
        eexists (_ :: ev), v, tail. split_and!; [done| |done]. by eapply gate_closed.
  - eapply wp_mono; [by apply gate1_spec|].
    intros o l st' (ev & v & tail & -> & Hev & Hcon). exists ev, v, tail. split_and!; [done| |done].
    by eapply gate_none.
Qed.

End Stages.

(** Every run of [Reconcile] is one the relations allow. *)
Lemma policy_Reconcile_wp ctx req (st : St W) :
  wp (Reconcile prometheus exec sink ctx req) st (λ o l st', Reconciled prometheus exec req (mem st) l o (mem st')).
Proof.
  unfold Reconcile. wp_go. destruct a as [e|policy].
  - case_decide; wp_go; simpl; [by apply rcd_gone|by apply rcd_error].
  - wp_go. eapply wp_mono; [by apply gate0_spec|]. simpl.
    intros o l st' (ev & v & tail & -> & Hev & Hcon). by eapply rcd_known.
Qed.

End Steps.

(** ** Reading a reconciliation backwards: what an execution shows *)

Lemma is_list_no_plugin l : Forall is_list l → Forall no_plugin l.
Proof. intros Hl. eapply Forall_impl; [exact Hl|]. by intros []. Qed.
Lemma is_sink_no_plugin l : Forall is_sink l → Forall no_plugin l.
Proof. intros Hl. eapply Forall_impl; [exact Hl|]. by intros []. Qed.

(** The reads of a gate. *)
Definition is_read (e : IOEvent) : Prop :=
  match e with IoGetAudit _ _ | IoListAudits _ _ _ _ | IoQuery _ _ => True | _ => False end.
Lemma is_read_no_plugin l : Forall is_read l → Forall no_plugin l.
Proof. intros Hl. eapply Forall_impl; [exact Hl|]. by intros []. Qed.

Lemma no_plugin_quiet l : Forall no_plugin l → executed l = [] ∧ reversed l = [].
Proof.
  intros Hl. split; [apply executed_nil|apply reversed_nil];
    (eapply Forall_impl; [exact Hl|]); [apply no_plugin_not_execute|apply no_plugin_not_reverse].
Qed.

Section Backwards.
Context {W : Type} `{Cluster W} `{LocalZone} `{DetailsCodec}.
Variable prometheus : Factory W.
Variable exec : Registry W.

(** The evidence a trigger rests on. *)
Record Due (policy : ReactivePolicy) (key : string) (m : Mem) (now : Time) (l : list IOEvent) : Prop := {
  due_gate : PendingGateRef (p_Status policy) = EmptyString ∨
             ∃ r, IoGetAudit (gate_ref policy) r ∈ l ∧ shows_closed r;
  due_cooldown : ∀ last, LastTriggeredAt (p_Status policy) = Some last →
                         cooldownOrDefault policy <= time_Sub now last;
  due_limit : ∃ c n, Counted policy m now c (inr n) ∧ (∀ e, e ∈ c → e ∈ l) ∧ n < maxTriggersOrDefault policy;
  due_metric : ∃ v thr, IoQuery (Query (ObserveSpec (p_Spec policy))) (inr v) ∈ l ∧
                        ParseThreshold (Threshold (ObserveSpec (p_Spec policy))) = inr thr ∧
                        Compare v thr (Operator (ObserveSpec (p_Spec policy))) = true;
  due_sustained : ObsDuration (ObserveSpec (p_Spec policy)) <= crossed_for key m now }.

Lemma Counted_reads policy m now c r : Counted policy m now c r → Forall is_read c.
Proof. destruct 1; repeat constructor. Qed.

Lemma Gated_reads policy key m now ev v : Gated prometheus policy key m now ev v → Forall is_read ev.
Proof.
  assert (∀ ev v, Evaluated prometheus policy key m now ev v → Forall is_read ev) as He
    by (destruct 1; repeat constructor).
  assert (∀ ev v, Limited prometheus policy key m now ev v → Forall is_read ev) as Hl.
  { destruct 1; try by eapply Counted_reads. apply Forall_app. eauto using Counted_reads. }
  assert (∀ ev v, CooledDown prometheus policy key m now ev v → Forall is_read ev) as Hc
    by (destruct 1; [constructor|eauto]).
  destruct 1; eauto; repeat constructor. eauto.
Qed.

Lemma Gated_due policy key m now ev : Gated prometheus policy key m now ev Sustained → Due policy key m now ev.
Proof.
  assert (∀ ev, Limited prometheus policy key m now ev Sustained →
    (∃ c n, Counted policy m now c (inr n) ∧ (∀ e, e ∈ c → e ∈ ev) ∧ n < maxTriggersOrDefault policy) ∧
    (∃ v thr, IoQuery (Query (ObserveSpec (p_Spec policy))) (inr v) ∈ ev ∧
       ParseThreshold (Threshold (ObserveSpec (p_Spec policy))) = inr thr ∧
       Compare v thr (Operator (ObserveSpec (p_Spec policy))) = true) ∧
    ObsDuration (ObserveSpec (p_Spec policy)) <= crossed_for key m now) as Hlim.
  { intros ev0 Hl. inversion Hl as [| |c n ev1 v Hc Hn Hev]; subst. inversion Hev; subst. split_and!.
    - exists c, n. split_and!; [done| |done]. intros e He. apply elem_of_app. by left.
    - eexists _, _. split_and!; [|done|done]. apply elem_of_app. right. left.
    - done. }
  inversion 1 as [| |? ? Href Hcool|r l' ? Href Hcl Hcool]; subst;
    inversion Hcool as [|? ? Hready Hl]; subst; destruct (Hlim _ Hl) as (Hcount & (v & thr & Hv & ? & ?) & ?).
  - split; eauto 6.
  - destruct Hcount as (c & n & Hc & Hin & Hn). split; [|done| | |done].
    + right. exists r. split; [left|done].
    + exists c, n. split_and!; [done| |done]. intros e He. right. by apply Hin.
    + exists v, thr. split_and!; [by right|done|done].
Qed.

Lemma Recorded_no_plugin p key m now targets results tail o m' :
  Recorded exec p key m now targets results tail o m' → Forall no_plugin tail.
Proof.
  destruct 1 as [? sinks ? ? ? ? Hs|writes ? ? ? ? Hw|? ? sinks ? ? ? ? Hs].
  - constructor; [done|]. apply Forall_app. split; [by apply is_sink_no_plugin|repeat constructor].
  - apply Forall_app. split; [|repeat constructor]. destruct Hw as [(e & ->)|(a & e & ->)]; repeat constructor.
  - do 2 (constructor; [done|]). apply Forall_app. split; [by apply is_sink_no_plugin|repeat constructor].
Qed.

Lemma listing_lists ns ks l ts : listing ns ks l ts → Forall is_list l.
Proof. induction 1; by constructor. Qed.

(** A run in which the pipeline ran: a due trigger, recorded. *)
Inductive Fired (req : NamespacedName) (m : Mem) (policy : ReactivePolicy) (now : Time)
  : list IOEvent → list IOEvent → outcome (CtrlResult * option error) → Mem → Prop :=
| fired ev p1 m1 lists resolved runs results tail o m' :
    Due policy (nn_String req) (tracked_mem policy m) now ev →
    Forall is_read ev →
    derived policy p1 →
    LastTriggeredAt (p_Status p1) = LastTriggeredAt (p_Status policy) →
    TriggerCount (p_Status p1) = TriggerCount (p_Status policy) →
    listing (Namespace (p_Meta policy)) (Kinds (SpecTarget (p_Spec policy))) lists resolved →
    Z.of_nat (length resolved) <= max_resources policy →
    Forall is_run runs →
    targets_ran exec p1 (CurrentMetricValue (p_Status p1)) 0 (run_to policy)
      (act_on (Namespace (p_Meta policy)) resolved) results (executed runs) (reversed runs) →
    Recorded exec p1 (nn_String req) m1 now (act_on (Namespace (p_Meta policy)) resolved) results tail o m' →
    Fired req m policy now (IoGetPolicy req (inr policy) :: IoNow now :: ev ++ lists ++ runs ++ tail) runs o m'.

Lemma derived_same policy p1 :
  derived policy p1 →
  run_to p1 = run_to policy ∧ max_resources p1 = max_resources policy ∧ p_Meta p1 = p_Meta policy ∧
  p_Spec p1 = p_Spec policy ∧ GateIndex p1 = GateIndex policy.
Proof. intros [Hm Hs]. unfold run_to, max_resources, GateIndex. by rewrite Hm, Hs. Qed.

(** A reconciliation of a policy calls no plugin, or it fired. *)
Lemma Reconciled_cases req m l o m' :
  Reconciled prometheus exec req m l o m' →
  Forall no_plugin l ∨ ∃ policy now runs, Fired req m policy now l runs o m'.
Proof.
  destruct 1 as [| |policy now ev v tail o m' Hg Hcon]; try (left; by repeat constructor).
  pose proof (Gated_reads _ _ _ _ _ _ Hg) as Hev.
  assert (Forall no_plugin tail → Forall no_plugin (IoGetPolicy req (inr policy) :: IoNow now :: ev ++ tail)) as Hquiet.
  { intros Ht. do 2 (constructor; [done|]). apply Forall_app. split; [by apply is_read_no_plugin|done]. }
  destruct Hcon as [v tail o m' Hv (p' & r & -> & _)|p1 m1 tail o m' Hd Hlast Hcount _ Htrig].
  { left. apply Hquiet. by repeat constructor. }
  destruct (derived_same _ _ Hd) as (Hrun & Hmax & Hmeta & Hspec & _).
  destruct Htrig as [lists p' r m'' Hl|lists resolved runs results tail o m'' Hlist Hle Hruns Hran Hrec].
  - left. apply Hquiet. apply Forall_app. split; [by apply is_list_no_plugin|by repeat constructor].
  - right. rewrite Hrun, Hmeta, Hspec, Hmax in *. exists policy, now, runs. eapply fired; eauto using Gated_due.
Qed.
End Backwards.
