(* ===== verification/RateCap.v ===== *)
(** * The hourly cap holds over time

    Whole reconciliations of a policy, from whatever the cache and the crossing
    times hold, interleaved with waiting, deletions of records, restarts that
    lose the memory, and work on other objects.  The only store law is the
    ledger's: a LIST reads the policy's records and a Create that succeeds adds
    one.  Whatever the interleaving, the records of the trailing hour never
    exceed the cap, as long as every phase write of a new gate succeeds (after
    a failed one the trigger is not counted). *)

From S2P Require Import Prelude GoLib FloatLib GoTime Api ActionTypes Metrics Effects Logic Evaluator Limiter Registry Executor AuditWriter PolicyController Fake PolicySpec.

(** ** Counting trigger times *)

Definition since (cutoff : Time) (ts : list Time) : Z := count (λ t, time_After t cutoff) ts.

Lemma since_recent cutoff l : count (recent cutoff) l = since cutoff ((λ a, TriggeredAt (a_Spec a)) <$> l).
Proof. unfold since. induction l as [|a l IH]; [done|]. simpl. by rewrite !count_cons, IH. Qed.

Lemma since_perm cutoff ts ts' : ts ≡ₚ ts' → since cutoff ts = since cutoff ts'.
Proof. intros Hp. unfold since, count. by rewrite Hp. Qed.

Lemma since_submseteq cutoff ts ts' : ts ⊆+ ts' → since cutoff ts <= since cutoff ts'.
Proof.
  intros (k & Hp)%submseteq_Permutation. rewrite (since_perm _ _ _ Hp). unfold since. rewrite count_app.
  pose proof (count_nonneg (λ t, time_After t cutoff) k). lia.
Qed.

(** A later cutoff leaves fewer. *)
Lemma since_later cutoff cutoff' ts : cutoff <= cutoff' → since cutoff' ts <= since cutoff ts.
Proof. intros Hc. apply count_mono. unfold time_After. intros. lia. Qed.

Lemma since_cons cutoff t ts : since cutoff (t :: ts) = (if decide (time_After t cutoff) then 1 else 0) + since cutoff ts.
Proof. unfold since. by rewrite count_cons. Qed.

(** ** The stored records, seen through the API *)

(** The trigger times of a policy's records.  A LIST reads them all; a Create
    that succeeds adds its own; no other call adds one: the operator is the
    only creator of a policy's records.  Every call may see records gone that
    others deleted. *)
Class AuditLedger (W : Type) `{Cluster W} : Type := {
  ledger : string → string → W → list Time;
  ledger_list : ∀ ns name w r w', cl_ListAudits ns LabelPolicy name w = (r, w') →
    ledger ns name w' = ledger ns name w ∧
    ∀ l, r = inr l → (λ a, TriggeredAt (a_Spec a)) <$> l ≡ₚ ledger ns name w;
  ledger_create : ∀ ns name a w r w', cl_CreateAudit a w = (r, w') →
    Namespace (a_Meta a) = ns → Labels (a_Meta a) !! LabelPolicy = Some name →
    ledger ns name w' ≡ₚ (match r with
                          | inr _ => TriggeredAt (a_Spec a) :: ledger ns name w
                          | inl _ => ledger ns name w
                          end);
  ledger_Now : ∀ ns name w, ledger ns name (sys_Now w).2 ⊆+ ledger ns name w;
  ledger_GetPolicy : ∀ ns name k w, ledger ns name (cl_GetPolicy k w).2 ⊆+ ledger ns name w;
  ledger_GetAudit : ∀ ns name k w, ledger ns name (cl_GetAudit k w).2 ⊆+ ledger ns name w;
  ledger_ListObjects : ∀ ns name n v k s w, ledger ns name (cl_ListObjects n v k s w).2 ⊆+ ledger ns name w;
  ledger_StatusUpdateAudit : ∀ ns name a w, ledger ns name (cl_StatusUpdateAudit a w).2 ⊆+ ledger ns name w;
  ledger_StatusUpdatePolicy : ∀ ns name p w, ledger ns name (cl_StatusUpdatePolicy p w).2 ⊆+ ledger ns name w;
  ledger_SetStatusCondition : ∀ ns name cs c w, ledger ns name (meta_SetStatusCondition cs c w).2 ⊆+ ledger ns name w }.

Create HintDb ledger discriminated.
#[export] Hint Resolve ledger_Now ledger_GetPolicy ledger_GetAudit ledger_ListObjects ledger_StatusUpdateAudit
  ledger_StatusUpdatePolicy ledger_SetStatusCondition : ledger.

(** A call by other code that creates no audit records. *)
Definition no_records {W} `{AuditLedger W} {A} (op : W → A * W) : Prop :=
  ∀ ns name w, ledger ns name (op w).2 ⊆+ ledger ns name w.

(** Every write of an audit record's phase succeeded. *)
Definition phases_written (l : list IOEvent) : Prop := ∀ a e, IoStatusUpdateAudit a (inl e) ∉ l.

Section RateCap.
Context {W : Type} `{AuditLedger W} `{LocalZone} `{DetailsCodec}.
Variable prometheus : Factory W.
Variable exec : Registry W.
Variable sink : option (Sink W).

Hypothesis exec_ok : registry_ok exec.

(** The operator's collaborators create no records. *)
Hypothesis exec_quiet : ∀ n p, exec !! n = Some p →
  (∀ ctx inp, no_records (pl_Execute p ctx inp)) ∧ (∀ ctx prev, no_records (pl_Reverse p ctx prev)).
Hypothesis prometheus_quiet : ∀ ep opts c, prometheus ep opts = inr c → ∀ q, no_records (pc_Query c q).
Hypothesis sink_quiet : ∀ s, sink = Some s → ∀ evs, no_records (RecordTrigger s evs).

Variables (ns name : string) (max : Z).

(** The clock and the operator's state. *)
Record sys : Type := mkSys { clock : Time; operator : St W }.

Definition cached (s : sys) : option limiterEntry := cache (mem (operator s)) !! cache_key ns name.
Definition triggers (s : sys) : list Time := ledger ns name (world (operator s)).

Inductive step : sys → sys → Prop :=
| step_wait now now' st : now <= now' → step (mkSys now st) (mkSys now' st)
(** Another actor, or the operator busy with other objects: records of this
    policy may only disappear, its cache entry stays or goes. *)
| step_other now st st' :
    ledger ns name (world st') ⊆+ ledger ns name (world st) →
    (cache (mem st') !! cache_key ns name = cache (mem st) !! cache_key ns name ∨
     cache (mem st') !! cache_key ns name = None) →
    step (mkSys now st) (mkSys now st')
(** A restart: the memory is gone. *)
| step_restart now st : step (mkSys now st) (mkSys now (mkSt (world st) empty_mem (log st)))
(** One reconciliation of the policy, whatever the API server, the metric and
    the plugins answer, except that the phase of a new gate gets written; the
    clock only moves forward, and the policy read is the one asked for, with a
    cap of at most [max]. *)
| step_reconcile now now' ctx st o l st' :
    PolicyController.Reconcile prometheus exec sink ctx (mkNN ns name) st = (o, st') → log st' = log st ++ l →
    now <= now' → (∀ t, IoNow t ∈ l → now <= t <= now') →
    (∀ p, IoGetPolicy (mkNN ns name) (inr p) ∈ l →
       Namespace (p_Meta p) = ns ∧ Name (p_Meta p) = name ∧ maxTriggersOrDefault p <= max) →
    phases_written l →
    step (mkSys now st) (mkSys now' st').

Inductive reachable (s0 : sys) : sys → Prop :=
| reach_init : reachable s0 s0
| reach_step s s' : reachable s0 s → step s s' → reachable s0 s'.

(** Records of the trailing hour. *)
Definition in_last_hour (s : sys) : Z := since (time_Add (clock s) (- Hour)) (triggers s).

Definition capped (s : sys) : Prop :=
  in_last_hour s <= max ∧ ∀ e, cached s = Some e → in_last_hour s <= entry_count e.

(** ** Runs that add no record *)

Definition shrinks (st st' : St W) : Prop :=
  ledger ns name (world st') ⊆+ ledger ns name (world st) ∧
  cache (mem st') !! cache_key ns name = cache (mem st) !! cache_key ns name.

#[local] Instance shrinks_preorder : PreOrder shrinks.
Proof.
  split; [by intros st|]. intros x y z [Hl Hc] [Hl' Hc']. split; [by etrans|congruence].
Qed.

Lemma Shrinks_call {A} (op : W → A * W) ev :
  (∀ w, ledger ns name (op w).2 ⊆+ ledger ns name w) → Respects shrinks (call op ev).
Proof. intros Hop st. apply wp_call. intros a w E. split; [|done]. specialize (Hop (world st)). by rewrite E in Hop. Qed.

Lemma Shrinks_quiet {A} (op : W → A * W) :
  (∀ w, ledger ns name (op w).2 ⊆+ ledger ns name w) → Respects shrinks (quiet op).
Proof. intros Hop st. apply wp_quiet. intros a w E. split; [|done]. specialize (Hop (world st)). by rewrite E in Hop. Qed.

Lemma Shrinks_metrics f : Respects shrinks (modify_metrics (W := W) f).
Proof. intros st. by apply wp_modify_metrics. Qed.

Lemma Shrinks_crossed f : Respects shrinks (modify_crossedAt (W := W) f).
Proof. intros st. by apply wp_modify_crossedAt. Qed.

Ltac shrinks_step :=
  match goal with
  | |- Respects _ (mbind _ _) => apply Respects_bind; [apply _| |intros ?]
  | |- Respects _ (foldM _ _ _) => apply Respects_foldM; [apply _|]; intros ? ?
  | |- Respects _ (mret _) => apply Respects_ret, _
  | |- Respects _ (panic _) => apply Respects_panic, _
  | |- Respects _ (modify_metrics _) => apply Shrinks_metrics
  | |- Respects _ (modify_crossedAt _) => apply Shrinks_crossed
  | |- Respects _ (call _ _) => apply Shrinks_call; intros ?
  | |- Respects _ (quiet _) => apply Shrinks_quiet; intros ?
  | |- Respects _ (if decide _ then _ else _) => case_decide
  | |- Respects _ (match ?x with _ => _ end) => destruct x
  | |- Respects _ ((match ?x with _ => _ end) _) => destruct x
  | |- Respects _ _ => solve [eauto with go]
  | |- Respects _ _ => unfold_calls
  | |- _ ⊆+ _ => solve [eauto with ledger | match goal with H : _ |- _ => apply H end]
  end.
Ltac shrinks_tac := repeat (shrinks_step; simpl).

(** The executor, a status write, the metric and the sink add none. *)
Lemma Shrinks_runOne ctx act target policy mv ts tmpl : Respects shrinks (runOne exec ctx act target policy mv ts tmpl).
Proof.
  unfold runOne, exec_Lookup, Lookup. destruct (exec !! Plugin act) as [p|] eqn:Hp; [|shrinks_tac].
  destruct (exec_quiet _ _ Hp) as [Hx _]. shrinks_tac.
Qed.

Lemma Shrinks_rollback ctx rs : Respects shrinks (rollback exec ctx rs).
Proof.
  unfold rollback. shrinks_tac. induction (reverse rs) as [|r l IH]; simpl; shrinks_tac. unfold rollback_one, Lookup.
  case_decide; [shrinks_tac|]. destruct (exec !! PluginName r) as [p|] eqn:Hp; [|shrinks_tac].
  destruct (exec_quiet _ _ Hp) as [_ Hx]. shrinks_tac.
Qed.

Lemma Shrinks_run_loop ctx policy target mv ts tmpl fuel i results :
  Respects shrinks (run_loop exec ctx policy target mv ts tmpl fuel i results).
Proof.
  revert i results. induction fuel as [|fuel IH]; intros i results; simpl; [shrinks_tac|].
  case_match; [|shrinks_tac]. apply Respects_bind; [apply _|apply Shrinks_runOne|]. intros [res [e|]]; [|apply IH].
  case_decide; [apply IH|]. case_decide; [|shrinks_tac]. apply Respects_bind; [apply _|apply Shrinks_rollback|].
  intros. shrinks_tac.
Qed.

Lemma Shrinks_run_targets ctx policy mv from to targets :
  Respects shrinks (run_targets exec ctx policy mv from to targets).
Proof. pose proof Shrinks_run_loop. unfold run_targets, RunRange. shrinks_tac. Qed.

Lemma Shrinks_resolveTargets policy : Respects shrinks (resolveTargets policy).
Proof. unfold resolveTargets, list_kind. shrinks_tac. Qed.

Lemma Shrinks_requeue policy after : Respects shrinks (requeue policy after).
Proof. unfold requeue. shrinks_tac. Qed.

Lemma Shrinks_gateStillOpen policy : Respects shrinks (gateStillOpen policy).
Proof. unfold gateStillOpen. shrinks_tac. Qed.

Lemma Shrinks_forward guard audit : Respects shrinks (forward_trigger sink guard audit).
Proof.
  pose proof sink_quiet as Hq. unfold forward_trigger. destruct sink as [s|]; [|shrinks_tac].
  specialize (Hq s eq_refl). shrinks_tac.
Qed.

Lemma setCondition_shrinks p ty s r msg (I : St W → Prop) (st : St W) (Q : outcome ReactivePolicy → list IOEvent → St W → Prop) :
  (∀ x y, shrinks x y → I x → I y) → I st →
  (∀ cs l st', I st' → Q (Val (set_Conditions p cs)) l st') → wp (setCondition p ty s r msg) st Q.
Proof.
  intros HI Hst HQ. unfold setCondition. repeat wp_step. apply HQ. eapply HI; [|exact Hst]. split; [|done]. simpl.
  match goal with E : meta_SetStatusCondition ?cs ?c ?w = _ |- _ => pose proof (ledger_SetStatusCondition ns name cs c w) as Hl; by rewrite E in Hl end.
Qed.

(** ** What is known while a reconciliation at [now] runs *)

Section At.
Variable now : Time.

Definition recent_records (st : St W) : Z := since (time_Add now (- Hour)) (ledger ns name (world st)).

(** The cached count is at most [slack] below the real one. *)
Definition counted (slack : Z) (st : St W) : Prop :=
  ∀ e, cache (mem st) !! cache_key ns name = Some e → recent_records st <= entry_count e + slack.

(** Before the limiter was asked, and at the end; after it allowed a trigger;
    after the record was created and before it was observed. *)
Definition Bound (st : St W) : Prop := recent_records st <= max ∧ counted 0 st.
Definition Ready (st : St W) : Prop := recent_records st < max ∧ counted 0 st.
Definition Created (st : St W) : Prop := recent_records st <= max ∧ counted 1 st.

Lemma recent_records_shrinks st st' : shrinks st st' → recent_records st' <= recent_records st.
Proof. intros [Hl _]. by apply since_submseteq. Qed.

Lemma counted_shrinks slack st st' : shrinks st st' → counted slack st → counted slack st'.
Proof.
  intros Hs Hc e He. pose proof (recent_records_shrinks _ _ Hs). destruct Hs as [_ Hcache]. rewrite Hcache in He.
  specialize (Hc e He). lia.
Qed.

Lemma Bound_shrinks st st' : shrinks st st' → Bound st → Bound st'.
Proof. intros Hs [? ?]. pose proof (recent_records_shrinks _ _ Hs). split; [lia|by eapply counted_shrinks]. Qed.
Lemma Ready_shrinks st st' : shrinks st st' → Ready st → Ready st'.
Proof. intros Hs [? ?]. pose proof (recent_records_shrinks _ _ Hs). split; [lia|by eapply counted_shrinks]. Qed.
Lemma Created_shrinks st st' : shrinks st st' → Created st → Created st'.
Proof. intros Hs [? ?]. pose proof (recent_records_shrinks _ _ Hs). split; [lia|by eapply counted_shrinks]. Qed.
Lemma Ready_Bound st : Ready st → Bound st.
Proof. intros [? ?]. split; [lia|done]. Qed.

(** *** The limiter *)

Lemma limiter_count_known ttl (st : St W) :
  Bound st →
  wp (limiter_count ns name now ttl) st (λ o l st', Bound st' ∧ ∀ n, o = Val (inr n) → recent_records st' <= n).
Proof.
  intros [Hb Hk].
  assert (wp (items ← ListAudits ns LabelPolicy name;
      match items with
      | inl err => mret (inl (wrapf "listing audit records for rate limit: " err))
      | inr l => modify_cache <[cache_key ns name := mkEntry now (count (recent (time_Add now (- Hour))) l)]>;;;
                 mret (inr (count (recent (time_Add now (- Hour))) l))
      end) st (λ o l st', Bound st' ∧ ∀ n, o = Val (inr n) → recent_records st' <= n)) as Hlist.
  { repeat wp_step. match goal with E : cl_ListAudits _ _ _ _ = _ |- _ => destruct (ledger_list _ _ _ _ _ E) as [Heq Hall] end.
    unfold Bound, counted, recent_records in *. destruct a as [e|l]; repeat wp_step; simpl; rewrite Heq.
    - by split_and!.
    - rewrite since_recent, (since_perm _ _ _ (Hall _ eq_refl)), lookup_insert_eq.
      split_and!; [done|intros e [= <-]; simpl; lia|by intros n [= <-]]. }
  unfold limiter_count. repeat wp_step. case_match eqn:Hc; [case_decide|]; try apply Hlist.
  wp_step. split; [done|]. intros n [= <-]. specialize (Hk _ Hc). lia.
Qed.

Lemma Allowed_ready cap ttl (st : St W) :
  Bound st → cap <= max →
  wp (Allowed ns name cap now ttl) st (λ o l st', Bound st' ∧ (o = Val (inr true) → Ready st')).
Proof.
  intros Hb Hcap. unfold Allowed. wp_step. eapply wp_mono; [by apply limiter_count_known|].
  intros [[e|n]|msg] l st' [Hb' Hn]; try wp_step; (split; [done|]); try done.
  intros [= Hlt]. apply bool_decide_eq_true in Hlt. specialize (Hn n eq_refl). destruct Hb'. split; [lia|done].
Qed.

Definition record_of (a : ActionAudit) : Prop :=
  Namespace (a_Meta a) = ns ∧ Labels (a_Meta a) !! LabelPolicy = Some name ∧ TriggeredAt (a_Spec a) = now.

Lemma create_counted a (st : St W) :
  Ready st → record_of a →
  wp (CreateAudit a) st (λ o l st', ∃ r, o = Val r ∧ match r with inr _ => Created st' | inl _ => Ready st' end).
Proof.
  intros [Hb Hk] (Hns & Hname & Ht). repeat wp_step. eexists. split; [done|].
  match goal with E : cl_CreateAudit _ _ = _ |- _ => pose proof (ledger_create _ _ _ _ _ _ E Hns Hname) as Hl end.
  unfold Ready, Created, counted, recent_records in *. simpl. rewrite (since_perm _ _ _ Hl).
  destruct a0 as [e|stored]; [done|]. rewrite since_cons, Ht.
  rewrite decide_True by (unfold time_After, time_Add, Hour; lia). split; [lia|]. intros e He. specialize (Hk e He). lia.
Qed.

Lemma observe_bound (st : St W) : Created st → wp (limiter_Observe ns name now) st (λ o _ st', o = Val tt ∧ Bound st').
Proof.
  intros [Hb Hk]. unfold limiter_Observe. wp_step. split; [done|]. unfold Bound, counted, recent_records in *. simpl.
  split; [done|]. intros e He. case_match eqn:Hc; [|congruence]. rewrite lookup_insert_eq in He. simplify_eq. simpl.
  specialize (Hk _ eq_refl). lia.
Qed.

(** *** The stages *)

Definition kept {A} (o : outcome A) (l : list IOEvent) (st' : St W) : Prop := phases_written l → Bound st'.

Lemma phases_written_app l l' : phases_written (l ++ l') → phases_written l ∧ phases_written l'.
Proof. unfold phases_written. set_solver. Qed.

Lemma kept_app {A} (m : M W A) l st : wp m st kept → wp m st (λ o l' st', kept o (l ++ l') st').
Proof. intros Hm. eapply wp_mono; [exact Hm|]. intros o l' st' Hk Hp. apply Hk. by apply phases_written_app in Hp as [_ ?]. Qed.

Lemma phases_written_cons e l : phases_written (e :: l) → phases_written l.
Proof. unfold phases_written. set_solver. Qed.

(** Drop the part of the log that is already written. *)
Ltac keep_log :=
  apply (wp_mono _ _ kept);
  [|intros ? ? ? Hkept Hphases; apply Hkept;
    repeat first [apply phases_written_app in Hphases as [_ Hphases] | apply phases_written_cons in Hphases];
    exact Hphases].

(** A step that adds no record, then the rest. *)
Lemma kept_bind {A B} (m : M W A) (f : A → M W B) (I : St W → Prop) st :
  Respects shrinks m → (∀ x y, shrinks x y → I x → I y) → (∀ x, I x → Bound x) → I st →
  (∀ a st', I st' → wp (f a) st' kept) → wp (m ≫= f) st kept.
Proof.
  intros Hm HI HB Hst Hf. apply wp_bind. eapply (wp_respects _ m I); [done..|].
  intros [a|msg] l st' HI'; [by apply kept_app, Hf|]. intros _. by apply HB.
Qed.

Lemma kept_end {A} (m : M W A) (I : St W → Prop) st :
  Respects shrinks m → (∀ x y, shrinks x y → I x → I y) → (∀ x, I x → Bound x) → I st → wp m st kept.
Proof. intros Hm HI HB Hst. eapply (wp_respects _ m I); [done..|]. intros o l st' HI' _. by apply HB. Qed.

Definition named (p : ReactivePolicy) : Prop := Namespace (p_Meta p) = ns ∧ Name (p_Meta p) = name.

Lemma new_audit_record p records gate : named p → record_of (new_audit p now records gate).
Proof. intros [Hns Hn]. unfold record_of, new_audit. simpl. rewrite Hns, Hn. by simplify_map_eq. Qed.

(** A created record is observed, whatever the sink answers. *)
Lemma forward_created guard audit (st : St W) (Q : outcome () → list IOEvent → St W → Prop) :
  Created st → (∀ l st', Created st' → Q (Val tt) l st') → wp (forward_trigger sink guard audit) st Q.
Proof.
  intros Hc HQ. eapply wp_mono; [apply (wp_conj _ _ _ _ (Shrinks_forward guard audit st) (forward_trigger_spec sink guard audit st))|].
  intros o l st' (Hs & -> & _). apply HQ. by eapply Created_shrinks.
Qed.

Lemma requeue_kept p after (st : St W) : Bound st → wp (requeue p after) st kept.
Proof. intros Hb. eapply (kept_end _ Bound); [apply Shrinks_requeue|apply Bound_shrinks|done|done]. Qed.

Lemma forget_requeue p key after (st : St W) : Bound st → wp (Window_Forget key;;; requeue p after) st kept.
Proof.
  intros Hb. eapply (kept_bind _ _ Bound); [apply Shrinks_crossed|apply Bound_shrinks|done|done|]. intros _ st' Hb'.
  by apply requeue_kept.
Qed.

Lemma trigger_ungated_kept p key poll results (st : St W) :
  named p → Ready st → wp (trigger_ungated exec sink p key now poll results) st kept.
Proof.
  intros Hp Hr. unfold trigger_ungated, writeAudit. do 3 wp_step.
  eapply wp_mono; [apply create_counted; [done|by apply new_audit_record]|]. intros ? l st1 (r & -> & Hc).
  destruct r as [e|audit].
  - do 3 wp_step. keep_log. apply forget_requeue. by apply Ready_Bound.
  - wp_step. apply forward_created; [done|]. intros ls st2 Hc2. do 2 wp_step.
    destruct Hp as [Hns Hn]. simpl. rewrite Hns, Hn.
    eapply wp_mono; [by apply observe_bound|]. intros ? lo st3 [-> Hb].
    keep_log. by apply forget_requeue.
Qed.

(** The gated branch: a record whose phase could not be written is not
    observed, which [phases_written] excludes. *)
Lemma trigger_gated_kept p key poll gateIdx targets results (st : St W) :
  named p → Ready st → wp (trigger_gated exec sink p key now poll gateIdx targets results) st kept.
Proof.
  intros Hp Hr. unfold trigger_gated, writeGatedAudit. do 3 wp_step.
  eapply wp_mono; [apply create_counted; [done|by apply new_audit_record]|]. intros ? l st1 (r & -> & Hc).
  destruct r as [e|audit].
  - do 3 wp_step. keep_log. apply forget_requeue. by apply Ready_Bound.
  - do 2 wp_step. assert (Created (mkSt w (mem st1) (log st1 ++ [IoStatusUpdateAudit (set_ApprovalPhase audit PhasePending) a]))) as Hc2.
    { eapply Created_shrinks; [|exact Hc]. split; [|done]. simpl.
      match goal with E : cl_StatusUpdateAudit ?x ?y = _ |- _ => pose proof (ledger_StatusUpdateAudit ns name x y) as Hl; by rewrite E in Hl end. }
    destruct a as [e|audit2].
    + do 3 wp_step. eapply (wp_respects shrinks _ (λ _, True)); [|done|done|].
      { apply Respects_bind; [apply _|apply Shrinks_crossed|intros; apply Shrinks_requeue]. }
      intros o l' st' _ Hw. exfalso. apply (Hw (set_ApprovalPhase audit PhasePending) e). set_solver.
    + wp_step. apply forward_created; [done|]. intros ls st2 Hc3. do 2 wp_step.
      destruct Hp as [Hns Hn]. simpl. rewrite Hns, Hn. wp_step.
      eapply wp_mono; [by apply observe_bound|]. intros ? lo st3 [-> Hb]. do 2 wp_step.
      apply (setCondition_shrinks _ _ _ _ _ Bound); [apply Bound_shrinks|done|]. intros cs lc st4 Hb4.
      keep_log. by apply forget_requeue.
Qed.

Lemma trigger_kept ctx p key poll (st : St W) :
  named p → Ready st → wp (trigger exec sink ctx p key now poll) st kept.
Proof.
  intros Hp Hr. unfold trigger.
  eapply (kept_bind _ _ Ready); [apply Shrinks_resolveTargets|apply Ready_shrinks|apply Ready_Bound|done|].
  intros [e|targets] st1 Hr1.
  - wp_step. apply (setCondition_shrinks _ _ _ _ _ Ready); [apply Ready_shrinks|done|]. intros cs l st2 Hr2.
    keep_log. apply requeue_kept. by apply Ready_Bound.
  - eapply (kept_bind _ _ Ready); [apply Shrinks_run_targets|apply Ready_shrinks|apply Ready_Bound|done|].
    intros [results runErr] st2 Hr2.
    eapply (kept_bind _ _ Ready); [apply Shrinks_metrics|apply Ready_shrinks|apply Ready_Bound|done|].
    intros _ st3 Hr3. case_decide; [by apply trigger_gated_kept|by apply trigger_ungated_kept].
Qed.

(** The stages before a trigger: conditions are set, the policy keeps its name. *)
Lemma condition_kept {B} p ty s r msg (f : ReactivePolicy → M W B) (I : St W → Prop) (st : St W) :
  (∀ x y, shrinks x y → I x → I y) → I st →
  (∀ cs st', I st' → wp (f (set_Conditions p cs)) st' kept) →
  wp (setCondition p ty s r msg ≫= f) st kept.
Proof.
  intros HI Hst Hf. wp_step. apply (setCondition_shrinks _ _ _ _ _ I); [done..|]. intros cs l st' Hst'.
  keep_log. by apply Hf.
Qed.


Lemma Shrinks_observe key crossed : Respects shrinks (Window_Observe (W := W) key crossed now).
Proof.
  unfold Window_Observe. apply Respects_bind; [apply _|intros st; by apply wp_get_mem|]. intros m.
  destruct (SlidingWindow.Observe _ _ _ _). shrinks_tac.
Qed.

(** While an invariant that implies [Bound] holds, such a step may be taken. *)
Ltac kept_ready := eapply (kept_bind _ _ Ready);
  [first [apply Shrinks_metrics | apply Shrinks_crossed | apply Shrinks_observe]
  |apply Ready_shrinks|apply Ready_Bound|done|intros ? ? ?].
Ltac condition_ready := apply (condition_kept _ _ _ _ _ _ Ready); [apply Ready_shrinks|done|intros ? ? ?].
Ltac condition_bound := apply (condition_kept _ _ _ _ _ _ Bound); [apply Bound_shrinks|done|intros ? ? ?].

Lemma evaluate_kept ctx p key poll (st : St W) :
  named p → Ready st → wp (evaluate prometheus exec sink ctx p key now poll) st kept.
Proof.
  intros Hp Hr. unfold evaluate. condition_ready.
  destruct (prometheus _ _) as [e|c] eqn:Hprom.
  { kept_ready. do 2 condition_ready. by apply requeue_kept, Ready_Bound. }
  eapply (kept_bind _ _ Ready); [|apply Ready_shrinks|apply Ready_Bound|done|].
  { unfold CallQuery. apply Shrinks_call. intros w. by eapply prometheus_quiet. }
  intros [e|value] st1 Hr1.
  { do 3 kept_ready. do 2 condition_ready. by apply requeue_kept, Ready_Bound. }
  condition_ready. destruct (ParseThreshold _) as [e|thr].
  { kept_ready. condition_ready. by apply requeue_kept, Ready_Bound. }
  condition_ready. do 2 kept_ready. wp_step.
  match goal with |- context [if ?b then setCondition _ _ _ _ _ else _] => destruct b end;
    (apply (setCondition_shrinks _ _ _ _ _ Ready); [apply Ready_shrinks|done|]; intros ? ? ? ?; keep_log).
  all: match goal with |- wp (if ?b then _ else _) _ _ => destruct b end; first [by apply trigger_kept | by apply requeue_kept, Ready_Bound].
Qed.

Lemma gate2_kept ctx p key poll (st : St W) :
  named p → maxTriggersOrDefault p <= max → Bound st →
  wp (gate2 prometheus exec sink ctx p key now poll) st kept.
Proof.
  intros Hp Hcap Hb. unfold gate2. destruct Hp as [Hns Hn]. rewrite Hns, Hn. wp_step.
  eapply wp_mono; [by apply Allowed_ready|]. intros [[e|[]]|msg] l st1 [Hb1 Hr1]; [| | |by intros _].
  - keep_log. by apply requeue_kept.
  - keep_log. apply evaluate_kept; [done|]. by apply Hr1.
  - keep_log. eapply (kept_bind _ _ Bound); [apply Shrinks_metrics|apply Bound_shrinks|done|done|]. intros _ st2 Hb2.
    do 2 condition_bound. by apply requeue_kept.
Qed.

Lemma gate1_kept ctx p key poll (st : St W) :
  named p → maxTriggersOrDefault p <= max → Bound st →
  wp (gate1 prometheus exec sink ctx p key now poll) st kept.
Proof.
  intros Hp Hcap Hb. unfold gate1. case_match; [|by apply gate2_kept]. case_decide; [|by apply gate2_kept].
  condition_bound. by apply requeue_kept.
Qed.

Lemma gate0_kept ctx p key poll (st : St W) :
  named p → maxTriggersOrDefault p <= max → Bound st →
  wp (gate0 prometheus exec sink ctx p key now poll) st kept.
Proof.
  intros Hp Hcap Hb. unfold gate0. case_decide; [|by apply gate1_kept].
  eapply (kept_bind _ _ Bound); [apply Shrinks_gateStillOpen|apply Bound_shrinks|done|done|].
  intros [e|[]] st1 Hb1; [by apply requeue_kept|do 2 condition_bound; by apply requeue_kept|].
  condition_bound. by apply gate1_kept.
Qed.

End At.

(** ** One reconciliation *)

Lemma Bound_later now now' st : now <= now' → Bound now st → Bound now' st.
Proof.
  intros Hle [Hb Hc]. pose proof (since_later (time_Add now (- Hour)) (time_Add now' (- Hour)) (ledger ns name (world st))
    ltac:(unfold time_Add; lia)). unfold Bound, counted, recent_records in *.
  split; [lia|]. intros e He. specialize (Hc e He). lia.
Qed.

(** A deleted policy's cache entry goes with it. *)
Lemma forgotten_bound now st st' :
  ledger ns name (world st') ⊆+ ledger ns name (world st) → cache (mem st') !! cache_key ns name = None →
  Bound now st → Bound now st'.
Proof.
  intros Hl Hc [Hb _]. pose proof (since_submseteq (time_Add now (- Hour)) _ _ Hl). unfold Bound, counted, recent_records in *.
  split; [lia|]. intros e He. congruence.
Qed.

Lemma shrinks_call {A} (op : W → A * W) ev (st : St W) a w :
  (∀ w, ledger ns name (op w).2 ⊆+ ledger ns name w) → op (world st) = (a, w) →
  shrinks st (mkSt w (mem st) (log st ++ [ev a])).
Proof. intros Hop E. split; [|done]. simpl. specialize (Hop (world st)). by rewrite E in Hop. Qed.

(** One reconciliation keeps the bound: either it read no policy, or it read
    one, read the clock, and kept the bound at that reading. *)
Lemma Reconcile_bound ctx (st : St W) :
  wp (PolicyController.Reconcile prometheus exec sink ctx (mkNN ns name)) st (λ o l st',
    (∀ now, Bound now st → Bound now st') ∨
    ∃ p t, IoGetPolicy (mkNN ns name) (inr p) ∈ l ∧ IoNow t ∈ l ∧
      (named p ∧ maxTriggersOrDefault p <= max ∧ phases_written l ∧ Bound t st → Bound t st')).
Proof.
  unfold PolicyController.Reconcile. do 3 wp_step.
  match goal with E : cl_GetPolicy _ _ = _ |- _ =>
    pose proof (shrinks_call _ (IoGetPolicy (mkNN ns name)) st _ _ (ledger_GetPolicy ns name _) E) as Hs1 end.
  destruct a as [e|p].
  - apply (wp_mono _ _ (λ _ _ st', ∀ now, Bound now st → Bound now st')); [|by left].
    case_decide; unfold Window_Forget, limiter_Forget; repeat wp_step; simpl; intros now Hb.
    + apply (forgotten_bound now st); simpl; [apply Hs1|by rewrite lookup_delete_eq|done].
    + by eapply Bound_shrinks.
  - do 4 wp_step. rename a into t. rename w0 into w2.
    match goal with E : sys_Now _ = _ |- _ =>
      pose proof (shrinks_call _ IoNow (mkSt w (mem st) (log st)) t w2 (ledger_Now ns name) E) as Hs2 end.
    match goal with |- wp _ ?s _ => set (st2 := s) end.
    assert (shrinks st st2) as Hs by (subst st2; destruct Hs1, Hs2; split; simpl in *; [by etrans|done]).
    eapply wp_mono; [apply (wp_impl (named p ∧ maxTriggersOrDefault p <= max ∧ Bound t st) _ _ _ (kept t)
                              (gate0_spec prometheus exec sink exec_ok p (nn_String (mkNN ns name)) (mem st2) t ctx st2 eq_refl))|].
    + intros (Hp & Hcap & Hb). apply gate0_kept; [done..|]. by eapply Bound_shrinks.
    + intros o l st' Hk. right. exists p, t. split_and!; [set_solver..|].
      intros (Hp & Hcap & Hph & Hb). apply Hk; [done|]. by repeat apply phases_written_cons in Hph.
Qed.

Lemma step_bound s s' : step s s' → Bound (clock s) (operator s) → Bound (clock s') (operator s').
Proof.
  destruct 1 as [now now' st Hle|now st st' Hsub Hcache|now st|now now' ctx st o l st' Hrun Hlog Hle Hclock Hpolicy Hph];
    simpl; intros Hb.
  - by apply (Bound_later now).
  - destruct Hcache as [Hc|Hc]; [by apply (Bound_shrinks now st)|by apply (forgotten_bound now st)].
  - by apply (forgotten_bound now st).
  - destruct (wp_run _ _ _ _ _ (Reconcile_bound ctx st) Hrun) as (l' & Hl' & Hpost).
    rewrite Hlog in Hl'. apply app_inv_head in Hl' as <-.
    destruct Hpost as [Hkeep|(p & t & Hp & Ht & Hkeep)]; [by apply (Bound_later now), Hkeep|].
    destruct (Hclock t Ht) as [Hlt Hlt']. destruct (Hpolicy p Hp) as (Hns & Hn & Hcap).
    apply (Bound_later t); [done|]. apply Hkeep. split_and!; [done..|]. by apply (Bound_later now).
Qed.


End RateCap.

(** ** The concrete world keeps such a ledger *)

(** Changing records outside what the filter and the projection read. *)
Lemma fmap_filter_relabel {A B} (P : A → Prop) `{∀ x, Decision (P x)} (f : A → B) (g : A → A) (l : list A) :
  (∀ z, P (g z) ↔ P z) → (∀ z, f (g z) = f z) → f <$> filter P (g <$> l) = f <$> filter P l.
Proof.
  intros HP Hf. induction l as [|z l IH]; [done|]. rewrite fmap_cons, !filter_cons. specialize (HP z).
  repeat case_decide; try tauto. by rewrite !fmap_cons, Hf, IH.
Qed.

#[export, refine] Instance fake_ledger : AuditLedger World := {
  ledger ns name w :=
    (λ a, TriggeredAt (a_Spec a)) <$>
    filter (λ a, Namespace (a_Meta a) = ns ∧ Labels (a_Meta a) !! LabelPolicy = Some name) (w_audits w) }.
Proof.
  - intros ns name w r w' [= <- <-]. split; [done|]. by intros l [= <-].
  - intros ns name a w r w' Hc Hns Hname. simpl in Hc. unfold create_audit, next_write in Hc.
    case_match; simplify_eq; simpl; [done|]. rewrite filter_app, (filter_cons_True _ _ []), filter_nil by done.
    rewrite fmap_app. simpl. by rewrite Permutation_app_comm.
  - done.
  - done.
  - done.
  - done.
  - intros ns name a w. simpl. unfold update_audit_status, write_audit, next_write. cbn [w_audits].
    repeat case_match; simplify_eq; cbn [snd with_audits w_audits]; try done.
    all: rewrite fmap_filter_relabel; [done| |]; intros z; by case_match.
  - intros ns name p w. simpl. unfold update_policy_status, next_write. by repeat case_match.
  - done.
Defined.

(** The concrete plugins, metric client and sink create no records. *)
Lemma touch_quiet f t : no_records (W := World) (touch f t).
Proof. intros ns name w. unfold touch. by repeat case_match. Qed.

Lemma fake_plugin_quiet pn reversible fails :
  (∀ ctx inp, no_records (W := World) (pl_Execute (fake_plugin pn reversible fails) ctx inp)) ∧
  (∀ ctx prev, no_records (W := World) (pl_Reverse (fake_plugin pn reversible fails) ctx prev)).
Proof.
  split; intros ctx x ns name w; simpl; case_match; try done; [|apply touch_quiet].
  pose proof (touch_quiet (λ s, s ++s pn) (in_Target x) ns name w) as Hq. by destruct (touch _ _ _).
Qed.

Lemma fake_registry_quiet pn p : fake_registry !! pn = Some p →
  (∀ ctx inp, no_records (W := World) (pl_Execute p ctx inp)) ∧ (∀ ctx prev, no_records (W := World) (pl_Reverse p ctx prev)).
Proof.
  change fake_registry with (<["broken" := fake_plugin "broken" true true]> (<["annotate" := fake_plugin "annotate" true false]>
    (<["notify" := fake_plugin "notify" false false]> (∅ : Registry World)))).
  rewrite !lookup_insert_Some. intros [[_ <-]|[_ [[_ <-]|[_ [[_ <-]|[_ Hp]]]]]]; [apply fake_plugin_quiet..|].
  by rewrite lookup_empty in Hp.
Qed.

(** The conditions on a reconciliation's log, as a check. *)
Definition log_ok (ns name : string) (max : Z) (now now' : Time) (e : IOEvent) : bool :=
  match e with
  | IoNow t => bool_decide (now <= t <= now')
  | IoGetPolicy _ (inr p) =>
      bool_decide (Namespace (p_Meta p) = ns ∧ Name (p_Meta p) = name ∧ maxTriggersOrDefault p <= max)
  | IoStatusUpdateAudit _ (inl _) => false
  | _ => true
  end.

(** One reconciliation whose log passes the check, then a restart. *)
Lemma reconciled_reachable ns name max now now' (st0 : St World) o st' :
  PolicyController.Reconcile fake_prometheus fake_registry None Background (mkNN ns name) st0 = (o, st') →
  log st0 = [] → now <= now' → forallb (log_ok ns name max now now') (log st') = true →
  reachable fake_prometheus fake_registry None ns name max (mkSys now st0)
    (mkSys now' (mkSt (world st') empty_mem (log st'))).
Proof.
  intros Hrun Hlog Hle Hall. rewrite forallb_forall in Hall.
  eapply reach_step; [|apply step_restart]. eapply reach_step; [apply reach_init|].
  assert (∀ e, e ∈ log st' → log_ok ns name max now now' e = true) as Hok by (intros e He; by apply Hall, list_elem_of_In).
  eapply step_reconcile; [exact Hrun|by rewrite Hlog|done|..].
  - intros t Ht%Hok. by apply bool_decide_eq_true in Ht.
  - intros p Hp%Hok. by apply bool_decide_eq_true in Hp.
  - intros a e He%Hok. done.
Qed.

(** A due policy with a cap of two triggers. *)
Definition due_world : World := a_world [a_policy [act "annotate" EmptyString false] Minute fresh_status] [].
Definition due_end : sys (W := World) :=
  let st := (run_policy due_world).2 in mkSys (t0 + Second) (mkSt (world st) empty_mem (log st)).

