(* ===== verification/PolicyTheorems.v ===== *)
(** * Theorems about the ReactivePolicy reconciler

    The refinement theorem and what follows from it: when plugins run, what
    runs, on which targets, what is recorded, and how the policy stays quiet
    while a gate is open or a cooldown lasts. *)

From S2P Require Import Prelude GoLib GoTime Api ActionTypes Metrics Effects Logic Evaluator FloatLib Limiter Registry Executor AuditWriter PolicyController AuditController Fake PolicySpec.

Lemma Due_mono policy key m now l l' :
  (∀ e, e ∈ l → e ∈ l') → Due policy key m now l → Due policy key m now l'.
Proof.
  intros Hin [[Hg|(r & Hr & Hc)] Hcool (c & n & Hcnt & Hsub & Hn) (v & thr & Hv & Ht & Hcmp) Hsus];
    (split; [|done|exists c, n; split_and!; eauto|exists v, thr; split_and!; eauto|done]); eauto 6.
Qed.

(** Below [run_to] nothing holds for approval, up to and including the action. *)
Lemma below_run_to policy i act :
  Actions (p_Spec policy) !! i = Some act → (i < Z.to_nat (run_to policy))%nat →
  ∀ j b, (j <= i)%nat → Actions (p_Spec policy) !! j = Some b → RequiresApproval b = false.
Proof.
  intros Hact Hi j b Hj Hb. unfold run_to, GateIndex in Hi.
  destruct (gate_index_from_spec 0 (Actions (p_Spec policy)) ltac:(done))
    as [[Hg Hun]|(k & a & Hk & Hg & Ha & Hun)]; rewrite Hg in Hi; case_decide; try lia.
  - by apply (Forall_lookup_1 _ _ _ _ Hun Hb).
  - apply (Forall_lookup_1 _ _ j _ Hun). apply lookup_take_Some. split; [done|lia].
Qed.

Definition not_create (e : IOEvent) : Prop := match e with IoCreateAudit _ _ => False | _ => True end.
Definition not_status_write (e : IOEvent) : Prop := match e with IoStatusUpdatePolicy _ _ => False | _ => True end.

Section Theorems.
Context {W : Type} `{Cluster W} `{LocalZone} `{DetailsCodec}.
Variable prometheus : Factory W.
Variable exec : Registry W.
Variable sink : option (Sink W).
Hypothesis Hexec : registry_ok exec.

Lemma Reconcile_cases ctx req (st : St W) :
  wp (PolicyController.Reconcile prometheus exec sink ctx req) st (λ o l st',
    Forall no_plugin l ∨ ∃ policy now runs, Fired exec req (mem st) policy now l runs o (mem st')).
Proof using Hexec.
  eapply wp_mono; [by apply policy_Reconcile_wp|]. intros o l st' Hr. eapply Reconciled_cases. exact Hr.
Qed.

Lemma Fired_executed req m policy now l runs o m' :
  Fired exec req m policy now l runs o m' → executed l = executed runs ∧ reversed l = reversed runs.
Proof.
  destruct 1 as [ev p1 m1 lists resolved runs results tail o m' _ Hev _ _ _ Hl _ _ _ Hrec].
  apply is_read_no_plugin, no_plugin_quiet in Hev as [He1 Hr1].
  apply listing_lists, is_list_no_plugin, no_plugin_quiet in Hl as [He2 Hr2].
  apply Recorded_no_plugin, no_plugin_quiet in Hrec as [He3 Hr3].
  change (?a :: ?b :: ?l) with ([a; b] ++ l).
  rewrite !executed_app, !reversed_app, He1, He2, He3, Hr1, Hr2, Hr3. by rewrite !app_nil_r.
Qed.


(** C2. Plugins run only when the policy is due: no approval gate is open, the
    cooldown has passed, fewer triggers than the cap were counted in the
    trailing hour, and the queried value has crossed the threshold for at
    least the configured duration. *)
Theorem executes_only_when_due ctx req (st : St W) :
  wp (PolicyController.Reconcile prometheus exec sink ctx req) st (λ o l st',
    executed l ≠ [] → ∃ policy now, IoGetPolicy req (inr policy) ∈ l ∧ IoNow now ∈ l ∧
      Due policy (nn_String req) (tracked_mem policy (mem st)) now l).
Proof using Hexec.
  eapply wp_mono; [apply Reconcile_cases|]. intros o l st' [Hl|(policy & now & runs & Hf)] Hex.
  - by destruct (no_plugin_quiet _ Hl).
  - exists policy, now. destruct Hf. split_and!; [left|right; left|].
    eapply Due_mono; [|done]. intros e He. do 2 right. apply elem_of_app. by left.
Qed.


(** What the record of a trigger says about the run. *)
Record Described (policy : ReactivePolicy) (now : Time) (calls : list (string * ExecuteInput)) (audit : ActionAudit) : Prop := {
  ds_policy : PolicyRef (a_Spec audit) = Name (p_Meta policy) ∧ PolicyUID (a_Spec audit) = UID (p_Meta policy);
  ds_label : Namespace (a_Meta audit) = Namespace (p_Meta policy) ∧
             Labels (a_Meta audit) !! LabelPolicy = Some (Name (p_Meta policy));
  ds_time : TriggeredAt (a_Spec audit) = now;
  (** one record per call, in order, on its target *)
  ds_records : Forall (λ act, exec_Lookup exec (Plugin act) ≠ None) (Actions (p_Spec policy)) →
               Forall2 (λ rec call, rec_Target rec = to_AuditTarget (in_Target call.2)) (AuditActions (a_Spec audit)) calls;
  (** the gate holds exactly the actions that did not run *)
  ds_gate : match Gate (a_Spec audit) with
            | None => GateIndex policy < 0
            | Some g => 0 <= GateIndex policy ∧ ActionIndex g = int32 (GateIndex policy) ∧
                        PendingPlugins g = Plugin <$> drop (Z.to_nat (GateIndex policy)) (Actions (p_Spec policy)) ∧
                        ExpiresAt g = now + approvalTimeoutOrDefault policy ∧ Decision_ g = EmptyString
            end }.

Lemma new_audit_described policy p1 now targets results ex rv gate :
  derived policy p1 →
  targets_ran exec p1 (CurrentMetricValue (p_Status p1)) 0 (run_to policy) targets results ex rv →
  gate = None ∧ GateIndex p1 < 0 ∨ gate = Some (new_gate p1 now (GateIndex p1) targets) ∧ 0 <= GateIndex p1 →
  Described policy now ex (new_audit p1 now (to_records exec 0 results) gate).
Proof using Type.
  intros Hd Hran Hgate. destruct (derived_same _ _ Hd) as (_ & _ & Hmeta & Hspec & Hidx). split; simpl.
  - by rewrite Hmeta.
  - rewrite Hmeta. split; [done|apply lookup_insert_eq].
  - done.
  - intros Hreg. apply to_records_targets. eapply targets_ran_aligned; [|done].
    unfold slice. rewrite Hspec. by apply Forall_take, Forall_drop.
  - destruct Hgate as [[-> Hg]|[-> Hg]]; [by rewrite <- Hidx|].
    unfold new_gate, approvalTimeoutOrDefault. simpl. rewrite Hidx, Hspec in *. done.
Qed.

Lemma quiet_writes l :
  Forall is_read l ∨ Forall is_list l ∨ Forall is_run l ∨ Forall is_sink l →
  Forall not_create l ∧ Forall not_status_write l.
Proof. intros [Hl|[Hl|[Hl|Hl]]]; split; (eapply Forall_impl; [exact Hl|]); by intros []. Qed.

(** The tail of a trigger: the record first, the status last. *)
Lemma Recorded_shape p key m now targets results tail o m' :
  Recorded exec p key m now targets results tail o m' →
  ∃ gate r mid p' r', tail = IoCreateAudit (new_audit p now (to_records exec 0 results) gate) r ::
                             mid ++ [IoStatusUpdatePolicy p' r'] ∧
    Forall not_create mid ∧ Forall not_status_write mid ∧ Forall no_plugin mid ∧
    (gate = None ∧ GateIndex p < 0 ∨ gate = Some (new_gate p now (GateIndex p) targets) ∧ 0 <= GateIndex p) ∧
    o = Val (status_answer r' (pollIntervalOrDefault p)) ∧ crossedAt m' = delete key (crossedAt m) ∧
    ∃ state last ref, after_trigger p p' state last ref ∧
      last = (match gate with None => Some now | Some _ => LastTriggeredAt (p_Status p) end).
Proof using Type.
  destruct 1 as [r sinks p' r' m' Hg Hs Hat Hw _|writes p' r' m' Hg Hwr Hat Hw _|a a' sinks p' r' m' Hg Hs Hat Hw _].
  - destruct (quiet_writes sinks) as [? ?]; [auto|].
    eexists _, r, sinks, p', r'. split_and!; try done; [by apply is_sink_no_plugin|by left|by eexists _, _, _].
  - destruct Hwr as [(e & ->)|(a & e & ->)].
    + eexists _, _, [], p', r'. split_and!; try done; [by right|by eexists _, _, _].
    + exists (Some (new_gate p now (GateIndex p) targets)), (inr a),
        [IoStatusUpdateAudit (set_ApprovalPhase a PhasePending) (inl e)], p', r'.
      split_and!; [done|by repeat constructor..|by right|done|done|by eexists _, _, _].
  - destruct (quiet_writes sinks) as [? ?]; [auto|].
    exists (Some (new_gate p now (GateIndex p) targets)), (inr a),
      (IoStatusUpdateAudit (set_ApprovalPhase a PhasePending) (inr a') :: sinks), p', r'.
    split_and!; [done|by constructor|by constructor| |by right|done|done|by eexists _, _, _].
    constructor; [done|by apply is_sink_no_plugin].
Qed.

(** C7. One trigger, one record: a reconciliation that ran a pipeline issues
    exactly one Create, after every plugin call; the record names the policy
    and its UID, carries the trigger time, has one entry per plugin call on
    that call's target, and its gate lists exactly the actions held back. *)
Theorem trigger_recorded ctx req (st : St W) :
  wp (PolicyController.Reconcile prometheus exec sink ctx req) st (λ o l st',
    executed l ≠ [] → ∃ policy now audit r pre post,
      IoGetPolicy req (inr policy) ∈ pre ∧ IoNow now ∈ pre ∧
      l = pre ++ IoCreateAudit audit r :: post ∧
      Forall not_create pre ∧ Forall not_create post ∧ Forall no_plugin post ∧
      Described policy now (executed l) audit).
Proof using Hexec.
  eapply wp_mono; [apply Reconcile_cases|]. intros o l st' [Hl|(policy & now & runs & Hf)] Hex.
  { by destruct (no_plugin_quiet _ Hl). }
  destruct (Fired_executed _ _ _ _ _ _ _ _ Hf) as [-> _].
  destruct Hf as [ev p1 m1 lists resolved runs results tail o m' _ Hev Hd _ _ Hlist _ Hruns Hran Hrec].
  destruct (Recorded_shape _ _ _ _ _ _ _ _ _ Hrec) as (gate & r & mid & p' & r' & -> & Hmc & _ & Hmp & Hgate & _).
  eexists policy, now, _, r, (IoGetPolicy req (inr policy) :: IoNow now :: ev ++ lists ++ runs), _.
  split_and!; [left|right; left|simpl; by rewrite <- !app_assoc| | | |by eapply new_audit_described].
  - do 2 (constructor; [done|]). apply listing_lists in Hlist. rewrite !Forall_app. split_and!; apply quiet_writes; auto.
  - apply Forall_app. split; [done|by repeat constructor].
  - apply Forall_app. split; [done|by repeat constructor].
Qed.

(** Bookkeeping of a trigger: its last event is the status write, with the
    trigger counted (as an int32); the crossing time is forgotten, so the next
    trigger needs the whole duration again; the cooldown starts at once when
    nothing was held, and is left to the decision when a gate was opened. *)
Lemma trigger_bookkeeping ctx req (st : St W) :
  wp (PolicyController.Reconcile prometheus exec sink ctx req) st (λ o l st',
    executed l ≠ [] → ∃ policy now p' r front,
      IoGetPolicy req (inr policy) ∈ l ∧ IoNow now ∈ l ∧
      l = front ++ [IoStatusUpdatePolicy p' r] ∧ Forall not_status_write front ∧
      derived policy p' ∧
      TriggerCount (p_Status p') = int32 (TriggerCount (p_Status policy) + 1) ∧
      LastTriggeredAt (p_Status p') =
        (if decide (GateIndex policy < 0) then Some now else LastTriggeredAt (p_Status policy)) ∧
      crossedAt (mem st') !! nn_String req = None ∧
      o = Val (status_answer r (pollIntervalOrDefault policy))).
Proof using Hexec.
  eapply wp_mono; [apply Reconcile_cases|]. intros o l st' [Hl|(policy & now & runs & Hf)] Hex.
  { by destruct (no_plugin_quiet _ Hl). }
  inversion Hf as [ev p1 m1 lists resolved ? results tail ? ? _ Hev Hd Hlast Hcount Hlist _ Hruns _ Hrec]; subst.
  destruct (Recorded_shape _ _ _ _ _ _ _ _ _ Hrec)
    as (gate & r & mid & p' & r' & -> & _ & Hmw & _ & Hgate & -> & -> & state & last & ref & [Hd' _ Hl' Hc' _] & ->).
  destruct (derived_same _ _ Hd) as (_ & _ & Hmeta & Hspec & Hidx).
  eexists policy, now, p', r', _. split_and!; [left|right; left| | | | | | |].
  - rewrite !app_comm_cons, !app_assoc. reflexivity.
  - rewrite <- !app_assoc. simpl. do 2 (constructor; [done|]). apply listing_lists in Hlist.
    rewrite !Forall_app. split_and!; [apply quiet_writes; auto..|by constructor].
  - destruct Hd, Hd'. split; congruence.
  - by rewrite Hc', Hcount.
  - rewrite Hl', Hlast. destruct Hgate as [[-> ?]|[-> ?]]; [rewrite decide_True by lia|rewrite decide_False by lia]; done.
  - apply lookup_delete_eq.
  - unfold pollIntervalOrDefault. by rewrite Hspec.
Qed.

(** The four ways a known policy's reconciliation can begin. *)
Lemma Reconciled_known req m l o m' policy now rest :
  Reconciled prometheus exec req m l o m' → l = IoGetPolicy req (inr policy) :: IoNow now :: rest →
  ∃ ev v tail, rest = ev ++ tail ∧
    Gated prometheus policy (nn_String req) (tracked_mem policy m) now ev v ∧
    Concluded exec policy (nn_String req) (tracked_mem policy m) now v tail o m'.
Proof using Type. destruct 1; intros [=]; subst. by eexists _, _, _. Qed.

(** A pass that only writes the status, with [state] in it, and asks to come back. *)
Definition quiet_pass (state : string) (after : Duration) (policy : ReactivePolicy) (rest : list IOEvent)
    (o : outcome (CtrlResult * option error)) (st st' : St W) : Prop :=
  ∃ p' r, rest = [IoStatusUpdatePolicy p' r] ∧ State (p_Status p') = state ∧
    PendingGateRef (p_Status p') = PendingGateRef (p_Status policy) ∧
    LastTriggeredAt (p_Status p') = LastTriggeredAt (p_Status policy) ∧
    o = Val (status_answer r after) ∧ crossedAt (mem st') = crossedAt (mem st).

Lemma open_gate_quiet ctx req (st : St W) :
  wp (PolicyController.Reconcile prometheus exec sink ctx req) st (λ o l st', ∀ policy now audit rest,
    l = IoGetPolicy req (inr policy) :: IoNow now :: IoGetAudit (gate_ref policy) (inr audit) :: rest →
    PendingGateRef (p_Status policy) ≠ EmptyString → ApprovalPhase (a_Status audit) = PhasePending →
    quiet_pass StateAwaitingApproval (pollIntervalOrDefault policy) policy rest o st st').
Proof using Hexec.
  eapply wp_mono; [by apply policy_Reconcile_wp|]. intros o l st' Hr policy now audit rest Hl Href Hph.
  destruct (Reconciled_known _ _ _ _ _ _ _ _ Hr Hl) as (ev & v & tail & Heq & Hg & Hcon).
  inversion Hg as [|? ? Hopen|? ? Hnone|? ? ? ? Hshow]; subst; simplify_eq/=.
  - inversion Hcon as [? ? ? ? _ (p' & r & -> & ? & ? & ? & ? & ? & ? & -> & ?)|]; subst.
    by exists p', r.
Qed.

Lemma cooldown_quiet ctx req (st : St W) :
  wp (PolicyController.Reconcile prometheus exec sink ctx req) st (λ o l st', ∀ policy now last rest,
    l = IoGetPolicy req (inr policy) :: IoNow now :: rest →
    PendingGateRef (p_Status policy) = EmptyString →
    LastTriggeredAt (p_Status policy) = Some last → last <= now < last + cooldownOrDefault policy →
    cooldownOrDefault policy <= maxDuration →
    quiet_pass StateCooldown (last + cooldownOrDefault policy - now) policy rest o st st').
Proof using Hexec.
  eapply wp_mono; [by apply policy_Reconcile_wp|]. intros o l st' Hr policy now last rest Hl Href Hlast Hnow Hcd.
  destruct (Reconciled_known _ _ _ _ _ _ _ _ Hr Hl) as (ev & v & tail & Heq & Hg & Hcon).
  assert (time_Sub now last = now - last) as Hsub by (unfold time_Sub, minDuration, maxDuration in *; lia).
  inversion Hg as [| |? ? _ Hcool|]; subst; try done.
  inversion Hcool as [last' Hlast' Hlt|? ? Hready]; subst; simplify_eq.
  - inversion Hcon as [? ? ? ? _ (p' & r & -> & ? & ? & ? & ? & ? & ? & -> & ?)|]; subst.
    exists p', r. rewrite Href. split_and!; try done. do 2 f_equal. simpl. rewrite Hsub.
    unfold int64. rewrite wrap_id; [lia|done|]. unfold in_range, maxDuration in *. lia.
  - specialize (Hready _ Hlast). rewrite Hsub in Hready. lia.
Qed.

(** A held policy is quiet: while its approval gate is open, and, with no
    gate, while its last trigger is less than a cooldown ago, a pass lists,
    queries, records and runs nothing and keeps the crossing times; it only
    marks the policy AwaitingApproval or Cooldown, keeping reference and
    trigger time, and asks to come back after the poll interval, or exactly
    when the cooldown ends. *)
Lemma held_policy_quiet ctx req (st : St W) :
  wp (PolicyController.Reconcile prometheus exec sink ctx req) st (λ o l st',
    (∀ policy now audit rest,
       l = IoGetPolicy req (inr policy) :: IoNow now :: IoGetAudit (gate_ref policy) (inr audit) :: rest →
       PendingGateRef (p_Status policy) ≠ EmptyString → ApprovalPhase (a_Status audit) = PhasePending →
       quiet_pass StateAwaitingApproval (pollIntervalOrDefault policy) policy rest o st st') ∧
    (∀ policy now last rest,
       l = IoGetPolicy req (inr policy) :: IoNow now :: rest →
       PendingGateRef (p_Status policy) = EmptyString →
       LastTriggeredAt (p_Status policy) = Some last → last <= now < last + cooldownOrDefault policy →
       cooldownOrDefault policy <= maxDuration →
       quiet_pass StateCooldown (last + cooldownOrDefault policy - now) policy rest o st st')).
Proof using Hexec. apply wp_conj; [apply open_gate_quiet|apply cooldown_quiet]. Qed.

(** C31. A reconciliation always returns, and writes the status once: for a
    policy that exists its last event is the only status write, a conflict
    there requeues at once without an error, and any other failure of that
    write is the error returned. *)
Theorem reconcile_returns ctx req (st : St W) :
  wp (PolicyController.Reconcile prometheus exec sink ctx req) st (λ o l st',
    (∃ res err, o = Val (res, err)) ∧
    ∀ policy now rest, l = IoGetPolicy req (inr policy) :: IoNow now :: rest →
      ∃ front p' r after, rest = front ++ [IoStatusUpdatePolicy p' r] ∧ Forall not_status_write front ∧
        derived policy p' ∧ o = Val (status_answer r after)).
Proof using Hexec.
  eapply wp_mono; [by apply policy_Reconcile_wp|]. intros o l st' Hr.
  assert (∀ policy now rest, l = IoGetPolicy req (inr policy) :: IoNow now :: rest →
      ∃ front p' r after, rest = front ++ [IoStatusUpdatePolicy p' r] ∧ Forall not_status_write front ∧
        derived policy p' ∧ o = Val (status_answer r after)) as Hknown.
  { intros policy now rest Hl. destruct (Reconciled_known _ _ _ _ _ _ _ _ Hr Hl) as (ev & v & tail & -> & Hg & Hcon).
    apply Gated_reads in Hg. destruct (quiet_writes ev) as [_ Hev]; [auto|].
    destruct Hcon as [v tail o m' _ (p' & r & -> & Hd & _ & _ & _ & _ & _ & -> & _)|p1 m1 tail o m' Hd _ _ _ Htrig].
    - by eexists ev, p', r, _.
    - destruct Htrig as [lists p' r m'' Hlists Hd'|lists resolved runs results tail o m'' Hlist _ Hruns _ Hrec].
      + destruct (quiet_writes lists) as [_ Hls]; [auto|]. eexists (ev ++ lists), p', r, _. rewrite app_assoc.
        split_and!; [done|by apply Forall_app| |done]. destruct Hd, Hd'. split; congruence.
      + destruct (Recorded_shape _ _ _ _ _ _ _ _ _ Hrec)
          as (gate & r & mid & p' & r' & -> & _ & Hmw & _ & _ & -> & _ & ? & ? & ? & [Hd' _ _ _ _] & _).
        eexists (ev ++ lists ++ runs ++ IoCreateAudit _ r :: mid), p', r', _.
        split_and!; [by rewrite <- !app_assoc| | |done].
        * apply listing_lists in Hlist. rewrite !Forall_app.
          split_and!; [done|apply quiet_writes; auto..|by constructor].
        * destruct Hd, Hd'. split; congruence. }
  split; [|done]. destruct Hr as [| |policy now ev v tail]; [by eexists _, _..|].
  destruct (Hknown _ _ _ eq_refl) as (? & ? & r & ? & _ & _ & _ & ->).
  unfold status_answer. destruct r; [case_decide|]; by eexists _, _.
Qed.

(** A deleted policy leaves nothing behind: its crossing time and its
    cached trigger count are dropped, nothing is written and nothing runs. *)
Lemma deleted_policy_forgotten ctx req (st : St W) :
  wp (PolicyController.Reconcile prometheus exec sink ctx req) st (λ o l st',
    ∀ e rest, l = IoGetPolicy req (inl e) :: rest → Is e NotFound →
      rest = [] ∧ o = Val (zero_result, None) ∧
      crossedAt (mem st') !! nn_String req = None ∧
      cache (mem st') !! cache_key (nn_Namespace req) (nn_Name req) = None).
Proof using Hexec.
  eapply wp_mono; [by apply policy_Reconcile_wp|]. intros o l st' Hr e rest Hl He.
  inversion Hr as [e' m' He' Hw Hc|e' He'|]; subst; simplify_eq; [|done].
  rewrite Hw, Hc. by rewrite !lookup_delete_eq.
Qed.

End Theorems.

(** ** Witnesses: the theorems at concrete policies of the concrete world *)


Lemma executes_only_when_due_witness :
  executed (log (run_policy w_due).2) ≠ [] ∧
  wp (PolicyController.Reconcile fake_prometheus fake_registry None Background a_req) (start w_due) (λ o l st',
    executed l ≠ [] → ∃ policy now, IoGetPolicy a_req (inr policy) ∈ l ∧ IoNow now ∈ l ∧
      Due policy (nn_String a_req) (tracked_mem policy (mem (start w_due))) now l).
Proof. split; [by vm_compute|]. apply (executes_only_when_due _ _ _ fake_registry_ok). Defined.


Lemma trigger_recorded_witness :
  ((λ a, (rec_Plugin <$> AuditActions (a_Spec a), PendingPlugins <$> Gate (a_Spec a))) <$>
     w_audits (world (run_policy w_due).2)) = [(["annotate"; "annotate"], Some ["notify"])] ∧
  wp (PolicyController.Reconcile fake_prometheus fake_registry None Background a_req) (start w_due) (λ o l st',
    executed l ≠ [] → ∃ policy now audit r pre post,
      IoGetPolicy a_req (inr policy) ∈ pre ∧ IoNow now ∈ pre ∧
      l = pre ++ IoCreateAudit audit r :: post ∧
      Forall not_create pre ∧ Forall not_create post ∧ Forall no_plugin post ∧
      Described fake_registry policy now (executed l) audit).
Proof. split; [by_compute|]. apply (trigger_recorded _ _ _ fake_registry_ok). Defined.

Lemma trigger_bookkeeping_witness :
  ((λ p, (TriggerCount (p_Status p), LastTriggeredAt (p_Status p), PendingGateRef (p_Status p))) <$>
     w_policies (world (run_policy w_due).2)) = [(1, None, "high-cpu-8")] ∧
  wp (PolicyController.Reconcile fake_prometheus fake_registry None Background a_req) (start w_due) (λ o l st',
    executed l ≠ [] → ∃ policy now p' r front,
      IoGetPolicy a_req (inr policy) ∈ l ∧ IoNow now ∈ l ∧
      l = front ++ [IoStatusUpdatePolicy p' r] ∧ Forall not_status_write front ∧
      derived policy p' ∧
      TriggerCount (p_Status p') = int32 (TriggerCount (p_Status policy) + 1) ∧
      LastTriggeredAt (p_Status p') =
        (if decide (GateIndex policy < 0) then Some now else LastTriggeredAt (p_Status policy)) ∧
      crossedAt (mem st') !! nn_String a_req = None ∧
      o = Val (status_answer r (pollIntervalOrDefault policy))).
Proof. split; [by_compute|]. apply (trigger_bookkeeping _ _ _ fake_registry_ok). Defined.

Lemma held_policy_quiet_witness :
  ((λ p, State (p_Status p)) <$> w_policies (world (run_policy (w_open EmptyString)).2)) = [StateAwaitingApproval] ∧
  (run_policy w_cooling).1 = Val (requeue_after (40 * Second), None) ∧
  length (log (run_policy w_cooling).2) = 3%nat ∧
  ∀ policy now last rest,
    log (run_policy w_cooling).2 = IoGetPolicy a_req (inr policy) :: IoNow now :: rest →
    PendingGateRef (p_Status policy) = EmptyString →
    LastTriggeredAt (p_Status policy) = Some last → last <= now < last + cooldownOrDefault policy →
    cooldownOrDefault policy <= maxDuration →
    quiet_pass StateCooldown (last + cooldownOrDefault policy - now) policy rest
      (run_policy w_cooling).1 (start w_cooling) (run_policy w_cooling).2.
Proof.
  split_and!; [by_compute..|].
  destruct (held_policy_quiet fake_prometheus fake_registry None fake_registry_ok Background a_req (start w_cooling)) as (l & Hl & _ & Hq).
  exact (λ policy now last rest Hlog, Hq policy now last rest (eq_trans (eq_sym Hl) Hlog)).
Defined.

Lemma reconcile_returns_witness :
  (run_policy w_due).1 = Val (requeue_after (30 * Second), None) ∧
  wp (PolicyController.Reconcile fake_prometheus fake_registry None Background a_req) (start w_due) (λ o l st',
    (∃ res err, o = Val (res, err)) ∧
    ∀ policy now rest, l = IoGetPolicy a_req (inr policy) :: IoNow now :: rest →
      ∃ front p' r after, rest = front ++ [IoStatusUpdatePolicy p' r] ∧ Forall not_status_write front ∧
        derived policy p' ∧ o = Val (status_answer r after)).
Proof. split; [by_compute|]. apply (reconcile_returns _ _ _ fake_registry_ok). Defined.

Lemma deleted_policy_forgotten_witness :
  crossedAt (mem (run_policy (a_world [] [])).2) = ∅ ∧
  wp (PolicyController.Reconcile fake_prometheus fake_registry None Background a_req) (start (a_world [] [])) (λ o l st',
    ∀ e rest, l = IoGetPolicy a_req (inl e) :: rest → Is e NotFound →
      rest = [] ∧ o = Val (zero_result, None) ∧
      crossedAt (mem st') !! nn_String a_req = None ∧
      cache (mem st') !! cache_key (nn_Namespace a_req) (nn_Name a_req) = None).
Proof. split; [by_compute|]. apply (deleted_policy_forgotten _ _ _ fake_registry_ok). Defined.

(** A failed action ahead of a gate does not keep the gate from opening: the
    pipeline stopped at the first action with onFailure "stop", yet the policy
    is left AwaitingApproval with the remaining action offered for release. *)
Example gate_opens_after_failed_prefix :
  let '(o, st) := run_policy (a_world [a_policy [act "broken" FailureStop false; act "annotate" EmptyString true]
                                         Minute fresh_status] []) in
  o = Val (requeue_after (30 * Second), None) ∧
  (rec_Status <$> concat ((λ a, AuditActions (a_Spec a)) <$> w_audits (world st))) = [StatusFailed; StatusFailed] ∧
  ((λ p, State (p_Status p)) <$> w_policies (world st)) = [StateAwaitingApproval] ∧
  ((λ a, PendingPlugins <$> Gate (a_Spec a)) <$> w_audits (world st)) = [Some ["annotate"]].
Proof. vm_compute. split_and!; reflexivity. Qed.

(** A gate whose phase could not be written is lost: the record exists, but
    the policy gets no reference, no cooldown and no bumped trigger count, so
    the next reconciliation may trigger again. *)
Example gate_write_failure_forgets_trigger :
  let w := with_write_errors [None; Some (errorf "etcd")] w_due in
  let '(o, st) := run_policy w in
  length (w_audits (world st)) = 1%nat ∧
  ((λ p, (PendingGateRef (p_Status p), LastTriggeredAt (p_Status p), State (p_Status p))) <$> w_policies (world st))
    = [(EmptyString, None, StateTriggering)] ∧
  (entry_count <$> cache (mem st) !! "prod/high-cpu") = Some 0.
Proof. vm_compute. split_and!; reflexivity. Qed.
