(* ===== verification/AuditSpec.v ===== *)
(** * What the ActionAudit reconciler promises

    The contract of [AuditController.Reconcile] as relations on the log: a
    closing of a gate, a release, a revert, a retention sweep.
    [audit_Reconcile_wp] is the refinement lemma. *)

From S2P Require Import Prelude GoLib FloatLib GoTime Api ActionTypes Metrics Effects Logic Evaluator Limiter Registry Executor AuditWriter PolicyController AuditController PolicySpec.

(** ** The two updates of a record *)

Definition held (audit : ActionAudit) : list string :=
  match Gate (a_Spec audit) with Some gate => PendingPlugins gate | None => [] end.

(** The held actions recorded as skipped. *)
Definition skip_held (audit : ActionAudit) (message : string) : ActionAudit :=
  set_AuditActions audit (AuditActions (a_Spec audit) ++
    skipped_records (Z.of_nat (length (AuditActions (a_Spec audit)))) message (held audit)).

Definition policy_key (audit : ActionAudit) : NamespacedName :=
  mkNN (Namespace (a_Meta audit)) (PolicyRef (a_Spec audit)).

(** The policy as [startCooldown] writes it. *)
Definition cooled (policy : ReactivePolicy) (at_ : Time) : ReactivePolicy :=
  set_State (set_PendingGateRef (set_LastTriggeredAt policy (Some at_)) EmptyString) StateCooldown.

(** The status a resolved gate gets. *)
Definition resolved_as (audit a' : ActionAudit) (phase : ApprovalPhaseT) (resumed : option Time) : Prop :=
  a_Meta a' = a_Meta audit ∧ a_Spec a' = a_Spec audit ∧ ApprovalPhase (a_Status a') = phase ∧
  ResumedAt (a_Status a') = resumed ∧ Reverted (a_Status a') = Reverted (a_Status audit) ∧
  RevertResults (a_Status a') = RevertResults (a_Status audit).

(** ** Closing a gate *)

Inductive noted (audit : ActionAudit) (message : string) : list IOEvent → ActionAudit → Prop :=
| noted_none : held audit = [] → noted audit message [] audit
| noted_skipped audit2 :
    held audit ≠ [] → noted audit message [IoUpdateAudit (skip_held audit message) (inr audit2)] audit2.

Inductive cooling_started (nn : NamespacedName) (now : Time) : list IOEvent → Prop :=
| cs_no_policy e : cooling_started nn now [IoGetPolicy nn (inl e)]
| cs_policy p r : cooling_started nn now [IoGetPolicy nn (inr p); IoStatusUpdatePolicy (cooled p now) r].

Inductive Closed (audit : ActionAudit) (phase : ApprovalPhaseT) (message : string) (expiry : Time)
  : list IOEvent → outcome (CtrlResult * option error) → Prop :=
| cl_update_failed e :
    held audit ≠ [] →
    Closed audit phase message expiry [IoUpdateAudit (skip_held audit message) (inl e)]
      (Val (write_failed e "recording skipped actions: "))
| cl_status_failed pre audit2 now a' e :
    noted audit message pre audit2 → resolved_as audit2 a' phase (ResumedAt (a_Status audit2)) →
    Closed audit phase message expiry (pre ++ [IoNow now; IoStatusUpdateAudit a' (inl e)])
      (Val (write_failed e "updating gate status: "))
| cl_done pre audit2 now a' a'' cool t :
    noted audit message pre audit2 → resolved_as audit2 a' phase (ResumedAt (a_Status audit2)) →
    cooling_started (policy_key a'') now cool →
    Closed audit phase message expiry
      (pre ++ [IoNow now; IoStatusUpdateAudit a' (inr a'')] ++ cool ++ [IoNow t])
      (Val (requeue_after (time_Sub expiry t), None)).

Section Release.
Context {W : Type} `{Cluster W} `{LocalZone} `{DetailsCodec}.
Variable exec : Registry W.

(** The record with the outcomes of the released actions. *)
Definition append_results (audit : ActionAudit) (results : list Result) : ActionAudit :=
  set_AuditActions audit (AuditActions (a_Spec audit) ++
    to_records exec (Z.of_nat (length (AuditActions (a_Spec audit)))) results).

Definition gate_targets (audit : ActionAudit) (gate : ApprovalGate) : list Target :=
  act_on (Namespace (a_Meta audit)) (of_AuditTarget <$> GateTargets gate).

(** The capacity [releaseGate] allocates for the results. *)
Definition results_cap (audit : ActionAudit) (gate : ApprovalGate) (policy : ReactivePolicy) : Z :=
  Z.of_nat (length (gate_targets audit gate)) *
  (Z.of_nat (length (Actions (p_Spec policy))) - ActionIndex gate).

(** ** Releasing a gate *)

Inductive Release_recorded (audit : ActionAudit) (policy : ReactivePolicy) (results : list Result) (expiry : Time)
  : list IOEvent → outcome (CtrlResult * option error) → Prop :=
| rr_update_failed e :
    Release_recorded audit policy results expiry [IoUpdateAudit (append_results audit results) (inl e)]
      (Val (write_failed e "recording released actions: "))
| rr_status_failed audit2 now a' e :
    resolved_as audit2 a' PhaseApproved (Some now) →
    Release_recorded audit policy results expiry
      [IoUpdateAudit (append_results audit results) (inr audit2); IoNow now; IoStatusUpdateAudit a' (inl e)]
      (Val (write_failed e "updating gate status: "))
| rr_done audit2 now a' a'' sinks r t :
    resolved_as audit2 a' PhaseApproved (Some now) → Forall is_sink sinks →
    Release_recorded audit policy results expiry
      ([IoUpdateAudit (append_results audit results) (inr audit2); IoNow now; IoStatusUpdateAudit a' (inr a'')] ++
       sinks ++ [IoStatusUpdatePolicy (cooled policy now) r; IoNow t])
      (Val (requeue_after (time_Sub expiry t), None)).

Inductive Released (audit : ActionAudit) (gate : ApprovalGate) (policy : ReactivePolicy) (expiry : Time)
  : list IOEvent → outcome (CtrlResult * option error) → Prop :=
| rl_panic :
    results_cap audit gate policy < 0 →
    Released audit gate policy expiry [] (Panic "runtime error: makeslice: cap out of range")
| rl_ran runs results tail o :
    0 <= results_cap audit gate policy →
    Forall is_run runs →
    targets_ran exec policy (MetricValue (a_Spec audit)) (ActionIndex gate)
      (Z.of_nat (length (Actions (p_Spec policy)))) (gate_targets audit gate) results (executed runs) (reversed runs) →
    Release_recorded audit policy results expiry tail o →
    Released audit gate policy expiry (runs ++ tail) o.

(** The policy that was approved is the one there now. *)
Definition same_policy (audit : ActionAudit) (policy : ReactivePolicy) : Prop :=
  PolicyUID (a_Spec audit) = EmptyString ∨ UID (p_Meta policy) = PolicyUID (a_Spec audit).

(** ** Resolving a gate: the decision, or the clock *)
Inductive Resolved (audit : ActionAudit) (expiry : Time)
  : list IOEvent → outcome (CtrlResult * option error) → Prop :=
| rs_missing l o :
    Gate (a_Spec audit) = None →
    Closed audit PhaseDenied "record was pending with no gate description" expiry l o →
    Resolved audit expiry l o
| rs_released gate policy l o :
    Gate (a_Spec audit) = Some gate → Decision_ gate = DecisionApproved →
    same_policy audit policy → Released audit gate policy expiry l o →
    Resolved audit expiry (IoGetPolicy (policy_key audit) (inr policy) :: l) o
| rs_policy_error gate e :
    Gate (a_Spec audit) = Some gate → Decision_ gate = DecisionApproved → ¬ Is e NotFound →
    Resolved audit expiry [IoGetPolicy (policy_key audit) (inl e)]
      (Val (zero_result, Some (wrapf "fetching policy for approved gate: " e)))
| rs_policy_gone gate e l o :
    Gate (a_Spec audit) = Some gate → Decision_ gate = DecisionApproved → Is e NotFound →
    Closed audit PhaseDenied
      "the policy was deleted while the gate was open; held actions were not run" expiry l o →
    Resolved audit expiry (IoGetPolicy (policy_key audit) (inl e) :: l) o
| rs_policy_replaced gate policy l o :
    Gate (a_Spec audit) = Some gate → Decision_ gate = DecisionApproved → ¬ same_policy audit policy →
    Closed audit PhaseDenied
      "the policy was replaced while the gate was open; held actions were not run" expiry l o →
    Resolved audit expiry (IoGetPolicy (policy_key audit) (inr policy) :: l) o
| rs_denied gate l o :
    Gate (a_Spec audit) = Some gate → Decision_ gate = DecisionDenied →
    Closed audit PhaseDenied ("denied by " ++s decidedByOrUnknown (Some gate)) expiry l o →
    Resolved audit expiry l o
| rs_expired gate now l o :
    Gate (a_Spec audit) = Some gate → Decision_ gate ≠ DecisionApproved → Decision_ gate ≠ DecisionDenied →
    ExpiresAt gate <= now →
    Closed audit PhaseExpired
      ("no decision within the approval timeout; " ++s
       fmt_d (Z.of_nat (length (PendingPlugins gate))) ++s " action(s) were not run") expiry l o →
    Resolved audit expiry (IoNow now :: l) o
| rs_waiting gate now t :
    Gate (a_Spec audit) = Some gate → Decision_ gate ≠ DecisionApproved → Decision_ gate ≠ DecisionDenied →
    now < ExpiresAt gate →
    Resolved audit expiry [IoNow now; IoNow t] (Val (requeue_after (time_Sub (ExpiresAt gate) t), None)).

(** ** Reverting a record *)

Definition revert_result (rec : ActionRecord) : string → string → RevertResult :=
  mkRevertResult (rec_Index rec) (rec_Plugin rec).

Inductive reversal (rec : ActionRecord) : list IOEvent → RevertResult → Prop :=
| rv_not_succeeded :
    rec_Status rec ≠ StatusSucceeded →
    reversal rec [] (revert_result rec StatusSkipped "action did not succeed; nothing to reverse")
| rv_irreversible :
    rec_Status rec = StatusSucceeded → rec_Reversible rec = false →
    reversal rec [] (revert_result rec StatusSkipped "plugin is not reversible")
| rv_unregistered :
    rec_Status rec = StatusSucceeded → rec_Reversible rec = true → exec_Lookup exec (rec_Plugin rec) = None →
    reversal rec [] (revert_result rec StatusFailed "plugin not registered")
| rv_reversed r :
    rec_Status rec = StatusSucceeded → rec_Reversible rec = true → exec_Lookup exec (rec_Plugin rec) ≠ None →
    reversal rec [IoReverse (rec_Plugin rec) (recordToResult rec) r]
      (match r with
       | None => revert_result rec StatusSucceeded "reversed"
       | Some e => revert_result rec StatusFailed (err_msg e)
       end).

Inductive reversals : list ActionRecord → list IOEvent → list RevertResult → Prop :=
| rvs_nil : reversals [] [] []
| rvs_cons rec recs l rr ls rrs :
    reversal rec l rr → reversals recs ls rrs → reversals (rec :: recs) (l ++ ls) (rr :: rrs).

(** The status a processed revert gets. *)
Definition reverted_as (audit a' : ActionAudit) (now : Time) (results : list RevertResult) : Prop :=
  a_Meta a' = a_Meta audit ∧ a_Spec a' = a_Spec audit ∧ Reverted (a_Status a') = true ∧
  RevertedAt (a_Status a') = Some now ∧ RevertResults (a_Status a') = results ∧
  ApprovalPhase (a_Status a') = ApprovalPhase (a_Status audit).

Definition is_revert_sink (e : IOEvent) : Prop :=
  match e with IoNow _ | IoSinkRevert _ _ => True | _ => False end.

Inductive Reverting (audit : ActionAudit) (expiry : Time) : list IOEvent → outcome (CtrlResult * option error) → Prop :=
| rvt_failed l results now a' e :
    reversals (reverse (AuditActions (a_Spec audit))) l results → reverted_as audit a' now results →
    Reverting audit expiry (l ++ [IoNow now; IoStatusUpdateAudit a' (inl e)])
      (Val (write_failed e "updating audit status: "))
| rvt_done l results now a' a'' sinks t :
    reversals (reverse (AuditActions (a_Spec audit))) l results → reverted_as audit a' now results →
    Forall is_revert_sink sinks →
    Reverting audit expiry (l ++ [IoNow now; IoStatusUpdateAudit a' (inr a'')] ++ sinks ++ [IoNow t])
      (Val (requeue_after (time_Sub expiry t), None)).

(** ** The whole of [Reconcile] *)

Definition expiry_of (audit : ActionAudit) (got : error + ReactivePolicy) : Time :=
  time_Add (CreationTimestamp (a_Meta audit)) (retention_of got).

Definition delete_answer (r : option error) : CtrlResult * option error :=
  match r with
  | Some e => if decide (Is e NotFound) then (zero_result, None)
              else (zero_result, Some (wrapf "deleting expired audit record: " e))
  | None => (zero_result, None)
  end.

Inductive AuditReconciled (req : NamespacedName) : list IOEvent → outcome (CtrlResult * option error) → Prop :=
| ar_gone e : Is e NotFound → AuditReconciled req [IoGetAudit req (inl e)] (Val (zero_result, None))
| ar_error e :
    ¬ Is e NotFound →
    AuditReconciled req [IoGetAudit req (inl e)] (Val (zero_result, Some (wrapf "fetching audit record: " e)))
| ar_expired audit got t r :
    expiry_of audit got <= t →
    AuditReconciled req [IoGetAudit req (inr audit); IoGetPolicy (policy_key audit) got; IoNow t; IoDeleteAudit audit r]
      (Val (delete_answer r))
| ar_pending audit got t l o :
    t < expiry_of audit got → ApprovalPhase (a_Status audit) = PhasePending →
    Resolved audit (expiry_of audit got) l o →
    AuditReconciled req (IoGetAudit req (inr audit) :: IoGetPolicy (policy_key audit) got :: IoNow t :: l) o
| ar_revert audit got t l o :
    t < expiry_of audit got → ApprovalPhase (a_Status audit) ≠ PhasePending →
    RevertRequested (a_Spec audit) = true → Reverted (a_Status audit) = false →
    Reverting audit (expiry_of audit got) l o →
    AuditReconciled req (IoGetAudit req (inr audit) :: IoGetPolicy (policy_key audit) got :: IoNow t :: l) o
| ar_idle audit got t t' :
    t < expiry_of audit got → ApprovalPhase (a_Status audit) ≠ PhasePending →
    (RevertRequested (a_Spec audit) = false ∨ Reverted (a_Status audit) = true) →
    AuditReconciled req [IoGetAudit req (inr audit); IoGetPolicy (policy_key audit) got; IoNow t; IoNow t']
      (Val (requeue_after (time_Sub (expiry_of audit got) t'), None)).

End Release.

(** ** The steps of the reconciler, each against its relation *)

Section Steps.
Context {W : Type} `{Cluster W} `{LocalZone} `{DetailsCodec}.
Variable exec : Registry W.
Variable sink : option (Sink W).
Hypothesis Hexec : registry_ok exec.

Lemma set_audit_condition_spec audit ty s r msg (st : St W) (Q : outcome ActionAudit → list IOEvent → St W → Prop) :
  (∀ cs w, Q (Val (set_AuditConditions audit cs)) [] (mkSt w (mem st) (log st))) →
  wp (set_audit_condition audit ty s r msg) st Q.
Proof. intros HQ. unfold set_audit_condition. repeat wp_step. apply HQ. Qed.

Lemma startCooldown_spec policy at_ (st : St W) :
  wp (startCooldown policy at_) st (λ o l st', o = Val tt ∧ ∃ r, l = [IoStatusUpdatePolicy (cooled policy at_) r]).
Proof. unfold startCooldown. repeat wp_step. split; [done|by eexists]. Qed.

(** Marking the gate closed, once the skipped actions are noted. *)
Lemma closeGate_noted audit phase reason message expiry pre audit2 (st : St W) :
  noted audit message pre audit2 →
  wp (now ← Now;
      audit ← set_audit_condition (set_ApprovalPhase audit2 phase) ConditionApproved ConditionFalse reason message;
      updated ← StatusUpdateAudit audit;
      match updated with
      | inl err => mret (write_failed err "updating gate status: ")
      | inr audit =>
          modify_metrics (RecordGateResolved (Namespace (a_Meta audit))
            (if decide (phase = PhaseExpired) then "expired" else "denied") (gateWaited audit now));;;
          got ← GetPolicy (mkNN (Namespace (a_Meta audit)) (PolicyRef (a_Spec audit)));
          match got with
          | inl _ => mret tt
          | inr policy => startCooldown policy now
          end;;;
          left ← Until expiry;
          mret (requeue_after left, None)
      end) st (λ o l st', Closed audit phase message expiry (pre ++ l) o).
Proof.
  intros Hnoted. repeat wp_step. apply set_audit_condition_spec. intros cs ?.
  repeat wp_step. destruct a0 as [e|a'']; simpl.
  { wp_step. by eapply cl_status_failed. }
  repeat wp_step. destruct a0 as [e|policy].
  - repeat wp_step. simpl. change ([?a; ?b; ?c; ?d]) with ([a; b] ++ [c] ++ [d]).
    eapply cl_done; [done|done|constructor].
  - eapply wp_mono; [apply startCooldown_spec|]. intros ? l1 st1 (-> & r & ->). repeat wp_step. simpl.
    change ([?a; ?b; ?c; ?d; ?e]) with ([a; b] ++ [c; d] ++ [e]).
    eapply cl_done; [done|done|constructor].
Qed.

Lemma closeGate_spec audit phase reason message expiry (st : St W) :
  wp (closeGate audit phase reason message expiry) st (λ o l st', Closed audit phase message expiry l o).
Proof.
  unfold closeGate. wp_step.
  destruct (Gate (a_Spec audit)) as [gate|] eqn:Hg; [case_decide as Hp|].
  - wp_step. wp_step. assert (held audit ≠ []) as Hheld by (unfold held; by rewrite Hg).
    assert (skip_held audit message = set_AuditActions audit
      (AuditActions (a_Spec audit) ++
       skipped_records (Z.of_nat (length (AuditActions (a_Spec audit)))) message (PendingPlugins gate))) as Hskip
      by (unfold skip_held, held; by rewrite Hg).
    rewrite <- Hskip. destruct a as [e|audit2].
    + wp_step. by apply cl_update_failed.
    + apply (closeGate_noted _ _ _ _ _ [_]). by constructor.
  - wp_step. apply (closeGate_noted _ _ _ _ _ []). constructor. unfold held. by rewrite Hg.
  - wp_step. apply (closeGate_noted _ _ _ _ _ []). constructor. unfold held. by rewrite Hg.
Qed.

(** The record of a release, after the run. *)
Lemma release_tail_spec audit gate policy results expiry (st : St W) :
  wp (written ← UpdateAudit (append_results exec audit results);
      match written with
      | inl err => mret (write_failed err "recording released actions: ")
      | inr audit =>
          now ← Now;
          audit ← set_audit_condition (set_ResumedAt (set_ApprovalPhase audit PhaseApproved) (Some now))
                    ConditionApproved ConditionTrue "Released"
                    ("approved by " ++s decidedByOrUnknown (Some gate) ++s "; ran " ++s
                     fmt_d (Z.of_nat (length results)) ++s " held action(s)");
          updated ← StatusUpdateAudit audit;
          match updated with
          | inl err => mret (write_failed err "updating gate status: ")
          | inr audit =>
              modify_metrics (RecordGateResolved (Namespace (a_Meta audit)) "approved" (gateWaited audit now));;;
              forward_trigger sink (bool_decide (results ≠ [])) audit;;;
              startCooldown policy now;;;
              left ← Until expiry;
              mret (requeue_after left, None)
          end
      end) st (λ o l st', Release_recorded exec audit policy results expiry l o).
Proof.
  repeat wp_step. destruct a as [e|audit2].
  { repeat wp_step. simpl. constructor. }
  repeat wp_step. apply set_audit_condition_spec. intros cs ?. repeat wp_step. destruct a0 as [e|a''].
  { repeat wp_step. simpl. by eapply rr_status_failed. }
  repeat wp_step. eapply wp_mono; [apply forward_trigger_spec|]. intros ? ls st1 (-> & Hls & _).
  repeat wp_step. eapply wp_mono; [apply startCooldown_spec|]. intros ? l1 st2 (-> & r & ->).
  repeat wp_step. simpl.
  change (?a :: ?b :: ?c :: ?l) with ([a; b; c] ++ l). by eapply rr_done.
Qed.

Lemma releaseGate_spec ctx audit gate expiry (st : St W) :
  Gate (a_Spec audit) = Some gate → Decision_ gate = DecisionApproved →
  wp (releaseGate exec sink ctx audit gate expiry) st (λ o l st', Resolved exec audit expiry l o).
Proof.
  intros Hg Hd. unfold releaseGate. repeat wp_step. destruct a as [e|policy'].
  - case_decide; simpl.
    + eapply wp_mono; [apply closeGate_spec|]. intros o l st' Hc. by eapply rs_policy_gone.
    + repeat wp_step. by eapply rs_policy_error.
  - case_decide as Huid.
    + eapply wp_mono; [apply closeGate_spec|]. intros o l st' Hc. eapply rs_policy_replaced; [done..| |done].
      unfold same_policy. tauto.
    + assert (same_policy audit policy') as Hsame.
      { unfold same_policy. destruct (decide (PolicyUID (a_Spec audit) = EmptyString)); [by left|right].
        apply dec_stable. tauto. }
      fold (act_on (Namespace (a_Meta audit)) (of_AuditTarget <$> GateTargets gate)). fold (gate_targets audit gate).
      fold (results_cap audit gate policy').
      case_decide as Hcap.
      { wp_step. eapply rs_released; [done..|]. by constructor. }
      wp_step. fold (append_results exec audit).
      eapply wp_mono; [apply (wp_conj _ _ _ _ (Emits_run_targets _ _ _ _ _ _ _ _) (run_targets_spec _ Hexec _ _ _ _ _ _ _))|].
      intros ? runs st2 [Hruns (results & runErr & -> & Hran)].
      eapply wp_mono; [apply release_tail_spec|]. intros o tail st' Htail. simpl.
      eapply rs_released; [done..|]. eapply rl_ran; [lia|done..].
Qed.

Lemma resolveGate_spec ctx audit expiry (st : St W) :
  wp (resolveGate exec sink ctx audit expiry) st (λ o l st', Resolved exec audit expiry l o).
Proof.
  unfold resolveGate. destruct (Gate (a_Spec audit)) as [gate|] eqn:Hg.
  2: { eapply wp_mono; [apply closeGate_spec|]. intros o l st' Hc. by apply rs_missing. }
  case_decide; [by apply releaseGate_spec|]. case_decide.
  { eapply wp_mono; [apply closeGate_spec|]. intros o l st' Hc. by eapply rs_denied. }
  repeat wp_step. case_decide as Hexp.
  - eapply wp_mono; [apply closeGate_spec|]. intros o l st' Hc. eapply rs_expired; [done..| |done].
    unfold time_Before in Hexp. lia.
  - repeat wp_step. eapply rs_waiting; [done..|]. unfold time_Before in Hexp. lia.
Qed.

Lemma reverseOne_spec ctx rec (st : St W) :
  wp (reverseOne exec ctx rec) st (λ o l st', ∃ rr, o = Val rr ∧ reversal exec rec l rr).
Proof using Hexec.
  unfold reverseOne. case_decide as Hs.
  { wp_step. eexists. split; [done|]. by apply rv_not_succeeded. }
  destruct (rec_Reversible rec) eqn:Hr; simpl.
  2: { wp_step. eexists. split; [done|]. by apply rv_irreversible. }
  destruct (exec_Lookup exec (rec_Plugin rec)) as [plugin|] eqn:Hl.
  2: { wp_step. eexists. split; [done|]. by apply rv_unregistered. }
  repeat wp_step. rewrite (Hexec _ _ Hl). destruct a as [e|]; wp_step; (eexists; split; [done|]; simpl).
  - apply (rv_reversed _ rec (Some e)); [done..|by rewrite Hl].
  - apply (rv_reversed _ rec None); [done..|by rewrite Hl].
Qed.

Lemma reverse_all_spec ctx recs acc (st : St W) :
  wp (foldM (λ acc rec, rr ← reverseOne exec ctx rec; mret (acc ++ [rr])) acc recs) st (λ o l st',
    ∃ rrs, o = Val (acc ++ rrs) ∧ reversals exec recs l rrs).
Proof using Hexec.
  revert acc st. induction recs as [|rec recs IH]; intros acc st; simpl.
  - wp_step. exists []. rewrite app_nil_r. split; [done|constructor].
  - repeat wp_step. eapply wp_mono; [apply reverseOne_spec|]. intros ? l st1 (rr & -> & Hrev).
    repeat wp_step. eapply wp_mono; [apply IH|]. intros ? ls st2 (rrs & -> & Hrevs).
    exists (rr :: rrs). rewrite <- app_assoc, app_nil_r. split; [done|by constructor].
Qed.

Lemma revert_spec ctx audit expiry (st : St W) :
  wp (revert exec sink ctx audit expiry) st (λ o l st', Reverting exec audit expiry l o).
Proof using Hexec.
  unfold revert. wp_step. eapply wp_mono; [apply reverse_all_spec|]. intros ? l st1 (results & -> & Hrev).
  repeat wp_step. apply set_audit_condition_spec. intros cs ?. repeat wp_step. destruct a0 as [e|a''].
  { repeat wp_step. simpl. by eapply rvt_failed. }
  destruct sink as [s|]; repeat wp_step; simpl.
  - change ([?a; ?b; ?c; ?d; ?e]) with ([a; b] ++ [c; d] ++ [e]).
    eapply rvt_done; [done|done|by repeat constructor].
  - change ([?a; ?b; ?c]) with ([a; b] ++ [] ++ [c]). eapply rvt_done; [done|done|constructor].
Qed.

Lemma audit_Reconcile_wp ctx req (st : St W) :
  wp (Reconcile exec sink ctx req) st (λ o l st', AuditReconciled exec req l o).
Proof using Hexec.
  unfold Reconcile. repeat wp_step. destruct a as [e|audit].
  { case_decide; wp_step; simpl; by constructor. }
  unfold retentionFor. repeat wp_step. fold (policy_key audit) in *. fold (expiry_of audit a).
  case_decide as Hrem.
  { repeat wp_step. assert (¬ 0 < time_Sub (expiry_of audit a) a0) as Hle by lia. rewrite time_Sub_pos in Hle.
    assert (∀ r, AuditReconciled exec req [IoGetAudit req (inr audit); IoGetPolicy (policy_key audit) a; IoNow a0;
              IoDeleteAudit audit r] (Val (delete_answer r))) as Hdel by (intros; apply ar_expired; lia).
    destruct a1 as [e|]; [|wp_step; apply (Hdel None)]. specialize (Hdel (Some e)). unfold delete_answer in Hdel.
    destruct (decide (Is e NotFound)) as [Hnf|Hnf]; [rewrite decide_False by tauto|rewrite decide_True by done];
      by wp_step. }
  assert (0 < time_Sub (expiry_of audit a) a0) as Hlt by lia. rewrite time_Sub_pos in Hlt.
  case_decide as Hph.
  { eapply wp_mono; [apply resolveGate_spec|]. intros o l st' Hr. simpl. by apply ar_pending. }
  destruct (RevertRequested (a_Spec audit) && negb (Reverted (a_Status audit))) eqn:Hrev.
  - apply andb_true_iff in Hrev as [? Hrev]. apply negb_true_iff in Hrev.
    eapply wp_mono; [apply revert_spec|]. intros o l st' Hr. simpl. by apply ar_revert.
  - repeat wp_step. simpl. apply ar_idle; [done..|].
    apply andb_false_iff in Hrev as [?|Hrev]; [by left|right]. by apply negb_false_iff in Hrev.
Qed.

End Steps.
