(* ===== verification/AuditTheorems.v ===== *)
(** * Theorems about the ActionAudit reconciler

    What an approval releases, what a refusal leaves, what a revert undoes,
    when a record is reclaimed, and when the reconciler panics. *)

From S2P Require Import Prelude GoLib FloatLib GoTime Api ActionTypes Metrics Effects Logic Evaluator Limiter Registry Executor AuditWriter PolicyController AuditController Fake PolicySpec AuditSpec.

(** ** No plugin runs while a gate is closed *)

Lemma noted_no_plugin audit msg pre audit2 : noted audit msg pre audit2 → Forall no_plugin pre.
Proof. destruct 1; by repeat constructor. Qed.

Lemma cooling_started_no_plugin nn now cool : cooling_started nn now cool → Forall no_plugin cool.
Proof. destruct 1; by repeat constructor. Qed.

Lemma Closed_no_plugin audit phase msg expiry l o : Closed audit phase msg expiry l o → Forall no_plugin l ∧ ∃ r, o = Val r.
Proof.
  destruct 1 as [e|pre audit2 now a' e Hn|pre audit2 now a' a'' cool t Hn _ Hc]; (split; [|by eexists]).
  - by repeat constructor.
  - apply Forall_app. split; [by eapply noted_no_plugin|by repeat constructor].
  - apply noted_no_plugin in Hn. apply cooling_started_no_plugin in Hc.
    rewrite !Forall_app. split_and!; by repeat constructor.
Qed.

(** What the status writes of a closing say. *)
Lemma Closed_status audit phase msg expiry l o a' r :
  Closed audit phase msg expiry l o → IoStatusUpdateAudit a' r ∈ l →
  ApprovalPhase (a_Status a') = phase ∧
  (held audit ≠ [] → ∃ u, IoUpdateAudit (skip_held audit msg) (inr u) ∈ l ∧ a_Spec a' = a_Spec u).
Proof.
  assert (∀ pre audit2 a0 r0 now rest, noted audit msg pre audit2 →
    resolved_as audit2 a0 phase (ResumedAt (a_Status audit2)) → (∀ a1 r1, IoStatusUpdateAudit a1 r1 ∉ rest) →
    IoStatusUpdateAudit a' r ∈ pre ++ IoNow now :: IoStatusUpdateAudit a0 r0 :: rest →
    ApprovalPhase (a_Status a') = phase ∧
    (held audit ≠ [] → ∃ u, IoUpdateAudit (skip_held audit msg) (inr u) ∈ pre ++ IoNow now :: IoStatusUpdateAudit a0 r0 :: rest ∧
                            a_Spec a' = a_Spec u)) as Hgo.
  { intros pre audit2 a0 r0 now rest Hn (_ & Hspec & Hph & _) Hrest Hin.
    assert (a' = a0) as ->.
    { apply elem_of_app in Hin as [Hin|Hin].
      - destruct Hn; [by apply elem_of_nil in Hin|]. by apply list_elem_of_singleton in Hin.
      - apply elem_of_cons in Hin as [?|Hin]; [done|]. apply elem_of_cons in Hin as [[= -> ->]|Hin]; [done|].
        by destruct (Hrest a' r). }
    split; [done|]. intros Hheld. destruct Hn as [?|u Hh]; [done|]. exists u. split; [left|done]. }
  destruct 1 as [e|pre audit2 now a0 e Hn Ha|pre audit2 now a0 a'' cool t Hn Ha Hc]; intros Hin.
  - by apply list_elem_of_singleton in Hin.
  - eapply (Hgo pre); [done..| |done]. intros ??. apply not_elem_of_nil.
  - eapply (Hgo pre); [done..| |done]. intros a1 r1 Hin1. destruct Hc; simpl in Hin1; rewrite !elem_of_cons, elem_of_nil in Hin1; by destruct_or? Hin1.
Qed.

Definition not_update (e : IOEvent) : Prop := match e with IoUpdateAudit _ _ => False | _ => True end.

Lemma not_update_quiet l : Forall is_run l ∨ Forall is_sink l → Forall not_update l.
Proof. intros [Hl|Hl]; (eapply Forall_impl; [exact Hl|]); by intros []. Qed.

Lemma no_status_in_sinks l a r : Forall is_sink l → IoStatusUpdateAudit a r ∉ l.
Proof. rewrite Forall_forall. intros Hl Hin. by apply (Hl _ Hin). Qed.

Section Theorems.
Context {W : Type} `{Cluster W} `{LocalZone} `{DetailsCodec}.
Variable exec : Registry W.
Variable sink : option (Sink W).
Hypothesis Hexec : registry_ok exec.

Lemma Release_recorded_no_plugin audit policy results expiry tail o :
  Release_recorded exec audit policy results expiry tail o → Forall no_plugin tail ∧ ∃ r, o = Val r.
Proof.
  destruct 1 as [e|audit2 now a' e|audit2 now a' a'' sinks r t _ Hs]; (split; [|by eexists]); [by repeat constructor..|].
  rewrite !Forall_app. split_and!; [by repeat constructor|by apply is_sink_no_plugin|by repeat constructor].
Qed.

Lemma reversal_calls rec l rr :
  reversal exec rec l rr → executed l = [] ∧ rr_Index rr = rec_Index rec ∧ rr_Plugin rr = rec_Plugin rec.
Proof. destruct 1 as [| | |[e|]]; done. Qed.

(** The Reverse calls a revert makes on records visited in the order given. *)
Definition revert_calls (recs : list ActionRecord) : list (string * Result) :=
  omap (λ rec, if decide (rec_Status rec = StatusSucceeded ∧ rec_Reversible rec = true) then
                 match exec_Lookup exec (rec_Plugin rec) with
                 | Some _ => Some (rec_Plugin rec, recordToResult rec)
                 | None => None
                 end
               else None) recs.

Lemma reversals_calls recs l rrs :
  reversals exec recs l rrs →
  executed l = [] ∧ reversed l = revert_calls recs ∧
  Forall2 (λ rec rr, rr_Index rr = rec_Index rec ∧ rr_Plugin rr = rec_Plugin rec) recs rrs.
Proof.
  induction 1 as [|rec recs l rr ls rrs Hr _ (IHe & IHv & IHf)]; [done|].
  destruct (reversal_calls _ _ _ Hr) as (He & Hi & Hp). split_and!.
  - by rewrite executed_app, He, IHe.
  - rewrite reversed_app, IHv. unfold revert_calls at 2. simpl. fold (revert_calls recs).
    destruct Hr as [Hs|Hs Hrev|Hs Hrev Hl|r Hs Hrev Hl]; simpl.
    + rewrite decide_False by tauto. done.
    + rewrite decide_False by (intros [_ ?]; congruence). done.
    + rewrite decide_True by done. by rewrite Hl.
    + rewrite decide_True by done. by destruct (exec_Lookup exec (rec_Plugin rec)).
  - by constructor.
Qed.

(** The record first; then, if all goes well, the cooldown. *)
Lemma Release_recorded_shape audit policy results expiry tail o :
  Release_recorded exec audit policy results expiry tail o →
  ∃ r post, tail = IoUpdateAudit (append_results exec audit results) r :: post ∧
    Forall not_update post ∧ Forall no_plugin post ∧
    (∀ a' a'', IoStatusUpdateAudit a' (inr a'') ∈ post →
       ApprovalPhase (a_Status a') = PhaseApproved ∧
       ∃ now w, ResumedAt (a_Status a') = Some now ∧ IoStatusUpdatePolicy (cooled policy now) w ∈ post).
Proof using Type.
  intros Hrec. pose proof (proj1 (Release_recorded_no_plugin _ _ _ _ _ _ Hrec)) as Hnp.
  destruct Hrec as [e|audit2 now a' e Hres|audit2 now a' a'' sinks r t' Hres Hs]; simpl in *;
    apply Forall_cons in Hnp as [_ Hnp]; eexists _, _; (split_and!; [done| |done|]).
  - constructor.
  - intros ?? Hin. by apply elem_of_nil in Hin.
  - by repeat constructor.
  - intros a0 a1 Hin. rewrite !elem_of_cons, elem_of_nil in Hin. by destruct_or? Hin.
  - do 2 (constructor; [done|]). apply Forall_app. split; [apply not_update_quiet; by right|by repeat constructor].
  - destruct Hres as (_ & _ & Hph & Hre & _). intros a0 a1 Hin.
    assert (a0 = a') as ->.
    { rewrite !elem_of_cons, elem_of_app, !elem_of_cons, elem_of_nil in Hin.
      destruct_or? Hin; try done; [by simplify_eq|by apply no_status_in_sinks in Hin]. }
    split; [done|]. exists now, r. split; [done|]. do 2 right. apply elem_of_app. right. left.
Qed.

Definition not_delete (e : IOEvent) : Prop := match e with IoDeleteAudit _ _ => False | _ => True end.

Lemma not_delete_quiet l : Forall is_run l ∨ Forall is_sink l → Forall not_delete l.
Proof using Type. intros [Hl|Hl]; (eapply Forall_impl; [exact Hl|]); by intros []. Qed.

Lemma reversals_not_delete recs l rrs : reversals exec recs l rrs → Forall not_delete l.
Proof using Type.
  induction 1 as [|rec recs l rr ls rrs Hr _ IH]; [constructor|]. apply Forall_app. split; [|done].
  destruct Hr; by repeat constructor.
Qed.

Lemma Closed_not_delete audit phase msg expiry l o : Closed audit phase msg expiry l o → Forall not_delete l.
Proof using Type.
  destruct 1 as [|? ? ? ? ? Hn|? ? ? ? ? ? ? Hn _ Hc]; [by repeat constructor| |];
    destruct Hn; try destruct Hc; by repeat constructor.
Qed.

Lemma Resolved_not_delete audit expiry l o : Resolved exec audit expiry l o → Forall not_delete l.
Proof using Type.
  destruct 1 as [? ? ? Hc|gate policy l o Hg Hd Hs Hrel| |? ? ? ? ? ? ? Hc|? ? ? ? ? ? ? Hc|? ? ? ? ? Hc|? ? ? ? ? ? ? ? Hc|];
    try (apply Closed_not_delete in Hc); try (by repeat constructor); try done.
  constructor; [done|]. destruct Hrel as [|runs results tail o _ Hruns _ Htail]; [constructor|].
  apply Forall_app. split; [by apply not_delete_quiet; left|].
  destruct Htail as [|? ? ? ? ?|? ? ? ? sinks ? ? _ Hsinks]; try (by repeat constructor).
  do 3 (constructor; [done|]). apply Forall_app. split; [by apply not_delete_quiet; right|by repeat constructor].
Qed.

(** What executing a plugin shows about a reconciliation. *)
Inductive Approved_run (req : NamespacedName) (audit : ActionAudit) (gate : ApprovalGate) (policy : ReactivePolicy)
  : list IOEvent → list IOEvent → outcome (CtrlResult * option error) → Prop :=
| approved_run got t expiry runs results tail o :
    ApprovalPhase (a_Status audit) = PhasePending → Gate (a_Spec audit) = Some gate →
    Decision_ gate = DecisionApproved → same_policy audit policy →
    t < expiry_of audit got →
    Forall is_run runs →
    targets_ran exec policy (MetricValue (a_Spec audit)) (ActionIndex gate)
      (Z.of_nat (length (Actions (p_Spec policy)))) (gate_targets audit gate) results (executed runs) (reversed runs) →
    Release_recorded exec audit policy results expiry tail o →
    Approved_run req audit gate policy
      (IoGetAudit req (inr audit) :: IoGetPolicy (policy_key audit) got :: IoNow t ::
       IoGetPolicy (policy_key audit) (inr policy) :: runs ++ tail) runs o.

Lemma AuditReconciled_cases req l o :
  AuditReconciled exec req l o → executed l ≠ [] →
  ∃ audit gate policy runs, Approved_run req audit gate policy l runs o ∧ executed l = executed runs.
Proof.
  assert (∀ l, Forall no_plugin l → executed l = []) as Hq by (intros l' Hl; by apply no_plugin_quiet).
  destruct 1 as [e He|e He|audit got t r Hle|audit got t l o Hlt Hph Hres|audit got t l o Hlt Hph _ _ Hrev|audit got t t' Hlt Hph Hi];
    try (intros Hex; by destruct Hex).
  - destruct Hres as [l o _ Hc|gate policy l o Hg Hd Hsame Hrel|gate e|gate e l o _ _ _ Hc|gate policy l o _ _ _ Hc
      |gate l o _ _ Hc|gate now l o _ _ _ _ Hc|]; try (intros Hex; by destruct Hex);
      try (intros Hex; destruct (Closed_no_plugin _ _ _ _ _ _ Hc) as [Hl _]; by destruct Hex; apply (Hq l Hl)).
    destruct Hrel as [|runs results tail o Hcap Hruns Hran Htail]; intros Hex; [by destruct Hex|].
    exists audit, gate, policy, runs. split; [by eapply approved_run|]. simpl. rewrite executed_app.
    destruct (Release_recorded_no_plugin _ _ _ _ _ _ Htail) as [Ht _]. rewrite (Hq _ Ht). by rewrite app_nil_r.
  - intros Hex. exfalso. apply Hex. simpl. destruct Hrev as [l results now a' e Hrevs|l results now a' a'' sinks t' Hrevs _ Hs];
      destruct (reversals_calls _ _ _ Hrevs) as (He & _ & _); rewrite !executed_app, He; [done|].
    simpl. rewrite executed_nil; [done|]. eapply Forall_impl; [exact Hs|]. by intros [].
Qed.

(** C3. Held actions run only on an approval: a plugin runs here only for a
    record that is Pending with an Approved decision, whose policy is still the
    one it was written for (same UID), before the record's retention ends; only
    actions from the gate's index on run, on the targets the gate recorded,
    with the metric value of the trigger. *)
Theorem release_needs_approval ctx req (st : St W) :
  wp (AuditController.Reconcile exec sink ctx req) st (λ o l st',
    ∀ p inp, (p, inp) ∈ executed l →
      ∃ audit gate policy i act,
        IoGetAudit req (inr audit) ∈ l ∧ IoGetPolicy (policy_key audit) (inr policy) ∈ l ∧
        ApprovalPhase (a_Status audit) = PhasePending ∧ Gate (a_Spec audit) = Some gate ∧
        Decision_ gate = DecisionApproved ∧ same_policy audit policy ∧
        Actions (p_Spec policy) !! i = Some act ∧ (Z.to_nat (ActionIndex gate) <= i)%nat ∧ p = Plugin act ∧
        in_Params inp = ParamsFromCRD (ActParams act) ∧ in_Target inp ∈ gate_targets audit gate ∧
        in_MetricValue inp = MetricValue (a_Spec audit)).
Proof using Hexec.
  eapply wp_mono; [by apply audit_Reconcile_wp|]. intros o l st' Hr p inp Hin.
  destruct (AuditReconciled_cases _ _ _ Hr) as (audit & gate & policy & runs & Hrun & Hex).
  { intros Hnil. rewrite Hnil in Hin. by apply elem_of_nil in Hin. }
  rewrite Hex in Hin. destruct Hrun as [got t expiry runs results tail o Hph Hg Hd Hsame Hlt Hruns Hran Hrec].
  destruct (targets_ran_calls _ _ _ _ _ _ _ _ _ _ _ Hran Hin) as (act & target & clock & Hact & Ht & -> & ->).
  apply slice_elem in Hact as (i & Hi & Hge & _). exists audit, gate, policy, i, act.
  split_and!; try done; [left|do 3 right; left].
Qed.

(** A release is recorded once: after the held actions ran there is exactly
    one Update of the record, which appends one entry per plugin call on that
    call's target (when every plugin is registered) and leaves the earlier
    entries alone; no plugin runs after it; and when both writes of the record
    succeed the policy's cooldown starts and its gate reference is dropped. *)
Lemma release_recorded ctx req (st : St W) :
  wp (AuditController.Reconcile exec sink ctx req) st (λ o l st',
    executed l ≠ [] → ∃ audit policy recs r pre post,
      IoGetAudit req (inr audit) ∈ pre ∧ IoGetPolicy (policy_key audit) (inr policy) ∈ pre ∧
      l = pre ++ IoUpdateAudit (set_AuditActions audit (AuditActions (a_Spec audit) ++ recs)) r :: post ∧
      Forall not_update pre ∧ Forall not_update post ∧ Forall no_plugin post ∧
      (Forall (λ act, exec_Lookup exec (Plugin act) ≠ None) (Actions (p_Spec policy)) →
         Forall2 (λ rec call, rec_Target rec = to_AuditTarget (in_Target call.2)) recs (executed l)) ∧
      (∀ a' a'', IoStatusUpdateAudit a' (inr a'') ∈ post →
         ApprovalPhase (a_Status a') = PhaseApproved ∧
         ∃ now w, ResumedAt (a_Status a') = Some now ∧ IoStatusUpdatePolicy (cooled policy now) w ∈ post)).
Proof using Hexec.
  eapply wp_mono; [by apply audit_Reconcile_wp|]. intros o l st' Hr Hne.
  destruct (AuditReconciled_cases _ _ _ Hr Hne) as (audit & gate & policy & runs & Hrun & ->).
  destruct Hrun as [got t expiry runs results tail o Hph Hg Hd Hsame Hlt Hruns Hran Hrec].
  destruct (Release_recorded_shape _ _ _ _ _ _ Hrec) as (r & post & -> & Hupd & Hpl & Hstat).
  eexists audit, policy, _, r, (_ :: _ :: _ :: _ :: runs), post.
  split_and!; [left|do 3 right; left|done| |done|done| |done].
  - do 4 (constructor; [done|]). apply not_update_quiet. by left.
  - intros Hreg. apply to_records_targets. eapply targets_ran_aligned; [|done].
    unfold slice. by apply Forall_take, Forall_drop.
Qed.

(** C15. A refusal runs nothing and says so: for a pending record whose gate is
    not approved no plugin is executed or reversed; the phase becomes Denied
    only on a Denied decision and Expired only without a decision once the gate
    has lapsed; and before any phase is written each held plugin has been
    recorded as Skipped. *)
Theorem refusal_runs_nothing ctx req (st : St W) :
  wp (AuditController.Reconcile exec sink ctx req) st (λ o l st',
    ∀ audit gate rest, l = IoGetAudit req (inr audit) :: rest →
      ApprovalPhase (a_Status audit) = PhasePending → Gate (a_Spec audit) = Some gate →
      Decision_ gate ≠ DecisionApproved →
      executed l = [] ∧ reversed l = [] ∧
      ∀ a' r, IoStatusUpdateAudit a' r ∈ l →
        (Decision_ gate = DecisionDenied ∧ ApprovalPhase (a_Status a') = PhaseDenied ∨
         Decision_ gate ≠ DecisionDenied ∧ ApprovalPhase (a_Status a') = PhaseExpired ∧
           ∃ now, IoNow now ∈ l ∧ ExpiresAt gate <= now) ∧
        (PendingPlugins gate ≠ [] →
           ∃ msg u, IoUpdateAudit (skip_held audit msg) (inr u) ∈ l ∧ a_Spec a' = a_Spec u)).
Proof using Hexec.
  eapply wp_mono; [by apply audit_Reconcile_wp|]. intros o l st' Hr audit gate rest Hl Hph Hg Hd.
  assert (held audit = PendingPlugins gate) as Hheld by (unfold held; by rewrite Hg).
  inversion Hr as [e He|e He|a got t r Hle|a got t l' o' Hlt Hph' Hres|a got t l' o' Hlt Hph' _ _ Hrev|a got t t' Hlt Hph' Hi];
    subst; simplify_eq.
  - split_and!; [done..|]. intros a' r' Hin. exfalso. rewrite !elem_of_cons, elem_of_nil in Hin. by destruct_or? Hin.
  - inversion Hres as [| | | | |gate' l0 o0 Hg' Hden Hc|gate' now l0 o0 Hg' _ Hnd Hexp Hc|gate' now t0 Hg' _ Hnd Hlt']; subst; simplify_eq.
    + destruct (Closed_no_plugin _ _ _ _ _ _ Hc) as [Hnp _]. destruct (no_plugin_quiet _ Hnp) as [He Hv].
      split_and!; [done..|]. intros a' r' Hin. rewrite !elem_of_cons in Hin. destruct_or? Hin; try done.
      destruct (Closed_status _ _ _ _ _ _ _ _ Hc Hin) as [Hp' Hskip]. split; [by left|].
      rewrite <- Hheld. intros Hne. destruct (Hskip Hne) as (u & Hu & Hs). eexists _, u. split; [by do 3 right|done].
    + destruct (Closed_no_plugin _ _ _ _ _ _ Hc) as [Hnp _]. destruct (no_plugin_quiet _ Hnp) as [He Hv].
      split_and!; [done..|]. intros a' r' Hin. rewrite !elem_of_cons in Hin. destruct_or? Hin; try done.
      destruct (Closed_status _ _ _ _ _ _ _ _ Hc Hin) as [Hp' Hskip]. split.
      * right. split_and!; [done|done|]. exists now. split; [do 3 right; left|done].
      * rewrite <- Hheld. intros Hne. destruct (Hskip Hne) as (u & Hu & Hs). eexists _, u. split; [by do 4 right|done].
    + split_and!; [done..|]. intros a' r' Hin. exfalso. rewrite !elem_of_cons, elem_of_nil in Hin. by destruct_or? Hin.
Qed.

(** Reverting: outside an open gate nothing is executed, and Reverse is
    called exactly for the entries that succeeded with a reversible, registered
    plugin, last first; it happens only on a request not yet served; and every
    status write marks the record reverted with one result per entry, so a
    second pass calls nothing. *)
Lemma revert_exact ctx req (st : St W) :
  wp (AuditController.Reconcile exec sink ctx req) st (λ o l st',
    ∀ audit rest, l = IoGetAudit req (inr audit) :: rest → ApprovalPhase (a_Status audit) ≠ PhasePending →
      executed l = [] ∧
      (reversed l = [] ∨
       RevertRequested (a_Spec audit) = true ∧ Reverted (a_Status audit) = false ∧
       reversed l = revert_calls (reverse (AuditActions (a_Spec audit)))) ∧
      ∀ a' r, IoStatusUpdateAudit a' r ∈ l →
        RevertRequested (a_Spec audit) = true ∧ Reverted (a_Status a') = true ∧
        reversed l = revert_calls (reverse (AuditActions (a_Spec audit))) ∧
        Forall2 (λ rec rr, rr_Index rr = rec_Index rec ∧ rr_Plugin rr = rec_Plugin rec)
          (reverse (AuditActions (a_Spec audit))) (RevertResults (a_Status a'))).
Proof using Hexec.
  eapply wp_mono; [by apply audit_Reconcile_wp|]. intros o l st' Hr audit rest Hl Hph.
  inversion Hr as [e He|e He|a got t r Hle|a got t l' o' Hlt Hph' Hres|a got t l' o' Hlt Hph' Hreq Hnot Hrev|a got t t' Hlt Hph' Hi];
    subst; simplify_eq.
  - split_and!; [done|by left|]. intros a' r' Hin. rewrite !elem_of_cons, elem_of_nil in Hin. by destruct_or? Hin.
  - assert (∃ l1 results now a0 r0 sinks, l' = l1 ++ IoNow now :: IoStatusUpdateAudit a0 r0 :: sinks ∧
      reversals exec (reverse (AuditActions (a_Spec audit))) l1 results ∧ reverted_as audit a0 now results ∧
      Forall is_revert_sink sinks) as (l1 & results & now & a0 & r0 & sinks & -> & Hrevs & Ha & Hs).
    { destruct Hrev as [l1 results now a0 e Hrevs Ha|l1 results now a0 a'' sinks t' Hrevs Ha Hs].
      - eexists l1, results, now, a0, _, []. split_and!; done.
      - eexists l1, results, now, a0, _, (sinks ++ [IoNow t']). split_and!; try done.
        apply Forall_app. split; [done|by repeat constructor]. }
    destruct (reversals_calls _ _ _ Hrevs) as (He & Hv & Hf). destruct Ha as (_ & _ & Hrv & _ & Hrr & _).
    assert (executed sinks = [] ∧ reversed sinks = []) as [Hes Hvs].
    { apply no_plugin_quiet. eapply Forall_impl; [exact Hs|]. by intros []. }
    assert (reversed (IoGetAudit req (inr audit) :: IoGetPolicy (policy_key audit) got :: IoNow t ::
              l1 ++ IoNow now :: IoStatusUpdateAudit a0 r0 :: sinks) =
            revert_calls (reverse (AuditActions (a_Spec audit)))) as Hrev'.
    { simpl. rewrite reversed_app, Hv. simpl. rewrite Hvs. apply app_nil_r. }
    split_and!; [simpl; by rewrite executed_app, He|by right|]. intros a' r' Hin.
    assert (a' = a0) as ->.
    { do 3 (apply elem_of_cons in Hin as [?|Hin]; [done|]).
      apply elem_of_app in Hin as [Hin|Hin].
      - exfalso. clear -Hrevs Hin. induction Hrevs as [|rec recs l rr ls rrs Hr _ IH]; [by apply elem_of_nil in Hin|].
        apply elem_of_app in Hin as [Hin|Hin]; [|by apply IH].
        destruct Hr; rewrite ?elem_of_cons, elem_of_nil in Hin; by destruct_or? Hin.
      - apply elem_of_cons in Hin as [?|Hin]; [done|]. apply elem_of_cons in Hin as [[=]|Hin]; [done|].
        rewrite Forall_forall in Hs. by apply Hs in Hin. }
    by rewrite Hrr.
  - split_and!; [done|by left|]. intros a' r' Hin. exfalso. rewrite !elem_of_cons, elem_of_nil in Hin.
    by destruct_or? Hin.
Qed.

(** Retention: a record is deleted exactly when the retention its policy
    asks for has run out, counted from its creation, and then nothing else
    happens to it. *)
Lemma retention_sweep ctx req (st : St W) :
  wp (AuditController.Reconcile exec sink ctx req) st (λ o l st',
    ∀ audit got t rest,
      l = IoGetAudit req (inr audit) :: IoGetPolicy (policy_key audit) got :: IoNow t :: rest →
      ((∃ a r, IoDeleteAudit a r ∈ l) ↔ CreationTimestamp (a_Meta audit) + retention_of got <= t) ∧
      (∀ a r, IoDeleteAudit a r ∈ l → a = audit ∧ rest = [IoDeleteAudit a r] ∧ o = Val (delete_answer r))).
Proof using Hexec.
  eapply wp_mono; [by apply audit_Reconcile_wp|]. intros o l st' Hr audit got t rest Hl.
  assert (∀ l a r, Forall not_delete l → IoDeleteAudit a r ∉ l) as Hnone.
  { intros l0 a r Hf Hin. rewrite Forall_forall in Hf. by apply (Hf _ Hin). }
  assert (t < expiry_of audit got → Forall not_delete l →
    ((∃ a r, IoDeleteAudit a r ∈ l) ↔ CreationTimestamp (a_Meta audit) + retention_of got <= t) ∧
    (∀ a r, IoDeleteAudit a r ∈ l → a = audit ∧ rest = [IoDeleteAudit a r] ∧ o = Val (delete_answer r))) as Hkeep.
  { intros Hlt Hf. split; [split|].
    - intros (a & r & Hin). by apply Hnone in Hin.
    - unfold expiry_of, time_Add in Hlt. lia.
    - intros a r Hin. by apply Hnone in Hin. }
  inversion Hr as [e He|e He|a got' t' r Hle|a got' t' l' o' Hlt Hph' Hres|a got' t' l' o' Hlt Hph' Hreq Hnot Hrev|a got' t' t2 Hlt Hph' Hi];
    subst; simplify_eq.
  - split; [split|].
    + intros _. exact Hle.
    + intros _. exists audit, r. do 3 right. left.
    + intros a r' Hin. rewrite !elem_of_cons, elem_of_nil in Hin. by destruct_or? Hin; simplify_eq.
  - apply Hkeep; [done|]. do 3 (constructor; [done|]). by eapply Resolved_not_delete.
  - apply Hkeep; [done|]. do 3 (constructor; [done|]).
    destruct Hrev as [l1 results now a0 e Hrevs Ha|l1 results now a0 a'' sinks t2 Hrevs Ha Hs];
      rewrite !Forall_app; split_and!; try (by repeat constructor); try by eapply reversals_not_delete.
    eapply Forall_impl; [exact Hs|]. by intros [].
  - apply Hkeep; [done|]. by repeat constructor.
Qed.

(** C40. When it panics: approving a gate whose policy has since been cut to
    fewer actions than the gate's index makes the reconciler panic before
    anything runs or is written (the result slice gets a negative capacity),
    and nothing else makes it panic. *)
Theorem release_panics_iff ctx req (st : St W) :
  wp (AuditController.Reconcile exec sink ctx req) st (λ o l st',
    (∃ msg, o = Panic msg) ↔
    ∃ audit gate policy got t,
      l = [IoGetAudit req (inr audit); IoGetPolicy (policy_key audit) got; IoNow t;
           IoGetPolicy (policy_key audit) (inr policy)] ∧
      t < expiry_of audit got ∧
      ApprovalPhase (a_Status audit) = PhasePending ∧ Gate (a_Spec audit) = Some gate ∧
      Decision_ gate = DecisionApproved ∧ same_policy audit policy ∧
      Z.of_nat (length (Actions (p_Spec policy))) < ActionIndex gate).
Proof using Hexec.
  eapply wp_mono; [by apply audit_Reconcile_wp|]. intros o l st' Hr.
  assert (∀ audit gate policy, results_cap audit gate policy < 0 ↔
            Z.of_nat (length (Actions (p_Spec policy))) < ActionIndex gate) as Hcap.
  { intros audit gate policy. unfold results_cap, gate_targets, act_on.
    destruct (of_AuditTarget <$> GateTargets gate); simpl length; nia. }
  split.
  - intros [msg ->].
    inversion Hr as [| | |a got t l' o' Hlt Hph' Hres|a got t l' o' Hlt Hph' Hreq Hnot Hrev|]; subst.
    + inversion Hres as [? ? ? Hc|gate policy l0 o0 Hg Hd Hs Hrel| |? ? ? ? ? ? ? Hc|? ? ? ? ? ? ? Hc|? ? ? ? ? Hc|? ? ? ? ? ? ? ? Hc|]; subst;
        try (by destruct (Closed_no_plugin _ _ _ _ _ _ Hc) as [_ [? ?]]).
      inversion Hrel as [Hneg|runs results tail o1 _ _ _ Htail]; subst.
      * exists a, gate, policy, got, t. split_and!; try done. by apply (Hcap a).
      * by destruct (Release_recorded_no_plugin _ _ _ _ _ _ Htail) as [_ [? ?]].
    + inversion Hrev.
  - intros (audit & gate & policy & got & t & -> & Hlt & Hph & Hg & Hd & Hs & Hneg).
    apply (Hcap audit) in Hneg.
    inversion Hr as [| | |a got' t' l' o' Hlt' Hph' Hres|a got' t' l' o' Hlt' Hph' Hreq Hnot Hrev|]; subst; simplify_eq.
    inversion Hres as [? ? ? Hc|gate' policy' l0 o0 Hg' Hd' Hs' Hrel| |? ? ? ? ? ? ? Hc|? ? ? ? ? ? ? Hc|? ? ? ? Hden Hc|? ? ? ? ? ? ? ? Hc|];
      subst; simplify_eq; try done; try congruence.
    + inversion Hrel as [|runs results tail o1 Hpos _ _ Htail Heq]; subst; [by eexists|lia].
    + rewrite Hd in Hden. discriminate Hden.
Qed.

End Theorems.

(** ** Witnesses and concrete runs *)

Definition audit_req : NamespacedName := mkNN "prod" "high-cpu-1".
Definition run_audit (st : St World) : outcome (CtrlResult * option error) * St World :=
  AuditController.Reconcile fake_registry None Background audit_req st.

Definition w_approved : World := w_open DecisionApproved.
Definition w_denied : World := w_open DecisionDenied.

(** A record of two annotated pods whose revert is requested. *)
Definition revertible_audit : ActionAudit :=
  let rec i plugin reversible := mkRecord i plugin plugin (mkAuditTarget "v1" "Pod" "web-0" "prod") StatusSucceeded
                                   EmptyString reversible None in
  mkAudit (a_meta "prod" "high-cpu-1" "uid-a")
    (mkAuditRecordSpec "high-cpu" "uid-p" t0 "0.93" [rec 0 "annotate" true; rec 1 "notify" false; rec 2 "broken" true]
       true None) empty_audit_status.
Definition w_revert : World := with_now (10 * day) (a_world [] [revertible_audit]).
Definition w_old : World := with_now (40 * day) (a_world [] [revertible_audit]).
(** The policy was cut to no actions while its gate was open. *)
Definition w_cut : World := a_world [a_policy [] Minute fresh_status] [pending_audit DecisionApproved].

Lemma release_needs_approval_witness :
  (executed (log (run_audit (start w_approved)).2)).*1 = ["notify"] ∧
  wp (AuditController.Reconcile fake_registry None Background audit_req) (start w_approved) (λ o l st',
    ∀ p inp, (p, inp) ∈ executed l →
      ∃ audit gate policy i act,
        IoGetAudit audit_req (inr audit) ∈ l ∧ IoGetPolicy (policy_key audit) (inr policy) ∈ l ∧
        ApprovalPhase (a_Status audit) = PhasePending ∧ Gate (a_Spec audit) = Some gate ∧
        Decision_ gate = DecisionApproved ∧ same_policy audit policy ∧
        Actions (p_Spec policy) !! i = Some act ∧ (Z.to_nat (ActionIndex gate) <= i)%nat ∧ p = Plugin act ∧
        in_Params inp = ParamsFromCRD (ActParams act) ∧ in_Target inp ∈ gate_targets audit gate ∧
        in_MetricValue inp = MetricValue (a_Spec audit)).
Proof. split; [by_compute|]. apply (release_needs_approval _ _ fake_registry_ok). Defined.

Lemma release_recorded_witness :
  ((λ a, (rec_Plugin <$> AuditActions (a_Spec a), ApprovalPhase (a_Status a))) <$>
     w_audits (world (run_audit (start w_approved)).2)) = [(["notify"], PhaseApproved)] ∧
  wp (AuditController.Reconcile fake_registry None Background audit_req) (start w_approved) (λ o l st',
    executed l ≠ [] → ∃ audit policy recs r pre post,
      IoGetAudit audit_req (inr audit) ∈ pre ∧ IoGetPolicy (policy_key audit) (inr policy) ∈ pre ∧
      l = pre ++ IoUpdateAudit (set_AuditActions audit (AuditActions (a_Spec audit) ++ recs)) r :: post ∧
      Forall not_update pre ∧ Forall not_update post ∧ Forall no_plugin post ∧
      (Forall (λ act, exec_Lookup fake_registry (Plugin act) ≠ None) (Actions (p_Spec policy)) →
         Forall2 (λ rec call, rec_Target rec = to_AuditTarget (in_Target call.2)) recs (executed l)) ∧
      (∀ a' a'', IoStatusUpdateAudit a' (inr a'') ∈ post →
         ApprovalPhase (a_Status a') = PhaseApproved ∧
         ∃ now w, ResumedAt (a_Status a') = Some now ∧ IoStatusUpdatePolicy (cooled policy now) w ∈ post)).
Proof. split; [by_compute|]. apply (release_recorded _ _ fake_registry_ok). Defined.

Lemma refusal_runs_nothing_witness :
  ((λ a, (rec_Status <$> AuditActions (a_Spec a), ApprovalPhase (a_Status a))) <$>
     w_audits (world (run_audit (start w_denied)).2)) = [([StatusSkipped], PhaseDenied)] ∧
  wp (AuditController.Reconcile fake_registry None Background audit_req) (start w_denied) (λ o l st',
    ∀ audit gate rest, l = IoGetAudit audit_req (inr audit) :: rest →
      ApprovalPhase (a_Status audit) = PhasePending → Gate (a_Spec audit) = Some gate →
      Decision_ gate ≠ DecisionApproved →
      executed l = [] ∧ reversed l = [] ∧
      ∀ a' r, IoStatusUpdateAudit a' r ∈ l →
        (Decision_ gate = DecisionDenied ∧ ApprovalPhase (a_Status a') = PhaseDenied ∨
         Decision_ gate ≠ DecisionDenied ∧ ApprovalPhase (a_Status a') = PhaseExpired ∧
           ∃ now, IoNow now ∈ l ∧ ExpiresAt gate <= now) ∧
        (PendingPlugins gate ≠ [] →
           ∃ msg u, IoUpdateAudit (skip_held audit msg) (inr u) ∈ l ∧ a_Spec a' = a_Spec u)).
Proof. split; [by_compute|]. apply (refusal_runs_nothing _ _ fake_registry_ok). Defined.

Lemma revert_exact_witness :
  (reversed (log (run_audit (start w_revert)).2)).*1 = ["broken"; "annotate"] ∧
  wp (AuditController.Reconcile fake_registry None Background audit_req) (start w_revert) (λ o l st',
    ∀ audit rest, l = IoGetAudit audit_req (inr audit) :: rest → ApprovalPhase (a_Status audit) ≠ PhasePending →
      executed l = [] ∧
      (reversed l = [] ∨
       RevertRequested (a_Spec audit) = true ∧ Reverted (a_Status audit) = false ∧
       reversed l = revert_calls fake_registry (reverse (AuditActions (a_Spec audit)))) ∧
      ∀ a' r, IoStatusUpdateAudit a' r ∈ l →
        RevertRequested (a_Spec audit) = true ∧ Reverted (a_Status a') = true ∧
        reversed l = revert_calls fake_registry (reverse (AuditActions (a_Spec audit))) ∧
        Forall2 (λ rec rr, rr_Index rr = rec_Index rec ∧ rr_Plugin rr = rec_Plugin rec)
          (reverse (AuditActions (a_Spec audit))) (RevertResults (a_Status a'))).
Proof. split; [by_compute|]. apply (revert_exact _ _ fake_registry_ok). Defined.

Lemma retention_sweep_witness :
  w_audits (world (run_audit (start w_old)).2) = [] ∧
  wp (AuditController.Reconcile fake_registry None Background audit_req) (start w_old) (λ o l st',
    ∀ audit got t rest,
      l = IoGetAudit audit_req (inr audit) :: IoGetPolicy (policy_key audit) got :: IoNow t :: rest →
      ((∃ a r, IoDeleteAudit a r ∈ l) ↔ CreationTimestamp (a_Meta audit) + retention_of got <= t) ∧
      (∀ a r, IoDeleteAudit a r ∈ l → a = audit ∧ rest = [IoDeleteAudit a r] ∧ o = Val (delete_answer r))).
Proof. split; [by_compute|]. apply (retention_sweep _ _ fake_registry_ok). Defined.

Lemma release_panics_iff_witness :
  (run_audit (start w_cut)).1 = Panic "runtime error: makeslice: cap out of range" ∧
  wp (AuditController.Reconcile fake_registry None Background audit_req) (start w_cut) (λ o l st',
    (∃ msg, o = Panic msg) ↔
    ∃ audit gate policy got t,
      l = [IoGetAudit audit_req (inr audit); IoGetPolicy (policy_key audit) got; IoNow t;
           IoGetPolicy (policy_key audit) (inr policy)] ∧
      t < expiry_of audit got ∧
      ApprovalPhase (a_Status audit) = PhasePending ∧ Gate (a_Spec audit) = Some gate ∧
      Decision_ gate = DecisionApproved ∧ same_policy audit policy ∧
      Z.of_nat (length (Actions (p_Spec policy))) < ActionIndex gate).
Proof. split; [by_compute|]. apply (release_panics_iff _ _ fake_registry_ok). Defined.

(** A conflict while recording a release runs the held actions again: the
    Update is refused after the plugins ran, the record stays Pending, and the
    requeued reconciliation executes them a second time. *)
Lemma conflict_reruns_held_actions :
  let st1 := start (with_write_errors [Some (conflict "high-cpu-1")] w_approved) in
  let '(o1, st2) := run_audit st1 in
  let '(o2, st3) := run_audit st2 in
  o1 = Val (requeue_now, None) ∧
  ((λ a, ApprovalPhase (a_Status a)) <$> w_audits (world st2)) = [PhasePending] ∧
  (executed (log st2)).*1 = ["notify"] ∧ (executed (log st3)).*1 = ["notify"; "notify"] ∧
  ((λ a, length (AuditActions (a_Spec a))) <$> w_audits (world st3)) = [1%nat].
Proof. vm_compute. split_and!; reflexivity. Qed.

(** A release runs the policy's current pipeline, not the one that was held:
    after an edit that keeps the UID an approval of "notify" executes whatever
    now stands from the gate's index on. *)
Lemma release_runs_edited_actions :
  let w := a_world [a_policy [act "notify" EmptyString false; act "broken" FailureContinue false;
                              act "annotate" EmptyString false] Minute fresh_status]
                   [pending_audit DecisionApproved] in
  (PendingPlugins <$> Gate (a_Spec (pending_audit DecisionApproved))) = Some ["notify"] ∧
  (executed (log (run_audit (start w)).2)).*1 = ["broken"; "annotate"].
Proof. vm_compute. split_and!; reflexivity. Qed.
