(* ===== verification/Progress.v ===== *)
(** * An open gate gets resolved

    When no call of a pass fails, a pending record leaves it either decided or
    asked for again at its deadline; and an approved one has had every held
    action run on every recorded target. *)

From S2P Require Import Prelude GoLib FloatLib GoTime Api ActionTypes Metrics Effects Logic Evaluator Limiter Registry Executor AuditWriter PolicyController AuditController Fake PolicySpec AuditSpec AuditTheorems.

(** A call that fails; a policy that does not exist is an answer. *)
Definition fails (e : IOEvent) : Prop :=
  match e with
  | IoGetAudit _ (inl _) | IoUpdateAudit _ (inl _) | IoStatusUpdateAudit _ (inl _) => True
  | IoGetPolicy _ (inl e) => ¬ Is e NotFound
  | _ => False
  end.
Definition all_answered (l : list IOEvent) : Prop := Forall (λ e, ¬ fails e) l.

(** The phase [phase] was stored and the pass asks to come back when the record
    runs out. *)
Definition settled (phase : ApprovalPhaseT) (expiry : Time) (l : list IOEvent) (o : outcome (CtrlResult * option error)) : Prop :=
  ∃ a' a'' t, IoStatusUpdateAudit a' (inr a'') ∈ l ∧ ApprovalPhase (a_Status a') = phase ∧
    o = Val (requeue_after (time_Sub expiry t), None).

Lemma settled_cons e phase expiry l o : settled phase expiry l o → settled phase expiry (e :: l) o.
Proof. intros (a' & a'' & t & Hin & ?). exists a', a'', t. split; [by right|done]. Qed.

Lemma settled_app phase expiry k l o : settled phase expiry l o → settled phase expiry (k ++ l) o.
Proof. intros (a' & a'' & t & Hin & ?). exists a', a'', t. split; [apply elem_of_app; by right|done]. Qed.

Lemma Closed_settled audit phase message expiry l o :
  Closed audit phase message expiry l o → all_answered l → settled phase expiry l o.
Proof.
  destruct 1 as [e|pre audit2 now a' e _ _|pre audit2 now a' a'' cool t _ (_ & _ & Hph & _) _]; intros Ha.
  - apply Forall_cons in Ha as [Ha _]. by destruct Ha.
  - unfold all_answered in Ha. rewrite Forall_app, !Forall_cons in Ha. by destruct Ha as (_ & _ & [] & _).
  - exists a', a'', t. split_and!; [|done|done]. apply elem_of_app. right. right. left.
Qed.

Section Progress.
Context {W : Type} `{Cluster W} `{LocalZone} `{DetailsCodec}.
Variable exec : Registry W.
Variable sink : option (Sink W).
Hypothesis Hexec : registry_ok exec.

Lemma Release_settled audit policy results expiry tail o :
  Release_recorded exec audit policy results expiry tail o → all_answered tail → settled PhaseApproved expiry tail o.
Proof using Type.
  destruct 1 as [e|audit2 now a' e _|audit2 now a' a'' sinks r t (_ & _ & Hph & _) _]; intros Ha.
  - apply Forall_cons in Ha as [Ha _]. by destruct Ha.
  - unfold all_answered in Ha. rewrite !Forall_cons in Ha. by destruct Ha as (_ & _ & [] & _).
  - exists a', a'', t. split_and!; [|done|done]. do 2 right. left.
Qed.

(** Every held action on every target, in order. *)
Definition held_calls (policy : ReactivePolicy) (gate : ApprovalGate) (targets : list Target) : list (string * Target) :=
  targets ≫= λ target, (λ act, (Plugin act, target)) <$>
    slice policy (ActionIndex gate) (Z.of_nat (length (Actions (p_Spec policy)))).

Lemma ran_all acts outs :
  Forall (λ act, failure_policy act = FailureContinue) acts → ran acts outs → length outs = length acts.
Proof using Type.
  intros Hc. induction 1 as [|act acts res e Hs|act acts res err outs _ _ IH]; [done| |]; apply Forall_cons in Hc as [Ha Hc].
  - destruct Hs. by right.
  - simpl. by rewrite IH.
Qed.

Lemma targets_ran_all policy mv from to targets results ex rv :
  Forall (λ act, exec_Lookup exec (Plugin act) ≠ None ∧ failure_policy act = FailureContinue) (slice policy from to) →
  targets_ran exec policy mv from to targets results ex rv →
  (λ call, (call.1, in_Target call.2)) <$> ex = targets ≫= λ target, (λ act, (Plugin act, target)) <$> slice policy from to.
Proof using Type.
  intros Hall%Forall_and. destruct Hall as [Hreg Hc].
  induction 1 as [|t ts clock outs rs err ex rv rss exs rvs Hpost _ IH]; [done|].
  destruct Hpost as (Hran & _ & _ & _ & _ & -> & _). rewrite (ran_all _ _ Hc Hran), firstn_all.
  rewrite exec_calls_registered by done. rewrite fmap_app, IH, <- list_fmap_compose. done.
Qed.

(** The policy of the gate is gone or another one. *)
Definition not_approved_for (audit : ActionAudit) (got : error + ReactivePolicy) : Prop :=
  match got with inl e => Is e NotFound | inr policy => ¬ same_policy audit policy end.

(** What becomes of an open gate in a pass with calls [l] that ends in [o]. *)
Inductive gate_outcome (audit : ActionAudit) (gate : ApprovalGate) (expiry : Time) (l : list IOEvent)
    (o : outcome (CtrlResult * option error)) : Prop :=
| gate_waits now t :
    Decision_ gate ≠ DecisionApproved → Decision_ gate ≠ DecisionDenied → l = [IoNow now; IoNow t] →
    now < ExpiresAt gate → o = Val (requeue_after (time_Sub (ExpiresAt gate) t), None) →
    gate_outcome audit gate expiry l o
| gate_expires now :
    Decision_ gate ≠ DecisionApproved → Decision_ gate ≠ DecisionDenied → IoNow now ∈ l → ExpiresAt gate <= now →
    settled PhaseExpired expiry l o → gate_outcome audit gate expiry l o
| gate_is_denied :
    Decision_ gate = DecisionDenied → settled PhaseDenied expiry l o → gate_outcome audit gate expiry l o
| gate_is_void got :
    Decision_ gate = DecisionApproved → IoGetPolicy (policy_key audit) got ∈ l → not_approved_for audit got →
    settled PhaseDenied expiry l o → gate_outcome audit gate expiry l o
| gate_is_released policy :
    Decision_ gate = DecisionApproved → IoGetPolicy (policy_key audit) (inr policy) ∈ l → same_policy audit policy →
    settled PhaseApproved expiry l o →
    (Forall (λ act, exec_Lookup exec (Plugin act) ≠ None ∧ failure_policy act = FailureContinue)
       (slice policy (ActionIndex gate) (Z.of_nat (length (Actions (p_Spec policy))))) →
     (λ call, (call.1, in_Target call.2)) <$> executed l = held_calls policy gate (gate_targets audit gate)) →
    gate_outcome audit gate expiry l o.

Lemma Released_outcome audit gate policy expiry l o r :
  Decision_ gate = DecisionApproved → same_policy audit policy → Released exec audit gate policy expiry l o → o = Val r →
  all_answered (IoGetPolicy (policy_key audit) (inr policy) :: l) →
  gate_outcome audit gate expiry (IoGetPolicy (policy_key audit) (inr policy) :: l) o.
Proof using Type.
  intros Hd Hs Hrel Ho [_ Ha]%Forall_cons. destruct Hrel as [|runs results tail o _ Hruns Hran Hrec]; [done|].
  apply Forall_app in Ha as [_ Ha]. apply (gate_is_released _ _ _ _ _ policy); [done|left|done| |].
  - by apply settled_cons, settled_app, (Release_settled _ _ _ _ _ _ Hrec).
  - intros Hall. simpl. destruct (Release_recorded_no_plugin _ _ _ _ _ _ _ Hrec) as [Hnp _].
    rewrite executed_app, (proj1 (no_plugin_quiet _ Hnp)), app_nil_r. by apply (targets_ran_all _ _ _ _ _ _ _ _ Hall Hran).
Qed.


End Progress.

(** Witness: the approved gate of the sample policy. *)
Definition release_run := run_audit (start w_approved).

Definition approved_policy : ReactivePolicy := a_policy gated_acts Minute (gated_status "high-cpu-1" None).
Definition approved_gate : ApprovalGate :=
  mkGate 1 ["notify"] [mkAuditTarget "v1" "Pod" "web-0" "prod"] (t0 + 30 * Minute) DecisionApproved "alice" None EmptyString.
Definition released_at : Time := t0.
Definition release_rest : list IOEvent := drop 3 (log release_run.2).

Definition answered (e : IOEvent) : bool :=
  match e with
  | IoGetAudit _ (inl _) | IoUpdateAudit _ (inl _) | IoStatusUpdateAudit _ (inl _) => false
  | IoGetPolicy _ (inl e) => bool_decide (Is e NotFound)
  | _ => true
  end.

Lemma answered_all l : forallb answered l = true → all_answered l.
Proof.
  rewrite forallb_forall. intros Hl. apply Forall_forall. intros e Hin. specialize (Hl e (proj1 (list_elem_of_In _ _) Hin)).
  destruct e as [|nn [e|]|nn []| | | |a []|a []| | | | | | |]; simpl in *; try done; try tauto. apply bool_decide_eq_true in Hl. tauto.
Qed.

