(* ===== verification/Records.v ===== *)
(** * The record as a round trip

    What the pipeline returned, through [toRecord], the stored record and
    [recordToResult], back into the plugins' [Reverse]. *)

From S2P Require Import Prelude GoLib FloatLib GoTime Api ActionTypes Metrics Effects Logic Evaluator Limiter Registry Executor AuditWriter PolicyController AuditController Fake ExecutorTheorems PolicySpec AuditSpec AuditTheorems.

Section Records.
Context {W : Type} `{Cluster W} `{LocalZone} `{DetailsCodec}.
Variable exec : Registry W.
Variable sink : option (Sink W).
Hypothesis exec_ok : registry_ok exec.

(** JSON reads a details map back as [norm] of it: equal for strings and
    booleans, numbers become float64. *)
Variable norm : gmap string any → gmap string any.
Definition faithful (res : Result) : Prop :=
  ∀ d, Details res = Some d → d ≠ ∅ → codec_reads d (norm d).

(** What is left of a result: the time is not recorded, an empty details map
    is not kept. *)
Definition kept_details (d : option (gmap string any)) : option (gmap string any) :=
  match d with Some d => if decide (d = ∅) then None else Some (norm d) | None => None end.
Definition remembered (res : Result) : Result :=
  mkResult (ActionID res) (PluginName res) (ResTarget res) zero_Time (Status res) (Message res) (kept_details (Details res)).

(** A result a revert acts on. *)
Definition undoable (res : Result) : Prop :=
  Status res = StatusSucceeded ∧ ∃ plugin, exec_Lookup exec (PluginName res) = Some plugin ∧ pl_IsReversible plugin = true.
#[export] Instance undoable_dec res : Decision (undoable res).
Proof.
  unfold undoable. destruct (exec_Lookup exec (PluginName res)) as [p|].
  - destruct (decide (Status res = StatusSucceeded)); [|right; tauto].
    destruct (pl_IsReversible p) eqn:Hp; [left; eauto|right; intros (_ & p' & [= <-] & Hp'); congruence].
  - right. by intros (_ & p & ? & _).
Defined.

Lemma of_to_AuditTarget t : of_AuditTarget (to_AuditTarget t) = t.
Proof. by destruct t. Qed.

Lemma recordToResult_toRecord i res : faithful res → recordToResult (toRecord exec i res) = remembered res.
Proof.
  intros Hf. unfold recordToResult, toRecord, remembered, kept_details. simpl. rewrite of_to_AuditTarget. f_equal.
  destruct (Details res) as [d|] eqn:Hd; [|done]. case_decide as He; [done|].
  destruct (Hf d Hd He) as (raw & -> & Hlen & ->). by rewrite decide_True.
Qed.

(** A record of a result is reversed exactly when the result is undoable. *)
Lemma record_reversed i res :
  (rec_Status (toRecord exec i res) = StatusSucceeded ∧ rec_Reversible (toRecord exec i res) = true ∧
   exec_Lookup exec (rec_Plugin (toRecord exec i res)) ≠ None) ↔ undoable res.
Proof.
  unfold undoable. simpl. destruct (exec_Lookup exec (PluginName res)) as [p|]; split.
  - intros (? & ? & _). eauto.
  - intros (? & p' & [= <-] & ?). by split_and!.
  - by intros (_ & _ & ?).
  - by intros (_ & p & ? & _).
Qed.

(** The calls of a revert, in terms of the results that were recorded. *)
Lemma revert_calls_results recs results :
  Forall2 (λ rec res, ∃ i, rec = toRecord exec i res) recs results → Forall faithful results →
  revert_calls exec recs = (λ res, (PluginName res, remembered res)) <$> filter undoable results.
Proof.
  induction 1 as [|rec res recs results (i & ->) _ IH]; intros Hf; [done|].
  apply Forall_cons in Hf as [Hres Hf]. specialize (IH Hf). pose proof (record_reversed i res) as Hu.
  unfold revert_calls in *. cbn [omap list_omap]. rewrite filter_cons. rewrite recordToResult_toRecord by done.
  change (rec_Plugin (toRecord exec i res)) with (PluginName res) in *.
  destruct (decide (undoable res)) as [Hun|Hun].
  - destruct (proj2 Hu Hun) as (Hs & Hr & Hl). simpl in Hl. rewrite decide_True by done.
    destruct (exec_Lookup exec (PluginName res)); [|done]. simpl. by f_equal.
  - case_decide as Hd; [|exact IH]. destruct (exec_Lookup exec (PluginName res)) eqn:Hp; [|exact IH].
    exfalso. apply Hun, Hu. split_and!; [apply Hd..|done].
Qed.

Lemma to_records_of offset results :
  Forall2 (λ rec res, ∃ i, rec = toRecord exec i res) (to_records exec offset results) results.
Proof.
  unfold to_records. apply Forall2_same_length_lookup. split; [by rewrite length_imap|].
  intros i rec res Hr Hres. rewrite list_lookup_imap, Hres in Hr. simplify_eq/=. by eexists.
Qed.

(** The Reverse calls of a revert are those of its record. *)
Lemma reverting_calls audit expiry l o :
  Reverting exec audit expiry l o → reversed l = revert_calls exec (reverse (AuditActions (a_Spec audit))).
Proof.
  assert (∀ sinks, Forall is_revert_sink sinks → reversed sinks = []) as Hquiet.
  { intros sinks Hs. apply no_plugin_quiet. eapply Forall_impl; [exact Hs|]. by intros []. }
  intros [l1 rrs now a' e Hrevs _|l1 rrs now a' a'' sinks t2 Hrevs _ Hs];
    apply reversals_calls in Hrevs as (_ & Hv & _); simpl; rewrite reversed_app, Hv; simpl.
  - apply app_nil_r.
  - rewrite reversed_app, Hquiet by done. apply app_nil_r.
Qed.

(** C8. Records round trip: for a record whose entries are those the pipeline's
    results were turned into, a revert calls Reverse exactly for the results
    that succeeded with a reversible plugin, last first, and hands each plugin
    its own result back: identifier, target, status, message and details as
    JSON reads them, everything but the time. *)
Theorem revert_hands_back_results ctx req offset results (st : St W) :
  Forall faithful results →
  wp (AuditController.Reconcile exec sink ctx req) st (λ o l st',
    ∀ audit rest, l = IoGetAudit req (inr audit) :: rest → ApprovalPhase (a_Status audit) ≠ PhasePending →
      AuditActions (a_Spec audit) = to_records exec offset results →
      reversed l = [] ∨
      RevertRequested (a_Spec audit) = true ∧ Reverted (a_Status audit) = false ∧
      reversed l = (λ res, (PluginName res, remembered res)) <$> filter undoable (reverse results)).
Proof using exec_ok.
  intros Hf. eapply wp_mono; [by apply audit_Reconcile_wp|]. intros o l st' Hr audit rest Hl Hph Hacts.
  destruct Hr as [| |a got t r Hle|a got t l' o' Hlt Hph' Hres|a got t l' o' Hlt Hph' Hreq Hnot Hrev|a got t t' Hlt Hph' Hi];
    simplify_eq; try (by left).
  right. split_and!; [done..|].
  rewrite <- (revert_calls_results (reverse (to_records exec offset results))).
  2: apply Forall2_reverse, to_records_of.
  2: by apply Forall_reverse.
  apply reverting_calls in Hrev. simpl. by rewrite Hrev, Hacts.
Qed.

(** ** A rollback is not remembered *)

(** The plugin can undo: what [toRecord] notes. *)
Definition reversible (call : string * string * Target) : Prop :=
  match exec_Lookup exec call.1.1 with Some plugin => pl_IsReversible plugin = true | None => False end.
#[export] Instance reversible_dec call : Decision (reversible call).
Proof. unfold reversible. destruct (exec_Lookup _ _); apply _. Defined.

(** What a Reverse call is about: plugin, action and resource. *)
Definition undoes (call : string * Result) : string * string * Target :=
  (call.1, ActionID call.2, ResTarget call.2).

Lemma reverse_calls_elem rs p r : (p, r) ∈ reverse_calls exec rs → r ∈ rs ∧ Status r = StatusSucceeded.
Proof.
  intros Hin. apply list_elem_of_omap in Hin as (r' & Hin & Heq).
  case_decide; [|done]. destruct (Lookup exec (PluginName r')); [|done]. by injection Heq as <- <-.
Qed.

Lemma revert_repeats recs results :
  Forall2 (λ rec r, ∃ i r', same_but_details r r' ∧ rec = toRecord exec i r') recs results →
  undoes <$> revert_calls exec recs = filter reversible (undoes <$> reverse_calls exec results).
Proof.
  induction 1 as [|rec r recs results (i & r' & Hr & ->) _ IH]; [done|].
  unfold revert_calls, reverse_calls in *. cbn [omap list_omap].
  unfold same_but_details, set_Details in Hr. injection Hr as Ha Hp Ht _ Hs _. simpl in *. rewrite <- Hs, <- Hp.
  change (Lookup exec (PluginName r)) with (exec_Lookup exec (PluginName r)) in *.
  destruct (decide (Status r = StatusSucceeded)) as [Hok|Hok]; [|by rewrite decide_False by tauto].
  destruct (exec_Lookup exec (PluginName r)) as [plugin|] eqn:Hl; [|by case_decide].
  assert (Hu : reversible (undoes (PluginName r, r)) ↔ pl_IsReversible plugin = true).
  { unfold reversible. simpl. by rewrite Hl. }
  rewrite fmap_cons, filter_cons. destruct (decide (reversible _)) as [Hd|Hd].
  - rewrite decide_True by tauto. rewrite fmap_cons. f_equal; [|exact IH].
    unfold undoes, recordToResult. simpl. rewrite of_to_AuditTarget. congruence.
  - rewrite decide_False by tauto. exact IH.
Qed.

(** C18. A rollback is not remembered: every result that a failed pipeline
    reversed is returned with status Succeeded (Skipped is documented to mean
    "was reversed"), so a revert of the record it goes into calls Reverse a
    second time, on the same plugins, actions and resources in the same order,
    for all that the rollback reversed, irreversible plugins apart. *)
Theorem rolled_back_reversed_again ctx policy target mv from to (st : St W) :
  wp (RunRange exec ctx policy target mv from to) st (λ o l st',
    ∃ rs err, o = Val (rs, err) ∧
      (∀ p r, (p, r) ∈ reversed l → ∃ r', r' ∈ rs ∧ same_but_details r r' ∧ Status r' = StatusSucceeded) ∧
      (reversed l ≠ [] → ∀ ctx2 audit offset expiry st2, AuditActions (a_Spec audit) = to_records exec offset rs →
        wp (revert exec sink ctx2 audit expiry) st2 (λ _ l2 _,
          undoes <$> reversed l2 = filter reversible (undoes <$> reversed l)))).
Proof using exec_ok.
  eapply wp_mono; [by apply RunRange_spec|].
  intros ? l st' (clock & outs & rs & err & -> & _ & Hsame & _ & _ & _ & _ & Hrev). simpl in Hsame, Hrev.
  exists rs, err. split; [done|]. split.
  { intros p r Hin. rewrite Hrev in Hin. case_match; [|by apply elem_of_nil in Hin].
    apply reverse_calls_elem in Hin as (Hin & Hs). rewrite elem_of_reverse in Hin.
    apply list_elem_of_lookup in Hin as (i & Hi).
    destruct (Forall2_lookup_l _ _ _ _ _ Hsame Hi) as (r' & Hi' & Hr). exists r'.
    split; [by eapply list_elem_of_lookup_2|]. split; [done|].
    apply same_but_details_target in Hr as [_ <-]. done. }
  intros Hne ctx2 audit offset expiry st2 Hacts. eapply wp_mono; [by apply revert_spec|]. intros o2 l2 st2' Hr2.
  apply reverting_calls in Hr2. rewrite Hr2, Hacts. destruct (rolls_back _ _); [|done]. rewrite Hrev.
  apply revert_repeats, Forall2_reverse, Forall2_same_length_lookup. split.
  - rewrite (Forall2_length _ _ _ (to_records_of offset rs)). symmetry. by eapply Forall2_length.
  - intros i rec r Hrec Hres. destruct (Forall2_lookup_l _ _ _ _ _ (to_records_of offset rs) Hrec) as (r' & Hr' & j & ->).
    exists j, r'. split; [|done]. by apply (Forall2_lookup_lr _ _ _ _ _ _ Hsame Hres Hr').
Qed.

End Records.

(** ** Witness *)

(** Two results: a notification, which is not reversible, and an annotation
    with details. *)
Definition two_results : list Result :=
  [mkResult "a1" "notify" (mkTarget "v1" "Pod" "web-0" "prod") t0 StatusSucceeded "sent" None;
   mkResult "a2" "annotate" (mkTarget "v1" "Pod" "web-1" "prod") t0 StatusSucceeded "done" (Some (<["plugin" := AString "annotate"]> ∅))].

Lemma two_results_faithful : Forall (faithful id) two_results.
Proof.
  repeat constructor; intros d; simpl; intros [= <-] _. unfold codec_reads. eexists. split_and!; [reflexivity|vm_compute; lia|by_compute].
Qed.

Definition w_reverting : World :=
  a_world [a_policy [] Minute fresh_status]
    [mkAudit (a_meta "prod" "high-cpu-1" "uid-a")
       (mkAuditRecordSpec "high-cpu" "uid-p" t0 "0.93" (to_records fake_registry 0 two_results) true None) empty_audit_status].

Lemma revert_hands_back_results_witness :
  reversed (log (AuditController.Reconcile fake_registry None Background (mkNN "prod" "high-cpu-1") (start w_reverting)).2) =
    [("annotate", mkResult "a2" "annotate" (mkTarget "v1" "Pod" "web-1" "prod") zero_Time StatusSucceeded "done"
                    (Some (<["plugin" := AString "annotate"]> ∅)))] ∧
  wp (AuditController.Reconcile fake_registry None Background (mkNN "prod" "high-cpu-1")) (start w_reverting) (λ o l st',
    ∀ audit rest, l = IoGetAudit (mkNN "prod" "high-cpu-1") (inr audit) :: rest → ApprovalPhase (a_Status audit) ≠ PhasePending →
      AuditActions (a_Spec audit) = to_records fake_registry 0 two_results →
      reversed l = [] ∨
      RevertRequested (a_Spec audit) = true ∧ Reverted (a_Status audit) = false ∧
      reversed l = (λ res, (PluginName res, remembered id res)) <$> filter (undoable fake_registry) (reverse two_results)).
Proof.
  split; [by_compute|].
  apply (revert_hands_back_results fake_registry None fake_registry_ok id Background (mkNN "prod" "high-cpu-1") 0 two_results
    (start w_reverting) two_results_faithful).
Defined.

(** The record of the pipeline of [rollback_run], which annotated a pod and
    took the annotation back. *)
Definition rolled_back_audit : ActionAudit :=
  mkAudit (a_meta "prod" "high-cpu-1" "uid-a")
    (mkAuditRecordSpec "high-cpu" "uid-p" t0 "0.93"
       (to_records fake_registry 0 (match rollback_run.1 with Val (rs, _) => rs | Panic _ => [] end)) true None)
    empty_audit_status.

Lemma rolled_back_reversed_again_witness :
  (reversed (log rollback_run.2)).*1 = ["annotate"] ∧
  (reversed (log (revert fake_registry None Background rolled_back_audit 0 (start (a_world [] []))).2)).*1 = ["annotate"] ∧
  wp (RunRange fake_registry Background rollback_policy web_0 "0.93" 0 4) (start (a_world [] [])) (λ o l st',
    ∃ rs err, o = Val (rs, err) ∧
      (∀ p r, (p, r) ∈ reversed l → ∃ r', r' ∈ rs ∧ same_but_details r r' ∧ Status r' = StatusSucceeded) ∧
      (reversed l ≠ [] → ∀ ctx2 audit offset expiry st2,
        AuditActions (a_Spec audit) = to_records fake_registry offset rs →
        wp (revert fake_registry None ctx2 audit expiry) st2 (λ _ l2 _,
          undoes <$> reversed l2 = filter (reversible fake_registry) (undoes <$> reversed l)))).
Proof.
  split; [by_compute|]. split; [by_compute|].
  exact (rolled_back_reversed_again fake_registry None fake_registry_ok Background rollback_policy web_0 "0.93" 0 4
           (start (a_world [] []))).
Defined.
