(* ===== verification/Deadlines.v ===== *)
(** * Deadlines: retention strings and requeue delays

    What a retention string means, up to the overflow of the 64-bit product,
    and how long a reconciled object waits for its next reconciliation. *)

From S2P Require Import Prelude GoLib FloatLib GoTime Api ActionTypes Metrics Effects Logic Evaluator Limiter Registry Executor AuditWriter PolicyController AuditController PolicyWebhook AuditWebhook Fake WebhookTheorems PolicySpec AuditSpec PolicyTheorems AuditTheorems.

(** ** Decimals *)

Lemma bytes_app s s' : bytes (s ++s s') = bytes s ++ bytes s'.
Proof. unfold bytes. induction s as [|c s IH]; [done|]. simpl. f_equal. exact IH. Qed.

Lemma digit_byte x : (x < 10)%N → Z.of_nat (Ascii.nat_of_ascii (pretty_N_char x)) = 48 + Z.of_N x.
Proof.
  intros Hx. assert (x ∈ (N.of_nat <$> seq 0 10)) as Hin.
  { apply list_elem_of_fmap. exists (N.to_nat x). rewrite N2Nat.id, elem_of_seq. split; [done|lia]. }
  simpl in Hin. rewrite !elem_of_cons, elem_of_nil in Hin. by destruct_or? Hin; subst.
Qed.

Lemma is_digit_byte x : (x < 10)%N → is_digit (Ascii.nat_of_ascii (pretty_N_char x)).
Proof. intros Hx. pose proof (digit_byte x Hx). unfold is_digit. lia. Qed.

(** The digits of a number, read before whatever follows them. *)
Lemma digits_pretty x s : digits 0 (bytes (pretty_N_go x s)) = digits (Z.of_N x) (bytes s).
Proof.
  revert s. induction (N.lt_wf_0 x) as [x _ IH]; intros s.
  destruct (decide (x = 0)%N) as [->|Hx]; [by rewrite pretty_N_go_0|].
  rewrite pretty_N_go_step by lia. rewrite IH by (apply N.div_lt; lia).
  assert (x `mod` 10 < 10)%N as Hd by (apply N.mod_lt; lia).
  cbn [bytes String.list_ascii_of_string fmap list_fmap digits]. rewrite decide_True by by apply is_digit_byte.
  rewrite digit_byte by done. f_equal. rewrite (N.div_mod x 10) at 3 by lia. lia.
Qed.

(** A decimal is not empty, and starts with a digit. *)
Lemma pretty_go_head x s : (0 < x)%N → ∃ n l, bytes (pretty_N_go x s) = n :: l ∧ is_digit n.
Proof.
  revert s. induction (N.lt_wf_0 x) as [x _ IH]; intros s Hx. rewrite pretty_N_go_step by done.
  assert (x `mod` 10 < 10)%N as Hd by (apply N.mod_lt; lia).
  destruct (decide (x `div` 10 = 0)%N) as [->|Hdiv].
  - rewrite pretty_N_go_0. eexists _, _. split; [done|]. by apply is_digit_byte.
  - apply IH; [by apply N.div_lt|by apply N.neq_0_lt_0].
Qed.

Lemma pretty_N_digits (x : N) s :
  digits 0 (bytes (pretty x ++s s)) = digits (Z.of_N x) (bytes s) ∧
  ∃ n l, bytes (pretty x) = n :: l ∧ is_digit n.
Proof.
  rewrite bytes_app. unfold pretty, pretty_N. case_decide as Hx.
  - subst. split; [done|]. exists 48%nat, []. split; [done|]. unfold is_digit. lia.
  - split; [|apply pretty_go_head; lia]. rewrite <- bytes_app.
    assert (∀ x s s', pretty_N_go x s ++s s' = pretty_N_go x (s ++s s')) as Happ; [|by rewrite Happ, digits_pretty].
    clear. intros x. induction (N.lt_wf_0 x) as [x _ IH]; intros s s'.
    destruct (decide (x = 0)%N) as [->|Hx]; [by rewrite !pretty_N_go_0|].
    rewrite (pretty_N_go_step x s), (pretty_N_go_step x (s ++s s')) by lia. by rewrite IH by (apply N.div_lt; lia).
Qed.

(** Unsigned digits are what [Atoi] reads. *)
Lemma Atoi_unsigned s n l z :
  bytes s = n :: l → is_digit n → digits 0 (n :: l) = Some z → in_range 64 z → Atoi s = inr z.
Proof.
  intros Hb Hn Hd Hz. unfold Atoi. rewrite Hb. unfold is_digit in Hn.
  assert (n ∈ seq 48 10) as Hin by (apply elem_of_seq; lia). simpl in Hin. rewrite !elem_of_cons, elem_of_nil in Hin.
  destruct_or? Hin; subst; rewrite Hd; by rewrite decide_True.
Qed.

Lemma Atoi_negative s n l z :
  bytes s = 45%nat :: n :: l → digits 0 (n :: l) = Some z → in_range 64 (- z) → Atoi s = inr (- z).
Proof. intros Hb Hd Hz. unfold Atoi. rewrite Hb, Hd. by rewrite decide_True. Qed.

(** [Atoi] reads back what [%d] prints. *)
Lemma Atoi_fmt_d (z : Z) : in_range 64 z → Atoi (fmt_d z) = inr z.
Proof.
  intros Hz. destruct z as [|p|p]; [done|..]; change (fmt_d (Z.pos p)) with (pretty (N.pos p)) || idtac.
  - destruct (pretty_N_digits (N.pos p) EmptyString) as [Hd (n & l & Hb & Hn)]. rewrite bytes_app, app_nil_r, Hb in Hd.
    by eapply Atoi_unsigned.
  - destruct (pretty_N_digits (N.pos p) EmptyString) as [Hd (n & l & Hb & Hn)]. rewrite bytes_app, app_nil_r, Hb in Hd.
    change (Z.neg p) with (- Z.pos p). eapply (Atoi_negative _ n l); [|exact Hd|exact Hz].
    change (fmt_d (- Z.pos p)) with ("-" ++s pretty (N.pos p)). rewrite bytes_app, Hb. done.
Qed.

(** ** Trimming *)

(** Nothing is trimmed when neither end starts a space. *)
Definition starts_no (ps : list (list nat)) (n : nat) : Prop := Forall (λ p, head p ≠ Some n ∧ p ≠ []) ps.
#[export] Instance starts_no_dec ps n : Decision (starts_no ps n).
Proof. unfold starts_no. apply _. Defined.

Lemma strip_one_no ps n l : starts_no ps n → strip_one ps (n :: l) = None.
Proof.
  induction 1 as [|p ps [Hh Hne] _ IH]; [done|]. simpl. destruct p as [|x p]; [done|]. simpl in *.
  rewrite decide_False by congruence. done.
Qed.

Lemma trim_left_no fuel ps n l : starts_no ps n → trim_left fuel ps (n :: l) = n :: l.
Proof. intros Hs. destruct fuel; [done|]. simpl. by rewrite strip_one_no. Qed.

Lemma of_bytes_bytes s : of_bytes (bytes s) = s.
Proof.
  unfold of_bytes, bytes. rewrite <- list_fmap_compose. induction s as [|c s IH]; [done|]. simpl in *.
  f_equal; [apply Ascii.ascii_nat_embedding|exact IH].
Qed.

Lemma TrimSpace_id s n l m k :
  bytes s = n :: l → starts_no space_runes n → reverse (bytes s) = m :: k → starts_no (reverse <$> space_runes) m →
  TrimSpace s = s.
Proof.
  intros Hb Hn Hr Hm. unfold TrimSpace. rewrite Hb, trim_left_no by done. cbv zeta. rewrite <- Hb, Hr, trim_left_no by done.
  rewrite <- Hr, reverse_involutive. apply of_bytes_bytes.
Qed.

Lemma substring_app s s' : String.substring 0 (String.length s) (s ++s s') = s.
Proof. induction s as [|c s IH]; simpl; [by destruct s'|]. by rewrite IH. Qed.

Lemma substring_whole s : String.substring 0 (String.length s) s = s.
Proof. induction s as [|c s IH]; simpl; [done|]. by rewrite IH. Qed.

Lemma substring_app_skip s s' : String.substring (String.length s) (String.length s') (s ++s s') = s'.
Proof. induction s as [|c s IH]; [apply substring_whole|exact IH]. Qed.

Lemma string_length_app s s' : String.length (s ++s s') = (String.length s + String.length s')%nat.
Proof. induction s as [|c s IH]; [done|]. simpl. f_equal. exact IH. Qed.

Lemma HasSuffix_app s suf : HasSuffix (s ++s suf) suf.
Proof.
  unfold HasSuffix. rewrite string_length_app. split; [lia|].
  replace (String.length s + String.length suf - String.length suf)%nat with (String.length s) by lia.
  apply substring_app_skip.
Qed.

Lemma TrimSuffix_app s suf : TrimSuffix (s ++s suf) suf = s.
Proof.
  unfold TrimSuffix. rewrite decide_True by apply HasSuffix_app. rewrite string_length_app.
  replace (String.length s + String.length suf - String.length suf)%nat with (String.length s) by lia.
  apply substring_app.
Qed.

(** ** Retention strings *)

Lemma TrimSpace_days z unit : unit = "d" ∨ unit = "y" → TrimSpace (fmt_d z ++s unit) = fmt_d z ++s unit.
Proof.
  intros Hu. assert (∃ n l, bytes (fmt_d z) = n :: l ∧ (is_digit n ∨ n = 45%nat)) as (n & l & Hb & Hn).
  { destruct z as [|p|p].
    - exists 48%nat, []. split; [done|left]. unfold is_digit. lia.
    - destruct (pretty_N_digits (N.pos p) EmptyString) as [_ (n & l & Hb & Hn)]. exists n, l. auto.
    - eexists _, _. split; [|by right]. change (fmt_d (Z.neg p)) with ("-" ++s pretty (N.pos p)). rewrite bytes_app. done. }
  assert (∃ m, bytes unit = [m] ∧ (m = 100 ∨ m = 121)%nat) as (m & Hm & Hm').
  { destruct Hu as [->| ->]; eexists; (split; [done|auto]). }
  eapply TrimSpace_id.
  - rewrite bytes_app, Hb. done.
  - unfold is_digit in Hn. assert (n ∈ 45%nat :: seq 48 10) as Hin.
    { apply elem_of_cons. rewrite elem_of_seq. destruct Hn; [right; lia|by left]. }
    apply (bool_decide_eq_true_1 (starts_no space_runes n)). simpl in Hin. rewrite !elem_of_cons, elem_of_nil in Hin.
    by destruct_or? Hin; subst.
  - rewrite bytes_app, Hm, reverse_app. done.
  - apply (bool_decide_eq_true_1 (starts_no (reverse <$> space_runes) m)). by destruct Hm' as [->| ->].
Qed.

Lemma parseRetention_days n : in_range 64 n → parseRetention (fmt_d n ++s "d") = inr (int64 (n * day)).
Proof.
  intros Hn. unfold parseRetention. rewrite TrimSpace_days by auto. rewrite decide_True by apply HasSuffix_app.
  by rewrite TrimSuffix_app, Atoi_fmt_d.
Qed.

Lemma parseRetention_years n : in_range 64 n → parseRetention (fmt_d n ++s "y") = inr (int64 (n * year)).
Proof.
  intros Hn. unfold parseRetention. rewrite TrimSpace_days by auto. rewrite decide_False.
  2: { intros [_ Hs]. rewrite string_length_app in Hs. simpl in Hs.
       replace (String.length (fmt_d n) + 1 - 1)%nat with (String.length (fmt_d n)) in Hs by lia.
       by rewrite (substring_app_skip _ "y") in Hs. }
  rewrite decide_True by apply HasSuffix_app. by rewrite TrimSuffix_app, Atoi_fmt_d.
Qed.

Lemma int64_id z : - 2 ^ 63 <= z < 2 ^ 63 → int64 z = z.
Proof. intros Hz. apply wrap_id; [lia|]. unfold in_range. lia. Qed.
Lemma int64_over z : 2 ^ 63 <= z < 2 ^ 64 → int64 z = z - 2 ^ 64.
Proof.
  intros Hz. unfold int64, wrap. rewrite (Z.mod_eq (z + 2 ^ (64 - 1)) (2 ^ 64)) by lia.
  replace ((z + 2 ^ (64 - 1)) `div` 2 ^ 64) with 1; [lia|].
  apply Z.div_unique with (z + 2 ^ (64 - 1) - 2 ^ 64); lia.
Qed.

Lemma day_overflow n : 106752 <= n <= 213503 → ∃ d, parseRetention (fmt_d n ++s "d") = inr d ∧ d < 0.
Proof.
  intros Hn. rewrite parseRetention_days by (unfold in_range; lia). eexists. split; [done|]. unfold day, Hour.
  rewrite int64_over by lia. lia.
Qed.

(** Retention units: a number of days or years is read as exactly that
    many times 24 hours or 365 days up to 106751 days and 292 years; from one
    more on the 64-bit product overflows and the retention is negative. *)
Lemma retention_units n :
  (0 <= n <= 106751 → parseRetention (fmt_d n ++s "d") = inr (n * (24 * Hour))) ∧
  (0 <= n <= 292 → parseRetention (fmt_d n ++s "y") = inr (n * (365 * 24 * Hour))) ∧
  (106752 <= n <= 213503 → ∃ d, parseRetention (fmt_d n ++s "d") = inr d ∧ d < 0) ∧
  (293 <= n <= 584 → ∃ d, parseRetention (fmt_d n ++s "y") = inr d ∧ d < 0).
Proof.
  assert (0 <= n <= 213503 → in_range 64 n) as Hr by (unfold in_range; lia).
  unfold Hour. split_and!; intros Hn.
  - rewrite parseRetention_days by (apply Hr; lia). unfold day, Hour. by rewrite int64_id by lia.
  - rewrite parseRetention_years by (apply Hr; lia). unfold year, day, Hour. by rewrite int64_id by lia.
  - by apply day_overflow.
  - rewrite parseRetention_years by (apply Hr; lia). eexists. split; [done|]. unfold year, day, Hour.
    rewrite int64_over by lia. lia.
Qed.

Lemma retention_units_witness :
  parseRetention (fmt_d 106752 ++s "d") = inr (106752 * (24 * Hour) - 2 ^ 64) ∧
  (0 <= 30 <= 106751 → parseRetention (fmt_d 30 ++s "d") = inr (30 * (24 * Hour))).
Proof. split; [by_compute|]. apply (retention_units 30). Defined.

(** ** How long an object waits *)

Section Requeue.
Context {W : Type} `{Cluster W} `{LocalZone} `{DetailsCodec}.
Variable prometheus : Factory W.
Variable exec : Registry W.
Variable sink : option (Sink W).
Hypothesis exec_ok : registry_ok exec.

Lemma poll_bounded (p : ReactivePolicy) :
  between_or_unset (10 * Second) (5 * Minute) (PollInterval (ObserveSpec (p_Spec p))) →
  10 * Second <= pollIntervalOrDefault p <= 5 * Minute.
Proof.
  unfold pollIntervalOrDefault, between_or_unset, defaultPollInterval, Second, Minute. intros [->|Hp]; case_decide; lia.
Qed.

Lemma cooldown_bounded (p : ReactivePolicy) :
  between_or_unset (30 * Second) (24 * Hour) (Cooldown (p_Spec p)) →
  30 * Second <= cooldownOrDefault p <= 24 * Hour.
Proof.
  unfold cooldownOrDefault, between_or_unset, defaultCooldown, Second, Minute, Hour. intros [->|Hp]; case_decide; lia.
Qed.

Lemma status_answer_after r after d : Val (status_answer r after) = Val (requeue_after d, None) → after = d.
Proof. unfold status_answer. destruct r; [|by intros [= ->]]. case_decide; [by intros [=]|done]. Qed.

(** A cooldown only ever asks for what is left of it. *)
Lemma Cooling_left policy key m now ev d :
  Gated prometheus policy key m now ev (Cooling d) →
  (∀ last, LastTriggeredAt (p_Status policy) = Some last → last <= now) →
  cooldownOrDefault policy <= 24 * Hour →
  0 < d <= cooldownOrDefault policy ∧ ∃ last, LastTriggeredAt (p_Status policy) = Some last.
Proof.
  intros Hg Hlast Hc.
  assert (∀ ev, CooledDown prometheus policy key m now ev (Cooling d) →
    0 < d <= cooldownOrDefault policy ∧ ∃ last, LastTriggeredAt (p_Status policy) = Some last) as Hcd.
  { intros ev' Hcd. inversion Hcd as [last Hl Hlt|l v _ Hlim]; subst.
    - split; [|by exists last]. specialize (Hlast _ Hl). rewrite int64_id; unfold time_Sub, minDuration, maxDuration, Hour in *; lia.
    - inversion Hlim as [| |c n ev'' v _ _ Hev]; subst. inversion Hev. }
  inversion Hg; subst; by eapply Hcd.
Qed.


(** A run that asks to be called again at a deadline: the delay is measured by
    the last reading of the clock. *)
Definition waits_until (deadline : Time) (l : list IOEvent) (d : Duration) : Prop :=
  ∃ front t, l = front ++ [IoNow t] ∧ d = time_Sub deadline t ∧ (0 < d ↔ t < deadline).

Lemma waits deadline front t : waits_until deadline (front ++ [IoNow t]) (time_Sub deadline t).
Proof. exists front, t. split_and!; [done..|]. apply time_Sub_pos. Qed.

Lemma waits_app deadline l l' d : waits_until deadline l d → waits_until deadline (l' ++ l) d.
Proof. intros (front & t & -> & Hd & Hp). exists (l' ++ front), t. split_and!; [by rewrite app_assoc|done..]. Qed.

Lemma write_failed_no_requeue e pre d : Val (write_failed e pre) ≠ Val (requeue_after d, None).
Proof. unfold write_failed. case_decide; by intros [=]. Qed.

Lemma Closed_waits audit p message expiry l d :
  Closed audit p message expiry l (Val (requeue_after d, None)) → waits_until expiry l d.
Proof.
  intros Hc. remember (Val (requeue_after d, None)) as o eqn:Ho. destruct Hc; try (by apply write_failed_no_requeue in Ho).
  simplify_eq. rewrite !app_assoc. apply waits.
Qed.

Lemma Release_recorded_waits audit policy results expiry l d :
  Release_recorded exec audit policy results expiry l (Val (requeue_after d, None)) → waits_until expiry l d.
Proof.
  intros Hc. remember (Val (requeue_after d, None)) as o eqn:Ho. destruct Hc; try (by apply write_failed_no_requeue in Ho).
  simplify_eq. change ([?a; ?b]) with ([a] ++ [b]) at 2. rewrite !app_assoc. apply waits.
Qed.

Lemma Resolved_waits audit expiry l d :
  Resolved exec audit expiry l (Val (requeue_after d, None)) →
  waits_until expiry l d ∨ ∃ g, Gate (a_Spec audit) = Some g ∧ waits_until (ExpiresAt g) l d.
Proof.
  intros Hr. remember (Val (requeue_after d, None)) as o eqn:Ho.
  destruct Hr as [l o Hg Hc|gate policy l o Hg Hd Hs Hrel|gate e|gate e l o Hg Hd He Hc|gate policy l o Hg Hd Hs Hc
    |gate l o Hg Hd Hc|gate now l o Hg Ha Hd Hx Hc|gate now t Hg Ha Hd Hx]; try subst o.
  - left. by eapply Closed_waits.
  - left. apply (waits_app _ _ [_]). inversion Hrel as [|runs results tail o' _ _ _ Hrec]; subst.
    apply waits_app. by eapply Release_recorded_waits.
  - done.
  - left. apply (waits_app _ _ [_]). by eapply Closed_waits.
  - left. apply (waits_app _ _ [_]). by eapply Closed_waits.
  - left. by eapply Closed_waits.
  - left. apply (waits_app _ _ [_]). by eapply Closed_waits.
  - right. exists gate. split; [done|]. simplify_eq. apply (waits _ [_]).
Qed.

(** C33. Deadlines: a reconciliation of a record that asks to be called again
    either deleted the record, or waits exactly for the record's retention to
    run out or for its gate to expire, as measured by its last reading of the
    clock: the delay is positive exactly when the deadline is still ahead at
    that reading, and otherwise asks for no further call at all. *)
Theorem audit_requeue_deadline ctx req (st : St W) :
  wp (AuditController.Reconcile exec sink ctx req) st (λ o l st',
    ∀ audit got t rest d, l = IoGetAudit req (inr audit) :: IoGetPolicy (policy_key audit) got :: IoNow t :: rest →
      o = Val (requeue_after d, None) →
      (∃ r, rest = [IoDeleteAudit audit r] ∧ d = 0) ∨
      waits_until (expiry_of audit got) rest d ∨
      ∃ g, ApprovalPhase (a_Status audit) = PhasePending ∧ Gate (a_Spec audit) = Some g ∧ waits_until (ExpiresAt g) rest d).
Proof using exec_ok.
  eapply wp_mono; [by apply audit_Reconcile_wp|]. intros o l st' Hr audit got t rest d Hl Ho.
  destruct Hr as [e He|e He|a got' t' r Hle|a got' t' l' o' Hlt Hph Hres|a got' t' l' o' Hlt Hph Hreq Hnot Hrev|a got' t' t2 Hlt Hph Hi];
    simplify_eq.
  - left. exists r. split; [done|]. unfold delete_answer, zero_result, requeue_after in Ho.
    destruct r as [e|]; [case_decide|]; by simplify_eq.
  - right. destruct (Resolved_waits _ _ _ _ Hres) as [?|(g & Hg & ?)]; [by left|right]. by exists g.
  - right. left. inversion Hrev as [l1 results now a' e Hrevs Ha Ho|l1 results now a' a'' sinks t2 Hrevs Ha Hs Ho]; subst.
    + match goal with E : write_failed ?e ?pre = _ |- _ => by apply (f_equal Val), write_failed_no_requeue in E end.
    + rewrite (app_assoc _ sinks), app_assoc. apply waits.
  - right. left. apply (waits _ []).
Qed.

(** C39. An overflowing retention deletes at once: under a policy that asks to
    keep records for 106752 to 213503 days (292 to 584 years), every
    reconciliation of an existing record that reads the policy deletes it. *)
Theorem retention_overflow_deletes ctx req (st : St W) :
  wp (AuditController.Reconcile exec sink ctx req) st (λ o l st',
    ∀ audit policy t rest n,
      l = IoGetAudit req (inr audit) :: IoGetPolicy (policy_key audit) (inr policy) :: IoNow t :: rest →
      Audit (p_Spec policy) = Some (mkAuditSpec (fmt_d n ++s "d")) → 106752 <= n <= 213503 →
      CreationTimestamp (a_Meta audit) <= t →
      ∃ r, rest = [IoDeleteAudit audit r]).
Proof using exec_ok.
  eapply wp_mono; [by apply audit_Reconcile_wp|]. intros o l st' Hr audit policy t rest n Hl Hret Hn Ht.
  assert (expiry_of audit (inr policy) < t) as Hpast.
  { destruct (day_overflow n Hn) as (d & Hd & Hneg). unfold expiry_of, retention_of, time_Add. rewrite Hret. cbn [Retention].
    rewrite decide_False by (destruct (fmt_d n); done). rewrite Hd. lia. }
  destruct Hr; simplify_eq; try lia. by eexists.
Qed.

End Requeue.

(** ** Witnesses *)

Definition run_audit (w : World) : outcome (CtrlResult * option error) * St World :=
  AuditController.Reconcile fake_registry None Background (mkNN "prod" "high-cpu-1") (start w).


Lemma audit_requeue_deadline_witness :
  (run_audit (w_open EmptyString)).1 = Val (requeue_after (30 * Minute - 2 * Millisecond), None) ∧
  wp (AuditController.Reconcile fake_registry None Background (mkNN "prod" "high-cpu-1")) (start (w_open EmptyString)) (λ o l st',
    ∀ audit got t rest d,
      l = IoGetAudit (mkNN "prod" "high-cpu-1") (inr audit) :: IoGetPolicy (policy_key audit) got :: IoNow t :: rest →
      o = Val (requeue_after d, None) →
      (∃ r, rest = [IoDeleteAudit audit r] ∧ d = 0) ∨
      waits_until (expiry_of audit got) rest d ∨
      ∃ g, ApprovalPhase (a_Status audit) = PhasePending ∧ Gate (a_Spec audit) = Some g ∧ waits_until (ExpiresAt g) rest d).
Proof. split; [by_compute|]. apply (audit_requeue_deadline fake_registry None fake_registry_ok). Defined.

(** A policy that wants its records for 300 years. *)
Definition w_forever : World :=
  with_policies ((λ p, mkPolicy (p_Meta p)
    (let s := p_Spec p in mkPolicySpec (SpecTarget s) (ObserveSpec s) (Actions s) (Cooldown s) (MaxTriggersPerHour s)
       (AllowIrreversible s) (ApprovalTimeout s) (Some (mkAuditSpec "109500d"))) (p_Status p))
    <$> w_policies (w_open EmptyString)) (w_open EmptyString).

Lemma retention_overflow_deletes_witness :
  w_audits (world (run_audit w_forever).2) = [] ∧
  wp (AuditController.Reconcile fake_registry None Background (mkNN "prod" "high-cpu-1")) (start w_forever) (λ o l st',
    ∀ audit policy t rest n,
      l = IoGetAudit (mkNN "prod" "high-cpu-1") (inr audit) :: IoGetPolicy (policy_key audit) (inr policy) :: IoNow t :: rest →
      Audit (p_Spec policy) = Some (mkAuditSpec (fmt_d n ++s "d")) → 106752 <= n <= 213503 →
      CreationTimestamp (a_Meta audit) <= t →
      ∃ r, rest = [IoDeleteAudit audit r]).
Proof. split; [by_compute|]. apply (retention_overflow_deletes fake_registry None fake_registry_ok). Defined.

(** When the deadline passes between the two readings of the clock, the delay
    is negative: the gate is left Pending, and controller-runtime schedules no
    further call for a delay that is not positive. *)
Definition w_slow : World :=
  let w := w_open EmptyString in
  mkWorld (w_now w) (20 * Minute) (w_serial w) (w_policies w) (w_audits w) (w_objects w) (w_metric w) (w_write_errors w).

Example expired_gate_not_requeued :
  (run_audit w_slow).1 = Val (requeue_after (- (10 * Minute)), None) ∧
  (ApprovalPhase ∘ a_Status <$> w_audits (world (run_audit w_slow).2)) = [PhasePending].
Proof. split; by_compute. Qed.

(** *** A retention shorter than what still counts on the record *)

Definition keeping (retention : string) (max : option Z) (w : World) : World :=
  with_policies ((λ p, mkPolicy (p_Meta p)
    (let s := p_Spec p in mkPolicySpec (SpecTarget s) (ObserveSpec s) (Actions s) (Cooldown s) max
       (AllowIrreversible s) (ApprovalTimeout s) (Some (mkAuditSpec retention))) (p_Status p)) <$> w_policies w) w.

(** One pass of either reconciler at a time of its own, on what the passes
    before left behind. *)
Definition at_time (t : Time) (st : St World) : St World := mkSt (with_now t (world st)) (mem st) [].
Definition policy_pass (t : Time) (st : St World) : St World :=
  (PolicyController.Reconcile fake_prometheus fake_registry None Background a_req (at_time t st)).2.
Definition audit_pass (name : string) (t : Time) (st : St World) : St World :=
  (AuditController.Reconcile fake_registry None Background (mkNN "prod" name) (at_time t st)).2.
Definition plugins_run (st : St World) : list string := (executed (log st)).*1.

(** At most one trigger an hour, records kept for ten minutes: the policy is
    admitted, its record is swept, and it triggers twice in a quarter of an
    hour. *)
Definition w_capped : World :=
  keeping "10m" (Some 1) (a_world [a_policy [act "annotate" EmptyString false] Minute fresh_status] []).
Definition triggered_once : St World := policy_pass t0 (start w_capped).
Definition after_sweep : St World := audit_pass "high-cpu-8" (t0 + 11 * Minute) triggered_once.
Definition triggered_again : St World :=
  policy_pass (t0 + 14 * Minute) (policy_pass (t0 + 12 * Minute) after_sweep).

Example short_retention_defeats_cap :
  (λ p, (validate fake_registry p (start w_capped)).1) <$> w_policies w_capped = [Val None] ∧
  plugins_run triggered_once = ["annotate"; "annotate"] ∧ w_audits (world after_sweep) = [] ∧
  plugins_run triggered_again = ["annotate"; "annotate"].
Proof. split_and!; by_compute. Qed.

(** Records kept for ten minutes, gates open for thirty: the record of an open
    gate is swept before anyone decided, no cooldown starts, and the next pass
    finds no gate and counts the threshold as crossed. *)
Definition w_gated : World := keeping "10m" (Some 5) w_due.
Definition gate_open : St World := policy_pass t0 (start w_gated).
Definition gate_swept : St World := audit_pass "high-cpu-8" (t0 + 11 * Minute) gate_open.
Definition gated_again : St World := policy_pass (t0 + 14 * Minute) (policy_pass (t0 + 12 * Minute) gate_swept).

Example short_retention_drops_gate :
  (ApprovalPhase ∘ a_Status <$> w_audits (world gate_open)) = [PhasePending] ∧ w_audits (world gate_swept) = [] ∧
  plugins_run gate_open = ["annotate"; "annotate"] ∧ plugins_run gated_again = ["annotate"; "annotate"] ∧
  (LastTriggeredAt ∘ p_Status <$> w_policies (world gated_again)) = [None].
Proof. split_and!; by_compute. Qed.
