(* ===== verification/GateLife.v ===== *)
(** * The life of an approval gate

    The record of a gated trigger is written by three parties at once: the
    policy reconciler creates it and marks it Pending, clients edit it through
    the approval webhook, and the audit reconciler resolves it.  Here they are
    the steps of one transition system over the API server's copy of the
    record: any number of reconciliations of either kind, of any object, run
    concurrently, call by call, with stale reads, lost and landed-but-failed
    writes and crashes in between.  The server contributes what it documents:
    status is a subresource, a write with an old resource version is refused,
    and a version is never used twice. *)

From S2P Require Import Prelude GoLib FloatLib GoTime Api ActionTypes Metrics Effects Logic Evaluator Limiter Registry Executor AuditWriter PolicyController AuditController AuditWebhook Fake WebhookTheorems PolicySpec AuditSpec.
From Stdlib Require Import Sorting.Sorted.

(** ** The API server's copy *)

(** Every object stored under one key, newest first; whether it still exists;
    and who decided its gate, in order. *)
Record store : Type := mkStore {
  snaps : list ActionAudit; alive : bool; ballots : list (string * ApprovalDecision) }.

Definition version (a : ActionAudit) : string := ResourceVersion (a_Meta a).
Definition phase (a : ActionAudit) : ApprovalPhaseT := ApprovalPhase (a_Status a).
Definition current (s : store) : option ActionAudit := if alive s then head (snaps s) else None.
Definition push (a : ActionAudit) (s : store) : store := mkStore (a :: snaps s) true (ballots s).

Definition decided (d : ApprovalDecision) (a : ActionAudit) : Prop :=
  ∃ g, Gate (a_Spec a) = Some g ∧ Decision_ g = d.

(** ** What a reconciler may do with its copy of a record *)

Inductive kind : Type := Policies | Audits.

(** The record a reconciliation last got from the server: created by itself,
    or read or written. *)
Inductive copy : Type := NoCopy | Made (a : ActionAudit) | Got (a : ActionAudit).

Definition advance (c : copy) (e : IOEvent) : copy :=
  match e with
  | IoGetAudit _ (inr a) => Got a
  | IoCreateAudit _ (inr a) => Made a
  | IoUpdateAudit _ (inr a) | IoStatusUpdateAudit _ (inr a) => Got a
  | IoCreateAudit _ (inl _) | IoUpdateAudit _ (inl _) | IoStatusUpdateAudit _ (inl _) => NoCopy
  | _ => c
  end.

(** The phases a status write may set. *)
Definition phase_move (a : ActionAudit) (p : ApprovalPhaseT) : Prop :=
  p = phase a ∨
  phase a = PhasePending ∧
    (p = PhaseApproved ∧ decided DecisionApproved a ∨ p = PhaseDenied ∨
     p = PhaseExpired ∧ ∃ d, decided d a ∧ d ≠ DecisionApproved ∧ d ≠ DecisionDenied).

Section Discipline.
Variable key : NamespacedName.

Definition at_key (a : ActionAudit) : Prop := meta_at key (a_Meta a).

Lemma at_key_meta a a' : a_Meta a = a_Meta a' → at_key a ↔ at_key a'.
Proof. unfold at_key. by intros ->. Qed.

Definition permitted (k : kind) (c : copy) (e : IOEvent) : Prop :=
  match e with
  | IoCreateAudit a _ => ∀ g, Gate (a_Spec a) = Some g → Decision_ g = EmptyString
  | IoUpdateAudit a _ => at_key a → ∃ a0, c = Got a0 ∧ a_Meta a = a_Meta a0 ∧ Gate (a_Spec a) = Gate (a_Spec a0)
  | IoStatusUpdateAudit a _ =>
      at_key a →
      match c with
      | NoCopy => False
      | Made a0 => a_Meta a = a_Meta a0 ∧ phase a = PhasePending
      | Got a0 => a_Meta a = a_Meta a0 ∧ phase_move a0 (phase a)
      end
  | IoExecute _ _ _ =>
      k = Audits → ∃ a0, c = Got a0 ∧ phase a0 = PhasePending ∧ decided DecisionApproved a0
  | _ => True
  end.

(** What a reconciliation relies on: an Update answers with the record sent
    and the status the server had, that of the copy. *)
Definition honest (c : copy) (e : IOEvent) : Prop :=
  match e with
  | IoUpdateAudit a (inr a') =>
      (at_key a' ↔ at_key a) ∧
      (at_key a → a_Spec a' = a_Spec a ∧ ∀ a0, c = Got a0 → a_Meta a = a_Meta a0 → a_Status a' = a_Status a0)
  | _ => True
  end.

(** Every event of a reconciliation is allowed for the copy it then holds. *)
Fixpoint obeys (allowed : kind → copy → IOEvent → Prop) (k : kind) (c : copy) (l : list IOEvent) : Prop :=
  match l with
  | [] => True
  | e :: l => allowed k c e ∧ (honest c e → obeys allowed k (advance c e) l)
  end.

(** Events allowed whatever is held, and that change nothing about it. *)
Lemma obeys_skip allowed k c l l' :
  Forall (λ e, advance c e = c ∧ allowed k c e) l → obeys allowed k c l' → obeys allowed k c (l ++ l').
Proof.
  intros Hl Hl'. induction Hl as [|e l [Ha Hp] _ IH]; [done|]. simpl. rewrite Ha. by split.
Qed.

#[local] Notation "'disciplined'" := (obeys permitted).

(** Events that neither touch a record nor run an action. *)
Definition aside (e : IOEvent) : Prop :=
  match e with
  | IoGetAudit _ _ | IoCreateAudit _ _ | IoUpdateAudit _ _ | IoStatusUpdateAudit _ _ | IoExecute _ _ _ => False
  | _ => True
  end.

Lemma aside_disciplined k c l l' : Forall aside l → disciplined k c l' → disciplined k c (l ++ l').
Proof.
  intros Hl Hl'. apply obeys_skip; [|done]. eapply Forall_impl; [exact Hl|]. by intros [].
Qed.
Lemma aside_only k c l : Forall aside l → disciplined k c l.
Proof. intros Hl. rewrite <- (app_nil_r l). by apply aside_disciplined. Qed.

Lemma is_sink_aside l : Forall is_sink l → Forall aside l.
Proof. intros Hl. eapply Forall_impl; [exact Hl|by intros []]. Qed.
Lemma is_revert_sink_aside l : Forall is_revert_sink l → Forall aside l.
Proof. intros Hl. eapply Forall_impl; [exact Hl|by intros []]. Qed.
Lemma is_list_aside l : Forall is_list l → Forall aside l.
Proof. intros Hl. eapply Forall_impl; [exact Hl|by intros []]. Qed.
Lemma cooling_aside nn now l : cooling_started nn now l → Forall aside l.
Proof. destruct 1; by repeat constructor. Qed.

(** ** The audit reconciler keeps the discipline *)

Section AuditDiscipline.
Context {W : Type} `{Cluster W} `{LocalZone} `{DetailsCodec}.
Variable exec : Registry W.

Lemma runs_disciplined k c l l' :
  Forall is_run l → (k = Audits → ∃ a0, c = Got a0 ∧ phase a0 = PhasePending ∧ decided DecisionApproved a0) →
  disciplined k c l' → disciplined k c (l ++ l').
Proof.
  intros Hl Hc Hl'. induction Hl as [|e l He _ IH]; [done|]. simpl. destruct e; simpl in *; try done; by split.
Qed.

(** Resolving a copy: the status write is permitted, the rest is aside. *)
Lemma resolved_disciplined audit a' p resumed now r l :
  resolved_as audit a' p resumed → phase_move audit p → Forall aside l →
  disciplined Audits (Got audit) (IoNow now :: IoStatusUpdateAudit a' r :: l).
Proof.
  intros (Hm & _ & Hp & _) Hmove Hl. simpl. split; [done|]. intros _. split; [|by intros _; apply aside_only].
  intros _. split; [done|]. unfold phase. by rewrite Hp.
Qed.

(** The phases a copy allows are those of the copy an Update returns. *)
Lemma phase_move_updated audit a audit2 p :
  Gate (a_Spec a) = Gate (a_Spec audit) → a_Spec audit2 = a_Spec a → a_Status audit2 = a_Status audit →
  phase_move audit p → phase_move audit2 p.
Proof.
  unfold phase_move, decided, phase. intros Hg Hs Ht. rewrite Hs, Ht, Hg. done.
Qed.

(** An Update of actions only, then the status write: disciplined, whether or
    not the record is the one watched. *)
Lemma updated_disciplined audit a audit2 a' p resumed now r l :
  a_Meta a = a_Meta audit → Gate (a_Spec a) = Gate (a_Spec audit) →
  resolved_as audit2 a' p resumed → phase_move audit p → Forall aside l →
  disciplined Audits (Got audit) (IoUpdateAudit a (inr audit2) :: IoNow now :: IoStatusUpdateAudit a' r :: l).
Proof.
  intros Hm Hg Hr Hmove Hl. split; [by intros _; eexists|]. intros [Hkey Hh].
  split; [done|]. intros _. destruct Hr as (Hm' & _ & Hp & _). split; [|by intros _; apply aside_only].
  intros Hat. split; [done|]. unfold phase. rewrite Hp. rewrite (at_key_meta _ _ Hm') in Hat.
  destruct Hh as [Hs Ht]; [by apply Hkey|]. eapply phase_move_updated; [exact Hg|exact Hs|by eapply Ht|done].
Qed.

Lemma Closed_disciplined audit p message expiry l o :
  Closed audit p message expiry l o → phase_move audit p → disciplined Audits (Got audit) l.
Proof.
  assert (∀ e, disciplined Audits (Got audit) [IoUpdateAudit (skip_held audit message) (inl e)]) as Hfail.
  { intros e. split; [by intros _; eexists|done]. }
  assert (∀ pre audit2 now a' r l, noted audit message pre audit2 → resolved_as audit2 a' p (ResumedAt (a_Status audit2)) →
    phase_move audit p → Forall aside l →
    disciplined Audits (Got audit) (pre ++ IoNow now :: IoStatusUpdateAudit a' r :: l)) as Htail.
  { intros pre audit2 now a' r l' Hn Hr Hmove Hl. destruct Hn; cbn [app]; [by eapply resolved_disciplined|].
    by eapply updated_disciplined. }
  destruct 1 as [e|pre audit2 now a' e Hn Hr|pre audit2 now a' a'' cool t Hn Hr Hcool]; intros Hmove; [done|by eapply Htail|].
  eapply Htail; [done..|]. apply Forall_app. split; [by eapply cooling_aside|by repeat constructor].
Qed.

Lemma Release_recorded_disciplined audit policy results expiry l o :
  Release_recorded exec audit policy results expiry l o → phase_move audit PhaseApproved → disciplined Audits (Got audit) l.
Proof.
  destruct 1 as [e|audit2 now a' e Hr|audit2 now a' a'' sinks r t Hr Hs]; intros Hmove.
  - split; [by intros _; eexists|done].
  - by eapply updated_disciplined.
  - eapply updated_disciplined; [done..|]. apply Forall_app. split; [by apply is_sink_aside|by repeat constructor].
Qed.

Lemma Resolved_disciplined audit expiry l o :
  Resolved exec audit expiry l o → phase audit = PhasePending → disciplined Audits (Got audit) l.
Proof.
  intros Hr Hp.
  assert (phase_move audit PhaseDenied) as Hdenied by (right; auto).
  destruct Hr; try (by eapply Closed_disciplined).
  - split; [done|]. intros _. assert (decided DecisionApproved audit) as Hd by by eexists.
    match goal with Hrel : Released _ _ _ _ _ _ _ |- _ => destruct Hrel end; [done|].
    apply runs_disciplined; [done|by intros _; eexists|]. eapply Release_recorded_disciplined; [done|]. right. auto.
  - by split.
  - split; [done|]. intros _. by eapply Closed_disciplined.
  - split; [done|]. intros _. by eapply Closed_disciplined.
  - split; [done|]. intros _. eapply Closed_disciplined; [done|]. right. split; [done|]. right. right.
    split; [done|]. eexists. split; [by eexists|]. done.
  - by repeat split.
Qed.

Lemma reversals_aside recs l rrs : reversals exec recs l rrs → Forall aside l.
Proof.
  induction 1 as [|rec recs l rr ls rrs Hr _ IH]; [done|]. apply Forall_app. split; [|done].
  destruct Hr; by repeat constructor.
Qed.

Lemma Audit_disciplined req l o : AuditReconciled exec req l o → disciplined Audits NoCopy l.
Proof.
  destruct 1 as [e He|e He|audit got t r Ht|audit got t l o Ht Hp Hr|audit got t l o Ht Hp Hrr Hrd Hr|audit got t t' Ht Hp Hi];
    simpl; try tauto.
  - split; [done|]. intros _. split; [done|]. intros _. split; [done|]. intros _. by eapply Resolved_disciplined.
  - split; [done|]. intros _. split; [done|]. intros _. split; [done|]. intros _.
    destruct Hr as [l results now a' e Hrev Has|l results now a' a'' sinks t' Hrev Has Hs];
      (apply aside_disciplined; [by eapply reversals_aside|]); destruct Has as (Hm & _ & _ & _ & _ & Hph);
      (split; [done|]); intros _; (split; [intros _; split; [exact Hm|left; exact Hph]|]); intros _; [done|].
    apply aside_only. cbn [app]. apply Forall_app. split; [by apply is_revert_sink_aside|by repeat constructor].
Qed.

End AuditDiscipline.

(** ** So does the policy reconciler *)

Section PolicyDiscipline.
Context {W : Type} `{Cluster W} `{LocalZone} `{DetailsCodec}.
Variable prometheus : Factory W.
Variable exec : Registry W.

Lemma reads_disciplined l l' : Forall is_read l → ∀ c,
  (∀ c, disciplined Policies c l') → disciplined Policies c (l ++ l').
Proof.
  intros Hl c Hl'. revert c. induction Hl as [|e l He _ IH]; intros c; [done|]. simpl.
  destruct e; simpl in *; try done; by split.
Qed.

Lemma Recorded_disciplined policy pkey m now targets results l o m' c :
  Recorded exec policy pkey m now targets results l o m' → disciplined Policies c l.
Proof.
  assert (∀ a, a_Meta (set_ApprovalPhase a PhasePending) = a_Meta a) as Hmeta by done.
  destruct 1 as [r sinks p' r' m' _ Hs|writes p' r' m' _ Hw|a a' sinks p' r' m' _ Hs].
  - split; [done|]. intros _. apply aside_only, Forall_app. split; [by apply is_sink_aside|by repeat constructor].
  - destruct Hw as [(e & ->)|(a & e & ->)]; cbn [app]; (split; [by intros g [= <-]|]); intros _; [done|].
    split; [by intros _|]. intros _. by apply aside_only; repeat constructor.
  - split; [by intros g [= <-]|]. intros _. split; [by intros _|]. intros _.
    apply aside_only, Forall_app. split; [by apply is_sink_aside|by repeat constructor].
Qed.

Lemma Policy_disciplined req m l o m' : Reconciled prometheus exec req m l o m' → disciplined Policies NoCopy l.
Proof.
  destruct 1 as [| |policy now ev v tail o m' Hg Hcon]; [done..|].
  split; [done|]. intros _. split; [done|]. intros _.
  apply reads_disciplined; [by eapply Gated_reads|]. intros c.
  destruct Hcon as [v tail o m' Hv (p' & r & -> & _)|p1 m1 tail o m' _ _ _ _ Htrig]; [by apply aside_only; repeat constructor|].
  destruct Htrig as [lists p' r m'' Hl|lists resolved runs results tail o m'' Hlist _ Hruns _ Hrec].
  - apply aside_only, Forall_app. split; [by apply is_list_aside|by repeat constructor].
  - apply aside_disciplined; [by eapply is_list_aside, listing_lists|].
    apply runs_disciplined; [done|by intros [=]|]. by eapply Recorded_disciplined.
Qed.

End PolicyDiscipline.

(** ** The API server *)

(** A write to the stored object: the sender's version is current, the object
    stored is new. *)
Definition accepts (s : store) (a c a' : ActionAudit) : Prop :=
  current s = Some c ∧ version a = version c ∧ at_key a' ∧ version a' ∉ version <$> snaps s.

(** The answer to a write that was stored: the object, or an error that hides
    the success. *)
Definition answers (a' : ActionAudit) (r : error + ActionAudit) : Prop := r = inr a' ∨ ∃ e, r = inl e.

Definition leaves_record (e : IOEvent) : Prop :=
  match e with
  | IoGetAudit _ (inr _) => False
  | IoCreateAudit _ (inr a') => ¬ at_key a'
  | IoUpdateAudit a (inr a') | IoStatusUpdateAudit a (inr a') => ¬ at_key a ∧ ¬ at_key a'
  | _ => True
  end.

Inductive served (s : store) : IOEvent → store → Prop :=
(** Reads come from a cache that may lag behind. *)
| sv_read nn a : (at_key a → a ∈ snaps s) → served s (IoGetAudit nn (inr a)) s
| sv_created a a' r :
    answers a' r → snaps s = [] → at_key a' → a_Spec a' = a_Spec a → a_Status a' = empty_audit_status →
    served s (IoCreateAudit a r) (push a' s)
| sv_updated a c a' r :
    answers a' r → at_key a → accepts s a c a' → a_Spec a' = a_Spec a → a_Status a' = a_Status c →
    served s (IoUpdateAudit a r) (push a' s)
| sv_status_updated a c a' r :
    answers a' r → at_key a → accepts s a c a' → a_Spec a' = a_Spec c → a_Status a' = a_Status a →
    served s (IoStatusUpdateAudit a r) (push a' s)
| sv_deleted a r : served s (IoDeleteAudit a r) (mkStore (snaps s) false (ballots s))
(** Everything else leaves the record as it is: failures, other objects, other
    calls. *)
| sv_other e : leaves_record e → served s e s.

(** ** Clients *)

Section Clients.
Context {W : Type} `{Cluster W} `{AuditCodec}.

(** Who decided the gate, if this write does. *)
Definition ballot (req : Request) (c a : ActionAudit) : list (string * ApprovalDecision) :=
  match Gate (a_Spec c), Gate (a_Spec a) with
  | Some old, Some new => if decide (Decision_ new = Decision_ old) then [] else [(requesterName req, Decision_ new)]
  | _, _ => []
  end.

Inductive client (s : store) : store → Prop :=
(** An update that the approval webhook admits; the status is not the
    client's to write. *)
| client_update req (st st' : St W) res a c a' :
    Operation req = OpUpdate → (0 < String.length (OldObject req))%nat → Decode (OldObject req) = inr c →
    Handle req st = (Val res, st') → admitted req res = Some a →
    accepts s c c a' → a_Spec a' = a_Spec a → a_Status a' = a_Status c →
    client s (mkStore (a' :: snaps s) true (ballot req c a ++ ballots s))
| client_delete : client s (mkStore (snaps s) false (ballots s)).

End Clients.

(** ** What holds of every stored object and of every edit *)

Definition closed_phase (p : ApprovalPhaseT) : Prop := p = PhaseApproved ∨ p = PhaseDenied ∨ p = PhaseExpired.

(** Phases only move forward, and a resolved gate stays resolved. *)
Definition phase_le (p q : ApprovalPhaseT) : Prop :=
  p = q ∨ p = EmptyString ∨ p = PhasePending ∧ closed_phase q.

(** A gate stays, and so do a decision and its stamp once made. *)
Definition gate_le (old new : option ApprovalGate) : Prop :=
  match old, new with
  | None, None => True
  | Some g, Some g' => Decision_ g = EmptyString ∨ decision_untouched g g'
  | _, _ => False
  end.

Definition grew (old new : ActionAudit) : Prop :=
  phase_le (phase old) (phase new) ∧ gate_le (Gate (a_Spec old)) (Gate (a_Spec new)).

#[local] Instance phase_le_preorder : PreOrder phase_le.
Proof.
  split; [by left|]. unfold phase_le, closed_phase. intros p q r Hpq Hqr.
  destruct Hpq as [->|[->|[-> Hq]]]; [done|by right; left|].
  destruct Hqr as [<-|[->|[-> _]]]; [by right; right| |]; by naive_solver.
Qed.

#[local] Instance gate_le_preorder : PreOrder gate_le.
Proof.
  unfold gate_le, decision_untouched. split; [intros [g|]; auto|].
  intros [x|] [y|] [z|]; try done. intros [?|(Hd & Hb & Ht)]; [by left|].
  intros [Hy|(Hd' & Hb' & Ht')]; [left; congruence|right; split_and!; congruence].
Qed.

#[local] Instance grew_preorder : PreOrder grew.
Proof. unfold grew. split; [by intros a|]. intros a b c [? ?] [? ?]. split; by etrans. Qed.

(** A record is never Approved without an approval, nor Expired with a
    decision. *)
Definition sound (a : ActionAudit) : Prop :=
  at_key a ∧ (phase a = EmptyString ∨ phase a = PhasePending ∨ closed_phase (phase a)) ∧
  (phase a = PhaseApproved → decided DecisionApproved a) ∧
  (phase a = PhaseExpired → decided EmptyString a) ∧
  (∀ d, decided d a → d = EmptyString ∨ d = DecisionApproved ∨ d = DecisionDenied).

(** Who decided is who the record says, and nobody decided twice. *)
Definition election (b : list (string * ApprovalDecision)) (a : ActionAudit) : Prop :=
  match b with
  | [] => ∀ d, decided d a → d = EmptyString
  | [(who, d)] => d ≠ EmptyString ∧ ∃ g, Gate (a_Spec a) = Some g ∧ Decision_ g = d ∧ DecidedBy g = who
  | _ => False
  end.

Definition store_ok (s : store) : Prop :=
  StronglySorted (λ new old, grew old new) (snaps s) ∧ Forall sound (snaps s) ∧
  NoDup (version <$> snaps s) ∧
  match snaps s with [] => ballots s = [] | a :: _ => election (ballots s) a end.

(** Extending the store by an object that grew out of the current one. *)
Lemma push_ok s c a' b :
  store_ok s → current s = Some c → version a' ∉ version <$> snaps s → grew c a' → sound a' → election b a' →
  store_ok (mkStore (a' :: snaps s) true b).
Proof.
  intros (Hs & Hf & Hn & _) Hc Hv Hg Ha Hb. unfold current in Hc.
  destruct (alive s); [|done]. destruct (snaps s) as [|c' l] eqn:E; [done|]. simpl in Hc. simplify_eq.
  split_and!; simpl; [|by constructor|by constructor|done].
  constructor; [done|]. constructor; [done|]. apply StronglySorted_inv in Hs as [_ Hs].
  eapply Forall_impl; [exact Hs|]. intros x Hx. simpl in *. by etrans.
Qed.

Lemma current_in s c : current s = Some c → ∃ l, snaps s = c :: l.
Proof. unfold current. destruct (alive s); [|done]. destruct (snaps s); [done|]. intros [= ->]. eauto. Qed.

(** A copy of the stored object is the object, when the versions agree. *)
Lemma version_unique s a c :
  store_ok s → current s = Some c → a ∈ snaps s → version a = version c → a = c.
Proof.
  intros (_ & _ & Hn & _) Hc Ha Hv. destruct (current_in _ _ Hc) as [l Hl]. rewrite Hl in *.
  apply elem_of_cons in Ha as [->|Ha]; [done|]. simpl in Hn. apply NoDup_cons in Hn as [Hn _].
  exfalso. apply Hn. rewrite <- Hv. by apply list_elem_of_fmap_2.
Qed.

Lemma current_facts s c : store_ok s → current s = Some c → sound c ∧ election (ballots s) c.
Proof.
  intros (_ & Hf & _ & He) Hc. destruct (current_in _ _ Hc) as [l Hl]. rewrite Hl in *.
  by apply Forall_cons in Hf as [? _].
Qed.

(** *** A write that keeps the gate *)

Lemma gate_same_decided a c d : Gate (a_Spec a) = Gate (a_Spec c) → decided d a ↔ decided d c.
Proof. unfold decided. by intros ->. Qed.

Lemma gate_same_election b a c : Gate (a_Spec a) = Gate (a_Spec c) → election b c → election b a.
Proof. unfold election, decided. by intros ->. Qed.

Lemma rewrite_ok s c a' :
  store_ok s → current s = Some c → version a' ∉ version <$> snaps s → at_key a' →
  Gate (a_Spec a') = Gate (a_Spec c) → phase_move c (phase a') ∨ (phase c = EmptyString ∧ phase a' = PhasePending) →
  store_ok (push a' s).
Proof.
  intros Hok Hc Hv Hat Hg Hp. destruct (current_facts _ _ Hok Hc) as [(_ & Hin & Happ & Hexp & Hdec) He].
  eapply push_ok; [done..| | |by eapply gate_same_election].
  - split; [|by rewrite Hg]. unfold phase_le, closed_phase.
    destruct Hp as [[->|[-> Hp]]|[-> _]]; [by left| |by right; left]. right. right. naive_solver.
  - split_and!; [done|..].
    + unfold closed_phase. destruct Hp as [[->|[_ Hp]]|[_ ->]]; [done|naive_solver|naive_solver].
    + intros Ha. rewrite (gate_same_decided _ _ _ Hg). destruct Hp as [[Hp|[_ Hp]]|[_ Hp]]; [apply Happ; congruence| |];
        rewrite Ha in Hp; naive_solver.
    + intros Ha. rewrite (gate_same_decided _ _ _ Hg). destruct Hp as [[Hp|[_ Hp]]|[_ Hp]]; [apply Hexp; congruence| |];
        rewrite Ha in Hp; [|done]. destruct Hp as [[? _]|[?|[_ (d & Hd & ? & ?)]]]; [done..|].
      by destruct (Hdec _ Hd) as [->|[?|?]].
    + intros d. rewrite (gate_same_decided _ _ _ Hg). apply Hdec.
Qed.

(** ** Clients keep it *)

Lemma client_ok {W : Type} `{Cluster W} `{AuditCodecLaws} s s' : client (W := W) s s' → store_ok s → store_ok s'.
Proof.
  intros Hcl Hok. destruct Hcl as [req st st' res a c a' Hop Hlen Hold Hrun Hadm (Hc & _ & Hat & Hv) Hspec Hstatus|];
    [|by destruct Hok as (? & ? & ? & ?)].
  destruct (wp_run _ _ _ _ _ (Handle_authentic req st Hop Hlen) Hrun) as (l & _ & Hcase).
  specialize (Hcase _ _ _ eq_refl Hadm Hold).
  destruct (current_facts _ _ Hok Hc) as [(_ & Hin & Happ & Hexp & Hdec) He].
  assert (phase a' = phase c) as Hph by (unfold phase; by rewrite Hstatus).
  destruct (Gate (a_Spec c)) as [old|] eqn:Hgc, (Gate (a_Spec a)) as [new|] eqn:Hga; try done.
  2: { assert (Gate (a_Spec a') = Gate (a_Spec c)) as Hg by congruence. unfold ballot. rewrite Hgc.
       apply (rewrite_ok s c a'); [done..|]. left. left. exact Hph. }
  assert (∀ d, decided d a' ↔ d = Decision_ new) as Hda.
  { intros d. unfold decided. rewrite Hspec, Hga. split; [by intros (g & [= <-] & <-)|intros ->; by eexists]. }
  assert (∀ d, decided d c ↔ d = Decision_ old) as Hdc.
  { intros d. unfold decided. rewrite Hgc. split; [by intros (g & [= <-] & <-)|intros ->; by eexists]. }
  destruct Hcase as [Hsame|(Hempty & Hpend & Hval & Hby & _)].
  - assert (Decision_ new = Decision_ old) as Hd by apply Hsame. unfold ballot. rewrite Hgc, Hga, decide_True by done.
    eapply push_ok; [done..| | |].
    + split; [rewrite Hph; by left|]. rewrite Hgc, Hspec, Hga. by right.
    + unfold sound. rewrite Hph. setoid_rewrite Hda. rewrite Hd. setoid_rewrite Hdc in Happ. setoid_rewrite Hdc in Hexp.
      setoid_rewrite Hdc in Hdec. by split_and!.
    + unfold election in *. destruct (ballots s) as [|[who d] [|]]; simpl; [|destruct He as (Hne & g & Hg & Hdg & Hbg)|done].
      * intros d Hd'%Hda. apply He, Hdc. congruence.
      * split; [done|]. exists new. rewrite Hspec. destruct Hsame as (? & ? & ?). split_and!; congruence.
  - assert (ballots s = []) as Hnone.
    { unfold election in He. destruct (ballots s) as [|[who d] [|]]; [done| |done]. destruct He as (Hne & g & ? & ? & ?).
      exfalso. congruence. }
    assert (Decision_ new ≠ Decision_ old) as Hne by (rewrite Hempty; intros Heq; rewrite Heq in Hval; by destruct Hval).
    unfold ballot. rewrite Hgc, Hga, decide_False, Hnone by done.
    eapply push_ok; [done..| | |].
    + split; [rewrite Hph; by left|]. rewrite Hgc, Hspec, Hga. by left.
    + unfold sound. rewrite Hph. unfold phase. rewrite Hpend. setoid_rewrite Hda. split_and!; [done|by right; left|done..|].
      intros d ->. by right.
    + split; [by rewrite <- Hempty|]. exists new. by rewrite Hspec.
Qed.

(** ** So does every event of a disciplined reconciliation *)

Definition copy_ok (s : store) (c : copy) : Prop :=
  match c with
  | NoCopy => True
  | Made a => at_key a → a ∈ snaps s ∧ phase a = EmptyString
  | Got a => at_key a → a ∈ snaps s
  end.

Lemma copy_ok_mono s s' c : (∀ a, a ∈ snaps s → a ∈ snaps s') → copy_ok s c → copy_ok s' c.
Proof. intros Hsub. destruct c; simpl; naive_solver. Qed.

Lemma served_grows s e s' : served s e s' → ∀ a, a ∈ snaps s → a ∈ snaps s'.
Proof. destruct 1; intros x Hx; first [exact Hx | right; exact Hx]. Qed.

Lemma served_honest s e s' k c :
  store_ok s → copy_ok s c → permitted k c e → served s e s' → honest c e.
Proof.
  intros Hok Hco Hperm Hs. destruct Hs as [| |a c' a' r Hr Hat (Hc & Hv & Hat' & _) Hspec Hst| | |e Hl]; try done.
  - destruct Hr as [->|[e ->]]; [|done]. split; [tauto|]. intros _. split; [done|]. intros a0 -> Hm.
    assert (at_key a0) as Hat0 by by apply (at_key_meta _ _ Hm).
    rewrite (version_unique s a0 c'); [done..|by apply Hco|]. rewrite <- Hv. unfold version. by rewrite Hm.
  - destruct e as [| | | | | |a [|a']| | | | | | | |]; simpl in *; try done. tauto.
Qed.

Lemma served_ok s e s' k c :
  store_ok s → copy_ok s c → permitted k c e → served s e s' →
  store_ok s' ∧ copy_ok s' (advance c e).
Proof.
  intros Hok Hco Hperm Hs.
  destruct Hs as [nn a Ha|a a' r Hr Hnil Hat Hspec Hst|a c' a' r Hr Hat (Hc & Hv & Hat' & Hnew) Hspec Hst
    |a c' a' r Hr Hat (Hc & Hv & Hat' & Hnew) Hspec Hst|a r|e Hl].
  - by split.
  - assert (phase a' = EmptyString) as Hp by (unfold phase; by rewrite Hst).
    assert (∀ d, decided d a' → d = EmptyString) as Hd.
    { intros d (g & Hg & <-). rewrite Hspec in Hg. by apply (Hperm g). }
    split; [|destruct Hr as [->|[e ->]]; [|done]; intros _; split; [left|done]].
    destruct Hok as (_ & _ & _ & Hb). unfold store_ok, push. simpl. rewrite Hnil in *. rewrite Hb. split_and!.
    + by repeat constructor.
    + apply Forall_singleton. unfold sound. rewrite Hp. split_and!; [done|by left|done..|]. intros d ?%Hd. by left.
    + simpl. apply NoDup_singleton.
    + exact Hd.
  - destruct (Hperm Hat) as (a0 & -> & Hm & Hg).
    assert (a0 = c') as ->.
    { apply (version_unique s); [done..|apply Hco; by apply (at_key_meta _ _ Hm)|]. rewrite <- Hv. unfold version. by rewrite Hm. }
    split; [|destruct Hr as [->|[e ->]]; [|done]; intros _; left].
    apply (rewrite_ok s c'); [done..|by rewrite Hspec|]. left. left. unfold phase. by rewrite Hst.
  - specialize (Hperm Hat).
    assert (phase a' = phase a) as Hp by (unfold phase; by rewrite Hst).
    split; [|destruct Hr as [->|[e ->]]; [|by destruct c]; intros _; left].
    assert (∀ a0, a_Meta a = a_Meta a0 → (at_key a0 → a0 ∈ snaps s) → a0 = c') as Heq.
    { intros a0 Hm Hin. apply (version_unique s); [done..|apply Hin; by apply (at_key_meta _ _ Hm)|].
      rewrite <- Hv. unfold version. by rewrite Hm. }
    destruct c as [|a0|a0]; [done|destruct Hperm as [Hm Hpend]..]; simpl in Hco.
    + assert (a0 = c') as -> by (apply Heq; [done|]; intros; by apply Hco).
      apply (rewrite_ok s c'); [done..|by rewrite Hspec|]. right. split; [|congruence].
      apply Hco. by apply (at_key_meta _ _ Hm).
    + assert (a0 = c') as -> by by apply Heq. apply (rewrite_ok s c'); [done..|by rewrite Hspec|]. left. by rewrite Hp.
  - split; [by destruct Hok as (? & ? & ? & ?)|done].
  - split; [done|]. destruct e as [|nn ?|nn [|a']| | |a [|a']|a [|a']|a [|a']| | | | | | |]; simpl in *; try done; tauto.
Qed.

(** ** The operator, the clients and the server together *)

Section Life.
Context {W : Type} `{Cluster W} `{LocalZone} `{DetailsCodec} `{Hcodec : AuditCodecLaws}.
Variable prometheus : Factory W.
Variable exec : Registry W.
Variable sink : option (Sink W).
Hypothesis exec_ok : registry_ok exec.

(** A reconciliation under way: the record it holds, the calls it has left. *)
Record worker : Type := mkWorker { w_kind : kind; w_copy : copy; w_rest : list IOEvent }.

(** The record, the reconciliations under way, and whether a held action of
    the record has been run. *)
Record life : Type := mkLife { record : store; workers : list worker; released : bool }.

(** An audit reconciliation that holds the record runs an action. *)
Definition runs_held (w : worker) (e : IOEvent) : bool :=
  match w_kind w, w_copy w, e with
  | Audits, Got a, IoExecute _ _ _ => bool_decide (at_key a)
  | _, _, _ => false
  end.

Inductive life_step : life → life → Prop :=
| life_client s s' ws r : client (W := W) s s' → life_step (mkLife s ws r) (mkLife s' ws r)
(** A reconciliation of any policy or record starts; the answers it is going to
    get are those of one of its runs. *)
| life_policy s ws r ctx req st o st' l :
    PolicyController.Reconcile prometheus exec sink ctx req st = (o, st') → log st' = log st ++ l →
    life_step (mkLife s ws r) (mkLife s (ws ++ [mkWorker Policies NoCopy l]) r)
| life_audit s ws r ctx req st o st' l :
    AuditController.Reconcile exec sink ctx req st = (o, st') → log st' = log st ++ l →
    life_step (mkLife s ws r) (mkLife s (ws ++ [mkWorker Audits NoCopy l]) r)
(** One of them makes its next call, and the server answers so. *)
| life_call s s' i w e l ws r :
    ws !! i = Some w → w_rest w = e :: l → served s e s' →
    life_step (mkLife s ws r)
      (mkLife s' (<[i := mkWorker (w_kind w) (advance (w_copy w) e) l]> ws) (r || runs_held w e))
(** Reconciliations end or die. *)
| life_crash s ws ws' r : ws' ⊆+ ws → life_step (mkLife s ws r) (mkLife s ws' r).

Inductive lives : life → Prop :=
| lives_start : lives (mkLife (mkStore [] false []) [] false)
| lives_step x y : lives x → life_step x y → lives y.

Definition worker_ok (s : store) (w : worker) : Prop :=
  copy_ok s (w_copy w) ∧ disciplined (w_kind w) (w_copy w) (w_rest w).

Definition life_ok (x : life) : Prop :=
  store_ok (record x) ∧ Forall (worker_ok (record x)) (workers x) ∧
  (released x = true → ∃ a, a ∈ snaps (record x) ∧ decided DecisionApproved a).

Lemma workers_mono s s' ws :
  (∀ a, a ∈ snaps s → a ∈ snaps s') → Forall (worker_ok s) ws → Forall (worker_ok s') ws.
Proof.
  intros Hsub Hw. eapply Forall_impl; [exact Hw|]. intros w [Hc Hd]. split; [by eapply copy_ok_mono|done].
Qed.

Lemma client_grows s s' : client (W := W) s s' → ∀ a, a ∈ snaps s → a ∈ snaps s'.
Proof. destruct 1; intros x Hx; first [exact Hx | right; exact Hx]. Qed.

Lemma life_step_ok x y : life_step x y → life_ok x → life_ok y.
Proof using exec_ok Hcodec.
  destruct 1 as [s s' ws r Hcl|s ws r ctx req st o st' l Hrun Hlog|s ws r ctx req st o st' l Hrun Hlog
    |s s' i w e l ws r Hi Hrest Hsv|s ws ws' r Hsub]; intros (Hok & Hws & Hrel); unfold life_ok; simpl in *.
  - pose proof (client_grows _ _ Hcl) as Hg. split_and!; [by eapply client_ok|by eapply workers_mono|naive_solver].
  - split_and!; [done| |done]. apply Forall_app. split; [done|]. apply Forall_singleton. split; [done|]. simpl.
    destruct (wp_run _ _ _ _ _ (policy_Reconcile_wp prometheus exec sink exec_ok ctx req st) Hrun) as (l' & Hl & Hr).
    rewrite Hlog in Hl. apply app_inv_head in Hl as <-. by eapply Policy_disciplined.
  - split_and!; [done| |done]. apply Forall_app. split; [done|]. apply Forall_singleton. split; [done|]. simpl.
    destruct (wp_run _ _ _ _ _ (audit_Reconcile_wp exec sink exec_ok ctx req st) Hrun) as (l' & Hl & Hr).
    rewrite Hlog in Hl. apply app_inv_head in Hl as <-. by eapply Audit_disciplined.
  - destruct (Forall_lookup_1 _ _ _ _ Hws Hi) as [Hco Hd]. rewrite Hrest in Hd. destruct Hd as [Hperm Hd].
    destruct (served_ok _ _ _ _ _ Hok Hco Hperm Hsv) as [Hok' Hco'].
    pose proof (served_grows _ _ _ Hsv) as Hg. pose proof (served_honest _ _ _ _ _ Hok Hco Hperm Hsv) as Hh.
    split_and!; [done| |].
    + apply Forall_insert; [by eapply workers_mono|]. split; [done|]. by apply Hd.
    + intros [Hr|Hr]%orb_true_iff; [naive_solver|]. unfold runs_held in Hr.
      destruct (w_kind w), (w_copy w) as [| |a], e; simpl in *; try done. apply bool_decide_eq_true in Hr.
      destruct (Hperm eq_refl) as (a0 & [= <-] & _ & Hdec). exists a. auto.
  - split_and!; [done| |done]. destruct (submseteq_Permutation _ _ Hsub) as [k Hk]. rewrite Hk in Hws.
    by apply Forall_app in Hws as [? _].
Qed.

Lemma lives_ok x : lives x → life_ok x.
Proof using exec_ok Hcodec.
  induction 1 as [|x y _ IH Hs]; [|by eapply life_step_ok].
  split_and!; [|by constructor|done]. repeat split; constructor.
Qed.


(** *** Whole runs, one after the other *)

(** The server as a function, for answers it gave: the store afterwards, if it
    may have given them. *)
Definition serve (s : store) (e : IOEvent) : option store :=
  match e with
  | IoGetAudit _ (inr a) => if decide (at_key a → a ∈ snaps s) then Some s else None
  | IoCreateAudit a (inr a') =>
      if decide (¬ at_key a') then Some s
      else if decide (snaps s = [] ∧ a_Spec a' = a_Spec a ∧ a_Status a' = empty_audit_status) then Some (push a' s)
      else None
  | IoUpdateAudit a (inr a') =>
      match current s with
      | Some c =>
          if decide (at_key a ∧ (version a = version c ∧ at_key a' ∧ version a' ∉ version <$> snaps s) ∧
                     a_Spec a' = a_Spec a ∧ a_Status a' = a_Status c) then Some (push a' s) else None
      | None => None
      end
  | IoStatusUpdateAudit a (inr a') =>
      match current s with
      | Some c =>
          if decide (at_key a ∧ (version a = version c ∧ at_key a' ∧ version a' ∉ version <$> snaps s) ∧
                     a_Spec a' = a_Spec c ∧ a_Status a' = a_Status a) then Some (push a' s) else None
      | None => None
      end
  | IoDeleteAudit _ _ => Some (mkStore (snaps s) false (ballots s))
  | _ => Some s
  end.

Lemma serve_sound s e s' : serve s e = Some s' → served s e s'.
Proof.
  intros Hs. destruct e as [| |nn [|a]| | |a [|a']|a [|a']|a [|a']| | | | | | |]; simpl in Hs; simplify_eq;
    try (by apply sv_other); try (by constructor); repeat case_match; simplify_eq; destruct_and?;
    first [by apply sv_other | by apply sv_read | idtac].
  - apply sv_created; [by left|done| |done..]. by apply dec_stable.
  - eapply sv_updated; [by left|done|by split_and!|done..].
  - eapply sv_status_updated; [by left|done|by split_and!|done..].
Qed.

(** A worker's remaining calls, served one by one. *)
Fixpoint serve_all (s : store) (w : worker) (l : list IOEvent) (r : bool) : option (store * bool) :=
  match l with
  | [] => Some (s, r)
  | e :: l => s' ← serve s e; serve_all s' (mkWorker (w_kind w) (advance (w_copy w) e) l) l (r || runs_held w e)
  end.

Lemma lives_calls l : ∀ s k c r s' r',
  lives (mkLife s [mkWorker k c l] r) → serve_all s (mkWorker k c l) l r = Some (s', r') → lives (mkLife s' [] r').
Proof.
  induction l as [|e l IH]; intros s k c r s' r' Hx Hs; simpl in Hs.
  - simplify_eq. eapply lives_step; [exact Hx|]. apply life_crash, submseteq_nil_l.
  - apply bind_Some in Hs as (s1 & Hs1 & Hs). eapply (IH s1 k (advance c e)); [|exact Hs].
    eapply lives_step; [exact Hx|]. apply (life_call s s1 0 (mkWorker k c (e :: l)) e l [mkWorker k c (e :: l)] r); [done..|by apply serve_sound].
Qed.

Lemma lives_policy s r ctx req st s' r' :
  lives (mkLife s [] r) → log st = [] →
  let l := log (PolicyController.Reconcile prometheus exec sink ctx req st).2 in
  serve_all s (mkWorker Policies NoCopy l) l r = Some (s', r') → lives (mkLife s' [] r').
Proof.
  intros Hx Hlog l Hs. eapply lives_calls; [|exact Hs]. eapply lives_step; [exact Hx|].
  eapply (life_policy s [] r ctx req st _ _ l (surjective_pairing _)). by rewrite Hlog.
Qed.

Lemma lives_audit s r ctx req st s' r' :
  lives (mkLife s [] r) → log st = [] →
  let l := log (AuditController.Reconcile exec sink ctx req st).2 in
  serve_all s (mkWorker Audits NoCopy l) l r = Some (s', r') → lives (mkLife s' [] r').
Proof.
  intros Hx Hlog l Hs. eapply lives_calls; [|exact Hs]. eapply lives_step; [exact Hx|].
  eapply (life_audit s [] r ctx req st _ _ l (surjective_pairing _)). by rewrite Hlog.
Qed.

End Life.

End Discipline.

(** ** Witness: opened, approved by bob, released *)

Definition gate_key : NamespacedName := mkNN "prod" "high-cpu-8".

(** The policy reconciler opens the gate. *)
Definition opened : store * bool :=
  let l := log (run_policy w_due).2 in
  default (mkStore [] false [], false)
    (serve_all gate_key (mkStore [] false []) (mkWorker Policies NoCopy l) l false).

(** Bob approves it through the webhook. *)
Definition open_record : ActionAudit := default zero_audit (current opened.1).
Definition approval (who : string) (at_ : option Time) : ActionAudit :=
  set_Gate open_record (option_map (λ g, set_Decided (set_Decision g DecisionApproved "looks right") who at_)
                          (Gate (a_Spec open_record))).
Definition gate_codec : AuditCodec :=
  table_codec [("old", open_record); ("sent", approval EmptyString None); ("patched", approval "bob" (Some (t0 + Millisecond)))].
Lemma gate_codec_laws : @AuditCodecLaws gate_codec.
Proof. apply table_codec_laws. repeat constructor; set_solver. Qed.

Definition with_version (v : string) (a : ActionAudit) : ActionAudit :=
  mkAudit (set_version v (a_Meta a)) (a_Spec a) (a_Status a).
Definition approved_record : ActionAudit := with_version "100" (approval "bob" (Some (t0 + Millisecond))).
Definition approved : store :=
  mkStore (approved_record :: snaps opened.1) true [("bob", DecisionApproved)].

(** The audit reconciler releases it. *)
Definition w_approved : World := with_audits [approved_record] (with_policies (w_policies w_due) (mkWorld
  (t0 + Minute) Millisecond 200 [] [] (w_objects w_due) (w_metric w_due) [])).
Definition gate_released : store * bool :=
  let l := log (AuditController.Reconcile fake_registry None Background gate_key (start w_approved)).2 in
  default (mkStore [] false [], false) (serve_all gate_key approved (mkWorker Audits NoCopy l) l false).

(** Lives in the concrete world. *)
#[local] Existing Instance gate_codec.
Definition gate_lives_to (x : life) : Prop :=
  lives gate_key (W := World) fake_prometheus fake_registry None x.

Lemma opened_lives : gate_lives_to (mkLife opened.1 [] false).
Proof.
  apply (lives_policy gate_key fake_prometheus fake_registry None (mkStore [] false []) false Background a_req (start w_due)
    opened.1 false); [apply lives_start|reflexivity|by_compute].
Qed.

Definition gate_request : Request := mkRequest OpUpdate "sent" "old" "bob".

Lemma approved_by_bob : client gate_key (W := World) opened.1 approved.
Proof.
  change approved with (mkStore (approved_record :: snaps opened.1) true
    (ballot gate_request open_record (approval "bob" (Some (t0 + Millisecond))) ++ ballots opened.1)).
  apply (client_update gate_key opened.1 gate_request (start w_due) (Handle gate_request (start w_due)).2
    (ResPatched "sent" "patched") (approval "bob" (Some (t0 + Millisecond))) open_record approved_record);
    first [by_compute | simpl; lia | idtac].
split_and!; [by_compute|reflexivity|split; reflexivity|]. apply (bool_decide_eq_true_1 (version approved_record ∉ version <$> snaps opened.1)). by_compute.
Qed.

Definition released_life : life := mkLife gate_released.1 [] true.

Lemma released_lives : gate_lives_to released_life.
Proof.
  apply (lives_audit gate_key fake_prometheus fake_registry None approved false Background gate_key (start w_approved)
    gate_released.1 true); [|reflexivity|by_compute].
  eapply lives_step; [apply opened_lives|]. apply life_client, approved_by_bob.
Qed.

