(* ===== verification/RevertLife.v ===== *)
(** * The life of a revert

    A revert is asked for by a client, processed by the audit reconciler and
    marked on the record, while other reconciliations with stale copies, other
    clients and crashes interleave: the transition system of [GateLife], seen
    for what it does to the mark and for which actions are ever reversed. *)

From S2P Require Import Prelude GoLib FloatLib GoTime Api ActionTypes Metrics Effects Logic Evaluator Limiter Registry Executor AuditWriter PolicyController AuditController AuditWebhook Fake WebhookTheorems PolicySpec AuditSpec GateLife.
From Stdlib Require Import Sorting.Sorted.

(** ** What a reconciliation may do about a revert *)

(** Somebody asked, and nothing is held or already done. *)
Definition asked (a : ActionAudit) : Prop :=
  RevertRequested (a_Spec a) = true ∧ Reverted (a_Status a) = false ∧ phase a ≠ PhasePending.

(** A processed revert of [b] leaves the mark and one outcome per action, last
    first. *)
Definition processed (b a : ActionAudit) : Prop :=
  asked b ∧ Reverted (a_Status a) = true ∧
  rr_Index <$> RevertResults (a_Status a) = rec_Index <$> reverse (AuditActions (a_Spec b)).

Definition same_mark (old new : ActionAudit) : Prop :=
  Reverted (a_Status new) = Reverted (a_Status old) ∧ RevertResults (a_Status new) = RevertResults (a_Status old).

(** What an audit reconciliation holding [a] may reverse: on a release, what
    its pipeline rolls back; on a revert, what the record says can be undone. *)
Definition may_reverse `{DetailsCodec} (a : ActionAudit) (plugin : string) (res : Result) : Prop :=
  phase a = PhasePending ∧ decided DecisionApproved a ∨
  asked a ∧ ∃ rec, rec ∈ AuditActions (a_Spec a) ∧ rec_Status rec = StatusSucceeded ∧ rec_Reversible rec = true ∧
    plugin = rec_Plugin rec ∧ res = recordToResult rec.

Section Discipline.
Context `{DetailsCodec}.
Variable key : NamespacedName.

Definition undoes (k : kind) (c : copy) (e : IOEvent) : Prop :=
  match e with
  | IoStatusUpdateAudit a _ =>
      at_key key a →
      match c with
      | NoCopy => False
      | Made a0 | Got a0 => a_Meta a = a_Meta a0 ∧ (same_mark a0 a ∨ processed a0 a)
      end
  | IoReverse plugin res _ => k = Audits → ∃ a0, c = Got a0 ∧ may_reverse a0 plugin res
  | _ => True
  end.

#[local] Notation "'obeyed'" := (obeys key undoes).

(** Events that neither change what is held nor undo anything. *)
Definition neutral (e : IOEvent) : Prop :=
  match e with
  | IoGetAudit _ _ | IoCreateAudit _ _ | IoUpdateAudit _ _ | IoStatusUpdateAudit _ _ | IoReverse _ _ _ => False
  | _ => True
  end.

Lemma neutral_obeyed k c l l' : Forall neutral l → obeyed k c l' → obeyed k c (l ++ l').
Proof. intros Hl. apply obeys_skip. eapply Forall_impl; [exact Hl|]. by intros []. Qed.
Lemma neutral_only k c l : Forall neutral l → obeyed k c l.
Proof. intros Hl. rewrite <- (app_nil_r l). by apply neutral_obeyed. Qed.

Lemma neutral_of (P : IOEvent → Prop) l : (∀ e, P e → neutral e) → Forall P l → Forall neutral l.
Proof. intros HP Hl. by eapply Forall_impl. Qed.
Lemma cooling_neutral nn now l : cooling_started nn now l → Forall neutral l.
Proof. destruct 1; by repeat constructor. Qed.

Ltac neutrals := repeat first [apply Forall_app; split | by repeat constructor | by eapply cooling_neutral
                              | eapply neutral_of; [|eassumption]; by intros []].

(** ** The audit reconciler *)

Section AuditDiscipline.
Context {W : Type} `{Cluster W} `{LocalZone}.
Variable exec : Registry W.

Lemma runs_obeyed k c l l' :
  Forall is_run l → (k = Audits → ∃ a0, c = Got a0 ∧ phase a0 = PhasePending ∧ decided DecisionApproved a0) →
  obeyed k c l' → obeyed k c (l ++ l').
Proof.
  intros Hl Hc. apply obeys_skip. eapply Forall_impl; [exact Hl|]. intros [] He; try done. split; [done|].
  intros Hk. destruct (Hc Hk) as (a0 & -> & Hp & Hd). exists a0. split; [done|]. by left.
Qed.

(** The status write that resolves a gate leaves the mark as it is. *)
Lemma resolved_obeyed audit a' p resumed now r l :
  resolved_as audit a' p resumed → Forall neutral l →
  obeyed Audits (Got audit) (IoNow now :: IoStatusUpdateAudit a' r :: l).
Proof.
  intros (Hm & _ & _ & _ & Hrev & Hres) Hl. simpl. split; [done|]. intros _. split; [|by intros _; apply neutral_only].
  intros _. split; [done|]. by left.
Qed.

Lemma Closed_obeyed audit p message expiry l o : Closed audit p message expiry l o → obeyed Audits (Got audit) l.
Proof.
  assert (∀ pre audit2 now a' r l, noted audit message pre audit2 → resolved_as audit2 a' p (ResumedAt (a_Status audit2)) →
    Forall neutral l → obeyed Audits (Got audit) (pre ++ IoNow now :: IoStatusUpdateAudit a' r :: l)) as Htail.
  { intros pre audit2 now a' r l' Hn Hr Hl. destruct Hn; cbn [app]; [by eapply resolved_obeyed|].
    split; [done|]. intros _. by eapply resolved_obeyed. }
  destruct 1 as [e|pre audit2 now a' e Hn Hr|pre audit2 now a' a'' cool t Hn Hr Hcool]; [by repeat split|by eapply Htail|].
  eapply Htail; [done..|]. neutrals.
Qed.

Lemma Release_recorded_obeyed audit policy results expiry l o :
  Release_recorded exec audit policy results expiry l o → obeyed Audits (Got audit) l.
Proof.
  destruct 1 as [e|audit2 now a' e Hr|audit2 now a' a'' sinks r t Hr Hs]; [by repeat split|..];
    (split; [done|]); intros _; (eapply resolved_obeyed; [exact Hr|]); [done|neutrals].
Qed.

Lemma Resolved_obeyed audit expiry l o :
  Resolved exec audit expiry l o → phase audit = PhasePending → obeyed Audits (Got audit) l.
Proof.
  intros Hr Hp. destruct Hr; try (by eapply Closed_obeyed); try (by repeat split);
    (split; [done|]); intros _; try (by eapply Closed_obeyed).
  assert (decided DecisionApproved audit) as Hd by by eexists.
  match goal with Hrel : Released _ _ _ _ _ _ _ |- _ => destruct Hrel end; [done|].
  apply runs_obeyed; [done|by intros _; eexists|]. by eapply Release_recorded_obeyed.
Qed.

Lemma reversals_obeyed audit recs l rrs :
  reversals exec recs l rrs → asked audit → (∀ rec, rec ∈ recs → rec ∈ AuditActions (a_Spec audit)) →
  Forall (λ e, advance (Got audit) e = Got audit ∧ undoes Audits (Got audit) e) l ∧
  rr_Index <$> rrs = rec_Index <$> recs.
Proof.
  intros Hr Ha. induction Hr as [|rec recs l rr ls rrs Hr _ IH]; intros Hin; [by split|].
  destruct IH as [Hls Hix]; [by intros; apply Hin; right|]. split; [apply Forall_app; split; [|done]|].
  - destruct Hr; [constructor..|]. apply Forall_singleton. split; [done|]. intros _. exists audit. split; [done|]. right.
    split; [done|]. exists rec. split_and!; [apply Hin; left|..]; done.
  - rewrite !fmap_cons, Hix. f_equal. destruct Hr as [| | |[e|] ? ? ?]; done.
Qed.

Lemma Audit_obeyed req l o : AuditReconciled exec req l o → obeyed Audits NoCopy l.
Proof.
  destruct 1 as [e He|e He|audit got t r Ht|audit got t l o Ht Hp Hr|audit got t l o Ht Hp Hrr Hrd Hr|audit got t t' Ht Hp Hi];
    simpl; try tauto.
  - split; [done|]. intros _. split; [done|]. intros _. split; [done|]. intros _. by eapply Resolved_obeyed.
  - split; [done|]. intros _. split; [done|]. intros _. split; [done|]. intros _.
    assert (asked audit) as Hasked by done.
    assert (∀ l results now a' r l', reversals exec (reverse (AuditActions (a_Spec audit))) l results →
      reverted_as audit a' now results → Forall neutral l' →
      obeyed Audits (Got audit) (l ++ IoNow now :: IoStatusUpdateAudit a' r :: l')) as Hgo.
    { intros l1 results now a' r l' Hrev (Hm & _ & Hmk & _ & Hres & _) Hl'.
      destruct (reversals_obeyed _ _ _ _ Hrev Hasked) as [Hl1 Hix]; [intros rec Hin; by rewrite elem_of_reverse in Hin|].
      apply obeys_skip; [done|]. simpl. split; [done|]. intros _. split; [|by intros _; apply neutral_only].
      intros _. split; [done|]. right. split_and!; [done..|]. by rewrite Hres. }
    destruct Hr as [l results now a' e Hrev Has|l results now a' a'' sinks t' Hrev Has Hs];
      (eapply Hgo; [exact Hrev|exact Has|]); [done|]. neutrals.
Qed.

End AuditDiscipline.

(** ** The policy reconciler *)

Section PolicyDiscipline.
Context {W : Type} `{Cluster W} `{LocalZone}.
Variable prometheus : Factory W.
Variable exec : Registry W.

Lemma reads_obeyed l l' : Forall is_read l → ∀ c, (∀ c, obeyed Policies c l') → obeyed Policies c (l ++ l').
Proof.
  intros Hl c Hl'. revert c. induction Hl as [|e l He _ IH]; intros c; [done|]. simpl. destruct e; simpl in *; try done; by split.
Qed.

Lemma Recorded_obeyed policy pkey m now targets results l o m' c :
  Recorded exec policy pkey m now targets results l o m' → obeyed Policies c l.
Proof.
  assert (∀ audit a r' l c, Forall neutral l →
    obeyed Policies c (IoCreateAudit audit (inr a) :: IoStatusUpdateAudit (set_ApprovalPhase a PhasePending) r' :: l)) as Hgate.
  { intros audit a r' l' c' Hl. split; [done|]. intros _. split; [|by intros _; apply neutral_only].
    intros _. split; [done|]. by left. }
  destruct 1 as [r sinks p' r' m' _ Hs|writes p' r' m' _ Hw|a a' sinks p' r' m' _ Hs].
  - split; [done|]. intros _. apply neutral_only. neutrals.
  - destruct Hw as [(e & ->)|(a & e & ->)]; cbn [app]; [split; [done|]; intros _; apply neutral_only; neutrals|].
    apply Hgate. neutrals.
  - apply Hgate. neutrals.
Qed.

Lemma Policy_obeyed req m l o m' : Reconciled prometheus exec req m l o m' → obeyed Policies NoCopy l.
Proof.
  destruct 1 as [| |policy now ev v tail o m' Hg Hcon]; [by repeat split..|].
  split; [done|]. intros _. split; [done|]. intros _.
  apply reads_obeyed; [by eapply Gated_reads|]. intros c.
  destruct Hcon as [v tail o m' Hv (p' & r & -> & _)|p1 m1 tail o m' _ _ _ _ Htrig]; [by apply neutral_only; repeat constructor|].
  destruct Htrig as [lists p' r m'' Hl|lists resolved runs results tail o m'' Hlist _ Hruns _ Hrec].
  - apply neutral_only. neutrals.
  - apply neutral_obeyed; [eapply neutral_of; [|by eapply listing_lists]; by intros []|].
    apply runs_obeyed; [done|by intros [=]|]. by eapply Recorded_obeyed.
Qed.

End PolicyDiscipline.

(** ** What holds of every stored version *)

(** The mark is never taken back, nor its outcomes changed. *)
Definition mark_kept (old new : ActionAudit) : Prop := Reverted (a_Status old) = true → same_mark old new.

#[local] Instance mark_kept_preorder : PreOrder mark_kept.
Proof.
  unfold mark_kept, same_mark. split; [done|]. intros a b c Hab Hbc Ha. destruct (Hab Ha) as [Hr Hs].
  destruct Hbc as [Hr' Hs']; [congruence|]. split; congruence.
Qed.

Definition marks_ok (s : store) : Prop :=
  StronglySorted (λ new old, mark_kept old new) (snaps s) ∧
  Forall (λ a, Reverted (a_Status a) = true → ∃ b, b ∈ snaps s ∧ processed b a) (snaps s).

Lemma push_marks s c a' b :
  marks_ok s → current s = Some c → same_mark c a' ∨ processed c a' → marks_ok (mkStore (a' :: snaps s) true b).
Proof.
  intros [Hs Hf] Hc Hmark. destruct (current_in _ _ Hc) as [l Hl]. unfold marks_ok. simpl. rewrite Hl in *. split.
  - constructor; [done|]. assert (mark_kept c a') as Hk.
    { intros Hr. destruct Hmark as [?|[[_ [Hn _]] _]]; [done|congruence]. }
    constructor; [done|]. apply StronglySorted_inv in Hs as [_ Hs]. eapply Forall_impl; [exact Hs|]. intros x Hx. simpl in *. by etrans.
  - assert (∀ x, (∃ b, b ∈ c :: l ∧ processed b x) → ∃ b, b ∈ a' :: c :: l ∧ processed b x) as Hmore.
    { intros x (y & Hy & Hp). exists y. split; [by right|done]. }
    constructor.
    + intros Hr. apply Hmore. destruct Hmark as [[Hm Hres]|Hp]; [|exists c; split; [left|done]].
      apply Forall_cons in Hf as [Hc' _]. destruct Hc' as (y & Hy & Ha & _ & Hix); [congruence|].
      exists y. split; [done|]. split_and!; [done..|]. by rewrite Hres.
    + eapply Forall_impl; [exact Hf|]. intros x Hx Hr. by apply Hmore, Hx.
Qed.

Lemma served_marks s e s' k c :
  store_ok key s → marks_ok s → copy_ok key s c → undoes k c e → served key s e s' → marks_ok s'.
Proof.
  intros Hok Hm Hco Hu Hs. destruct Hs as [nn a Ha|a a' r Hr Hnil Hat Hspec Hst|a c' a' r Hr Hat (Hc & Hv & Hat' & Hnew) Hspec Hst
    |a c' a' r Hr Hat (Hc & Hv & Hat' & Hnew) Hspec Hst|a r|e Hl]; try done.
  - unfold marks_ok, push. simpl. rewrite Hnil. split; [by repeat constructor|]. apply Forall_singleton. by rewrite Hst.
  - apply (push_marks _ c'); [done..|]. left. by unfold same_mark; rewrite Hst.
  - specialize (Hu Hat). apply (push_marks _ c'); [done..|].
    assert (∀ a0, a_Meta a = a_Meta a0 → (at_key key a0 → a0 ∈ snaps s) → a0 = c') as Heq.
    { intros a0 Hmeta Hin. apply (version_unique key s); [done..|apply Hin; by apply (at_key_meta _ _ _ Hmeta)|].
      rewrite <- Hv. unfold version. by rewrite Hmeta. }
    assert (∃ a0, (at_key key a0 → a0 ∈ snaps s) ∧ a_Meta a = a_Meta a0 ∧ (same_mark a0 a ∨ processed a0 a)) as (a0 & Hin & Hmeta & Hmk).
    { destruct c as [|a0|a0]; [done|..]; exists a0; (split; [|done]); intros Ha0; [by apply Hco|by apply Hco]. }
    rewrite (Heq a0 Hmeta Hin) in Hmk. unfold same_mark, processed in *. by rewrite Hst.
Qed.

(** ** Lives *)

Section Life.
Context {W : Type} `{Cluster W} `{LocalZone} `{Hcodec : AuditCodecLaws}.
Variable prometheus : Factory W.
Variable exec : Registry W.
Variable sink : option (Sink W).
Hypothesis exec_ok : registry_ok exec.

Definition undoing_ok (x : life) : Prop :=
  marks_ok (record x) ∧ Forall (λ w, obeyed (w_kind w) (w_copy w) (w_rest w)) (workers x).

Lemma client_marks s s' : client (W := W) key s s' → marks_ok s → marks_ok s'.
Proof.
  destruct 1 as [req st st' res a c a' _ _ _ _ _ (Hc & _) _ Hst|]; [|done]. intros Hm.
  apply (push_marks _ c); [done..|]. left. by unfold same_mark; rewrite Hst.
Qed.

Lemma lives_undoing x : lives key prometheus exec sink x → undoing_ok x.
Proof using exec_ok Hcodec.
  induction 1 as [|x y Hx [Hm Hw] Hstep]; [by repeat constructor|].
  destruct (lives_ok _ _ _ _ exec_ok _ Hx) as (Hok & Hws & _).
  destruct Hstep as [s s' ws r Hcl|s ws r ctx req st o st' l Hrun Hlog|s ws r ctx req st o st' l Hrun Hlog
    |s s' i w e l ws r Hi Hrest Hsv|s ws ws' r Hsub]; unfold undoing_ok; simpl in *.
  - split; [by eapply client_marks|done].
  - split; [done|]. apply Forall_app. split; [done|]. apply Forall_singleton. simpl.
    destruct (wp_run _ _ _ _ _ (policy_Reconcile_wp prometheus exec sink exec_ok ctx req st) Hrun) as (l' & Hl & Hr).
    rewrite Hlog in Hl. apply app_inv_head in Hl as <-. by eapply Policy_obeyed.
  - split; [done|]. apply Forall_app. split; [done|]. apply Forall_singleton. simpl.
    destruct (wp_run _ _ _ _ _ (audit_Reconcile_wp exec sink exec_ok ctx req st) Hrun) as (l' & Hl & Hr).
    rewrite Hlog in Hl. apply app_inv_head in Hl as <-. by eapply Audit_obeyed.
  - destruct (Forall_lookup_1 _ _ _ _ Hws Hi) as [Hco Hd]. pose proof (Forall_lookup_1 _ _ _ _ Hw Hi) as Hu.
    simpl in Hu. rewrite Hrest in Hd, Hu. destruct Hd as [Hperm _], Hu as [Hu Hl].
    split; [by eapply served_marks|]. apply Forall_insert; [done|]. simpl. apply Hl. by eapply served_honest.
  - split; [done|]. destruct (submseteq_Permutation _ _ Hsub) as [k Hk]. rewrite Hk in Hw. by apply Forall_app in Hw as [? _].
Qed.


End Life.

End Discipline.

(** ** Witness: triggered, asked to revert by alice, reverted *)

Definition plain_policy : ReactivePolicy := a_policy [act "annotate" EmptyString false] Minute fresh_status.
Definition w_plain : World := a_world [plain_policy] [].

(** The policy reconciler acts and records. *)
Definition revert_key : NamespacedName := mkNN "prod" "high-cpu-8".
Definition triggered : St World := (run_policy w_plain).2.
Definition recorded : store * bool :=
  default (mkStore [] false [], false)
    (serve_all revert_key (mkStore [] false []) (mkWorker Policies NoCopy (log triggered)) (log triggered) false).

(** Alice asks, through the webhook. *)
Definition plain_record : ActionAudit := default zero_audit (current recorded.1).
Definition ask_codec : AuditCodec := table_codec [("old", plain_record); ("asked", set_RevertRequested plain_record true)].
Lemma ask_codec_laws : @AuditCodecLaws ask_codec.
Proof. apply table_codec_laws. repeat constructor; set_solver. Qed.
Definition asked_record : ActionAudit := with_version "100" (set_RevertRequested plain_record true).
Definition asked_store : store := mkStore (asked_record :: snaps recorded.1) true [].

(** The audit reconciler reverts. *)
Definition w_asked : World := with_audits [asked_record] (mkWorld
  (t0 + Minute) Millisecond 200 [plain_policy] [] (w_objects (world triggered)) (w_metric w_plain) []).
Definition undone : store * bool :=
  let l := log (AuditController.Reconcile fake_registry None Background revert_key (start w_asked)).2 in
  default (mkStore [] false [], false) (serve_all revert_key asked_store (mkWorker Audits NoCopy l) l false).

#[local] Existing Instance ask_codec.
Definition revert_lives_to (x : life) : Prop := lives revert_key (W := World) fake_prometheus fake_registry None x.

Lemma recorded_lives : revert_lives_to (mkLife recorded.1 [] false).
Proof.
  apply (lives_policy revert_key fake_prometheus fake_registry None (mkStore [] false []) false Background a_req (start w_plain)
    recorded.1 false); [apply lives_start|reflexivity|by_compute].
Qed.

Definition ask_request : Request := mkRequest OpUpdate "asked" "old" "alice".

Lemma asked_by_alice : client revert_key (W := World) recorded.1 asked_store.
Proof.
  apply (client_update revert_key recorded.1 ask_request (start w_plain) (Handle ask_request (start w_plain)).2
    ResAllowed (set_RevertRequested plain_record true) plain_record asked_record);
    first [by_compute | simpl; lia | idtac].
  split_and!; [by_compute|reflexivity|split; reflexivity|].
  apply (bool_decide_eq_true_1 (version asked_record ∉ version <$> snaps recorded.1)). by_compute.
Qed.

Definition reverted_life : life := mkLife undone.1 [] false.

Lemma reverted_lives : revert_lives_to reverted_life.
Proof.
  apply (lives_audit revert_key fake_prometheus fake_registry None asked_store false Background revert_key (start w_asked)
    undone.1 false); [|reflexivity|by_compute].
  eapply lives_step; [apply recorded_lives|]. apply life_client, asked_by_alice.
Qed.

