(* ===== verification/Telemetry.v ===== *)
(** * The operator's metrics tell what happened

    A tally is a fact of the log the metrics should count: plugin executions,
    failed queries, triggers, gates opened and resolved.  [Owes c d m]: however
    a run of [m] goes, what it counts under [c] is [d] plus what happened in it,
    [d] being what happened before and is yet to be counted; and it leaves the
    set of tracked policies alone.  Proved by the structure of the handlers. *)

From S2P Require Import Prelude GoLib FloatLib GoTime Api ActionTypes Metrics Effects Logic Evaluator Limiter Registry Executor AuditWriter PolicyController AuditController Fake.

(** ** Tallies *)

Definition total {A} (f : A → Z) (l : list A) : Z := foldr (λ x n, f x + n) 0 l.

Lemma total_app {A} (f : A → Z) l k : total f (l ++ k) = total f l + total f k.
Proof. induction l as [|x l IH]; simpl; [done|]. rewrite IH. lia. Qed.

Inductive tally : Type :=
| Durations (plugin : string)
| QueryErrors
| Triggers (namespace : string)
| GatesOpened
| GatesResolved (pending : bool)     (* in a run that found the record pending, or in another *)
| GaugeDrift.

(** How often an event is an instance. *)
Definition happened (c : tally) (e : IOEvent) : Z :=
  match c, e with
  | Durations plugin, IoExecute p _ _ => if decide (p = plugin) then 1 else 0
  | QueryErrors, IoQuery _ (inl _) => 1
  | Triggers ns, IoCreateAudit a _ => if decide (Namespace (a_Meta a) = ns) then 1 else 0
  | GatesOpened, IoStatusUpdateAudit a (inr _) => if decide (ApprovalPhase (a_Status a) = PhasePending) then 1 else 0
  | GatesResolved true, IoStatusUpdateAudit a (inr _) => if decide (ApprovalPhase (a_Status a) = PhasePending) then 0 else 1
  | _, _ => 0
  end.

(** How often an operation on a collector counts it; [GaugeDrift] is what the
    pending gauge has beyond the gates opened less the decisions. *)
Definition counted (c : tally) (o : MetricOp) : Z :=
  match c, o with
  | Durations plugin, MObserve ActionDurationSeconds labels _ => if decide (labels = [plugin]) then 1 else 0
  | QueryErrors, MInc PrometheusQueryErrorsTotal _ => 1
  | Triggers ns, MInc TriggeredPoliciesTotal labels => if decide (labels = [ns]) then 1 else 0
  | GatesOpened, MInc ApprovalGatesOpenedTotal _ => 1
  | GatesResolved _, MInc ApprovalDecisionsTotal _ => 1
  | GaugeDrift, MInc ApprovalGatesPending _ => 1
  | GaugeDrift, MDec ApprovalGatesPending _ => -1
  | GaugeDrift, MInc ApprovalGatesOpenedTotal _ => -1
  | GaugeDrift, MInc ApprovalDecisionsTotal _ => 1
  | _, _ => 0
  end.

Definition not_set (o : MetricOp) : Prop := match o with MSet _ _ _ => False | _ => True end.

Section Owes.
Context {W : Type}.

Definition Owes (c : tally) (d : Z) {A} (m : M W A) : Prop := ∀ st, wp m st (λ _ l st',
  tracked (metrics (mem st')) = tracked (metrics (mem st)) ∧
  ∃ k, metric_ops (metrics (mem st')) = metric_ops (metrics (mem st)) ++ k ∧ Forall not_set k ∧
       d + total (happened c) l = total (counted c) k).

Lemma Owes_nil {A} c d (m : M W A) :
  d = 0 → (∀ st, wp m st (λ _ l st', l = [] ∧ metrics (mem st') = metrics (mem st))) → Owes c d m.
Proof.
  intros -> Hm st. eapply wp_mono; [apply Hm|]. intros o l st' [-> ->]. split; [done|].
  exists []. rewrite app_nil_r. split_and!; [done|constructor|done].
Qed.

Lemma Owes_ret {A} c d (a : A) : d = 0 → Owes c d (mret a : M W A).
Proof. intros Hd. apply Owes_nil; [done|]. intros st. by apply wp_ret. Qed.

Lemma Owes_panic {A} c d msg : d = 0 → Owes c d (panic msg : M W A).
Proof. intros Hd. apply Owes_nil; [done|]. intros st. by apply wp_panic. Qed.

Lemma Owes_bind {A B} c d (m : M W A) (f : A → M W B) :
  Owes c 0 m → d = 0 → (∀ a, Owes c 0 (f a)) → Owes c d (m ≫= f).
Proof.
  intros Hm -> Hf st. apply wp_bind. eapply wp_mono; [apply Hm|].
  intros [a|msg] l st' (Ht & k & Hk & Hs & Hd); [|by split; [|exists k]].
  eapply wp_mono; [apply Hf|]. intros o l' st'' (Ht' & k' & Hk' & Hs' & Hd').
  split; [congruence|]. exists (k ++ k'). rewrite Hk', Hk, <- app_assoc, !total_app.
  split_and!; [done|by apply Forall_app|lia].
Qed.

(** What a step that returns did before the rest runs. *)
Lemma Owes_step {A B} c d ev (m : M W A) (f : A → M W B) ops :
  (∀ st, wp m st (λ o l st', ∃ a, o = Val a ∧ l = ev a ∧ tracked (metrics (mem st')) = tracked (metrics (mem st)) ∧
     metric_ops (metrics (mem st')) = metric_ops (metrics (mem st)) ++ ops)) → Forall not_set ops →
  (∀ a, Owes c (d + total (happened c) (ev a) - total (counted c) ops) (f a)) → Owes c d (m ≫= f).
Proof.
  intros Hm Hops Hf st. apply wp_bind. eapply wp_mono; [apply Hm|]. intros o l st' (a & -> & -> & Ht & Hk).
  eapply wp_mono; [apply (Hf a)|]. intros o' l' st'' (Ht' & k' & Hk' & Hs' & Hd').
  split; [congruence|]. exists (ops ++ k'). rewrite Hk', Hk, <- app_assoc, !total_app.
  split_and!; [done|by apply Forall_app|lia].
Qed.

(** A step that neither calls nor counts. *)
Lemma Owes_silent {A B} c d (m : M W A) (f : A → M W B) :
  (∀ st, wp m st (λ o l st', ∃ a, o = Val a ∧ l = [] ∧ metrics (mem st') = metrics (mem st))) →
  (∀ a, Owes c d (f a)) → Owes c d (m ≫= f).
Proof.
  intros Hm Hf. apply (Owes_step c d (λ _, []) m f []); [|constructor|].
  - intros st. eapply wp_mono; [apply Hm|]. intros o l st' (a & -> & -> & ->). exists a. by rewrite app_nil_r.
  - intros a. simpl. replace (d + 0 - 0) with d by lia. apply Hf.
Qed.

Lemma Owes_call {A B} c d (op : W → A * W) ev (f : A → M W B) :
  (∀ a, Owes c (d + happened c (ev a)) (f a)) → Owes c d (call op ev ≫= f).
Proof.
  intros Hf. apply (Owes_step c d (λ a, [ev a]) _ f []); [|constructor|].
  - intros st. apply wp_call. intros a w _. exists a. by rewrite app_nil_r.
  - intros a. simpl. replace (d + (happened c (ev a) + 0) - 0) with (d + happened c (ev a)) by lia. apply Hf.
Qed.

Lemma Owes_emit {B} c d ops (f : () → M W B) :
  Forall not_set ops → Owes c (d - total (counted c) ops) (f tt) → Owes c d (modify_metrics (emit ops) ≫= f).
Proof.
  intros Hops Hf. apply (Owes_step c d (λ _, []) _ f ops); [|done|].
  - intros st. apply wp_modify_metrics. by exists tt.
  - intros []. simpl. by replace (d + 0) with d by lia.
Qed.

Lemma Owes_quiet {A B} c d (op : W → A * W) (f : A → M W B) : (∀ a, Owes c d (f a)) → Owes c d (quiet op ≫= f).
Proof. apply Owes_silent. intros st. apply wp_quiet. intros a w _. by exists a. Qed.

Lemma Owes_get_mem {B} c d (f : Mem → M W B) : (∀ m, Owes c d (f m)) → Owes c d (get_mem ≫= f).
Proof. apply Owes_silent. intros st. apply wp_get_mem. by exists (mem st). Qed.

Lemma Owes_cache {B} c d g (f : () → M W B) : (∀ m, Owes c d (f m)) → Owes c d (modify_cache g ≫= f).
Proof. apply Owes_silent. intros st. apply wp_modify_cache. by exists tt. Qed.

Lemma Owes_crossed {B} c d g (f : () → M W B) : (∀ m, Owes c d (f m)) → Owes c d (modify_crossedAt g ≫= f).
Proof. apply Owes_silent. intros st. apply wp_modify_crossedAt. by exists tt. Qed.

Lemma Owes_ret_bind {A B} c d (a : A) (f : A → M W B) : Owes c d (f a) → Owes c d (mret a ≫= f).
Proof. done. Qed.

Lemma Owes_assoc {A B C} c d (m : M W A) (f : A → M W B) (g : B → M W C) :
  Owes c d (m ≫= λ a, f a ≫= g) → Owes c d ((m ≫= f) ≫= g).
Proof.
  intros Hm st. specialize (Hm st). unfold wp, mbind, M_bind in *. by destruct (m st) as [[a|msg] st'].
Qed.

(** The last step. *)
Lemma Owes_last {A} c d (m : M W A) : Owes c d (m ≫= mret) → Owes c d m.
Proof. intros Hm st. specialize (Hm st). unfold wp, mbind, M_bind in *. by destruct (m st) as [[a|msg] st']. Qed.

Lemma Owes_foldM {A B} c (f : B → A → M W B) b l : (∀ b x, Owes c 0 (f b x)) → Owes c 0 (foldM f b l).
Proof.
  intros Hf. revert b. induction l as [|x l IH]; intros b; simpl; [by apply Owes_ret|by apply Owes_bind].
Qed.

End Owes.

(** The debt is paid. *)
Ltac paid :=
  simpl; unfold PhasePending, PhaseApproved, PhaseDenied, PhaseExpired in *; repeat (case_decide; simplify_eq/=); 
  first [done|lia|congruence].

Create HintDb owes discriminated.

Ltac owes_step :=
  match goal with
  | |- Owes _ _ (mbind _ (mbind _ _)) => apply Owes_assoc
  | |- Owes _ _ (mbind _ (mret _)) => apply Owes_ret_bind
  | |- Owes _ _ (mbind _ (call _ _)) => apply Owes_call; intros ?
  | |- Owes _ _ (mbind _ (quiet _)) => apply Owes_quiet; intros ?
  | |- Owes _ _ (mbind _ get_mem) => apply Owes_get_mem; intros ?
  | |- Owes _ _ (mbind _ (modify_cache _)) => apply Owes_cache; intros ?
  | |- Owes _ _ (mbind _ (modify_crossedAt _)) => apply Owes_crossed; intros ?
  | |- Owes _ _ (mbind _ (modify_metrics _)) => apply Owes_emit; [by repeat constructor|]
  | |- Owes _ _ (mbind _ (foldM _ _ _)) => apply Owes_bind; [apply Owes_foldM; intros ? ?|paid|intros ?]
  | |- Owes _ _ (mbind _ (panic _)) => apply Owes_bind; [apply Owes_panic; paid|paid|intros ?]
  | |- Owes _ _ (mbind _ (if decide _ then _ else _)) => case_decide
  | |- Owes _ _ (mbind _ (match ?x with _ => _ end)) => destruct x eqn:?
  | |- Owes _ _ (mbind _ ((match ?x with _ => _ end) _)) => destruct x eqn:?
  | |- Owes _ _ (mret _) => apply Owes_ret; paid
  | |- Owes _ _ (panic _) => apply Owes_panic; paid
  | |- Owes _ _ (call _ _) => apply Owes_last
  | |- Owes _ _ (quiet _) => apply Owes_last
  | |- Owes _ _ (foldM _ _ _) => apply Owes_last
  | |- Owes _ _ (modify_metrics _) => apply Owes_last
  | |- Owes _ _ (modify_cache _) => apply Owes_last
  | |- Owes _ _ (modify_crossedAt _) => apply Owes_last
  | |- Owes _ _ (if decide _ then _ else _) => case_decide
  | |- Owes _ _ (match ?x with _ => _ end) => destruct x eqn:?
  | |- Owes _ _ ((match ?x with _ => _ end) _) => destruct x eqn:?
  | |- Owes _ _ (mbind _ _) => apply Owes_bind; [solve [auto with owes]|paid|intros ?]
  | |- Owes _ ?d _ => replace d with 0 by paid; solve [auto with owes]
  | |- Owes _ _ _ => unfold_calls
  end.
Ltac owes := repeat (owes_step; simpl).
Ltac by_tally c := destruct c as [| | | |[]|]; owes.

Section Handlers.
Context {W : Type} `{Cluster W} `{LocalZone} `{DetailsCodec}.
Variable prometheus : Factory W.
Variable exec : Registry W.
Variable sink : option (Sink W).

(** ** The executor *)

Lemma Owes_runOne c ctx act target policy mv ts tmpl : Owes c 0 (runOne exec ctx act target policy mv ts tmpl).
Proof. unfold runOne, RecordAction, ObserveActionDuration. by_tally c. Qed.
#[local] Hint Resolve Owes_runOne : owes.

Lemma Owes_rollback c ctx rs : Owes c 0 (rollback exec ctx rs).
Proof.
  unfold rollback. apply Owes_bind; [|done|intros; owes]. induction (reverse rs) as [|r l IH]; simpl; [owes|].
  apply Owes_bind; [unfold rollback_one; by_tally c|done|intros ?]. apply Owes_bind; [exact IH|done|intros; owes].
Qed.
#[local] Hint Resolve Owes_rollback : owes.

Lemma Owes_run_loop c ctx policy target mv ts tmpl fuel i results :
  Owes c 0 (run_loop exec ctx policy target mv ts tmpl fuel i results).
Proof.
  revert i results. induction fuel as [|fuel IH]; intros i results; simpl; [owes|].
  destruct (_ !! _) as [act|]; [|owes]. apply Owes_bind; [auto with owes|done|intros [res [e|]]]; [|apply IH].
  case_decide; [apply IH|]. owes.
Qed.
#[local] Hint Resolve Owes_run_loop : owes.

Lemma Owes_RunRange c ctx policy target mv from to : Owes c 0 (RunRange exec ctx policy target mv from to).
Proof. unfold RunRange. by_tally c. Qed.
#[local] Hint Resolve Owes_RunRange : owes.

Lemma Owes_run_targets c ctx policy mv from to targets : Owes c 0 (run_targets exec ctx policy mv from to targets).
Proof. unfold run_targets. apply Owes_foldM. intros [results runErr] target. owes. Qed.
#[local] Hint Resolve Owes_run_targets : owes.

(** ** The policy reconciler *)

Lemma Owes_setCondition c policy ty status reason message : Owes c 0 (setCondition policy ty status reason message (W := W)).
Proof. unfold setCondition. owes. Qed.

Lemma Owes_requeue c policy after : Owes c 0 (requeue policy after (W := W)).
Proof. unfold requeue. by_tally c. Qed.
#[local] Hint Resolve Owes_setCondition Owes_requeue : owes.

Lemma Owes_resolveTargets c policy : Owes c 0 (resolveTargets policy (W := W)).
Proof. unfold resolveTargets, list_kind. by_tally c. Qed.
#[local] Hint Resolve Owes_resolveTargets : owes.

Ltac unfold_writers :=
  unfold trigger_gated, trigger_ungated, writeAudit, writeGatedAudit, forward_trigger, limiter_Observe, Window_Forget,
    setCondition, requeue, RecordTriggerMetric, RecordGateOpened, RecordEvaluation, RecordQueryError, RecordRateLimited.

(** The counting half of a trigger: the trigger is counted before its record is
    created, the gate after it was marked. *)
Lemma Owes_trigger_rest c policy key now poll gateIdx targets results :
  Owes c 0 (modify_metrics (RecordTriggerMetric (Namespace (p_Meta policy)));;;
            (if decide (gateIdx >= 0) then trigger_gated exec sink policy key now poll gateIdx targets results
             else trigger_ungated exec sink policy key now poll results)).
Proof. unfold_writers. by_tally c. Qed.

Lemma Owes_trigger c ctx policy key now poll : Owes c 0 (trigger exec sink ctx policy key now poll).
Proof.
  unfold trigger. apply Owes_bind; [auto with owes|done|intros [e|targets]]; [owes|].
  apply Owes_bind; [auto with owes|done|intros [results runErr]].
  apply (Owes_trigger_rest c (set_TriggerCount policy _)).
Qed.
#[local] Hint Resolve Owes_trigger : owes.

Lemma Owes_evaluate c ctx policy key now poll : Owes c 0 (evaluate prometheus exec sink ctx policy key now poll).
Proof. unfold evaluate, CallQuery, Window_Observe, Window_Forget, RecordEvaluation, RecordQueryError. by_tally c. Qed.
#[local] Hint Resolve Owes_evaluate : owes.

Lemma Owes_gate2 c ctx policy key now poll : Owes c 0 (gate2 prometheus exec sink ctx policy key now poll).
Proof. unfold gate2, Allowed, limiter_count, RecordRateLimited. by_tally c. Qed.
#[local] Hint Resolve Owes_gate2 : owes.

Lemma Owes_gate0 c ctx policy key now poll : Owes c 0 (gate0 prometheus exec sink ctx policy key now poll).
Proof. unfold gate0, gate1, gateStillOpen. by_tally c. Qed.
#[local] Hint Resolve Owes_gate0 : owes.

(** ** The audit reconciler *)

Ltac unfold_audit := unfold startCooldown, set_audit_condition, forward_trigger, RecordGateResolved.

Lemma Owes_closeGate c audit phase reason message expiry :
  phase ≠ PhasePending → c ≠ GatesResolved false → Owes c 0 (closeGate audit phase reason message expiry (W := W)).
Proof. intros Hp Hc. unfold closeGate. unfold_audit. by_tally c. Qed.

Lemma Owes_closed c audit phase reason message expiry :
  bool_decide (phase = PhasePending) = false → c ≠ GatesResolved false →
  Owes c 0 (closeGate audit phase reason message expiry (W := W)).
Proof. intros Hp%bool_decide_eq_false. by apply Owes_closeGate. Qed.
#[local] Hint Extern 1 (Owes _ _ (closeGate _ _ _ _ _)) => apply Owes_closed; [reflexivity|done] : owes.

Lemma Owes_releaseGate c ctx audit gate expiry :
  c ≠ GatesResolved false → Owes c 0 (releaseGate exec sink ctx audit gate expiry).
Proof. intros Hc. unfold releaseGate. unfold_audit. by_tally c. Qed.
#[local] Hint Resolve Owes_releaseGate : owes.

Lemma Owes_resolveGate c ctx audit expiry :
  c ≠ GatesResolved false → Owes c 0 (resolveGate exec sink ctx audit expiry).
Proof. intros Hc. unfold resolveGate. by_tally c. Qed.
#[local] Hint Resolve Owes_resolveGate : owes.

Lemma Owes_reverts c ctx l : Owes c 0 (foldM (λ acc rec, rr ← reverseOne exec ctx rec; mret (acc ++ [rr])) [] l).
Proof. apply Owes_foldM. intros acc rec. unfold reverseOne. by_tally c. Qed.
#[local] Hint Resolve Owes_reverts : owes.

(** A revert writes the status of a record that is not pending. *)
Lemma Owes_revert c ctx audit expiry :
  ApprovalPhase (a_Status audit) ≠ PhasePending → c ≠ GatesResolved true → Owes c 0 (revert exec sink ctx audit expiry).
Proof.
  intros Hp Hc. unfold revert. apply Owes_bind; [auto with owes|done|intros results]. unfold_audit.
  by_tally c.
Qed.
#[local] Hint Resolve Owes_revert : owes.

(** ** Whole runs *)

(** From [m] to [m'] the metrics count exactly what happened in [l]. *)
Definition tells (P : tally → Prop) (l : list IOEvent) (m m' : MetricState) : Prop :=
  tracked m' = tracked m ∧
  ∃ k, metric_ops m' = metric_ops m ++ k ∧ Forall not_set k ∧ ∀ c, P c → total (happened c) l = total (counted c) k.

Lemma Owes_tells {A} (P : tally → Prop) (m : M W A) st :
  P GaugeDrift → (∀ c, P c → Owes c 0 m) →
  wp m st (λ _ l st', tells P l (metrics (mem st)) (metrics (mem st'))).
Proof.
  intros Hd HO. destruct (HO _ Hd st) as (l & Hl & Ht & k & Hk & Hs & _). exists l. split; [done|].
  split; [done|]. exists k. split_and!; [done..|]. intros c Hc.
  destruct (HO _ Hc st) as (l' & Hl' & _ & k' & Hk' & _ & Heq).
  rewrite Hl in Hl'. rewrite Hk in Hk'. apply app_inv_head in Hl', Hk'. subst. by rewrite Z.add_0_l in Heq.
Qed.

Definition any (c : tally) : Prop := True.

(** The policies known once an answer came. *)
Definition track (nn : NamespacedName) (got : error + ReactivePolicy) (m : MetricState) : MetricState :=
  match got with
  | inr policy => TrackPolicy (Namespace (p_Meta policy)) (Name (p_Meta policy)) m
  | inl e => if decide (Is e NotFound) then UntrackPolicy (nn_Namespace nn) (nn_Name nn) m else m
  end.

Lemma policy_run_tells ctx nn st :
  wp (PolicyController.Reconcile prometheus exec sink ctx nn) st (λ _ l st', ∃ got rest,
    l = IoGetPolicy nn got :: rest ∧ tells any rest (track nn got (metrics (mem st))) (metrics (mem st'))).
Proof.
  unfold PolicyController.Reconcile. do 2 wp_step. wp_step. destruct a as [e|policy].
  - assert (∀ m, tells any [] m m) as Hnil.
    { intros m. split; [done|]. exists []. rewrite app_nil_r. by split_and!. }
    unfold Window_Forget, limiter_Forget. case_decide; repeat wp_step;
      (eexists _, []; split; [done|]); simpl; [by rewrite decide_True by done|by rewrite decide_False by done].
  - wp_step. wp_step. eapply wp_mono; [apply (Owes_tells any); [done|intros c _]|].
    + by_tally c.
    + intros o l st' Htell. by eexists _, l.
Qed.

Definition found_pending (got : error + ActionAudit) : bool :=
  match got with inr a => bool_decide (ApprovalPhase (a_Status a) = PhasePending) | inl _ => false end.

Lemma audit_run_tells ctx nn st :
  wp (AuditController.Reconcile exec sink ctx nn) st (λ _ l st', ∃ got rest,
    l = IoGetAudit nn got :: rest ∧
    tells (λ c, c ≠ GatesResolved (negb (found_pending got))) rest (metrics (mem st)) (metrics (mem st'))).
Proof.
  unfold AuditController.Reconcile. repeat wp_step.
  eapply wp_mono; [apply (Owes_tells (λ c, c ≠ GatesResolved (negb (found_pending a)))); [done|intros c Hc]|].
  - destruct a as [e|audit]; [owes|]. simpl in Hc. unfold retentionFor.
    destruct (bool_decide_reflect (ApprovalPhase (a_Status audit) = PhasePending)) as [Hp|Hp];
      by_tally c.
  - intros o l st' Htell. by eexists _, l.
Qed.

(** ** The life of a process *)

Inductive run : Type :=
| PolicyRun (nn : NamespacedName) (l : list IOEvent)
| AuditRun (nn : NamespacedName) (l : list IOEvent).

(** Reconciliations of policies and records in any order from a fresh start,
    anything happening outside in between; the API server answers a GET of a
    policy with the object asked for. *)
Inductive process : Mem → list run → Prop :=
| process_start : process empty_mem []
| process_policy m rs ctx nn w lg o st' l :
    process m rs →
    PolicyController.Reconcile prometheus exec sink ctx nn (mkSt w m lg) = (o, st') → log st' = lg ++ l →
    (∀ p, IoGetPolicy nn (inr p) ∈ l → Namespace (p_Meta p) = nn_Namespace nn ∧ Name (p_Meta p) = nn_Name nn) →
    process (mem st') (rs ++ [PolicyRun nn l])
| process_audit m rs ctx nn w lg o st' l :
    process m rs →
    AuditController.Reconcile exec sink ctx nn (mkSt w m lg) = (o, st') → log st' = lg ++ l →
    process (mem st') (rs ++ [AuditRun nn l]).

(** How often a run gives an instance of a tally. *)
Definition in_run (c : tally) (r : run) : Z :=
  match c, r with
  | GatesResolved _, PolicyRun _ _ => 0
  | GatesResolved _, AuditRun _ (IoGetAudit _ got :: l) => if found_pending got then total (happened (GatesResolved true)) l else 0
  | _, PolicyRun _ l | _, AuditRun _ l => total (happened c) l
  end.

Definition count_of (c : tally) (m : Mem) : Z := total (counted c) (metric_ops (metrics m)).

Lemma tells_total P l m m' c :
  tells P l m m' → P c → total (counted c) (metric_ops m') = total (counted c) (metric_ops m) + total (happened c) l.
Proof. intros (_ & k & -> & _ & Heq) Hc. rewrite total_app, Heq by done. done. Qed.

Lemma track_counted c nn got m : total (counted c) (metric_ops (track nn got m)) = total (counted c) (metric_ops m).
Proof.
  assert (∀ ops v ns, total (counted c) (ops ++ [MSet ActivePolicies [ns] v]) = total (counted c) ops) as Hset.
  { intros ops v ns. rewrite total_app. destruct c as [| | | |[]|]; simpl; lia. }
  destruct got as [e|policy]; simpl; [|apply Hset].
  case_decide; [|done]. unfold UntrackPolicy. destruct (_ !! _); [apply Hset|done].
Qed.

Lemma unresolved l : total (happened (GatesResolved false)) l = 0.
Proof. induction l as [|e l IH]; [done|]. simpl. rewrite IH. by destruct e as [| | | | | |? []|? []| | |? []| | | |]. Qed.

Lemma no_drift l : total (happened GaugeDrift) l = 0.
Proof. induction l as [|e l IH]; [done|]. simpl. by rewrite IH. Qed.

(** The reading of every tally. *)
Lemma process_counts m rs c : process m rs → c ≠ GatesResolved true → count_of c m = total (in_run c) rs.
Proof.
  intros Hp Hc. induction Hp as [|m rs ctx nn w lg o st' l Hp IH Hrun Hl _|m rs ctx nn w lg o st' l Hp IH Hrun Hl]; [by destruct c| |];
    rewrite total_app; simpl; rewrite <- IH; unfold count_of.
  - destruct (wp_run _ _ _ _ _ (policy_run_tells ctx nn (mkSt w m lg)) Hrun) as (l' & Hl' & got & rest & -> & Htell).
    simpl in Hl'. rewrite Hl in Hl'. apply app_inv_head in Hl' as ->. simpl in Htell.
    rewrite (tells_total _ _ _ _ c Htell I), track_counted. 
    pose proof (unresolved rest) as Hno.
    destruct c as [| | | |[]|]; simpl; try lia. done.
  - destruct (wp_run _ _ _ _ _ (audit_run_tells ctx nn (mkSt w m lg)) Hrun) as (l' & Hl' & got & rest & -> & Htell).
    simpl in Hl'. rewrite Hl in Hl'. apply app_inv_head in Hl' as ->. simpl in Htell.
    pose proof (unresolved rest) as Hno.
    destruct c as [| | | |[]|]; [| | | |done| |];
      [by rewrite (tells_total _ _ _ _ _ Htell) by done; simpl; lia..| |by rewrite (tells_total _ _ _ _ _ Htell) by done; simpl; lia].
    simpl. destruct (found_pending got).
    + change (counted (GatesResolved false)) with (counted (GatesResolved true)).
      rewrite (tells_total _ _ _ _ (GatesResolved true) Htell) by done. lia.
    + rewrite (tells_total _ _ _ _ (GatesResolved false) Htell) by done. lia.
Qed.

(** ** The gauges *)

(** What a run learnt about the existence of a policy. *)
Definition learnt (nn : NamespacedName) (r : run) : option bool :=
  match r with
  | PolicyRun nn' (IoGetPolicy _ got :: _) =>
      if decide (nn_Namespace nn' = nn_Namespace nn ∧ nn_Name nn' = nn_Name nn) then
        match got with inr _ => Some true | inl e => if decide (Is e NotFound) then Some false else None end
      else None
  | _ => None
  end.

(** Whether the policy existed when the process last learnt about it. *)
Definition known (rs : list run) (nn : NamespacedName) : bool := foldl (λ b r, default b (learnt nn r)) false rs.

Lemma known_snoc rs r nn : known (rs ++ [r]) nn = default (known rs nn) (learnt nn r).
Proof. unfold known. by rewrite foldl_app. Qed.

(** Increments less decrements of the pending gauge, over all namespaces. *)
Definition pending_gauge (o : MetricOp) : Z :=
  match o with MInc ApprovalGatesPending _ => 1 | MDec ApprovalGatesPending _ => -1 | _ => 0 end.

Lemma drift_gauge ops :
  total (counted GaugeDrift) ops = total pending_gauge ops - total (counted GatesOpened) ops + total (counted (GatesResolved false)) ops.
Proof. induction ops as [|o ops IH]; [done|]. simpl. rewrite IH. destruct o as [[]|[]|[]|[]]; simpl; lia. Qed.

Lemma last_set_not_set c ls ops k : Forall not_set k → last_set c ls (ops ++ k) = last_set c ls ops.
Proof.
  induction k as [|o k IH] using rev_ind; intros Hk; [by rewrite app_nil_r|].
  apply Forall_app in Hk as [Hk Ho]. rewrite app_assoc, last_set_snoc, IH by done.
  apply Forall_cons in Ho as [Ho _]. by destruct o.
Qed.

(** The gauge shows the size of the tracked set, once there is one. *)
Definition gauge_shows (m : MetricState) : Prop := ∀ ns,
  last_set ActivePolicies [ns] (metric_ops m) = (λ s, float_of_Z (Z.of_nat (size s))) <$> tracked m !! ns.

Lemma gauge_set m ns s :
  gauge_shows m →
  gauge_shows (mkMetrics (<[ns := s]> (tracked m))
    (metric_ops m ++ [MSet ActivePolicies [ns] (float_of_Z (Z.of_nat (size s)))])).
Proof.
  intros Hm ns'. simpl. rewrite last_set_snoc. destruct (decide (ns = ns')) as [->|Hne].
  - rewrite decide_True by done. by rewrite lookup_insert_eq.
  - rewrite decide_False by (intros [_ ?]; simplify_eq). rewrite lookup_insert_ne by done. apply Hm.
Qed.

Lemma track_shows nn got m : gauge_shows m → gauge_shows (track nn got m).
Proof.
  intros Hm. destruct got as [e|policy]; simpl; [|by apply gauge_set].
  case_decide; [|done]. unfold UntrackPolicy. destruct (_ !! _); [by apply gauge_set|done].
Qed.

Lemma tells_shows P l m m' : tells P l m m' → gauge_shows m → gauge_shows m'.
Proof. intros (Ht & k & Hk & Hs & _) Hm ns. rewrite Hk, Ht, last_set_not_set by done. apply Hm. Qed.

Lemma tracked_in_set m ns s ops ns' :
  tracked_in (mkMetrics (<[ns := s]> (tracked m)) ops) ns' = if decide (ns = ns') then s else tracked_in m ns'.
Proof. unfold tracked_in. simpl. by case_decide; subst; simplify_map_eq. Qed.

(** Tracking remembers what a run learnt. *)
Lemma track_learnt nn got rest m ns name :
  (∀ p, got = inr p → Namespace (p_Meta p) = nn_Namespace nn ∧ Name (p_Meta p) = nn_Name nn) →
  bool_decide (name ∈ tracked_in (track nn got m) ns) =
    default (bool_decide (name ∈ tracked_in m ns)) (learnt (mkNN ns name) (PolicyRun nn (IoGetPolicy nn got :: rest))).
Proof.
  intros Hp. simpl. destruct got as [e|policy]; simpl.
  - case_decide as He; [|by case_decide]. unfold UntrackPolicy. destruct (tracked m !! _) as [s|] eqn:Hs.
    + rewrite tracked_in_set. assert (tracked_in m (nn_Namespace nn) = s) as <- by (unfold tracked_in; by rewrite Hs).
      case_decide as Hns; [|rewrite decide_False by tauto; done]. subst ns.
      case_decide as Hn; simpl; [apply bool_decide_eq_false|apply bool_decide_ext]; set_solver.
    + case_decide as Hn; [|done]. destruct Hn as [<- <-]. simpl. apply bool_decide_eq_false.
      unfold tracked_in. rewrite Hs. set_solver.
  - destruct (Hp policy eq_refl) as [-> ->]. unfold TrackPolicy. rewrite tracked_in_set.
    case_decide as Hns; [|rewrite decide_False by tauto; done]. subst ns.
    case_decide as Hn; simpl; [apply bool_decide_eq_true|apply bool_decide_ext]; set_solver.
Qed.

Lemma process_gauge m rs : process m rs →
  gauge_shows (metrics m) ∧ ∀ ns name, known rs (mkNN ns name) = bool_decide (name ∈ tracked_in (metrics m) ns).
Proof.
  intros Hp. induction Hp as [|m rs ctx nn w lg o st' l Hp [Hg Hk] Hrun Hl Hnn|m rs ctx nn w lg o st' l Hp [Hg Hk] Hrun Hl].
  - split; [by intros ns|]. intros ns name. symmetry. apply bool_decide_eq_false. set_solver.
  - destruct (wp_run _ _ _ _ _ (policy_run_tells ctx nn (mkSt w m lg)) Hrun) as (l' & Hl' & got & rest & -> & Htell).
    simpl in Hl'. rewrite Hl in Hl'. apply app_inv_head in Hl' as ->. simpl in Htell.
    split; [by eapply tells_shows; [|apply track_shows]|]. intros ns name. rewrite known_snoc, Hk. rewrite <- (track_learnt nn got rest (metrics m) ns name).
    + unfold tracked_in. by rewrite (proj1 Htell).
    + intros p ->. apply Hnn. left.
  - destruct (wp_run _ _ _ _ _ (audit_run_tells ctx nn (mkSt w m lg)) Hrun) as (l' & Hl' & got & rest & -> & Htell).
    simpl in Htell. split; [by eapply tells_shows|]. intros ns name. rewrite known_snoc, Hk. unfold tracked_in. by rewrite (proj1 Htell).
Qed.


End Handlers.

(** Witness: the threshold is crossed, two minutes later the policy triggers
    and holds, then an approved gate is released. *)
Definition crossing := PolicyController.Reconcile fake_prometheus fake_registry None Background a_req (mkSt w_due empty_mem []).
Definition triggering := PolicyController.Reconcile fake_prometheus fake_registry None Background a_req
  (mkSt (with_now (t0 + 2 * Minute) w_due) (mem crossing.2) []).
Definition releasing := AuditController.Reconcile fake_registry None Background (mkNN "prod" "high-cpu-1")
  (mkSt (w_open DecisionApproved) (mem triggering.2) []).

Definition three_runs : list run :=
  [PolicyRun a_req (log crossing.2); PolicyRun a_req (log triggering.2); AuditRun (mkNN "prod" "high-cpu-1") (log releasing.2)].

(** The policies a log reads are the one asked for. *)
Definition asked_for (nn : NamespacedName) (e : IOEvent) : bool :=
  match e with
  | IoGetPolicy _ (inr p) => bool_decide (Namespace (p_Meta p) = nn_Namespace nn ∧ Name (p_Meta p) = nn_Name nn)
  | _ => true
  end.

Lemma asked_for_all nn l p :
  forallb (asked_for nn) l = true → IoGetPolicy nn (inr p) ∈ l → Namespace (p_Meta p) = nn_Namespace nn ∧ Name (p_Meta p) = nn_Name nn.
Proof.
  rewrite forallb_forall. intros Hall Hin%list_elem_of_In. specialize (Hall _ Hin). simpl in Hall.
  by apply bool_decide_eq_true in Hall.
Qed.

Lemma three_runs_process : process fake_prometheus fake_registry None (mem releasing.2) three_runs.
Proof.
  apply (process_audit _ _ _ (mem triggering.2) [PolicyRun a_req (log crossing.2); PolicyRun a_req (log triggering.2)]
           Background _ (w_open DecisionApproved) [] releasing.1 releasing.2 (log releasing.2));
    [|apply surjective_pairing|done].
  apply (process_policy _ _ _ (mem crossing.2) [PolicyRun a_req (log crossing.2)]
           Background _ (with_now (t0 + 2 * Minute) w_due) [] triggering.1 triggering.2 (log triggering.2));
    [|apply surjective_pairing|done|intros p; apply asked_for_all; by_compute].
  apply (process_policy _ _ _ empty_mem [] Background _ w_due [] crossing.1 crossing.2 (log crossing.2));
    [constructor|apply surjective_pairing|done|intros p; apply asked_for_all; by_compute].
Qed.

