(* ===== verification/CliTheorems.v ===== *)
(** * Theorems about the command line client

    What [rp] sends is what the approval webhook lets through, its listings
    show exactly the matching records, and a dry run predicts the operator's
    verdict without touching anything. *)

From S2P Require Import Prelude GoLib FloatLib GoTime Api ActionTypes Metrics Effects Logic Evaluator Limiter Registry Executor AuditWriter PolicyController AuditController AuditWebhook Scheme Cli Fake WebhookTheorems PolicySpec.
From Stdlib Require Import Sorting.Sorted.

(** ** Filtering in place is filtering *)

Section InPlaceFacts.
Context {A : Type} (p : A → bool).
Implicit Types arr l : list A.

(** Loop invariant: the front of the array holds what was kept, the part not
    yet visited is untouched. *)
Lemma keep_loop_filter rest arr i n kept :
  take n arr = kept → n = length kept → (n <= i)%nat → drop i arr = rest → 
  let '(arr', n') := keep_loop p (length rest) i arr n in
  take n' arr' = kept ++ filter (λ x, p x = true) rest.
Proof.
  revert arr i n kept. induction rest as [|x rest IH]; intros arr i n kept Hk Hn Hi Hd; simpl.
  { by rewrite app_nil_r. }
  assert (arr !! i = Some x) as Hx by (rewrite <- (Nat.add_0_r i), <- lookup_drop, Hd; done).
  assert (drop (S i) arr = rest) as Hd' by (by rewrite <- Nat.add_1_r, <- drop_drop, Hd).
  assert (i < length arr)%nat as Hlt by by apply lookup_lt_Some in Hx.
  rewrite Hx, filter_cons. destruct (p x) eqn:Hp.
  - rewrite decide_True by done. change (x :: filter (λ y, p y = true) rest) with ([x] ++ filter (λ y, p y = true) rest).
    rewrite app_assoc. apply IH.
    + rewrite (take_S_r _ _ x) by (apply list_lookup_insert_eq; lia). by rewrite take_insert_ge, Hk by lia.
    + rewrite length_app. simpl. lia.
    + lia.
    + by rewrite drop_insert_lt by lia.
  - rewrite decide_False by congruence. apply IH; [done..|lia|done].
Qed.

Lemma keep_in_place_filter l : keep_in_place p l = filter (λ x, p x = true) l.
Proof.
  unfold keep_in_place. pose proof (keep_loop_filter l l 0 0 [] eq_refl eq_refl ltac:(lia) eq_refl) as Hk.
  by destruct (keep_loop p (length l) 0 l 0) as [arr n].
Qed.

End InPlaceFacts.

Lemma sortAudits_perm l : sortAudits l ≡ₚ l.
Proof. apply sort_Slice_perm. Qed.

(** Newest first: no record was triggered before its successor. *)
Definition newest_first (l : list ActionAudit) : Prop :=
  Sorted (λ a b, TriggeredAt (a_Spec b) <= TriggeredAt (a_Spec a)) l.

Lemma sortAudits_sorted l : newest_first (sortAudits l).
Proof.
  assert (Sorted (in_order newer) (sortAudits l)) as Hs.
  { apply (sort_Slice_sorted newer). unfold newer, time_After. intros a b.
    rewrite bool_decide_eq_true, bool_decide_eq_false. lia. }
  unfold newest_first. induction Hs as [|a k Hk IH Ha]; constructor; [done|].
  destruct Ha as [|b k Hab]; constructor. unfold in_order, newer, time_After in Hab.
  apply bool_decide_eq_false in Hab. lia.
Qed.

(** ** The commands *)

(** The kind a list of records is encoded under. *)
Definition audit_list : option GroupVersionKind := Some (WithKind GroupVersion (type_Name GoActionAuditList)).

Section Commands.
Context {W : Type} `{Cluster W} `{CliEnv W} `{PromAPI W} `{LocalZone} `{RuntimeScheme}.
Variable default_registry : Registry W.
Variable colorEnabled : bool.
Variable f : CliFactory W.

(** A row printer that makes one row per item makes a table of as many rows. *)
Lemma wp_rows_of {A} (row : A → M W (list Out)) (P : A → Prop) `{∀ a, Decision (P a)} header items (st : St W) :
  (∀ a st, wp (row a) st (λ o _ _, ∃ rs, o = Val rs ∧ length rs = if decide (P a) then 1%nat else 0%nat)) →
  wp (rows_of row header items) st (λ o _ _, ∃ rs, o = Val (Row header :: rs) ∧ length rs = length (filter P items)).
Proof.
  intros Hrow. unfold rows_of.
  eapply wp_mono; [apply (wp_foldM _ (λ seen o _ _, ∃ rs, o = Val (Row header :: rs) ∧ length rs = length (filter P seen))
                            [] items [Row header] st [])|].
  - by exists [].
  - intros seen x rest b lg st' _ (rs & [= ->] & Hlen). wp_step. eapply wp_mono; [apply Hrow|].
    intros o l st'' (r & -> & Hr). wp_step. split; [|done]. exists (rs ++ r). split; [done|].
    rewrite filter_app, !length_app, Hlen, Hr, filter_cons, filter_nil. by case_decide.
  - done.
Qed.

Lemma age_returns t (st : St W) : wp (age t) st (λ o _ _, ∃ s, o = Val s).
Proof. unfold age. case_decide; repeat wp_step; eauto. Qed.

Definition is_pending (a : ActionAudit) : Prop := ApprovalPhase (a_Status a) = PhasePending.
#[local] Instance is_pending_dec a : Decision (is_pending a).
Proof. unfold is_pending. apply _. Defined.

Lemma filter_bool_decide {A} (P : A → Prop) `{∀ a, Decision (P a)} (l : list A) :
  filter (λ a, bool_decide (P a) = true) l = filter P l.
Proof. apply list_filter_iff. intros a. apply bool_decide_eq_true. Qed.

Definition pending_row_count (shown : list ActionAudit) : nat :=
  length (filter (λ a, Gate (a_Spec a) ≠ None) shown).

Lemma printPendingTable_rows items (st : St W) :
  wp (printPendingTable f items) st (λ o l _, Forall (λ e, ∃ t, e = IoNow t) l ∧
    ∃ header rs, o = Val (Row header :: rs) ∧ length rs = pending_row_count items).
Proof.
  assert (Emits (λ e, ∃ t, e = IoNow t) (printPendingTable f items)) as HE.
  { unfold printPendingTable, rows_of. emits. eauto. }
  apply wp_emits_and; [done|]. unfold printPendingTable.
  eapply wp_mono; [apply (wp_rows_of _ (λ a, Gate (a_Spec a) ≠ None))|].
  - intros a st'. destruct (Gate (a_Spec a)) as [gate|]; repeat wp_step; eexists; (split; [done|]).
    + cbn [length]. by rewrite decide_True by done.
    + by rewrite decide_False by tauto.
  - simpl. intros o l st' (rs & ? & ?). eauto.
Qed.

(** An object of the API is encoded under its group, version and kind, unless
    the scheme cannot be built. *)
Lemma printObject_stamps `{!SchemeLaws} s t fmt o (st : St W) :
  scheme = Val s → go_type o = Some t →
  wp (printObject fmt o) st (λ r l _, l = [] ∧
    let gvk := Some (WithKind GroupVersion (type_Name t)) in
    r = Val (if decide (fmt = outputJSON) then Some [OutJSON gvk o]
             else if decide (fmt = outputYAML) then Some [OutYAML gvk o] else None)).
Proof.
  intros Hs Ht. unfold printObject, ensureGVK. rewrite Ht, Hs, (scheme_kinds s t Hs).
  destruct (decide (fmt = outputJSON)), (decide (fmt = outputYAML));
    first [rewrite decide_True by tauto|rewrite decide_False by tauto]; by repeat wp_step.
Qed.

(** [rp action pending] shows exactly the records of the selected
    namespaces whose phase is Pending, newest trigger first: as the encoded
    objects under their group, version and kind, or as one table row per
    record that carries a gate.  It returns and only reads. *)
Lemma pending_lists_open_gates `{!SchemeLaws} (st : St W) audits w' s :
  scheme = Val s →
  f_ClientErr f = None → cli_ListAudits (listNamespace f) None (world st) = (inr audits, w') →
  wp (action_pending f) st (λ o l _,
    Forall (λ e, ∃ t, e = IoNow t) l ∧
    ∃ shown out, o = Val (out, None) ∧ shown ≡ₚ filter is_pending audits ∧ newest_first shown ∧
      (output f = outputJSON → out = [OutJSON audit_list (ObjAudits shown)]) ∧
      (output f = outputYAML → out = [OutYAML audit_list (ObjAudits shown)]) ∧
      (output f = outputTable → ∃ header rows, out = Row header :: rows ∧ length rows = pending_row_count shown)).
Proof.
  intros Hsch Hc Hl. unfold action_pending, listAudits. rewrite Hc. rewrite decide_False by tauto.
  repeat wp_step. match goal with HL : cli_ListAudits _ _ _ = (?r, _) |- _ => rewrite Hl in HL; injection HL as <- <- end.
  repeat wp_step. set (shown := sortAudits _).
  assert (shown ≡ₚ filter is_pending audits) as Hp.
  { subst shown. rewrite sortAudits_perm, keep_in_place_filter. by rewrite (filter_bool_decide is_pending). }
  assert (newest_first shown) as Hs by apply sortAudits_sorted.
  clearbody shown. unfold print_or. wp_step.
  eapply wp_mono; [by apply (printObject_stamps s GoActionAuditList)|]. intros r l' st2 [-> ->]. simpl.
  case_decide as Hj; [wp_step|case_decide as Hy; [wp_step|wp_step]].
  - split; [done|]. exists shown, [OutJSON audit_list (ObjAudits shown)]. 
    unfold outputJSON, outputYAML, outputTable in *. split_and!; congruence || done.
  - split; [done|]. exists shown, [OutYAML audit_list (ObjAudits shown)]. 
    unfold outputJSON, outputYAML, outputTable in *. split_and!; congruence || done.
  - eapply wp_mono; [apply printPendingTable_rows|]. intros o l st' (Hl' & header & rs & -> & Hn).
    wp_step. simpl. rewrite app_nil_r. split; [done|]. exists shown, (Row header :: rs).
    split_and!; try done. intros _. by exists header, rs.
Qed.

(** ** Deciding a gate *)

(** The webhook's answer to a record that differs in decision and reason only. *)
Definition webhook_answers `{AuditCodec} (gate : ApprovalGate) (decision : ApprovalDecision) (reason : string)
    (sent : ActionAudit) (req : Request) (o' : outcome Response) (l' : list IOEvent) : Prop :=
  (Decision_ gate = EmptyString → ∃ t', head l' = Some (IoNow t') ∧
     if decide (t' < ExpiresAt gate) then
       ∃ now res, o' = Val res ∧
         let stamped := set_Gate sent (Some (set_Decided (set_Decision gate decision reason)
                                               (requesterName req) (Some now))) in
         (admitted req res = Some stamped ∨
          ∃ e, Marshal stamped = inl e ∧ res = ResErrored StatusInternalServerError e)
     else ∃ why, o' = Val (ResDenied why)) ∧
  (Decision_ gate = decision → o' = Val ResAllowed) ∧
  (Decision_ gate ≠ EmptyString → Decision_ gate ≠ decision → ∃ why, o' = Val (ResDenied why)).

Lemma Handle_answers `{AuditCodecLaws} gate decision reason current req (stw : St W) :
  decision = DecisionApproved ∨ decision = DecisionDenied →
  Gate (a_Spec current) = Some gate → ApprovalPhase (a_Status current) = PhasePending →
  Operation req = OpUpdate → (0 < String.length (OldObject req))%nat →
  Decode (Object req) = inr (set_Gate current (Some (set_Decision gate decision reason))) →
  Decode (OldObject req) = inr current →
  wp (Handle req) stw (λ o' l' _,
    webhook_answers gate decision reason (set_Gate current (Some (set_Decision gate decision reason))) req o' l').
Proof.
  intros Hd Hg Hph Hop Hlen Hnew Hold.
  destruct (decide (Decision_ gate = EmptyString)) as [He|He].
  - rewrite (Handle_fresh req current _ gate (set_Decision gate decision reason)) by done.
    assert (Decision_ gate ≠ decision) as Hne by (intros Hx; rewrite He in Hx; subst; by destruct Hd).
    repeat wp_step. case_decide as Hexp; unfold time_Before in Hexp.
    + wp_step. split_and!; [|done..]. intros _. eexists. split; [done|]. rewrite decide_False by lia. by eexists.
    + repeat wp_step. destruct (Marshal _) as [e|raw] eqn:Hm; wp_step; (split_and!; [|done..]); intros _;
        eexists; (split; [done|]); rewrite decide_True by lia; eexists _, _; (split; [done|]); simpl.
      * right. by exists e.
      * left. by rewrite (Decode_Marshal _ _ Hm).
  - unfold Handle. rewrite decide_False by (intros ?; done). rewrite Hnew. rewrite decide_True by done.
    rewrite Hold, Hg. simpl. case_decide as Hsame.
    + rewrite decide_False.
      { wp_step. by split_and!. }
      intros [?|Hs]; [done|]. destruct (DecidedAt gate); simpl in Hs; [|done].
      rewrite bool_decide_true in Hs; done.
    + rewrite decide_True by done. wp_step. split_and!; [done|by intros Hx; destruct Hsame|]. intros _ _. by eexists.
Qed.


(** ** Dry run *)

(** An action the admission webhook would take the parameters of. *)
Definition action_runnable (a : ActionSpec) : Prop :=
  ∃ plugin, Lookup (registry default_registry f) (Plugin a) = Some plugin ∧
    pl_Validate plugin (ParamsFromCRD (ActParams a)) = None.

Lemma dry_run_actions_valid k acts :
  forallb da_Valid (imap (λ i a, dry_run_action default_registry f (Z.of_nat (k + i)) a) acts) = true ↔
  Forall action_runnable acts.
Proof.
  revert k. induction acts as [|a acts IH]; intros k; simpl; [done|].
  rewrite andb_true_iff, Forall_cons. unfold imap in *.
  assert (∀ b, forallb da_Valid (imap ((λ i x, dry_run_action default_registry f (Z.of_nat (k + i)) x) ∘ S) acts) = b ↔
               forallb da_Valid (imap (λ i x, dry_run_action default_registry f (Z.of_nat (S k + i)) x) acts) = b) as Hs.
  { intros b. erewrite imap_ext; [done|]. intros i x _. simpl. by rewrite Nat.add_succ_r. }
  rewrite Hs, IH. apply and_iff_compat_r. unfold dry_run_action, action_runnable.
  destruct (Lookup _ _) as [plugin|]; [|split; [done|by intros (? & ? & ?)]].
  destruct (pl_Validate _ _) eqn:Hv; simpl; split; try done; [intros (? & [= <-] & ?); congruence|eauto].
Qed.

(** The operator's verdict says the threshold is crossed. *)
Definition verdict_crossed (v : verdict) : Prop := v = Counting ∨ v = Sustained.

(** A dry run predicts the operator: it only queries the metric, its report
    says "would trigger" exactly when the answer crosses the threshold and every
    action's plugin is registered and accepts its parameters, and whenever the
    operator, given the same answer, reaches a verdict, it is a crossing one
    exactly when the report says crossed. *)
Lemma dry_run_predicts_operator policy (st : St W) :
  let obs := ObserveSpec (p_Spec policy) in
  wp (dryRun default_registry f policy) st (λ o l st', mem st' = mem st ∧ ∃ report, o = Val report ∧
    (∀ e, e ∈ l → ∃ r, e = IoQuery (Query obs) r) ∧
    (dr_WouldTrigger report = true ↔
       (∃ v thr, l = [IoQuery (Query obs) (inr v)] ∧ ParseThreshold (Threshold obs) = inr thr ∧
                 Compare v thr (Operator obs) = true) ∧ Forall action_runnable (Actions (p_Spec policy))) ∧
    ∀ key m now v, Evaluated (prom f) policy key m now l v → (dr_Crossed report = true ↔ verdict_crossed v)).
Proof.
  intros obs. pose proof (dry_run_actions_valid 0 (Actions (p_Spec policy))) as Hval. simpl in Hval.
  unfold dryRun, verdict_crossed. fold obs. set (acts := imap _ _) in *.
  destruct (prom f (Endpoint obs) []) as [e|c] eqn:Hprom.
  - wp_step. split; [done|]. eexists. split; [done|]. split_and!; simpl; [set_solver| |].
    + split; [done|]. intros [(v & thr & ? & _) _]. done.
    + inversion 1; subst obs; simplify_eq/=; intuition congruence.
  - wp_step. unfold CallQuery. wp_step. destruct a as [e|value].
    + wp_step. split; [done|]. eexists. split; [done|]. split_and!; simpl; [set_solver| |].
      * split; [done|]. intros [(v & thr & ? & _) _]. done.
      * inversion 1; subst obs; simplify_eq/=; intuition congruence.
    + destruct (ParseThreshold (Threshold obs)) as [e|thr] eqn:Hthr; wp_step; (split; [done|]); eexists; (split; [done|]);
        (split_and!; simpl; [set_solver| |]).
      * split; [done|]. intros [(v & thr & _ & ? & _) _]. done.
      * inversion 1; subst obs; simplify_eq/=; intuition congruence.
      * rewrite andb_true_iff, Hval. split; [intros [? ?]|intros [(v & thr' & ? & ? & ?) ?]]; simplify_eq; eauto 10.
      * inversion 1; subst obs; simplify_eq/=; intuition congruence.
Qed.

End Commands.

(** ** Witnesses *)

(** One pending record among two, listed as JSON. *)
Definition listing_world : World :=
  a_world [] [pending_audit EmptyString; set_ApprovalPhase (pending_audit DecisionApproved) PhaseApproved].

Lemma pending_lists_open_gates_witness :
  (action_pending (fake_factory outputJSON) (start listing_world)).1 =
    Val ([OutJSON audit_list (ObjAudits [pending_audit EmptyString])], None) ∧
  wp (action_pending (fake_factory outputJSON)) (start listing_world) (λ o l _,
    Forall (λ e, ∃ t, e = IoNow t) l ∧
    ∃ shown out, o = Val (out, None) ∧ shown ≡ₚ filter is_pending (w_audits listing_world) ∧ newest_first shown ∧
      (output (fake_factory outputJSON) = outputJSON → out = [OutJSON audit_list (ObjAudits shown)]) ∧
      (output (fake_factory outputJSON) = outputYAML → out = [OutYAML audit_list (ObjAudits shown)]) ∧
      (output (fake_factory outputJSON) = outputTable →
         ∃ header rows, out = Row header :: rows ∧ length rows = pending_row_count shown)).
Proof.
  split; [by_compute|].
  eapply (pending_lists_open_gates (fake_factory outputJSON) (start listing_world) (w_audits listing_world) listing_world);
    [reflexivity|reflexivity|by_compute].
Defined.

(** Approving an open gate sends one update, which the webhook stamps. *)
Definition cli_sent : ActionAudit :=
  set_Gate (pending_audit EmptyString)
    (option_map (λ g, set_Decision g DecisionApproved "confirmed") (Gate (a_Spec (pending_audit EmptyString)))).
Definition cli_stamped : ActionAudit :=
  set_Gate cli_sent (option_map (λ g, set_Decided g "bob" (Some (t0 + Millisecond))) (Gate (a_Spec cli_sent))).
Definition cli_codec : AuditCodec :=
  table_codec [("old", pending_audit EmptyString); ("sent", cli_sent); ("stamped", cli_stamped)].

Lemma cli_codec_laws : @AuditCodecLaws cli_codec.
Proof. apply table_codec_laws. repeat constructor; set_solver. Qed.

Definition cli_run := decideGate (fake_factory outputTable) "high-cpu-1" DecisionApproved "confirmed" (start (w_open EmptyString)).

