(* ===== verification/CliCommands.v ===== *)
(** * The command tree of the client: pkg/cli/root.go and the new...Command functions

    [NewRootCommand] as a tree of commands with their names, aliases, argument
    rules, flags and bodies, and the client a command gets from the kubeconfig.
    Parsing a command line into a node of the tree, its arguments and the
    values of its flags is cobra's. *)

From S2P Require Import Prelude GoLib FloatLib GoTime Api ActionTypes Effects Logic Metrics Evaluator Registry Executor Scheme Cli CliTheorems Fake.

(** ** Commands *)

Inductive PositionalArgs : Type := NoArgs | ExactArgs (n : nat).

Definition args_ok (rule : PositionalArgs) (args : list string) : Prop :=
  match rule with NoArgs => args = [] | ExactArgs n => length args = n end.

Record Flag : Type := mkFlag { flag_Name : string; flag_Short : string; flag_Default : string }.

Section Commands.
Context {W : Type} `{Cluster W} `{CliEnv W} `{PromAPI W} `{LocalZone} `{RuntimeScheme}.

(** [RunE] of a command, given the values of its own flags and its arguments. *)
Definition RunE : Type := (string → string) → list string → M W (list Out * option error).

#[warnings="-register-all"]
Inductive Command : Type :=
  mkCommand (use : string) (aliases : list string) (flags : list Flag)
    (body : option (PositionalArgs * RunE)) (subs : list Command).

Definition cmd_Use (c : Command) : string := let 'mkCommand u _ _ _ _ := c in u.
Definition cmd_Aliases (c : Command) : list string := let 'mkCommand _ a _ _ _ := c in a.
Definition cmd_Body (c : Command) : option (PositionalArgs * RunE) := let 'mkCommand _ _ _ b _ := c in b.
Definition Commands (c : Command) : list Command := let 'mkCommand _ _ _ _ s := c in s.
Definition AddCommand (c sub : Command) : Command := let 'mkCommand u a fl b s := c in mkCommand u a fl b (s ++ [sub]).

(** [args[i]]. *)
Definition arg (args : list string) (i : nat) : M W string :=
  match args !! i with
  | Some a => mret a
  | None => panic ("runtime error: index out of range [" ++s fmt_d (Z.of_nat i) ++s "] with length " ++s
                   fmt_d (Z.of_nat (length args)))
  end.

Variable default_registry : Registry W.
Variable colorEnabled : bool.

Section Tree.
Variable f : CliFactory W.

Definition newActionPendingCommand : Command :=
  mkCommand "pending" ["gates"] [] (Some (NoArgs, λ _ _, action_pending f)) [].
Definition newActionApproveCommand : Command :=
  mkCommand "approve <audit-name>" [] [mkFlag "reason" EmptyString EmptyString]
    (Some (ExactArgs 1, λ value args, name ← arg args 0; action_approve f name (value "reason"))) [].
Definition newActionDenyCommand : Command :=
  mkCommand "deny <audit-name>" [] [mkFlag "reason" EmptyString EmptyString]
    (Some (ExactArgs 1, λ value args, name ← arg args 0; action_deny f name (value "reason"))) [].
Definition newActionAuditCommand : Command :=
  mkCommand "audit" [] [mkFlag "since" EmptyString "1h"; mkFlag "policy" EmptyString EmptyString]
    (Some (NoArgs, λ value _, action_audit colorEnabled f (value "since") (value "policy"))) [].
Definition newActionHistoryCommand : Command :=
  mkCommand "history <policy>" [] []
    (Some (ExactArgs 1, λ _ args, name ← arg args 0; action_history colorEnabled f name)) [].
Definition newActionRevertCommand : Command :=
  mkCommand "revert <audit-name>" [] []
    (Some (ExactArgs 1, λ _ args, name ← arg args 0; action_revert f name)) [].

Definition newActionCommand : Command :=
  foldl AddCommand (mkCommand "action" ["actions"; "audit"] [] None [])
    [newActionAuditCommand; newActionHistoryCommand; newActionRevertCommand; newActionPendingCommand;
     newActionApproveCommand; newActionDenyCommand].

Definition newPolicyListCommand : Command := mkCommand "list" [] [] (Some (NoArgs, λ _ _, policy_list colorEnabled f)) [].
Definition newPolicyGetCommand : Command :=
  mkCommand "get <name>" [] [] (Some (ExactArgs 1, λ _ args, name ← arg args 0; policy_get colorEnabled f name)) [].
Definition newPolicyDescribeCommand : Command :=
  mkCommand "describe <name>" [] [] (Some (ExactArgs 1, λ _ args, name ← arg args 0; policy_describe colorEnabled f name)) [].
Definition newPolicyDryRunCommand : Command :=
  mkCommand "dry-run <file>" [] []
    (Some (ExactArgs 1, λ _ args, file ← arg args 0; policy_dry_run default_registry f file)) [].

Definition newPolicyCommand : Command :=
  foldl AddCommand (mkCommand "policy" ["policies"; "rp"] [] None [])
    [newPolicyListCommand; newPolicyGetCommand; newPolicyDescribeCommand; newPolicyDryRunCommand].

Definition newPluginListCommand : Command :=
  mkCommand "list" [] [] (Some (NoArgs, λ _ _, plugin_list default_registry f)) [].
Definition newPluginCommand : Command :=
  foldl AddCommand (mkCommand "plugin" ["plugins"] [] None []) [newPluginListCommand].

End Tree.

(** ** The root command *)

(** The values parsing leaves in the fields the persistent flags are bound to. *)
Record PersistentValues : Type := mkValues {
  pv_Namespace : string; pv_AllNamespaces : bool; pv_Output : string; pv_Kubeconfig : string }.

Definition PersistentFlags : list Flag :=
  [mkFlag "namespace" "n" EmptyString; mkFlag "all-namespaces" "A" "false"; mkFlag "output" "o" "table";
   mkFlag "kubeconfig" EmptyString EmptyString].

Section Client.
(** client-go's configuration loading, given an explicit path, and the client
    controller-runtime makes of a configuration. *)
Context {Config : Type}.
Variable ClientConfig : option string → error + Config.
Variable client_New : Config → option error.

Definition defaultClient (kubeconfig : string) : option error :=
  match ClientConfig (if decide (kubeconfig ≠ EmptyString) then Some kubeconfig else None) with
  | inl err => Some (wrapf "loading kubeconfig: " err)
  | inr cfg => client_New cfg
  end.

(** [Factory.client]: the injected constructor, or the kubeconfig's client. *)
Definition client (NewClient : option (option error)) (kubeconfig : string) : option error :=
  match NewClient with Some answer => answer | None => defaultClient kubeconfig end.

(** The factory of [NewRootCommand] once the flags are parsed: nothing injected. *)
Definition root_factory (pv : PersistentValues) : CliFactory W :=
  mkFactory (pv_Namespace pv) (pv_AllNamespaces pv) (pv_Output pv) (client None (pv_Kubeconfig pv)) None None.

Definition NewRootCommand (pv : PersistentValues) : Command :=
  let f := root_factory pv in
  foldl AddCommand (mkCommand "rp" [] PersistentFlags None [])
    [newPolicyCommand f; newActionCommand f; newPluginCommand f].

(** [main] (cmd/cli/main.go): what it writes to standard error and the exit
    code, by the answer of cobra's [Execute] on the tree. *)
Definition client_main (Execute : Command → option error) (pv : PersistentValues) : string * Z :=
  match Execute (NewRootCommand pv) with
  | Some err => ("Error: " ++s err_msg err ++s String (Ascii.ascii_of_nat 10) EmptyString, 1)
  | None => (EmptyString, 0)
  end.

End Client.
End Commands.

(** ** What a command may do *)

Section Theorems.
Context {W : Type} `{Cluster W} `{CliEnv W} `{PromAPI W} `{LocalZone} `{RuntimeScheme}.
Variable default_registry : Registry W.
Variable colorEnabled : bool.

(** A command is named by the first word of its usage line. *)
Fixpoint first_word (s : string) : string :=
  match s with
  | EmptyString => EmptyString
  | String c s => if Ascii.eqb c (Ascii.ascii_of_nat 32) then EmptyString else String c (first_word s)
  end.

(** What a command line may call a command. *)
Definition called (c : Command (W := W)) : list string := first_word (cmd_Use c) :: cmd_Aliases c.

(** The commands with a body, with the way to them. *)
Fixpoint runnable (path : list string) (c : Command (W := W)) : list (list string * (PositionalArgs * RunE (W := W))) :=
  let here := path ++ [cmd_Use c] in
  match cmd_Body c with Some b => [(here, b)] | None => [] end ++
  (let 'mkCommand _ _ _ _ subs := c in flat_map (runnable here) subs).

Fixpoint nodes (c : Command (W := W)) : list (Command (W := W)) :=
  c :: (let 'mkCommand _ _ _ _ subs := c in flat_map nodes subs).

Definition reads (e : IOEvent) : Prop :=
  match e with IoNow _ | IoGetPolicy _ _ | IoGetAudit _ _ | IoQuery _ _ => True | _ => False end.

(** A run that reads, and may end by updating the record [name] it read. *)
Definition updates (f : CliFactory W) (name : string) (change : ActionAudit → ActionAudit → Prop) (l : list IOEvent) : Prop :=
  Forall reads l ∨
  ∃ pre current sent r, l = pre ++ [IoUpdateAudit sent r] ∧ Forall reads pre ∧
    IoGetAudit (mkNN (namespace f) name) (inr current) ∈ pre ∧ change current sent.

Definition decides (decision : ApprovalDecision) (reason : string) (current sent : ActionAudit) : Prop :=
  ∃ gate, Gate (a_Spec current) = Some gate ∧ ApprovalPhase (a_Status current) = PhasePending ∧
    sent = set_Gate current (Some (set_Decision gate decision reason)).

Definition asks_revert (current sent : ActionAudit) : Prop :=
  Reverted (a_Status current) = false ∧ sent = set_RevertRequested current true.

(** What each command may change. *)
Definition may (f : CliFactory W) (path : list string) (value : string → string) (args : list string) (l : list IOEvent) : Prop :=
  match path, args with
  | ["rp"; "action"; "approve <audit-name>"], [name] => updates f name (decides DecisionApproved (value "reason")) l
  | ["rp"; "action"; "deny <audit-name>"], [name] => updates f name (decides DecisionDenied (value "reason")) l
  | ["rp"; "action"; "revert <audit-name>"], [name] => updates f name asks_revert l
  | _, _ => Forall reads l
  end.

Lemma decideGate_updates f name decision reason (st : St W) :
  wp (decideGate f name decision reason) st (λ _ l _, updates f name (decides decision reason) l).
Proof.
  unfold decideGate. destruct (f_ClientErr f); [wp_step; by left; constructor|].
  repeat wp_step. destruct a as [e|current]; [wp_step; left; by repeat constructor|].
  destruct (Gate (a_Spec current)) as [gate|] eqn:Hg; [|wp_step; left; by repeat constructor].
  case_decide as Hph; [wp_step; left; by repeat constructor|].
  repeat wp_step. case_decide; [wp_step; left; by repeat constructor|]. repeat wp_step.
  apply (wp_emits (λ _, False)); [emits|]. intros o l st' Hnil. destruct Hnil as [|? ? []]. right. simpl.
  eexists [_; _], current, _, _. split; [done|]. split; [by repeat constructor|]. split; [left|by exists gate].
Qed.

Lemma action_revert_updates f name (st : St W) :
  wp (action_revert f name) st (λ _ l _, updates f name asks_revert l).
Proof.
  unfold action_revert. destruct (f_ClientErr f); [wp_step; by left; constructor|].
  repeat wp_step. destruct a as [e|current]; [wp_step; left; by repeat constructor|].
  destruct (Reverted (a_Status current)) eqn:Hr; [wp_step; left; by repeat constructor|]. repeat wp_step.
  apply (wp_emits (λ _, False)); [emits|]. intros o l st' Hnil. destruct Hnil as [|? ? []]. right. simpl.
  eexists [_], current, _, _. split; [done|]. split; [by repeat constructor|]. split; [left|done].
Qed.

Lemma age_reads t : Emits reads (age (W := W) t).
Proof. unfold age. emits. done. Qed.
#[local] Hint Resolve age_reads : go.

Lemma listAudits_reads f policyName : Emits reads (listAudits f policyName).
Proof. unfold listAudits. emits. Qed.
#[local] Hint Resolve listAudits_reads : go.

Lemma print_or_reads f o (table : M W (list Out)) : Emits reads table → Emits reads (print_or f o table).
Proof. intros Ht. unfold print_or, printObject, ensureGVK. emits. Qed.

Lemma printAuditTable_reads f items : Emits reads (printAuditTable colorEnabled f items).
Proof. unfold printAuditTable, rows_of. emits. Qed.

Lemma printPendingTable_reads f items : Emits reads (printPendingTable f items).
Proof. unfold printPendingTable, rows_of. emits. done. Qed.

Lemma printHistoryTable_reads items : Emits reads (printHistoryTable (W := W) colorEnabled items).
Proof. unfold printHistoryTable, history_row, rows_of. emits. Qed.

Lemma printPolicyTable_reads f items : Emits reads (printPolicyTable colorEnabled f items).
Proof. unfold printPolicyTable, policy_row, rows_of. emits. Qed.

Lemma describePolicy_reads p : Emits reads (describePolicy (W := W) colorEnabled p).
Proof. unfold describePolicy. emits. Qed.

Lemma dryRun_reads f policy : Emits reads (dryRun default_registry f policy).
Proof. unfold dryRun, CallQuery. emits. done. Qed.

#[local] Hint Resolve print_or_reads printAuditTable_reads printPendingTable_reads printHistoryTable_reads
  printPolicyTable_reads describePolicy_reads dryRun_reads : go.

Lemma with_policy_reads f name table :
  (∀ p, Emits reads (table p)) → Emits reads (with_policy f name table).
Proof. intros Ht. unfold with_policy. emits. done. Qed.
#[local] Hint Resolve with_policy_reads : go.

(** C22. The command tree: no two siblings answer to one name or alias, so a
    command line names at most one command; and every command, on accepted
    arguments and whatever the flags and answers, only reads, except that
    approve and deny may end with one update of the record named by their
    argument, which was pending and changes in its decision and reason only,
    and revert with one that changes revertRequested only. *)
Theorem rp_changes_only_what_it_says {Config} (ClientConfig : option string → error + Config) client_New pv :
  let f := root_factory ClientConfig client_New pv in
  let root := NewRootCommand default_registry colorEnabled ClientConfig client_New pv in
  (∀ c, c ∈ nodes root → NoDup (flat_map called (Commands c))) ∧
  (∀ path rule run value args (st : St W),
     (path, (rule, run)) ∈ runnable [] root → args_ok rule args →
     wp (run value args) st (λ _ l _, may f path value args l)).
Proof.
  intros f root. split.
  { intros c Hc. unfold root, NewRootCommand in Hc. cbn in Hc. rewrite !elem_of_cons, elem_of_nil in Hc.
    destruct_or? Hc; try done; subst c; apply (bool_decide_eq_true_1 _); by_compute. }
  intros path rule run value args st Hin. unfold root, NewRootCommand in Hin. fold f in Hin. cbn in Hin.
  rewrite !elem_of_cons, elem_of_nil in Hin.
  destruct_or? Hin; try done; apply pair_eq in Hin as [-> Hin]; apply pair_eq in Hin as [-> ->]; simpl; intros Hargs;
    (subst args || (destruct args as [|name [|]]; try done; unfold arg; simpl; apply wp_bind, wp_ret));
    try first [apply decideGate_updates|apply action_revert_updates];
    apply (wp_emits reads); try done;
    unfold policy_list, policy_get, policy_describe, policy_dry_run, action_audit, action_history, action_pending, plugin_list; emits;
    done.
Qed.

End Theorems.

(** Witness: [rp -n prod action approve high-cpu-1 --reason confirmed]. *)
#[local] Instance no_prometheus : PromAPI World := {|
  papi := (); promapi_NewClient _ _ := inr tt; promapi_Query _ _ _ w := (inl (errorf "unreachable"), w) |}.
Definition pv_prod : PersistentValues := mkValues "prod" false "table" EmptyString.
Definition no_kubeconfig (path : option string) : error + () := inr tt.
Definition rp_root : Command (W := World) :=
  NewRootCommand NewRegistry false no_kubeconfig (λ _, None) pv_prod.
Definition rp_factory : CliFactory World := root_factory no_kubeconfig (λ _, None) pv_prod.
Definition approve_path : list string := ["rp"; "action"; "approve <audit-name>"].
Definition approve_body : RunE (W := World) := λ value args, name ← arg args 0; action_approve rp_factory name (value "reason").
Definition approve_reason (flag : string) : string := "confirmed".

Lemma rp_changes_only_what_it_says_witness :
  (approve_path, (ExactArgs 1, approve_body)) ∈ runnable [] rp_root ∧
  args_ok (ExactArgs 1) ["high-cpu-1"] ∧
  omap (λ e, match e with IoUpdateAudit a (inr _) => Gate (a_Spec a) | _ => None end)
    (log (approve_body approve_reason ["high-cpu-1"] (start (w_open EmptyString))).2) =
    from_option (λ g, [g]) [] (option_map (λ g, set_Decision g DecisionApproved "confirmed") (Gate (a_Spec (pending_audit EmptyString)))) ∧
  wp (approve_body approve_reason ["high-cpu-1"]) (start (w_open EmptyString))
    (λ _ l _, may rp_factory approve_path approve_reason ["high-cpu-1"] l).
Proof.
  assert ((approve_path, (ExactArgs 1, approve_body)) ∈ runnable [] rp_root) as Hin by (cbn; repeat (left || right)).
  split; [exact Hin|]. split; [done|]. split; [by_compute|].
  destruct (rp_changes_only_what_it_says NewRegistry false no_kubeconfig (λ _, None) pv_prod) as [_ Hmay].
  exact (Hmay approve_path (ExactArgs 1) approve_body approve_reason ["high-cpu-1"] (start (w_open EmptyString)) Hin eq_refl).
Defined.
