(* ===== verification/TestSupport.v ===== *)
(** * Test doubles: internal/action/testing/nop_plugin.go, internal/audit/sink/sinktest/recording.go

    [Nop], a plugin that counts its calls and fails on demand, and [Recording],
    a sink that keeps every batch.  Both are values of the interfaces the
    operator uses, so the tests' observations are facts about the runs the
    other files model. *)

From S2P Require Import Prelude GoLib GoTime Api ActionTypes Metrics Effects Registry.

(** ** The recording sink *)

Record Recording : Type := mkRecording {
  recording_triggers : list (list Event);
  recording_reverts : list (list RevertEvent);
  recording_closed : bool;
  FailNext : option error }.

Definition recording_New : Recording := mkRecording [] [] false None.

(** Every method holds the mutex, so it is one step; batches are copied. *)
Definition recording_RecordTrigger (events : list Event) (r : Recording) : option error * Recording :=
  match FailNext r with
  | Some err => (Some err, mkRecording (recording_triggers r) (recording_reverts r) (recording_closed r) None)
  | None => (None, mkRecording (recording_triggers r ++ [events]) (recording_reverts r) (recording_closed r) None)
  end.
Definition recording_RecordRevert (events : list RevertEvent) (r : Recording) : option error * Recording :=
  (None, mkRecording (recording_triggers r) (recording_reverts r ++ [events]) (recording_closed r) (FailNext r)).
Definition recording_Close (r : Recording) : option error * Recording :=
  (None, mkRecording (recording_triggers r) (recording_reverts r) true (FailNext r)).

Definition recording_Triggers (r : Recording) : list (list Event) := recording_triggers r.
Definition recording_Reverts (r : Recording) : list (list RevertEvent) := recording_reverts r.
Definition recording_Closed (r : Recording) : bool := recording_closed r.
Definition ErrInjected : error := errorf "sinktest: injected failure".

(** The interface value, for a world that holds the sink. *)
Section AsSink.
Context {W : Type} (get : W → Recording) (put : Recording → W → W).
Definition lift_recording (f : Recording → option error * Recording) (w : W) : option error * W :=
  let '(err, r) := f (get w) in (err, put r w).
Definition recording_sink : Sink W :=
  mkSink (λ evs, lift_recording (recording_RecordTrigger evs)) (λ evs, lift_recording (recording_RecordRevert evs))
    (lift_recording recording_Close).
End AsSink.

(** After any calls the sink holds the accepted batches in order: all of them,
    but for the first after [FailNext] was set. *)
Fixpoint record_all (l : list (list Event)) (r : Recording) : list (option error) * Recording :=
  match l with
  | [] => ([], r)
  | evs :: l => let '(err, r) := recording_RecordTrigger evs r in
                let '(errs, r) := record_all l r in (err :: errs, r)
  end.

Lemma record_all_accepted l r : FailNext r = None →
  record_all l r = (replicate (length l) None,
                    mkRecording (recording_triggers r ++ l) (recording_reverts r) (recording_closed r) None).
Proof.
  revert r. induction l as [|evs l IH]; intros r Hr; simpl.
  - rewrite app_nil_r. destruct r; simpl in *; by subst.
  - unfold recording_RecordTrigger. rewrite Hr, IH by done. simpl. by rewrite <- app_assoc.
Qed.

Lemma record_all_fails_once err evs l r : FailNext r = Some err →
  recording_Triggers (record_all (evs :: l) r).2 = recording_Triggers r ++ l ∧
  (record_all (evs :: l) r).1 = Some err :: replicate (length l) None.
Proof.
  intros Hr. simpl. unfold recording_RecordTrigger. rewrite Hr, record_all_accepted by done. done.
Qed.

(** ** The no-op plugin *)

Record Nop : Type := mkNop {
  nop_name : string;
  nop_description : string;
  nop_reversible : bool;
  ValidateErr : option error;
  ExecuteErr : option error;
  ReverseErr : option error;
  Permissions : list PolicyRule;
  executeCount : Z;
  reverseCount : Z }.

Definition NewNop (n : string) : Nop := mkNop n "no-op test plugin" true None None None [] 0 0.
Definition SetReversible (p : Nop) (v : bool) : Nop :=
  mkNop (nop_name p) (nop_description p) v (ValidateErr p) (ExecuteErr p) (ReverseErr p) (Permissions p)
    (executeCount p) (reverseCount p).

(** [atomic.AddInt64(&n.executeCount, 1)]. *)
Definition count_execute (p : Nop) : Nop :=
  mkNop (nop_name p) (nop_description p) (nop_reversible p) (ValidateErr p) (ExecuteErr p) (ReverseErr p) (Permissions p)
    (int64 (executeCount p + 1)) (reverseCount p).
Definition count_reverse (p : Nop) : Nop :=
  mkNop (nop_name p) (nop_description p) (nop_reversible p) (ValidateErr p) (ExecuteErr p) (ReverseErr p) (Permissions p)
    (executeCount p) (int64 (reverseCount p + 1)).

Definition nop_Validate (p : Nop) (_ : Params) : option error := ValidateErr p.

(** [clock] is what [time.Now] reads. *)
Definition nop_Execute (inp : ExecuteInput) (clock : Time) (p : Nop) : (Result * option error) * Nop :=
  let p := count_execute p in
  match ExecuteErr p with
  | Some err =>
      (mkResult EmptyString (nop_name p) (mkTarget EmptyString EmptyString EmptyString EmptyString) zero_Time
         StatusFailed (err_msg err) None, Some err, p)
  | None =>
      (mkResult EmptyString (nop_name p) (in_Target inp) clock StatusSucceeded "nop executed" None, None, p)
  end.
Definition nop_Reverse (_ : Result) (p : Nop) : option error * Nop :=
  let p := count_reverse p in (ReverseErr p, p).

Definition ExecuteCount (p : Nop) : Z := executeCount p.
Definition ReverseCount (p : Nop) : Z := reverseCount p.

(** The interface value, for a world that holds the plugin: its metadata is
    read when the registry asks, here of the plugin [p] it was registered as. *)
Section AsAction.
Context {W : Type} `{Cluster W} (get : W → Nop) (put : Nop → W → W) (p : Nop).
Definition nop_action : Action W :=
  mkAction (nop_name p) (nop_description p) (nop_Validate p)
    (λ _ inp w, let '(clock, w) := match ExecuteErr (get w) with Some _ => (zero_Time, w) | None => sys_Now w end in
                let '(res, q) := nop_Execute inp clock (get w) in (res, put q w))
    (λ _ prev w, let '(err, q) := nop_Reverse prev (get w) in (err, put q w))
    (nop_reversible p) (Permissions p).

(** [NewFakeRegistry]. *)
Definition NewFakeRegistry (plugins : list (Action W)) : outcome (Registry W) := register_all NewRegistry plugins.
End AsAction.

Definition MockTarget (kind n : string) : Target := mkTarget "apps/v1" kind n "default".

(** The plugin fails exactly as told, and each call is counted once. *)
Lemma execute_as_told inp clock p :
  let '(res, err, q) := nop_Execute inp clock p in
  err = ExecuteErr p ∧ PluginName res = nop_name p ∧ (Status res = StatusFailed ↔ err ≠ None) ∧
  ExecuteCount q = int64 (ExecuteCount p + 1) ∧ ReverseCount q = ReverseCount p.
Proof. unfold nop_Execute. simpl. destruct (ExecuteErr p) as [e|]; split_and!; try done; by split. Qed.
