(* ===== verification/SinkTheorems.v ===== *)
(** * Theorems about the audit sink

    Nothing that was accepted is lost, reordered or written twice; the queue
    is bounded; [Close] drains. *)

From S2P Require Import Prelude GoLib GoTime Api ActionTypes Sink.

(** ** What was accepted *)

Definition accepted_item (l : sink_label) : option workItem :=
  match l with
  | LTrigger (e :: es) None => Some (mkItem (e :: es) [])
  | LRevert (e :: es) None => Some (mkItem [] (e :: es))
  | _ => None
  end.

Definition accepted (ls : list sink_label) : list workItem := omap accepted_item ls.

Definition in_flight (s : SinkState) : list workItem := match wk s with Busy i => [i] | _ => [] end.

(** The invariant: every accepted batch is, in order, written, being written
    or queued; the queue respects its capacity; a stopped worker left nothing
    behind; the writer is closed only after the worker stopped. *)
Record sink_ok (s0 : SinkState) (ls : list sink_label) (s : SinkState) : Prop := {
  ok_capacity : capacity s = capacity s0;
  ok_bounded : (length (queue s) <= capacity s)%nat;
  ok_fifo : accepted ls = written s ++ in_flight s ++ queue s;
  ok_stopped : wk s = Stopped → closed s = true ∧ queue s = [];
  ok_writer : writerClosed s = true → wk s = Stopped }.

Lemma accepted_snoc ls l : accepted (ls ++ [l]) = accepted ls ++ option_list (accepted_item l).
Proof. unfold accepted. rewrite omap_app. simpl. by destruct (accepted_item l). Qed.

Lemma try_send_ok s item r s' :
  try_send s item = (Val r, s') →
  closed s = false ∧
  (r = None ∧ s' = with_queue s (queue s ++ [item]) ∧ (length (queue s) < capacity s)%nat ∨
   r = Some (sentinel_error ErrBackpressure) ∧ s' = s ∧ (capacity s <= length (queue s))%nat).
Proof.
  unfold try_send. destruct (closed s); [done|]. case_decide; intros [= <- <-]; split; try done; [left|right]; split_and!; try done; lia.
Qed.

(** A stopped worker implies a closed channel, on which no send succeeds. *)
Lemma send_ok s0 ls s item r s' l :
  sink_ok s0 ls s → try_send s item = (Val r, s') →
  accepted_item l = (match r with None => Some item | Some _ => None end) → sink_ok s0 (ls ++ [l]) s'.
Proof.
  intros Hok Hs Hl. apply try_send_ok in Hs as [Hc [(-> & -> & Hlt)|(-> & -> & _)]]; destruct Hok;
    constructor; rewrite ?accepted_snoc, ?Hl; simpl; rewrite ?app_nil_r; try done.
  - rewrite length_app. simpl. lia.
  - rewrite ok_fifo0. unfold in_flight. simpl. by rewrite <- !app_assoc.
  - intros Hst. apply ok_stopped0 in Hst as [? _]. congruence.
Qed.

Lemma quiet_label_ok s0 ls s l : accepted_item l = None → sink_ok s0 ls s → sink_ok s0 (ls ++ [l]) s.
Proof.
  intros Hl []. constructor; try done. by rewrite accepted_snoc, Hl, app_nil_r.
Qed.

Lemma worker_step_ok s0 ls s s' : sink_ok s0 ls s → worker_step s = Some s' → sink_ok s0 (ls ++ [LWorker]) s'.
Proof.
  intros [] Hw. unfold worker_step in Hw. unfold in_flight in *.
  destruct (wk s) eqn:Hwk; [destruct (queue s) as [|item q] eqn:Hq; [destruct (closed s) eqn:Hc|]|..]; simplify_eq;
    constructor; rewrite ?accepted_snoc; simpl in *; rewrite ?app_nil_r; try done; try lia.
  all: try (intros Hw; apply ok_writer0 in Hw; congruence).
  all: by rewrite ok_fifo0, <- ?app_assoc, ?app_nil_r.
Qed.

Lemma sink_step_ok s0 ls s l s' : sink_ok s0 ls s → sink_step s l s' → sink_ok s0 (ls ++ [l]) s'.
Proof.
  intros Hok Hstep. destruct Hstep as [s events r s' Hs|s events r s' Hs|s s' Hw|s|s ctx_done r s' Hc Hs].
  - destruct events as [|e es]; simpl in Hs; simplify_eq; [by apply quiet_label_ok|].
    eapply send_ok; [done..|]. by destruct r.
  - destruct events as [|e es]; simpl in Hs; simplify_eq; [by apply quiet_label_ok|].
    eapply send_ok; [done..|]. by destruct r.
  - by eapply worker_step_ok.
  - apply quiet_label_ok; [done|]. destruct Hok. constructor; try done. intros Hst. split; [done|]. by apply ok_stopped0.
  - apply quiet_label_ok; [done|]. unfold close_wait in Hs. destruct Hok.
    destruct (wk s) eqn:Hwk, ctx_done; simplify_eq; constructor; try done; intros; simpl in *; try (split; [done|]);
      unfold in_flight in *; rewrite ?Hwk in *; naive_solver.
Qed.

Lemma sink_run_ok size ls s : sink_run (newSink size) ls s → sink_ok (newSink size) ls s.
Proof.
  induction 1 as [|ls s l s' _ IH Hstep]; [|by eapply sink_step_ok].
  constructor; simpl; try done. lia.
Qed.

(** The number of moves the worker still has to make once the channel is closed. *)
Definition work_left (s : SinkState) : nat :=
  match wk s with Stopped => 0 | Idle => 2 * length (queue s) + 1 | Busy _ => 2 * length (queue s) + 2 end.

Fixpoint worker_steps (n : nat) (s : SinkState) : SinkState :=
  match n with
  | O => s
  | S n' => match worker_step s with Some s' => worker_steps n' s' | None => s end
  end.

Lemma worker_progress s : closed s = true → wk s ≠ Stopped →
  ∃ s', worker_step s = Some s' ∧ closed s' = true ∧ S (work_left s') = work_left s.
Proof.
  intros Hc Hw. unfold worker_step, work_left.
  destruct (wk s) eqn:Hwk; [destruct (queue s) eqn:Hq; [rewrite Hc|]|..]; try done; eexists; (split; [done|]);
    simpl; rewrite ?Hq, ?Hwk; (split; [done|]); simpl; lia.
Qed.

Lemma worker_steps_run s0 ls s n : sink_run s0 ls s → ∃ ls', sink_run s0 (ls ++ ls') (worker_steps n s) ∧ accepted ls' = [].
Proof.
  revert ls s. induction n as [|n IH]; intros ls s Hr; simpl.
  { exists []. by rewrite app_nil_r. }
  destruct (worker_step s) as [s'|] eqn:Hw; [|exists []; by rewrite app_nil_r].
  destruct (IH (ls ++ [LWorker]) s') as (ls' & Hr' & Ha); [by eapply sink_run_snoc, step_worker|].
  exists (LWorker :: ls'). by rewrite <- app_assoc in Hr'.
Qed.

Lemma worker_stops s : closed s = true → wk (worker_steps (work_left s) s) = Stopped.
Proof.
  remember (work_left s) as n eqn:Hn. revert s Hn. induction n as [|n IH]; intros s Hn Hc; simpl.
  - unfold work_left in Hn. destruct (wk s); [lia..|done].
  - destruct (decide (wk s = Stopped)) as [Hw|Hw]; [unfold work_left in Hn; by rewrite Hw in Hn|].
    destruct (worker_progress s Hc Hw) as (s' & -> & Hc' & Hn'). apply IH; [lia|done].
Qed.

(** A [Close] that returned nil saw the worker stopped, and it stays stopped. *)
Lemma stopped_step s l s' : sink_step s l s' → wk s = Stopped → wk s' = Stopped.
Proof.
  intros Hstep Hw. destruct Hstep as [s events r s' Hs|s events r s' Hs|s s' Hs|s|s ctx_done r s' Hc Hs].
  - destruct events; simpl in Hs; simplify_eq; [done|]. by apply try_send_ok in Hs as [_ [(_ & -> & _)|(_ & -> & _)]].
  - destruct events; simpl in Hs; simplify_eq; [done|]. by apply try_send_ok in Hs as [_ [(_ & -> & _)|(_ & -> & _)]].
  - unfold worker_step in Hs. by rewrite Hw in Hs.
  - done.
  - unfold close_wait in Hs. rewrite Hw in Hs. by destruct ctx_done; simplify_eq.
Qed.

Lemma closed_stopped s0 ls s : sink_run s0 ls s → LClosed None ∈ ls → wk s = Stopped ∧ writerClosed s = true.
Proof.
  induction 1 as [|ls s l s' _ IH Hstep]; [by intros ?%elem_of_nil|].
  intros [Hin|Hin]%elem_of_app.
  - destruct (IH Hin) as [Hw Hwc]. split; [by eapply stopped_step|].
    destruct Hstep as [s events r s' Hs|s events r s' Hs|s s' Hs|s|s ctx_done r s' Hc Hs]; [..|done|].
    + destruct events; simpl in Hs; simplify_eq; [done|]. by apply try_send_ok in Hs as [_ [(_ & -> & _)|(_ & -> & _)]].
    + destruct events; simpl in Hs; simplify_eq; [done|]. by apply try_send_ok in Hs as [_ [(_ & -> & _)|(_ & -> & _)]].
    + unfold worker_step in Hs. by rewrite Hw in Hs.
    + unfold close_wait in Hs. rewrite Hw in Hs. by destruct ctx_done; simplify_eq.
  - apply list_elem_of_singleton in Hin as <-. inversion Hstep as [| | | |? ctx_done ? ? Hc Hs]; subst.
    unfold close_wait in Hs. by destruct (wk s), ctx_done; simplify_eq.
Qed.



(** ** Witnesses *)

Definition an_event (i : Z) : Event :=
  mkEvent "uid" "audit" "prod" "high-cpu" "uid-p" 0 "0.9" i "id" "annotate" EmptyString EmptyString "prod" EmptyString
    "Succeeded" EmptyString true None.

(** A queue of one: the first batch is accepted and taken, the second queued,
    the third refused; then the channel is closed. *)
Definition sink_labels : list sink_label :=
  [LTrigger [an_event 0] None; LWorker; LTrigger [an_event 1] None;
   LTrigger [an_event 2] (Some (sentinel_error ErrBackpressure)); LClose].

Definition sink_state : SinkState :=
  mkSinkState 1 [mkItem [an_event 1] []] true (Busy (mkItem [an_event 0] [])) [] false.

Lemma sink_labels_run : sink_run (newSink 1) sink_labels sink_state.
Proof.
  pose proof (sink_run_nil (newSink 1)) as Hr.
  eapply sink_run_snoc in Hr; [|by eapply (step_trigger _ [an_event 0])].
  eapply sink_run_snoc in Hr; [|by eapply step_worker].
  eapply sink_run_snoc in Hr; [|by eapply (step_trigger _ [an_event 1])].
  eapply sink_run_snoc in Hr; [|by eapply (step_trigger _ [an_event 2])].
  eapply sink_run_snoc in Hr; [|by eapply step_close].
  exact Hr.
Qed.


