(* ===== verification/SinkRows.v ===== *)
(** * The rows of the Postgres sink mirror the records

    The tables of schema.sql under the writer's INSERT ... ON CONFLICT DO
    NOTHING, and the record indices the reconcilers assign, which are the keys.
    A release sends a record again with more actions; whatever is sent again,
    the rows are those of the longest record sent. *)

From S2P Require Import Prelude GoLib FloatLib GoTime Api ActionTypes Metrics Effects Logic Evaluator Limiter Registry Executor AuditWriter PolicyController AuditController Sink Fake.

(** ** Tables *)

(** A row of action_executions: UNIQUE (audit_uid, action_index). *)
Definition Row : Type := Event * option RawJSON.
Definition row_key (r : Row) : string * Z := (ev_AuditUID r.1, ev_ActionIndex r.1).
Definition execution_row (e : Event) : Row :=
  match execution_stmt e with InsertExecution e details => (e, details) | InsertRevert _ => (e, None) end.

(** INSERT ... ON CONFLICT (audit_uid, action_index) DO NOTHING. *)
Definition insertExecution (t : list Row) (r : Row) : list Row :=
  if decide (row_key r ∈ row_key <$> t) then t else t ++ [r].

(** A batch that commits. *)
Definition deliver (t : list Row) (events : list Event) : list Row := foldl insertExecution t (execution_row <$> events).

(** The rows of revert_outcomes: the same key, the same clause. *)
Definition revert_key (e : RevertEvent) : string * Z := (re_AuditUID e, re_ActionIndex e).
Definition insertRevert (t : list RevertEvent) (e : RevertEvent) : list RevertEvent :=
  if decide (revert_key e ∈ revert_key <$> t) then t else t ++ [e].
Definition deliver_reverts (t : list RevertEvent) (events : list RevertEvent) : list RevertEvent := foldl insertRevert t events.

(** The first outcome delivered of an action is the one kept: a row once there
    stays, keys stay unique, every event delivered has its row. *)
Lemma reverts_first_kept t events :
  NoDup (revert_key <$> t) →
  let t' := deliver_reverts t events in
  t `prefix_of` t' ∧ NoDup (revert_key <$> t') ∧ ∀ e, e ∈ events → revert_key e ∈ revert_key <$> t'.
Proof.
  unfold deliver_reverts. revert t. induction events as [|e events IH]; intros t Hnd; simpl.
  { split_and!; [done..|]. by intros e ?%elem_of_nil. }
  assert (t `prefix_of` insertRevert t e ∧ NoDup (revert_key <$> insertRevert t e) ∧
          revert_key e ∈ revert_key <$> insertRevert t e) as (Hp & Hn & He).
  { unfold insertRevert. case_decide; [done|]. rewrite fmap_app. split_and!; [by eexists| |rewrite elem_of_app; right; left].
    apply NoDup_app; split_and!; [done| |apply NoDup_singleton]; intros k Hk ->%list_elem_of_singleton; done. }
  destruct (IH _ Hn) as (Hp' & Hn' & Hall). split_and!; [by etrans|done|].
  intros e' [->|Hin]%elem_of_cons; [|by apply Hall].
  destruct Hp' as [k ->]. rewrite fmap_app. apply elem_of_app. by left.
Qed.

(** ** Indices *)

Definition indexed_from (n : nat) (l : list ActionRecord) : Prop :=
  ∀ i rec, l !! i = Some rec → rec_Index rec = Z.of_nat (n + i).
Definition indexed : list ActionRecord → Prop := indexed_from 0.

Lemma indexed_from_app n l k : indexed_from n l → indexed_from (n + length l) k → indexed_from n (l ++ k).
Proof.
  intros Hl Hk i rec Hi. apply lookup_app_Some in Hi as [Hi|[Hge Hi]]; [by apply Hl|].
  rewrite (Hk _ _ Hi). f_equal. lia.
Qed.

Lemma int32_small z : 0 <= z < 2147483648 → int32 z = z.
Proof. intros Hz. unfold int32. apply wrap_id; [done|]. unfold in_range. lia. Qed.

Section Indices.
Context {W : Type} `{DetailsCodec}.
Variable exec : Registry W.

Lemma indexed_to_records n results :
  Z.of_nat (n + length results) <= 2147483648 → indexed_from n (to_records exec (Z.of_nat n) results).
Proof.
  intros Hlen i rec Hi. unfold to_records in Hi. rewrite list_lookup_imap in Hi.
  apply fmap_Some in Hi as (r & Hr & ->). simpl. apply lookup_lt_Some in Hr. rewrite int32_small by lia. lia.
Qed.

Lemma indexed_skipped n message plugins :
  Z.of_nat (n + length plugins) <= 2147483648 → indexed_from n (skipped_records (Z.of_nat n) message plugins).
Proof.
  intros Hlen i rec Hi. unfold skipped_records in Hi. rewrite list_lookup_imap in Hi.
  apply fmap_Some in Hi as (r & Hr & ->). simpl. apply lookup_lt_Some in Hr. rewrite int32_small by lia. lia.
Qed.

End Indices.

(** ** Rows of one record *)

Section Rows.
Variable uid : string.
Definition of_uid (r : Row) : Prop := ev_AuditUID r.1 = uid.
#[export] Instance of_uid_dec r : Decision (of_uid r).
Proof. unfold of_uid. apply _. Defined.

Lemma insert_other (t : list Row) r : ¬ of_uid r → filter of_uid (insertExecution t r) = filter of_uid t.
Proof.
  intros Hr. unfold insertExecution. case_decide; [done|].
  rewrite filter_app, filter_cons_False, filter_nil by done. by rewrite app_nil_r.
Qed.

Lemma deliver_other t events :
  Forall (λ e, ev_AuditUID e ≠ uid) events → filter of_uid (deliver t events) = filter of_uid t.
Proof.
  unfold deliver. revert t. induction events as [|e events IH]; intros t Hall; [done|].
  apply Forall_cons in Hall as [He Hall]. simpl. rewrite IH by done. by apply insert_other.
Qed.

(** Rows of [uid] have its keys. *)
Lemma key_filter (t : list Row) r : of_uid r → row_key r ∈ row_key <$> t ↔ row_key r ∈ row_key <$> filter of_uid t.
Proof.
  intros Hr. rewrite !list_elem_of_fmap. split; intros (r' & Hk & Hin); exists r'; (split; [done|]).
  - apply list_elem_of_filter. split; [|done]. unfold of_uid in *. by injection Hk as <- _.
  - by apply list_elem_of_filter in Hin as [_ Hin].
Qed.

(** [rows !! i] is the row of index [i]. *)
Definition in_order (rows : list Row) : Prop :=
  ∀ i r, rows !! i = Some r → of_uid r ∧ ev_ActionIndex r.1 = Z.of_nat i.

Lemma in_order_key rows n r :
  in_order rows → rows !! n = Some r → ∀ m, (m <= length rows)%nat → row_key r ∈ row_key <$> take m rows ↔ (n < m)%nat.
Proof.
  intros Ho Hn m Hm. rewrite list_elem_of_fmap. split.
  - intros (r' & Hk & [j Hj]%list_elem_of_lookup). apply lookup_take_Some in Hj as [Hj Hjm].
    destruct (Ho _ _ Hn) as [_ Hi]. destruct (Ho _ _ Hj) as [_ Hi'].
    injection Hk as _ Hk. lia.
  - intros Hlt. exists r. split; [done|]. apply list_elem_of_lookup. exists n. by apply lookup_take_Some.
Qed.

(** One more row of a prefix. *)
Lemma insert_next t rows n m r :
  in_order rows → rows !! n = Some r → (n <= m <= length rows)%nat → filter of_uid t = take m rows →
  filter of_uid (insertExecution t r) = take (m `max` S n) rows.
Proof.
  intros Ho Hn Hm Ht. destruct (Ho _ _ Hn) as [Hr _]. unfold insertExecution.
  pose proof (in_order_key rows n r Ho Hn m ltac:(lia)) as Hkey. rewrite <- Ht, <- key_filter in Hkey by done.
  case_decide as Hin.
  - apply Hkey in Hin. by rewrite Nat.max_l by lia.
  - assert (m = n) as -> by (assert (¬ (n < m)%nat) by tauto; lia). rewrite Nat.max_r by lia.
    rewrite filter_app, filter_cons_True, filter_nil, Ht by done. by rewrite (take_S_r _ _ _ Hn).
Qed.

(** Delivering a prefix, whatever part of it is there already. *)
Lemma deliver_prefix t rows m events :
  in_order rows → (m <= length rows)%nat → filter of_uid t = take m rows → execution_row <$> events `prefix_of` rows →
  filter of_uid (deliver t events) = take (m `max` length events) rows.
Proof.
  intros Ho Hm Ht. unfold deliver. induction events as [|e events IH] using rev_ind; intros Hpre.
  { simpl. by rewrite Nat.max_l by lia. }
  rewrite fmap_app in Hpre |- *. rewrite foldl_app, length_app. simpl.
  assert (rows !! length events = Some (execution_row e)) as He.
  { eapply prefix_lookup_Some; [|exact Hpre]. rewrite lookup_app_r by (by rewrite length_fmap). by rewrite length_fmap, Nat.sub_diag. }
  pose proof (lookup_lt_Some _ _ _ He) as Hlt.
  rewrite (insert_next _ rows (length events) (m `max` length events) _ Ho He); [|lia|].
  - f_equal. lia.
  - apply IH. by apply prefix_app_l in Hpre.
Qed.

Lemma deliver_all rows t m ds :
  in_order rows → (m <= length rows)%nat → filter of_uid t = take m rows →
  Forall (λ d, execution_row <$> d `prefix_of` rows ∨ Forall (λ e, ev_AuditUID e ≠ uid) d) ds →
  ∃ m', (m <= m' <= length rows)%nat ∧ filter of_uid (foldl deliver t ds) = take m' rows ∧
    ∀ d, d ∈ ds → execution_row <$> d `prefix_of` rows → (length d <= m')%nat.
Proof.
  intros Ho. revert t m. induction ds as [|d ds IH]; intros t m Hm Ht Hds; simpl.
  { exists m. split_and!; [lia|done|done|by intros d ?%elem_of_nil]. }
  apply Forall_cons in Hds as [Hd Hds].
  assert (∃ m1, (m <= m1 <= length rows)%nat ∧ filter of_uid (deliver t d) = take m1 rows ∧
    (execution_row <$> d `prefix_of` rows → (length d <= m1)%nat)) as (m1 & Hm1 & Ht1 & Hd1).
  { destruct Hd as [Hp|Hother].
    - exists (m `max` length d)%nat. rewrite (deliver_prefix _ rows m) by done.
      pose proof (prefix_length _ _ Hp) as Hlen. rewrite length_fmap in Hlen. split_and!; [lia..|done|lia].
    - exists m. rewrite deliver_other by done. split_and!; [lia..|done|]. intros [k Hk].
      destruct Hother as [|e d He _]; [simpl; lia|]. exfalso.
      apply He. apply (Ho 0%nat (execution_row e)). by rewrite Hk. }
  destruct (IH _ m1 (proj2 Hm1) Ht1 Hds) as (m' & Hm' & Ht' & Hd'). exists m'. split_and!; [lia..|done|].
  intros d' [->|Hin]%elem_of_cons Hp; [specialize (Hd1 Hp); lia|by apply Hd'].
Qed.

End Rows.

(** The columns an event takes from its record's header. *)
Definition same_record (a b : ActionAudit) : Prop :=
  UID (a_Meta a) = UID (a_Meta b) ∧ Name (a_Meta a) = Name (a_Meta b) ∧ Namespace (a_Meta a) = Namespace (a_Meta b) ∧
  PolicyRef (a_Spec a) = PolicyRef (a_Spec b) ∧ PolicyUID (a_Spec a) = PolicyUID (a_Spec b) ∧
  TriggeredAt (a_Spec a) = TriggeredAt (a_Spec b) ∧ MetricValue (a_Spec a) = MetricValue (a_Spec b).

(** An earlier version of a record. *)
Definition earlier (a b : ActionAudit) : Prop :=
  same_record a b ∧ AuditActions (a_Spec a) `prefix_of` AuditActions (a_Spec b).

Lemma earlier_events a b : earlier a b → buildSinkEvents a `prefix_of` buildSinkEvents b.
Proof.
  intros [(Hu & Hn & Hns & Hp & Hpu & Ht & Hv) [k Hk]]. unfold buildSinkEvents. rewrite Hk, fmap_app.
  exists (sink_event b <$> k). f_equal. apply list_fmap_ext. intros i rec _. unfold sink_event. congruence.
Qed.

Lemma execution_row_event e : (execution_row e).1 = e.
Proof. done. Qed.

Lemma rows_in_order a : indexed (AuditActions (a_Spec a)) → in_order (UID (a_Meta a)) (execution_row <$> buildSinkEvents a).
Proof.
  intros Hi i r Hr. unfold buildSinkEvents in Hr. rewrite <- list_fmap_compose, list_lookup_fmap in Hr.
  apply fmap_Some in Hr as (rec & Hrec & ->). split; [done|]. simpl. by rewrite (Hi _ _ Hrec).
Qed.

(** ** What the reconcilers write *)

Section Reconcilers.
Context {W : Type} `{Cluster W} `{LocalZone} `{DetailsCodec}.
Variable prometheus : Factory W.
Variable exec : Registry W.
Variable sink : option (Sink W).

(** A record created holds the records of some results. *)
Definition creates_records (e : IOEvent) : Prop :=
  match e with IoCreateAudit a _ => ∃ results, AuditActions (a_Spec a) = to_records exec 0 results | _ => True end.

(** Once [cur] was read: a record updated holds what it held and records of
    results or skips; no other record is read. *)
Definition appends_records (cur : ActionAudit) (e : IOEvent) : Prop :=
  match e with
  | IoUpdateAudit a _ =>
      same_record cur a ∧ ∃ more, AuditActions (a_Spec a) = AuditActions (a_Spec cur) ++ more ∧
        let n := Z.of_nat (length (AuditActions (a_Spec cur))) in
        ((∃ results, more = to_records exec n results) ∨ ∃ message plugins, more = skipped_records n message plugins)
  | IoGetAudit _ _ => False
  | _ => True
  end.

Lemma closeGate_appends cur phase reason message expiry :
  Emits (appends_records cur) (closeGate cur phase reason message expiry (W := W)).
Proof.
  unfold closeGate, set_audit_condition, startCooldown. emits; try done.
  split; [done|]. eexists. split; [done|]. right. by eexists _, _.
Qed.
#[local] Hint Resolve closeGate_appends : go.

Lemma run_targets_appends cur ctx policy mv from to targets :
  Emits (appends_records cur) (run_targets exec ctx policy mv from to targets).
Proof. eapply Emits_mono; [apply Emits_run_targets|]. by intros []. Qed.

Lemma run_targets_creates ctx policy mv from to targets :
  Emits creates_records (run_targets exec ctx policy mv from to targets).
Proof. eapply Emits_mono; [apply Emits_run_targets|]. by intros []. Qed.
#[local] Hint Resolve run_targets_appends run_targets_creates : go.

Lemma releaseGate_appends cur ctx gate expiry : Emits (appends_records cur) (releaseGate exec sink ctx cur gate expiry).
Proof.
  unfold releaseGate, set_audit_condition, startCooldown, forward_trigger. emits; try done.
  split; [done|]. eexists. split; [done|]. left. by eexists.
Qed.
#[local] Hint Resolve releaseGate_appends : go.

Lemma audit_Reconcile_appends ctx nn st :
  wp (AuditController.Reconcile exec sink ctx nn) st (λ _ l _, ∀ cur e,
    IoGetAudit nn (inr cur) ∈ l → e ∈ l → e = IoGetAudit nn (inr cur) ∨ appends_records cur e).
Proof.
  unfold AuditController.Reconcile. wp_step. unfold_calls. apply wp_call. intros [err|cur] w Hw.
  - apply (wp_emits (λ _, False)); [emits|]. intros o l st' Hl cur e Hin _. destruct Hl as [|? ? []].
    by apply list_elem_of_singleton in Hin.
  - apply (wp_emits (appends_records cur)).
    { unfold retentionFor, resolveGate, revert, reverseOne, set_audit_condition. emits; done. }
    intros o l st' Hl cur' e Hin He. rewrite Forall_forall in Hl.
    apply elem_of_cons in Hin as [[= ->]|Hin]; [|by destruct (Hl _ Hin)].
    apply elem_of_cons in He as [->|He]; [by left|right; by apply Hl].
Qed.

Lemma policy_Reconcile_creates ctx nn : Emits creates_records (PolicyController.Reconcile prometheus exec sink ctx nn).
Proof.
  unfold PolicyController.Reconcile, gate0, gate1, gate2, evaluate, trigger, trigger_gated, trigger_ungated, writeAudit,
    writeGatedAudit, forward_trigger, setCondition, requeue, gateStillOpen, resolveTargets, list_kind, Allowed,
    limiter_count, limiter_Observe, limiter_Forget, Window_Forget, Window_Observe, CallQuery.
  emits; try done; by eexists.
Qed.

(** C24. The rows of the sink mirror the record: a record is created with the
    indices 0, 1, ... in order, every later write of it appends and goes on
    counting, so no two actions share a key of the table; and once the latest
    version of a record was delivered, its rows are exactly its actions in
    order, whatever earlier versions were delivered before or after, however
    often, and whatever other records' batches came between. *)
Theorem rows_mirror_record :
  (∀ ctx nn (st : St W), wp (PolicyController.Reconcile prometheus exec sink ctx nn) st (λ _ l _, ∀ a r,
     IoCreateAudit a r ∈ l → Z.of_nat (length (AuditActions (a_Spec a))) <= 2147483648 → indexed (AuditActions (a_Spec a)))) ∧
  (∀ ctx nn (st : St W), wp (AuditController.Reconcile exec sink ctx nn) st (λ _ l _, ∀ cur a r,
     IoGetAudit nn (inr cur) ∈ l → IoUpdateAudit a r ∈ l → Z.of_nat (length (AuditActions (a_Spec a))) <= 2147483648 →
     indexed (AuditActions (a_Spec cur)) → earlier cur a ∧ indexed (AuditActions (a_Spec a)))) ∧
  (∀ t latest ds, indexed (AuditActions (a_Spec latest)) → (∀ r, r ∈ t → ¬ of_uid (UID (a_Meta latest)) r) →
     Forall (λ d, (∃ a, d = buildSinkEvents a ∧ earlier a latest) ∨ Forall (λ e, ev_AuditUID e ≠ UID (a_Meta latest)) d) ds →
     buildSinkEvents latest ∈ ds →
     filter (of_uid (UID (a_Meta latest))) (foldl deliver t ds) = execution_row <$> buildSinkEvents latest).
Proof.
  split_and!.
  - intros ctx nn st. eapply wp_mono; [apply policy_Reconcile_creates|]. intros o l st' Hl a r Hin Hlen.
    rewrite Forall_forall in Hl. destruct (Hl _ Hin) as [results Hr]. rewrite Hr in *.
    unfold to_records in Hlen. rewrite length_imap in Hlen. by apply (indexed_to_records exec 0).
  - intros ctx nn st. eapply wp_mono; [apply audit_Reconcile_appends|]. intros o l st' Hl cur a r Hcur Hin Hlen Hi.
    destruct (Hl _ _ Hcur Hin) as [|[Hsame (more & Hmore & Hkind)]]; [done|].
    split; [split; [done|by exists more]|]. rewrite Hmore in *. rewrite length_app in Hlen.
    apply indexed_from_app; [done|].
    destruct Hkind as [[results ->]|(message & plugins & ->)]; [apply indexed_to_records|apply indexed_skipped];
      unfold to_records, skipped_records in Hlen; rewrite length_imap in Hlen; lia.
  - intros t latest ds Hi Ht Hds Hin. set (rows := execution_row <$> buildSinkEvents latest).
    destruct (deliver_all (UID (a_Meta latest)) rows t 0 ds) as (m & Hm & -> & Hall); [by apply rows_in_order|lia| | |].
    + rewrite take_0. destruct (filter _ t) as [|r k] eqn:Hf; [done|]. exfalso.
      assert (r ∈ filter (of_uid (UID (a_Meta latest))) t) as [Hu Hr]%list_elem_of_filter by (rewrite Hf; left). by apply (Ht r).
    + eapply Forall_impl; [exact Hds|]. intros d [(a & -> & Ha)|Hd]; [left|by right].
      unfold rows. destruct (earlier_events _ _ Ha) as [k ->]. rewrite fmap_app. by eexists.
    + specialize (Hall _ Hin ltac:(done)). apply take_ge. unfold rows. rewrite length_fmap. lia.
Qed.

End Reconcilers.

(** Witness: the gated record of a trigger, with one action run, sent twice
    around its released version and another record. *)
Definition sent_record (n : nat) : ActionAudit :=
  set_AuditActions (pending_audit DecisionApproved)
    (take n (to_records fake_registry 0 [mkResult EmptyString "annotate" (mkTarget "v1" "Pod" "web-0" "prod") t0 StatusSucceeded EmptyString None;
                            mkResult EmptyString "notify" (mkTarget "v1" "Pod" "web-0" "prod") t0 StatusSucceeded EmptyString None])).
Definition other_record : ActionAudit :=
  mkAudit (a_meta "prod" "high-cpu-2" "uid-b") (a_Spec (sent_record 1)) (a_Status (sent_record 1)).
Definition sent_batches : list (list Event) :=
  buildSinkEvents <$> [sent_record 1; other_record; sent_record 2; sent_record 1; sent_record 2].

Lemma rows_mirror_record_witness :
  (ev_Plugin ∘ fst) <$> filter (of_uid "uid-a") (foldl deliver [] sent_batches) = ["annotate"; "notify"] ∧
  indexed (AuditActions (a_Spec (sent_record 2))) ∧
  filter (of_uid "uid-a") (foldl deliver [] sent_batches) = execution_row <$> buildSinkEvents (sent_record 2).
Proof.
  split; [by_compute|].
  assert (indexed (AuditActions (a_Spec (sent_record 2)))) as Hi by (intros [|[|i]] rec; [by intros [= <-]..|done]).
  split; [exact Hi|].
  destruct (rows_mirror_record fake_prometheus fake_registry None) as (_ & _ & Hrows).
  apply (Hrows [] (sent_record 2) sent_batches Hi).
  - intros r Hr. by apply elem_of_nil in Hr.
  - assert (∀ n, earlier (sent_record n) (sent_record 2)) as Hn.
    { intros n. split; [by split_and!|]. destruct n as [|[|[|n]]]; by eexists. }
    unfold sent_batches. rewrite !fmap_cons, !Forall_cons. split_and!; try (left; eexists; split; [reflexivity|apply Hn]).
    + right. by repeat constructor.
    + constructor.
  - unfold sent_batches. set_solver.
Defined.
