(* ===== verification/PluginTheorems.v ===== *)
(** * Theorems about the plugins: what [Reverse] undoes

    Each plugin's [Reverse], run on the result its [Execute] returned, puts the
    object back, provided nobody touched it in between. *)

From S2P Require Import Prelude GoLib GoTime Api ActionTypes Effects PluginBase MeshShift Annotate NetworkIsolate.

(** ** mesh.shift: weights *)

Section Weights.
Variable backend : string.
Variable weight : Z.

(** The weight the operator would record: absent, or an integer. *)
Definition integral_ref (v : any) : Prop :=
  match v with
  | AMap ref => is_backend backend ref = true →
                match ref !! "weight" with None | Some (AInt64 _) => True | _ => False end
  | _ => True
  end.

Definition integral_rule (v : any) : Prop :=
  match v with
  | AMap rule => match rule !! "backendRefs" with Some (ASlice refs) => Forall integral_ref refs | _ => True end
  | _ => True
  end.

Lemma restore_apply_ref ri bi v v' m cs :
  integral_ref v → apply_ref backend weight ri bi v = (v', m, cs) →
  (cs = [] ∧ v' = v) ∨ ∃ ch, cs = [ch] ∧ Rule ch = ri ∧ Ref ch = bi ∧ restore_ref ch v' = v.
Proof.
  intros Hint. unfold apply_ref. destruct v as [|?|?|?|?|?|ref|?|?]; try (intros [= <- <- <-]; by left).
  simpl in Hint. destruct (is_backend backend ref) eqn:Hb; [|intros [= <- <- <-]; by left].
  specialize (Hint eq_refl). unfold toInt64.
  destruct (ref !! "weight") as [[| | |old| | | | |]|] eqn:Hw; simplify_eq/=; try done;
    case_decide; intros [= <- <- <-]; try (by left); right; eexists; (split_and!; [done..|]); simpl; f_equal.
  - by rewrite insert_insert_eq, insert_id.
  - by rewrite delete_insert_id.
Qed.

Lemma alter_at_here {A} (f : A → A) (pre : list A) x l :
  alter_at f (Z.of_nat (length pre)) (pre ++ x :: l) = pre ++ f x :: l.
Proof.
  unfold alter_at. rewrite decide_False by lia. rewrite Nat2Z.id.
  rewrite <- (Nat.add_0_r (length pre)) at 1. by rewrite alter_app_r.
Qed.

Definition restore_refs (refs : list any) (cs : list backendChange) : list any :=
  foldl (λ l ch, alter_at (restore_ref ch) (Ref ch) l) refs cs.

Lemma restore_apply_refs ri pre refs refs' m cs :
  Forall integral_ref refs → apply_refs backend weight ri (Z.of_nat (length pre)) refs = (refs', m, cs) →
  restore_refs (pre ++ refs') cs = pre ++ refs ∧ Forall (λ ch, Rule ch = ri) cs.
Proof.
  revert pre refs' m cs. induction refs as [|v refs IH]; intros pre refs' m cs Hint; simpl; [by intros [= <- <- <-]|].
  apply Forall_cons in Hint as [Hv Hint].
  destruct (apply_ref _ _ _ _ _) as [[v' mv] csv] eqn:Hav.
  destruct (apply_refs _ _ _ _ refs) as [[rest mr] csr] eqn:Har. intros [= <- <- <-].
  replace (Z.of_nat (length pre) + 1) with (Z.of_nat (length (pre ++ [v]))) in Har by (rewrite length_app; simpl; lia).
  destruct (IH _ _ _ _ Hint Har) as [Hr Hri].
  unfold restore_refs in *. rewrite foldl_app.
  destruct (restore_apply_ref _ _ _ _ _ _ Hv Hav) as [[-> ->]|(ch & -> & Hrule & Href & Hrest)]; simpl.
  - rewrite <- !app_assoc in Hr. by split.
  - rewrite Href, alter_at_here, Hrest. rewrite <- !app_assoc in Hr. split; [done|]. by constructor.
Qed.

Lemma restore_rule_refs rule refs cs :
  foldl (λ r ch, restore_rule ch r) (AMap (<["backendRefs" := ASlice refs]> rule)) cs =
  AMap (<["backendRefs" := ASlice (restore_refs refs cs)]> rule).
Proof.
  revert refs. induction cs as [|ch cs IH]; intros refs; simpl; [done|].
  rewrite lookup_insert_eq, insert_insert_eq. apply IH.
Qed.

Lemma restore_apply_rule ri v v' m cs :
  integral_rule v → apply_rule backend weight ri v = (v', m, cs) →
  foldl (λ r ch, restore_rule ch r) v' cs = v ∧ Forall (λ ch, Rule ch = ri) cs.
Proof.
  intros Hint. unfold apply_rule. destruct v as [|?|?|?|?|?|rule|?|?]; try (intros [= <- <- <-]; by split).
  simpl in Hint. destruct (rule !! "backendRefs") as [[| | | | |refs| | |]|] eqn:Hr; try (intros [= <- <- <-]; by split).
  destruct (apply_refs _ _ _ _ _) as [[refs' mr] csr] eqn:Har. intros [= <- <- <-].
  destruct (restore_apply_refs ri [] refs refs' mr csr Hint Har) as [Hback Hri]. split; [|done].
  rewrite restore_rule_refs. simpl in Hback. by rewrite Hback, insert_id.
Qed.

Lemma restore_changes_here pre v l cs :
  Forall (λ ch, Rule ch = Z.of_nat (length pre)) cs →
  foldl restore_change (pre ++ v :: l) cs = pre ++ foldl (λ r ch, restore_rule ch r) v cs :: l.
Proof.
  intros Hcs. revert v. induction Hcs as [|ch cs Hch _ IH]; intros v; simpl; [done|].
  unfold restore_change at 2. by rewrite Hch, alter_at_here, IH.
Qed.

Lemma restore_apply_rules pre rules rules' m cs :
  Forall integral_rule rules → apply_rules backend weight (Z.of_nat (length pre)) rules = (rules', m, cs) →
  restore_rules (pre ++ rules') cs = pre ++ rules.
Proof.
  revert pre rules' m cs. induction rules as [|v rules IH]; intros pre rules' m cs Hint; simpl; [by intros [= <- <- <-]|].
  apply Forall_cons in Hint as [Hv Hint].
  destruct (apply_rule _ _ _ _) as [[v' mv] csv] eqn:Hav.
  destruct (apply_rules _ _ _ rules) as [[rest mr] csr] eqn:Har. intros [= <- <- <-].
  replace (Z.of_nat (length pre) + 1) with (Z.of_nat (length (pre ++ [v]))) in Har by (rewrite length_app; simpl; lia).
  destruct (restore_apply_rule _ _ _ _ _ Hv Hav) as [Hback Hri].
  unfold restore_rules in *. rewrite foldl_app, restore_changes_here, Hback by done.
  specialize (IH _ _ _ _ Hint Har). by rewrite <- !app_assoc in IH.
Qed.

End Weights.

(** Applying the weight a second time finds nothing to change. *)
Section Again.
Variable backend : string.
Variable weight : Z.

Lemma apply_ref_again ri bi v v' m cs :
  apply_ref backend weight ri bi v = (v', m, cs) → apply_ref backend weight ri bi v' = (v', m, []).
Proof.
  unfold apply_ref. destruct v as [|?|?|?|?|?|ref|?|?]; try (by intros [= <- <- <-]).
  destruct (is_backend backend ref) eqn:Hb; [|intros [= <- <- <-]; by rewrite Hb].
  destruct (toInt64 _) as [old had] eqn:Hold. case_decide as He; intros [= <- <- <-].
  - by rewrite Hb, Hold, decide_True.
  - unfold is_backend in *. rewrite lookup_insert_ne, Hb by done.
    rewrite lookup_insert_eq. simpl. by rewrite decide_True.
Qed.

Lemma apply_refs_again ri bi refs refs' m cs :
  apply_refs backend weight ri bi refs = (refs', m, cs) → apply_refs backend weight ri bi refs' = (refs', m, []).
Proof.
  revert bi refs' m cs. induction refs as [|v refs IH]; intros bi refs' m cs; simpl; [by intros [= <- <- <-]|].
  destruct (apply_ref _ _ _ _ _) as [[v' mv] csv] eqn:Hav.
  destruct (apply_refs _ _ _ _ refs) as [[rest mr] csr] eqn:Har. intros [= <- <- <-]. simpl.
  by rewrite (apply_ref_again _ _ _ _ _ _ Hav), (IH _ _ _ _ Har).
Qed.

Lemma apply_rule_again ri v v' m cs :
  apply_rule backend weight ri v = (v', m, cs) → apply_rule backend weight ri v' = (v', m, []).
Proof.
  unfold apply_rule. destruct v as [|?|?|?|?|?|rule|?|?]; try (by intros [= <- <- <-]).
  destruct (rule !! "backendRefs") as [[| | | | |refs| | |]|] eqn:Hr; try (intros [= <- <- <-]; by rewrite Hr).
  destruct (apply_refs _ _ _ _ _) as [[refs' mr] csr] eqn:Har. intros [= <- <- <-].
  by rewrite lookup_insert_eq, (apply_refs_again _ _ _ _ _ _ Har), insert_insert_eq.
Qed.

Lemma apply_rules_again ri rules rules' m cs :
  apply_rules backend weight ri rules = (rules', m, cs) → apply_rules backend weight ri rules' = (rules', m, []).
Proof.
  revert ri rules' m cs. induction rules as [|v rules IH]; intros ri rules' m cs; simpl; [by intros [= <- <- <-]|].
  destruct (apply_rule _ _ _ _) as [[v' mv] csv] eqn:Hav.
  destruct (apply_rules _ _ _ rules) as [[rest mr] csr] eqn:Har. intros [= <- <- <-]. simpl.
  by rewrite (apply_rule_again _ _ _ _ _ Hav), (IH _ _ _ _ Har).
Qed.

End Again.

(** ** mesh.shift: the plugin *)

Section Mesh.
Context {W : Type} `{Clock W} `{ObjectStore W} `{!UnstructuredLaws} `{!ClockKeeps W}.
Context `{ParamsJSON} `{UnmarshalInto mesh_params}.
Variable json_Changes : any → error + list backendChange.

Lemma getRoute_ok name namespace w r w' :
  getRoute name namespace w = (r, w') →
  stored w' = stored w ∧
  match r with
  | inr route => stored w !! route_key name namespace = Some route
  | inl e => Is e ErrTargetNotFound → stored w !! route_key name namespace = None
  end.
Proof.
  unfold getRoute, mbind, Act_bind, mret, Act_ret.
  destruct (oc_Get (route_key name namespace) w) as [got w1] eqn:Hget. intros [= <- <-].
  split; [by rewrite <- (Get_keeps (route_key name namespace) w), Hget|].
  destruct got as [e|route]; [|by eapply Get_stored].
  case_decide as Hnf.
  - intros _. by eapply Get_missing.
  - intros Hi. exfalso. by eapply (Get_error _ _ _ _ Hget).
Qed.

(** What a successful [Execute] did. *)
Lemma mesh_Execute_succeeded ctx inp w0 res w1 :
  mesh_Execute ctx inp w0 = ((res, None), w1) → Status res = StatusSucceeded →
  ∃ p namespace route rules rules' cs route',
    Unmarshal (in_Params inp) = inr p ∧
    namespace = (if decide (rr_Namespace (mp_RouteRef p) = EmptyString) then TargetNamespace (in_Target inp)
                 else rr_Namespace (mp_RouteRef p)) ∧
    stored w0 !! route_key (rr_Name (mp_RouteRef p)) namespace = Some route ∧
    NestedSlice route rules_path = inr (Some rules) ∧
    apply_rules (mp_Backend p) (mesh_weight p) 0 rules = (rules', true, cs) ∧ cs ≠ [] ∧
    SetNestedSlice route rules' rules_path = inr route' ∧
    stored w1 = <[route_key (rr_Name (mp_RouteRef p)) namespace := route']> (stored w0) ∧
    Details res = Some (mesh_details p namespace cs) ∧ ResTarget res = in_Target inp.
Proof.
  unfold mesh_Execute, failed, PluginNow, mbind, Act_bind, mret, Act_ret. intros Hx Hs.
  destruct (clock_Now w0) as [ts wt] eqn:Hts. pose proof (Now_keeps w0) as Hnow. rewrite Hts in Hnow. simpl in Hnow.
  destruct (Unmarshal (in_Params inp)) as [e|p]; [by simplify_eq/=|].
  destruct (negb (ClientFrom ctx)); [by simplify_eq/=|].
  set (namespace := if decide (rr_Namespace (mp_RouteRef p) = EmptyString) then _ else _) in *.
  destruct (getRoute _ _ wt) as [[e|route] wg] eqn:Hg; [by simplify_eq/=|].
  apply getRoute_ok in Hg as [Hgw Hroute]. rewrite Hnow in Hgw, Hroute.
  destruct (applyWeight route (mp_Backend p) (mesh_weight p)) as [e|[[matched cs] route']] eqn:Ha; [by simplify_eq/=|].
  destruct matched; [|by simplify_eq/=]. simpl in Hx. case_decide as Hcs; [by simplify_eq/=|].
  destruct (oc_Update route' wg) as [[e|] wu] eqn:Hu; [by simplify_eq/=|]. simplify_eq/=.
  unfold applyWeight in Ha. destruct (NestedSlice route rules_path) as [e|[rules|]] eqn:Hn; simplify_eq/=.
  destruct (apply_rules _ _ _ rules) as [[rules' m] cs'] eqn:Hr. case_decide; [|by simplify_eq].
  destruct (SetNestedSlice route rules' rules_path) as [e|r'] eqn:Hset; simplify_eq.
  exists p, namespace, route, rules, rules', cs, route'. split_and!; try done.
  rewrite (Update_stored _ _ _ Hu), (SetNestedSlice_key _ _ _ _ Hset), (stored_key _ _ _ Hroute). by rewrite Hgw.
Qed.

Definition integral_route (backend : string) (route : Unstr) : Prop :=
  ∀ rules, NestedSlice route rules_path = inr (Some rules) → Forall (integral_rule backend) rules.

Lemma mesh_details_read p namespace cs :
  let d := mesh_details p namespace cs in
  d !! "previous" = Some (AChanges cs) ∧ d !! "routeName" = Some (AString (rr_Name (mp_RouteRef p))) ∧
  d !! "routeNamespace" = Some (AString namespace).
Proof. unfold mesh_details. by simplify_map_eq. Qed.

(** C26. mesh.shift is undone: after a successful [Execute] exactly the route it
    names changed, executing again on it would change nothing, and a [Reverse]
    of the recorded result that reports success, with the route as [Execute]
    left it, puts back the route as it was before, whatever happened to other
    objects.  Recorded weights must be integers. *)
Theorem mesh_shift_undone ctx inp w0 res w1 :
  mesh_Execute ctx inp w0 = ((res, None), w1) → Status res = StatusSucceeded →
  (∀ cs, json_Changes (AChanges cs) = inr cs) →
  ∃ p k route route',
    Unmarshal (in_Params inp) = inr p ∧ stored w0 !! k = Some route ∧ stored w1 = <[k := route']> (stored w0) ∧
    applyWeight route' (mp_Backend p) (mesh_weight p) = inr (true, [], route') ∧
    ∀ ctx' prev w2 w3, Details prev = Details res → ResTarget prev = ResTarget res →
      integral_route (mp_Backend p) route → stored w2 !! k = Some route' →
      mesh_Reverse json_Changes ctx' prev w2 = (None, w3) → stored w3 = <[k := route]> (stored w2).
Proof.
  intros Hx Hs Hjson.
  destruct (mesh_Execute_succeeded _ _ _ _ _ Hx Hs) as
    (p & ns & route & rules & rules' & cs & route' & Hp & Hns & Hroute & Hn & Ha & Hcs & Hset & Hw1 & Hd & Ht).
  exists p, (route_key (rr_Name (mp_RouteRef p)) ns), route, route'. split_and!; [done..| |].
  { unfold applyWeight. rewrite (NestedSlice_Set _ _ _ _ Hset), (apply_rules_again _ _ _ _ _ _ _ Ha).
    by rewrite decide_False by tauto. }
  intros ctx' prev w2 w3 Hpd Hpt Hint Hw2. destruct (mesh_details_read p ns cs) as (Hprev & Hname & Hnsd).
  unfold mesh_Reverse, decodeChanges, detail_string, mbind, Act_bind, mret, Act_ret. rewrite Hpd, Hd, Hprev, Hname, Hnsd, Hjson.
  rewrite decide_False by done.
  destruct (decide (rr_Name (mp_RouteRef p) = EmptyString)); [done|]. destruct (negb (ClientFrom ctx')); [done|].
  assert ((if decide (ns = EmptyString) then TargetNamespace (ResTarget prev) else ns) = ns) as ->.
  { destruct (decide (ns = EmptyString)) as [Hempty|]; [|done]. rewrite Hpt, Ht. destruct (decide (rr_Namespace (mp_RouteRef p) = EmptyString)); congruence. }
  destruct (getRoute _ _ w2) as [[e|r] wg] eqn:Hg; apply getRoute_ok in Hg as [Hgw Hr].
  { intros Hx'. destruct (decide (Is e ErrTargetNotFound)) as [Hi|]; [|done]. by rewrite (Hr Hi) in Hw2. }
  rewrite Hw2 in Hr. injection Hr as <-. unfold restoreWeights. rewrite (NestedSlice_Set _ _ _ _ Hset).
  pose proof (restore_apply_rules _ _ [] _ _ _ _ (Hint _ Hn) Ha) as Hback. simpl in Hback. rewrite Hback.
  rewrite (SetNestedSlice_Set _ _ _ _ rules Hset), (SetNestedSlice_same _ _ _ Hn). intros Hu.
  by rewrite (Update_stored _ _ _ Hu), (stored_key _ _ _ Hroute), Hgw.
Qed.

End Mesh.

(** ** k8s.annotate *)

Section AnnotateUndone.
Context {W : Type} `{Clock W} `{ObjectStore W} `{!UnstructuredLaws} `{!ClockKeeps W}.
Context `{ParamsJSON} `{UnmarshalInto annotate_params} `{TextTemplate}.

Lemma get_object_ok what target w r w' :
  get_object what target w = (r, w') →
  stored w' = stored w ∧
  match r with
  | inr obj => stored w !! key_of_target target = Some obj
  | inl e => Is e ErrTargetNotFound → stored w !! key_of_target target = None
  end.
Proof.
  unfold get_object, mbind, Act_bind, mret, Act_ret.
  destruct (oc_Get (key_of_target target) w) as [got w1] eqn:Hget. intros [= <- <-].
  split; [by rewrite <- (Get_keeps (key_of_target target) w), Hget|].
  destruct got as [e|obj]; [|by eapply Get_stored].
  case_decide as Hnf; [intros _; by eapply Get_missing|].
  intros Hi. exfalso. by eapply (Get_error _ _ _ _ Hget).
Qed.

(** The annotations of an object; none and an empty map are the same. *)
Definition annotations (o : Unstr) : gmap string string := default ∅ (GetAnnotations o).

(** k8s.annotate: a successful [Execute] sets exactly one annotation of the
    target, to the rendered template, and with overwrite off never one that was
    there.  A [Reverse] of its result that reports success, with the target as
    it was left, removes that annotation and touches no other object: the
    annotations are back to what they were if and only if the key was new. *)
Lemma annotate_undone ctx inp w0 res w1 :
  annotate_Execute ctx inp w0 = ((res, None), w1) → Status res = StatusSucceeded →
  ∃ p obj obj' value,
    let k := key_of_target (in_Target inp) in
    Unmarshal (in_Params inp) = inr p ∧ RenderTemplate (an_Value p) (in_TemplateData inp) = inr value ∧
    stored w0 !! k = Some obj ∧ stored w1 = <[k := obj']> (stored w0) ∧
    annotations obj' = <[an_Key p := value]> (annotations obj) ∧
    (overwrite p = false → annotations obj !! an_Key p = None) ∧
    ∀ ctx' prev w2 w3, Details prev = Details res → ResTarget prev = ResTarget res →
      stored w2 !! k = Some obj' → annotate_Reverse ctx' prev w2 = (None, w3) →
      ∃ obj'', stored w3 = <[k := obj'']> (stored w2) ∧ annotations obj'' = delete (an_Key p) (annotations obj) ∧
        (annotations obj'' = annotations obj ↔ annotations obj !! an_Key p = None).
Proof.
  unfold annotate_Execute, failed, PluginNow, mbind, Act_bind, mret, Act_ret. intros Hx Hs.
  destruct (clock_Now w0) as [ts wt] eqn:Hts. pose proof (Now_keeps w0) as Hnow. rewrite Hts in Hnow. simpl in Hnow.
  destruct (Unmarshal (in_Params inp)) as [e|p] eqn:Hp; [by simplify_eq/=|].
  destruct (negb (ClientFrom ctx)); [by simplify_eq/=|].
  destruct (getTarget _ wt) as [[e|obj] wg] eqn:Hg; [by simplify_eq/=|].
  apply (get_object_ok "target") in Hg as [Hgw Hobj]. rewrite Hnow in Hgw, Hobj.
  case_decide as Hskip; [by simplify_eq/=|].
  destruct (RenderTemplate _ _) as [e|value] eqn:Hv; [by simplify_eq/=|].
  set (obj' := SetAnnotations obj _) in *.
  destruct (oc_Update obj' wg) as [[e|] wu] eqn:Hu; simplify_eq/=.
  assert (annotations obj' = <[an_Key p := value]> (annotations obj)) as Hann.
  { unfold annotations, obj'. by rewrite GetAnnotations_Set. }
  exists p, obj, obj', value. split_and!; try done.
  - rewrite (Update_stored _ _ _ Hu). subst obj'. by rewrite SetAnnotations_key, (stored_key _ _ _ Hobj), Hgw.
  - intros Ho. apply eq_None_not_Some. intros Hin. by apply Hskip.
  - intros ctx' prev w2 w3 Hd Ht Hw2.
    unfold annotate_Reverse, detail_string, mbind, Act_bind, mret, Act_ret. rewrite Hd, Ht. simpl.
    rewrite lookup_insert_eq. destruct (decide (an_Key p = EmptyString)); [done|]. destruct (negb (ClientFrom ctx')); [done|].
    destruct (getTarget _ w2) as [[e|o] wg2] eqn:Hg2; apply (get_object_ok "target") in Hg2 as [Hgw2 Ho].
    { destruct (decide (Is e ErrTargetNotFound)) as [Hi|]; [|done]. by rewrite (Ho Hi) in Hw2. }
    rewrite Hw2 in Ho. injection Ho as <-. fold (annotations obj'). rewrite Hann, lookup_insert_eq.
    rewrite delete_insert_eq. destruct (oc_Update _ wg2) as [[e|] wu2] eqn:Hu2; intros [= <-].
    rewrite (Update_stored _ _ _ Hu2), SetAnnotations_key, Hgw2. eexists. split; [|split].
    + by rewrite (stored_key _ _ _ Hw2).
    + unfold annotations at 1. by rewrite GetAnnotations_Set.
    + unfold annotations at 1. rewrite GetAnnotations_Set. simpl. split; [|apply delete_id].
      intros Heq. by rewrite <- Heq, lookup_delete_eq.
Qed.

End AnnotateUndone.

(** ** network.isolate *)

Lemma desiredPolicy_ingress inp p sel port :
  ingress_allowed (desiredPolicy inp p sel) port ↔ ¬ isolatesIngress p.
Proof.
  unfold ingress_allowed, desiredPolicy. simpl. split.
  - intros Hin Hi. destruct Hin as (r & Hr & _); [|by apply elem_of_nil in Hr]. rewrite decide_True by done. left.
  - intros Hn Hin. exfalso. rewrite decide_False in Hin by done. simpl in Hin. case_decide; set_solver.
Qed.

Lemma desiredPolicy_egress inp p sel port :
  egress_allowed (desiredPolicy inp p sel) port ↔ ¬ isolatesEgress p ∨ (allowDNS p = true ∧ port ∈ dnsPorts).
Proof.
  unfold egress_allowed, desiredPolicy. simpl. split.
  - intros Hin. destruct (decide (isolatesEgress p)) as [Hi|]; [right|by left].
    destruct Hin as (r & Hr & Hp); [set_solver|]. destruct (allowDNS p); [|by apply elem_of_nil in Hr].
    apply list_elem_of_singleton in Hr as ->. by destruct Hp.
  - intros Hc Hin. destruct (decide (isolatesEgress p)) as [Hi|]; [|case_decide; set_solver].
    destruct Hc as [?|[-> Hp]]; [done|]. eexists. split; [by left|]. by right.
Qed.

Section Isolate.
Context {W : Type} `{Clock W} `{ObjectClient W} `{PolicyStore W} `{ParamsJSON} `{UnmarshalInto isolate_params}.

(** A policy was applied under the name its target determines. *)
Lemma applyPolicy_stored np w w' :
  applyPolicy np w = (None, w') → np_stored w' = <[(np_Namespace np, np_Name np) := np]> (np_stored w).
Proof.
  unfold applyPolicy, mbind, Act_bind, mret, Act_ret.
  destruct (npc_Get _ _ w) as [got wg] eqn:Hg. pose proof (npc_Get_keeps (np_Namespace np) (np_Name np) w) as Hk.
  rewrite Hg in Hk. simpl in Hk. destruct got as [e|ex].
  - destruct (decide (Is e NotFound)); [|done]. intros Hc. by rewrite (npc_Create_stored _ _ _ Hc), Hk.
  - apply npc_Get_stored in Hg as (_ & Hns & Hn). intros Hu. rewrite (npc_Update_stored _ _ _ Hu), Hk. simpl.
    rewrite Hns, Hn. by destruct np.
Qed.

Lemma found_map_Some r m : found_map r = Some m → m ≠ ∅.
Proof. unfold found_map. repeat case_match; try done. by intros [= <-]. Qed.

Lemma deriveSelector_nonempty obj sel : deriveSelector obj = Some sel → sel ≠ ∅.
Proof.
  unfold deriveSelector. destruct (found_map (NestedStringMap obj _)) eqn:Hml; [intros [= <-]; by eapply found_map_Some|].
  destruct (found_map (NestedStringMap obj ["spec"; "selector"])) eqn:Hsl; [intros [= <-]; by eapply found_map_Some|].
  apply found_map_Some.
Qed.

Lemma isolate_selector_ok p target w sel w' :
  (∀ k w, np_stored (oc_Get k w).2 = np_stored w) → isolate_selector p target w = (inr (Some sel), w') →
  np_stored w' = np_stored w ∧ sel ≠ ∅ ∧ (∀ s, is_PodSelector p = Some s → s ≠ ∅ → sel = s).
Proof.
  intros Hget. unfold isolate_selector, mbind, Act_bind, mret, Act_ret.
  destruct (found_map (inr (is_PodSelector p))) as [s|] eqn:Hf.
  - intros [= <- <-]. split_and!; [done|by eapply found_map_Some|]. intros s' Hs' Hne. unfold found_map in Hf.
    rewrite Hs', decide_True in Hf by done. by simplify_eq.
  - unfold getTarget, get_object, mbind, Act_bind, mret, Act_ret.
    destruct (oc_Get _ w) as [got wg] eqn:Hg. pose proof (Hget (key_of_target target) w) as Hk. rewrite Hg in Hk.
    destruct got as [e|obj]; [by case_decide|]. intros [= Hd <-]. split_and!; [done|by eapply deriveSelector_nonempty|].
    intros s Hs Hne. unfold found_map in Hf. by rewrite Hs, decide_True in Hf.
Qed.


End Isolate.

(** ** Witnesses: a store of objects and policies *)

Record FakeBody : Type := mkBody { fb_ann : option (gmap string string); fb_fields : gmap (list string) any }.
Record FakeUnstr : Type := mkFakeUnstr { fu_key : ObjKey; fu_body : FakeBody }.

Definition set_field (o : FakeUnstr) (p : list string) (v : any) : FakeUnstr :=
  mkFakeUnstr (fu_key o) (mkBody (fb_ann (fu_body o)) (<[p := v]> (fb_fields (fu_body o)))).

#[export] Instance fake_unstructured : Unstructured := {|
  Unstr := FakeUnstr;
  u_key := fu_key;
  GetAnnotations o := fb_ann (fu_body o);
  SetAnnotations o m := mkFakeUnstr (fu_key o) (mkBody m (fb_fields (fu_body o)));
  GetLabels o := Some (<["app" := "web"]> ∅);
  NestedStringMap o p := inr None;
  NestedMap o p := match fb_fields (fu_body o) !! p with
                   | Some (AMap m) => inr (Some m) | Some _ => inl (errorf "not a map") | None => inr None end;
  NestedSlice o p := match fb_fields (fu_body o) !! p with
                     | Some (ASlice l) => inr (Some l) | Some _ => inl (errorf "not a slice") | None => inr None end;
  NestedFieldCopy o p := inr (fb_fields (fu_body o) !! p);
  SetNestedSlice o l p := inr (set_field o p (ASlice l));
  SetNestedField o v p := inr (set_field o p v);
  RemoveNestedField o p := mkFakeUnstr (fu_key o) (mkBody (fb_ann (fu_body o)) (delete p (fb_fields (fu_body o)))) |}.

#[export] Instance fake_unstructured_laws : UnstructuredLaws.
Proof.
  split; try done.
  - by intros o l p o' [= <-].
  - intros o l p o' [= <-]. simpl. by rewrite lookup_insert_eq.
  - intros o l p o' l' [= <-]. simpl. unfold set_field. simpl. by rewrite insert_insert_eq.
  - intros [k [ann fields]] l p. simpl. unfold set_field. simpl.
    destruct (fields !! p) as [[]|] eqn:Hp; try done. intros [= <-]. by rewrite insert_id.
Qed.

Record PluginWorld : Type := mkPW {
  pw_objects : gmap ObjKey FakeBody;
  pw_policies : gmap (string * string) NetworkPolicy }.

#[export] Instance pw_clock : Clock PluginWorld := { clock_Now w := (0, w) }.

#[export] Instance pw_client : ObjectClient PluginWorld := {
  oc_Get k w := (match pw_objects w !! k with
                 | Some b => inr (mkFakeUnstr k b)
                 | None => inl (Err [NotFound] "not found")
                 end, w);
  oc_Update o w := (None, mkPW (<[fu_key o := fu_body o]> (pw_objects w)) (pw_policies w)) }.

#[export, refine] Instance pw_store : ObjectStore PluginWorld := {
  stored w := map_imap (λ k b, Some (mkFakeUnstr k b)) (pw_objects w) }.
Proof.
  - intros k w o w'. simpl. destruct (pw_objects w !! k) eqn:Hk; intros [= <- <-]. by rewrite map_lookup_imap, Hk.
  - intros k w e w'. simpl. destruct (pw_objects w !! k) eqn:Hk; intros [= <- <-] _. by rewrite map_lookup_imap, Hk.
  - intros k w e w'. simpl. destruct (pw_objects w !! k); intros [= <- <-]. unfold Is. simpl. set_solver.
  - done.
  - intros w k o. rewrite map_lookup_imap. by destruct (pw_objects w !! k); intros [= <-].
  - intros o w w' [= <-]. apply map_eq. intros k. simpl. rewrite map_lookup_imap. destruct o as [k' b]. simpl.
    destruct (decide (k' = k)) as [->|]; [by rewrite !lookup_insert_eq|].
    by rewrite !lookup_insert_ne, map_lookup_imap by done.
  - done.
Defined.

#[export] Instance pw_clock_keeps : ClockKeeps PluginWorld.
Proof. by split. Qed.

#[export] Instance pw_policy_client : PolicyClient PluginWorld := {
  npc_Get ns n w := (match pw_policies w !! (ns, n) with
                     | Some np => inr (mkNetworkPolicy n ns (np_Labels np) (np_Annotations np) (np_Spec np))
                     | None => inl (Err [NotFound] "not found")
                     end, w);
  npc_Create np w := (None, mkPW (pw_objects w) (<[(np_Namespace np, np_Name np) := np]> (pw_policies w)));
  npc_Update np w := (None, mkPW (pw_objects w) (<[(np_Namespace np, np_Name np) := np]> (pw_policies w)));
  npc_Delete ns n w := (None, mkPW (pw_objects w) (delete (ns, n) (pw_policies w))) }.

#[export, refine] Instance pw_policy_store : PolicyStore PluginWorld := {
  np_stored w := map_imap (λ k np, Some (mkNetworkPolicy k.2 k.1 (np_Labels np) (np_Annotations np) (np_Spec np))) (pw_policies w) }.
Proof.
  - intros ns n w np w'. simpl. destruct (pw_policies w !! (ns, n)) eqn:Hk; intros [= <- <-].
    by rewrite map_lookup_imap, Hk.
  - intros ns n w e w'. simpl. destruct (pw_policies w !! (ns, n)) eqn:Hk; intros [= <- <-] _.
    by rewrite map_lookup_imap, Hk.
  - done.
  - intros np w w' [= <-]. apply map_eq. intros k. simpl. rewrite map_lookup_imap. destruct np as [n ns ? ? ?]. simpl.
    destruct (decide ((ns, n) = k)) as [<-|]; [by rewrite !lookup_insert_eq|].
    by rewrite !lookup_insert_ne, map_lookup_imap by done.
  - intros np w w' [= <-]. apply map_eq. intros k. simpl. rewrite map_lookup_imap. destruct np as [n ns ? ? ?]. simpl.
    destruct (decide ((ns, n) = k)) as [<-|]; [by rewrite !lookup_insert_eq|].
    by rewrite !lookup_insert_ne, map_lookup_imap by done.
  - intros ns n w r w' [= <- <-]. apply map_eq. intros k. simpl. rewrite map_lookup_imap.
    destruct (decide ((ns, n) = k)) as [<-|]; [by rewrite !lookup_delete_eq|].
    by rewrite !lookup_delete_ne, map_lookup_imap by done.
Defined.

(** Parameters as each plugin's struct would be filled, templates rendered as
    they are written, changes read back as they were recorded. *)
#[export] Instance pw_json : ParamsJSON := { json_MarshalRaw _ := inr "{}" }.
#[export] Instance pw_mesh_params : UnmarshalInto mesh_params :=
  { json_UnmarshalInto _ := inr (mkMeshParams (mkRouteRef "api" EmptyString) "v1" (Some 0)) }.
#[export] Instance pw_annotate_params : UnmarshalInto annotate_params :=
  { json_UnmarshalInto _ := inr (mkAnnotateParams "paused" "yes" None) }.
#[export] Instance pw_isolate_params : UnmarshalInto isolate_params :=
  { json_UnmarshalInto _ := inr (mkIsolateParams None EmptyString None) }.
#[export] Instance pw_template : TextTemplate :=
  {| Tmpl := string; template_Parse s := inr s; template_Execute t _ := inr t |}.

Definition pw_changes (v : any) : error + list backendChange :=
  match v with AChanges cs => inr cs | _ => inl (errorf "not a list of changes") end.

Definition backend_ref (name : string) (w : option Z) : any :=
  AMap (match w with Some w => <["weight" := AInt64 w]> (<["name" := AString name]> ∅)
                   | None => <["name" := AString name]> ∅ end).

Definition pw_start : PluginWorld :=
  mkPW (<[route_key "api" "prod" :=
            mkBody None (<[rules_path := ASlice [AMap (<["backendRefs" :=
              ASlice [backend_ref "v1" (Some 90); backend_ref "v2" (Some 10); backend_ref "v1" None]]> ∅)]]> ∅)]>
        (<[mkObjKey "v1" "Pod" "prod" "web-0" := mkBody (Some (<["team" := "a"]> ∅)) ∅]> ∅)) ∅.

Definition pw_input : ExecuteInput :=
  mkInput (mkTarget "v1" "Pod" "web-0" "prod") None "high-cpu" "prod" "0.9" 0 ∅.

Definition mesh_run := mesh_Execute WithValueClient pw_input pw_start.
Definition annotate_run := annotate_Execute WithValueClient pw_input pw_start.
Definition isolate_run := isolate_Execute WithValueClient pw_input pw_start.

Lemma run_succeeded {A B C} (r : (A * option B) * C) : r.1.2 = None → r = ((r.1.1, None), r.2).
Proof. by destruct r as [[a b] c]; simpl; intros ->. Qed.

(** Executing and reversing is the identity on the store. *)
Example mesh_there_and_back :
  (Status mesh_run.1.1, mesh_run.1.2) = (StatusSucceeded, None) ∧
  mesh_Reverse pw_changes WithValueClient mesh_run.1.1 mesh_run.2 = (None, pw_start).
Proof. split; by_compute. Qed.

Lemma mesh_shift_undone_witness :
  ∃ p k route route',
    Unmarshal (in_Params pw_input) = inr p ∧ stored pw_start !! k = Some route ∧
    stored mesh_run.2 = <[k := route']> (stored pw_start) ∧
    applyWeight route' (mp_Backend p) (mesh_weight p) = inr (true, [], route') ∧
    ∀ ctx' prev w2 w3, Details prev = Details mesh_run.1.1 → ResTarget prev = ResTarget mesh_run.1.1 →
      integral_route (mp_Backend p) route → stored w2 !! k = Some route' →
      mesh_Reverse pw_changes ctx' prev w2 = (None, w3) → stored w3 = <[k := route]> (stored w2).
Proof. apply (mesh_shift_undone pw_changes WithValueClient pw_input pw_start mesh_run.1.1 mesh_run.2); [apply run_succeeded; by_compute|by_compute|done]. Defined.

Lemma annotate_undone_witness :
  ∃ p obj obj' value,
    let k := key_of_target (in_Target pw_input) in
    Unmarshal (in_Params pw_input) = inr p ∧ RenderTemplate (an_Value p) (in_TemplateData pw_input) = inr value ∧
    stored pw_start !! k = Some obj ∧ stored annotate_run.2 = <[k := obj']> (stored pw_start) ∧
    annotations obj' = <[an_Key p := value]> (annotations obj) ∧
    (overwrite p = false → annotations obj !! an_Key p = None) ∧
    ∀ ctx' prev w2 w3, Details prev = Details annotate_run.1.1 → ResTarget prev = ResTarget annotate_run.1.1 →
      stored w2 !! k = Some obj' → annotate_Reverse ctx' prev w2 = (None, w3) →
      ∃ obj'', stored w3 = <[k := obj'']> (stored w2) ∧ annotations obj'' = delete (an_Key p) (annotations obj) ∧
        (annotations obj'' = annotations obj ↔ annotations obj !! an_Key p = None).
Proof. apply (annotate_undone WithValueClient pw_input pw_start annotate_run.1.1 annotate_run.2); [apply run_succeeded; by_compute|by_compute]. Defined.

