(* ===== verification/ArgocdTheorems.v ===== *)
(** * Theorems about argocd.suspend

    A suspension takes the automated sync off one Application and notes why;
    its [Reverse] puts the sync policy back. *)

From S2P Require Import Prelude GoLib GoTime Api ActionTypes Effects PluginBase Annotate PluginTheorems.

(** Documented behaviour of apimachinery's accessors on fields under [spec]: a
    nested map's parent is a map, what was removed is gone, what was set is
    there; annotations and identity are elsewhere. *)
Class SpecFieldLaws `{Unstructured} : Prop := {
  NestedMap_parent : ∀ o p x m, NestedMap o ("spec" :: p ++ [x]) = inr (Some m) →
    ∃ m', NestedFieldCopy o ("spec" :: p) = inr (Some (AMap m'));
  NestedMap_Remove : ∀ o p m, NestedMap o ("spec" :: p) = inr (Some m) →
    NestedMap (RemoveNestedField o ("spec" :: p)) ("spec" :: p) = inr None;
  NestedFieldCopy_Set : ∀ o v p o', SetNestedField o v ("spec" :: p) = inr o' →
    NestedFieldCopy o' ("spec" :: p) = inr (Some v);
  NestedMap_annotations : ∀ o m p, NestedMap (SetAnnotations o m) ("spec" :: p) = NestedMap o ("spec" :: p);
  NestedFieldCopy_annotations : ∀ o m p,
    NestedFieldCopy (SetAnnotations o m) ("spec" :: p) = NestedFieldCopy o ("spec" :: p);
  GetAnnotations_Remove : ∀ o p, GetAnnotations (RemoveNestedField o ("spec" :: p)) = GetAnnotations o;
  GetAnnotations_SetField : ∀ o v p o', SetNestedField o v ("spec" :: p) = inr o' → GetAnnotations o' = GetAnnotations o;
  Remove_key : ∀ o p, u_key (RemoveNestedField o ("spec" :: p)) = u_key o;
  SetField_key : ∀ o v p o', SetNestedField o v ("spec" :: p) = inr o' → u_key o' = u_key o }.

Section Argocd.
Context {W : Type} `{Clock W} `{ObjectStore W} `{!UnstructuredLaws} `{!SpecFieldLaws} `{!ClockKeeps W}.
Context `{ParamsJSON} `{UnmarshalInto argocd_params}.

(** ArgoCD syncs by itself iff the sync policy has an automated section. *)
Definition automated (o : Unstr) : option (gmap string any) :=
  match NestedMap o automated_path with inr m => m | inl _ => None end.

Lemma setAnnotation_ok o key value :
  annotations (setAnnotation o key value) = <[key := value]> (annotations o) ∧ u_key (setAnnotation o key value) = u_key o.
Proof. unfold setAnnotation, annotations. by rewrite GetAnnotations_Set, SetAnnotations_key. Qed.

Lemma removeAnnotation_ok o key :
  annotations (removeAnnotation o key) = delete key (annotations o) ∧ u_key (removeAnnotation o key) = u_key o ∧
  ∀ p, NestedFieldCopy (removeAnnotation o key) ("spec" :: p) = NestedFieldCopy o ("spec" :: p).
Proof.
  unfold removeAnnotation, annotations. destruct (GetAnnotations o) as [ann|] eqn:Ha.
  - by rewrite GetAnnotations_Set, SetAnnotations_key; setoid_rewrite NestedFieldCopy_annotations.
  - rewrite Ha. simpl. by rewrite delete_empty.
Qed.

(** What a [Reverse] that reports success leaves of an application it found. *)
Lemma argocd_Reverse_ok ctx prev sp app w w' :
  Details prev ≫= (.!! "previousSyncPolicy") = Some (AMap sp) →
  stored w !! key_of_target (ResTarget prev) = Some app → argocd_Reverse ctx prev w = (None, w') →
  ∃ app', stored w' = <[key_of_target (ResTarget prev) := app']> (stored w) ∧
    NestedFieldCopy app' sync_path = inr (Some (AMap sp)) ∧
    annotations app' = delete suspendReasonAnnotation (annotations app).
Proof.
  intros Hsp Happ. unfold argocd_Reverse. rewrite Hsp. unfold mbind, Act_bind, mret, Act_ret.
  destruct (negb (ClientFrom ctx)); [done|].
  destruct (getApplication _ w) as [[e|o] wg] eqn:Hg; apply get_object_ok in Hg as [Hgw Ho].
  { destruct (decide (Is e ErrTargetNotFound)) as [Hi|]; [by rewrite (Ho Hi) in Happ|done]. }
  rewrite Happ in Ho. injection Ho as <-. destruct (SetNestedField app _ _) as [e|o] eqn:Hset; [done|].
  destruct (removeAnnotation_ok o suspendReasonAnnotation) as (Hann & Hkey & Hfield).
  destruct (oc_Update _ wg) as [[e|] wu] eqn:Hu; intros [= <-]. exists (removeAnnotation o suspendReasonAnnotation).
  rewrite (Update_stored _ _ _ Hu), Hkey, (SetField_key _ _ _ _ Hset), (stored_key _ _ _ Happ), Hgw.
  split_and!; [done| |].
  - unfold sync_path. rewrite Hfield. by eapply NestedFieldCopy_Set.
  - rewrite Hann. unfold annotations. by rewrite (GetAnnotations_SetField _ _ _ _ Hset).
Qed.

(** C27. argocd.suspend: an [Execute] without an error either skips an application
    that does not sync by itself, changing nothing, or leaves exactly that
    application without its automated section and with the reason annotated.  A
    [Reverse] of its result that reports success, with the application as it
    was left, touches no other object, puts the sync policy back exactly, and
    the annotations too if and only if the reason annotation was new. *)
Theorem argocd_undone ctx inp w0 res w1 :
  argocd_Execute ctx inp w0 = ((res, None), w1) →
  ∃ p app, let k := key_of_target (in_Target inp) in
    Unmarshal (in_Params inp) = inr p ∧ Kind (in_Target inp) = applicationKind ∧ stored w0 !! k = Some app ∧
    ((Status res = StatusSkipped ∧ automated app = None ∧ stored w1 = stored w0) ∨
     (Status res = StatusSucceeded ∧ automated app ≠ None ∧
      ∃ app', stored w1 = <[k := app']> (stored w0) ∧ automated app' = None ∧
        annotations app' = <[suspendReasonAnnotation := if decide (ar_Reason p = EmptyString) then defaultReason else ar_Reason p]>
                             (annotations app) ∧
        ∀ ctx' prev w2 w3, Details prev = Details res → ResTarget prev = ResTarget res →
          stored w2 !! k = Some app' → argocd_Reverse ctx' prev w2 = (None, w3) →
          ∃ app'', stored w3 = <[k := app'']> (stored w2) ∧
            NestedFieldCopy app'' sync_path = NestedFieldCopy app sync_path ∧
            (annotations app'' = annotations app ↔ annotations app !! suspendReasonAnnotation = None))).
Proof.
  unfold argocd_Execute, failed, PluginNow, mbind, Act_bind, mret, Act_ret. intros Hx.
  destruct (clock_Now w0) as [ts wt] eqn:Hts. pose proof (Now_keeps w0) as Hnow. rewrite Hts in Hnow. simpl in Hnow.
  case_decide as Hk; [by simplify_eq/=|]. apply Decidable.not_or in Hk as [_ Hk]. apply dec_stable in Hk.
  destruct (Unmarshal (in_Params inp)) as [e|p] eqn:Hp; [by simplify_eq/=|].
  set (reason := if decide (ar_Reason p = EmptyString) then defaultReason else ar_Reason p) in *.
  destruct (negb (ClientFrom ctx)); [by simplify_eq/=|].
  destruct (getApplication _ wt) as [[e|app] wg] eqn:Hg; [by simplify_eq/=|].
  apply get_object_ok in Hg as [Hgw Happ]. rewrite Hnow in Hgw, Happ. exists p, app.
  destruct (NestedMap app automated_path) as [e|[auto|]] eqn:Hauto; [by simplify_eq/=| |].
  2:{ simplify_eq/=. split_and!; try done. left. unfold automated. by rewrite Hauto. }
  destruct (NestedMap_parent app ["syncPolicy"] "automated" auto Hauto) as [sp Hsp]. fold sync_path in Hsp. rewrite Hsp in Hx.
  set (app' := setAnnotation (RemoveNestedField app automated_path) suspendReasonAnnotation reason) in *.
  destruct (oc_Update app' wg) as [[e|] wu] eqn:Hu; simplify_eq/=. split_and!; try done. right.
  destruct (setAnnotation_ok (RemoveNestedField app automated_path) suspendReasonAnnotation reason) as [Hann Hkey].
  fold app' in Hann, Hkey. split; [done|]. split; [unfold automated; by rewrite Hauto|]. exists app'. 
  assert (annotations (RemoveNestedField app automated_path) = annotations app) as Hsame
    by (unfold annotations, automated_path; by rewrite GetAnnotations_Remove). rewrite Hsame in Hann.
  split_and!; [|  |done|].
  - rewrite (Update_stored _ _ _ Hu), Hkey, Hgw. unfold automated_path. by rewrite Remove_key, (stored_key _ _ _ Happ).
  - unfold automated, app', setAnnotation, automated_path. by rewrite NestedMap_annotations, (NestedMap_Remove _ _ _ Hauto).
  - intros ctx' prev w2 w3 Hd Ht Hw2 Hr. rewrite <- Ht in Hw2.
    destruct (argocd_Reverse_ok ctx' prev sp app' w2 w3) as (app'' & Hw3 & Hback & Hann''); [by rewrite Hd|done..|].
    exists app''. rewrite Hw3, Ht, Hback, Hsp. split_and!; [done..|]. rewrite Hann'', Hann, delete_insert_eq.
    split; [|apply delete_id]. intros Heq. by rewrite <- Heq, lookup_delete_eq.
Qed.

End Argocd.

(** ** Witness: objects as trees *)

Fixpoint get_path (v : any) (p : list string) : error + option any :=
  match p with
  | [] => inr (Some v)
  | x :: p => match v with
              | AMap m => match m !! x with Some v => get_path v p | None => inr None end
              | _ => inl (errorf "accessor error: not a map")
              end
  end.

Fixpoint set_path (v new : any) (p : list string) : error + any :=
  match p with
  | [] => inr new
  | x :: p => match v with
              | AMap m => match set_path (default (AMap ∅) (m !! x)) new p with
                          | inr v => inr (AMap (<[x := v]> m))
                          | inl e => inl e
                          end
              | _ => inl (errorf "value cannot be set")
              end
  end.

Fixpoint remove_path (v : any) (p : list string) : any :=
  match p, v with
  | [x], AMap m => AMap (delete x m)
  | x :: p, AMap m => match m !! x with Some v => AMap (<[x := remove_path v p]> m) | None => AMap m end
  | _, _ => v
  end.

Lemma get_set_path p v new v' : set_path v new p = inr v' → get_path v' p = inr (Some new).
Proof.
  revert v v'. induction p as [|x p IH]; intros v v'; simpl; [by intros [= ->]|].
  destruct v; try done. destruct (set_path _ _ p) as [e|w] eqn:Hset; intros [= <-]. rewrite lookup_insert_eq. by eapply IH.
Qed.

Lemma set_set_path p v new v' new' : set_path v new p = inr v' → set_path v' new' p = set_path v new' p.
Proof.
  revert v v'. induction p as [|x p IH]; intros v v'; simpl; [done|].
  destruct v; try done. destruct (set_path _ _ p) as [e|w] eqn:Hset; intros [= <-].
  rewrite lookup_insert_eq. simpl. rewrite (IH _ _ Hset). destruct (set_path _ new' p); [done|]. by rewrite insert_insert_eq.
Qed.

Lemma set_path_same p v w : get_path v p = inr (Some w) → set_path v w p = inr v.
Proof.
  revert v. induction p as [|x p IH]; intros v; simpl; [by intros [= ->]|].
  destruct v; try done. destruct (m !! x) as [v|] eqn:Hx; [|done]. intros Hg. simpl. rewrite (IH _ Hg). by rewrite insert_id.
Qed.

Lemma get_path_parent p x v w : get_path v (p ++ [x]) = inr (Some w) → ∃ m, get_path v p = inr (Some (AMap m)).
Proof.
  revert v. induction p as [|y p IH]; intros v; simpl.
  - destruct v; try done. intros _. by eexists.
  - destruct v; try done. destruct (m !! y); [apply IH|done].
Qed.

Lemma get_remove_path p v w : p ≠ [] → get_path v p = inr (Some w) → get_path (remove_path v p) p = inr None.
Proof.
  revert v. induction p as [|x p IH]; intros v; [done|]. intros _. simpl. destruct v; try done.
  destruct (m !! x) as [v|] eqn:Hx; [|done]. intros Hg. destruct p as [|y p].
  - by rewrite lookup_delete_eq.
  - rewrite lookup_insert_eq. by apply IH.
Qed.

Record TreeBody : Type := mkTree { tb_ann : option (gmap string string); tb_root : any }.
Record TreeUnstr : Type := mkTreeUnstr { tu_key : ObjKey; tu_body : TreeBody }.

Definition with_root (o : TreeUnstr) (root : any) : TreeUnstr :=
  mkTreeUnstr (tu_key o) (mkTree (tb_ann (tu_body o)) root).
Definition root_of (o : TreeUnstr) : any := tb_root (tu_body o).
Definition put_path (o : TreeUnstr) (new : any) (p : list string) : error + TreeUnstr :=
  match set_path (root_of o) new p with inr root => inr (with_root o root) | inl e => inl e end.

Definition tree_map (o : TreeUnstr) (p : list string) : error + option (gmap string any) :=
  match get_path (root_of o) p with
  | inr (Some (AMap m)) => inr (Some m)
  | inr (Some _) => inl (errorf "accessor error: not a map")
  | inr None => inr None
  | inl e => inl e
  end.

Lemma tree_map_inv o p m : tree_map o p = inr (Some m) → ∃ w, get_path (root_of o) p = inr (Some w).
Proof. unfold tree_map. destruct (get_path _ p) as [|[w|]]; try done. by exists w. Qed.

#[local] Instance tree_unstructured : Unstructured := {|
  Unstr := TreeUnstr;
  u_key := tu_key;
  GetAnnotations o := tb_ann (tu_body o);
  SetAnnotations o m := mkTreeUnstr (tu_key o) (mkTree m (root_of o));
  GetLabels o := None;
  NestedStringMap o p := inr None;
  NestedMap := tree_map;
  NestedSlice o p := match get_path (root_of o) p with
                     | inr (Some (ASlice l)) => inr (Some l) | inr (Some _) => inl (errorf "accessor error: not a slice")
                     | inr None => inr None | inl e => inl e end;
  NestedFieldCopy o p := get_path (root_of o) p;
  SetNestedSlice o l p := put_path o (ASlice l) p;
  SetNestedField o v p := put_path o v p;
  RemoveNestedField o p := with_root o (remove_path (root_of o) p) |}.

Lemma put_path_ok o new p o' :
  put_path o new p = inr o' → tu_key o' = tu_key o ∧ tb_ann (tu_body o') = tb_ann (tu_body o) ∧
    set_path (root_of o) new p = inr (root_of o').
Proof. unfold put_path. destruct (set_path _ _ _); intros [= <-]. done. Qed.

#[local] Instance tree_laws : UnstructuredLaws.
Proof.
  split; try done; simpl.
  - by intros o l p o' (? & _)%put_path_ok.
  - intros o l p o' (_ & _ & Hset)%put_path_ok. by rewrite (get_set_path _ _ _ _ Hset).
  - intros o l p o' l' Hput. destruct (put_path_ok _ _ _ _ Hput) as (Hk & Ha & Hset). unfold put_path, with_root.
    by rewrite (set_set_path _ _ _ _ _ Hset), Hk, Ha.
  - intros [k [ann root]] l p. unfold put_path, root_of. simpl.
    destruct (get_path root p) as [|[[]|]] eqn:Hg; intros Heq; simplify_eq. by rewrite (set_path_same _ _ _ Hg).
Qed.

#[local] Instance tree_spec_laws : SpecFieldLaws.
Proof.
  split; cbn -[get_path remove_path set_path]; try done.
  - intros o p x m Hm. destruct (tree_map_inv _ _ _ Hm) as [w Hw]. by apply (get_path_parent ("spec" :: p) x _ w).
  - intros o p m Hm. destruct (tree_map_inv _ _ _ Hm) as [w Hw].
    unfold tree_map. change (root_of (with_root o (remove_path (root_of o) ("spec" :: p)))) with (remove_path (root_of o) ("spec" :: p)).
    by rewrite (get_remove_path ("spec" :: p) _ w).
  - intros o v p o' (_ & _ & Hset)%put_path_ok. apply (get_set_path ("spec" :: p) _ _ _ Hset).
  - by intros o v p o' (_ & ? & _)%put_path_ok.
  - by intros o v p o' (? & _)%put_path_ok.
Qed.

(** A store of them, and one application that syncs by itself. *)
#[local] Instance tree_clock : Clock (gmap ObjKey TreeBody) := { clock_Now w := (0, w) }.
#[local] Instance tree_client : ObjectClient (gmap ObjKey TreeBody) := {
  oc_Get k w := (match w !! k with Some b => inr (mkTreeUnstr k b) | None => inl (Err [NotFound] "not found") end, w);
  oc_Update o w := (None, <[tu_key o := tu_body o]> w) }.

#[local, refine] Instance tree_store : ObjectStore (gmap ObjKey TreeBody) := {
  stored w := map_imap (λ k b, Some (mkTreeUnstr k b)) w }.
Proof.
  - intros k w o w'. simpl. destruct (w !! k) eqn:Hk; intros [= <- <-]. by rewrite map_lookup_imap, Hk.
  - intros k w e w'. simpl. destruct (w !! k) eqn:Hk; intros [= <- <-] _. by rewrite map_lookup_imap, Hk.
  - intros k w e w'. simpl. destruct (w !! k); intros [= <- <-]. unfold Is. simpl. set_solver.
  - done.
  - intros w k o. rewrite map_lookup_imap. by destruct (w !! k); intros [= <-].
  - intros o w w' [= <-]. apply map_eq. intros k. rewrite map_lookup_imap. destruct o as [k' b]. simpl.
    destruct (decide (k' = k)) as [->|]; [by rewrite !lookup_insert_eq|].
    by rewrite !lookup_insert_ne, map_lookup_imap by done.
  - done.
Defined.

#[local] Instance tree_clock_keeps : ClockKeeps (gmap ObjKey TreeBody).
Proof. by split. Qed.

#[local] Instance argocd_json : ParamsJSON := { json_MarshalRaw _ := inr "{}" }.
#[local] Instance argocd_reason : UnmarshalInto argocd_params := { json_UnmarshalInto _ := inr (mkArgocdParams EmptyString) }.

Definition shop : Target := mkTarget applicationAPIVersion applicationKind "shop" "argocd".
Definition syncing : gmap ObjKey TreeBody :=
  <[key_of_target shop :=
      mkTree (Some (<["team" := "a"]> ∅))
        (AMap (<["spec" := AMap (<["syncPolicy" := AMap (<["automated" := AMap (<["prune" := ABool true]> ∅)]>
                                                         (<["retries" := AInt64 3]> ∅))]> ∅)]> ∅))]> ∅.
Definition suspend_input : ExecuteInput := mkInput shop None "high-cpu" "prod" "0.9" 0 ∅.
Definition suspended := argocd_Execute WithValueClient suspend_input syncing.
Definition resumed := argocd_Reverse WithValueClient suspended.1.1 suspended.2.

Lemma argocd_undone_witness :
  (Status suspended.1.1, resumed.1) = (StatusSucceeded, None) ∧ resumed.2 = syncing ∧
  ∃ p app, Unmarshal (in_Params suspend_input) = inr p ∧ stored syncing !! key_of_target shop = Some app ∧
    Kind (in_Target suspend_input) = applicationKind.
Proof.
  split; [by_compute|]. split; [by_compute|].
  destruct (argocd_undone WithValueClient suspend_input syncing suspended.1.1 suspended.2)
    as (p & app & Hp & Hk & Happ & _); [apply run_succeeded; by_compute|].
  exact (ex_intro _ p (ex_intro _ app (conj Hp (conj Happ Hk)))).
Defined.
