(* ===== verification/Access.v ===== *)
(** * Access: what the operator asks of the API server, and what its role allows

    The requests a built-in plugin sends, seen by a client that records them,
    and those of the reconcilers, read off their log, against the permissions
    the plugins declare and the [+kubebuilder:rbac] markers the operator's role
    is generated from.  The manager's client answers reads of typed objects
    from a cache, which lists and watches their kind; unstructured objects are
    read directly. *)

From S2P Require Import Prelude GoLib FloatLib GoTime Api ActionTypes Metrics Effects Logic Evaluator Limiter Registry Executor AuditWriter PolicyController AuditController Sink PluginBase MeshShift Annotate NetworkIsolate Wiring PluginTheorems ArgocdTheorems.

(** ** Requests *)

Record ApiRequest : Type := mkApi { q_Verb : string; q_Group : string; q_Resource : string; q_Typed : bool }.

#[export] Instance ApiRequest_eq_dec : EqDecision ApiRequest.
Proof. solve_decision. Defined.

(** apimachinery's REST mapping: the group and resource of an apiVersion and a
    kind. *)
Class RESTMapper : Type := { resource_of : string → string → string * string }.

(** The documented resources of the two kinds the plugins name. *)
Class RESTMapperLaws `{RESTMapper} : Prop := {
  resource_of_route : resource_of "gateway.networking.k8s.io/v1" "HTTPRoute" = ("gateway.networking.k8s.io", "httproutes");
  resource_of_application : resource_of "argoproj.io/v1alpha1" "Application" = ("argoproj.io", "applications") }.

Definition on_object `{RESTMapper} (verb : string) (k : ObjKey) : ApiRequest :=
  let '(g, r) := resource_of (ok_APIVersion k) (ok_Kind k) in mkApi verb g r false.

Definition on_policy (verb : string) (typed : bool) : ApiRequest := mkApi verb "networking.k8s.io" "networkpolicies" typed.
Definition get_secret : ApiRequest := mkApi "get" EmptyString "secrets" true.

(** ** A client that records what it is asked *)

Definition Watched (W : Type) : Type := W * list ApiRequest.

(** One call of the client beneath, one request. *)
Definition recording {W A} (q : ApiRequest) (op : W → A * W) : Watched W → A * Watched W :=
  λ s, let '(a, w) := op s.1 in (a, (w, s.2 ++ [q])).
Definition unrecorded {W A} (op : W → A * W) : Watched W → A * Watched W :=
  λ s, let '(a, w) := op s.1 in (a, (w, s.2)).

Section Recording.
Context {W : Type} `{Clock W} `{ObjectClient W} `{PolicyClient W} `{SlackEnv W} `{RESTMapper}.

#[export] Instance watched_clock : Clock (Watched W) := { clock_Now := unrecorded clock_Now }.
#[export] Instance watched_objects : ObjectClient (Watched W) := {
  oc_Get k := recording (on_object "get" k) (oc_Get k);
  oc_Update o := recording (on_object "update" (u_key o)) (oc_Update o) }.
#[export] Instance watched_policies : PolicyClient (Watched W) := {
  npc_Get ns n := recording (on_policy "get" true) (npc_Get ns n);
  npc_Create np := recording (on_policy "create" false) (npc_Create np);
  npc_Update np := recording (on_policy "update" false) (npc_Update np);
  npc_Delete ns n := recording (on_policy "delete" false) (npc_Delete ns n) }.
#[export] Instance watched_slack : SlackEnv (Watched W) := {
  secret_Get ns n := recording get_secret (secret_Get ns n);
  json_MarshalPayload := json_MarshalPayload (W := W);
  http_NewRequest := http_NewRequest (W := W);
  http_Post url body := unrecorded (http_Post url body) }.

(** ** What a computation asks

    The recorded run against the plain one: the same answer and the same world
    beneath, every request it adds satisfies [P], and the answer [Q]. *)

Definition Asks {A} (P : ApiRequest → Prop) (m : Act (Watched W) A) (m0 : Act W A) (Q : A → Prop) : Prop :=
  ∀ w l, ∃ a w' k, m0 w = (a, w') ∧ m (w, l) = (a, (w', l ++ k)) ∧ Forall P k ∧ Q a.

Definition anything {A} (_ : A) : Prop := True.

Section Rules.
Context (P : ApiRequest → Prop).

Lemma asks_ret {A} (a : A) (Q : A → Prop) : Q a → Asks P (mret a) (mret a) Q.
Proof. intros Ha w l. exists a, w, []. by rewrite app_nil_r. Qed.

Lemma asks_bind {A B} m m0 (f : A → Act (Watched W) B) (f0 : A → Act W B) Q R :
  Asks P m m0 Q → (∀ a, Q a → Asks P (f a) (f0 a) R) → Asks P (m ≫= f) (m0 ≫= f0) R.
Proof.
  intros Hm Hf w l. destruct (Hm w l) as (a & w1 & k1 & Hm0 & Hm1 & HP1 & Ha).
  destruct (Hf a Ha w1 (l ++ k1)) as (b & w2 & k2 & Hf0 & Hf1 & HP2 & Hb).
  exists b, w2, (k1 ++ k2). unfold mbind, Act_bind. rewrite Hm0, Hm1, Hf1, app_assoc.
  split_and!; [done|done|by apply Forall_app|done].
Qed.

Lemma asks_recording {A} q (op : W → A * W) (Q : A → Prop) :
  P q → (∀ w, Q (op w).1) → Asks P (recording q op) op Q.
Proof.
  intros HP HQ w l. unfold recording. simpl. specialize (HQ w). destruct (op w) as [a w'].
  exists a, w', [q]. by repeat constructor.
Qed.

Lemma asks_unrecorded {A} (op : W → A * W) : Asks P (unrecorded op) op anything.
Proof.
  intros w l. unfold unrecorded. simpl. destruct (op w) as [a w']. exists a, w', []. by rewrite app_nil_r.
Qed.

Lemma asks_any {A} m (m0 : Act W A) Q : Asks P m m0 Q → Asks P m m0 anything.
Proof. intros Hm w l. destruct (Hm w l) as (a & w' & k & ? & ? & ? & _). by exists a, w', k. Qed.

End Rules.
End Recording.

(** ** Granted requests *)

Definition granted (rules : list PolicyRule) (q : ApiRequest) : Prop :=
  grants rules (q_Group q) (q_Resource q) (q_Verb q).

(** [grants] as a computation. *)
Definition names (l : list string) (x : string) : bool := bool_decide (x ∈ l ∨ "*" ∈ l).
Definition grantsb (rules : list PolicyRule) (g res v : string) : bool :=
  existsb (λ rule, names (APIGroups rule) g && names (Resources rule) res && names (Verbs rule) v) rules.

Lemma grantsb_spec rules g res v : grantsb rules g res v = true ↔ grants rules g res v.
Proof.
  unfold grantsb, grants, names. rewrite existsb_exists. setoid_rewrite andb_true_iff. setoid_rewrite andb_true_iff.
  setoid_rewrite bool_decide_eq_true. setoid_rewrite list_elem_of_In. naive_solver.
Qed.

#[export] Instance grants_dec rules g res v : Decision (grants rules g res v).
Proof. refine (cast_if (decide (grantsb rules g res v = true))); by rewrite <- grantsb_spec. Defined.

(** Rules each covered by one of [rules'] grant no more than [rules']. *)
Lemma grants_covered rules rules' g res v :
  forallb (covered_by rules') rules = true → grants rules g res v → grants rules' g res v.
Proof.
  rewrite forallb_forall. intros Hc (rule & Hin & Hg & Hr & Hv). apply list_elem_of_In in Hin.
  specialize (Hc _ Hin). unfold covered_by in Hc. rewrite forallb_forall in Hc.
  assert (∃ v', v' ∈ Verbs rule ∧ (v' = v ∨ v' = "*")) as (v' & Hv' & Heq) by naive_solver.
  specialize (Hc v' (proj1 (list_elem_of_In _ _) Hv')). apply existsb_exists in Hc as (r & Hr' & Hd).
  apply bool_decide_eq_true in Hd as (Hgs & Hrs & Hvs). exists r. apply list_elem_of_In in Hr'.
  destruct Heq as [->| ->]; set_solver.
Qed.

Lemma any_object_granted `{RESTMapper} rules vs verb k :
  mkRule ["*"] ["*"] vs ∈ rules → verb ∈ vs → granted rules (on_object verb k).
Proof.
  intros Hin Hv. unfold granted, on_object. destruct (resource_of _ _) as [g r].
  exists (mkRule ["*"] ["*"] vs). simpl. split_and!; [done|right; left..|by left].
Qed.

Lemma on_object_granted `{RESTMapper} rules verb k g r :
  resource_of (ok_APIVersion k) (ok_Kind k) = (g, r) → grantsb rules g r verb = true → granted rules (on_object verb k).
Proof. intros Hk Hg. unfold granted, on_object. rewrite Hk. by apply grantsb_spec. Qed.

(** Follow a plugin's code on both clients; the calls are left. *)
Ltac asks :=
  repeat first
    [ match goal with |- ∀ _, _ => intro end
    | apply asks_ret; done
    | eapply asks_bind; [solve [eauto with asks]|]
    | eapply asks_bind; [solve [eapply asks_any; eauto with asks]|]
    | match goal with |- Asks _ (match ?x with _ => _ end) _ _ => destruct x eqn:? end
    | progress unfold failed ].
Create HintDb asks.

(** ** The plugins *)

Section Plugins.
Context {W : Type} `{Clock W} `{ObjectStore W} `{!UnstructuredLaws} `{!SpecFieldLaws} `{PolicyClient W} `{SlackEnv W}.
Context `{RESTMapper} `{!RESTMapperLaws} `{ParamsJSON} `{TextTemplate}.
Context `{UnmarshalInto annotate_params} `{UnmarshalInto argocd_params} `{UnmarshalInto mesh_params}
  `{UnmarshalInto isolate_params} `{UnmarshalInto slack_params}.
Variable json_Changes : any → error + list backendChange.

Lemma asks_Now P : Asks P (PluginNow (W := Watched W)) (PluginNow (W := W)) anything.
Proof. apply asks_unrecorded. Qed.

(** A read of an object answers one with the key asked for. *)
Lemma asks_Get (P : ApiRequest → Prop) k :
  P (on_object "get" k) →
  Asks P (oc_Get (W := Watched W) k) (oc_Get (W := W) k) (λ got, match got with inr o => u_key o = k | inl _ => True end).
Proof.
  intros HP. apply (asks_recording P (on_object "get" k) (oc_Get k)); [done|].
  intros w. destruct (oc_Get k w) as [[e|o] w'] eqn:Hg; [done|]. simpl. by eapply stored_key, Get_stored.
Qed.

Lemma asks_Update (P : ApiRequest → Prop) o :
  P (on_object "update" (u_key o)) → Asks P (oc_Update (W := Watched W) o) (oc_Update (W := W) o) anything.
Proof. intros HP. by apply (asks_recording P (on_object "update" (u_key o)) (oc_Update o)). Qed.

Lemma asks_get_object P what target :
  P (on_object "get" (key_of_target target)) →
  Asks P (get_object (W := Watched W) what target) (get_object (W := W) what target)
    (λ got, match got with inr o => u_key o = key_of_target target | inl _ => True end).
Proof.
  intros HP. unfold get_object. eapply asks_bind; [by apply asks_Get|]. intros [e|o] Ho; apply asks_ret; [|done].
  by case_decide.
Qed.

Hint Resolve asks_Now : asks.

Lemma route_granted verb name ns :
  verb ∈ ["get"; "list"; "update"; "patch"] → granted mesh_RequiredPermissions (on_object verb (route_key name ns)).
Proof.
  intros Hv. apply (on_object_granted _ _ _ "gateway.networking.k8s.io" "httproutes"); [apply resource_of_route|].
  rewrite !elem_of_cons, elem_of_nil in Hv. by destruct_or? Hv; subst.
Qed.

Lemma asks_getRoute name ns :
  Asks (granted mesh_RequiredPermissions) (getRoute (W := Watched W) name ns) (getRoute (W := W) name ns)
    (λ got, match got with inr o => u_key o = route_key name ns | inl _ => True end).
Proof.
  unfold getRoute. eapply asks_bind; [apply asks_Get, route_granted; left|]. intros [e|o] Ho; apply asks_ret; [|done].
  by case_decide.
Qed.

Lemma applyWeight_key route backend weight matched cs route' :
  applyWeight route backend weight = inr (matched, cs, route') → u_key route' = u_key route.
Proof.
  unfold applyWeight. destruct (NestedSlice _ _) as [|[rules|]]; [done| |by intros [= _ _ <-]].
  destruct (apply_rules _ _ _ _) as [[rules' m] cs']. case_decide; [|by intros [= _ _ <-]].
  destruct (SetNestedSlice _ _ _) eqn:Hs; [done|]. intros [= _ _ <-]. by eapply SetNestedSlice_key.
Qed.

Lemma restoreWeights_key route cs route' : restoreWeights route cs = inr route' → u_key route' = u_key route.
Proof.
  unfold restoreWeights. destruct (NestedSlice _ _) as [|[rules|]]; [done| |by intros [= <-]].
  apply SetNestedSlice_key.
Qed.

Lemma asks_mesh_Execute ctx inp :
  Asks (granted mesh_RequiredPermissions) (mesh_Execute (W := Watched W) ctx inp) (mesh_Execute (W := W) ctx inp) anything.
Proof.
  unfold mesh_Execute. asks. eapply asks_bind; [apply asks_getRoute|]. intros [e|route] Hk; asks.
  eapply asks_bind; [|asks]. apply asks_Update. erewrite applyWeight_key, Hk by done. apply route_granted. set_solver.
Qed.

Lemma asks_mesh_Reverse ctx prev :
  Asks (granted mesh_RequiredPermissions) (mesh_Reverse (W := Watched W) json_Changes ctx prev)
    (mesh_Reverse (W := W) json_Changes ctx prev) anything.
Proof.
  unfold mesh_Reverse. destruct (decodeChanges _ _) as [e|cs]; [by apply asks_ret|]. cbv zeta.
  case_decide; [by apply asks_ret|]. case_decide; [by apply asks_ret|].
  destruct (negb _); [by apply asks_ret|]. eapply asks_bind; [apply asks_getRoute|].
  intros [e|route] Hk; [by apply asks_ret|]. destruct (restoreWeights _ _) as [e|route'] eqn:Hr; [by apply asks_ret|].
  apply asks_Update. rewrite (restoreWeights_key _ _ _ Hr), Hk. apply route_granted. set_solver.
Qed.

(** k8s.annotate may read and update anything. *)
Lemma annotated_granted verb k :
  verb ∈ ["get"; "patch"; "update"] → granted annotate_RequiredPermissions (on_object verb k).
Proof. intros Hv. eapply any_object_granted; [left|done]. Qed.

Lemma asks_annotate_Execute ctx inp :
  Asks (granted annotate_RequiredPermissions) (annotate_Execute (W := Watched W) ctx inp)
    (annotate_Execute (W := W) ctx inp) anything.
Proof.
  unfold annotate_Execute. asks.
  eapply asks_bind; [eapply asks_any, asks_get_object, annotated_granted; set_solver|]. intros [e|obj] _; asks.
  eapply asks_bind; [apply asks_Update, annotated_granted; set_solver|asks].
Qed.

Lemma asks_annotate_Reverse ctx prev :
  Asks (granted annotate_RequiredPermissions) (annotate_Reverse (W := Watched W) ctx prev)
    (annotate_Reverse (W := W) ctx prev) anything.
Proof.
  unfold annotate_Reverse. asks.
  eapply asks_bind; [eapply asks_any, asks_get_object, annotated_granted; set_solver|]. intros [e|obj] _; asks.
  eapply asks_bind; [apply asks_Update, annotated_granted; set_solver|asks].
Qed.

(** argocd.suspend may touch Applications only. *)
Lemma application_granted verb t :
  APIVersion t = applicationAPIVersion → Kind t = applicationKind → verb ∈ ["get"; "patch"; "update"] →
  granted argocd_RequiredPermissions (on_object verb (key_of_target t)).
Proof.
  intros Ha Hk Hv. apply (on_object_granted _ _ _ "argoproj.io" "applications").
  - simpl. rewrite Ha, Hk. apply resource_of_application.
  - rewrite !elem_of_cons, elem_of_nil in Hv. by destruct_or? Hv; subst.
Qed.

Lemma asks_argocd_Execute ctx inp :
  Asks (granted argocd_RequiredPermissions) (argocd_Execute (W := Watched W) ctx inp)
    (argocd_Execute (W := W) ctx inp) anything.
Proof.
  unfold argocd_Execute. eapply asks_bind; [apply asks_Now|]. intros ts _.
  case_decide as Ht; [by apply asks_ret|].
  assert (APIVersion (in_Target inp) = applicationAPIVersion ∧ Kind (in_Target inp) = applicationKind) as [Ha Hk].
  { split; apply dec_stable; tauto. }
  asks. eapply asks_bind; [apply asks_get_object, application_granted; [done..|set_solver]|]. intros [e|app] Hkey; asks.
  eapply asks_bind; [|asks]. apply asks_Update. unfold setAnnotation, automated_path.
  rewrite SetAnnotations_key, Remove_key, Hkey. apply application_granted; [done..|set_solver].
Qed.

Lemma removeAnnotation_key o key : u_key (removeAnnotation o key) = u_key o.
Proof. unfold removeAnnotation. destruct (GetAnnotations o); [apply SetAnnotations_key|done]. Qed.

Lemma asks_argocd_Reverse ctx prev :
  APIVersion (ResTarget prev) = applicationAPIVersion → Kind (ResTarget prev) = applicationKind →
  Asks (granted argocd_RequiredPermissions) (argocd_Reverse (W := Watched W) ctx prev)
    (argocd_Reverse (W := W) ctx prev) anything.
Proof.
  intros Ha Hk. unfold argocd_Reverse. destruct (negb _); [by apply asks_ret|].
  eapply asks_bind; [apply asks_get_object, application_granted; [done..|set_solver]|].
  intros [e|app] Hkey; [by apply asks_ret|].
  match goal with |- Asks _ (match ?r with _ => _ end) _ _ => destruct r as [e|app'] eqn:Hr end; [by apply asks_ret|].
  assert (u_key app' = u_key app) as Hk'.
  { repeat case_match; simplify_eq; try done; by eapply SetField_key. }
  eapply asks_bind; [|asks]. apply asks_Update. rewrite removeAnnotation_key, Hk', Hkey.
  apply application_granted; [done..|set_solver].
Qed.

(** network.isolate may read anything and change NetworkPolicies. *)
Lemma policy_granted verb typed :
  verb ∈ ["get"; "list"; "create"; "update"; "patch"; "delete"] →
  granted isolate_RequiredPermissions (on_policy verb typed).
Proof.
  intros Hv. apply grantsb_spec. rewrite !elem_of_cons, elem_of_nil in Hv. by destruct_or? Hv; subst.
Qed.

Lemma asks_policy {A} verb typed (op : W → A * W) :
  verb ∈ ["get"; "list"; "create"; "update"; "patch"; "delete"] →
  Asks (granted isolate_RequiredPermissions) (recording (on_policy verb typed) op) op anything.
Proof. intros Hv. apply asks_recording; [by apply policy_granted|done]. Qed.

Lemma asks_isolate_Execute ctx inp :
  Asks (granted isolate_RequiredPermissions) (isolate_Execute (W := Watched W) ctx inp)
    (isolate_Execute (W := W) ctx inp) anything.
Proof.
  unfold isolate_Execute, isolate_selector, applyPolicy. asks.
  eapply (asks_bind _ _ _ _ _ anything).
  - destruct (found_map _); [by apply asks_ret|].
    eapply asks_bind; [eapply asks_any, asks_get_object, any_object_granted; [right; left|left]|]. asks.
  - intros [e|[sel|]] _; asks. eapply (asks_bind _ _ _ _ _ anything).
    + eapply asks_bind; [apply asks_policy; set_solver|]. intros [e|np] _; [case_decide|]; asks;
        apply asks_policy; set_solver.
    + asks.
Qed.

Lemma asks_isolate_Reverse ctx prev :
  Asks (granted isolate_RequiredPermissions) (isolate_Reverse (W := Watched W) ctx prev)
    (isolate_Reverse (W := W) ctx prev) anything.
Proof.
  unfold isolate_Reverse. cbv zeta. case_decide; [by apply asks_ret|]. destruct (negb _); [by apply asks_ret|].
  eapply asks_bind; [apply asks_policy; set_solver|asks].
Qed.

(** notify.slack reads one Secret. *)
Lemma asks_postMessage P url text channel :
  Asks P (postMessage (W := Watched W) url text channel) (postMessage (W := W) url text channel) anything.
Proof.
  unfold postMessage. cbv zeta. change (json_MarshalPayload (W := Watched W)) with (json_MarshalPayload (W := W)).
  change (http_NewRequest (W := Watched W)) with (http_NewRequest (W := W)). asks.
  eapply asks_bind; [apply (asks_unrecorded _ (http_Post _ _))|asks].
Qed.
Hint Resolve asks_postMessage : asks.

Lemma asks_slack_Execute ctx inp :
  Asks (granted slack_RequiredPermissions) (slack_Execute (W := Watched W) ctx inp)
    (slack_Execute (W := W) ctx inp) anything.
Proof.
  unfold slack_Execute. asks.
  eapply (asks_bind _ _ _ _ _ anything);
    [apply (asks_recording _ get_secret (secret_Get _ _)); [by apply grantsb_spec|done]|asks].
Qed.

Lemma asks_slack_Reverse ctx prev :
  Asks (granted slack_RequiredPermissions) (slack_Reverse (W := Watched W) ctx prev) (slack_Reverse (W := W) ctx prev) anything.
Proof. by apply asks_ret. Qed.

(** An [Execute] of argocd.suspend that did not fail had an Application as its target. *)
Lemma argocd_Execute_target ctx inp w res w' :
  argocd_Execute (W := W) ctx inp w = ((res, None), w') →
  ResTarget res = in_Target inp ∧
  APIVersion (in_Target inp) = applicationAPIVersion ∧ Kind (in_Target inp) = applicationKind.
Proof.
  unfold argocd_Execute, failed, mbind, Act_bind, mret, Act_ret. destruct (PluginNow w) as [ts w1].
  case_decide as Ht; [done|]. intros Hrun. split; [|split; apply dec_stable; tauto].
  repeat case_match; simplify_eq; done.
Qed.

End Plugins.

(** ** The built-in plugins stay within what they declare *)

Section Builtins.
Context {W : Type} `{Clock W} `{ObjectStore W} `{!UnstructuredLaws} `{!SpecFieldLaws} `{PolicyClient W} `{SlackEnv W}.
Context `{RESTMapper} `{!RESTMapperLaws} `{ParamsJSON} `{TextTemplate}.
Context `{UnmarshalInto annotate_params} `{UnmarshalInto argocd_params} `{UnmarshalInto mesh_params}
  `{UnmarshalInto isolate_params} `{UnmarshalInto slack_params}.
Variable json_Changes : any → error + list backendChange.

(** C34. The requests of the built-in plugins: on a client that records them,
    every plugin gives the answers and leaves the world it does on the plain
    one, and every request its [Execute] sends is granted by the permissions
    it declares and by the operator's markers; so is every request of its
    [Reverse] on a result that carries the target of an [Execute] that did
    not fail. *)
Theorem plugins_within_permissions :
  Forall2 (λ (p : Action W) (recorded : Action (Watched W)),
    pl_Name recorded = pl_Name p ∧
    (∀ ctx inp, Asks (granted (pl_RequiredPermissions p)) (pl_Execute recorded ctx inp) (pl_Execute p ctx inp) anything) ∧
    (∀ ctx inp w res w', pl_Execute p ctx inp w = ((res, None), w') →
       ∀ ctx' prev, ResTarget prev = ResTarget res →
       Asks (granted (pl_RequiredPermissions p)) (pl_Reverse recorded ctx' prev) (pl_Reverse p ctx' prev) anything) ∧
    ∀ q, granted (pl_RequiredPermissions p) q → granted plugin_markers q)
  (builtins json_Changes) (builtins json_Changes).
Proof.
  assert (∀ rules q, forallb (covered_by plugin_markers) rules = true → granted rules q → granted plugin_markers q)
    as Hrole by (intros rules q; apply grants_covered).
  repeat constructor; simpl.
  - intros ctx inp. apply asks_argocd_Execute.
  - intros ctx inp w res w' Hrun ctx' prev Hprev.
    destruct (argocd_Execute_target _ _ _ _ _ Hrun) as (Ht & Ha & Hk).
    apply asks_argocd_Reverse; by rewrite Hprev, Ht.
  - intros q. by apply Hrole; by_compute.
  - intros ctx inp. apply asks_annotate_Execute.
  - intros *. intros _ *. intros _. apply asks_annotate_Reverse.
  - intros q. by apply Hrole; by_compute.
  - intros ctx inp. apply asks_mesh_Execute.
  - intros *. intros _ *. intros _. apply asks_mesh_Reverse.
  - intros q. by apply Hrole; by_compute.
  - intros ctx inp. apply asks_isolate_Execute.
  - intros *. intros _ *. intros _. apply asks_isolate_Reverse.
  - intros q. by apply Hrole; by_compute.
  - intros ctx inp. apply asks_slack_Execute.
  - intros *. intros _ *. intros _. apply asks_slack_Reverse.
  - intros q. by apply Hrole; by_compute.
Qed.

End Builtins.

(** ** The operator's role *)

(** The markers of reactivepolicy_controller.go and of actionaudit_controller.go, in order. *)
Definition policy_markers : list PolicyRule :=
  [mkRule ["reactive-policy.io"] ["reactivepolicies"] ["get"; "list"; "watch"; "create"; "update"; "patch"; "delete"];
   mkRule ["reactive-policy.io"] ["reactivepolicies/status"] ["get"; "update"; "patch"];
   mkRule ["reactive-policy.io"] ["reactivepolicies/finalizers"] ["update"];
   mkRule ["reactive-policy.io"] ["actionaudits"] ["get"; "list"; "watch"; "create"]].

Definition audit_markers : list PolicyRule :=
  [mkRule ["reactive-policy.io"] ["actionaudits"] ["get"; "list"; "watch"; "update"; "patch"; "delete"];
   mkRule ["reactive-policy.io"] ["actionaudits/status"] ["get"; "update"; "patch"];
   mkRule ["reactive-policy.io"] ["reactivepolicies"] ["get"; "list"; "watch"];
   mkRule ["reactive-policy.io"] ["reactivepolicies/status"] ["get"; "update"; "patch"]].

Definition manager_role : list PolicyRule := policy_markers ++ audit_markers ++ plugin_markers.

(** What a request takes: its own verb and, for a read through the cache, the
    list and the watch that fill it. *)
Definition needs (q : ApiRequest) : list string := q_Verb q :: if q_Typed q then ["list"; "watch"] else [].
Definition served (rules : list PolicyRule) (q : ApiRequest) : Prop :=
  Forall (grants rules (q_Group q) (q_Resource q)) (needs q).

#[export] Instance served_dec rules q : Decision (served rules q).
Proof. unfold served. apply _. Defined.

Lemma served_covered rules rules' q :
  forallb (covered_by rules') rules = true → served rules q → served rules' q.
Proof. intros Hc Hs. eapply Forall_impl; [exact Hs|]. intros v. by apply grants_covered. Qed.

(** *** The reconcilers *)

Definition on_resource (verb resource : string) (typed : bool) : ApiRequest := mkApi verb "reactive-policy.io" resource typed.

(** The API requests of a logged call; plugins and sinks send their own. *)
Definition requests `{RESTMapper} (e : IOEvent) : list ApiRequest :=
  match e with
  | IoGetPolicy _ _ => [on_resource "get" "reactivepolicies" true]
  | IoGetAudit _ _ => [on_resource "get" "actionaudits" true]
  | IoListAudits _ _ _ _ => [on_resource "list" "actionaudits" true]
  | IoListObjects ns apiVersion kind _ => [on_object "list" (mkObjKey apiVersion (TrimSuffix kind "List") ns EmptyString)]
  | IoCreateAudit _ _ => [on_resource "create" "actionaudits" false]
  | IoUpdateAudit _ _ => [on_resource "update" "actionaudits" false]
  | IoStatusUpdateAudit _ _ => [on_resource "update" "actionaudits/status" false]
  | IoStatusUpdatePolicy _ _ => [on_resource "update" "reactivepolicies/status" false]
  | IoDeleteAudit _ _ => [on_resource "delete" "actionaudits" false]
  | IoNow _ | IoQuery _ _ | IoExecute _ _ _ | IoReverse _ _ _ | IoSinkTrigger _ _ | IoSinkRevert _ _ => []
  end.

Definition within `{RESTMapper} (rules : list PolicyRule) (e : IOEvent) : Prop := Forall (served rules) (requests e).
#[export] Instance within_dec `{RESTMapper} rules e : Decision (within rules e).
Proof. unfold within. apply _. Defined.

Lemma within_run `{RESTMapper} rules e : is_run e → within rules e.
Proof. destruct e; try done; intros _; constructor. Qed.

Lemma within_list `{RESTMapper} ns apiVersion kind r :
  within plugin_markers (IoListObjects ns apiVersion kind r).
Proof.
  constructor; [|done]. unfold served, needs, on_object. destruct (resource_of _ _) as [g res]. simpl.
  constructor; [|done]. exists (mkRule ["*"] ["*"] ["get"; "list"; "patch"; "update"]). simpl.
  split_and!; [right; left|right; left|right; left|left; right; left].
Qed.

Section Reconcilers.
Context {W : Type} `{Cluster W} `{LocalZone} `{DetailsCodec} `{RESTMapper}.
Context `{PromAPI W}.
Variable exec : Registry W.
Variable sink : option (Sink W).

Lemma within_decided rules e : bool_decide (within rules e) = true → within rules e.
Proof. apply bool_decide_eq_true_1. Qed.

Ltac reconciler_emits := emits; try (apply within_decided; by_compute).

Lemma run_targets_within rules ctx policy mv from to targets : Emits (within rules) (run_targets exec ctx policy mv from to targets).
Proof. eapply Emits_mono; [apply Emits_run_targets|apply within_run]. Qed.

Lemma set_audit_condition_emits P audit ty status reason message :
  Emits P (set_audit_condition audit ty status reason message).
Proof. unfold set_audit_condition. emits. Qed.

Lemma setCondition_emits P policy ty status reason message : Emits P (setCondition policy ty status reason message).
Proof. unfold setCondition. emits. Qed.
#[local] Hint Resolve run_targets_within set_audit_condition_emits setCondition_emits : go.

Lemma closeGate_within audit phase reason message expiry :
  Emits (within audit_markers) (closeGate audit phase reason message expiry).
Proof. unfold closeGate, startCooldown. reconciler_emits. Qed.
#[local] Hint Resolve closeGate_within : go.

Lemma revert_within ctx audit expiry : Emits (within audit_markers) (revert exec sink ctx audit expiry).
Proof. unfold revert, reverseOne. reconciler_emits. Qed.

Lemma releaseGate_within ctx audit gate expiry : Emits (within audit_markers) (releaseGate exec sink ctx audit gate expiry).
Proof. unfold releaseGate, forward_trigger, startCooldown. reconciler_emits. Qed.
#[local] Hint Resolve revert_within releaseGate_within : go.

Lemma audit_Reconcile_within ctx req : Emits (within audit_markers) (AuditController.Reconcile exec sink ctx req).
Proof. unfold AuditController.Reconcile, retentionFor, resolveGate. reconciler_emits. Qed.

(** The policy reconciler's own rules serve all it sends but the listing of
    targets and the status write of a record it created. *)
Definition within_policy (e : IOEvent) : Prop :=
  within policy_markers e ∨
  ((∃ ns apiVersion kind r, e = IoListObjects ns apiVersion kind r) ∨ ∃ a r, e = IoStatusUpdateAudit a r) ∧
  within plugin_markers e.

Lemma within_policy_decided e : bool_decide (within policy_markers e) = true → within_policy e.
Proof. left. by apply within_decided. Qed.

Lemma status_update_within a r : within_policy (IoStatusUpdateAudit a r).
Proof. right. split; [right; by eexists _, _|]. apply within_decided. by_compute. Qed.

Lemma list_within ns apiVersion kind r : within_policy (IoListObjects ns apiVersion kind r).
Proof. right. split; [left; by eexists _, _, _, _|]. apply within_list. Qed.

Lemma run_within ctx policy mv from to targets : Emits within_policy (run_targets exec ctx policy mv from to targets).
Proof. eapply Emits_mono; [apply Emits_run_targets|]. intros e He. left. by apply within_run. Qed.
#[local] Hint Resolve run_within : go.

Ltac policy_emits :=
  emits; try first [apply status_update_within | apply list_within | apply within_policy_decided; by_compute].

Lemma requeue_within policy after : Emits within_policy (requeue policy after).
Proof. unfold requeue. policy_emits. Qed.
#[local] Hint Resolve requeue_within : go.

Lemma trigger_within ctx policy key now pollInterval :
  Emits within_policy (trigger exec sink ctx policy key now pollInterval).
Proof.
  unfold trigger, resolveTargets, list_kind, trigger_gated, trigger_ungated, writeAudit, writeGatedAudit, forward_trigger,
    limiter_Observe, Window_Forget. policy_emits.
Qed.
#[local] Hint Resolve trigger_within : go.

Variable prometheus : Factory W.

Lemma policy_Reconcile_within ctx req : Emits within_policy (PolicyController.Reconcile prometheus exec sink ctx req).
Proof.
  unfold PolicyController.Reconcile, gate0, gateStillOpen, gate1, gate2, evaluate, Allowed, Window_Observe, Window_Forget,
    limiter_Forget, limiter_count, CallQuery. policy_emits.
Qed.


End Reconcilers.

(** *** Reads through the cache *)

Section Cached.
Context {W : Type} `{Clock W} `{ObjectClient W} `{PolicyClient W} `{SlackEnv W} `{RESTMapper} `{ParamsJSON} `{TextTemplate}.
Context `{UnmarshalInto isolate_params} `{UnmarshalInto slack_params}.

Lemma applyPolicy_reads np w l r w' l' :
  applyPolicy (W := Watched W) np (w, l) = (r, (w', l')) → on_policy "get" true ∈ l'.
Proof.
  unfold applyPolicy, mbind, Act_bind, mret, Act_ret, npc_Get, npc_Create, npc_Update, watched_policies, recording. simpl.
  intros Hrun. repeat case_match; simplify_eq; set_solver.
Qed.

Lemma isolate_reads ctx inp w res w' asked :
  isolate_Execute (W := Watched W) ctx inp (w, []) = ((res, None), (w', asked)) → on_policy "get" true ∈ asked.
Proof.
  unfold isolate_Execute, failed, mbind, Act_bind, mret, Act_ret. intros Hrun. repeat case_match; simplify_eq.
  match goal with Hap : applyPolicy _ ?s = _ |- _ => destruct s; by eapply applyPolicy_reads end.
Qed.

(** What follows the read of the Secret keeps it in the record. *)
Lemma secret_then_post ns n s data s1 url text channel r w' asked :
  secret_Get (W := Watched W) ns n s = (inr data, s1) → postMessage (W := Watched W) url text channel s1 = (r, (w', asked)) →
  get_secret ∈ asked.
Proof.
  destruct s as [w l], s1 as [w1 l1]. intros Hget Hpost. unfold secret_Get, watched_slack, recording in Hget.
  simpl in Hget. destruct (secret_Get ns n w) as [got w1']. injection Hget as _ <- <-.
  destruct (asks_postMessage (λ _, True) url text channel w1' (l ++ [get_secret])) as (r' & w2 & k & _ & Hp & _).
  rewrite Hp in Hpost. simplify_eq. set_solver.
Qed.

Lemma slack_reads ctx inp w res w' asked :
  slack_Execute (W := Watched W) ctx inp (w, []) = ((res, None), (w', asked)) → get_secret ∈ asked.
Proof.
  unfold slack_Execute, failed, mbind, Act_bind, mret, Act_ret. intros Hrun.
  repeat case_match; simplify_eq; by eapply secret_then_post.
Qed.


End Cached.

(** ** Witnesses *)

#[local] Instance some_mapper : RESTMapper := {
  resource_of apiVersion kind :=
    if decide (kind = "HTTPRoute") then ("gateway.networking.k8s.io", "httproutes")
    else if decide (kind = "Application") then ("argoproj.io", "applications") else (EmptyString, "pods") }.
#[local] Instance some_mapper_laws : RESTMapperLaws.
Proof. by split. Qed.

#[local] Existing Instances tree_unstructured tree_laws tree_spec_laws tree_clock tree_client tree_store argocd_reason.
#[local] Instance some_slack_params : UnmarshalInto slack_params :=
  { json_UnmarshalInto _ := inr (mkSlackParams (mkSecretRef "hook" "url") EmptyString EmptyString EmptyString) }.

(** A world without policies, with one Secret and a Slack that answers. *)
#[local] Instance no_policies : PolicyClient (gmap ObjKey TreeBody) := {
  npc_Get _ _ w := (inl (Err [NotFound] "not found"), w);
  npc_Create _ w := (None, w);
  npc_Update _ w := (None, w);
  npc_Delete _ _ w := (None, w) }.
#[local] Instance some_slack : SlackEnv (gmap ObjKey TreeBody) := {
  secret_Get _ _ w := (inr (<["url" := "https://hooks.example"]> ∅), w);
  json_MarshalPayload _ := inr "{}";
  http_NewRequest _ _ := inr tt;
  http_Post _ _ w := (inr 200, w) }.

Definition watched_suspension := argocd_Execute (W := Watched (gmap ObjKey TreeBody)) WithValueClient suspend_input (syncing, []).

Lemma plugins_within_permissions_witness :
  (watched_suspension.1.1, watched_suspension.2.1) = (suspended.1.1, suspended.2) ∧
  watched_suspension.2.2 = [mkApi "get" "argoproj.io" "applications" false; mkApi "update" "argoproj.io" "applications" false] ∧
  Forall (granted argocd_RequiredPermissions) watched_suspension.2.2.
Proof.
  split; [by_compute|]. split; [by_compute|].
  pose proof (plugins_within_permissions (W := gmap ObjKey TreeBody) pw_changes) as Hall.
  apply Forall2_cons_1 in Hall as [(_ & Hexec & _) _].
  destruct (Hexec WithValueClient suspend_input syncing []) as (a & w' & k & _ & Hrun & Hk & _).
  assert (watched_suspension = (a, (w', k))) as -> by exact Hrun. exact Hk.
Defined.

(** Posting to Slack, on a client that enforces nothing. *)
Definition watched_post := slack_Execute (W := Watched (gmap ObjKey TreeBody)) WithValueClient suspend_input (syncing, []).

