(* ===== verification/DeepCopyTheorems.v ===== *)
(** * The generated copies are deep: theorems on [DeepCopy]

    Each view is [Local] and each [DeepCopyInto] [Copies] its view; both are
    instances, found field by field.  The theorems state what a caller of
    [DeepCopyObject] relies on, and that the approval webhook's stamping of a
    copy, done by assignments through pointers, is the update of a value that
    [AuditWebhook] makes. *)

From S2P Require Import Prelude GoLib GoTime Api AuditWebhook GoHeap DeepCopy.

(** ** Every view depends on the cells it names only *)

Section Locals.
Context `{ExtLaws}.

#[export] Instance local_Params l : Local (view_Params l).
Proof. unfold view_Params, view_entry. apply _. Qed.
#[export] Instance local_Action a : Local (view_Action a).
Proof. unfold view_Action. apply _. Qed.
#[export] Instance local_Observe o : Local (view_Observe o).
Proof. unfold view_Observe. apply _. Qed.
#[export] Instance local_Target t : Local (view_Target t).
Proof. unfold view_Target. apply _. Qed.
#[export] Instance local_PolicySpec s : Local (view_PolicySpec s).
Proof. unfold view_PolicySpec. apply _. Qed.
#[export] Instance local_PolicyStatus s : Local (view_PolicyStatus s).
Proof. unfold view_PolicyStatus. apply _. Qed.
#[export] Instance local_Policy p : Local (view_Policy p).
Proof. unfold view_Policy. apply _. Qed.
#[export] Instance local_PolicyList l : Local (view_PolicyList l).
Proof. unfold view_PolicyList. apply _. Qed.
#[export] Instance local_Gate g : Local (view_Gate g).
Proof. unfold view_Gate. apply _. Qed.
#[export] Instance local_Record r : Local (view_Record r).
Proof. unfold view_Record. apply _. Qed.
#[export] Instance local_AuditSpec s : Local (view_AuditSpec s).
Proof. unfold view_AuditSpec. apply _. Qed.
#[export] Instance local_AuditStatus s : Local (view_AuditStatus s).
Proof. unfold view_AuditStatus. apply _. Qed.
#[export] Instance local_Audit a : Local (view_Audit a).
Proof. unfold view_Audit. apply _. Qed.
#[export] Instance local_AuditList l : Local (view_AuditList l).
Proof. unfold view_AuditList. apply _. Qed.
#[export] Instance local_Object o : Local (view_Object o).
Proof. destruct o; apply _. Qed.
#[export] Instance local_Interface o : Local (view_Interface o).
Proof. destruct o; apply _. Qed.
End Locals.

(** ** Every [DeepCopyInto] copies *)

(** Split the hypothesis that a struct is readable into its fields. *)
Ltac view_fields H :=
  repeat match type of H with
  | (_ ≫= _) _ = Some _ =>
      let v := fresh "v" in let L1 := fresh "L" in let L2 := fresh "L" in
      let E := fresh "E" in let Eq := fresh "Eq" in
      apply rd_bind_Some in H; destruct H as (v & L1 & L2 & E & H & Eq); subst
  end.

(** Copy the next field, then put the copies together. *)
Ltac copy_field :=
  match goal with
  | E : ?m ?h0 = Some (?v, _) |- ∃ _ _, (?c ?r ≫= ?k) ?h = Some _ ∧ _ =>
      lazymatch m with
      | ?view r =>
          refine (copy_bind view _ c k _ h0 h r v _ E _ _);
          [ first [ reflexivity
                  | repeat match goal with F : fresh_view _ _ _ _ |- _ => apply proj1 in F end;
                    repeat (etransitivity; [eassumption|]); reflexivity ]
          | let h1 := fresh "h" in let x := fresh "x" in let F := fresh "F" in intros h1 x F; cbv beta ]
      end
  end.
Ltac copies_struct :=
  intros ???? HV; view_fields HV; injection HV as <- <-;
  repeat copy_field; eexists _, _; split; [reflexivity|];
  repeat match goal with F : fresh_view ?m ?v ?h _ |- fresh_view _ _ ?h _ =>
    refine (fresh_view_bind _ _ _ _ _ _ _ F _) end; apply fresh_view_ret.

Section CopiesInto.
Context `{ExtLaws}.

(** A read of a list does not depend on the order beyond the order of its answer. *)
Lemma mapM_permutation {A V : Type} (view : A → Rd Cell V) xs ys h vs L :
  xs ≡ₚ ys → mapM view xs h = Some (vs, L) →
  ∃ vs' L', mapM view ys h = Some (vs', L') ∧ vs ≡ₚ vs' ∧ L ≡ₚ L'.
Proof.
  intros HP. revert vs L. induction HP as [|x xs ys HP IH|x y xs|xs ys zs HP1 IH1 HP2 IH2]; intros vs L E.
  - by exists vs, L.
  - simpl in E. view_fields E. injection E as <- <-. destruct (IH _ _ E1) as (vs' & L' & E' & HPv & HPL).
    exists (v :: vs'), (L0 ++ L' ++ []). split; [|by rewrite HPv, HPL].
    simpl. by do 2 (eapply rd_bind_intro; [done|]).
  - simpl in E. view_fields E. injection E as <- <-. view_fields E1. injection E1 as <- <-.
    exists (v1 :: v :: v2), (L1 ++ (L0 ++ L ++ []) ++ []). split.
    { simpl. eapply rd_bind_intro; [done|]. eapply rd_bind_intro; [|done].
      by do 2 (eapply rd_bind_intro; [done|]). }
    split; [constructor|]. rewrite !app_nil_r, !app_assoc. by rewrite (Permutation_app_comm L0).
  - destruct (IH1 _ _ E) as (vs1 & L1 & E1 & HP1v & HP1L).
    destruct (IH2 _ _ E1) as (vs2 & L2 & E2 & HP2v & HP2L).
    exists vs2, L2. split; [done|]. split; by etrans.
Qed.

Lemma view_entry_keys kvs h vs L : mapM view_entry kvs h = Some (vs, L) → vs.*1 = kvs.*1.
Proof.
  revert vs L. induction kvs as [|kv kvs IH]; intros vs L E; simpl in E.
  - by injection E as <- <-.
  - view_fields E. injection E as <- <-. unfold view_entry in E0. view_fields E0. injection E0 as <- <-.
    csimpl. f_equal. by eapply IH.
Qed.

#[export] Instance local_entry kv : Local (view_entry kv).
Proof. unfold view_entry. apply _. Qed.

#[export] Instance copies_entry : Copies view_entry view_entry entry_copy.
Proof.
  intros h kv w L E. unfold view_entry in E. view_fields E. injection E as <- <-.
  unfold entry_copy. copy_field. destruct F as (Hs & L1 & E1 & ND & HL).
  unfold view_ptr in E1. view_fields E1. destruct (_ !! p_idx x) as [val|] eqn:Ex; [|done].
  exists h0, (kv.1, val). split.
  - eapply mem_bind_intro; [|done]. eapply mem_bind_intro; [by eapply rd_cell_load|]. by rewrite Ex.
  - split; [done|]. exists (L2 ++ []). split; [by eapply rd_bind_intro|]. rewrite app_nil_r.
    apply NoDup_app in ND as (_ & _ & ND). split; [done|]. intros l Hl. apply HL, elem_of_app. by right.
Qed.

(** The new map holds the copies under the same keys, in whatever order they were made. *)
#[export] Instance copies_Params : Copies view_Params view_Params params_copy.
Proof.
  intros h l w L E. unfold view_Params in E. apply rd_bind_Some in E as (m & L0 & L1' & E0 & E & ->).
  apply rd_bind_Some in E as (kvs & L1 & L2' & E1 & [= <- <-] & ->).
  destruct (mapM_permutation view_entry (map_to_list m) (Range m) h kvs L1) as (kvs1 & L' & E' & HPk & _);
    [by rewrite Range_perm|done|].
  destruct (copies _ _ _ _ E') as (h1 & kvs2 & E2 & F).
  assert (Hk : kvs2.*1 = kvs1.*1) by (destruct F as (_ & L2 & EF & _); by rewrite (view_entry_keys _ _ _ _ EF)).
  assert (NDk : NoDup kvs.*1) by (rewrite (view_entry_keys _ _ _ _ E1); apply NoDup_fst_map_to_list).
  assert (ND2 : NoDup kvs2.*1) by (rewrite Hk; by rewrite <- HPk).
  eexists _, _. split.
  { unfold params_copy. eapply mem_bind_intro; [by eapply rd_cell_load|]. by eapply mem_bind_intro. }
  apply fresh_view_cell; [intros; apply _|]. destruct F as (Hs & L2 & EF & NDL & HL). split; [done|].
  destruct (mapM_permutation view_entry kvs2 (map_to_list (list_to_map kvs2)) h1 kvs1 L2) as (kvs3 & L3 & E3 & HP3 & HPL);
    [by rewrite map_to_list_to_map|done|].
  exists (L3 ++ []). split.
  { eapply rd_bind_intro; [done|]. rewrite (list_to_map_proper kvs kvs3); [done|done|by rewrite HPk]. }
  rewrite app_nil_r. split; [by rewrite <- HPL|]. intros l'. rewrite <- HPL. apply HL.
Qed.

#[export] Instance copies_Action : Copies view_Action view_Action Action_DeepCopyInto.
Proof. unfold Action_DeepCopyInto, view_Action. copies_struct. Qed.
#[export] Instance copies_Observe : Copies view_Observe view_Observe Observe_DeepCopyInto.
Proof. unfold Observe_DeepCopyInto, view_Observe. copies_struct. Qed.
#[export] Instance copies_Target : Copies view_Target view_Target Target_DeepCopyInto.
Proof. unfold Target_DeepCopyInto, view_Target. copies_struct. Qed.
#[export] Instance copies_PolicySpec : Copies view_PolicySpec view_PolicySpec ReactivePolicySpec_DeepCopyInto.
Proof. unfold ReactivePolicySpec_DeepCopyInto, view_PolicySpec. copies_struct. Qed.
#[export] Instance copies_PolicyStatus : Copies view_PolicyStatus view_PolicyStatus ReactivePolicyStatus_DeepCopyInto.
Proof. unfold ReactivePolicyStatus_DeepCopyInto, view_PolicyStatus. copies_struct. Qed.
#[export] Instance copies_Policy : Copies view_Policy view_Policy ReactivePolicy_DeepCopyInto.
Proof. unfold ReactivePolicy_DeepCopyInto, view_Policy. copies_struct. Qed.
#[export] Instance copies_PolicyList : Copies view_PolicyList view_PolicyList ReactivePolicyList_DeepCopyInto.
Proof. unfold ReactivePolicyList_DeepCopyInto, view_PolicyList. copies_struct. Qed.
#[export] Instance copies_Gate : Copies view_Gate view_Gate ApprovalGate_DeepCopyInto.
Proof. unfold ApprovalGate_DeepCopyInto, view_Gate. copies_struct. Qed.
#[export] Instance copies_Record : Copies view_Record view_Record ActionRecord_DeepCopyInto.
Proof. unfold ActionRecord_DeepCopyInto, view_Record. copies_struct. Qed.
#[export] Instance copies_AuditSpec : Copies view_AuditSpec view_AuditSpec ActionAuditSpec_DeepCopyInto.
Proof. unfold ActionAuditSpec_DeepCopyInto, view_AuditSpec. copies_struct. Qed.
#[export] Instance copies_AuditStatus : Copies view_AuditStatus view_AuditStatus ActionAuditStatus_DeepCopyInto.
Proof. unfold ActionAuditStatus_DeepCopyInto, view_AuditStatus. copies_struct. Qed.
#[export] Instance copies_Audit : Copies view_Audit view_Audit ActionAudit_DeepCopyInto.
Proof. unfold ActionAudit_DeepCopyInto, view_Audit. copies_struct. Qed.
#[export] Instance copies_AuditList : Copies view_AuditList view_AuditList ActionAuditList_DeepCopyInto.
Proof. unfold ActionAuditList_DeepCopyInto, view_AuditList. copies_struct. Qed.
End CopiesInto.

(** ** A copied object *)

Section Objects.
Context `{ExtLaws}.

Lemma as_object_copies {A V : Type} `{Stored Cell (list A)} (view : A → Rd Cell V) c
    (mk : option pointer → Object) (ct : V → Content) :
  Copies view view c → (∀ a, Local (view a)) →
  (∀ p, view_Object (mk p) = (v ← view_nilable (view_ptr view) p; mret (content ct v))) →
  Copies (λ p, view_Object (mk p)) view_Interface (λ p, as_object mk (deep_copy c p)).
Proof.
  intros Hc Hl Hmk h p w L E. rewrite Hmk in E. view_fields E. injection E as <- <-.
  unfold as_object. copy_field. eexists _, _. split; [reflexivity|].
  assert (F' := fresh_view_bind _ (λ v, mret (content ct v)) _ _ _ _ _ F (fresh_view_ret _ _)).
  destruct x as [q|]; [by simpl; rewrite Hmk|]. destruct F as (Hs & L2 & EF & _). injection EF as <- <-.
  split; [done|]. exists []. split; [done|]. split; [constructor|]. by intros l ?%elem_of_nil.
Qed.

#[export] Instance copies_Object : Copies view_Object view_Interface DeepCopyObject.
Proof.
  intros h o. destruct o; simpl DeepCopyObject.
  - revert h p. apply (as_object_copies view_Audit ActionAudit_DeepCopyInto _ CtActionAudit); [apply _..|reflexivity].
  - revert h p. apply (as_object_copies view_AuditList ActionAuditList_DeepCopyInto _ CtActionAuditList); [apply _..|reflexivity].
  - revert h p. apply (as_object_copies view_Policy ReactivePolicy_DeepCopyInto _ CtReactivePolicy); [apply _..|reflexivity].
  - revert h p. apply (as_object_copies view_PolicyList ReactivePolicyList_DeepCopyInto _ CtReactivePolicyList); [apply _..|reflexivity].
Qed.

(** The pointer an object carries. *)
Definition object_ptr (o : Object) : option pointer :=
  match o with
  | ObjActionAudit p | ObjActionAuditList p | ObjReactivePolicy p | ObjReactivePolicyList p => p
  end.

(** The generated test keeps a typed nil out of the interface. *)
Lemma as_object_nil {A : Type} `{Stored Cell (list A)} mk (c : A → Mem Cell A) p h h' o :
  (∀ p, object_ptr (mk p) = p) → as_object mk (deep_copy c p) h = Some (h', o) →
  (o = None ↔ p = None) ∧ ∀ ob, o = Some ob → is_Some (object_ptr ob).
Proof.
  intros Hmk E. destruct p as [p|].
  - unfold as_object, deep_copy, mbind, Mem_bind in E. destruct (load p h) as [[h1 a]|]; [|done].
    destruct (c a h1) as [[h2 a']|]; [|done]. simpl in E. injection E as _ <-.
    split; [done|]. intros ob [= <-]. rewrite Hmk. eauto.
  - injection E as <- <-. done.
Qed.

Lemma DeepCopyObject_nil o h h' o' : DeepCopyObject o h = Some (h', o') →
  (o' = None ↔ object_ptr o = None) ∧ ∀ ob, o' = Some ob → is_Some (object_ptr ob).
Proof. destruct o; apply as_object_nil; done. Qed.

(** C21. [DeepCopyObject] of a readable object, of any of the four kinds, does
    not fault and touches no cell there was.  The copy reads as the original,
    nil fields and empty ones kept apart, and goes through new cells only,
    none of them reached twice.  So whatever is later written through the
    copy leaves the original as it was, and the other way round.  A nil object
    gives the nil interface, and never an interface that holds a nil
    pointer. *)
Theorem deep_copies_are_isolated o h v L :
  view_Object o h = Some (v, L) →
  ∃ h' o', DeepCopyObject o h = Some (h', o') ∧ h ⊆ h' ∧
    (o' = None ↔ object_ptr o = None) ∧ (∀ ob, o' = Some ob → is_Some (object_ptr ob)) ∧
    ∃ L', view_Interface o' h' = Some (v, L') ∧ NoDup L' ∧ (∀ l, l ∈ L' → h !! l = None) ∧
      (∀ h2, (∀ l, l ∉ L' → h2 !! l = h' !! l) → view_Object o h2 = Some (v, L)) ∧
      (∀ h2, (∀ l, l ∈ L' → h2 !! l = h' !! l) → view_Interface o' h2 = Some (v, L')).
Proof.
  intros E. destruct (copies _ _ _ _ E) as (h' & o' & E' & Hs & L' & EV & ND & HL).
  destruct (DeepCopyObject_nil _ _ _ _ E') as [Hnil Hptr].
  exists h', o'. split_and!; [done|done|done|done|]. exists L'. split_and!; [done|done|done| |].
  - intros h2 Hh2. apply (local_frame _ h); [done|]. intros l Hl.
    destruct (local_alloc _ _ _ _ l E Hl) as [c Hc].
    rewrite Hh2 by (intros Hin; specialize (HL l Hin); congruence).
    rewrite Hc. by apply (lookup_weaken h).
  - intros h2 Hh2. by apply (local_frame _ h').
Qed.
End Objects.

(** ** The approval webhook stamps a copy *)

Section Stamp.
Context `{ExtLaws}.

(** The deep value with another gate. *)
Definition set_gate (v : Audit_of deep) (g : Gate_of deep) : Audit_of deep :=
  let s := au_Spec v in
  mkAudit_ (m := deep) (au_TypeMeta v) (au_ObjectMeta v)
    (mkAuditSpec_ (m := deep) (as_PolicyRef s) (as_PolicyUID s) (as_TriggeredAt s) (as_MetricValue s)
       (as_Actions s) (as_RevertRequested s) (Some g)) (au_Status v).

Lemma rd_ptr_load {A V : Type} `{Stored Cell (list A)} (view : A → Rd Cell V) p h v L :
  view_ptr view p h = Some (v, L) → ∃ a L', load p h = Some (h, a) ∧ view a h = Some (v, L') ∧ L = p_loc p :: L'.
Proof.
  intros E. unfold view_ptr in E. apply rd_bind_Some in E as (xs & L1 & L2 & E1 & E2 & ->).
  destruct (xs !! p_idx p) as [a|] eqn:Ea; [|done]. exists a, L2. split_and!; [|done|].
  - eapply mem_bind_intro; [by eapply rd_cell_load|]. by rewrite Ea.
  - unfold rd_cell in E1. case_match; [|done]. by injection E1 as _ <-.
Qed.

Lemma load_rd_ptr {A V : Type} `{Stored Cell (list A)} (view : A → Rd Cell V) p h a v L :
  load p h = Some (h, a) → view a h = Some (v, L) → view_ptr view p h = Some (v, p_loc p :: L).
Proof.
  intros E EV. unfold load, mbind, Mem_bind, load_cell in E. unfold view_ptr, mbind, Rd_bind, rd_cell.
  destruct (_ ≫= prj_cell) as [xs|]; [|done]. destruct (xs !! p_idx p); [|done].
  injection E as ->. by rewrite EV.
Qed.

Lemma load_agree {A : Type} `{Stored Cell (list A)} p (h h' : heap Cell) (a : A) :
  load p h = Some (h, a) → h' !! p_loc p = h !! p_loc p → load p h' = Some (h', a).
Proof.
  unfold load, mbind, Mem_bind, load_cell. intros E ->. destruct (_ ≫= prj_cell) as [xs|]; [|done].
  destruct (xs !! p_idx p); [|done]. by injection E as ->.
Qed.

(** The gate inside a readable audit whose parts share nothing: it can be read
    and replaced alone, everything else staying as it was. *)
Lemma gate_focus q h v L g :
  view_ptr view_Audit q h = Some (v, L) → NoDup L → as_Gate (m := deep) (au_Spec v) = Some g →
  ∃ pg gv Lg, load pg h = Some (h, gv) ∧ view_Gate gv h = Some (g, Lg) ∧
    NoDup (p_loc pg :: Lg) ∧ (∀ l, l ∈ p_loc pg :: Lg → l ∈ L) ∧
    ∀ h' gv', (∀ l, l ∈ L → l ≠ p_loc pg → h' !! l = h !! l) → load pg h' = Some (h', gv') →
      (∀ f, with_gate q f h' = store pg (f gv') h') ∧
      ∀ g' Lg', view_Gate gv' h' = Some (g', Lg') → ∃ L', view_ptr view_Audit q h' = Some (set_gate v g', L').
Proof.
  intros E ND Eg. apply rd_ptr_load in E as (a & L0 & Ea & Ev & ->). unfold view_Audit, view_AuditSpec in Ev.
  apply rd_bind_Some in Ev as (om & Lom & L1 & Eom & Ev & ->).
  apply rd_bind_Some in Ev as (sp & Lsp & L2 & Esp & Ev & ->).
  apply rd_bind_Some in Ev as (st & Lst & L3 & Est & [= <- <-] & ->).
  apply rd_bind_Some in Esp as (t & Lt & L4 & Et & Esp & ->).
  apply rd_bind_Some in Esp as (rs & Lrs & L5 & Ers & Esp & ->).
  apply rd_bind_Some in Esp as (og & Lpg & L6 & Epg & [= <- <-] & ->). simpl in Eg. subst og.
  destruct (as_Gate (m := raw) (au_Spec a)) as [pg|] eqn:Epa; [|done].
  apply rd_bind_Some in Epg as (g0 & L7 & L8 & Egv & [= -> <-] & ->).
  apply rd_ptr_load in Egv as (gv & Lg & Egl & Egv & ->).
  rewrite ?app_nil_r, NoDup_cons, ?NoDup_app in ND. rewrite NoDup_cons in ND.
  exists pg, gv, Lg. split_and!; [done|done|constructor; tauto| |].
  - intros l Hl. rewrite ?app_nil_r. set_solver.
  - intros h' gv' Hh' Egl'. rewrite ?app_nil_r in Hh'.
    assert (Ea' : load q h' = Some (h', a)) by (apply (load_agree _ h); [done|apply Hh'; set_solver]).
    split.
    { intros f. unfold with_gate. eapply mem_bind_intro; [done|]. rewrite Epa. by eapply mem_bind_intro. }
    intros g' Lg' Eg'. eexists. eapply load_rd_ptr; [done|]. unfold view_Audit, view_AuditSpec, set_gate.
    eapply rd_bind_intro; [apply (local_frame _ h _ _ _ Eom); intros; apply Hh'; set_solver|].
    eapply rd_bind_intro; [|eapply rd_bind_intro; [apply (local_frame _ h _ _ _ Est); intros; apply Hh'; set_solver|done]].
    eapply rd_bind_intro; [apply (local_frame _ h _ _ _ Et); intros; apply Hh'; set_solver|].
    eapply rd_bind_intro; [apply (local_frame _ h _ _ _ Ers); intros; apply Hh'; set_solver|].
    eapply rd_bind_intro; [|done]. rewrite Epa. simpl. eapply rd_bind_intro; [|done].
    by eapply load_rd_ptr.
Qed.

Lemma store_load {A : Type} `{Stored Cell (list A)} p (h : heap Cell) (a a' : A) :
  load p h = Some (h, a) → ∃ h', store p a' h = Some (h', tt) ∧ load p h' = Some (h', a') ∧
    ∀ l, l ≠ p_loc p → h' !! l = h !! l.
Proof.
  unfold load, store, mbind, Mem_bind, load_cell. intros E.
  destruct (_ ≫= prj_cell) as [xs|] eqn:Ec; [|done]. destruct (xs !! p_idx p) as [x|] eqn:Ex; [|done].
  apply lookup_lt_Some in Ex as Hlt. rewrite decide_True by done. unfold store_cell. rewrite Ec.
  eexists. split; [done|]. split.
  - rewrite lookup_insert_eq. simpl. rewrite prj_inj. by rewrite list_lookup_insert_eq.
  - intros l Hl. by rewrite lookup_insert_ne.
Qed.

(** A new variable, out of the way of all there is. *)
Lemma new_ptr_load {A : Type} `{Stored Cell (list A)} (h : heap Cell) (a : A) :
  ∃ h' p, new_ptr a h = Some (h', p) ∧ load p h' = Some (h', a) ∧ h !! p_loc p = None ∧ h ⊆ h' ∧
    ∀ l, l ≠ p_loc p → h' !! l = h !! l.
Proof.
  eexists _, (mkPtr (fresh_loc h) 0). split; [done|]. simpl. split; [|split; [apply fresh_loc_fresh|split]].
  - unfold load, mbind, Mem_bind, load_cell. rewrite lookup_insert_eq. simpl. by rewrite prj_inj.
  - apply insert_subseteq, fresh_loc_fresh.
  - intros l Hl. by rewrite lookup_insert_ne.
Qed.

Definition decided (g : Gate_of deep) (who : string) (t : Time) : Gate_of deep :=
  mkGate_ (m := deep) (gt_ActionIndex g) (gt_PendingPlugins g) (gt_Targets g) (gt_ExpiresAt g) (gt_Decision g)
    who (Some t) (gt_Reason g).

Lemma view_decided gv g L h h' who now t :
  view_Gate gv h = Some (g, L) → (∀ l, l ∈ L → h' !! l = h !! l) → load now h' = Some (h', t) →
  ∃ L', view_Gate (put_DecidedAt now (put_DecidedBy who gv)) h' = Some (decided g who t, L').
Proof.
  intros E Hh' En. unfold view_Gate in E.
  apply rd_bind_Some in E as (pp & L1 & L2 & E1 & E & ->).
  apply rd_bind_Some in E as (ts & L3 & L4 & E2 & E & ->).
  apply rd_bind_Some in E as (ex & L5 & L6 & E3 & E & ->).
  apply rd_bind_Some in E as (da & L7 & L8 & E4 & [= <- <-] & ->).
  eexists. unfold view_Gate, decided. simpl.
  eapply rd_bind_intro; [apply (local_frame _ h _ _ _ E1); set_solver|].
  eapply rd_bind_intro; [apply (local_frame _ h _ _ _ E2); set_solver|].
  eapply rd_bind_intro; [apply (local_frame _ h _ _ _ E3); set_solver|].
  eapply rd_bind_intro; [|done]. eapply rd_bind_intro; [|done]. by eapply load_rd_ptr.
Qed.

(** C11. What the approval webhook does through pointers (copy the decoded
    object, then assign the requester and the address of its clock reading to
    fields of the copy's gate) is the update [stamped] of a value that
    [AuditWebhook.Handle] marshals: the copy reads as the original with that gate, and the
    decoded object, which the code still reads for its log line, reads as it
    did.  No nil pointer is followed on the way. *)
Theorem stamp_refines_the_value_update p h v L g who t :
  view_ptr view_Audit p h = Some (v, L) → as_Gate (m := deep) (au_Spec v) = Some g →
  ∃ h' q v' L', stamp p who t h = Some (h', q) ∧
    view_ptr view_Audit q h' = Some (v', L') ∧
    value_Audit v' = stamped (value_Audit v) (value_Gate g) who t ∧
    view_ptr view_Audit p h' = Some (v, L).
Proof.
  intros E Eg. destruct (copies (c := ActionAudit_DeepCopy) h (Some p) (Some v) (L ++ [])) as (h1 & o & E1 & F).
  { simpl. by eapply rd_bind_intro. }
  destruct F as (Hs & L1 & EF & ND & HL). destruct o as [q|]; [|done].
  apply rd_bind_Some in EF as (v1 & L1' & L2 & EF & [= -> <-] & ->). rewrite app_nil_r in *.
  destruct (gate_focus _ _ _ _ _ EF ND Eg) as (pg & gv & Lg & Egl & Egv & NDg & Hin & Hfocus).
  destruct (new_ptr_load h1 t) as (h2 & now & E2 & En & Hfresh & Hs2 & Ho2).
  assert (Hnow : ∀ l, l ∈ L1' → l ≠ p_loc now).
  { intros l Hl ->. destruct (local_alloc _ _ _ _ _ EF Hl) as [c Hc]. congruence. }
  assert (Hpg : p_loc pg ≠ p_loc now) by (apply Hnow, Hin; left).
  assert (Egl2 : load pg h2 = Some (h2, gv)) by (apply (load_agree _ h1); auto).
  destruct (Hfocus h2 gv) as [Hw2 _]; [auto|done|].
  destruct (store_load _ _ _ (put_DecidedBy who gv) Egl2) as (h3 & E3 & Egl3 & Ho3).
  destruct (Hfocus h3 (put_DecidedBy who gv)) as [Hw3 _]; [intros; rewrite Ho3; auto|done|].
  destruct (store_load _ _ _ (put_DecidedAt now (put_DecidedBy who gv)) Egl3) as (h4 & E4 & Egl4 & Ho4).
  assert (Ho : ∀ l, l ≠ p_loc pg → l ≠ p_loc now → h4 !! l = h1 !! l).
  { intros l H1' H2'. by rewrite Ho4, Ho3, Ho2. }
  destruct (view_decided gv g Lg h1 h4 who now t) as [L4 Ev4]; [done| | |].
  { intros l Hl. apply Ho; [|apply Hnow, Hin; by right]. intros ->. by apply NoDup_cons in NDg as [? _]. }
  { apply (load_agree _ h2); [done|]. rewrite Ho4, Ho3; auto. }
  destruct (Hfocus h4 (put_DecidedAt now (put_DecidedBy who gv))) as [_ Hv4]; [intros; apply Ho; auto|done|].
  destruct (Hv4 _ _ Ev4) as [L5 Ev5].
  exists h4, q, (set_gate v (decided g who t)), L5. split_and!; [|done|done|].
  - unfold stamp. eapply mem_bind_intro; [done|]. eapply mem_bind_intro; [done|].
    eapply mem_bind_intro; [by rewrite Hw2|]. eapply mem_bind_intro; [by rewrite Hw3|done].
  - apply (local_frame _ h); [done|]. intros l Hl. destruct (local_alloc _ _ _ _ _ E Hl) as [c Hc].
    assert (Hc1 : h1 !! l = Some c) by by apply (lookup_weaken h).
    rewrite Ho; [congruence| |congruence]. intros ->. rewrite (HL (p_loc pg)) in Hc; [done|]. apply Hin. left.
Qed.
End Stamp.

(** ** The theorems on a concrete heap *)

Module Demo.
(** JSON bytes and object metadata live in a cell of their package; the other
    types have no references. *)
#[export] Instance types : ExtTypes := {|
  xJSON := loc; xObjectMeta := loc; xListMeta := string; xLabelSelector := LabelSelector;
  xCondition := Condition; xSecretKeySelector := SecretKeySelector; XListMeta := string;
  xCell := string + ObjectMeta |}.

Definition leaf {V : Type} (get : string + ObjectMeta → option V) (l : loc) : Rd Cell V :=
  c ← rd_cell (Cell := @Cell types) (C := @xCell types) l; match get c with Some v => mret v | None => rd_fault end.
Definition copy_leaf (l : loc) : Mem Cell loc := c ← load_cell (C := @xCell types) l; new_cell (C := @xCell types) c.
Definition bytes (c : string + ObjectMeta) : option string := match c with inl s => Some s | inr _ => None end.
Definition meta (c : string + ObjectMeta) : option ObjectMeta := match c with inr m => Some m | inl _ => None end.

#[export] Instance ops : ExtOps := {|
  view_JSON := leaf bytes; view_ObjectMeta := leaf meta; view_ListMeta := view_flat;
  view_LabelSelector := view_flat; view_Condition := view_flat; view_SecretKeySelector := view_flat;
  JSON_DeepCopyInto := copy_leaf; JSON_DeepCopy := λ x, x' ← copy_leaf x; new_ptr x';
  ObjectMeta_DeepCopyInto := copy_leaf; ListMeta_DeepCopyInto := copy_flat;
  LabelSelector_DeepCopyInto := copy_flat; Condition_DeepCopyInto := copy_flat;
  SecretKeySelector_DeepCopyInto := copy_flat; Time_DeepCopyInto := copy_flat;
  Time_DeepCopy := copy_ptr (copy_flat (V := Time)); Range := map_to_list |}.

#[export] Instance local_leaf {V : Type} (get : _ → option V) l : Local (leaf get l).
Proof. unfold leaf. apply local_bind; [apply _|]. intros c. destruct (get c); apply _. Qed.

#[export] Instance copies_leaf {V : Type} (get : _ → option V) : Copies (leaf get) (leaf get) copy_leaf.
Proof.
  intros h l v L E. unfold leaf in E. apply rd_bind_Some in E as (c & L1 & L2 & E1 & E2 & ->).
  eexists _, _. split.
  - unfold copy_leaf. eapply mem_bind_intro; [by eapply rd_cell_load|done].
  - unfold leaf. apply fresh_view_cell; [intros c'; destruct (get c'); apply _|].
    destruct (get c) as [w|]; [|done]. injection E2 as <- <-. apply fresh_view_ret.
Qed.

Lemma copies_boxed {A V : Type} `{Stored Cell (list A)} (view : A → Rd Cell V) c :
  Copies view view c → (∀ a, Local (view a)) → Copies view (view_ptr view) (λ x, x' ← c x; new_ptr x').
Proof.
  intros Hc Hl h a v L E. destruct (copies _ _ _ _ E) as (h1 & a' & E1 & F).
  eexists _, (mkPtr (fresh_loc h1) 0). split; [by eapply mem_bind_intro|].
  unfold view_ptr. simpl p_loc. apply fresh_view_cell; [intros; case_match; apply _|done].
Qed.

#[export] Instance laws : ExtLaws.
Proof. constructor; simpl; try apply _; [apply copies_boxed; apply _|done]. Qed.

(** An audit at 1 that waits at a gate, and a policy at 2 whose action has parameters. *)
Definition gate : Gate_of raw :=
  mkGate_ (m := raw) 0 (Some (mkSlice 4%positive 1%nat 1%nat)) (Some (mkSlice 5%positive 0%nat 0%nat)) zero_Time "Approved" "" None "ok".
Definition audit : Audit_of raw :=
  mkAudit_ (m := raw) (mkTypeMeta "ActionAudit" "v1alpha1") 6%positive
    (mkAuditSpec_ (m := raw) "p" "u" zero_Time "1.5" (Some (mkSlice 7%positive 0%nat 1%nat)) false (Some (mkPtr 3%positive 0%nat)))
    (mkAuditStatus_ (m := raw) false None None "Pending" None (Some (mkSlice 8%positive 0%nat 1%nat))).
Definition policy : Policy_of raw :=
  mkPolicy_ (m := raw) (mkTypeMeta "ReactivePolicy" "v1alpha1") 6%positive
    (mkPolicySpec_ (m := raw)
       (mkTarget_ (m := raw) (mkSelector ∅ []) None (Some (mkPtr 10%positive 0%nat)))
       (mkObserve_ (m := raw) "prometheus" "http://p" "up" "1" "GreaterThan" 0 0 None)
       (Some (mkSlice 11%positive 0%nat 1%nat)) 0 None false 0 None)
    (mkPolicyStatus_ (m := raw) "Watching" (Some (mkPtr 13%positive 0%nat)) None 0 "" "" None).
Definition the_heap : heap Cell := list_to_map [
  (1%positive, CAudit [audit]);
  (2%positive, CPolicy [policy]);
  (3%positive, CGate [gate]);
  (4%positive, CString ["done"; "k8s.annotate"]%string);
  (5%positive, CAuditTarget []);
  (6%positive, CExt (inr (mkMeta "a" "" "ns" "uid" "7" 1 zero_Time ∅)));
  (7%positive, CRecord [mkRecord_ (m := raw) 0 "id" "mesh.shift" (mkAuditTarget "" "" "" "") "Succeeded" "" true
                          (Some (mkPtr 9%positive 0%nat))]);
  (8%positive, CCondition [mkCondition "Ready" "True" "r" "m" 1 zero_Time]);
  (9%positive, CJSON [14%positive]);
  (10%positive, CInt32 [3]);
  (11%positive, CAction [mkAction (m := raw) "k8s.annotate" (Some 12%positive) "stop" true]);
  (12%positive, CParams {[ "key"%string := 14%positive; "value"%string := 15%positive ]});
  (13%positive, CTime [zero_Time]);
  (14%positive, CExt (inl "bytes"%string));
  (15%positive, CExt (inl "more"%string)) ].
End Demo.
Import Demo.

Lemma deep_copies_are_isolated_witness :
  let o := ObjReactivePolicy (Some (mkPtr 2%positive 0%nat)) in
  ∃ v L, view_Object o Demo.the_heap = Some (v, L) ∧
    ∃ h' o', DeepCopyObject o Demo.the_heap = Some (h', o') ∧
      ∃ L', view_Interface o' h' = Some (v, L') ∧ ∀ l, l ∈ L' → Demo.the_heap !! l = None.
Proof.
  assert (E : ∃ v L, view_Object (ObjReactivePolicy (Some (mkPtr 2%positive 0%nat))) Demo.the_heap = Some (v, L))
    by (vm_compute; eauto).
  destruct E as (v & L & E). exists v, L. split; [exact E|].
  destruct (deep_copies_are_isolated _ _ _ _ E) as (h' & o' & E' & _ & _ & _ & L' & EV & _ & HL & _).
  exists h', o'. split; [exact E'|]. exists L'. split; [exact EV|exact HL].
Defined.

Lemma stamp_refines_the_value_update_witness :
  ∃ v L g h' q v' L', view_ptr view_Audit (mkPtr 1%positive 0%nat) Demo.the_heap = Some (v, L) ∧
    stamp (mkPtr 1%positive 0%nat) "alice" (5 * Second) Demo.the_heap = Some (h', q) ∧
    view_ptr view_Audit q h' = Some (v', L') ∧
    value_Audit v' = stamped (value_Audit v) (value_Gate g) "alice" (5 * Second) ∧
    view_ptr view_Audit (mkPtr 1%positive 0%nat) h' = Some (v, L).
Proof.
  assert (E : ∃ v L g, view_ptr view_Audit (mkPtr 1%positive 0%nat) Demo.the_heap = Some (v, L) ∧
                as_Gate (m := deep) (au_Spec v) = Some g) by (vm_compute; eauto).
  destruct E as (v & L & g & E & Eg).
  destruct (stamp_refines_the_value_update _ _ _ _ _ "alice" (5 * Second) E Eg) as (h' & q & v' & L' & E1 & E2 & E3 & E4).
  exists v, L, g, h', q, v', L'. split; [exact E|]. split; [exact E1|]. split; [exact E2|]. split; [exact E3|exact E4].
Defined.
